(* ===== verification/_CoqProject ===== *)
-Q . S2P
Prelude.v
Effects.v
Storage.v
Messages.v
RaftLog.v
LogSpec.v
LogProofs.v
LogRecovery.v
LogTheorems.v
Text.v
Resp.v
Command.v
Session.v
KVStore.v
KVStateMachine.v
KVProofs.v
KVTheorems.v
KVSnapshot.v
KVReplay.v
Namespace.v
EventLog.v
Metrics.v
Prometheus.v
Policies.v
Executor.v
Peers.v
Config.v
RaftCodec.v
PeerManager.v
RaftState.v
RaftNode.v
Server.v
ServerAccounting.v
Conversation.v
ServerConversation.v
ServerWrites.v
ServerFlush.v
ServerIdle.v
ServerTermination.v
ServerTheorems.v
RaftProtocol.v
ProtocolSafety.v
ProtocolInvariant.v
ProtocolSteps.v
ProtocolTheorems.v
ProtocolReads.v
NodeView.v
NodeCalm.v
NodeReads.v
NodeApply.v
NodeCommit.v
NodeElection.v
NodeVotes.v
NodeFollower.v
NodeLeader.v
NodeInstall.v
NodeLife.v
Cluster.v
ClusterRun.v
ClusterSafety.v
ClusterTheorems.v
