(* ===== verification/Prelude.v ===== *)
(** * Raft-KV: a verification library

    Raft-KV is a replicated key/value server in C++: clients speak RESP over TCP,
    a Raft node per server replicates their writes, and every server applies the
    committed writes to a RocksDB store.  This library is a shallow embedding of
    its sources (paths below are relative to [src/src/]) and the theorems that make
    it correct.

    ** The program and its model

    - [raftcore/raft_log.{h,cc}], the durable log: [RaftLog] (every member
      function).  [LogSpec] is the abstract log and the representation of it in the
      database, [LogProofs] and [LogRecovery] prove that each operation and the
      constructor implement it under storage faults, [LogTheorems] states it for
      whole runs with a crash in the middle.
    - [storage/rocksdb_store.{h,cpp}], [raft/kv_state_machine.{h,cc}]: [KVStore] and
      [KVStateMachine]; [KVProofs], [KVTheorems], [KVSnapshot] prove that batches are
      the sequential application of their commands, that data and applied index move
      together, that a retried request is answered once, and that snapshots
      round-trip.  [KVReplay] defines what a sequence of log entries leaves in the
      store and answers, the reference the replicas are compared with.
    - [common/resp_parser.h], [command_buffer.h], [command_type.h],
      [session_queue.h]: [Text], [Resp], [Command], [Session], from the bytes of a
      connection to its queue of commands.
    - [common/metrics.h], [raft/peers.h], [raft/raft_codec.h]: [Metrics], [Peers],
      [RaftCodec].
    - [proto/raft_messages.proto]: [Messages].
    - [raft/raft_node.{h,cc}], the Raft node: [RaftState] (the members of the class
      as records, the environment it consults) and [RaftNode] (every member
      function, every branch).
    - [raft/apply_executor.h], [raft/serial_apply_executor.{h,cc}]: [Executor], the
      worker thread and the owner's calls as steps on the shared members, the mutex and
      the condition variable.
    - [raft/peer_manager.{h,cc}], [common/peer_retry_policy.h]: [PeerManager] and
      [Policies], connections between servers, framing and dispatch.
    - [namespace/namespace_manager.{h,cc}]: [Namespace]; [common/batch_flush_policy.h]:
      [Policies]; [common/prometheus_text.h]: [Prometheus]; [common/log.h]: [EventLog].
    - [server/main.cpp]: [Config] (flags, peers, the checks of [RunServer]), [Server]
      (client sessions, the write queue, reads, the metrics endpoint, the event loop's
      functors and timers), and [Cluster] (dispatch of peer messages, the fail-stop of
      [main]).

    ** How C++ is represented

    [Effects]: a member function is a function of type [M S A], from the object to a
    result or exception and the object it leaves; an exception rolls nothing back.
    Assignments are record updates.  Integers are [Z] with their wrap-around written
    out where the sources can reach it ([uN]); byte strings are lists of bytes; maps
    are [gmap].  Counters that only feed statistics, 64-bit in the sources, do not wrap.
    A loop is a structural recursion on what it consumes or has a fuel
    that a lemma shows to suffice: the length of the text for the Prometheus loop, the
    length of the buffer for the dispatch of frames, the budget of 128 turns that the
    sources themselves have for draining and flushing.

    What is linked rather than written here is a parameter: RocksDB ([Storage]:
    atomic, ordered, durable batches, any call may fail, a failed write happened
    entirely or not at all; what a read returns depends on the database's state, so a
    fault of reads comes and goes with writes only), the generated protobuf code ([Messages]: parsing inverts
    serializing), and [Env] ([RaftState]: the clock, the random timeouts, whether a
    connection accepts a message, whether the executor accepts work).  [MemDB] and
    [PlainCodec] are concrete instances, used by every witness.

    ** The Raft node is safe

    The argument has three layers.
    - [RaftProtocol] is Raft as a transition system of abstract nodes;
      [ProtocolSafety], [ProtocolInvariant], [ProtocolSteps] and [ProtocolTheorems]
      prove it safe by an inductive invariant on its history.  It also records the
      reads asked for and the answers received, and [ProtocolReads] proves that a read
      confirmed by a majority comes after every write acknowledged before it.
    - [NodeView] says how an object of [RaftNode] and its two databases represent an
      abstract node, also after an exception; the other [Node...] files prove that
      every member function, on every branch, performs a sequence of actions of the
      protocol: [NodeCalm] (no action), [NodeReads], [NodeApply], [NodeCommit], [NodeElection],
      [NodeVotes], [NodeFollower], [NodeLeader], [NodeInstall], [NodeLife].
    - [Cluster] is a cluster of processes running the code over a network that loses,
      duplicates, delays and reorders messages; a process whose code throws stops,
      any process can crash between two calls and restart from its databases.
      [ClusterSafety] lifts the node results to it, and [ClusterTheorems] states
      refinement, election safety, log matching, leader completeness, state machine
      safety, uniqueness of votes, durability of acknowledged writes and their replies,
      linearizability of reads, agreement of the key-value databases, restart after any crash and append-only
      leaders for the code.
      [Requests] ([RaftProtocol]) names what the clients ask for, the command of each
      write and the writes each read comes after, and two liberties of the cluster.
      With [leases], [SetLeaseReads] may be turned on.  With [crossing], the answer to a
      request for log replication may reach a process other than the one that sent the
      request, namely one that the member started after a crash; without, the cluster
      delivers it only to the process that sent the request, for which it records the
      cause of every message and the birth of every process ([cl_cause], [cl_born]).
      The sources behave like the latter: a manager keeps for a peer the connection its
      last message came in on and answers there ([PeerManager]), and connections end
      with the process.  The theorem on reads assumes that there are neither, and the
      others assume nothing of the kind: with leases a read relies on the members'
      clocks, which the model leaves arbitrary, and the identifiers of requests start
      over with the process.  That they are not reused within a process is part of what
      is proved ([numbered] in [NodeView]).
      [ClusterRun] executes concrete schedules of a three-node cluster, on which the
      theorems are instantiated.

    ** The server serves its clients

    Functions of [main.cpp] and the node call one another: a callback of the node may
    run inside the server's own call and start the next command, which calls the node
    again.  [Server] therefore has an explicit call stack and a step of the thread
    ([machine_step]), in which the node is a frame on which callbacks are pushed until
    it returns; muduo's connections, queued functors and timers are part of the state,
    and what the clock, the socket and the node's getters say at a step is a parameter
    ([StepEnv]).  The theorems hold of every reachable state, for any clients and any
    node:
    - [ServerAccounting]: the counters of bytes are exact and the limits hold;
    - [Conversation] is the conversation with one client as an abstract machine, with
      its invariant; [ServerConversation] proves that the server is a simulation of one
      conversation per connection;
    - [ServerWrites], [ServerFlush], [ServerIdle], [ServerTermination]: proposals are
      valid, queued writes are flushed, no session is forgotten, every handler returns;
    - [ServerTheorems] states these for the code and instantiates them on a run, and
      shows that an incomplete frame keeps the event loop from blocking.

    ** Not modelled

    What the components write to the event log (other than role changes, which are
    effects of the node); sockets and the event loop's own code, of which [Server] and
    [PeerManager] use what muduo documents; the construction and wiring of the objects
    in [RunServer], the memory that buffers keep and what its exhaustion does (the
    [reserve] of a snapshot's announced count among it), null pointers passed to the
    constructor of the node.  A peer's message that does not parse, which
    [OnRaftMessage] drops, is a lost message of the cluster.  In the cluster a callback does not
    re-enter the node, as the class's comment asks.  A process stops between two calls
    of the node or when the code throws; a crash in the middle of a call leaves what the
    call's writes left, which is a call that throws at the next write. *)
From stdpp Require Import base numbers strings sorting gmap list.
From Stdlib Require Import ZArith Strings.Byte.

#[global] Set Default Goal Selector "!".

(** * Byte strings

    A C++ [std::string] holds arbitrary octets, so it is a list of bytes here.
    Lengths ([size_t]) are integers. *)

Abbreviation bytes := (list Byte.byte).

Declare Scope kv_scope.
Delimit Scope kv_scope with kv.
#[global] Open Scope Z_scope.
#[global] Open Scope kv_scope.

#[export] Instance byte_eq_dec : EqDecision Byte.byte := Byte.byte_eq_dec.

#[export] Program Instance byte_countable : Countable Byte.byte :=
  inj_countable Byte.to_N Byte.of_N _.
Next Obligation. intros b. apply Byte.of_to_N. Qed.

Definition Z_of_byte (b : Byte.byte) : Z := Z.of_N (Byte.to_N b).
Definition byte_of_Z (z : Z) : Byte.byte :=
  default Byte.x00 (Byte.of_N (Z.to_N (z mod 256))).

(** The bytes of an ASCII literal. *)
Definition lit (s : string) : bytes := String.list_byte_of_string s.

Notation "'#' l" := (Z.of_nat (length l)) (at level 9, l at level 9, format "# l") : kv_scope.

Lemma Z_of_byte_range b : 0 <= Z_of_byte b < 256.
Proof.
  unfold Z_of_byte. pose proof (Byte.to_N_bounded b). lia.
Qed.

Lemma Z_of_byte_of_Z z : Z_of_byte (byte_of_Z z) = z mod 256.
Proof.
  unfold Z_of_byte, byte_of_Z.
  pose proof (Z.mod_pos_bound z 256 ltac:(lia)) as Hz.
  destruct (Byte.of_N (Z.to_N (z mod 256))) as [b|] eqn:E; simpl.
  - apply Byte.to_of_N in E. rewrite E. lia.
  - apply Byte.of_N_None_iff in E. lia.
Qed.

Lemma byte_of_Z_of_byte b : byte_of_Z (Z_of_byte b) = b.
Proof.
  unfold byte_of_Z, Z_of_byte.
  pose proof (Byte.to_N_bounded b) as Hb.
  rewrite Z.mod_small by lia. rewrite N2Z.id, Byte.of_to_N. done.
Qed.

#[export] Instance Z_of_byte_inj : Inj (=) (=) Z_of_byte.
Proof. intros a b E. rewrite <- (byte_of_Z_of_byte a), <- (byte_of_Z_of_byte b). by f_equal. Qed.

(** * Machine integers *)

Definition INT32_MAX : Z := 2 ^ 31 - 1.
Definition INT64_MAX : Z := 2 ^ 63 - 1.
Definition UINT32_MAX : Z := 2 ^ 32 - 1.
Definition UINT64_MAX : Z := 2 ^ 64 - 1.

(** Conversion to an unsigned type of [w] bits. *)
Definition uN (w : Z) (z : Z) : Z := z mod 2 ^ w.
(** Conversion to a two's complement type of [w] bits. *)
Definition sN (w : Z) (z : Z) : Z := (z + 2 ^ (w - 1)) mod 2 ^ w - 2 ^ (w - 1).

Lemma uN_small w z : 0 <= z < 2 ^ w -> uN w z = z.
Proof. apply Z.mod_small. Qed.
Lemma uN_range w z : 0 <= w -> 0 <= uN w z < 2 ^ w.
Proof. intros. apply Z.mod_pos_bound. lia. Qed.
Lemma sN_small w z : 0 < w -> - 2 ^ (w - 1) <= z < 2 ^ (w - 1) -> sN w z = z.
Proof.
  intros Hw Hz. unfold sN.
  assert (2 ^ w = 2 * 2 ^ (w - 1)) as E.
  { rewrite <- Z.pow_succ_r by lia. f_equal. lia. }
  rewrite Z.mod_small by lia. lia.
Qed.

(** * Fixed-width encodings

    [be_put n v] is the loop [for (i = n-1; i >= 0; --i) { out[i] = v & 0xff; v >>= 8; }],
    [le_put n v] writes the least significant byte first, and [be_get w] is the loop
    [value = (value << 8) | byte] on a [w]-bit unsigned accumulator. *)

Fixpoint be_put (n : nat) (v : Z) : bytes :=
  match n with
  | O => []
  | S n => be_put n (Z.shiftr v 8) ++ [byte_of_Z (Z.land v 255)]
  end.

Fixpoint le_put (n : nat) (v : Z) : bytes :=
  match n with
  | O => []
  | S n => byte_of_Z (Z.land v 255) :: le_put n (Z.shiftr v 8)
  end.

Definition be_step (w : Z) (acc : Z) (b : Byte.byte) : Z :=
  Z.lor (uN w (Z.shiftl acc 8)) (Z_of_byte b).
Definition be_get (w : Z) (l : bytes) : Z := foldl (be_step w) 0 l.

(** [fields |= uint32_t(byte) << (8 * i)] over the bytes of [l]. *)
Fixpoint le_get (l : bytes) : Z :=
  match l with
  | [] => 0
  | b :: l => Z.lor (Z_of_byte b) (Z.shiftl (le_get l) 8)
  end.

Lemma length_be_put n v : length (be_put n v) = n.
Proof. revert v; induction n as [|n IH]; intros v; simpl; [done|]. rewrite length_app, IH. simpl. lia. Qed.
Lemma length_le_put n v : length (le_put n v) = n.
Proof. revert v; induction n as [|n IH]; intros v; simpl; [done|]. by rewrite IH. Qed.

Lemma land_255 z : Z.land z 255 = z mod 256.
Proof. change 255 with (Z.ones 8). by rewrite Z.land_ones by lia. Qed.

Lemma byte_nocarry acc b : Z.land (Z_of_byte b) (acc * 2 ^ 8) = 0.
Proof.
  pose proof (Z_of_byte_range b) as Hb.
  apply Z.bits_inj'. intros n Hn. rewrite Z.land_spec, Z.bits_0.
  destruct (decide (n < 8)) as [H|H].
  - rewrite (Z.mul_pow2_bits_low acc 8 n) by lia. by rewrite andb_false_r.
  - rewrite <- (Z.mod_small (Z_of_byte b) (2 ^ 8)) by lia.
    by rewrite Z.mod_pow2_bits_high by lia.
Qed.

Lemma lor_shiftl_byte acc b :
  Z.lor (Z.shiftl acc 8) (Z_of_byte b) = acc * 256 + Z_of_byte b.
Proof.
  rewrite Z.shiftl_mul_pow2 by lia. rewrite Z.lor_comm.
  rewrite <- Z.lxor_lor, <- Z.add_nocarry_lxor by apply byte_nocarry. lia.
Qed.

(** The value of a big-endian byte string, without the accumulator's width. *)
Definition be_val (l : bytes) : Z := foldl (fun acc b => acc * 256 + Z_of_byte b) 0 l.

Lemma be_val_app l b : be_val (l ++ [b]) = be_val l * 256 + Z_of_byte b.
Proof. unfold be_val. by rewrite foldl_app. Qed.

Lemma be_val_range l : 0 <= be_val l < 2 ^ (8 * #l).
Proof.
  induction l as [|b l IH] using rev_ind; [unfold be_val; simpl; lia|].
  rewrite be_val_app, length_app. simpl length. pose proof (Z_of_byte_range b).
  replace (8 * Z.of_nat (length l + 1)) with (8 * #l + 8) by lia.
  rewrite Z.pow_add_r by lia. change (2 ^ 8) with 256. nia.
Qed.

Lemma be_get_val w l : 8 * #l <= w -> be_get w l = be_val l.
Proof.
  induction l as [|b l IH] using rev_ind; [done|].
  rewrite length_app. simpl length. intros Hw.
  unfold be_get. rewrite foldl_app. simpl. fold (be_get w l).
  rewrite IH by lia. rewrite be_val_app. unfold be_step.
  pose proof (be_val_range l) as Hl. rewrite uN_small; [apply lor_shiftl_byte|].
  rewrite Z.shiftl_mul_pow2 by lia. split; [lia|].
  apply Z.lt_le_trans with (2 ^ (8 * #l + 8)).
  - rewrite Z.pow_add_r by lia. apply Z.mul_lt_mono_pos_r; lia.
  - apply Z.pow_le_mono_r; lia.
Qed.

Lemma be_val_put n v : be_val (be_put n v) = v mod 2 ^ (8 * Z.of_nat n).
Proof.
  revert v. induction n as [|n IH]; intros v; [by rewrite Z.mod_1_r|].
  cbn [be_put]. rewrite be_val_app, IH, Z_of_byte_of_Z, land_255, Zmod_mod.
  rewrite Z.shiftr_div_pow2 by lia.
  replace (8 * Z.of_nat (S n)) with (8 + 8 * Z.of_nat n) by lia.
  rewrite Z.pow_add_r by lia. change (2 ^ 8) with 256.
  rewrite Z.rem_mul_r by lia. lia.
Qed.

Lemma be_get_put w n v :
  8 * Z.of_nat n <= w -> be_get w (be_put n v) = v mod 2 ^ (8 * Z.of_nat n).
Proof. intros. rewrite be_get_val, be_val_put; [done|]. by rewrite length_be_put. Qed.

Lemma be_put_val l : be_put (length l) (be_val l) = l.
Proof.
  induction l as [|b l IH] using rev_ind; [done|].
  rewrite length_app. simpl length. rewrite Nat.add_1_r. cbn [be_put].
  pose proof (Z_of_byte_range b) as Hb. rewrite be_val_app.
  rewrite land_255, Z.shiftr_div_pow2 by lia. change (2 ^ 8) with 256.
  rewrite Z.div_add_l by lia. rewrite (Z.div_small (Z_of_byte b)) by lia.
  rewrite Z.add_0_r, IH. rewrite Z.add_comm, Z_mod_plus_full, Z.mod_small by lia.
  by rewrite byte_of_Z_of_byte.
Qed.

Lemma be_val_inj l1 l2 : length l1 = length l2 -> be_val l1 = be_val l2 -> l1 = l2.
Proof. intros Hl Hv. rewrite <- (be_put_val l1), <- (be_put_val l2). congruence. Qed.

Lemma be_put_inj n v1 v2 :
  0 <= v1 < 2 ^ (8 * Z.of_nat n) -> 0 <= v2 < 2 ^ (8 * Z.of_nat n) ->
  be_put n v1 = be_put n v2 -> v1 = v2.
Proof.
  intros H1 H2 E. apply (f_equal be_val) in E. rewrite !be_val_put in E.
  by rewrite !Z.mod_small in E by done.
Qed.

Lemma le_get_put n v : le_get (le_put n v) = v mod 2 ^ (8 * Z.of_nat n).
Proof.
  revert v. induction n as [|n IH]; intros v; [by rewrite Z.mod_1_r|].
  cbn [le_put le_get]. rewrite Z.lor_comm, IH, lor_shiftl_byte.
  rewrite Z_of_byte_of_Z, land_255, Zmod_mod.
  rewrite Z.shiftr_div_pow2 by lia.
  replace (8 * Z.of_nat (S n)) with (8 + 8 * Z.of_nat n) by lia.
  rewrite Z.pow_add_r by lia. change (2 ^ 8) with 256.
  rewrite Z.rem_mul_r by lia. lia.
Qed.

(** * Lists *)

Lemma take_app_exact {A} n (l1 l2 : list A) : length l1 = n -> take n (l1 ++ l2) = l1.
Proof. intros <-. by rewrite take_app_length. Qed.
Lemma drop_app_exact {A} n (l1 l2 : list A) : length l1 = n -> drop n (l1 ++ l2) = l2.
Proof. intros <-. by rewrite drop_app_length. Qed.

#[global] Opaque be_put le_put be_get le_get byte_of_Z Z_of_byte.
