(* ===== verification/Effects.v ===== *)
(** Effects of the C++ code: exceptions, mutable objects and loops.

    A member function that mutates its object and may throw is a function of
    type [M S A]: from the object's state to a result and the state it leaves.
    An exception does not roll the state back, exactly as in C++: what was
    assigned before the [throw] stays assigned.  The file also holds the record
    update notation [s <| field := v |>] used for assignments, and the
    compositional rules ([wp], [evolves]) by which the components' invariants
    are proved. *)
From stdpp Require Import base numbers strings gmap list.
From S2P Require Import Prelude.

(** * Exceptions *)

(** The standard exception classes the sources throw, with [what()].
    [OutOfBounds] is not an exception: it marks a read the C++ standard leaves
    undefined. *)
Inductive exn :=
  | runtime_error (what : string)
  | invalid_argument (what : string)
  | length_error (what : string)
  | overflow_error (what : string)
  | out_of_range (what : string)
  | OutOfBounds.

Inductive result (A : Type) :=
  | Ok (a : A)
  | Err (e : exn).
Arguments Ok {A} a.
Arguments Err {A} e.

#[export] Instance exn_eq_dec : EqDecision exn.
Proof. solve_decision. Defined.
#[export] Instance result_eq_dec `{EqDecision A} : EqDecision (result A).
Proof. solve_decision. Defined.

Definition is_ok {A} (r : result A) : bool := match r with Ok _ => true | Err _ => false end.

#[export] Instance result_ret : MRet result := fun A a => Ok a.
#[export] Instance result_bind : MBind result := fun A B f r =>
  match r with Ok a => f a | Err e => Err e end.
#[export] Instance result_fmap : FMap result := fun A B f r =>
  match r with Ok a => Ok (f a) | Err e => Err e end.

(** * Stateful computations that may throw *)

Definition M (S A : Type) : Type := S -> result A * S.

#[export] Instance M_ret S : MRet (M S) := fun A a s => (Ok a, s).
#[export] Instance M_bind S : MBind (M S) := fun A B f m s =>
  match m s with
  | (Ok a, s') => f a s'
  | (Err e, s') => (Err e, s')
  end.

Definition throw {S A} (e : exn) : M S A := fun s => (Err e, s).
Definition get {S} : M S S := fun s => (Ok s, s).
Definition gets {S A} (f : S -> A) : M S A := fun s => (Ok (f s), s).
Definition modify {S} (f : S -> S) : M S unit := fun s => (Ok tt, f s).
Definition lift_result {S A} (r : result A) : M S A := fun s => (r, s).
Definition when {S} (b : bool) (m : M S unit) : M S unit := if b then m else mret tt.

(** [try { m } catch (const std::exception&) { handler; throw; }] *)
Definition on_exception {S A} (m : M S A) (handler : M S unit) : M S A := fun s =>
  match m s with
  | (Ok a, s') => (Ok a, s')
  | (Err e, s') =>
      match handler s' with
      | (Ok _, s'') => (Err e, s'')
      | (Err e', s'') => (Err e', s'')
      end
  end.

(** A range-[for] over a container the body does not modify. *)
Fixpoint for_each {S A} (l : list A) (body : A -> M S unit) : M S unit :=
  match l with
  | [] => mret tt
  | x :: l => body x;; for_each l body
  end.

(** A call on a sub-object. *)
Definition lens {S T A} (proj : S -> T) (upd : T -> S -> S) (m : M T A) : M S A := fun s =>
  match m (proj s) with (r, t) => (r, upd t s) end.

Lemma M_bind_unfold {S A B} (m : M S A) (f : A -> M S B) s :
  (m ≫= f) s = match m s with
               | (Ok a, s') => f a s'
               | (Err e, s') => (Err e, s')
               end.
Proof. done. Qed.

Lemma M_bind_ok {S A B} (m : M S A) (f : A -> M S B) s a s' :
  m s = (Ok a, s') -> (m ≫= f) s = f a s'.
Proof. intros E. by rewrite M_bind_unfold, E. Qed.

Lemma M_bind_err {S A B} (m : M S A) (f : A -> M S B) s e s' :
  m s = (Err e, s') -> (m ≫= f) s = (Err e, s').
Proof. intros E. by rewrite M_bind_unfold, E. Qed.

Lemma M_bind_ok_inv {S A B} (m : M S A) (f : A -> M S B) s b s'' :
  (m ≫= f) s = (Ok b, s'') ->
  exists a s', m s = (Ok a, s') /\ f a s' = (Ok b, s'').
Proof. rewrite M_bind_unfold. destruct (m s) as [[a|e] s']; [eauto|done]. Qed.

(** A run is its result and its final state. *)
Lemma run_ok {S A} (m : M S A) s a : (m s).1 = Ok a -> m s = (Ok a, (m s).2).
Proof. destruct (m s). by intros [= ->]. Qed.

(** * Weakest preconditions *)

Definition wp {S A} (m : M S A) (Q : result A -> S -> Prop) (s : S) : Prop :=
  Q (m s).1 (m s).2.

Lemma wp_ret {S A} (a : A) Q (s : S) : Q (Ok a) s -> wp (mret a) Q s.
Proof. done. Qed.
Lemma wp_throw {S A} e Q (s : S) : Q (Err e) s -> wp (@throw S A e) Q s.
Proof. done. Qed.
Lemma wp_bind {S A B} (m : M S A) (f : A -> M S B) Q s :
  wp m (fun r s' => match r with Ok a => wp (f a) Q s' | Err e => Q (Err e) s' end) s ->
  wp (m ≫= f) Q s.
Proof. unfold wp. rewrite M_bind_unfold. by destruct (m s) as [[a|e] s']. Qed.
Lemma wp_consequence {S A} (m : M S A) (Q Q' : result A -> S -> Prop) s :
  wp m Q s -> (forall r s', Q r s' -> Q' r s') -> wp m Q' s.
Proof. unfold wp. eauto. Qed.

(** * Evolution of the state

    [evolves R m]: whatever [m] returns, an exception included, it takes the
    state [s] to a state related to [s] by [R].  With [R] a preorder this is
    closed under sequencing, branching and loops, and covers both monotonicity
    ("the term never decreases") and invariance ([I s -> I s']). *)

Definition evolves {S A} (R : relation S) (m : M S A) : Prop := forall s, R s (m s).2.

Lemma evolves_run {S A} (R : relation S) (m : M S A) s r s' : evolves R m -> m s = (r, s') -> R s s'.
Proof. intros Hm E. specialize (Hm s). by rewrite E in Hm. Qed.

Definition keeps {S} (I : S -> Prop) : relation S := fun s s' => I s -> I s'.
#[export] Instance keeps_preorder {S} (I : S -> Prop) : PreOrder (keeps I).
Proof. split; unfold keeps; [by intros s|]. intros s1 s2 s3; eauto. Qed.

(** Two evolutions at once. *)
Definition rel_and {S} (R1 R2 : relation S) : relation S := fun s s' => R1 s s' /\ R2 s s'.

Section Evolves.
Context {S : Type} (R : relation S) `{!PreOrder R}.

Lemma evolves_ret {A} (a : A) : evolves R (mret a).
Proof. intros s. reflexivity. Qed.
Lemma evolves_throw {A} e : evolves R (@throw S A e).
Proof. intros s. reflexivity. Qed.
Lemma evolves_get : evolves R get.
Proof. intros s. reflexivity. Qed.
Lemma evolves_gets {A} (f : S -> A) : evolves R (gets f).
Proof. intros s. reflexivity. Qed.
Lemma evolves_lift_result {A} (r : result A) : evolves R (lift_result r).
Proof. intros s. reflexivity. Qed.
Lemma evolves_modify f : (forall s, R s (f s)) -> evolves R (modify f).
Proof. intros H s. apply H. Qed.
Lemma evolves_bind {A B} (m : M S A) (f : A -> M S B) :
  evolves R m -> (forall a, evolves R (f a)) -> evolves R (m ≫= f).
Proof.
  intros Hm Hf s. specialize (Hm s). rewrite M_bind_unfold.
  destruct (m s) as [[a|e] s']; [|done]. etrans; [done|]. apply Hf.
Qed.
Lemma evolves_when b m : evolves R m -> evolves R (when b m).
Proof. intros H. destruct b; [done|apply evolves_ret]. Qed.
Lemma evolves_if {A} (b : bool) (m1 m2 : M S A) :
  evolves R m1 -> evolves R m2 -> evolves R (if b then m1 else m2).
Proof. by destruct b. Qed.
Lemma evolves_on_exception {A} (m : M S A) h :
  evolves R m -> evolves R h -> evolves R (on_exception m h).
Proof.
  intros Hm Hh s. unfold on_exception. specialize (Hm s).
  destruct (m s) as [[a|e] s']; [done|]. specialize (Hh s').
  destruct (h s') as [[[]|e'] s'']; etrans; done.
Qed.
Lemma evolves_for_each {A} (l : list A) body :
  (forall x, x ∈ l -> evolves R (body x)) -> evolves R (for_each l body).
Proof.
  induction l as [|x l IH]; intros H; [apply evolves_ret|].
  apply evolves_bind; [|intros _]; [|apply IH]; set_solver.
Qed.
End Evolves.

Lemma evolves_lens {S T A} (R : relation S) (RT : relation T)
    (proj : S -> T) (upd : T -> S -> S) (m : M T A) :
  (forall s t, RT (proj s) t -> R s (upd t s)) ->
  evolves RT m -> evolves R (lens proj upd m).
Proof.
  intros HR Hm s. unfold lens. specialize (Hm (proj s)).
  destruct (m (proj s)) as [r t]. by apply HR.
Qed.

Create HintDb evolves.
#[export] Hint Resolve evolves_ret evolves_throw evolves_get evolves_gets
  evolves_lift_result evolves_bind evolves_when evolves_if evolves_on_exception : evolves.

(** * Assignments to fields

    [s <| f := v |>] is the record [s] with field [f] replaced.  A record type
    declares how it is rebuilt from its fields ([Fields]); the update of one
    field is computed from that by abstracting the field's projection. *)

Class Fields (R : Type) := { rebuild : R -> R; rebuild_id : forall r, rebuild r = r }.

Class Update {R T : Type} (proj : R -> T) := update : (T -> T) -> R -> R.
Arguments update {R T} proj {_} g r / : rename.

Ltac update_field proj :=
  lazymatch goal with
  | |- @Update ?R ?T _ =>
      let inst := constr:(_ : Fields R) in
      let body := eval hnf in (@rebuild R inst) in
      lazymatch body with
      | fun r : R => @?b r =>
          let abs := constr:(fun (field_proj : R -> T) (field_rec : R) => ltac:(
            let b' := eval cbv beta in (b field_rec) in
            lazymatch eval pattern proj in b' with
            | ?F _ => exact (F field_proj) end)) in
          let abs := eval cbv beta in abs in
          exact (fun (g : T -> T) (r : R) => abs (fun r0 => g (proj r0)) r)
      end
  end.

#[export] Hint Extern 1 (@Update _ _ ?proj) => update_field proj : typeclass_instances.

Notation "r <| f := v |>" := (update f (fun _ => v) r)
  (at level 1, left associativity, format "r  <| f  :=  v |>") : kv_scope.
Notation "r <| f ::= g |>" := (update f g r)
  (at level 1, left associativity, format "r  <| f  ::=  g |>") : kv_scope.

(** Test of the mechanism on a small record. *)
Module UpdateExample.
Record point := { px : Z; py : Z; pz : bool }.
#[local] Instance point_fields : Fields point :=
  {| rebuild := fun r => {| px := px r; py := py r; pz := pz r |};
     rebuild_id := fun r => match r with Build_point _ _ _ => eq_refl end |}.
Definition move (p : point) : point := p <| py := 3 |> <| px ::= Z.succ |>.
Lemma move_spec p : move p = {| px := px p + 1; py := 3; pz := pz p |}.
Proof. reflexivity. Qed.
End UpdateExample.
