(* ===== verification/Storage.v ===== *)
(** The storage engine seen from the sources: RocksDB as a parameter.

    RocksDB is a library the program links against.  The operations the sources
    call are the class [RocksDB]; what the sources rely on is [RocksDBSpec]: a
    [Get] reports the stored value, a [WriteBatch] is applied atomically and in
    order (a failed write left either everything or nothing), and an iterator
    visits the keys once each in bytewise order.  [MemDB] is a concrete engine
    with scheduled faults that satisfies the interface.  The file also models
    [src/storage/storage_error.h]. *)
From stdpp Require Import base numbers strings sorting gmap list.
From S2P Require Import Prelude Effects.

(** * Interface *)

Inductive Status := OK | NotFound | IOError (msg : string).
#[export] Instance Status_eq_dec : EqDecision Status.
Proof. solve_decision. Defined.

Inductive BatchOp := Put (k v : bytes) | Delete (k : bytes).
Abbreviation WriteBatch := (list BatchOp).

Class RocksDB := {
  DB : Type;
  DB_Get : DB -> bytes -> Status * bytes;
  DB_Write : DB -> WriteBatch -> Status * DB;
  (** [NewIterator], [SeekToFirst], [Next] to the end, then [it->status()]. *)
  DB_Scan : DB -> Status * list (bytes * bytes);
  Status_ToString : Status -> string;
}.

Definition DB_Put `{RocksDB} (db : DB) (k v : bytes) : Status * DB := DB_Write db [Put k v].

Definition apply_op (m : gmap bytes bytes) (op : BatchOp) : gmap bytes bytes :=
  match op with
  | Put k v => <[k := v]> m
  | Delete k => delete k m
  end.
Definition apply_batch (b : WriteBatch) (m : gmap bytes bytes) : gmap bytes bytes :=
  foldl apply_op m b.

(** Bytewise lexicographic order, RocksDB's default comparator. *)
Fixpoint bytes_ltb (a b : bytes) : bool :=
  match a, b with
  | [], [] => false
  | [], _ :: _ => true
  | _ :: _, [] => false
  | x :: a, y :: b =>
      if Z_of_byte x <? Z_of_byte y then true
      else if Z_of_byte y <? Z_of_byte x then false
      else bytes_ltb a b
  end.

Definition key_lt (p q : bytes * bytes) : Prop := bytes_ltb p.1 q.1 = true.

(** The documented behaviour of the engine. [contents] is the logical content
    of the database; [faultless] says no fault is going to happen. *)
Class RocksDBSpec `{RocksDB} := {
  contents : DB -> gmap bytes bytes;
  Get_ok db k v : DB_Get db k = (OK, v) -> contents db !! k = Some v;
  Get_missing db k v : DB_Get db k = (NotFound, v) -> contents db !! k = None;
  Write_ok db b db' : DB_Write db b = (OK, db') -> contents db' = apply_batch b (contents db);
  Write_failed db b st db' : DB_Write db b = (st, db') -> st <> OK ->
    contents db' = contents db \/ contents db' = apply_batch b (contents db);
  Scan_ok db l : DB_Scan db = (OK, l) ->
    l ≡ₚ map_to_list (contents db) /\ StronglySorted key_lt l;
  faultless : DB -> Prop;
  faultless_Get db k : faultless db -> (DB_Get db k).1 = OK \/ (DB_Get db k).1 = NotFound;
  faultless_Write db b : faultless db -> exists db', DB_Write db b = (OK, db') /\ faultless db';
  faultless_Scan db : faultless db -> (DB_Scan db).1 = OK;
}.

(** * [storage_error.h] *)

Definition RequireStorageOK `{RocksDB} (status : Status) (operation : string) : result unit :=
  match status with
  | OK => Ok tt
  | _ => Err (runtime_error (operation +:+ ": " +:+ Status_ToString status))
  end.

Lemma RequireStorageOK_ok `{RocksDB} st op u : RequireStorageOK st op = Ok u -> st = OK.
Proof. by destruct st. Qed.

(** * Facts about batches *)

Lemma apply_batch_nil m : apply_batch [] m = m.
Proof. done. Qed.
Lemma apply_batch_cons op b m : apply_batch (op :: b) m = apply_batch b (apply_op m op).
Proof. done. Qed.
Lemma apply_batch_app b1 b2 m : apply_batch (b1 ++ b2) m = apply_batch b2 (apply_batch b1 m).
Proof. apply foldl_app. Qed.

(** The key an edit touches. *)
Definition op_key (op : BatchOp) : bytes := match op with Put k _ => k | Delete k => k end.

Lemma apply_batch_untouched b m k :
  (forall op, op ∈ b -> op_key op <> k) -> apply_batch b m !! k = m !! k.
Proof.
  revert m. induction b as [|op b IH]; intros m H; [done|].
  rewrite apply_batch_cons, IH by set_solver.
  destruct op as [k' v|k']; simpl.
  - apply lookup_insert_ne. apply (H (Put k' v)). set_solver.
  - apply lookup_delete_ne. apply (H (Delete k')). set_solver.
Qed.

Lemma apply_batch_deletes {A} (f : A -> bytes) l m k :
  apply_batch (map (fun x => Delete (f x)) l) m !! k =
    if bool_decide (k ∈ map f l) then None else m !! k.
Proof.
  revert m. induction l as [|x l IH]; intros m.
  { by rewrite bool_decide_eq_false_2 by set_solver. }
  cbn [map]. rewrite apply_batch_cons, IH. simpl. destruct (decide (f x = k)) as [<-|Hne].
  - rewrite (bool_decide_eq_true_2 (f x ∈ f x :: map f l)) by set_solver.
    case_bool_decide; [done|]. by rewrite lookup_delete_eq.
  - rewrite lookup_delete_ne by done.
    assert (k ∈ f x :: map f l <-> k ∈ map f l) as E by (rewrite elem_of_cons; naive_solver).
    by rewrite (bool_decide_ext _ _ E).
Qed.

Section Derived.
Context `{RocksDBSpec}.

Lemma Get_Some db k v : contents db !! k = Some v -> (DB_Get db k).1 <> NotFound.
Proof.
  intros E. destruct (DB_Get db k) as [st v'] eqn:G. simpl. intros ->.
  apply Get_missing in G. congruence.
Qed.
Lemma faultless_Get_Some db k v :
  faultless db -> contents db !! k = Some v -> DB_Get db k = (OK, v).
Proof.
  intros Hf E. pose proof (Get_Some db k v E) as Hn.
  destruct (faultless_Get db k Hf) as [G|G]; [|done].
  destruct (DB_Get db k) as [st v'] eqn:G'. simpl in G. subst st.
  apply Get_ok in G' as G''. congruence.
Qed.
Lemma faultless_Get_None db k :
  faultless db -> contents db !! k = None -> (DB_Get db k).1 = NotFound.
Proof.
  intros Hf E. destruct (faultless_Get db k Hf) as [G|G]; [|done].
  destruct (DB_Get db k) as [st v'] eqn:G'. simpl in G. subst st.
  apply Get_ok in G' as G''. congruence.
Qed.
(** Whatever a write reports, the database holds the old content or the new. *)
Lemma Write_atomic db b :
  contents (DB_Write db b).2 = contents db \/
  contents (DB_Write db b).2 = apply_batch b (contents db).
Proof.
  destruct (DB_Write db b) as [st db'] eqn:E. simpl.
  destruct (decide (st = OK)) as [->|Hne]; [right; by apply Write_ok|].
  by eapply Write_failed.
Qed.
End Derived.

(** * A concrete engine

    A map, with a schedule of write faults: each write takes the next item of
    the schedule; [None] (or no item left) means success, [Some applied] an
    I/O error that left the batch applied or not. *)

Lemma bytes_ltb_irrefl a : bytes_ltb a a = false.
Proof. induction a as [|x a IH]; simpl; [done|]. by rewrite Z.ltb_irrefl. Qed.

Lemma bytes_ltb_trans a b c :
  bytes_ltb a b = true -> bytes_ltb b c = true -> bytes_ltb a c = true.
Proof.
  revert b c. induction a as [|x a IH]; intros [|y b] [|z c]; simpl; try done.
  destruct (Z.ltb_spec (Z_of_byte x) (Z_of_byte y));
  destruct (Z.ltb_spec (Z_of_byte y) (Z_of_byte x));
  destruct (Z.ltb_spec (Z_of_byte y) (Z_of_byte z));
  destruct (Z.ltb_spec (Z_of_byte z) (Z_of_byte y));
  destruct (Z.ltb_spec (Z_of_byte x) (Z_of_byte z));
  destruct (Z.ltb_spec (Z_of_byte z) (Z_of_byte x)); try done; try lia.
  apply IH.
Qed.

Lemma bytes_ltb_total a b : a = b \/ bytes_ltb a b = true \/ bytes_ltb b a = true.
Proof.
  revert b. induction a as [|x a IH]; intros [|y b]; simpl; auto.
  destruct (Z.ltb_spec (Z_of_byte x) (Z_of_byte y));
  destruct (Z.ltb_spec (Z_of_byte y) (Z_of_byte x)); auto; try lia.
  assert (x = y) as -> by (apply (inj Z_of_byte); lia).
  destruct (IH b) as [->|]; auto.
Qed.

Definition key_le (p q : bytes * bytes) : Prop := bytes_ltb q.1 p.1 = false.
#[export] Instance key_le_dec : RelDecision key_le.
Proof. intros p q. unfold key_le. apply _. Defined.
#[export] Instance key_le_total : Total key_le.
Proof.
  intros p q. unfold key_le. destruct (bytes_ltb q.1 p.1) eqn:E; [right|by left].
  destruct (bytes_ltb p.1 q.1) eqn:E'; [|done].
  pose proof (bytes_ltb_trans _ _ _ E E') as T. by rewrite bytes_ltb_irrefl in T.
Qed.
#[export] Instance key_le_trans : Transitive key_le.
Proof.
  intros p q r. unfold key_le. intros H1 H2.
  destruct (bytes_ltb r.1 p.1) eqn:E; [|done].
  destruct (bytes_ltb_total q.1 p.1) as [Eq|[H|H]]; [|congruence|].
  - rewrite Eq in H2. congruence.
  - pose proof (bytes_ltb_trans _ _ _ E H). congruence.
Qed.

Lemma key_le_strict l : NoDup l.*1 -> StronglySorted key_le l -> StronglySorted key_lt l.
Proof.
  induction l as [|p l IH]; intros Hnd Hs; [constructor|].
  simpl in Hnd. apply NoDup_cons in Hnd as [Hp Hnd].
  apply StronglySorted_inv in Hs as [Hs Hp'].
  constructor; [by apply IH|]. rewrite Forall_forall in Hp' |- *.
  intros q Hq. specialize (Hp' q Hq). unfold key_le, key_lt in *.
  destruct (bytes_ltb_total p.1 q.1) as [E|[E|E]]; [|done|congruence].
  destruct Hp. rewrite E. by apply list_elem_of_fmap_2.
Qed.

Module MemDB.
Record t := { mem : gmap bytes bytes; write_faults : list (option bool); readable : bool }.

Definition write (db : t) (b : WriteBatch) : Status * t :=
  match write_faults db with
  | [] => (OK, {| mem := apply_batch b (mem db); write_faults := []; readable := readable db |})
  | None :: fs =>
      (OK, {| mem := apply_batch b (mem db); write_faults := fs; readable := readable db |})
  | Some applied :: fs =>
      (IOError "write", {| mem := if applied then apply_batch b (mem db) else mem db;
                           write_faults := fs; readable := readable db |})
  end.

Definition read (db : t) (k : bytes) : Status * bytes :=
  if readable db then
    match mem db !! k with Some v => (OK, v) | None => (NotFound, []) end
  else (IOError "read", []).

Definition scan (db : t) : Status * list (bytes * bytes) :=
  if readable db then (OK, merge_sort key_le (map_to_list (mem db)))
  else (IOError "read", []).

Definition to_string (st : Status) : string :=
  match st with OK => "OK" | NotFound => "NotFound: " | IOError m => "IO error: " +:+ m end.

#[export] Instance MemDB_ops : RocksDB :=
  {| DB := t; DB_Get := read; DB_Write := write; DB_Scan := scan;
     Status_ToString := to_string |}.

(** A database with the given content and no faults. *)
Definition fresh (m : gmap bytes bytes) : t :=
  {| mem := m; write_faults := []; readable := true |}.

#[export] Program Instance MemDB_spec : @RocksDBSpec MemDB_ops :=
  {| contents := (fun db : t => mem db) : @DB MemDB_ops -> gmap bytes bytes;
     faultless := (fun db : t => write_faults db = [] /\ readable db = true)
                    : @DB MemDB_ops -> Prop |}.
Next Obligation.
  intros db k v. cbn. unfold read. destruct (readable db); [|done].
  destruct (mem db !! k); congruence.
Qed.
Next Obligation.
  intros db k v. cbn. unfold read. destruct (readable db); [|done].
  destruct (mem db !! k); congruence.
Qed.
Next Obligation.
  intros db b db'. cbn. unfold write. destruct (write_faults db) as [|[ap|] fs]; intros [= <-]; done.
Qed.
Next Obligation.
  intros db b st db'. cbn. unfold write.
  destruct (write_faults db) as [|[ap|] fs]; intros [= <- <-] ?; simpl; auto. destruct ap; auto.
Qed.
Next Obligation.
  intros db l. cbn. unfold scan. destruct (readable db); [|done]. intros [= <-].
  pose proof (merge_sort_Permutation key_le (map_to_list (mem db))) as P.
  split; [done|]. apply key_le_strict; [|apply StronglySorted_merge_sort; apply _].
  rewrite P. apply NoDup_fst_map_to_list.
Qed.
Next Obligation.
  intros db k [_ Hr]. cbn. unfold read. rewrite Hr. destruct (mem db !! k); auto.
Qed.
Next Obligation.
  intros db b [Hw Hr]. cbn. unfold write. rewrite Hw. eauto.
Qed.
Next Obligation. intros db [_ Hr]. cbn. unfold scan. by rewrite Hr. Qed.
End MemDB.
