(* ===== verification/Messages.v ===== *)
(** The Raft messages of [src/proto/raft_messages.proto], and the code generated
    from it as a parameter.

    The message types are the records of the schema.  The serializers are
    generated by protobuf, so they are the operations of a class whose laws
    state what protobuf documents: parsing what was serialized gives the message
    back, and a parsed field has its declared width. *)
From stdpp Require Import base numbers strings gmap list.
From S2P Require Import Prelude Effects.

Record LogEntry := mkLogEntry {
  index : Z;      (* int64 *)
  term : Z;       (* int32 *)
  command : bytes;
}.

Record RequestVote := mkRequestVote {
  rv_term : Z;
  rv_candidate_id : Z;
  rv_last_log_index : Z;
  rv_last_log_term : Z;
  rv_prevote : bool;
}.

Record RequestVoteResponse := mkRequestVoteResponse {
  rvr_term : Z;
  rvr_vote_granted : bool;
  rvr_prevote : bool;
}.

Record AppendEntries := mkAppendEntries {
  ae_term : Z;
  ae_leader_id : Z;
  ae_prev_log_index : Z;
  ae_prev_log_term : Z;
  ae_entries : list LogEntry;
  ae_leader_commit : Z;
  ae_rpc_id : Z;
}.

Record AppendEntriesResponse := mkAppendEntriesResponse {
  aer_term : Z;
  aer_success : bool;
  aer_last_log_index : Z;
  aer_rpc_id : Z;
}.

Record InstallSnapshot := mkInstallSnapshot {
  is_term : Z;
  is_leader_id : Z;
  is_last_included_index : Z;
  is_last_included_term : Z;
  is_offset : Z;
  is_data : bytes;
  is_done : bool;
  is_rpc_id : Z;
}.

Record InstallSnapshotResponse := mkInstallSnapshotResponse {
  isr_term : Z;
  isr_success : bool;
  isr_complete : bool;
  isr_rpc_id : Z;
}.

#[export] Instance LogEntry_eq_dec : EqDecision LogEntry.
Proof. solve_decision. Defined.
#[export] Instance RequestVote_eq_dec : EqDecision RequestVote.
Proof. solve_decision. Defined.
#[export] Instance RequestVoteResponse_eq_dec : EqDecision RequestVoteResponse.
Proof. solve_decision. Defined.
#[export] Instance AppendEntries_eq_dec : EqDecision AppendEntries.
Proof. solve_decision. Defined.
#[export] Instance AppendEntriesResponse_eq_dec : EqDecision AppendEntriesResponse.
Proof. solve_decision. Defined.
#[export] Instance InstallSnapshot_eq_dec : EqDecision InstallSnapshot.
Proof. solve_decision. Defined.
#[export] Instance InstallSnapshotResponse_eq_dec : EqDecision InstallSnapshotResponse.
Proof. solve_decision. Defined.

(** The width of the fields of a [LogEntry]. *)
Definition entry_typed (e : LogEntry) : Prop :=
  - 2 ^ 63 <= index e <= INT64_MAX /\ - 2 ^ 31 <= term e <= INT32_MAX.

(** [LogEntry::SerializeToString], [ParseFromString] and [ByteSizeLong]. *)
Class LogEntryCodec := {
  SerializeToString : LogEntry -> option bytes;
  ParseFromString : bytes -> option LogEntry;
  ByteSizeLong : LogEntry -> Z;
}.

Class LogEntryCodecSpec `{LogEntryCodec} : Prop := {
  Parse_Serialize e v :
    entry_typed e -> SerializeToString e = Some v -> ParseFromString v = Some e;
  Parse_typed v e : ParseFromString v = Some e -> entry_typed e;
  (** Serialization only fails on messages of 2 GiB and more. *)
  Serialize_total e : #(command e) < 2 ^ 30 -> is_Some (SerializeToString e);
}.

(** A concrete serializer: index, term (two's complement, big-endian), command. *)
Module PlainCodec.
Definition serialize (e : LogEntry) : option bytes :=
  if #(command e) <? 2 ^ 30
  then Some (be_put 8 (uN 64 (index e)) ++ be_put 4 (uN 32 (term e)) ++ command e)
  else None.

Definition parse (v : bytes) : option LogEntry :=
  if #v <? 12 then None
  else Some {| index := sN 64 (be_get 64 (take 8 v));
               term := sN 32 (be_get 64 (take 4 (drop 8 v)));
               command := drop 12 v |}.

#[export] Instance PlainCodec_ops : LogEntryCodec :=
  {| SerializeToString := serialize; ParseFromString := parse;
     ByteSizeLong := fun e => 12 + #(command e) |}.

Lemma sN_uN w z : 0 < w -> - 2 ^ (w - 1) <= z < 2 ^ (w - 1) -> sN w (uN w z) = z.
Proof.
  intros Hw Hz. rewrite <- (sN_small w z) at 2 by done.
  unfold sN, uN. by rewrite Zplus_mod_idemp_l.
Qed.

Lemma sN_range w z : 0 < w -> - 2 ^ (w - 1) <= sN w z < 2 ^ (w - 1).
Proof.
  intros Hw. unfold sN.
  assert (2 ^ w = 2 * 2 ^ (w - 1)) as E.
  { rewrite <- Z.pow_succ_r by lia. f_equal. lia. }
  pose proof (Z.mod_pos_bound (z + 2 ^ (w - 1)) (2 ^ w) ltac:(lia)). lia.
Qed.

#[export] Instance PlainCodec_spec : LogEntryCodecSpec.
Proof.
  split.
  - intros [i t c] v [Hi Ht]. cbn in *. unfold serialize, INT64_MAX, INT32_MAX in *. simpl.
    destruct (Z.ltb_spec #c (2 ^ 30)); [|done]. intros [= <-]. unfold parse.
    rewrite !length_app, !length_be_put.
    destruct (Z.ltb_spec (Z.of_nat (8 + (4 + length c))) 12) as [|_]; [lia|].
    rewrite (take_app_exact _ _ _ (length_be_put _ _)).
    rewrite (drop_app_exact _ _ _ (length_be_put _ _)).
    rewrite (take_app_exact _ _ _ (length_be_put _ _)).
    rewrite (drop_app_ge _ _ 12) by (rewrite length_be_put; lia).
    rewrite length_be_put. rewrite (drop_app_exact _ _ _ (length_be_put _ _)).
    rewrite !be_get_put by lia. unfold uN. change (8 * Z.of_nat 8) with 64.
    change (8 * Z.of_nat 4) with 32. rewrite !Zmod_mod. fold (uN 64 i). fold (uN 32 t).
    rewrite !sN_uN by lia. done.
  - intros v e. cbn. unfold parse. destruct (#v <? 12); [done|]. intros [= <-].
    unfold entry_typed, INT64_MAX, INT32_MAX. simpl.
    pose proof (sN_range 64 (be_get 64 (take 8 v)) ltac:(lia)).
    pose proof (sN_range 32 (be_get 64 (take 4 (drop 8 v))) ltac:(lia)). lia.
  - intros e He. cbn. unfold serialize.
    destruct (Z.ltb_spec #(command e) (2 ^ 30)); [by eexists|lia].
Qed.
End PlainCodec.
