(* ===== verification/RaftLog.v ===== *)
(** The durable Raft log: [src/src/raftcore/raft_log.h] and [raft_log.cc].

    One RocksDB database holds the entries under their 8-byte big-endian index,
    the hard state under index 0, and four named records: the snapshot's
    metadata and data, the log tail, and the intent of a snapshot installation
    in progress.  The object caches the tail and the snapshot.  Every member
    function of the class is a definition here, in the order of the source. *)
From stdpp Require Import base numbers strings gmap list.
From S2P Require Import Prelude Effects Storage Messages.

Definition kMaxSnapshotBytes : Z := 32 * 1024 * 1024.

(** * Keys and records *)

Definition SnapshotMetaKey : bytes := lit "raftkv-snapshot-meta".
Definition SnapshotDataKey : bytes := lit "raftkv-snapshot-data".
Definition TailKey : bytes := lit "raftkv-log-tail".
Definition SnapshotIntentKey : bytes := lit "raftkv-install-intent-v1".

Definition EncodeTail (index term : Z) : bytes :=
  be_put 8 (uN 64 index) ++ be_put 8 (uN 64 term).
Definition IndexToKey (index : Z) : bytes := be_put 8 (uN 64 index).

(** [fields[0]] and [fields[1]] of a 16-byte big-endian record. *)
Definition decode_fields (raw : bytes) : Z * Z :=
  (be_get 64 (take 8 raw), be_get 64 (take 8 (drop 8 raw))).

(** The 8-byte little-endian hard state record. *)
Definition encode_hard_state (term voted_for : Z) : bytes :=
  le_put 4 (uN 32 term) ++ le_put 4 (uN 32 voted_for).

Section RaftLog.
Context `{RocksDB} `{LogEntryCodec}.

Record RaftLog := mkRaftLog {
  _db : DB;
  _last_index : Z;
  _last_term : Z;
  _snapshot_index : Z;
  _snapshot_term : Z;
  _snapshot_data : bytes;
}.

#[export] Instance RaftLog_fields : Fields RaftLog :=
  {| rebuild := fun r => mkRaftLog (_db r) (_last_index r) (_last_term r)
       (_snapshot_index r) (_snapshot_term r) (_snapshot_data r);
     rebuild_id := fun r => match r with mkRaftLog _ _ _ _ _ _ => eq_refl end |}.

Definition require (b : bool) (what : string) : M RaftLog unit :=
  if b then mret tt else throw (runtime_error what).

Definition log_Get (key : bytes) : M RaftLog (Status * bytes) :=
  gets (fun s => DB_Get (_db s) key).
Definition log_Write (batch : WriteBatch) (operation : string) : M RaftLog unit := fun s =>
  match DB_Write (_db s) batch with
  | (st, db) => (RequireStorageOK st operation, s <| _db := db |>)
  end.
Definition PutTail (index term : Z) : WriteBatch := [Put TailKey (EncodeTail index term)].

(** * Reading entries *)

Definition Get (index : Z) : M RaftLog (option LogEntry) :=
  s ← get;
  if (index <=? _snapshot_index s) || (_last_index s <? index) then mret None
  else
    r ← log_Get (IndexToKey index);
    _ ← lift_result (RequireStorageOK r.1 "read Raft log");
    match ParseFromString r.2 with
    | Some entry =>
        if (Messages.index entry =? index) && (0 <? term entry) then mret (Some entry)
        else throw (runtime_error "corrupt Raft log entry")
    | None => throw (runtime_error "corrupt Raft log entry")
    end.

Definition GetTerm (index : Z) : M RaftLog Z :=
  s ← get;
  if index =? 0 then mret 0
  else if index =? _snapshot_index s then mret (_snapshot_term s)
  else if index <? _snapshot_index s then mret (-1)
  else
    e ← Get index;
    mret (match e with Some entry => term entry | None => -1 end).

(** * Appending and truncating *)

(** The loop of [AppendBatch]: checks each entry against the running [last] and
    collects the edits. *)
Fixpoint append_ops (last : Z) (entries : list LogEntry) : result (Z * WriteBatch) :=
  match entries with
  | [] => Ok (last, [])
  | entry :: entries =>
      if (last =? INT64_MAX) || negb (index entry =? last + 1) || (term entry <=? 0)
      then Err (runtime_error "invalid Raft append index or term")
      else
        match SerializeToString entry with
        | None => Err (runtime_error "serialize Raft log")
        | Some value =>
            r ← append_ops (index entry) entries;
            mret (r.1, Put (IndexToKey (index entry)) value :: r.2)
        end
  end.

Definition back_term (entries : list LogEntry) : Z :=
  match last entries with Some e => term e | None => 0 end.

Definition AppendBatch (entries : list LogEntry) : M RaftLog unit :=
  match entries with
  | [] => mret tt
  | _ =>
      s ← get;
      r ← lift_result (append_ops (_last_index s) entries);
      log_Write (r.2 ++ PutTail r.1 (back_term entries)) "append Raft log batch";;
      modify (fun s => s <| _last_index := r.1 |> <| _last_term := back_term entries |>)
  end.

Definition Append (entry : LogEntry) : M RaftLog unit := AppendBatch [entry].

Definition delete_range (from through : Z) : WriteBatch :=
  map (fun i => Delete (IndexToKey i)) (seqZ from (through - from + 1)).

Definition TruncateSuffix (start : Z) : M RaftLog unit :=
  s ← get;
  if start <=? _snapshot_index s then throw (runtime_error "cannot truncate snapshotted prefix")
  else if _last_index s <? start then mret tt
  else
    let new_last_index := start - 1 in
    new_last_term ← (if new_last_index =? 0 then mret 0 else GetTerm new_last_index);
    log_Write (delete_range start (_last_index s) ++ PutTail new_last_index new_last_term)
      "truncate Raft log";;
    modify (fun s => s <| _last_index := new_last_index |> <| _last_term := new_last_term |>).

(** * Hard state *)

Definition SaveHardState (term voted_for : Z) : M RaftLog unit :=
  if (term <? 0) || (voted_for <? -1) then throw (runtime_error "invalid hard state")
  else log_Write [Put (IndexToKey 0) (encode_hard_state term voted_for)]
         "persist Raft hard state".

(** Returns whether a record exists, the term and the vote. *)
Definition LoadHardState : M RaftLog (bool * Z * Z) :=
  s ← get;
  r ← log_Get (IndexToKey 0);
  if bool_decide (r.1 = NotFound) && (_last_index s =? 0) then mret (false, 0, -1)
  else
    _ ← lift_result (RequireStorageOK r.1 "read Raft hard state");
    require (#(r.2) =? 8) "corrupt Raft hard state";;
    let f0 := le_get (take 4 r.2) in
    let f1 := le_get (take 4 (drop 4 r.2)) in
    if (INT32_MAX <? f0) || ((INT32_MAX <? f1) && negb (f1 =? UINT32_MAX))
    then throw (runtime_error "invalid Raft hard state")
    else mret (true, sN 32 f0, if f1 =? UINT32_MAX then -1 else sN 32 f1).

(** * Snapshots *)

Definition LoadSnapshot : M RaftLog unit :=
  r ← log_Get SnapshotMetaKey;
  if bool_decide (r.1 = NotFound) then mret tt
  else
    _ ← lift_result (RequireStorageOK r.1 "read Raft snapshot");
    require (#(r.2) =? 16) "corrupt Raft snapshot metadata";;
    let '(f0, f1) := decode_fields r.2 in
    if (f0 =? 0) || (INT64_MAX <? f0) || (f1 =? 0) || (INT64_MAX <? f1)
    then throw (runtime_error "invalid Raft snapshot metadata")
    else
      d ← log_Get SnapshotDataKey;
      _ ← lift_result (RequireStorageOK d.1 "read Raft snapshot data");
      require (#(d.2) <=? kMaxSnapshotBytes) "Raft snapshot too large";;
      modify (fun s => s <| _snapshot_index := sN 64 f0 |> <| _snapshot_term := sN 64 f1 |>
                         <| _snapshot_data := d.2 |>).

(** The loop of [VerifySuffix], over the indices still to read. *)
Fixpoint verify_suffix (indices : list Z) (previous_term : Z) : M RaftLog unit :=
  match indices with
  | [] => mret tt
  | i :: indices =>
      e ← Get i;
      match e with
      | Some entry =>
          if term entry <? previous_term
          then throw (runtime_error "corrupt or non-contiguous Raft log")
          else verify_suffix indices (term entry)
      | None => throw (runtime_error "corrupt or non-contiguous Raft log")
      end
  end.

Definition VerifySuffix : M RaftLog unit :=
  s ← get;
  verify_suffix (seqZ (_snapshot_index s + 1) (_last_index s - _snapshot_index s))
    (if _snapshot_index s =? 0 then 0 else _snapshot_term s).

(** False when the log was written before tail metadata existed. *)
Definition LoadTail : M RaftLog bool :=
  r ← log_Get TailKey;
  if bool_decide (r.1 = NotFound) then mret false
  else
    _ ← lift_result (RequireStorageOK r.1 "read Raft log tail");
    require (#(r.2) =? 16) "corrupt Raft log tail";;
    let '(f0, f1) := decode_fields r.2 in
    require (negb ((INT64_MAX <? f0) || (INT32_MAX <? f1))) "invalid Raft log tail";;
    let index := sN 64 f0 in
    let term := sN 64 f1 in
    s ← get;
    require (negb (index <? _snapshot_index s)) "Raft log tail precedes its snapshot";;
    (if index =? 0 then
       require (negb (negb (term =? 0) || negb (_snapshot_index s =? 0)))
         "invalid empty Raft log tail"
     else if index =? _snapshot_index s then
       require (term =? _snapshot_term s) "Raft log tail does not match its snapshot"
     else
       v ← log_Get (IndexToKey index);
       _ ← lift_result (RequireStorageOK v.1 "read Raft log tail entry");
       match ParseFromString v.2 with
       | Some entry =>
           require (negb (negb (Messages.index entry =? index) ||
                          negb (Messages.term entry =? term) || (term <=? 0)))
             "corrupt Raft log tail entry"
       | None => throw (runtime_error "corrupt Raft log tail entry")
       end);;
    modify (fun s => s <| _last_index := index |> <| _last_term := term |>);;
    VerifySuffix;;
    mret true.

Definition PersistSnapshot (index term : Z) (data : bytes) (keep_suffix : bool) : M RaftLog unit :=
  if (index <=? 0) || (term <=? 0) || (kMaxSnapshotBytes <? #data)
  then throw (runtime_error "invalid Raft snapshot")
  else
    s ← get;
    let delete_through := if keep_suffix then index else _last_index s in
    log_Write
      ([Put SnapshotMetaKey (be_put 8 (uN 64 index) ++ be_put 8 (uN 64 term));
        Put SnapshotDataKey data;
        Delete SnapshotIntentKey] ++
       PutTail (if keep_suffix then _last_index s else index)
               (if keep_suffix then _last_term s else term) ++
       delete_range (_snapshot_index s + 1) delete_through)
      "persist Raft snapshot";;
    modify (fun s => s <| _snapshot_index := index |> <| _snapshot_term := term |>
                       <| _snapshot_data := data |>);;
    when (negb keep_suffix)
      (modify (fun s => s <| _last_index := index |> <| _last_term := term |>)).

Definition CompactApplied (index term : Z) (data : bytes) : M RaftLog unit :=
  s ← get;
  if index <=? _snapshot_index s then mret tt
  else
    absent ← (if _last_index s <? index then mret true
              else t ← GetTerm index; mret (negb (t =? term)));
    if (absent : bool) then throw (runtime_error "cannot snapshot an absent Raft entry")
    else PersistSnapshot index term data true.

Definition StageSnapshotInstall (index term : Z) (data : bytes) : M RaftLog unit :=
  s ← get;
  if (index <=? _snapshot_index s) || (term <=? 0) || (INT32_MAX <? term) ||
     (kMaxSnapshotBytes <? #data)
  then throw (runtime_error "invalid pending Raft snapshot")
  else
    r ← log_Get SnapshotIntentKey;
    if negb (bool_decide (r.1 = NotFound)) then
      _ ← lift_result (RequireStorageOK r.1 "read pending Raft snapshot before staging");
      throw (runtime_error "pending Raft snapshot must recover before another install")
    else
      log_Write ([Put SnapshotIntentKey (EncodeTail index term ++ data)] ++
                 PutTail (_last_index s) (_last_term s))
        "stage Raft snapshot install".

Definition LoadPendingSnapshot : M RaftLog (option (Z * Z * bytes)) :=
  s ← get;
  r ← log_Get SnapshotIntentKey;
  if bool_decide (r.1 = NotFound) then mret None
  else
    _ ← lift_result (RequireStorageOK r.1 "read pending Raft snapshot");
    require (negb ((#(r.2) <? 16) || (kMaxSnapshotBytes <? #(r.2) - 16)))
      "corrupt pending Raft snapshot";;
    let '(f0, f1) := decode_fields r.2 in
    if (f0 <=? uN 64 (_snapshot_index s)) || (INT64_MAX <? f0) || (f1 =? 0) || (INT32_MAX <? f1)
    then throw (runtime_error "invalid pending Raft snapshot metadata")
    else mret (Some (sN 64 f0, sN 64 f1, drop 16 r.2)).

Definition InstallSnapshot (index term : Z) (data : bytes) : M RaftLog unit :=
  if (index <=? 0) || (term <=? 0) then throw (runtime_error "invalid Raft snapshot")
  else
    s ← get;
    if index <? _snapshot_index s then throw (runtime_error "Raft snapshot would move backwards")
    else if index =? _snapshot_index s then
      require (term =? _snapshot_term s) "Raft snapshot term mismatch"
    else
      keep_suffix ← (if index <=? _last_index s then t ← GetTerm index; mret (t =? term)
                     else mret false);
      PersistSnapshot index term data keep_suffix.

(** * Opening *)

(** The body of the scan of a log written before tail records existed. *)
Definition scan_entry (kv : bytes * bytes) : M RaftLog unit :=
  let '(key, value) := kv in
  if bool_decide (key = IndexToKey 0) || bool_decide (key = SnapshotMetaKey) ||
     bool_decide (key = SnapshotDataKey) || bool_decide (key = TailKey) ||
     bool_decide (key = SnapshotIntentKey)
  then mret tt
  else
    s ← get;
    match ParseFromString value with
    | Some entry =>
        if (_last_index s =? INT64_MAX) ||
           negb (bool_decide (key = IndexToKey (_last_index s + 1))) ||
           negb (index entry =? _last_index s + 1) || (term entry <=? 0) ||
           (term entry <? _last_term s)
        then throw (runtime_error "corrupt or non-contiguous Raft log")
        else modify (fun s => s <| _last_index ::= Z.succ |> <| _last_term := term entry |>)
    | None => throw (runtime_error "corrupt or non-contiguous Raft log")
    end.

(** The constructor, on the object with its default member initializers.
    [status] is what [rocksdb::DB::Open] reported. *)
Definition Open (status : Status) : M RaftLog unit :=
  _ ← lift_result (RequireStorageOK status "open Raft log");
  LoadSnapshot;;
  modify (fun s => s <| _last_index := _snapshot_index s |>
                     <| _last_term := _snapshot_term s |>);;
  tail ← LoadTail;
  if (tail : bool) then mret tt
  else
    it ← gets (fun s => DB_Scan (_db s));
    for_each it.2 scan_entry;;
    _ ← lift_result (RequireStorageOK it.1 "scan Raft log");
    s ← get;
    if 0 <? _last_index s then
      log_Write [Put TailKey (EncodeTail (_last_index s) (_last_term s))] "persist Raft log tail"
    else mret tt.

Definition blank (db : DB) : RaftLog := mkRaftLog db 0 0 0 0 [].

End RaftLog.

Arguments RaftLog {_}.
