(* ===== verification/LogSpec.v ===== *)
(** What the Raft log promises, and how its database represents it.

    [alog] is the abstract state of the log: a snapshot, the entries after it,
    the hard state and the pending snapshot installation.  [durable m a] says
    that the database content [m] represents [a]; [Repr s a] that the object [s]
    of [RaftLog] does (its caches agree and its database is [durable]).  The
    abstract operations [a_append], [a_truncate], ... are the specification the
    member functions are proved to implement in [LogProofs] and [LogRecovery]. *)
From stdpp Require Import base numbers strings gmap list.
From S2P Require Import Prelude Effects Storage Messages RaftLog.

(** * Abstract state *)

Record alog := mkAlog {
  a_snap_index : Z;
  a_snap_term : Z;
  a_snap_data : bytes;
  a_entries : list LogEntry;
  a_hard : option (Z * Z);
  a_intent : option (Z * Z * bytes);
}.

#[export] Instance alog_fields : Fields alog :=
  {| rebuild := fun r => mkAlog (a_snap_index r) (a_snap_term r) (a_snap_data r)
       (a_entries r) (a_hard r) (a_intent r);
     rebuild_id := fun r => match r with mkAlog _ _ _ _ _ _ => eq_refl end |}.

Definition a_last_index (a : alog) : Z := a_snap_index a + #(a_entries a).
Definition last_term_from (t : Z) (es : list LogEntry) : Z :=
  match last es with Some e => term e | None => t end.
Definition a_last_term (a : alog) : Z := last_term_from (a_snap_term a) (a_entries a).

(** The entry at an index, [None] when compacted or beyond the end. *)
Definition a_entry (a : alog) (i : Z) : option LogEntry :=
  if i <=? a_snap_index a then None else a_entries a !! Z.to_nat (i - a_snap_index a - 1).

(** The term at an index: 0 at the origin, -1 when unknown. *)
Definition a_term (a : alog) (i : Z) : Z :=
  if i =? 0 then 0
  else if i =? a_snap_index a then a_snap_term a
  else match a_entry a i with Some e => term e | None => -1 end.

(** [es] continues a log that ends at index [i] with term [t]: consecutive
    indices, positive and never decreasing terms, fields of their width. *)
Fixpoint extends (i t : Z) (es : list LogEntry) : Prop :=
  match es with
  | [] => True
  | e :: es => index e = i + 1 /\ 0 < term e <= INT32_MAX /\ t <= term e /\
               extends (i + 1) (term e) es
  end.

Definition hard_ok (h : Z * Z) : Prop :=
  0 <= h.1 <= INT32_MAX /\ -1 <= h.2 <= INT32_MAX.
Definition intent_ok (si : Z) (p : Z * Z * bytes) : Prop :=
  si < p.1.1 <= INT64_MAX /\ 0 < p.1.2 <= INT32_MAX /\ #(p.2) <= kMaxSnapshotBytes.

Record alog_wf (a : alog) : Prop := {
  wf_snap_index : 0 <= a_snap_index a;
  wf_no_snap : a_snap_index a = 0 -> a_snap_term a = 0 /\ a_snap_data a = [];
  wf_snap_term : 0 < a_snap_index a -> 0 < a_snap_term a <= INT32_MAX;
  wf_snap_data : #(a_snap_data a) <= kMaxSnapshotBytes;
  wf_entries : extends (a_snap_index a) (a_snap_term a) (a_entries a);
  wf_last : a_last_index a <= INT64_MAX;
  wf_hard h : a_hard a = Some h -> hard_ok h;
  wf_intent p : a_intent a = Some p -> intent_ok (a_snap_index a) p;
}.

(** * Abstract operations *)

Definition a_append (es : list LogEntry) (a : alog) : alog :=
  a <| a_entries ::= fun l => l ++ es |>.
Definition a_truncate (start : Z) (a : alog) : alog :=
  a <| a_entries ::= take (Z.to_nat (start - 1 - a_snap_index a)) |>.
Definition a_save_hard (h : Z * Z) (a : alog) : alog := a <| a_hard := Some h |>.
Definition a_stage (p : Z * Z * bytes) (a : alog) : alog := a <| a_intent := Some p |>.
(** Replaces the prefix through [i] by a snapshot; the rest of the log stays
    exactly when [keep] is set. Any pending installation is over. *)
Definition a_snapshot (keep : bool) (i t : Z) (d : bytes) (a : alog) : alog :=
  mkAlog i t d
    (if keep then drop (Z.to_nat (i - a_snap_index a)) (a_entries a) else [])
    (a_hard a) None.

(** * Representation *)

Section Repr.
Context `{RocksDBSpec} `{LogEntryCodec}.

Definition named_key (k : bytes) : Prop :=
  k = SnapshotMetaKey \/ k = SnapshotDataKey \/ k = TailKey \/ k = SnapshotIntentKey.

Definition known_key (k : bytes) : Prop :=
  named_key k \/ exists i, 0 <= i <= INT64_MAX /\ k = IndexToKey i.
Definition keys_ok (m : gmap bytes bytes) : Prop := forall k, is_Some (m !! k) -> known_key k.

Record durable (m : gmap bytes bytes) (a : alog) : Prop := {
  d_meta : m !! SnapshotMetaKey =
    if a_snap_index a =? 0 then None else Some (EncodeTail (a_snap_index a) (a_snap_term a));
  d_data : m !! SnapshotDataKey = if a_snap_index a =? 0 then None else Some (a_snap_data a);
  d_intent : m !! SnapshotIntentKey =
    (fun p => EncodeTail p.1.1 p.1.2 ++ p.2) <$> a_intent a;
  d_hard : m !! IndexToKey 0 = (fun h => encode_hard_state h.1 h.2) <$> a_hard a;
  d_entry i e : 0 < i -> a_entry a i = Some e ->
    exists v, m !! IndexToKey i = Some v /\ ParseFromString v = Some e;
  d_hole i : 0 < i <= INT64_MAX -> a_entry a i = None -> m !! IndexToKey i = None;
  d_keys : keys_ok m;
}.

(** The tail record names the last entry; only an empty log may lack it. *)
Definition tail_recorded (m : gmap bytes bytes) (a : alog) : Prop :=
  m !! TailKey = Some (EncodeTail (a_last_index a) (a_last_term a)) \/
  (m !! TailKey = None /\ a_last_index a = 0).

Record stored (m : gmap bytes bytes) (a : alog) : Prop := {
  st_wf : alog_wf a;
  st_durable : durable m a;
  st_tail : tail_recorded m a;
}.

Record cached (s : RaftLog) (a : alog) : Prop := {
  c_last_index : _last_index s = a_last_index a;
  c_last_term : _last_term s = a_last_term a;
  c_snap_index : _snapshot_index s = a_snap_index a;
  c_snap_term : _snapshot_term s = a_snap_term a;
  c_snap_data : _snapshot_data s = a_snap_data a;
}.

Definition Repr (s : RaftLog) (a : alog) : Prop :=
  cached s a /\ stored (contents (_db s)) a.
End Repr.

(** * Facts about keys and records *)

Lemma length_IndexToKey i : length (IndexToKey i) = 8%nat.
Proof. apply length_be_put. Qed.

Lemma IndexToKey_inj i j :
  0 <= i <= INT64_MAX -> 0 <= j <= INT64_MAX -> IndexToKey i = IndexToKey j -> i = j.
Proof.
  unfold IndexToKey, INT64_MAX. intros Hi Hj E. rewrite !uN_small in E by lia.
  apply be_put_inj in E; [done|..]; change (8 * Z.of_nat 8) with 64; lia.
Qed.

Lemma IndexToKey_named i k : named_key k -> IndexToKey i <> k.
Proof.
  intros Hk E. apply (f_equal length) in E. rewrite length_IndexToKey in E.
  destruct Hk as [-> | [-> | [-> | ->]]]; vm_compute in E; lia.
Qed.

Lemma named_Meta : named_key SnapshotMetaKey. Proof. by left. Qed.
Lemma named_Data : named_key SnapshotDataKey. Proof. by right; left. Qed.
Lemma named_Tail : named_key TailKey. Proof. by right; right; left. Qed.
Lemma named_Intent : named_key SnapshotIntentKey. Proof. by right; right; right. Qed.

Lemma Meta_ne_Data : SnapshotMetaKey <> SnapshotDataKey. Proof. by vm_compute. Qed.
Lemma Meta_ne_Tail : SnapshotMetaKey <> TailKey. Proof. by vm_compute. Qed.
Lemma Meta_ne_Intent : SnapshotMetaKey <> SnapshotIntentKey. Proof. by vm_compute. Qed.
Lemma Data_ne_Tail : SnapshotDataKey <> TailKey. Proof. by vm_compute. Qed.
Lemma Data_ne_Intent : SnapshotDataKey <> SnapshotIntentKey. Proof. by vm_compute. Qed.
Lemma Tail_ne_Intent : TailKey <> SnapshotIntentKey. Proof. by vm_compute. Qed.

#[global] Opaque SnapshotMetaKey SnapshotDataKey TailKey SnapshotIntentKey IndexToKey.

Create HintDb keys.
#[export] Hint Resolve IndexToKey_named named_Meta named_Data named_Tail named_Intent
  Meta_ne_Data Meta_ne_Tail Meta_ne_Intent Data_ne_Tail Data_ne_Intent Tail_ne_Intent
  not_eq_sym : keys.

Lemma known_index i : 0 <= i <= INT64_MAX -> known_key (IndexToKey i).
Proof. intros. right. by exists i. Qed.

Lemma keys_ok_batch b m :
  keys_ok m -> Forall (fun op => known_key (op_key op)) b -> keys_ok (apply_batch b m).
Proof.
  revert m. induction b as [|op b IH]; intros m Hm Hb; [done|].
  apply Forall_cons in Hb as [Hop Hb]. rewrite apply_batch_cons. apply IH; [|done].
  intros k. destruct op as [k' v|k']; simpl in *.
  - destruct (decide (k' = k)) as [->|Hne]; [done|]. rewrite lookup_insert_ne by done. apply Hm.
  - destruct (decide (k' = k)) as [->|Hne]; [by rewrite lookup_delete_eq; intros []|].
    rewrite lookup_delete_ne by done. apply Hm.
Qed.

Lemma length_EncodeTail i t : length (EncodeTail i t) = 16%nat.
Proof. unfold EncodeTail. by rewrite length_app, !length_be_put. Qed.

Lemma decode_EncodeTail i t rest :
  0 <= i <= INT64_MAX -> 0 <= t <= INT64_MAX ->
  decode_fields (EncodeTail i t ++ rest) = (i, t).
Proof.
  unfold INT64_MAX. intros Hi Ht. unfold decode_fields, EncodeTail.
  rewrite <- app_assoc. rewrite (take_app_exact _ _ _ (length_be_put _ _)).
  rewrite (drop_app_exact _ _ _ (length_be_put _ _)).
  rewrite (take_app_exact _ _ _ (length_be_put _ _)).
  rewrite !be_get_put by lia. change (8 * Z.of_nat 8) with 64.
  unfold uN. by rewrite !Zmod_mod, !Z.mod_small by lia.
Qed.

Lemma decode_EncodeTail_nil i t :
  0 <= i <= INT64_MAX -> 0 <= t <= INT64_MAX -> decode_fields (EncodeTail i t) = (i, t).
Proof. intros. rewrite <- (app_nil_r (EncodeTail i t)). by apply decode_EncodeTail. Qed.

Lemma sN_64_id i : 0 <= i <= INT64_MAX -> sN 64 i = i.
Proof. unfold INT64_MAX. intros. apply sN_small; lia. Qed.

(** * Facts about abstract logs *)

Lemma last_term_from_app t es1 es2 :
  last_term_from t (es1 ++ es2) = last_term_from (last_term_from t es1) es2.
Proof. unfold last_term_from. rewrite last_app. by destruct (last es2). Qed.

Lemma last_term_from_cons t e es : last_term_from t (e :: es) = last_term_from (term e) es.
Proof. by apply (last_term_from_app t [e] es). Qed.

Lemma extends_app i t es1 es2 :
  extends i t (es1 ++ es2) <->
  extends i t es1 /\ extends (i + #es1) (last_term_from t es1) es2.
Proof.
  revert i t. induction es1 as [|e es1 IH]; intros i t; simpl.
  - rewrite Z.add_0_r. tauto.
  - rewrite IH, last_term_from_cons.
    replace (i + 1 + #es1) with (i + Z.pos (Pos.of_succ_nat (length es1))) by lia. tauto.
Qed.

Lemma extends_take n i t es : extends i t es -> extends i t (take n es).
Proof. intros E. rewrite <- (take_drop n es) in E. by apply extends_app in E as [E _]. Qed.

Lemma extends_lookup i t es j e :
  extends i t es -> es !! j = Some e ->
  index e = i + Z.of_nat j + 1 /\ 0 < term e <= INT32_MAX /\ t <= term e.
Proof.
  revert i t j. induction es as [|e' es IH]; intros i t j; [done|].
  intros (Hi & Ht & Hm & E) L. destruct j as [|j]; simpl in L.
  - simplify_eq. lia.
  - destruct (IH _ _ _ E L) as (? & ? & ?). lia.
Qed.

Lemma last_term_from_ge i t es : extends i t es -> t <= last_term_from t es.
Proof.
  intros E. unfold last_term_from. destruct (last es) as [e|] eqn:L; [|lia].
  rewrite last_lookup in L. by destruct (extends_lookup _ _ _ _ _ E L) as (_ & _ & ?).
Qed.

Lemma a_entry_inv a i e :
  a_entry a i = Some e ->
  a_snap_index a < i <= a_last_index a /\ a_entries a !! Z.to_nat (i - a_snap_index a - 1) = Some e.
Proof.
  unfold a_entry, a_last_index. destruct (Z.leb_spec i (a_snap_index a)); [done|].
  intros L. split; [|done]. apply lookup_lt_Some in L. lia.
Qed.

Lemma a_entry_is_Some a i :
  a_snap_index a < i <= a_last_index a -> exists e, a_entry a i = Some e.
Proof.
  unfold a_entry, a_last_index. intros Hi. destruct (Z.leb_spec i (a_snap_index a)); [lia|].
  apply lookup_lt_is_Some. lia.
Qed.

Lemma a_entry_None a i : a_last_index a < i -> a_entry a i = None.
Proof.
  unfold a_entry, a_last_index. intros Hi. destruct (Z.leb_spec i (a_snap_index a)); [done|].
  apply lookup_ge_None. lia.
Qed.

Lemma a_entry_wf a i e :
  alog_wf a -> a_entry a i = Some e ->
  index e = i /\ 0 < term e <= INT32_MAX /\ a_snap_term a <= term e.
Proof.
  intros W E. apply a_entry_inv in E as [Hi L].
  destruct (extends_lookup _ _ _ _ _ (wf_entries _ W) L) as (Hx & ? & ?). lia.
Qed.

Lemma a_last_term_last a :
  a_entry a (a_last_index a) =
    if a_last_index a =? a_snap_index a then None else last (a_entries a).
Proof.
  unfold a_entry, a_last_index. rewrite last_lookup.
  destruct (Z.leb_spec (a_snap_index a + #(a_entries a)) (a_snap_index a));
  destruct (Z.eqb_spec (a_snap_index a + #(a_entries a)) (a_snap_index a)); try lia; [done|].
  f_equal. lia.
Qed.

Lemma a_last_term_range a : alog_wf a -> 0 <= a_last_term a <= INT32_MAX.
Proof.
  intros W. unfold a_last_term, last_term_from.
  destruct (last (a_entries a)) as [e|] eqn:L.
  - rewrite last_lookup in L.
    destruct (extends_lookup _ _ _ _ _ (wf_entries _ W) L) as (_ & ? & _). lia.
  - pose proof (wf_snap_term _ W). pose proof (wf_no_snap _ W). pose proof (wf_snap_index _ W).
    unfold INT32_MAX in *. lia.
Qed.

Lemma a_last_index_ge a : a_snap_index a <= a_last_index a.
Proof. unfold a_last_index. lia. Qed.

Lemma a_entry_append es a i :
  a_entry (a_append es a) i =
    if i <=? a_last_index a then a_entry a i else es !! Z.to_nat (i - a_last_index a - 1).
Proof.
  unfold a_entry, a_append, a_last_index. simpl.
  destruct (Z.leb_spec i (a_snap_index a)), (Z.leb_spec i (a_snap_index a + #(a_entries a)));
    try done; try lia.
  - rewrite lookup_app_l by lia. done.
  - rewrite lookup_app_r by lia. f_equal. lia.
Qed.

Lemma a_entry_truncate start a i :
  a_entry (a_truncate start a) i = if i <? start then a_entry a i else None.
Proof.
  unfold a_entry, a_truncate. simpl.
  destruct (Z.leb_spec i (a_snap_index a)), (Z.ltb_spec i start); try done.
  - apply lookup_take_lt. lia.
  - apply lookup_take_ge. lia.
Qed.

Lemma a_entry_snapshot keep i t d a j :
  a_snap_index a <= i ->
  a_entry (a_snapshot keep i t d a) j =
    if j <=? i then None else if keep then a_entry a j else None.
Proof.
  intros Hi. unfold a_entry, a_snapshot. simpl.
  destruct (Z.leb_spec j i); [done|]. destruct (Z.leb_spec j (a_snap_index a)); [lia|].
  destruct keep; [|done]. rewrite lookup_drop. f_equal. lia.
Qed.

Lemma a_last_index_append es a : a_last_index (a_append es a) = a_last_index a + #es.
Proof. unfold a_append, a_last_index. simpl. rewrite length_app. lia. Qed.
Lemma a_last_term_append es a :
  a_last_term (a_append es a) = last_term_from (a_last_term a) es.
Proof. unfold a_append, a_last_term. simpl. apply last_term_from_app. Qed.

Lemma a_last_index_truncate start a :
  a_snap_index a < start <= a_last_index a -> a_last_index (a_truncate start a) = start - 1.
Proof. unfold a_truncate, a_last_index. simpl. rewrite length_take. lia. Qed.
Lemma a_last_term_truncate start a :
  alog_wf a -> a_snap_index a < start <= a_last_index a ->
  a_last_term (a_truncate start a) = a_term a (start - 1).
Proof.
  intros W Hs. unfold a_last_term, last_term_from, a_term, a_entry.
  rewrite last_lookup. unfold a_truncate. simpl. rewrite length_take.
  unfold a_last_index in Hs. pose proof (wf_snap_index _ W).
  destruct (Z.eqb_spec (start - 1) (a_snap_index a)) as [E|E].
  - rewrite (lookup_take_ge _ (Z.to_nat (start - 1 - a_snap_index a))) by lia.
    destruct (Z.eqb_spec (start - 1) 0); [|done]. apply (wf_no_snap _ W). lia.
  - destruct (Z.eqb_spec (start - 1) 0); [lia|].
    destruct (Z.leb_spec (start - 1) (a_snap_index a)); [lia|].
    rewrite lookup_take_lt by lia.
    replace (pred (Z.to_nat (start - 1 - a_snap_index a) `min` length (a_entries a)))%nat
      with (Z.to_nat (start - 1 - a_snap_index a - 1)) by lia.
    destruct (lookup_lt_is_Some_2 (a_entries a) (Z.to_nat (start - 1 - a_snap_index a - 1)))
      as [e ->]; [lia|done].
Qed.

Lemma a_last_index_snapshot keep i t d a :
  a_snap_index a < i -> (keep = true -> i <= a_last_index a /\ a_term a i = t) ->
  a_last_index (a_snapshot keep i t d a) = if keep then a_last_index a else i.
Proof.
  intros Hi Hk. unfold a_snapshot, a_last_index in *. simpl. destruct keep; simpl; [|lia].
  rewrite length_drop. destruct (Hk eq_refl). lia.
Qed.
Lemma a_last_term_snapshot keep i t d a :
  a_snap_index a < i -> (keep = true -> i <= a_last_index a /\ a_term a i = t) -> 0 < i ->
  a_last_term (a_snapshot keep i t d a) = if keep then a_last_term a else t.
Proof.
  intros Hi Hk Hpos. unfold a_last_term, a_snapshot, last_term_from. simpl.
  destruct keep; [|done]. destruct (Hk eq_refl) as [Hl Ht].
  rewrite !last_lookup, lookup_drop, length_drop. unfold a_last_index in Hl.
  destruct (decide (i = a_last_index a)) as [E|E]; unfold a_last_index in E.
  - rewrite lookup_ge_None_2 by lia. rewrite <- Ht. unfold a_term, a_entry.
    destruct (Z.eqb_spec i 0); [lia|]. destruct (Z.eqb_spec i (a_snap_index a)); [lia|].
    destruct (Z.leb_spec i (a_snap_index a)); [lia|].
    replace (Z.to_nat (i - a_snap_index a - 1)) with (pred (length (a_entries a))) by lia.
    destruct (lookup_lt_is_Some_2 (a_entries a) (pred (length (a_entries a)))) as [e ->];
      [lia|done].
  - replace (Z.to_nat (i - a_snap_index a) + pred (length (a_entries a) - Z.to_nat (i - a_snap_index a)))%nat
      with (pred (length (a_entries a))) by lia.
    destruct (lookup_lt_is_Some_2 (a_entries a) (pred (length (a_entries a)))) as [e ->];
      [lia|done].
Qed.

(** The term at an index inside the log is the term of the prefix it ends. *)
Lemma last_term_take a i :
  alog_wf a -> a_snap_index a < i <= a_last_index a ->
  last_term_from (a_snap_term a) (take (Z.to_nat (i - a_snap_index a)) (a_entries a)) = a_term a i.
Proof.
  intros W Hi. unfold last_term_from, a_term, a_entry, a_last_index in *.
  pose proof (wf_snap_index _ W). rewrite last_lookup, length_take.
  destruct (Z.eqb_spec i 0); [lia|]. destruct (Z.eqb_spec i (a_snap_index a)); [lia|].
  destruct (Z.leb_spec i (a_snap_index a)); [lia|].
  rewrite lookup_take_lt by lia.
  replace (pred (Z.to_nat (i - a_snap_index a) `min` length (a_entries a)))%nat
    with (Z.to_nat (i - a_snap_index a - 1)) by lia.
  destruct (lookup_lt_is_Some_2 (a_entries a) (Z.to_nat (i - a_snap_index a - 1))) as [e ->];
    [lia|done].
Qed.

Lemma wf_snapshot keep i t d a :
  alog_wf a -> a_snap_index a < i <= INT64_MAX -> 0 < t <= INT32_MAX ->
  #d <= kMaxSnapshotBytes -> (keep = true -> i <= a_last_index a /\ a_term a i = t) ->
  alog_wf (a_snapshot keep i t d a).
Proof.
  intros W Hi Ht Hd Hk. pose proof (wf_snap_index _ W). split; simpl; try done; try lia.
  - destruct keep; [|done]. destruct (Hk eq_refl) as [Hl E].
    pose proof (wf_entries _ W) as X.
    rewrite <- (take_drop (Z.to_nat (i - a_snap_index a)) (a_entries a)) in X.
    apply extends_app in X as [_ X]. rewrite last_term_take in X by (done || lia).
    rewrite E, length_take in X. unfold a_last_index in Hl.
    replace (a_snap_index a + _) with i in X by lia. done.
  - pose proof (wf_last _ W). rewrite a_last_index_snapshot by (done || lia).
    destruct keep; lia.
  - apply W.
Qed.
