(* ===== verification/LogProofs.v ===== *)
(** The operations of the Raft log implement the abstract log.

    For every operation: on a log that represents [a], either it succeeds and
    the log represents the abstract result, or a storage fault was reported, the
    caches are untouched, and the database represents the state before or the
    state after, never anything in between ([implements]). *)
From stdpp Require Import base numbers strings gmap list.
From S2P Require Import Prelude Effects Storage Messages RaftLog LogSpec.

Section LogProofs.
Context `{RocksDBSpec} `{LogEntryCodecSpec}.

(** * Edits of the database *)

Lemma delete_range_index f t m i :
  0 <= f -> t <= INT64_MAX -> 0 <= i <= INT64_MAX ->
  apply_batch (delete_range f t) m !! IndexToKey i =
    if (f <=? i) && (i <=? t) then None else m !! IndexToKey i.
Proof.
  intros Hf Ht Hi. unfold delete_range. rewrite apply_batch_deletes.
  assert (IndexToKey i ∈ map IndexToKey (seqZ f (t - f + 1)) <-> f <= i <= t) as E.
  { change (map IndexToKey (seqZ f (t - f + 1))) with (IndexToKey <$> seqZ f (t - f + 1)).
    rewrite list_elem_of_fmap. setoid_rewrite elem_of_seqZ. split.
    - intros (j & Ej & Hj). apply IndexToKey_inj in Ej; [lia|lia|lia].
    - intros ?. exists i. split; [done|lia]. }
  destruct (Z.leb_spec f i), (Z.leb_spec i t); simpl;
    first [rewrite bool_decide_eq_true_2 by (apply E; lia)
          |rewrite bool_decide_eq_false_2 by (rewrite E; lia)]; done.
Qed.

Lemma delete_range_other f t m k :
  (forall i, IndexToKey i <> k) -> apply_batch (delete_range f t) m !! k = m !! k.
Proof.
  intros Hk. apply apply_batch_untouched. unfold delete_range.
  intros op Hop. apply list_elem_of_fmap in Hop as (i & -> & _). simpl. apply Hk.
Qed.

Lemma delete_range_named f t m k :
  named_key k -> apply_batch (delete_range f t) m !! k = m !! k.
Proof. intros Hk. apply delete_range_other. auto with keys. Qed.

Lemma delete_range_keys f t m k :
  is_Some (apply_batch (delete_range f t) m !! k) -> is_Some (m !! k).
Proof.
  unfold delete_range. rewrite apply_batch_deletes. case_bool_decide; [|done].
  intros [? ?]. done.
Qed.

(** * Reads *)

(** [m] returns [v] and leaves [s] as it is, unless the storage fails. *)
Definition yields {A} (s : RaftLog) (m : M RaftLog A) (v : A) : Prop :=
  m s = (Ok v, s) \/ exists e, m s = (Err e, s) /\ ~ faultless (_db s).

Lemma yields_ret {A} s (v : A) : yields s (mret v) v.
Proof. by left. Qed.

Lemma yields_get {A} s (f : RaftLog -> M RaftLog A) v : yields s (f s) v -> yields s (get ≫= f) v.
Proof. done. Qed.

Lemma yields_bind {A B} s (m : M RaftLog A) (f : A -> M RaftLog B) v w :
  yields s m v -> yields s (f v) w -> yields s (m ≫= f) w.
Proof.
  intros [E|(e & E & Hf)] Hw.
  - unfold yields. by rewrite (M_bind_ok _ _ _ _ _ E).
  - right. exists e. by rewrite (M_bind_err _ _ _ _ _ E).
Qed.

(** Reading a key and requiring success. *)
Lemma yields_read {A} s k v op (f : Status * bytes -> M RaftLog A) w :
  contents (_db s) !! k = Some v ->
  yields s (f (OK, v)) w ->
  yields s (r ← log_Get k; _ ← lift_result (RequireStorageOK r.1 op); f r) w.
Proof.
  intros L Hw. unfold yields, log_Get, gets, lift_result. rewrite !M_bind_unfold.
  pose proof (Get_Some _ _ _ L) as Hn. destruct (DB_Get (_db s) k) as [st v'] eqn:G.
  simpl in Hn. destruct st as [| |msg]; [|done|].
  - apply Get_ok in G as G'. rewrite L in G'. simplify_eq. exact Hw.
  - right. simpl. eexists. split; [done|]. intros Hf.
    rewrite (faultless_Get_Some _ _ _ Hf L) in G. done.
Qed.

(** Reading a key that may be absent, where absence is not an error. *)
Lemma yields_lookup {A} s k op (f : M RaftLog A) (g : Status * bytes -> M RaftLog A) w :
  (contents (_db s) !! k = None -> yields s f w) ->
  (forall v, contents (_db s) !! k = Some v -> yields s (g (OK, v)) w) ->
  yields s (r ← log_Get k;
            if bool_decide (r.1 = NotFound) then f
            else (_ ← lift_result (RequireStorageOK r.1 op); g r)) w.
Proof.
  intros Hf Hg. unfold yields, log_Get, gets, lift_result. rewrite !M_bind_unfold.
  destruct (DB_Get (_db s) k) as [st v] eqn:G. simpl.
  destruct st as [| |msg]; simpl.
  - apply Get_ok in G. by apply Hg.
  - apply Get_missing in G. by apply Hf.
  - right. eexists. split; [done|]. intros Hl.
    destruct (faultless_Get (_db s) k Hl) as [E|E]; rewrite G in E; done.
Qed.

Lemma yields_require s b what : b = true -> yields s (require b what) tt.
Proof. intros ->. by left. Qed.

Lemma Get_spec s a i :
  cached s a -> alog_wf a -> durable (contents (_db s)) a ->
  yields s (Get i) (a_entry a i).
Proof.
  intros C W D. unfold Get. apply yields_get.
  rewrite (c_snap_index _ _ C), (c_last_index _ _ C).
  destruct (Z.leb_spec i (a_snap_index a)) as [Hs|Hs]; simpl.
  { replace (a_entry a i) with (@None LogEntry); [apply yields_ret|].
    unfold a_entry. by destruct (Z.leb_spec i (a_snap_index a)); [|lia]. }
  destruct (Z.ltb_spec (a_last_index a) i) as [Hl|Hl].
  { rewrite (a_entry_None a i) by done. apply yields_ret. }
  destruct (a_entry_is_Some a i ltac:(lia)) as [e E].
  destruct (a_entry_wf a i e W E) as (Hi & Ht & _).
  pose proof (wf_snap_index _ W).
  destruct (d_entry _ _ D i e ltac:(lia) E) as (v & Lv & Pv).
  apply yields_read with v; [done|]. simpl. rewrite Pv, Hi, Z.eqb_refl.
  destruct (Z.ltb_spec 0 (term e)); [|lia]. simpl. rewrite E. apply yields_ret.
Qed.

Lemma GetTerm_spec s a i : Repr s a -> 0 <= i -> yields s (GetTerm i) (a_term a i).
Proof.
  intros [C [W D _]] Hi. unfold GetTerm. apply yields_get. unfold a_term.
  destruct (Z.eqb_spec i 0) as [|Hn]; [apply yields_ret|].
  rewrite (c_snap_index _ _ C), (c_snap_term _ _ C).
  destruct (Z.eqb_spec i (a_snap_index a)) as [|Hs]; [apply yields_ret|].
  destruct (Z.ltb_spec i (a_snap_index a)) as [Hl|Hl].
  - unfold a_entry. destruct (Z.leb_spec i (a_snap_index a)); [|lia]. apply yields_ret.
  - eapply yields_bind; [by apply Get_spec|]. apply yields_ret.
Qed.

(** * Writes *)

(** What an operation with abstract effect [a] to [a'] may do. *)
Definition implements (m : M RaftLog unit) (s : RaftLog) (a a' : alog) : Prop :=
  match m s with
  | (Ok _, s') => Repr s' a' /\ (faultless (_db s) -> faultless (_db s'))
  | (Err _, s') =>
      ~ faultless (_db s) /\ cached s' a /\
      (stored (contents (_db s')) a \/ stored (contents (_db s')) a')
  end.

Lemma implements_bind {A} s a a' (m : M RaftLog A) (f : A -> M RaftLog unit) v :
  Repr s a -> yields s m v -> implements (f v) s a a' -> implements (m ≫= f) s a a'.
Proof.
  intros [C St] [E|(e & E & Hf)] Hw; unfold implements.
  - by rewrite (M_bind_ok _ _ _ _ _ E).
  - rewrite (M_bind_err _ _ _ _ _ E). auto.
Qed.

Lemma implements_refl s a : Repr s a -> implements (mret tt) s a a.
Proof. by split. Qed.

Lemma log_Write_cases b op s :
  (exists db', log_Write b op s = (Ok tt, s <| _db := db' |>) /\
     contents db' = apply_batch b (contents (_db s)) /\
     (faultless (_db s) -> faultless db')) \/
  (exists e db', log_Write b op s = (Err e, s <| _db := db' |>) /\ ~ faultless (_db s) /\
     (contents db' = contents (_db s) \/ contents db' = apply_batch b (contents (_db s)))).
Proof.
  unfold log_Write. pose proof (Write_atomic (_db s) b) as Hat.
  destruct (DB_Write (_db s) b) as [st db'] eqn:W. simpl in Hat.
  destruct (decide (st = OK)) as [->|Hne].
  - left. exists db'. split; [done|]. split; [by apply Write_ok|].
    intros Hf. destruct (faultless_Write _ b Hf) as (db'' & E & Hf'). congruence.
  - right. eexists _, db'. split; [by destruct st|]. split; [|done].
    intros Hf. destruct (faultless_Write _ b Hf) as (db'' & E & _). congruence.
Qed.

Lemma implements_write s a a' b op (k : M RaftLog unit) :
  Repr s a -> stored (apply_batch b (contents (_db s))) a' ->
  (forall db, exists s', k (s <| _db := db |>) = (Ok tt, s') /\ _db s' = db /\ cached s' a') ->
  implements (log_Write b op;; k) s a a'.
Proof.
  intros [C St] St' Hk. unfold implements.
  destruct (log_Write_cases b op s) as [(db' & E & Hc & Hf)|(e & db' & E & Hf & Hc)].
  - rewrite (M_bind_ok _ _ _ _ _ E). destruct (Hk db') as (s' & -> & Hdb & C').
    rewrite Hdb. split; [|done]. split; [done|]. by rewrite Hdb, Hc.
  - rewrite (M_bind_err _ _ _ _ _ E). split; [done|]. split.
    + by destruct C; split.
    + simpl. destruct Hc as [->| ->]; auto.
Qed.

(** The same when nothing follows the write. *)
Lemma implements_write_end s a a' b op :
  Repr s a -> stored (apply_batch b (contents (_db s))) a' -> cached s a' ->
  implements (log_Write b op) s a a'.
Proof.
  intros [C St] St' C'. unfold implements.
  destruct (log_Write_cases b op s) as [(db' & E & Hc & Hf)|(e & db' & E & Hf & Hc)];
    rewrite E; simpl.
  - split; [|done]. split; [by destruct C'; split|]. simpl. by rewrite Hc.
  - split; [done|]. split; [by destruct C; split|]. destruct Hc as [->| ->]; auto.
Qed.

(** * Append *)

Lemma append_ops_spec last es last' ops :
  0 <= last <= INT64_MAX -> append_ops last es = Ok (last', ops) ->
  last' = last + #es /\ last' <= INT64_MAX /\
  forall m,
    (forall k, (forall i, last < i <= last' -> IndexToKey i <> k) ->
       apply_batch ops m !! k = m !! k) /\
    (forall j e, es !! j = Some e ->
       exists v, SerializeToString e = Some v /\
         apply_batch ops m !! IndexToKey (last + 1 + Z.of_nat j) = Some v).
Proof.
  revert last ops. induction es as [|e es IH]; intros last ops Hlast.
  { intros [= <- <-]. simpl. split; [lia|]. split; [lia|]. intros m. done. }
  cbn [append_ops]. destruct (Z.eqb_spec last INT64_MAX) as [|Hmax]; [done|].
  destruct (Z.eqb_spec (index e) (last + 1)) as [Hi|]; [|done].
  destruct (Z.leb_spec (term e) 0); [done|]. simpl.
  destruct (SerializeToString e) as [v|] eqn:Sv; [|done].
  destruct (append_ops (index e) es) as [[l o]|] eqn:R; [|done].
  intros E. unfold mbind, mret, result_bind, result_ret in E. simpl in E. simplify_eq.
  rewrite Hi in R. destruct (IH (last + 1) _ ltac:(lia) R) as (-> & Hle & Hm).
  split; [cbn [length]; lia|]. split; [done|]. intros m.
  destruct (Hm (<[IndexToKey (last + 1) := v]> m)) as [Hout Hin].
  rewrite Hi. split.
  - intros k Hk. rewrite apply_batch_cons. simpl. rewrite Hout.
    + apply lookup_insert_ne, Hk. lia.
    + intros i ?. apply Hk. lia.
  - intros [|j] e' L; simpl in L.
    + simplify_eq. exists v. split; [done|]. rewrite apply_batch_cons. simpl.
      rewrite Z.add_0_r. rewrite Hout; [apply lookup_insert_eq|].
      intros i ? E. apply IndexToKey_inj in E; lia.
    + destruct (Hin j e' L) as (v' & ? & L'). exists v'. split; [done|].
      rewrite apply_batch_cons. simpl.
      replace (last + 1 + Z.of_nat (S j)) with (last + 1 + 1 + Z.of_nat j) by lia. done.
Qed.

Lemma append_ops_keys last es last' ops :
  0 <= last <= INT64_MAX -> append_ops last es = Ok (last', ops) ->
  Forall (fun op => known_key (op_key op)) ops.
Proof.
  revert last ops. induction es as [|e es IH]; intros last ops Hl; [by intros [= _ <-]|].
  cbn [append_ops]. destruct (Z.eqb_spec last INT64_MAX); [done|].
  destruct (Z.eqb_spec (index e) (last + 1)) as [Hi|]; [|done].
  destruct (Z.leb_spec (term e) 0); [done|]. simpl.
  destruct (SerializeToString e) as [v|]; [|done].
  destruct (append_ops (index e) es) as [[l o]|] eqn:R; [|done].
  intros E. unfold mbind, mret, result_bind, result_ret in E. simpl in E. simplify_eq.
  constructor; [apply known_index; simpl; lia|]. eapply IH; [|done]. lia.
Qed.

Lemma append_ops_total last t es :
  extends last t es -> last + #es <= INT64_MAX ->
  Forall (fun e => #(command e) < 2 ^ 30) es ->
  exists ops, append_ops last es = Ok (last + #es, ops).
Proof.
  revert last t. induction es as [|e es IH]; intros last t Hx Hl Hc.
  { eexists. simpl. by rewrite Z.add_0_r. }
  destruct Hx as (Hi & Ht & _ & Hx). apply Forall_cons in Hc as [Hc Hcs].
  cbn [length] in Hl. cbn [append_ops].
  destruct (Z.eqb_spec last INT64_MAX); [lia|].
  destruct (Z.eqb_spec (index e) (last + 1)); [|done].
  destruct (Z.leb_spec (term e) 0); [lia|]. cbn [orb negb].
  destruct (Serialize_total e Hc) as [v ->].
  destruct (IH (last + 1) (term e) Hx ltac:(lia) Hcs) as [ops E].
  rewrite Hi, E. replace (last + Z.of_nat (length (e :: es))) with (last + 1 + #es)
    by (cbn [length]; lia).
  eexists. reflexivity.
Qed.

(** The edits of an append: the new entries become readable, the tail record is
    replaced, and nothing else changes. *)
Lemma append_edits last es last' ops t0 t m :
  0 <= last <= INT64_MAX -> append_ops last es = Ok (last', ops) -> extends last t0 es ->
  let m' := apply_batch (ops ++ PutTail last' t) m in
  m' !! TailKey = Some (EncodeTail last' t) /\
  (forall k, named_key k -> k <> TailKey -> m' !! k = m !! k) /\
  (forall i, ~ last < i <= last' -> 0 <= i <= INT64_MAX ->
     m' !! IndexToKey i = m !! IndexToKey i) /\
  (forall j e, es !! j = Some e ->
     exists v, m' !! IndexToKey (last + 1 + Z.of_nat j) = Some v /\ ParseFromString v = Some e) /\
  (keys_ok m -> keys_ok m').
Proof.
  intros Hl R Hx m'. destruct (append_ops_spec _ _ _ _ Hl R) as (-> & Hmax & Hops).
  destruct (Hops m) as [Hout Hin]. subst m'. rewrite apply_batch_app. simpl.
  split_and!.
  - apply lookup_insert_eq.
  - intros k Hk Hne. rewrite lookup_insert_ne by done. apply Hout. auto with keys.
  - intros i Hi Hb. rewrite lookup_insert_ne by auto with keys.
    apply Hout. intros j Hj E. apply IndexToKey_inj in E; lia.
  - intros j e L. destruct (Hin j e L) as (v & Sv & Lv). exists v. split.
    + by rewrite lookup_insert_ne by auto with keys.
    + apply Parse_Serialize; [|done]. apply lookup_lt_Some in L as Hj.
      destruct (extends_lookup _ _ _ _ _ Hx L) as (Hie & Ht & _).
      unfold entry_typed, INT64_MAX, INT32_MAX in *. lia.
  - intros Hk. change (<[TailKey := EncodeTail (last + #es) t]> (apply_batch ops m))
      with (apply_batch [Put TailKey (EncodeTail (last + #es) t)] (apply_batch ops m)).
    rewrite <- apply_batch_app. apply keys_ok_batch; [done|].
    apply Forall_app. split; [|by repeat constructor].
    by eapply append_ops_keys.
Qed.

Lemma a_last_index_range a : alog_wf a -> 0 <= a_last_index a <= INT64_MAX.
Proof. intros W. pose proof (wf_last _ W). pose proof (wf_snap_index _ W). unfold a_last_index in *. lia. Qed.

(** The content after an append of [es]. *)
Lemma stored_append m a es last' ops :
  stored m a -> extends (a_last_index a) (a_last_term a) es ->
  append_ops (a_last_index a) es = Ok (last', ops) ->
  stored (apply_batch (ops ++ PutTail last' (last_term_from (a_last_term a) es)) m) (a_append es a).
Proof.
  intros [W D T] Hx R. pose proof (a_last_index_range _ W) as Hr.
  destruct (append_ops_spec _ _ _ _ Hr R) as (El & Hmax & _).
  destruct (append_edits _ _ _ _ _ (last_term_from (a_last_term a) es) m Hr R Hx)
    as (Htail & Hnamed & Hidx & Hnew & Hkeys).
  split.
  - destruct W. split; try done; [by apply extends_app|].
    by rewrite a_last_index_append, <- El.
  - destruct D as [D1 D2 D3 D4 D5 D6 D7]. split; try (rewrite Hnamed by auto with keys); try done.
    + rewrite Hidx by (unfold INT64_MAX; lia). done.
    + intros i e Hi. rewrite a_entry_append. destruct (Z.leb_spec i (a_last_index a)) as [Hle|Hgt].
      * rewrite Hidx by lia. by apply D5.
      * intros L. destruct (Hnew _ _ L) as (v & Lv & Pv). exists v. split; [|done].
        rewrite <- Lv. do 2 f_equal. lia.
    + intros i Hi. rewrite a_entry_append. destruct (Z.leb_spec i (a_last_index a)) as [Hle|Hgt].
      * rewrite Hidx by lia. by apply D6.
      * intros L. apply lookup_ge_None in L. rewrite Hidx by lia.
        apply D6; [done|]. by apply a_entry_None.
    + by apply Hkeys.
  - left. by rewrite a_last_index_append, a_last_term_append, <- El.
Qed.

Lemma back_term_last t es : es <> [] -> back_term es = last_term_from t es.
Proof.
  intros Hne. unfold back_term, last_term_from.
  destruct (last es) eqn:E; [done|]. by apply last_None in E.
Qed.

Lemma AppendBatch_nonempty es :
  es <> [] ->
  AppendBatch es =
    (s ← get;
     r ← lift_result (append_ops (_last_index s) es);
     log_Write (r.2 ++ PutTail r.1 (back_term es)) "append Raft log batch";;
     modify (fun s => s <| _last_index := r.1 |> <| _last_term := back_term es |>)).
Proof. by destruct es. Qed.

Lemma AppendBatch_implements s a es :
  Repr s a -> extends (a_last_index a) (a_last_term a) es ->
  a_last_index a + #es <= INT64_MAX ->
  Forall (fun e => #(command e) < 2 ^ 30) es ->
  implements (AppendBatch es) s a (a_append es a).
Proof.
  intros R Hx Hl Hc. destruct (decide (es = [])) as [->|Hne].
  { replace (a_append [] a) with a; [by apply implements_refl|].
    destruct a. unfold a_append. simpl. by rewrite app_nil_r. }
  destruct (append_ops_total _ _ _ Hx Hl Hc) as [ops Eo].
  rewrite AppendBatch_nonempty by done.
  apply implements_bind with s; [done|by left|].
  destruct R as [C St]. rewrite (c_last_index _ _ C), Eo.
  apply implements_bind with (a_last_index a + #es, ops); [done|by left|].
  cbn [fst snd]. rewrite (back_term_last (a_last_term a) es Hne).
  apply implements_write; [done|by apply stored_append|].
  intros db. eexists. split; [done|]. split; [done|].
  destruct C. split; simpl; try done.
  - by rewrite a_last_index_append.
  - by rewrite a_last_term_append.
Qed.

(** A batch the checks refuse changes nothing. *)
Lemma AppendBatch_refused s es e :
  es <> [] -> append_ops (_last_index s) es = Err e -> AppendBatch es s = (Err e, s).
Proof. intros Hne E. rewrite AppendBatch_nonempty by done. unfold get, lift_result.
  rewrite !M_bind_unfold, E. done. Qed.

(** * Truncate *)

Lemma stored_truncate m a start t :
  stored m a -> a_snap_index a < start <= a_last_index a -> t = a_term a (start - 1) ->
  stored (apply_batch (delete_range start (a_last_index a) ++ PutTail (start - 1) t) m)
    (a_truncate start a).
Proof.
  intros [W D T] Hs ->. pose proof (a_last_index_range _ W) as Hr.
  pose proof (wf_snap_index _ W) as Hs0. rewrite apply_batch_app. simpl. split.
  - destruct W. split; try done; [by apply extends_take|].
    rewrite a_last_index_truncate by done. lia.
  - destruct D as [D1 D2 D3 D4 D5 D6 D7].
    split; rewrite ?lookup_insert_ne by auto with keys;
      rewrite ?delete_range_named by auto with keys; try done.
    + rewrite delete_range_index by (unfold INT64_MAX in *; lia).
      by destruct (Z.leb_spec start 0); [lia|].
    + intros i e Hi E. rewrite lookup_insert_ne by auto with keys.
      rewrite a_entry_truncate in E. destruct (Z.ltb_spec i start); [|done].
      apply a_entry_inv in E as Hb. rewrite delete_range_index by lia.
      destruct (Z.leb_spec start i); [lia|]. by apply D5.
    + intros i Hi E. rewrite lookup_insert_ne by auto with keys.
      rewrite a_entry_truncate in E. rewrite delete_range_index by lia.
      destruct (Z.ltb_spec i start), (Z.leb_spec start i); try lia; simpl; [by apply D6|].
      destruct (Z.leb_spec i (a_last_index a)); [done|]. apply D6, a_entry_None; lia.
    + intros k Hk. destruct (decide (k = TailKey)) as [->|Hne]; [left; auto with keys|].
      rewrite lookup_insert_ne in Hk by done. apply D7. by eapply delete_range_keys.
  - left. rewrite a_last_index_truncate, a_last_term_truncate by done. apply lookup_insert_eq.
Qed.

Lemma TruncateSuffix_implements s a start :
  Repr s a -> a_snap_index a < start <= a_last_index a ->
  implements (TruncateSuffix start) s a (a_truncate start a).
Proof.
  intros R Hs. assert (cached s a) as C by apply R. unfold TruncateSuffix.
  apply implements_bind with s; [done|by left|].
  rewrite (c_snap_index _ _ C), (c_last_index _ _ C).
  destruct (Z.leb_spec start (a_snap_index a)); [lia|].
  destruct (Z.ltb_spec (a_last_index a) start); [lia|].
  apply implements_bind with (a_term a (start - 1)); [done| |].
  { pose proof (wf_snap_index _ (st_wf _ _ (proj2 R))).
    destruct (Z.eqb_spec (start - 1) 0) as [->|]; [by left|]. apply GetTerm_spec; [done|lia]. }
  apply implements_write; [done|apply stored_truncate; [apply R|done..]|].
  intros db. eexists. split; [done|]. split; [done|].
  destruct C. split; simpl; try done.
  - by rewrite a_last_index_truncate.
  - rewrite a_last_term_truncate; [done|apply R|done].
Qed.

(** Truncating at or before the snapshot is refused; past the end it is void. *)
Lemma TruncateSuffix_edges s a start :
  Repr s a ->
  (start <= a_snap_index a ->
     TruncateSuffix start s = (Err (runtime_error "cannot truncate snapshotted prefix"), s)) /\
  (a_last_index a < start -> TruncateSuffix start s = (Ok tt, s)).
Proof.
  intros [C _]. unfold TruncateSuffix, get. rewrite M_bind_unfold.
  rewrite (c_snap_index _ _ C), (c_last_index _ _ C). pose proof (a_last_index_ge a).
  split; intros Hs.
  - by destruct (Z.leb_spec start (a_snap_index a)); [|lia].
  - destruct (Z.leb_spec start (a_snap_index a)); [lia|].
    by destruct (Z.ltb_spec (a_last_index a) start); [|lia].
Qed.

(** * Hard state *)

Lemma stored_hard m a h :
  stored m a -> hard_ok h ->
  stored (apply_batch [Put (IndexToKey 0) (encode_hard_state h.1 h.2)] m) (a_save_hard h a).
Proof.
  intros [W D T] Hh. simpl. split.
  - destruct W. split; try done. intros h'. simpl. by intros [= <-].
  - destruct D as [D1 D2 D3 D4 D5 D6 D7].
    split; rewrite ?lookup_insert_ne by auto with keys; try done.
    + apply lookup_insert_eq.
    + intros i e Hi E. apply a_entry_inv in E as Hb. pose proof (a_last_index_range _ W) as Hr.
      change (a_last_index (a_save_hard h a)) with (a_last_index a) in Hb.
      rewrite lookup_insert_ne; [by apply D5|]. intros E'. apply IndexToKey_inj in E'; lia.
    + intros i Hi E. rewrite lookup_insert_ne; [by apply D6|].
      intros E'. apply IndexToKey_inj in E'; lia.
    + intros k Hk. destruct (decide (k = IndexToKey 0)) as [->|Hne].
      { apply known_index. unfold INT64_MAX. lia. }
      rewrite lookup_insert_ne in Hk by done. by apply D7.
  - destruct T as [T|[T Z]]; [left|right]; rewrite lookup_insert_ne by auto with keys; done.
Qed.

Lemma SaveHardState_implements s a term voted_for :
  Repr s a -> hard_ok (term, voted_for) ->
  implements (SaveHardState term voted_for) s a (a_save_hard (term, voted_for) a).
Proof.
  intros R Hh. unfold SaveHardState. destruct Hh as [H3 H4]. simpl in H3, H4.
  destruct (Z.ltb_spec term 0); [lia|]. destruct (Z.ltb_spec voted_for (-1)); [lia|]. simpl.
  apply implements_write_end; [done|apply (stored_hard _ _ (term, voted_for)); [apply R|done]|].
  destruct R as [C _]. by destruct C; split.
Qed.

Lemma SaveHardState_refused s term voted_for :
  term < 0 \/ voted_for < -1 ->
  SaveHardState term voted_for s = (Err (runtime_error "invalid hard state"), s).
Proof.
  intros Hb. unfold SaveHardState.
  by destruct (Z.ltb_spec term 0), (Z.ltb_spec voted_for (-1)); try done; lia.
Qed.

Lemma length_encode_hard_state t v : length (encode_hard_state t v) = 8%nat.
Proof. unfold encode_hard_state. by rewrite length_app, !length_le_put. Qed.

Lemma decode_hard_state t v :
  hard_ok (t, v) ->
  le_get (take 4 (encode_hard_state t v)) = t /\
  le_get (take 4 (drop 4 (encode_hard_state t v))) = if v =? -1 then UINT32_MAX else v.
Proof.
  unfold hard_ok, INT32_MAX, UINT32_MAX. simpl. intros [Ht Hv]. unfold encode_hard_state.
  rewrite (take_app_exact _ _ _ (length_le_put _ _)), (drop_app_exact _ _ _ (length_le_put _ _)).
  rewrite (firstn_all2 (le_put 4 (uN 32 v))) by (by rewrite length_le_put).
  rewrite !le_get_put. change (8 * Z.of_nat 4) with 32. unfold uN. rewrite !Zmod_mod. split.
  - apply Z.mod_small. lia.
  - destruct (Z.eqb_spec v (-1)) as [->|]; [done|]. apply Z.mod_small. lia.
Qed.

(** Loading gives back what was saved; a log never saved reads as term 0 with no
    vote while it is empty. *)
Lemma LoadHardState_spec s a :
  Repr s a ->
  match a_hard a with
  | Some (t, v) => yields s LoadHardState (true, t, v)
  | None => a_last_index a = 0 -> yields s LoadHardState (false, 0, -1)
  end.
Proof.
  intros [C [W D T]]. pose proof (d_hard _ _ D) as Dh. pose proof (wf_hard _ W) as Wh.
  unfold LoadHardState. destruct (a_hard a) as [[t v]|] eqn:Ha; simpl in Dh.
  - specialize (Wh _ eq_refl). destruct (decode_hard_state t v Wh) as [E0 E1].
    apply yields_get. unfold yields, log_Get, gets. rewrite M_bind_unfold.
    pose proof (Get_Some _ _ _ Dh) as Hn. destruct (DB_Get (_db s) (IndexToKey 0)) as [st v'] eqn:G.
    simpl in Hn. destruct st as [| |msg]; [|done|].
    + apply Get_ok in G. rewrite Dh in G. simplify_eq. left. simpl.
      cbn. rewrite length_encode_hard_state, E0, E1. cbn.
      unfold hard_ok, INT32_MAX, UINT32_MAX in *. simpl in Wh. destruct Wh as [Wt Wv].
      destruct (Z.ltb_spec (2 ^ 31 - 1) t); [lia|].
      destruct (Z.eqb_spec v (-1)) as [->|]; simpl.
      * rewrite (sN_small 32 t) by lia. done.
      * destruct (Z.ltb_spec (2 ^ 31 - 1) v); [lia|]. simpl.
        destruct (Z.eqb_spec v (2 ^ 32 - 1)); [lia|]. by rewrite !sN_small by lia.
    + right. eexists. split; [done|]. intros Hf.
      by rewrite (faultless_Get_Some _ _ _ Hf Dh) in G.
  - intros H0'. apply yields_get. unfold yields, log_Get, gets. rewrite M_bind_unfold.
    rewrite (c_last_index _ _ C), H0'.
    destruct (DB_Get (_db s) (IndexToKey 0)) as [st v'] eqn:G. destruct st as [| |msg]; simpl.
    + apply Get_ok in G. congruence.
    + by left.
    + right. eexists. split; [done|]. intros Hf.
      destruct (faultless_Get (_db s) (IndexToKey 0) Hf) as [E|E]; rewrite G in E; done.
Qed.

(** * Snapshots *)

Definition snapshot_batch (a : alog) (keep : bool) (i t : Z) (d : bytes) : WriteBatch :=
  [Put SnapshotMetaKey (be_put 8 (uN 64 i) ++ be_put 8 (uN 64 t));
   Put SnapshotDataKey d;
   Delete SnapshotIntentKey] ++
  PutTail (if keep then a_last_index a else i) (if keep then a_last_term a else t) ++
  delete_range (a_snap_index a + 1) (if keep then i else a_last_index a).

(** The edits of a snapshot. *)
Lemma snapshot_edits a keep i t d m :
  0 <= a_snap_index a -> a_last_index a <= INT64_MAX -> i <= INT64_MAX ->
  let m' := apply_batch (snapshot_batch a keep i t d) m in
  m' !! SnapshotMetaKey = Some (EncodeTail i t) /\
  m' !! SnapshotDataKey = Some d /\
  m' !! SnapshotIntentKey = None /\
  m' !! TailKey = Some (EncodeTail (if keep then a_last_index a else i)
                                   (if keep then a_last_term a else t)) /\
  (forall j, 0 <= j <= INT64_MAX ->
     m' !! IndexToKey j =
       if (a_snap_index a + 1 <=? j) && (j <=? (if keep then i else a_last_index a))
       then None else m !! IndexToKey j) /\
  (keys_ok m -> keys_ok m').
Proof.
  intros Hs Hl Hi m'. subst m'. unfold snapshot_batch. split_and!.
  1-4: rewrite !apply_batch_app, delete_range_named by auto with keys; unfold PutTail; cbn.
  - rewrite lookup_insert_ne by auto with keys. rewrite lookup_delete_ne by auto with keys.
    rewrite lookup_insert_ne by auto with keys. apply lookup_insert_eq.
  - rewrite lookup_insert_ne by auto with keys. rewrite lookup_delete_ne by auto with keys.
    apply lookup_insert_eq.
  - rewrite lookup_insert_ne by auto with keys. apply lookup_delete_eq.
  - apply lookup_insert_eq.
  - intros j Hj. rewrite !apply_batch_app, delete_range_index by (destruct keep; lia).
    unfold PutTail. cbn. rewrite lookup_insert_ne by auto with keys.
    rewrite lookup_delete_ne by auto with keys.
    by rewrite !lookup_insert_ne by auto with keys.
  - intros Hk k Hsome. rewrite app_assoc, apply_batch_app in Hsome.
    apply delete_range_keys in Hsome. eapply keys_ok_batch; [apply Hk| |exact Hsome].
    repeat (constructor; [left; simpl; auto with keys|]). constructor.
Qed.

Lemma stored_snapshot m a keep i t d :
  stored m a -> a_snap_index a < i <= INT64_MAX -> 0 < t <= INT32_MAX ->
  #d <= kMaxSnapshotBytes -> (keep = true -> i <= a_last_index a /\ a_term a i = t) ->
  stored (apply_batch (snapshot_batch a keep i t d) m) (a_snapshot keep i t d a).
Proof.
  intros [W D T] Hi Ht Hd Hk. pose proof (wf_snap_index _ W) as Hs0.
  pose proof (wf_last _ W) as Hl.
  destruct (snapshot_edits a keep i t d m Hs0 Hl ltac:(lia)) as (E1 & E2 & E3 & E4 & E5 & E6).
  split.
  - by apply wf_snapshot.
  - destruct D as [D1 D2 D3 D4 D5 D6 D7]. split; simpl.
    + destruct (Z.eqb_spec i 0); [lia|done].
    + destruct (Z.eqb_spec i 0); [lia|done].
    + done.
    + rewrite E5 by (unfold INT64_MAX; lia). by destruct (Z.leb_spec (a_snap_index a + 1) 0); [lia|].
    + intros j e Hj. rewrite a_entry_snapshot by lia. destruct (Z.leb_spec j i); [done|].
      destruct keep; [|done]. intros E. apply a_entry_inv in E as Hb.
      rewrite E5 by lia. destruct (Z.leb_spec j i); [lia|]. rewrite andb_false_r. by apply D5.
    + intros j Hj. rewrite a_entry_snapshot, E5 by lia.
      destruct (Z.leb_spec j i); simpl.
      * intros _. destruct (Z.leb_spec (a_snap_index a + 1) j); simpl.
        -- destruct keep; [by destruct (Z.leb_spec j i); [|lia]|].
           destruct (Z.leb_spec j (a_last_index a)); [done|]. apply D6, a_entry_None; lia.
        -- apply D6; [done|]. unfold a_entry. by destruct (Z.leb_spec j (a_snap_index a)); [|lia].
      * destruct (Z.leb_spec (a_snap_index a + 1) j); simpl; [|lia].
        destruct keep; [destruct (Z.leb_spec j i); [lia|]; by apply D6|].
        intros _. destruct (Z.leb_spec j (a_last_index a)); [done|]. apply D6, a_entry_None; lia.
    + by apply E6.
  - left. rewrite a_last_index_snapshot by (done || lia).
    by rewrite a_last_term_snapshot by (done || lia).
Qed.

Lemma PersistSnapshot_implements s a keep i t d :
  Repr s a -> a_snap_index a < i <= INT64_MAX -> 0 < t <= INT32_MAX ->
  #d <= kMaxSnapshotBytes -> (keep = true -> i <= a_last_index a /\ a_term a i = t) ->
  implements (PersistSnapshot i t d keep) s a (a_snapshot keep i t d a).
Proof.
  intros R Hi Ht Hd Hk. assert (cached s a) as C by apply R.
  pose proof (wf_snap_index _ (st_wf _ _ (proj2 R))) as Hs0. unfold PersistSnapshot.
  destruct (Z.leb_spec i 0); [lia|]. destruct (Z.leb_spec t 0); [lia|].
  destruct (Z.ltb_spec kMaxSnapshotBytes #d); [lia|]. cbn [orb].
  apply implements_bind with s; [done|by left|].
  rewrite (c_snap_index _ _ C), (c_last_index _ _ C), (c_last_term _ _ C).
  apply implements_write; [done|apply stored_snapshot; [apply R|done..]|].
  intros db. destruct C. destruct keep; eexists; (split; [done|]); (split; [done|]);
    split; cbn; try done; by rewrite ?a_last_index_snapshot, ?a_last_term_snapshot by (done || lia).
Qed.

Lemma CompactApplied_implements s a i t d :
  Repr s a -> a_snap_index a < i <= a_last_index a -> a_term a i = t ->
  #d <= kMaxSnapshotBytes ->
  implements (CompactApplied i t d) s a (a_snapshot true i t d a).
Proof.
  intros R Hi Et Hd. assert (alog_wf a) as W by apply R. destruct R as [C St].
  unfold CompactApplied. apply implements_bind with s; [done|by left|].
  rewrite (c_snap_index _ _ C), (c_last_index _ _ C). destruct (Z.leb_spec i (a_snap_index a)); [lia|].
  destruct (Z.ltb_spec (a_last_index a) i); [lia|].
  pose proof (wf_snap_index _ W). apply implements_bind with false; [done| |].
  { eapply yields_bind; [apply (GetTerm_spec s a); [done|lia]|].
    rewrite Et, Z.eqb_refl. apply yields_ret. }
  apply PersistSnapshot_implements; [done| | |done|].
  - pose proof (wf_last _ W). lia.
  - destruct (a_entry_is_Some a i Hi) as [e E]. destruct (a_entry_wf _ _ _ W E) as (_ & ? & _).
    rewrite <- Et. unfold a_term. destruct (Z.eqb_spec i 0); [lia|].
    destruct (Z.eqb_spec i (a_snap_index a)); [lia|]. by rewrite E.
  - intros _. split; [lia|done].
Qed.

(** Compacting an entry the log does not hold throws and changes nothing. *)
Lemma CompactApplied_absent s a i t d :
  Repr s a -> a_last_index a < i ->
  CompactApplied i t d s = (Err (runtime_error "cannot snapshot an absent Raft entry"), s).
Proof.
  intros [C _] Hi. unfold CompactApplied, get. rewrite M_bind_unfold.
  rewrite (c_snap_index _ _ C), (c_last_index _ _ C). pose proof (a_last_index_ge a).
  destruct (Z.leb_spec i (a_snap_index a)); [lia|].
  by destruct (Z.ltb_spec (a_last_index a) i); [|lia].
Qed.

(** The abstract effect of installing a leader's snapshot. *)
Definition a_install (i t : Z) (d : bytes) (a : alog) : alog :=
  if i =? a_snap_index a then a
  else a_snapshot ((i <=? a_last_index a) && (a_term a i =? t)) i t d a.

Lemma InstallSnapshot_implements s a i t d :
  Repr s a -> a_snap_index a <= i <= INT64_MAX -> 0 < i -> 0 < t <= INT32_MAX ->
  (i = a_snap_index a -> t = a_snap_term a) -> #d <= kMaxSnapshotBytes ->
  implements (InstallSnapshot i t d) s a (a_install i t d a).
Proof.
  intros R Hi Hp Ht Heq Hd. destruct R as [C St]. unfold InstallSnapshot.
  destruct (Z.leb_spec i 0); [lia|]. destruct (Z.leb_spec t 0); [lia|]. cbn [orb].
  apply implements_bind with s; [done|by left|].
  rewrite (c_snap_index _ _ C), (c_snap_term _ _ C), (c_last_index _ _ C).
  destruct (Z.ltb_spec i (a_snap_index a)); [lia|]. unfold a_install.
  destruct (Z.eqb_spec i (a_snap_index a)) as [E|E].
  { rewrite (Heq E), Z.eqb_refl. by apply implements_refl. }
  apply implements_bind with ((i <=? a_last_index a) && (a_term a i =? t)); [done| |].
  { destruct (Z.leb_spec i (a_last_index a)); [|by left].
    eapply yields_bind; [apply (GetTerm_spec s a); [done|lia]|]. apply yields_ret. }
  apply PersistSnapshot_implements; [done|lia|done|done|].
  intros Hk. apply andb_true_iff in Hk as [?%Z.leb_le ?%Z.eqb_eq]. done.
Qed.

Lemma InstallSnapshot_refused s a i t d :
  Repr s a ->
  (i <= 0 \/ t <= 0 -> InstallSnapshot i t d s = (Err (runtime_error "invalid Raft snapshot"), s)) /\
  (0 < i < a_snap_index a -> 0 < t ->
     InstallSnapshot i t d s = (Err (runtime_error "Raft snapshot would move backwards"), s)).
Proof.
  intros [C _]. unfold InstallSnapshot, get. split.
  - intros Hb. by destruct (Z.leb_spec i 0), (Z.leb_spec t 0); try done; lia.
  - intros Hi Ht. destruct (Z.leb_spec i 0); [lia|]. destruct (Z.leb_spec t 0); [lia|]. simpl.
    rewrite M_bind_unfold, (c_snap_index _ _ C). by destruct (Z.ltb_spec i (a_snap_index a)); [|lia].
Qed.

(** * The pending installation *)

Lemma stored_stage m a p :
  stored m a -> intent_ok (a_snap_index a) p ->
  stored (apply_batch ([Put SnapshotIntentKey (EncodeTail p.1.1 p.1.2 ++ p.2)] ++
                       PutTail (a_last_index a) (a_last_term a)) m) (a_stage p a).
Proof.
  intros [W D T] Hp. simpl. split.
  - destruct W. split; try done. intros p'. simpl. by intros [= <-].
  - destruct D as [D1 D2 D3 D4 D5 D6 D7].
    split; rewrite ?lookup_insert_ne by auto with keys; try done.
    + apply lookup_insert_eq.
    + intros i e Hi E. rewrite !lookup_insert_ne by auto with keys. by apply D5.
    + intros i Hi E. rewrite !lookup_insert_ne by auto with keys. by apply D6.
    + eapply (keys_ok_batch [Put SnapshotIntentKey _; Put TailKey _]); [done|].
      repeat (constructor; [left; simpl; auto with keys|]). constructor.
  - left. apply lookup_insert_eq.
Qed.

Lemma StageSnapshotInstall_implements s a i t d :
  Repr s a -> intent_ok (a_snap_index a) (i, t, d) -> a_intent a = None ->
  implements (StageSnapshotInstall i t d) s a (a_stage (i, t, d) a).
Proof.
  intros R Hp Hn. assert (cached s a) as C by apply R. pose proof Hp as (Hi & Ht & Hd).
  simpl in Hi, Ht, Hd. unfold StageSnapshotInstall.
  apply implements_bind with s; [done|by left|].
  rewrite (c_snap_index _ _ C), (c_last_index _ _ C), (c_last_term _ _ C).
  destruct (Z.leb_spec i (a_snap_index a)); [lia|]. destruct (Z.leb_spec t 0); [lia|].
  destruct (Z.ltb_spec INT32_MAX t); [lia|]. destruct (Z.ltb_spec kMaxSnapshotBytes #d); [lia|].
  cbn [orb]. unfold implements, log_Get, gets. rewrite M_bind_unfold.
  pose proof (d_intent _ _ (st_durable _ _ (proj2 R))) as Di. rewrite Hn in Di. simpl in Di.
  destruct (DB_Get (_db s) SnapshotIntentKey) as [st v] eqn:G. destruct st as [| |msg].
  - apply Get_ok in G. congruence.
  - apply (implements_write_end s a (a_stage (i, t, d) a));
      [done|apply (stored_stage _ _ (i, t, d)); [apply R|done]|by destruct C; split].
  - simpl. split; [|split; [done|left; apply R]]. intros Hf.
    destruct (faultless_Get (_db s) SnapshotIntentKey Hf) as [E|E]; rewrite G in E; done.
Qed.

Lemma LoadPendingSnapshot_spec s a : Repr s a -> yields s LoadPendingSnapshot (a_intent a).
Proof.
  intros [C [W D T]]. unfold LoadPendingSnapshot. apply yields_get.
  pose proof (d_intent _ _ D) as Di. pose proof (wf_intent _ W) as Wi.
  pose proof (wf_snap_index _ W) as Hs0.
  apply yields_lookup.
  - intros L. rewrite Di in L. destruct (a_intent a); [done|]. apply yields_ret.
  - intros v L. rewrite Di in L. destruct (a_intent a) as [[[i t] d]|]; [|done]. simpl in L.
    injection L as <-. destruct (Wi _ eq_refl) as (Hi & Ht & Hd). simpl in Hi, Ht, Hd. cbn [snd].
    eapply yields_bind; [apply yields_require|].
    + rewrite length_app, length_EncodeTail.
      destruct (Z.ltb_spec (Z.of_nat (16 + length d)) 16); [lia|].
      by destruct (Z.ltb_spec kMaxSnapshotBytes (Z.of_nat (16 + length d) - 16)); [lia|].
    + rewrite decode_EncodeTail by (unfold INT64_MAX, INT32_MAX in *; lia).
      rewrite (c_snap_index _ _ C). rewrite uN_small by (unfold INT64_MAX in *; lia).
      destruct (Z.leb_spec i (a_snap_index a)); [lia|]. destruct (Z.ltb_spec INT64_MAX i); [lia|].
      destruct (Z.eqb_spec t 0); [lia|]. destruct (Z.ltb_spec INT32_MAX t); [lia|]. cbn [orb].
      rewrite !sN_64_id by (unfold INT64_MAX, INT32_MAX in *; lia).
      rewrite (drop_app_exact _ _ _ (length_EncodeTail _ _)). apply yields_ret.
Qed.

(** Reads do not change the object, even when they fail. *)
Lemma Get_pure i l : (Get i l).2 = l.
Proof.
  unfold Get, log_Get, gets, get, lift_result. rewrite !M_bind_unfold. case_match; [done|].
  rewrite !M_bind_unfold. destruct (RequireStorageOK _ _); [|done].
  by repeat case_match.
Qed.
Lemma GetTerm_pure i l : (GetTerm i l).2 = l.
Proof.
  unfold GetTerm, get. rewrite M_bind_unfold. repeat (case_match; [done|]).
  rewrite M_bind_unfold. pose proof (Get_pure i l). destruct (Get i l) as [[e|e] l']; done.
Qed.
Lemma LoadHardState_pure l : (LoadHardState l).2 = l.
Proof.
  unfold LoadHardState, log_Get, gets, get, lift_result. rewrite !M_bind_unfold. case_match; [done|].
  rewrite M_bind_unfold. destruct (RequireStorageOK _ _); [|done]. rewrite M_bind_unfold. unfold require.
  destruct (_ =? 8); [|done]. cbn. by case_match.
Qed.
Lemma LoadPendingSnapshot_pure l : (LoadPendingSnapshot l).2 = l.
Proof.
  unfold LoadPendingSnapshot, log_Get, gets, get, lift_result. rewrite !M_bind_unfold. case_match; [done|].
  rewrite M_bind_unfold. destruct (RequireStorageOK _ _); [|done]. rewrite M_bind_unfold. unfold require.
  destruct (negb _); [|done]. cbn. by case_match.
Qed.
End LogProofs.
