(* ===== verification/LogRecovery.v ===== *)
(** Opening a Raft log recovers what its database represents.

    The constructor of [RaftLog] reads the snapshot, then the tail record and
    every entry up to it; a log written before tail records existed is scanned
    instead and its tail recorded.  Whatever the log represented before the
    process stopped, the reopened object represents ([Open_recovers]). *)
From stdpp Require Import base numbers strings sorting gmap list.
From S2P Require Import Prelude Effects Storage Messages RaftLog LogSpec LogProofs.

(** * Bytewise order of index keys *)

Lemma be_val_cons b l : be_val (b :: l) = Z_of_byte b * 2 ^ (8 * #l) + be_val l.
Proof.
  induction l as [|c l IH] using rev_ind.
  { unfold be_val. simpl. lia. }
  change (b :: l ++ [c]) with ((b :: l) ++ [c]). rewrite !be_val_app, IH, length_app.
  simpl length. replace (8 * Z.of_nat (length l + 1)) with (8 * #l + 8) by lia.
  rewrite Z.pow_add_r by lia. lia.
Qed.

Lemma bytes_ltb_be_val l1 l2 :
  length l1 = length l2 -> bytes_ltb l1 l2 = true -> be_val l1 < be_val l2.
Proof.
  revert l2. induction l1 as [|x l1 IH]; intros [|y l2]; simpl; try done.
  intros Hl. rewrite !be_val_cons. injection Hl as Hl. rewrite Hl.
  pose proof (be_val_range l1) as R1. pose proof (be_val_range l2) as R2. rewrite Hl in R1.
  destruct (Z.ltb_spec (Z_of_byte x) (Z_of_byte y)); [nia|].
  destruct (Z.ltb_spec (Z_of_byte y) (Z_of_byte x)); [done|].
  intros E. apply IH in E; [|done]. nia.
Qed.

Lemma IndexToKey_ordered i j :
  0 <= i <= INT64_MAX -> 0 <= j <= INT64_MAX ->
  bytes_ltb (IndexToKey i) (IndexToKey j) = true -> i < j.
Proof.
  unfold INT64_MAX. intros Hi Hj E.
  apply bytes_ltb_be_val in E; [|by rewrite !length_IndexToKey].
  Local Transparent IndexToKey. unfold IndexToKey in E. Local Opaque IndexToKey.
  rewrite !be_val_put in E. change (8 * Z.of_nat 8) with 64 in E.
  unfold uN in E. rewrite !Zmod_mod, !Z.mod_small in E by lia. done.
Qed.

Section LogRecovery.
Context `{RocksDBSpec} `{LogEntryCodecSpec}.

(** * Computations that only change the caches *)

(** [m] takes [s] to [s'] with the same database, unless the storage fails. *)
Definition reaches {A} (s : RaftLog) (m : M RaftLog A) (v : A) (s' : RaftLog) : Prop :=
  _db s' = _db s /\
  (m s = (Ok v, s') \/
   exists e s'', m s = (Err e, s'') /\ _db s'' = _db s /\ ~ faultless (_db s)).

Lemma reaches_yields {A} s (m : M RaftLog A) v : yields s m v -> reaches s m v s.
Proof. intros [E|(e & E & Hf)]; split; eauto 6. Qed.

Lemma reaches_bind {A B} s (m : M RaftLog A) (f : A -> M RaftLog B) v s' w s'' :
  reaches s m v s' -> reaches s' (f v) w s'' -> reaches s (m ≫= f) w s''.
Proof.
  intros [D [E|(e & s0 & E & D0 & Hf)]] [D' E'].
  - split; [congruence|]. rewrite (M_bind_ok _ _ _ _ _ E).
    destruct E' as [->|(e & s0 & -> & ? & ?)]; [by left|right].
    exists e, s0. split; [done|]. split; congruence.
  - split; [congruence|]. right. exists e, s0. by rewrite (M_bind_err _ _ _ _ _ E).
Qed.

Lemma reaches_modify s (f : RaftLog -> RaftLog) :
  _db (f s) = _db s -> reaches s (modify f) tt (f s).
Proof. intros D. split; [done|by left]. Qed.

Lemma reaches_read {A} s k v op (f : Status * bytes -> M RaftLog A) w s' :
  contents (_db s) !! k = Some v ->
  reaches s (f (OK, v)) w s' ->
  reaches s (r ← log_Get k; _ ← lift_result (RequireStorageOK r.1 op); f r) w s'.
Proof.
  intros L [D R]. split; [done|]. unfold log_Get, gets, lift_result. rewrite !M_bind_unfold.
  pose proof (Get_Some _ _ _ L) as Hn. destruct (DB_Get (_db s) k) as [st v'] eqn:G.
  simpl in Hn. destruct st as [| |msg]; [|done|].
  - apply Get_ok in G as G'. rewrite L in G'. simplify_eq. exact R.
  - right. simpl. eexists _, _. split; [done|]. split; [done|]. intros Hf.
    by rewrite (faultless_Get_Some _ _ _ Hf L) in G.
Qed.

Lemma reaches_lookup {A} s k op (f : M RaftLog A) (g : Status * bytes -> M RaftLog A) w s' :
  (contents (_db s) !! k = None -> reaches s f w s') ->
  (forall v, contents (_db s) !! k = Some v -> reaches s (g (OK, v)) w s') ->
  _db s' = _db s ->
  reaches s (r ← log_Get k;
             if bool_decide (r.1 = NotFound) then f
             else (_ ← lift_result (RequireStorageOK r.1 op); g r)) w s'.
Proof.
  intros Hf Hg D. split; [done|]. unfold log_Get, gets, lift_result. rewrite !M_bind_unfold.
  destruct (DB_Get (_db s) k) as [st v] eqn:G. destruct st as [| |msg]; simpl.
  - apply Get_ok in G. by apply Hg.
  - apply Get_missing in G. by apply Hf.
  - right. eexists _, _. split; [done|]. split; [done|]. intros Hl.
    destruct (faultless_Get (_db s) k Hl) as [E|E]; rewrite G in E; done.
Qed.

Lemma reaches_require {A} s b what (f : unit -> M RaftLog A) w s' :
  b = true -> reaches s (f tt) w s' -> reaches s (require b what ≫= f) w s'.
Proof. intros E R. eapply reaches_bind; [by apply reaches_yields, yields_require|done]. Qed.

Lemma reaches_get {A} s (f : RaftLog -> M RaftLog A) w s' :
  reaches s (f s) w s' -> reaches s (get ≫= f) w s'.
Proof. done. Qed.

(** * Snapshot and tail *)

(** The object after the snapshot was read. *)
Definition snapshotted (db : DB) (a : alog) : RaftLog :=
  mkRaftLog db 0 0 (a_snap_index a) (a_snap_term a) (a_snap_data a).

Lemma LoadSnapshot_spec db a :
  alog_wf a -> durable (contents db) a ->
  reaches (blank db) LoadSnapshot tt (snapshotted db a).
Proof.
  intros W D. pose proof (d_meta _ _ D) as Dm. pose proof (d_data _ _ D) as Dd.
  pose proof (wf_snap_index _ W) as Hs0. apply reaches_lookup; [| |done].
  - cbn. rewrite Dm. destruct (Z.eqb_spec (a_snap_index a) 0) as [E|]; [|done]. intros _.
    unfold snapshotted. destruct (wf_no_snap _ W E) as [-> ->]. rewrite E.
    apply reaches_yields, yields_ret.
  - intros v. cbn [_db blank]. rewrite Dm.
    destruct (Z.eqb_spec (a_snap_index a) 0) as [|Hn]; [done|]. intros Ev. injection Ev as <-.
    pose proof (wf_snap_term _ W ltac:(lia)) as Ht. pose proof (wf_last _ W).
    pose proof (a_last_index_ge a). cbn [snd].
    apply reaches_require; [by rewrite length_EncodeTail|].
    rewrite decode_EncodeTail_nil by (unfold INT64_MAX, INT32_MAX in *; lia).
    destruct (Z.eqb_spec (a_snap_index a) 0); [lia|].
    destruct (Z.ltb_spec INT64_MAX (a_snap_index a)); [lia|].
    destruct (Z.eqb_spec (a_snap_term a) 0); [lia|].
    destruct (Z.ltb_spec INT64_MAX (a_snap_term a)); [unfold INT64_MAX, INT32_MAX in *; lia|].
    cbn [orb]. apply reaches_read with (a_snap_data a); [done|]. cbn [snd].
    apply reaches_require; [apply Z.leb_le, W|].
    rewrite !sN_64_id by (unfold INT64_MAX, INT32_MAX in *; lia). by apply reaches_modify.
Qed.

(** The terms of the log from the entry after [j] on. *)
Lemma extends_after a j :
  alog_wf a -> a_snap_index a <= j <= a_last_index a ->
  extends j (last_term_from (a_snap_term a) (take (Z.to_nat (j - a_snap_index a)) (a_entries a)))
    (drop (Z.to_nat (j - a_snap_index a)) (a_entries a)).
Proof.
  intros W Hj. pose proof (wf_entries _ W) as X. unfold a_last_index in Hj.
  rewrite <- (take_drop (Z.to_nat (j - a_snap_index a)) (a_entries a)) in X.
  apply extends_app in X as [_ X]. rewrite length_take in X.
  by replace (a_snap_index a + _) with j in X by lia.
Qed.

Definition term_upto (a : alog) (j : Z) : Z :=
  last_term_from (a_snap_term a) (take (Z.to_nat (j - a_snap_index a)) (a_entries a)).

Lemma term_upto_next a j e :
  alog_wf a -> a_snap_index a <= j -> a_entry a (j + 1) = Some e ->
  term_upto a j <= term e /\ term_upto a (j + 1) = term e.
Proof.
  intros W Hj E. apply a_entry_inv in E as [Hb L]. split.
  - pose proof (extends_after a j W ltac:(lia)) as X.
    replace (Z.to_nat (j + 1 - a_snap_index a - 1)) with (Z.to_nat (j - a_snap_index a) + 0)%nat in L by lia.
    rewrite <- lookup_drop in L. by destruct (extends_lookup _ _ _ _ _ X L) as (_ & _ & ?).
  - unfold term_upto. rewrite last_term_take by (done || lia). unfold a_term, a_entry.
    pose proof (wf_snap_index _ W).
    destruct (Z.eqb_spec (j + 1) 0); [lia|]. destruct (Z.eqb_spec (j + 1) (a_snap_index a)); [lia|].
    destruct (Z.leb_spec (j + 1) (a_snap_index a)); [lia|]. by rewrite L.
Qed.

Lemma term_upto_start a : term_upto a (a_snap_index a) = a_snap_term a.
Proof. unfold term_upto. by rewrite Z.sub_diag. Qed.
Lemma term_upto_last a : term_upto a (a_last_index a) = a_last_term a.
Proof.
  unfold term_upto, a_last_index, a_last_term. rewrite firstn_all2; [done|]. lia.
Qed.

Lemma verify_suffix_spec s a n j :
  cached s a -> alog_wf a -> durable (contents (_db s)) a ->
  a_snap_index a <= j -> j + Z.of_nat n = a_last_index a ->
  yields s (verify_suffix (seqZ (j + 1) (Z.of_nat n)) (term_upto a j)) tt.
Proof.
  intros C W D. revert j. induction n as [|n IH]; intros j Hj Hn; [apply yields_ret|].
  rewrite seqZ_cons by lia. cbn [verify_suffix].
  destruct (a_entry_is_Some a (j + 1) ltac:(lia)) as [e E].
  eapply yields_bind; [by apply Get_spec|]. rewrite E.
  destruct (term_upto_next a j e W Hj E) as [Hle Hnext].
  destruct (Z.ltb_spec (term e) (term_upto a j)); [lia|]. rewrite <- Hnext.
  replace (Z.pred (Z.of_nat (S n))) with (Z.of_nat n) by lia.
  replace (Z.succ (j + 1)) with (j + 1 + 1) by lia. apply IH; lia.
Qed.

Lemma VerifySuffix_spec s a :
  cached s a -> alog_wf a -> durable (contents (_db s)) a -> yields s VerifySuffix tt.
Proof.
  intros C W D. unfold VerifySuffix. apply yields_get.
  rewrite (c_snap_index _ _ C), (c_last_index _ _ C), (c_snap_term _ _ C).
  replace (if a_snap_index a =? 0 then 0 else a_snap_term a) with (term_upto a (a_snap_index a)).
  - pose proof (a_last_index_ge a).
    replace (a_last_index a - a_snap_index a)
      with (Z.of_nat (Z.to_nat (a_last_index a - a_snap_index a))) by lia.
    apply verify_suffix_spec; [done|done|done|lia|lia].
  - rewrite term_upto_start. destruct (Z.eqb_spec (a_snap_index a) 0) as [E|]; [|done].
    by destruct (wf_no_snap _ W E).
Qed.

(** The object when the constructor is done. *)
Definition opened (db : DB) (a : alog) : RaftLog :=
  mkRaftLog db (a_last_index a) (a_last_term a) (a_snap_index a) (a_snap_term a) (a_snap_data a).

Lemma opened_cached db a : cached (opened db a) a.
Proof. done. Qed.

Lemma a_last_term_at a :
  alog_wf a -> a_last_index a <> 0 -> a_term a (a_last_index a) = a_last_term a /\ 0 < a_last_term a.
Proof.
  intros W Hn. pose proof (wf_snap_index _ W) as Hs0. pose proof (a_last_index_ge a) as Hge.
  destruct (decide (a_last_index a = a_snap_index a)) as [E|E].
  - assert (a_entries a = []) as En.
    { apply nil_length_inv. unfold a_last_index in E. lia. }
    unfold a_term, a_last_term. rewrite E in *. rewrite En. cbn.
    destruct (Z.eqb_spec (a_snap_index a) 0); [lia|]. rewrite Z.eqb_refl.
    split; [done|]. apply (wf_snap_term _ W). lia.
  - rewrite <- term_upto_last. unfold term_upto. rewrite last_term_take by (done || lia).
    split; [done|]. destruct (a_entry_is_Some a (a_last_index a) ltac:(lia)) as [e Ee].
    destruct (a_entry_wf _ _ _ W Ee) as (_ & ? & _). unfold a_term. rewrite Ee.
    destruct (Z.eqb_spec (a_last_index a) 0); [lia|].
    destruct (Z.eqb_spec (a_last_index a) (a_snap_index a)); [lia|]. lia.
Qed.

(** The checks of the tail record against the snapshot and the last entry. *)
Lemma tail_check_passes s a :
  alog_wf a -> durable (contents (_db s)) a ->
  reaches s
    (if a_last_index a =? 0 then
       require (negb (negb (a_last_term a =? 0) || negb (a_snap_index a =? 0)))
         "invalid empty Raft log tail"
     else if a_last_index a =? a_snap_index a then
       require (a_last_term a =? a_snap_term a) "Raft log tail does not match its snapshot"
     else
       v ← log_Get (IndexToKey (a_last_index a));
       _ ← lift_result (RequireStorageOK v.1 "read Raft log tail entry");
       match ParseFromString v.2 with
       | Some entry =>
           require (negb (negb (Messages.index entry =? a_last_index a) ||
                          negb (Messages.term entry =? a_last_term a) || (a_last_term a <=? 0)))
             "corrupt Raft log tail entry"
       | None => throw (runtime_error "corrupt Raft log tail entry")
       end) tt s.
Proof.
  intros W D. pose proof (wf_snap_index _ W) as Hs0. pose proof (a_last_index_ge a) as Hge.
  destruct (Z.eqb_spec (a_last_index a) 0) as [E0|E0].
  { apply reaches_yields, yields_require. assert (a_snap_index a = 0) as E by lia.
    assert (a_entries a = []) as En by (apply nil_length_inv; unfold a_last_index in E0; lia).
    unfold a_last_term. rewrite En. cbn. by destruct (wf_no_snap _ W E) as [-> _]; rewrite E. }
  destruct (a_last_term_at a W E0) as [Ea Hpos].
  destruct (Z.eqb_spec (a_last_index a) (a_snap_index a)) as [E1|E1].
  { apply reaches_yields, yields_require, Z.eqb_eq. rewrite <- Ea, E1. unfold a_term.
    by destruct (Z.eqb_spec (a_snap_index a) 0); [lia|]; rewrite Z.eqb_refl. }
  destruct (a_entry_is_Some a (a_last_index a) ltac:(lia)) as [e Ee].
  destruct (a_entry_wf _ _ _ W Ee) as (Hi & Ht & _).
  destruct (d_entry _ _ D (a_last_index a) e ltac:(lia) Ee) as (v & Lv & Pv).
  apply reaches_read with v; [done|]. cbn [snd]. rewrite Pv.
  apply reaches_yields, yields_require. rewrite Hi, Z.eqb_refl.
  assert (Messages.term e = a_last_term a) as ->.
  { rewrite <- Ea. unfold a_term. destruct (Z.eqb_spec (a_last_index a) 0); [lia|].
    destruct (Z.eqb_spec (a_last_index a) (a_snap_index a)); [lia|]. by rewrite Ee. }
  rewrite Z.eqb_refl. by destruct (Z.leb_spec (a_last_term a) 0); [lia|].
Qed.

Lemma LoadTail_present s a :
  _snapshot_index s = a_snap_index a -> _snapshot_term s = a_snap_term a ->
  _snapshot_data s = a_snap_data a ->
  alog_wf a -> durable (contents (_db s)) a ->
  contents (_db s) !! TailKey = Some (EncodeTail (a_last_index a) (a_last_term a)) ->
  reaches s LoadTail true (opened (_db s) a).
Proof.
  intros Es Et Ed W D T. pose proof (a_last_index_range _ W) as Hl.
  pose proof (a_last_term_range _ W) as Hlt. pose proof (wf_snap_index _ W) as Hs0.
  pose proof (a_last_index_ge a) as Hge.
  apply reaches_lookup; [congruence| |done]. intros v Lv. rewrite T in Lv. injection Lv as <-.
  cbn [snd]. apply reaches_require; [by rewrite length_EncodeTail|].
  rewrite decode_EncodeTail_nil by (unfold INT64_MAX, INT32_MAX in *; lia).
  apply reaches_require.
  { destruct (Z.ltb_spec INT64_MAX (a_last_index a)); [lia|].
    by destruct (Z.ltb_spec INT32_MAX (a_last_term a)); [lia|]. }
  rewrite !sN_64_id by (unfold INT64_MAX, INT32_MAX in *; lia).
  apply reaches_get. rewrite Es, Et.
  apply reaches_require; [by destruct (Z.ltb_spec (a_last_index a) (a_snap_index a)); [lia|]|].
  eapply (reaches_bind _ _ _ tt s); [by apply tail_check_passes|].
  eapply reaches_bind; [by apply reaches_modify|].
  assert (s <| _last_index := a_last_index a |> <| _last_term := a_last_term a |> =
          opened (_db s) a) as ->.
  { destruct s. simpl in *. subst. done. }
  eapply reaches_bind; [apply reaches_yields, (VerifySuffix_spec _ a)|];
    [apply opened_cached|done|done|]. apply reaches_yields, yields_ret.
Qed.

Lemma LoadTail_absent s :
  contents (_db s) !! TailKey = None -> reaches s LoadTail false s.
Proof.
  intros T. apply reaches_lookup; [|congruence|done]. intros _. apply reaches_yields, yields_ret.
Qed.

(** * Scanning a log without a tail record *)

(** The object while the scan has read the entries up to [j]. *)
Definition scanned (db : DB) (a : alog) (j : Z) : RaftLog :=
  mkRaftLog db j (term_upto a j) (a_snap_index a) (a_snap_term a) (a_snap_data a).

Lemma scan_skip kv s :
  named_key kv.1 \/ kv.1 = IndexToKey 0 -> scan_entry kv s = (Ok tt, s).
Proof.
  destruct kv as [k v]. cbn [fst scan_entry]. unfold named_key. intros Hk.
  destruct (_ || _) eqn:E; [done|].
  repeat (apply orb_false_iff in E as [E ?%bool_decide_eq_false_1]).
  apply bool_decide_eq_false_1 in E. tauto.
Qed.

Lemma scan_next db m a j v :
  alog_wf a -> durable m a -> a_snap_index a <= j < a_last_index a ->
  m !! IndexToKey (j + 1) = Some v ->
  scan_entry (IndexToKey (j + 1), v) (scanned db a j) = (Ok tt, scanned db a (j + 1)).
Proof.
  intros W D Hj L. pose proof (wf_snap_index _ W). pose proof (a_last_index_range _ W).
  destruct (a_entry_is_Some a (j + 1) ltac:(lia)) as [e E].
  destruct (a_entry_wf _ _ _ W E) as (Hi & Ht & _).
  destruct (d_entry _ _ D (j + 1) e ltac:(lia) E) as (v' & Lv & Pv).
  rewrite L in Lv. injection Lv as <-.
  destruct (term_upto_next a j e W ltac:(lia) E) as [Hle Hnext].
  assert (IndexToKey (j + 1) <> IndexToKey 0) as Hne0.
  { intros Ek. apply IndexToKey_inj in Ek; unfold INT64_MAX in *; lia. }
  cbn [scan_entry]. rewrite (bool_decide_eq_false_2 _ Hne0).
  do 4 rewrite bool_decide_eq_false_2 by auto with keys.
  cbn [orb]. unfold get. rewrite M_bind_unfold. rewrite Pv. cbn [_last_index _last_term scanned].
  destruct (Z.eqb_spec j INT64_MAX); [lia|]. rewrite bool_decide_eq_true_2 by done.
  rewrite Hi, Z.eqb_refl. destruct (Z.leb_spec (term e) 0); [lia|].
  destruct (Z.ltb_spec (term e) (term_upto a j)); [lia|]. cbn.
  unfold modify, scanned. cbn. by rewrite Hnext.
Qed.

Lemma key_lt_head_notin (k : bytes) (v : bytes) l :
  Forall (key_lt (k, v)) l -> k ∉ l.*1.
Proof.
  intros F Hk. apply list_elem_of_fmap in Hk as ([k' v'] & Ek & Hin). simpl in Ek. subst k'.
  rewrite Forall_forall in F. specialize (F _ Hin). unfold key_lt in F. simpl in F.
  by rewrite bytes_ltb_irrefl in F.
Qed.

Lemma scan_spec db m a l j :
  alog_wf a -> durable m a -> StronglySorted key_lt l ->
  (forall k v, (k, v) ∈ l -> m !! k = Some v) ->
  (forall i, 0 < i <= INT64_MAX -> IndexToKey i ∈ l.*1 <-> j < i <= a_last_index a) ->
  a_snap_index a <= j <= a_last_index a ->
  for_each l scan_entry (scanned db a j) = (Ok tt, scanned db a (a_last_index a)).
Proof.
  intros W D. pose proof (wf_snap_index _ W) as Hs0. pose proof (a_last_index_range _ W) as Hr.
  revert j. induction l as [|[k v] l IH]; intros j Hs Hm Hk Hj.
  { assert (j = a_last_index a) as ->; [|done].
    destruct (decide (j = a_last_index a)); [done|]. exfalso.
    assert (IndexToKey (j + 1) ∈ ([] : list (bytes * bytes)).*1) by (apply Hk; lia). set_solver. }
  apply StronglySorted_inv in Hs as [Hs Hhd]. pose proof (key_lt_head_notin _ _ _ Hhd) as Hnk.
  assert (m !! k = Some v) as Lk by (apply Hm; set_solver). cbn [for_each].
  assert (named_key k \/ k = IndexToKey 0 \/ exists i, 0 < i <= INT64_MAX /\ k = IndexToKey i) as Ck.
  { destruct (d_keys _ _ D k) as [?|(i & Hi & ->)]; [by eexists|by left|].
    destruct (decide (i = 0)) as [->|]; [by right; left|]. right. right. exists i. split; [lia|done]. }
  destruct Ck as [Hn|[H0'|(i & Hi & ->)]].
  1,2: rewrite (M_bind_ok _ _ _ tt (scanned db a j)) by (apply scan_skip; auto);
    apply IH; [done|set_solver| |done]; intros i Hi; rewrite <- (Hk i Hi); cbn [fmap list_fmap fst];
    rewrite elem_of_cons; split; [by right|intros [E|?]; [|done]]; exfalso; revert E.
  { by apply IndexToKey_named. }
  { rewrite H0'. intros E. apply IndexToKey_inj in E; unfold INT64_MAX in *; lia. }
  assert (j < i <= a_last_index a) as Hij by (apply Hk; [done|]; cbn; set_solver).
  assert (i = j + 1) as ->.
  { destruct (decide (i = j + 1)) as [|Hne]; [done|]. exfalso.
    assert (IndexToKey (j + 1) ∈ ((IndexToKey i, v) :: l).*1) as Hin by (apply Hk; lia).
    cbn in Hin. apply elem_of_cons in Hin as [E|Hin]; [apply IndexToKey_inj in E; lia|].
    apply list_elem_of_fmap in Hin as ([k' v'] & Ek & Hin). simpl in Ek. subst k'.
    rewrite Forall_forall in Hhd. specialize (Hhd _ Hin). unfold key_lt in Hhd. simpl in Hhd.
    apply IndexToKey_ordered in Hhd; lia. }
  rewrite (M_bind_ok _ _ _ tt (scanned db a (j + 1))) by (by apply (scan_next db m); [..|lia|]).
  apply IH; [done|set_solver| |lia]. intros i Hi'. specialize (Hk i Hi'). cbn in Hk.
  rewrite elem_of_cons in Hk. split.
  - intros Hin. assert (i <> j + 1) by (intros ->; done). naive_solver lia.
  - intros Hlt. destruct (proj2 Hk ltac:(lia)) as [E|]; [|done].
    apply IndexToKey_inj in E; lia.
Qed.

(** * Opening *)

(** What a database must hold for the log to be recovered: either the tail
    record is right, or there is none (an empty log, or one written before tail
    records existed). *)
Record recoverable (m : gmap bytes bytes) (a : alog) : Prop := {
  r_wf : alog_wf a;
  r_durable : durable m a;
  r_tail : m !! TailKey = Some (EncodeTail (a_last_index a) (a_last_term a)) \/
           m !! TailKey = None;
}.

Lemma stored_recoverable m a : stored m a -> recoverable m a.
Proof. intros [W D [T|[T _]]]; split; auto. Qed.

Lemma stored_put_tail m a :
  alog_wf a -> durable m a ->
  stored (apply_batch [Put TailKey (EncodeTail (a_last_index a) (a_last_term a))] m) a.
Proof.
  intros W D. simpl. split; [done| |left; apply lookup_insert_eq].
  destruct D as [D1 D2 D3 D4 D5 D6 D7]. split; rewrite ?lookup_insert_ne by auto with keys; try done.
  - intros i e Hi E. rewrite lookup_insert_ne by auto with keys. by apply D5.
  - intros i Hi E. rewrite lookup_insert_ne by auto with keys. by apply D6.
  - apply (keys_ok_batch [Put TailKey _]); [done|]. by repeat constructor.
Qed.

(** The scan of the constructor, started after the snapshot was read. *)
Definition scan_log : M RaftLog unit :=
  it ← gets (fun s => DB_Scan (_db s));
  for_each it.2 scan_entry;;
  _ ← lift_result (RequireStorageOK it.1 "scan Raft log");
  s ← get;
  if 0 <? _last_index s then
    log_Write [Put TailKey (EncodeTail (_last_index s) (_last_term s))] "persist Raft log tail"
  else mret tt.

Lemma scan_reads db a :
  alog_wf a -> durable (contents db) a -> (DB_Scan db).1 = OK ->
  for_each (DB_Scan db).2 scan_entry (scanned db a (a_snap_index a)) =
    (Ok tt, opened db a).
Proof.
  intros W D E. destruct (DB_Scan db) as [st l] eqn:Sc. simpl in E. subst st.
  apply Scan_ok in Sc as [P Hs]. cbn [snd].
  assert (opened db a = scanned db a (a_last_index a)) as ->.
  { unfold opened, scanned. by rewrite term_upto_last. }
  pose proof (a_last_index_ge a). pose proof (wf_snap_index _ W).
  assert (forall k v, (k, v) ∈ l <-> contents db !! k = Some v) as Hl.
  { intros k v. rewrite P. apply elem_of_map_to_list. }
  apply (scan_spec db (contents db)); [done|done|done|by intros; apply Hl| |lia].
  intros i Hi. rewrite list_elem_of_fmap. split.
  - intros ([k v] & Ek & Hin). simpl in Ek. subst k. apply Hl in Hin.
    destruct (a_entry a i) as [e|] eqn:Ee; [by apply a_entry_inv in Ee as [? _]|].
    rewrite (d_hole _ _ D i Hi Ee) in Hin. done.
  - intros Hb. destruct (a_entry_is_Some a i Hb) as [e Ee].
    destruct (d_entry _ _ D i e ltac:(lia) Ee) as (v & Lv & _).
    exists (IndexToKey i, v). split; [done|]. by apply Hl.
Qed.

Lemma scan_entry_db kv : evolves (fun s s' => _db s' = _db s) (scan_entry kv).
Proof.
  intros s. destruct kv as [k v]. unfold scan_entry. destruct (_ || _); [done|].
  unfold get. rewrite M_bind_unfold. destruct (ParseFromString v); [|done].
  by destruct (_ || _).
Qed.

#[local] Instance same_db_preorder : PreOrder (fun s s' : RaftLog => _db s' = _db s).
Proof. split; [by intros s|]. intros s1 s2 s3; congruence. Qed.

Lemma scan_log_spec db a :
  alog_wf a -> durable (contents db) a -> contents db !! TailKey = None ->
  match scan_log (scanned db a (a_snap_index a)) with
  | (Ok _, s') => Repr s' a /\ (faultless db -> faultless (_db s'))
  | (Err _, s') => ~ faultless db /\ recoverable (contents (_db s')) a
  end.
Proof.
  intros W D T. unfold scan_log, gets. rewrite M_bind_unfold. cbn [_db scanned].
  pose proof (faultless_Scan db) as Hfl.
  destruct (decide ((DB_Scan db).1 = OK)) as [E|E].
  - rewrite (M_bind_ok _ _ _ _ _ (scan_reads db a W D E)), E.
    unfold lift_result, get. rewrite !M_bind_unfold. cbn [RequireStorageOK _last_index _last_term opened].
    destruct (Z.ltb_spec 0 (a_last_index a)) as [Hpos|Hz].
    + destruct (log_Write_cases [Put TailKey (EncodeTail (a_last_index a) (a_last_term a))]
        "persist Raft log tail" (opened db a)) as [(db' & -> & Hc & Hf)|(e & db' & -> & Hf & Hc)].
      * split; [|done]. split; [by apply (opened_cached db')|]. cbn [_db update].
        cbn in Hc. cbn. rewrite Hc. by apply (stored_put_tail (contents db)).
      * split; [done|]. cbn in Hc. cbn.
        destruct Hc as [->| ->]; [by split; auto|].
        by apply stored_recoverable, (stored_put_tail (contents db)).
    + split; [|done]. split; [apply opened_cached|]. split; [done|done|right].
      split; [done|]. pose proof (a_last_index_range _ W). lia.
  - assert (~ faultless db) as Hnf by naive_solver.
    pose proof (evolves_for_each _ (DB_Scan db).2 scan_entry
      (fun kv _ => scan_entry_db kv) (scanned db a (a_snap_index a))) as Hdb.
    rewrite M_bind_unfold. destruct (for_each _ _ _) as [[[]|e] s']; cbn in Hdb.
    + unfold lift_result. rewrite M_bind_unfold.
      destruct (DB_Scan db).1; [done|..]; cbn; (split; [done|]; rewrite Hdb; by split; auto).
    + split; [done|]. rewrite Hdb. by split; auto.
Qed.

(** The constructor, on any database that represents a log. *)
Lemma Open_spec db a :
  recoverable (contents db) a ->
  match Open OK (blank db) with
  | (Ok _, s') => Repr s' a /\ (faultless db -> faultless (_db s'))
  | (Err _, s') => ~ faultless db /\ recoverable (contents (_db s')) a
  end.
Proof.
  intros [W D T]. unfold Open, lift_result. rewrite M_bind_unfold. cbn [RequireStorageOK].
  destruct (LoadSnapshot_spec db a W D) as [_ [E|(e & s' & E & Hdb & Hf)]].
  2: { rewrite (M_bind_err _ _ _ _ _ E). split; [done|]. rewrite Hdb. by split. }
  rewrite (M_bind_ok _ _ _ _ _ E).
  rewrite (M_bind_ok _ _ _ tt (scanned db a (a_snap_index a)))
    by (unfold modify, scanned, snapshotted; cbn; by rewrite term_upto_start).
  destruct T as [T|T].
  - destruct (LoadTail_present (scanned db a (a_snap_index a)) a) as [_ L]; [done..|].
    destruct L as [L|(e & s' & L & Hdb & Hf)].
    + rewrite (M_bind_ok _ _ _ _ _ L). split; [|done]. split; [apply opened_cached|].
      split; [done|done|by left].
    + rewrite (M_bind_err _ _ _ _ _ L). split; [done|]. rewrite Hdb. split; auto.
  - destruct (LoadTail_absent (scanned db a (a_snap_index a)) T) as [_ L].
    destruct L as [L|(e & s' & L & Hdb & Hf)].
    + rewrite (M_bind_ok _ _ _ _ _ L). by apply scan_log_spec.
    + rewrite (M_bind_err _ _ _ _ _ L). split; [done|]. rewrite Hdb. split; auto.
Qed.
End LogRecovery.
