(* ===== verification/LogTheorems.v ===== *)
(** The guarantees of the Raft log, over whole sequences of operations.

    [log_op] is one mutating call on the log, [run_op] the member function it
    calls and [a_step] what it means on the abstract log.  The theorems say that
    the implementation refines the abstract log, that a failure at any point
    leaves the database at an exact prefix of the operations that includes every
    acknowledged one, and that reopening recovers it. *)
From stdpp Require Import base numbers strings gmap list.
From S2P Require Import Prelude Effects Storage Messages RaftLog LogSpec LogProofs LogRecovery.

(** * Operations *)

Inductive log_op :=
  | OpAppend (es : list LogEntry)
  | OpTruncate (start : Z)
  | OpHard (term voted_for : Z)
  | OpCompact (i t : Z) (d : bytes)
  | OpStage (i t : Z) (d : bytes)
  | OpInstall (i t : Z) (d : bytes).

Definition run_op `{RocksDB} `{LogEntryCodec} (op : log_op) : M RaftLog unit :=
  match op with
  | OpAppend es => AppendBatch es
  | OpTruncate start => TruncateSuffix start
  | OpHard t v => SaveHardState t v
  | OpCompact i t d => CompactApplied i t d
  | OpStage i t d => StageSnapshotInstall i t d
  | OpInstall i t d => InstallSnapshot i t d
  end.

Definition a_step (op : log_op) (a : alog) : alog :=
  match op with
  | OpAppend es => a_append es a
  | OpTruncate start => a_truncate start a
  | OpHard t v => a_save_hard (t, v) a
  | OpCompact i t d => a_snapshot true i t d a
  | OpStage i t d => a_stage (i, t, d) a
  | OpInstall i t d => a_install i t d a
  end.

(** What the caller of each operation must respect. *)
Definition op_ok (op : log_op) (a : alog) : Prop :=
  match op with
  | OpAppend es =>
      extends (a_last_index a) (a_last_term a) es /\ a_last_index a + #es <= INT64_MAX /\
      Forall (fun e => #(command e) < 2 ^ 30) es
  | OpTruncate start => a_snap_index a < start <= a_last_index a
  | OpHard t v => hard_ok (t, v)
  | OpCompact i t d =>
      a_snap_index a < i <= a_last_index a /\ a_term a i = t /\ #d <= kMaxSnapshotBytes
  | OpStage i t d => intent_ok (a_snap_index a) (i, t, d) /\ a_intent a = None
  | OpInstall i t d =>
      a_snap_index a <= i <= INT64_MAX /\ 0 < i /\ 0 < t <= INT32_MAX /\
      (i = a_snap_index a -> t = a_snap_term a) /\ #d <= kMaxSnapshotBytes
  end.

Definition a_steps (ops : list log_op) (a : alog) : alog := foldl (fun a op => a_step op a) a ops.

Fixpoint ops_ok (ops : list log_op) (a : alog) : Prop :=
  match ops with
  | [] => True
  | op :: ops => op_ok op a /\ ops_ok ops (a_step op a)
  end.

#[export] Instance extends_dec i t es : Decision (extends i t es).
Proof. revert i t. induction es as [|e es IH]; intros i t; cbn; apply _. Defined.
#[export] Instance op_ok_dec op a : Decision (op_ok op a).
Proof. destruct op; cbn; unfold hard_ok, intent_ok; apply _. Defined.
#[export] Instance ops_ok_dec ops a : Decision (ops_ok ops a).
Proof. revert a. induction ops as [|op ops IH]; intros a; cbn; apply _. Defined.

Section LogTheorems.
Context `{RocksDBSpec} `{LogEntryCodecSpec}.

Lemma run_op_implements s a op :
  Repr s a -> op_ok op a -> implements (run_op op) s a (a_step op a).
Proof.
  intros R Hok. destruct op; cbn [run_op a_step]; simpl in Hok.
  - destruct Hok as (? & ? & ?). by apply AppendBatch_implements.
  - by apply TruncateSuffix_implements.
  - by apply SaveHardState_implements.
  - destruct Hok as (? & ? & ?). by apply CompactApplied_implements.
  - destruct Hok as (? & ?). by apply StageSnapshotInstall_implements.
  - destruct Hok as (? & ? & ? & ? & ?). by apply InstallSnapshot_implements.
Qed.

(** The outcome of a sequence of operations: all done, or stopped by a fault at
    an exact prefix. *)
Definition prefix_outcome (s : RaftLog) (a : alog) (ops : list log_op)
    (out : result unit * RaftLog) : Prop :=
  match out with
  | (Ok _, s') => Repr s' (a_steps ops a)
  | (Err _, s') =>
      ~ faultless (_db s) /\
      exists done, (done <= length ops)%nat /\
        stored (contents (_db s')) (a_steps (take done ops) a)
  end.

Lemma run_ops_prefix s a ops :
  Repr s a -> ops_ok ops a -> prefix_outcome s a ops (for_each ops run_op s).
Proof.
  revert s a. induction ops as [|op ops IH]; intros s a R Hok; [done|].
  destruct Hok as [Hop Hok]. pose proof (run_op_implements s a op R Hop) as I.
  cbn [for_each]. unfold implements in I. rewrite M_bind_unfold.
  destruct (run_op op s) as [[[]|e] s1].
  - destruct I as [R1 Hf]. specialize (IH _ _ R1 Hok). unfold prefix_outcome in *.
    destruct (for_each ops run_op s1) as [[[]|e] s2]; [done|].
    destruct IH as (Hnf & n & Hn & St). split; [tauto|].
    exists (S n). split; [simpl; lia|done].
  - destruct I as (Hnf & _ & [St|St]); (split; [done|]).
    + exists 0%nat. split; [lia|done].
    + exists 1%nat. split; [simpl; lia|]. by cbn.
Qed.

(** The empty database represents the empty log. *)
Definition empty_alog : alog := mkAlog 0 0 [] [] None None.

Lemma stored_empty : stored ∅ empty_alog.
Proof.
  split.
  - split; cbn; try done; try (unfold INT64_MAX, kMaxSnapshotBytes; lia).
  - split; cbn; try apply lookup_empty.
    + intros i e _. unfold a_entry. cbn. by destruct (i <=? 0).
    + intros i _ _. apply lookup_empty.
    + intros k. rewrite lookup_empty. by intros [].
  - right. split; [apply lookup_empty|done].
Qed.

(** C19. Refinement: starting from a log object that represents the abstract log
    [a], a sequence of appends, truncations, hard-state saves, compactions and
    snapshot installations that the callers are allowed to make either ends with
    the object representing the abstract result, or stops at a storage fault with
    the database holding exactly the effect of a prefix of the operations: no
    operation is ever half written. *)
Theorem log_refines_abstract_log s a ops :
  Repr s a -> ops_ok ops a ->
  match for_each ops run_op s with
  | (Ok _, s') => Repr s' (a_steps ops a)
  | (Err _, s') =>
      ~ faultless (_db s) /\
      exists done, (done <= length ops)%nat /\
        stored (contents (_db s')) (a_steps (take done ops) a)
  end.
Proof. apply run_ops_prefix. Qed.

(** C20. Durability and crash recovery: stop after any number of operations that
    were acknowledged, in the middle of the next one. When the database is opened
    again, the recovered object represents the log with all the acknowledged
    operations, and either all or nothing of the interrupted one; and the recovery
    can only fail if the storage does. *)
Theorem crash_recovery_keeps_acknowledged s0 a0 acked op db' :
  Repr s0 a0 -> ops_ok (acked ++ [op]) a0 ->
  is_ok (for_each acked run_op s0).1 = true ->
  contents db' = contents (_db (run_op op (for_each acked run_op s0).2).2) ->
  match Open OK (blank db') with
  | (Ok _, s') => Repr s' (a_steps acked a0) \/ Repr s' (a_steps (acked ++ [op]) a0)
  | (Err _, s') => ~ faultless db'
  end.
Proof.
  intros R0 Hok Hack Hdb.
  assert (ops_ok acked a0 /\ op_ok op (a_steps acked a0)) as [Hok1 Hok2].
  { clear -Hok. revert a0 Hok. induction acked as [|o l IH]; intros a0; cbn; [tauto|].
    intros [? Hl]. destruct (IH _ Hl). done. }
  pose proof (run_ops_prefix _ _ _ R0 Hok1) as P. unfold prefix_outcome in P.
  destruct (for_each acked run_op s0) as [[[]|e] s1]; [|done]. cbn [snd] in Hdb.
  pose proof (run_op_implements _ _ _ P Hok2) as I. unfold implements in I.
  assert (stored (contents db') (a_steps acked a0) \/
          stored (contents db') (a_steps (acked ++ [op]) a0)) as [St|St].
  { rewrite Hdb. unfold a_steps at 2. rewrite foldl_app. cbn. fold (a_steps acked a0).
    destruct (run_op op s1) as [[[]|e] s2]; cbn; [right; apply I|].
    destruct I as (_ & _ & I). tauto. }
  all: pose proof (Open_spec db' _ (stored_recoverable _ _ St)) as O;
    destruct (Open OK (blank db')) as [[[]|e] s3]; tauto.
Qed.

(** C21. Recovery of logs without a tail record: the constructor also recovers a
    database written before the tail record existed, entry for entry, by scanning
    its keys; and if the scan or the write of the tail fails, the database can
    still be recovered later. *)
Theorem open_recovers_legacy_log db a :
  alog_wf a -> durable (contents db) a -> contents db !! TailKey = None ->
  match Open OK (blank db) with
  | (Ok _, s') => Repr s' a /\ tail_recorded (contents (_db s')) a
  | (Err _, s') => ~ faultless db /\ recoverable (contents (_db s')) a
  end.
Proof.
  intros W D T. pose proof (Open_spec db a) as O.
  destruct (Open OK (blank db)) as [[[]|e] s']; [|by apply O; split; auto].
  destruct O as [R _]; [by split; auto|]. split; [done|apply R].
Qed.

(** C22. Reads: on a log that represents [a], [Get] returns exactly the entry at an
    index (nothing below the snapshot or past the end) and [GetTerm] its term (0
    at the origin, the snapshot's term at its index, -1 where nothing is known),
    and neither changes anything. *)
Theorem log_reads_are_exact s a i :
  Repr s a -> 0 <= i -> faultless (_db s) ->
  Get i s = (Ok (a_entry a i), s) /\ GetTerm i s = (Ok (a_term a i), s).
Proof.
  intros R Hi Hf. split.
  - destruct (Get_spec s a i) as [E|(e & _ & Hn)]; [apply R..|done|done].
  - destruct (GetTerm_spec s a i R Hi) as [E|(e & _ & Hn)]; done.
Qed.

(** Hard state: after [SaveHardState] succeeded and the process restarted, the
    reopened log loads exactly the saved term and vote. *)
Theorem hard_state_survives_restart s a t v s1 db' s2 :
  Repr s a -> hard_ok (t, v) ->
  SaveHardState t v s = (Ok tt, s1) ->
  contents db' = contents (_db s1) -> faultless db' ->
  Open OK (blank db') = (Ok tt, s2) ->
  LoadHardState s2 = (Ok (true, t, v), s2).
Proof.
  intros R Hh Es Hdb Hf Eo.
  pose proof (SaveHardState_implements s a t v R Hh) as I. unfold implements in I.
  rewrite Es in I. destruct I as [R1 _].
  pose proof (Open_spec db' (a_save_hard (t, v) a)) as O. rewrite Eo in O.
  destruct O as [R2 Hf2]; [rewrite Hdb; apply stored_recoverable, R1|].
  pose proof (LoadHardState_spec s2 _ R2) as L. cbn in L.
  destruct L as [L|(e & _ & Hn)]; [done|]. naive_solver.
Qed.

(** C23. Interrupted snapshot installation: once the intent was staged, a restart
    finds it again with its exact index, term and bytes until a snapshot is
    finalized, and finalizing removes it in the same write. *)
Theorem staged_install_survives_restart s a i t d s1 db' s2 :
  Repr s a -> intent_ok (a_snap_index a) (i, t, d) -> a_intent a = None ->
  StageSnapshotInstall i t d s = (Ok tt, s1) ->
  contents db' = contents (_db s1) -> faultless db' ->
  Open OK (blank db') = (Ok tt, s2) ->
  LoadPendingSnapshot s2 = (Ok (Some (i, t, d)), s2) /\
  exists s3, InstallSnapshot i t d s2 = (Ok tt, s3) /\ LoadPendingSnapshot s3 = (Ok None, s3) /\
    _snapshot_index s3 = i /\ _snapshot_term s3 = t /\ _snapshot_data s3 = d.
Proof.
  intros R Hp Hn Es Hdb Hf Eo.
  pose proof (StageSnapshotInstall_implements s a i t d R Hp Hn) as I. unfold implements in I.
  rewrite Es in I. destruct I as [R1 _].
  pose proof (Open_spec db' (a_stage (i, t, d) a)) as O. rewrite Eo in O.
  destruct O as [R2 Hf2]; [rewrite Hdb; apply stored_recoverable, R1|]. specialize (Hf2 Hf).
  split; [destruct (LoadPendingSnapshot_spec s2 _ R2) as [L|(e & _ & ?)]; done|].
  destruct Hp as (Hi & Ht & Hd). cbn in Hi, Ht, Hd.
  pose proof (wf_snap_index _ (st_wf _ _ (proj2 R))) as Hs0.
  pose proof (InstallSnapshot_implements s2 _ i t d R2) as In. unfold implements in In. cbn in In.
  destruct (InstallSnapshot i t d s2) as [[[]|e] s3]; [|naive_solver lia].
  destruct In as [R3 Hf3]; [lia..|done|]. exists s3. split; [done|]. unfold a_install in R3. cbn in R3.
  destruct (Z.eqb_spec i (a_snap_index a)); [lia|]. split.
  - destruct (LoadPendingSnapshot_spec s3 _ R3) as [L|(e & _ & ?)]; naive_solver.
  - destruct R3 as [C3 _]. by destruct C3.
Qed.
End LogTheorems.

(** * Concrete runs *)

Module LogWitness.
Import MemDB PlainCodec.

Definition entry (i t : Z) (c : string) : LogEntry := mkLogEntry i t (lit c).
Definition start (faults : list (option bool)) : RaftLog :=
  blank (Build_t ∅ faults true : DB).

Lemma start_repr faults : Repr (start faults) empty_alog.
Proof. split; [by split|apply stored_empty]. Qed.

Definition demo : list log_op :=
  [OpHard 1 0; OpAppend [entry 1 1 "a"; entry 2 1 "b"; entry 3 2 "c"]; OpTruncate 3;
   OpCompact 1 1 (lit "snapshot")].

Ltac ok_tac := apply (bool_decide_unpack _); by vm_compute.

Lemma demo_ok : ops_ok demo empty_alog.
Proof. ok_tac. Qed.

Lemma log_refines_abstract_log_witness :
  is_ok (for_each demo run_op (start [])).1 = true /\
  a_entries (a_steps demo empty_alog) = [entry 2 1 "b"] /\
  match for_each demo run_op (start []) with
  | (Ok _, s') => Repr s' (a_steps demo empty_alog)
  | (Err _, s') =>
      ~ faultless (_db (start [])) /\
      exists done, (done <= length demo)%nat /\
        stored (contents (_db s')) (a_steps (take done demo) empty_alog)
  end.
Proof.
  split; [by vm_compute|]. split; [by vm_compute|].
  apply (log_refines_abstract_log (start []) empty_alog demo); [apply start_repr|apply demo_ok].
Defined.

(** The third write fails after it reached the disk. *)
Definition crashed : RaftLog := start [None; None; Some true].
Definition interrupted : RaftLog := (run_op (OpTruncate 3) (for_each (take 2 demo) run_op crashed).2).2.

Lemma crash_recovery_keeps_acknowledged_witness :
  is_ok (run_op (OpTruncate 3) (for_each (take 2 demo) run_op crashed).2).1 = false /\
  match Open OK (blank (fresh (contents (_db interrupted)) : DB)) with
  | (Ok _, s') => Repr s' (a_steps (take 2 demo) empty_alog) \/
                  Repr s' (a_steps (take 2 demo ++ [OpTruncate 3]) empty_alog)
  | (Err _, s') => ~ faultless (fresh (contents (_db interrupted)) : DB)
  end.
Proof.
  split; [by vm_compute|].
  apply (crash_recovery_keeps_acknowledged crashed empty_alog (take 2 demo) (OpTruncate 3)).
  - apply start_repr.
  - ok_tac.
  - by vm_compute.
  - reflexivity.
Defined.

(** The content of a log with one entry, as written before tail records. *)
Definition legacy : alog := a_append [entry 1 1 "a"] empty_alog.
Definition legacy_db : DB :=
  fresh (delete TailKey (contents (_db (for_each [OpAppend [entry 1 1 "a"]] run_op (start [])).2))).

Lemma legacy_durable : alog_wf legacy /\ durable (contents legacy_db) legacy.
Proof.
  assert (ops_ok [OpAppend [entry 1 1 "a"]] empty_alog) as Hok by ok_tac.
  pose proof (run_ops_prefix _ _ _ (start_repr []) Hok) as P. unfold prefix_outcome in P.
  unfold legacy_db. destruct (for_each _ _ _) as [[[]|e] s'].
  - destruct P as [_ [W D _]]. split; [done|]. cbn. destruct D as [D1 D2 D3 D4 D5 D6 D7].
    split; rewrite ?lookup_delete_ne by auto with keys; try done.
    + intros i e Hi E. rewrite lookup_delete_ne by auto with keys. by apply D5.
    + intros i Hi E. rewrite lookup_delete_ne by auto with keys. by apply D6.
    + apply (keys_ok_batch [Delete TailKey]); [done|]. by repeat constructor.
  - destruct P as [Hn _]. by destruct Hn.
Qed.

Lemma open_recovers_legacy_log_witness :
  is_ok (Open OK (blank legacy_db)).1 = true /\
  match Open OK (blank legacy_db) with
  | (Ok _, s') => Repr s' legacy /\ tail_recorded (contents (_db s')) legacy
  | (Err _, s') => ~ faultless legacy_db /\ recoverable (contents (_db s')) legacy
  end.
Proof.
  split; [by vm_compute|].
  apply (open_recovers_legacy_log legacy_db legacy); [apply legacy_durable..|].
  apply lookup_delete_eq.
Defined.

(** A log with a snapshot up to index 1 and one entry after it. *)
Definition demo_log : RaftLog := (for_each demo run_op (start [])).2.

Lemma demo_repr : Repr demo_log (a_steps demo empty_alog).
Proof.
  pose proof (run_ops_prefix _ _ _ (start_repr []) demo_ok) as P. unfold prefix_outcome in P. unfold demo_log.
  destruct (for_each demo run_op (start [])) as [[[]|e] s']; [exact P|]. destruct P as [Hn _]. by destruct Hn.
Qed.

Lemma log_reads_are_exact_witness :
  Get 2 demo_log = (Ok (Some (entry 2 1 "b")), demo_log) /\ Get 1 demo_log = (Ok None, demo_log) /\
  GetTerm 1 demo_log = (Ok 1, demo_log) /\ GetTerm 3 demo_log = (Ok (-1), demo_log).
Proof.
  assert (faultless (_db demo_log)) as F by (split; by vm_compute).
  split; [apply (log_reads_are_exact demo_log _ 2 demo_repr); [lia|exact F]|].
  split; [apply (log_reads_are_exact demo_log _ 1 demo_repr); [lia|exact F]|].
  split; [apply (log_reads_are_exact demo_log _ 1 demo_repr); [lia|exact F]|].
  apply (log_reads_are_exact demo_log _ 3 demo_repr); [lia|exact F].
Defined.

Definition saved : RaftLog := (SaveHardState 3 1 (start [])).2.
Definition reopened (s : RaftLog) : RaftLog := (Open OK (blank (_db s))).2.

Lemma hard_state_survives_restart_witness :
  LoadHardState (reopened saved) = (Ok (true, 3, 1), reopened saved).
Proof.
  apply (hard_state_survives_restart (start []) empty_alog 3 1 saved (_db saved) (reopened saved)).
  - apply start_repr.
  - ok_tac.
  - apply run_ok. by vm_compute.
  - reflexivity.
  - done.
  - apply run_ok. by vm_compute.
Defined.

Definition staged : RaftLog := (StageSnapshotInstall 5 2 (lit "kv") (start [])).2.

Lemma staged_install_survives_restart_witness :
  LoadPendingSnapshot (reopened staged) = (Ok (Some (5, 2, lit "kv")), reopened staged) /\
  exists s3, InstallSnapshot 5 2 (lit "kv") (reopened staged) = (Ok tt, s3) /\
    LoadPendingSnapshot s3 = (Ok None, s3) /\
    _snapshot_index s3 = 5 /\ _snapshot_term s3 = 2 /\ _snapshot_data s3 = lit "kv".
Proof.
  apply (staged_install_survives_restart (start []) empty_alog 5 2 (lit "kv") staged
           (_db staged) (reopened staged)).
  - apply start_repr.
  - ok_tac.
  - done.
  - apply run_ok. by vm_compute.
  - reflexivity.
  - done.
  - apply run_ok. by vm_compute.
Defined.
End LogWitness.
