(* ===== verification/Text.v ===== *)
(** Decimal text and the small pieces of [std::string] the sources share.

    [to_string] is [std::to_string]; [digits_value] the value a digit loop or
    [std::from_chars] computes; [find_crlf] is [find("\r\n")]. *)
From stdpp Require Import base numbers strings gmap list.
From S2P Require Import Prelude Effects.

Definition CR : Byte.byte := Byte.x0d.
Definition LF : Byte.byte := Byte.x0a.
Definition crlf : bytes := [CR; LF].

(** * Decimal digits *)

Definition is_digit (c : Byte.byte) : bool :=
  (48 <=? Z_of_byte c) && (Z_of_byte c <=? 57).
Definition digit_value (c : Byte.byte) : Z := Z_of_byte c - 48.
Definition digit_char (d : Z) : Byte.byte := byte_of_Z (48 + d).
Definition digits_value (l : bytes) : Z := foldl (fun v c => v * 10 + digit_value c) 0 l.

Fixpoint digits_of (fuel : nat) (n : Z) : bytes :=
  match fuel with
  | O => []
  | S fuel => if n <? 10 then [digit_char n] else digits_of fuel (n / 10) ++ [digit_char (n mod 10)]
  end.

(** The fuel is the number of binary digits, at least the number of decimal ones. *)
Definition to_string (n : Z) : bytes :=
  if n <? 0 then Byte.x2d :: digits_of (S (Z.to_nat (Z.log2 (- n)))) (- n)
  else digits_of (S (Z.to_nat (Z.log2 n))) n.

Lemma digit_char_value d : 0 <= d < 10 -> digit_value (digit_char d) = d.
Proof. intros Hd. unfold digit_value, digit_char. rewrite Z_of_byte_of_Z, Z.mod_small by lia. lia. Qed.
Lemma digit_char_is_digit d : 0 <= d < 10 -> is_digit (digit_char d) = true.
Proof.
  intros Hd. unfold is_digit, digit_char. rewrite Z_of_byte_of_Z, Z.mod_small by lia.
  apply andb_true_iff. split; apply Z.leb_le; lia.
Qed.

Lemma is_digit_range c : is_digit c = true -> 0 <= digit_value c <= 9.
Proof. unfold is_digit, digit_value. intros [?%Z.leb_le ?%Z.leb_le]%andb_true_iff. lia. Qed.

Lemma digits_value_snoc l c : digits_value (l ++ [c]) = digits_value l * 10 + digit_value c.
Proof. unfold digits_value. by rewrite foldl_app. Qed.

Lemma digits_value_range l :
  Forall (fun c => is_digit c = true) l -> 0 <= digits_value l < 10 ^ #l.
Proof.
  induction l as [|c l IH] using rev_ind; [done|]. intros [Hl Hc]%Forall_app.
  apply Forall_singleton, is_digit_range in Hc. specialize (IH Hl).
  rewrite digits_value_snoc, length_app. simpl length.
  replace (Z.of_nat (length l + 1)) with (Z.succ #l) by lia. rewrite Z.pow_succ_r by lia. lia.
Qed.

Lemma fuel_div n : 10 <= n -> (Z.to_nat (Z.log2 (n / 10)) < Z.to_nat (Z.log2 n))%nat.
Proof.
  intros Hn. assert (1 <= n / 10) by (apply Z.div_le_lower_bound; lia).
  assert (2 * (n / 10) <= n) by (pose proof (Z.mul_div_le n 10); lia).
  apply Z2Nat.inj_lt; [apply Z.log2_nonneg..|].
  apply Z.lt_le_trans with (Z.log2 (2 * (n / 10))); [|by apply Z.log2_le_mono].
  rewrite Z.log2_double by lia. lia.
Qed.

Lemma digits_of_spec fuel n :
  0 <= n -> (Z.to_nat (Z.log2 n) < fuel)%nat ->
  digits_value (digits_of fuel n) = n /\ Forall (fun c => is_digit c = true) (digits_of fuel n) /\
  digits_of fuel n <> [].
Proof.
  revert n. induction fuel as [|fuel IH]; intros n Hn Hf; [lia|]. cbn [digits_of].
  destruct (Z.ltb_spec n 10) as [Hs|Hb].
  - split; [apply digit_char_value; lia|]. split; [|done].
    constructor; [apply digit_char_is_digit; lia|constructor].
  - pose proof (fuel_div n Hb). assert (0 <= n / 10) by (apply Z.div_pos; lia).
    destruct (IH (n / 10)) as (V & D & _); [done|lia|].
    pose proof (Z.mod_pos_bound n 10 ltac:(lia)). split; [|split].
    + rewrite digits_value_snoc, V, digit_char_value by lia. pose proof (Z.div_mod n 10). lia.
    + apply Forall_app. split; [done|]. apply Forall_singleton, digit_char_is_digit. lia.
    + intros E. by apply app_nil in E as [_ ?].
Qed.

(** The number of digits is what it should be: below [10 ^ k] at most [k]. *)
Lemma digits_of_length fuel n k :
  0 <= n < 10 ^ Z.of_nat k -> (0 < k)%nat -> (length (digits_of fuel n) <= k)%nat.
Proof.
  revert n k. induction fuel as [|fuel IH]; intros n k Hn Hk; [simpl; lia|]. cbn [digits_of].
  destruct (Z.ltb_spec n 10) as [Hs|Hb]; [simpl; lia|].
  rewrite length_app. simpl length. destruct k as [|k]; [lia|].
  rewrite Nat2Z.inj_succ, Z.pow_succ_r in Hn by lia.
  destruct k as [|k]; [simpl in Hn; lia|].
  assert (length (digits_of fuel (n / 10)) <= S k)%nat; [|lia].
  apply IH; [|lia]. split; [apply Z.div_pos; lia|]. apply Z.div_lt_upper_bound; lia.
Qed.

Lemma to_string_digits n : 0 <= n ->
  digits_value (to_string n) = n /\ Forall (fun c => is_digit c = true) (to_string n) /\
  to_string n <> [].
Proof.
  intros Hn. unfold to_string. destruct (Z.ltb_spec n 0); [lia|].
  apply digits_of_spec; [done|lia].
Qed.

Lemma to_string_length n k :
  0 <= n < 10 ^ Z.of_nat k -> (0 < k)%nat -> (length (to_string n) <= k)%nat.
Proof.
  intros Hn Hk. unfold to_string. destruct (Z.ltb_spec n 0); [lia|]. by apply digits_of_length.
Qed.

(** Printing is the only decimal text of a number that has no leading zero. *)
Lemma digits_of_value fuel l :
  Forall (fun c => is_digit c = true) l -> l <> [] -> head l <> Some Byte.x30 ->
  (Z.to_nat (Z.log2 (digits_value l)) < fuel)%nat ->
  1 <= digits_value l /\ digits_of fuel (digits_value l) = l.
Proof.
  revert fuel. induction l as [|c l IH] using rev_ind; intros fuel; [done|].
  intros [Hl Hc]%Forall_app _ Hh Hf. rewrite Forall_singleton in Hc.
  pose proof (is_digit_range c Hc) as Hr.
  assert (digit_char (digit_value c) = c) as Ec.
  { unfold digit_char, digit_value. replace (48 + (Z_of_byte c - 48)) with (Z_of_byte c) by lia.
    apply byte_of_Z_of_byte. }
  rewrite digits_value_snoc in *. destruct fuel as [|fuel]; [lia|]. cbn [digits_of].
  destruct l as [|d l]; cbn [app head] in *.
  - change (digits_value []) with 0 in *. rewrite Z.mul_0_l, Z.add_0_l in *. split.
    + destruct (decide (digit_value c = 0)) as [E|]; [|lia]. destruct Hh. by rewrite <- Ec, E.
    + destruct (Z.ltb_spec (digit_value c) 10); [|lia]. by rewrite Ec.
  - set (v := digits_value (d :: l)) in *.
    assert (1 <= v) as Hv by (apply (IH (S (Z.to_nat (Z.log2 v)))); [done..|lia]).
    split; [lia|]. destruct (Z.ltb_spec (v * 10 + digit_value c) 10); [lia|].
    assert ((v * 10 + digit_value c) / 10 = v) as Ed
      by (rewrite Z.div_add_l, Z.div_small by lia; lia).
    pose proof (fuel_div (v * 10 + digit_value c) ltac:(lia)) as Hd.
    rewrite Ed in *. destruct (IH fuel) as [_ ->]; [done..|lia|].
    rewrite Z.add_comm, Z.mod_add, Z.mod_small, Ec by lia. done.
Qed.

Lemma to_string_value l :
  Forall (fun c => is_digit c = true) l -> l <> [] -> head l <> Some Byte.x30 ->
  1 <= digits_value l /\ to_string (digits_value l) = l.
Proof.
  intros Hl Hne Hh. pose proof (digits_value_range l Hl). unfold to_string.
  destruct (Z.ltb_spec (digits_value l) 0); [lia|]. apply digits_of_value; (done || lia).
Qed.

Lemma to_string_head n : 1 <= n -> head (to_string n) <> Some Byte.x30.
Proof.
  intros Hn. unfold to_string. destruct (Z.ltb_spec n 0); [lia|].
  assert (forall fuel m, 1 <= m -> (Z.to_nat (Z.log2 m) < fuel)%nat ->
    head (digits_of fuel m) <> Some Byte.x30) as H'; [|apply H'; lia].
  clear. induction fuel as [|fuel IH]; intros m Hm Hf; [lia|]. cbn [digits_of].
  destruct (Z.ltb_spec m 10).
  - simpl. intros [= E]. apply (f_equal digit_value) in E. rewrite digit_char_value in E by lia.
    subst m. done.
  - pose proof (fuel_div m ltac:(lia)). assert (1 <= m / 10) by (apply Z.div_le_lower_bound; lia).
    destruct (digits_of_spec fuel (m / 10)) as (_ & _ & Hne); [lia..|].
    specialize (IH (m / 10) ltac:(lia) ltac:(lia)). by destruct (digits_of fuel (m / 10)).
Qed.

(** * Finding a line end *)

Fixpoint find_crlf (l : bytes) : option nat :=
  match l with
  | [] => None
  | c :: l' =>
      if bool_decide (c = CR) && bool_decide (head l' = Some LF) then Some O
      else S <$> find_crlf l'
  end.

Lemma find_crlf_Some l n :
  find_crlf l = Some n -> exists r, l = take n l ++ crlf ++ r.
Proof.
  revert n. induction l as [|c l IH]; intros n; [done|]. cbn [find_crlf].
  destruct (_ && _) eqn:E.
  - intros [= <-]. apply andb_true_iff in E as [->%bool_decide_eq_true_1 E2%bool_decide_eq_true_1].
    destruct l as [|d l]; [done|]. injection E2 as ->. by exists l.
  - destruct (find_crlf l) as [m|]; [|done]. intros [= <-].
    destruct (IH m eq_refl) as [r Hr]. exists r. simpl. by rewrite Hr at 1.
Qed.

(** A line end found stays the first one when more bytes arrive. *)
Lemma find_crlf_app l n more : find_crlf l = Some n -> find_crlf (l ++ more) = Some n.
Proof.
  revert n. induction l as [|c l IH]; intros n; [done|]. cbn [find_crlf app].
  destruct (bool_decide (c = CR)) eqn:Ec; cbn [andb].
  - destruct (bool_decide (head l = Some LF)) eqn:El.
    + intros [= <-]. apply bool_decide_eq_true_1 in El. destruct l as [|d l]; [done|].
      by rewrite bool_decide_eq_true_2.
    + destruct (find_crlf l) as [m|] eqn:Em; [|done]. intros [= <-].
      rewrite (IH m eq_refl). destruct l as [|d l]; [done|].
      cbn [app head] in *. by rewrite El.
  - destruct (find_crlf l) as [m|] eqn:Em; [|done]. intros [= <-]. by rewrite (IH m eq_refl).
Qed.

(** In text without a carriage return the line end is right after it. *)
Lemma find_crlf_after l rest :
  Forall (fun c => c <> CR) l -> find_crlf (l ++ crlf ++ rest) = Some (length l).
Proof.
  induction l as [|c l IH]; intros Hl; [done|]. apply Forall_cons in Hl as [Hc Hl].
  cbn [app find_crlf]. rewrite bool_decide_eq_false_2 by done. cbn [andb]. by rewrite IH.
Qed.

(** Where there was none, the first line end of the longer text is not inside. *)
Lemma find_crlf_None_app l more n :
  find_crlf l = None -> find_crlf (l ++ more) = Some n -> (length l <= S n)%nat.
Proof.
  revert n. induction l as [|c l IH]; intros n; [simpl; lia|]. cbn [app find_crlf length].
  destruct l as [|d l]; [simpl; lia|]. cbn [app head] in *.
  destruct (_ && _); [done|]. destruct (find_crlf (d :: l)) eqn:E; [done|]. intros _.
  destruct (find_crlf (d :: l ++ more)) as [m|] eqn:Em; [|done]. intros [= <-].
  specialize (IH m eq_refl eq_refl). lia.
Qed.

(** * Splitting at a character *)

(** [find(c)] *)
Fixpoint find_byte (x : Byte.byte) (l : bytes) : option nat :=
  match l with
  | [] => None
  | c :: l => if bool_decide (c = x) then Some O else S <$> find_byte x l
  end.

(** What a loop of [std::getline] with delimiter [d] reads: what a delimiter ends, and
    a rest without one unless it is empty. *)
Fixpoint split_from (d : Byte.byte) (acc : bytes) (l : bytes) : list bytes :=
  match l with
  | [] => if bool_decide (acc = []) then [] else [acc]
  | c :: l => if bool_decide (c = d) then acc :: split_from d [] l else split_from d (acc ++ [c]) l
  end.

Lemma find_byte_Some x l n : find_byte x l = Some n -> exists r, l = take n l ++ x :: r /\ (x ∉ take n l) /\ (n < length l)%nat.
Proof.
  revert n. induction l as [|c l IH]; intros n; [done|]. cbn. case_bool_decide as E.
  - intros [= <-]. subst. exists l. cbn. split; [done|]. split; [apply not_elem_of_nil|lia].
  - destruct (find_byte x l) as [m|]; [|done]. intros [= <-]. destruct (IH m eq_refl) as (r & Hr & Hn & Hl). exists r. cbn.
    split; [by rewrite Hr at 1|]. split; [apply not_elem_of_cons; done|lia].
Qed.

Lemma find_byte_None x l : find_byte x l = None <-> x ∉ l.
Proof.
  induction l as [|c l IH]; cbn; [split; [intros _; apply not_elem_of_nil|done]|]. rewrite not_elem_of_cons. case_bool_decide as E.
  - split; [done|]. intros [? _]. congruence.
  - rewrite <- IH. destruct (find_byte x l); naive_solver.
Qed.

Lemma find_byte_app x l r : x ∉ l -> find_byte x (l ++ x :: r) = Some (length l).
Proof.
  induction l as [|c l IH]; cbn; intros Hl; [by rewrite bool_decide_eq_true_2|]. apply not_elem_of_cons in Hl as [Hc Hl].
  rewrite bool_decide_eq_false_2 by congruence. by rewrite IH.
Qed.

Lemma split_from_app d acc l r : d ∉ l -> split_from d acc (l ++ d :: r) = (acc ++ l) :: split_from d [] r.
Proof.
  revert acc. induction l as [|c l IH]; intros acc Hl; cbn [app split_from].
  - by rewrite bool_decide_eq_true_2, app_nil_r.
  - apply not_elem_of_cons in Hl as [Hc Hl]. rewrite bool_decide_eq_false_2 by congruence. rewrite IH by done. by rewrite <- app_assoc.
Qed.

Lemma split_from_last d acc l : d ∉ l -> acc ++ l <> [] -> split_from d acc l = [acc ++ l].
Proof.
  revert acc. induction l as [|c l IH]; intros acc Hl Hne; cbn [split_from].
  - rewrite app_nil_r in *. by rewrite bool_decide_eq_false_2.
  - apply not_elem_of_cons in Hl as [Hc Hl]. rewrite bool_decide_eq_false_2 by congruence.
    rewrite IH, <- app_assoc; [done|done|]. by destruct acc.
Qed.

(** Pieces are independent of the text before them. *)
Lemma split_from_cut d acc l r : split_from d acc (l ++ d :: r) = split_from d acc (l ++ [d]) ++ split_from d [] r.
Proof.
  revert acc. induction l as [|c l IH]; intros acc; cbn [app split_from].
  - by rewrite bool_decide_eq_true_2.
  - case_bool_decide; [by rewrite IH|apply IH].
Qed.

Lemma not_in_lit (x : Byte.byte) (l : bytes) : forallb (fun c => negb (bool_decide (c = x))) l = true -> x ∉ l.
Proof.
  intros H Hx. rewrite forallb_forall in H. apply list_elem_of_In, H, negb_true_iff in Hx. by apply bool_decide_eq_false_1 in Hx.
Qed.

Lemma forallb_not_in (f : Byte.byte -> bool) x l : forallb f l = true -> f x = false -> x ∉ l.
Proof. intros H Hx Hin. rewrite forallb_forall in H. apply list_elem_of_In, H in Hin. congruence. Qed.
