(* ===== verification/Resp.v ===== *)
(** The RESP command decoder and the per-connection byte buffer
    (src/src/common/resp_parser.h, src/src/common/command_buffer.h) with the
    serializers of src/src/server/main.cpp, and the lemmas that make the
    decoder insensitive to how TCP splits a stream. *)
From stdpp Require Import base numbers strings gmap list.
From S2P Require Import Prelude Effects Text.

(** * RespParser *)

Definition kMaxCommandBytes : Z := 1024 * 1024.
Definition kMaxArguments : Z := 1024.

Inductive ParseState := Complete | NeedMore | Invalid.
#[export] Instance ParseState_eq_dec : EqDecision ParseState.
Proof. solve_decision. Defined.

Record ParseResult := MkParseResult {
  pr_state : ParseState; pr_consumed : nat; pr_args : list bytes; pr_error : bytes }.

(** The [number] lambda: the state it returns, with the value and the new
    position when it is [Complete]. *)
Inductive Number := NInvalid | NNeedMore | NComplete (value : Z) (pos : nat).

Definition number (raw : bytes) (pos : nat) (prefix : Byte.byte) (limit : Z) : Number :=
  match drop pos raw with
  | [] => NNeedMore
  | c :: tail =>
      if negb (bool_decide (c = prefix)) then NInvalid else
      match find_crlf (c :: tail) with
      | None => if 22 <? #(c :: tail) then NInvalid else NNeedMore
      | Some off =>
          let digits := take (off - 1) tail in
          if bool_decide (digits = []) || (20 <? #digits) then NInvalid
          else if negb (forallb is_digit digits) then NInvalid
          else
            let value := digits_value digits in
            (* [std::from_chars] into a [size_t] reports overflow as an error *)
            if (UINT64_MAX <? value) || (limit <? value) then NInvalid
            else NComplete value (pos + off + 2)
      end
  end.

Definition invalid (error : bytes) : ParseResult := MkParseResult Invalid 0 [] error.
Definition need_more (args : list bytes) : ParseResult := MkParseResult NeedMore 0 args [].

Definition star : Byte.byte := Byte.x2a.
Definition dollar : Byte.byte := Byte.x24.

(** The loop over the [count] bulk strings. *)
Fixpoint parse_args (count : nat) (raw : bytes) (pos : nat) (args : list bytes) : ParseResult :=
  match count with
  | O => MkParseResult Complete pos args []
  | S count =>
      match number raw pos dollar kMaxCommandBytes with
      | NInvalid => invalid (lit "invalid bulk length")
      | NNeedMore => need_more args
      | NComplete length pos =>
          if (kMaxCommandBytes - 2 <? Z.of_nat pos) || (kMaxCommandBytes - Z.of_nat pos - 2 <? length)
          then invalid (lit "command too large")
          else if #raw - Z.of_nat pos <? length + 2 then need_more args
          else
            let n := Z.to_nat length in
            if bool_decide (raw !! (pos + n)%nat = Some CR)
               && bool_decide (raw !! (pos + n + 1)%nat = Some LF)
            then parse_args count raw (pos + n + 2) (args ++ [take n (drop pos raw)])
            else invalid (lit "invalid bulk terminator")
      end
  end.

Definition TryParseOne (raw : bytes) : ParseResult :=
  match number raw 0 star kMaxArguments with
  | NInvalid => invalid (lit "invalid array length")
  | NNeedMore => need_more []
  | NComplete count pos =>
      if count =? 0 then invalid (lit "empty command")
      else parse_args (Z.to_nat count) raw pos []
  end.

(** * CommandBuffer *)

Definition kMaxBufferedBytes : Z := 4 * 1024 * 1024.

Record CommandBuffer := MkCommandBuffer { bytes_ : bytes; offset_ : nat }.

Definition UnreadBytes (b : CommandBuffer) : Z := #(bytes_ b) - Z.of_nat (offset_ b).

Definition buffer_Append (chunk : bytes) (b : CommandBuffer) : bool * CommandBuffer :=
  if bool_decide (chunk = []) then (true, b)
  else if kMaxBufferedBytes - UnreadBytes b <? #chunk then (false, b)
  else
    let kept := if (offset_ b =? 0)%nat then bytes_ b else drop (offset_ b) (bytes_ b) in
    (true, MkCommandBuffer (kept ++ chunk) 0).

(** [swap] with an empty string and [clear] differ only in the capacity kept. *)
Definition buffer_Next (b : CommandBuffer) : ParseResult * CommandBuffer :=
  let result := TryParseOne (drop (offset_ b) (bytes_ b)) in
  if bool_decide (pr_state result = Complete) then
    let b' := MkCommandBuffer (bytes_ b) (offset_ b + pr_consumed result) in
    if (offset_ b' =? length (bytes_ b'))%nat then (result, MkCommandBuffer [] 0)
    else if (64 * 1024 <=? Z.of_nat (offset_ b')) && (UnreadBytes b' <=? 64 * 1024)
    then (result, MkCommandBuffer (drop (offset_ b') (bytes_ b')) 0)
    else (result, b')
  else (result, b).

(** * The serializers of main.cpp *)

Definition Bulk (value : bytes) : bytes :=
  dollar :: to_string #value ++ crlf ++ value ++ crlf.

Definition SerializeCommand (args : list bytes) : bytes :=
  star :: to_string #args ++ crlf ++ concat (Bulk <$> args).

(** * Lemmas on the decoder *)

Lemma forallb_Forall {A} (f : A -> bool) l :
  forallb f l = true <-> Forall (fun x => f x = true) l.
Proof. rewrite forallb_forall. symmetry. apply List.Forall_forall. Qed.

Lemma drop_cons_length {A} n (l : list A) x r :
  drop n l = x :: r -> (length l = n + S (length r))%nat.
Proof. intros E. apply (f_equal length) in E. rewrite length_drop in E. simpl in E. lia. Qed.

Lemma find_crlf_length l off : find_crlf l = Some off -> (off + 2 <= length l)%nat.
Proof.
  intros [r Hr]%find_crlf_Some. apply (f_equal length) in Hr.
  rewrite !length_app, length_take in Hr. simpl in Hr. lia.
Qed.

Lemma number_bounds raw pos prefix limit v p :
  number raw pos prefix limit = NComplete v p ->
  0 <= v <= limit /\ (pos < p <= length raw)%nat /\ (p <= pos + 23)%nat.
Proof.
  unfold number. destruct (drop pos raw) as [|c tail] eqn:Ed; [done|].
  apply drop_cons_length in Ed.
  destruct (negb (bool_decide _)); [done|].
  destruct (find_crlf (c :: tail)) as [off|] eqn:Ef; [|by case_match].
  apply find_crlf_length in Ef. simpl length in Ef.
  destruct (_ || (20 <? _)) eqn:E1; [done|]. destruct (negb (forallb _ _)) eqn:E2; [done|].
  destruct (_ || (limit <? _)) eqn:E3; [done|]. intros [= <- <-].
  apply orb_false_iff in E1 as [_ E1], E3 as [_ E3].
  apply Z.ltb_ge in E1, E3. apply negb_false_iff, forallb_Forall, digits_value_range in E2.
  rewrite length_take in E1. lia.
Qed.

(** What [number] decided does not change when more bytes arrive. *)
Lemma number_app raw more pos prefix limit :
  number raw pos prefix limit <> NNeedMore ->
  number (raw ++ more) pos prefix limit = number raw pos prefix limit.
Proof.
  unfold number. destruct (drop pos raw) as [|c tail] eqn:Ed; [done|].
  pose proof (drop_cons_length _ _ _ _ Ed).
  rewrite drop_app_le, Ed by lia. cbn [app].
  destruct (negb (bool_decide _)); [done|].
  destruct (find_crlf (c :: tail)) as [off|] eqn:Ef.
  - change (c :: tail ++ more) with ((c :: tail) ++ more). rewrite (find_crlf_app _ _ _ Ef).
    apply find_crlf_length in Ef. simpl length in Ef.
    by rewrite take_app_le by lia.
  - destruct (22 <? #(c :: tail)) eqn:E22; [|done]. intros _. apply Z.ltb_lt in E22.
    change (c :: tail ++ more) with ((c :: tail) ++ more).
    destruct (find_crlf ((c :: tail) ++ more)) as [off|] eqn:Ef'.
    + pose proof (find_crlf_None_app _ _ _ Ef Ef'). apply find_crlf_length in Ef'.
      rewrite (proj2 (orb_true_iff _ _)); [done|]. right. apply Z.ltb_lt.
      rewrite length_app in Ef'. rewrite length_take, length_app. simpl length in *. lia.
    + rewrite (proj2 (Z.ltb_lt _ _)); [done|]. rewrite length_app. lia.
Qed.

Lemma number_needs_more raw pos prefix limit :
  (pos <= length raw)%nat -> number raw pos prefix limit = NNeedMore ->
  #raw <= Z.of_nat pos + 22.
Proof.
  intros Hpos. unfold number. destruct (drop pos raw) as [|c tail] eqn:Ed.
  - intros _. apply (f_equal length) in Ed. rewrite length_drop in Ed. simpl in Ed. lia.
  - apply drop_cons_length in Ed. destruct (negb _); [done|].
    destruct (find_crlf _); [repeat case_match; done|].
    destruct (Z.ltb_spec 22 #(c :: tail)); [done|]. intros _. simpl length in *. lia.
Qed.

Lemma not_cr_digit c : is_digit c = true -> c <> CR.
Proof. intros H ->. by vm_compute in H. Qed.

(** [number] reads back what [to_string] printed. *)
Lemma number_to_string pre prefix n limit rest :
  prefix <> CR -> 0 <= n <= limit -> limit <= UINT64_MAX ->
  number (pre ++ prefix :: to_string n ++ crlf ++ rest) (length pre) prefix limit
  = NComplete n (length pre + length (prefix :: to_string n ++ crlf)).
Proof.
  intros Hp Hn Hl. destruct (to_string_digits n) as (Hv & Hd & Hne); [lia|].
  assert (length (to_string n) <= 20)%nat as Hlen.
  { apply to_string_length; [|lia]. unfold UINT64_MAX in *. lia. }
  unfold number. rewrite drop_app_length. rewrite bool_decide_eq_true_2 by done. cbn [negb].
  change (prefix :: to_string n ++ crlf ++ rest) with ((prefix :: to_string n) ++ crlf ++ rest).
  rewrite find_crlf_after.
  2: { constructor; [done|]. eapply Forall_impl; [exact Hd|]. intros c. apply not_cr_digit. }
  cbv beta iota zeta. replace (length (prefix :: to_string n) - 1)%nat with (length (to_string n)) by (simpl; lia).
  rewrite take_app_length.
  rewrite bool_decide_eq_false_2 by done.
  rewrite (proj2 (Z.ltb_ge _ _)) by lia. cbn [orb].
  rewrite (proj2 (forallb_Forall _ _) Hd). cbn [negb]. rewrite Hv.
  rewrite !(proj2 (Z.ltb_ge _ _)) by lia. cbn [orb].
  f_equal. simpl length. rewrite length_app. simpl. lia.
Qed.

Lemma lookup_app_plus {A} (l1 l2 : list A) k : (l1 ++ l2) !! (length l1 + k)%nat = l2 !! k.
Proof. rewrite lookup_app_r by lia. f_equal. lia. Qed.

Lemma parse_args_app n raw more pos args :
  pr_state (parse_args n raw pos args) <> NeedMore ->
  parse_args n (raw ++ more) pos args = parse_args n raw pos args.
Proof.
  revert pos args. induction n as [|n IH]; intros pos args; [done|]. cbn [parse_args].
  destruct (number raw pos dollar kMaxCommandBytes) as [| |len p] eqn:En; [| done |].
  - intros _. by rewrite number_app, En by by rewrite En.
  - rewrite number_app, En by by rewrite En. apply number_bounds in En as (Hlen & Hp & _).
    destruct (_ || _); [done|]. destruct (Z.ltb_spec (#raw - Z.of_nat p) (len + 2)); [done|].
    rewrite (proj2 (Z.ltb_ge _ _)) by (rewrite length_app; lia).
    rewrite !lookup_app_l by lia. destruct (_ && _); [|done].
    rewrite drop_app_le, take_app_le by (rewrite ?length_drop; lia). apply IH.
Qed.

Lemma TryParseOne_app raw more :
  pr_state (TryParseOne raw) <> NeedMore -> TryParseOne (raw ++ more) = TryParseOne raw.
Proof.
  unfold TryParseOne. destruct (number raw 0 star kMaxArguments) as [| |len p] eqn:En; [| done |];
    intros H; rewrite number_app, En by (by rewrite En); [done|].
  destruct (len =? 0); [done|]. by apply parse_args_app.
Qed.

Lemma parse_args_complete n raw pos args c args' e :
  (pos <= length raw)%nat -> parse_args n raw pos args = MkParseResult Complete c args' e ->
  (pos <= c <= length raw)%nat /\ (Z.of_nat pos <= kMaxCommandBytes -> Z.of_nat c <= kMaxCommandBytes) /\
  exists new, args' = args ++ new /\ length new = n /\
    (length (concat new) + pos <= c)%nat.
Proof.
  revert pos args. induction n as [|n IH]; intros pos args Hpos; cbn [parse_args].
  - intros [= <- <- <-]. split; [lia|]. split; [done|]. exists []. rewrite app_nil_r. simpl. by repeat split; lia.
  - destruct (number raw pos dollar kMaxCommandBytes) as [| |len p] eqn:En; [done..|].
    apply number_bounds in En as (Hlen & Hp & _).
    destruct (_ || _) eqn:E1; [done|]. apply orb_false_iff in E1 as [E1 E2].
    apply Z.ltb_ge in E1, E2.
    destruct (Z.ltb_spec (#raw - Z.of_nat p) (len + 2)); [done|].
    destruct (_ && _); [|done]. intros (Hc & Hm & new & -> & Hn & Hs)%IH; [|lia].
    split; [lia|]. split; [intros _; apply Hm; lia|].
    eexists (_ :: new). rewrite <- app_assoc. split; [done|]. split; [by simpl; rewrite Hn|].
    simpl. rewrite length_app, length_take, length_drop. lia.
Qed.

Lemma TryParseOne_complete raw :
  pr_state (TryParseOne raw) = Complete ->
  let r := TryParseOne raw in
  (0 < pr_consumed r <= length raw)%nat /\ Z.of_nat (pr_consumed r) <= kMaxCommandBytes /\
  1 <= #(pr_args r) <= kMaxArguments /\ (length (concat (pr_args r)) <= pr_consumed r)%nat.
Proof.
  unfold TryParseOne. destruct (number raw 0 star kMaxArguments) as [| |n p] eqn:En; [done..|].
  apply number_bounds in En as (Hn & Hp & Hp').
  destruct (Z.eqb_spec n 0); [done|]. intros HC.
  destruct (parse_args _ raw p []) as [st c args e] eqn:E. simpl in HC. subst st.
  apply parse_args_complete in E as (Hc & Hm & new & -> & Hl & Hs); [|lia]. simpl.
  unfold kMaxCommandBytes, kMaxArguments in *. repeat split; lia.
Qed.

(** Waiting is bounded: an incomplete command is never longer than the limit
    and one length line. *)
Lemma parse_args_needs_more n raw pos args :
  (pos <= length raw)%nat -> Z.of_nat pos <= kMaxCommandBytes ->
  pr_state (parse_args n raw pos args) = NeedMore -> #raw <= kMaxCommandBytes + 22.
Proof.
  revert pos args. induction n as [|n IH]; intros pos args Hpos Hk; [done|]. cbn [parse_args].
  destruct (number raw pos dollar kMaxCommandBytes) as [| |len p] eqn:En; [done| |].
  - intros _. apply number_needs_more in En; [lia|done].
  - apply number_bounds in En as (Hlen & Hp & _).
    destruct (_ || _) eqn:E1; [done|]. apply orb_false_iff in E1 as [E1 E2].
    apply Z.ltb_ge in E1, E2.
    destruct (Z.ltb_spec (#raw - Z.of_nat p) (len + 2)); [intros _; lia|].
    destruct (_ && _); [|done]. apply IH; lia.
Qed.

Lemma TryParseOne_needs_more raw :
  pr_state (TryParseOne raw) = NeedMore -> #raw <= kMaxCommandBytes + 22.
Proof.
  unfold TryParseOne. destruct (number raw 0 star kMaxArguments) as [| |n p] eqn:En; [done| |].
  - intros _. apply number_needs_more in En; unfold kMaxCommandBytes; lia.
  - destruct (n =? 0); [done|]. apply number_bounds in En as (_ & Hp & Hp').
    apply parse_args_needs_more; unfold kMaxCommandBytes; lia.
Qed.

Lemma Bulk_split value : Bulk value = (dollar :: to_string #value ++ crlf) ++ value ++ crlf.
Proof. unfold Bulk. simpl. by rewrite <- !app_assoc. Qed.
Lemma Bulk_length value : (length value + 2 <= length (Bulk value))%nat.
Proof. rewrite Bulk_split, !length_app. change (length crlf) with 2%nat. lia. Qed.

(** One turn of the loop on a printed bulk string. *)
Lemma parse_args_Bulk n pre x rest args :
  Z.of_nat (length pre + length (Bulk x)) <= kMaxCommandBytes ->
  parse_args (S n) (pre ++ Bulk x ++ rest) (length pre) args
  = parse_args n (pre ++ Bulk x ++ rest) (length pre + length (Bulk x)) (args ++ [x]).
Proof.
  intros Hk. cbn [parse_args].
  assert (number (pre ++ Bulk x ++ rest) (length pre) dollar kMaxCommandBytes
    = NComplete #x (length pre + length (dollar :: to_string #x ++ crlf))) as ->.
  { unfold Bulk. pose proof (Bulk_length x). cbn [app]. rewrite <- !app_assoc.
    apply number_to_string; [done|unfold kMaxCommandBytes, UINT64_MAX in *; lia..]. }
  rewrite Bulk_split, !length_app in Hk. rewrite Bulk_split.
  generalize dependent (dollar :: to_string #x ++ crlf). intros hd Hk. simpl (length crlf) in Hk.
  rewrite (proj2 (orb_false_iff _ _)) by (split; apply Z.ltb_ge; lia).
  rewrite (proj2 (Z.ltb_ge _ _)) by (rewrite !length_app; simpl (length crlf); lia).
  rewrite Nat2Z.id, <- (length_app pre hd), <- !app_assoc, (app_assoc pre hd).
  rewrite drop_app_length, take_app_length.
  assert (forall k, ((pre ++ hd) ++ x ++ crlf ++ rest) !! (length (pre ++ hd) + length x + k)%nat
    = (crlf ++ rest) !! k) as Hlk.
  { intros k. rewrite <- (length_app (pre ++ hd)), (app_assoc (pre ++ hd)). apply lookup_app_plus. }
  pose proof (Hlk 0%nat) as E0. rewrite Nat.add_0_r in E0. rewrite E0, (Hlk 1%nat).
  rewrite !bool_decide_eq_true_2 by done. cbn [andb]. f_equal.
  rewrite !length_app. change (length crlf) with 2%nat. lia.
Qed.

Lemma parse_args_Bulks l pre rest args :
  Z.of_nat (length pre + length (concat (Bulk <$> l))) <= kMaxCommandBytes ->
  parse_args (length l) (pre ++ concat (Bulk <$> l) ++ rest) (length pre) args
  = MkParseResult Complete (length pre + length (concat (Bulk <$> l))) (args ++ l) [].
Proof.
  revert pre args. induction l as [|x l IH]; intros pre args Hk.
  { simpl. by rewrite app_nil_r, Nat.add_0_r. }
  rewrite fmap_cons in *. cbn [concat length] in *. rewrite length_app in Hk.
  rewrite <- (app_assoc (Bulk x)), parse_args_Bulk by lia.
  rewrite (app_assoc pre), <- length_app, IH by (rewrite length_app; lia).
  rewrite !length_app, <- app_assoc. f_equal. lia.
Qed.

Lemma SerializeCommand_split args :
  SerializeCommand args = (star :: to_string #args ++ crlf) ++ concat (Bulk <$> args).
Proof. unfold SerializeCommand. simpl. by rewrite <- app_assoc. Qed.

Lemma TryParseOne_SerializeCommand args rest :
  args <> [] -> #args <= kMaxArguments -> #(SerializeCommand args) <= kMaxCommandBytes ->
  TryParseOne (SerializeCommand args ++ rest)
  = MkParseResult Complete (length (SerializeCommand args)) args [].
Proof.
  intros Hne Hn Hk. unfold TryParseOne.
  assert (number (SerializeCommand args ++ rest) 0 star kMaxArguments
    = NComplete #args (length (star :: to_string #args ++ crlf))) as ->.
  { rewrite SerializeCommand_split. cbn [app]. rewrite <- !app_assoc.
    apply (number_to_string []); [done|unfold kMaxArguments, UINT64_MAX in *; lia..]. }
  destruct (Z.eqb_spec #args 0); [destruct args; [done|simpl in *; lia]|].
  rewrite Nat2Z.id, SerializeCommand_split, <- app_assoc, parse_args_Bulks; [by rewrite length_app|].
  by rewrite <- length_app, <- SerializeCommand_split.
Qed.

(** C24. A command the server serializes for the log is decoded to the same
    arguments and to exactly its own bytes, whatever follows it in the buffer,
    and any strict prefix of it makes the decoder wait. The size condition is
    the one [SubmitWrite] tests before it proposes the command. *)
Theorem resp_reads_serialized_command args rest :
  args <> [] -> #args <= kMaxArguments -> #(SerializeCommand args) <= kMaxCommandBytes ->
  TryParseOne (SerializeCommand args ++ rest)
    = MkParseResult Complete (length (SerializeCommand args)) args [] /\
  forall p q, SerializeCommand args = p ++ q -> q <> [] -> pr_state (TryParseOne p) = NeedMore.
Proof.
  intros Hne Hn Hk. split; [by apply TryParseOne_SerializeCommand|]. intros p q E Hq.
  destruct (decide (pr_state (TryParseOne p) = NeedMore)) as [|HD]; [done|exfalso].
  pose proof (TryParseOne_SerializeCommand args [] Hne Hn Hk) as HS.
  rewrite app_nil_r, E, TryParseOne_app in HS by done.
  assert (pr_state (TryParseOne p) = Complete) as HC by by rewrite HS.
  destruct (TryParseOne_complete p HC) as [[_ Hc] _]. rewrite HS in Hc. simpl in Hc.
  rewrite length_app in Hc. destruct q; [done|simpl in Hc; lia].
Qed.

Module RespWitness.
Definition set_command : list bytes := [lit "SET"; lit "key"; lit "value"].
Lemma resp_reads_serialized_command_witness :
  TryParseOne (SerializeCommand set_command ++ lit "*1")
    = MkParseResult Complete 33 set_command [] /\
  forall p q, SerializeCommand set_command = p ++ q -> q <> [] -> pr_state (TryParseOne p) = NeedMore.
Proof. apply (resp_reads_serialized_command set_command (lit "*1")); by vm_compute. Defined.
End RespWitness.

(** C25. What the decoder decides is final: once a buffer holds a complete or an
    invalid command, bytes that arrive later change neither the verdict nor the
    arguments. A complete command consumes at least one byte, no more than is
    there and no more than the limit; and the decoder never waits on a buffer
    longer than the limit and one length line. *)
Theorem resp_decision_is_final raw more :
  (pr_state (TryParseOne raw) = NeedMore -> #raw <= kMaxCommandBytes + 22) /\
  (pr_state (TryParseOne raw) <> NeedMore -> TryParseOne (raw ++ more) = TryParseOne raw) /\
  (pr_state (TryParseOne raw) = Complete ->
   1 <= Z.of_nat (pr_consumed (TryParseOne raw)) <= #raw /\
   Z.of_nat (pr_consumed (TryParseOne raw)) <= kMaxCommandBytes /\
   1 <= #(pr_args (TryParseOne raw)) <= kMaxArguments).
Proof.
  split; [apply TryParseOne_needs_more|]. split; [apply TryParseOne_app|].
  intros HC. destruct (TryParseOne_complete raw HC) as (? & ? & ? & _). lia.
Qed.
