(* ===== verification/Command.v ===== *)
(** Command classification shared by the RESP session and the state machine
    (src/src/common/command_type.h). *)
From stdpp Require Import base numbers strings gmap list.
From S2P Require Import Prelude Effects Text.

Inductive CommandType := READ | WRITE | ERROR.
#[export] Instance CommandType_eq_dec : EqDecision CommandType.
Proof. solve_decision. Defined.

Record CommandClass := MkCommandClass { cc_type : CommandType; cc_error : bytes }.

(** The digit loop of [ParseRequestId], with its 64-bit overflow guard. *)
Fixpoint request_id_loop (text : bytes) (value : Z) : option Z :=
  match text with
  | [] => Some value
  | c :: text =>
      if negb (is_digit c) then None
      else
        let digit := digit_value c in
        if (UINT64_MAX - digit) / 10 <? value then None
        else request_id_loop text (uN 64 (value * 10 + digit))
  end.

Definition ParseRequestId (text : bytes) : option Z :=
  if bool_decide (text = []) || (20 <? #text) || bool_decide (head text = Some Byte.x30) then None
  else request_id_loop text 0.

Record IdempotentCommand := MkIdempotentCommand {
  ic_valid : bool; ic_client_id : bytes; ic_request_id : Z;
  ic_op : bytes; ic_key : bytes; ic_value : bytes; ic_error : bytes }.

Definition parsed_error (error : bytes) : IdempotentCommand :=
  MkIdempotentCommand false [] 0 [] [] [] error.

(** [std::toupper] in the C locale. *)
Definition toupper (c : Byte.byte) : Byte.byte :=
  if (97 <=? Z_of_byte c) && (Z_of_byte c <=? 122) then byte_of_Z (Z_of_byte c - 32) else c.
Definition UpperCommand (text : bytes) : bytes := toupper <$> text.

(** [args[i]] where the size test above it has made the index valid. *)
Definition arg (args : list bytes) (i : nat) : bytes := default [] (args !! i).

Definition ParseIdempotentCommand (args : list bytes) : IdempotentCommand :=
  if bool_decide (args = []) || bool_decide (UpperCommand (arg args 0) <> lit "IDEMP")
  then parsed_error (lit "ERR unknown command")
  else if bool_decide (length args <> 5%nat) && bool_decide (length args <> 6%nat)
  then parsed_error (lit "ERR wrong number of arguments for 'IDEMP' command")
  else if bool_decide (arg args 1 = []) || (128 <? #(arg args 1))
  then parsed_error (lit "ERR invalid client id")
  else
    match ParseRequestId (arg args 2) with
    | None => parsed_error (lit "ERR invalid request id")
    | Some request_id =>
        let inner := UpperCommand (arg args 3) in
        if bool_decide (inner = lit "SET") && bool_decide (length args = 6%nat) then
          MkIdempotentCommand true (arg args 1) request_id (lit "SET") (arg args 4) (arg args 5) []
        else if bool_decide (inner = lit "DEL") && bool_decide (length args = 5%nat) then
          MkIdempotentCommand true (arg args 1) request_id (lit "DEL") (arg args 4) [] []
        else if bool_decide (inner = lit "SET") || bool_decide (inner = lit "DEL") then
          parsed_error (lit "ERR wrong number of arguments for '" ++ inner ++ lit "' command")
        else parsed_error (lit "ERR unknown command '" ++ arg args 3 ++ lit "'")
    end.

Definition WriteKeyIndex (args : list bytes) : nat :=
  if negb (bool_decide (args = [])) && bool_decide (arg args 0 = lit "IDEMP") then 4 else 1.

Definition ClassifyCommand (args : list bytes) : CommandClass :=
  if bool_decide (args = []) then MkCommandClass ERROR (lit "ERR empty command")
  else
    let op := arg args 0 in
    let n := length args in
    let op_is name := bool_decide (op = lit name) in
    if op_is "SET" && (n =? 3)%nat then MkCommandClass WRITE []
    else if op_is "DEL" && (n =? 2)%nat then MkCommandClass WRITE []
    else if op_is "IDEMP" then
      let parsed := ParseIdempotentCommand args in
      if negb (ic_valid parsed) then MkCommandClass ERROR (ic_error parsed)
      else MkCommandClass WRITE []
    else if op_is "PING" || op_is "SELECT" || op_is "GET" || op_is "INFO" then
      if (op_is "PING" && negb (n =? 1)%nat) || (op_is "SELECT" && negb (n =? 2)%nat)
         || (op_is "GET" && negb (n =? 2)%nat) || (op_is "INFO" && negb (n =? 1)%nat)
      then MkCommandClass ERROR (lit "ERR wrong number of arguments for '" ++ op ++ lit "' command")
      else MkCommandClass READ []
    else if op_is "SET" || op_is "DEL" then
      MkCommandClass ERROR (lit "ERR wrong number of arguments for '" ++ op ++ lit "' command")
    else MkCommandClass ERROR (lit "ERR unknown command '" ++ op ++ lit "'").

Definition IsReadIndexRedirectError (error : bytes) : bool :=
  bool_decide (error = lit "not leader") || bool_decide (error = lit "no leader")
  || bool_decide (error = lit "leadership lost") || bool_decide (error = lit "server stopped").

Inductive LinearizableGetAction := Serve | Redirect | FailGet.

Definition DecideLinearizableGet (success still_leader : bool) (error : bytes) : LinearizableGetAction :=
  if success && still_leader then Serve
  else if negb success && still_leader && negb (IsReadIndexRedirectError error) then FailGet
  else Redirect.

(** * Request ids are canonical decimals *)

Lemma foldl_digits_ge l x :
  0 <= x -> Forall (fun c => is_digit c = true) l ->
  x <= foldl (fun v c => v * 10 + digit_value c) x l.
Proof.
  revert x. induction l as [|c l IH]; intros x Hx; [simpl; lia|].
  intros [Hc%is_digit_range Hl]%Forall_cons. simpl. etrans; [|apply IH; [lia|done]]. lia.
Qed.

Lemma request_id_loop_spec text value v :
  0 <= value <= UINT64_MAX ->
  request_id_loop text value = Some v <->
  Forall (fun c => is_digit c = true) text /\
  v = foldl (fun v c => v * 10 + digit_value c) value text /\ v <= UINT64_MAX.
Proof.
  revert value. induction text as [|c text IH]; intros value Hv; cbn [request_id_loop foldl].
  { split; [intros [= <-]; repeat split; by try apply Hv|]. by intros (_ & -> & _). }
  rewrite Forall_cons. destruct (is_digit c) eqn:Ec; cbn [negb]; [|naive_solver].
  pose proof (is_digit_range c Ec) as Hr.
  destruct (Z.ltb_spec ((UINT64_MAX - digit_value c) / 10) value) as [Hov|Hok].
  - split; [done|]. intros ((_ & Ht) & -> & Hle). exfalso.
    assert (UINT64_MAX < value * 10 + digit_value c).
    { pose proof (Z.mul_succ_div_gt (UINT64_MAX - digit_value c) 10). lia. }
    pose proof (foldl_digits_ge text (value * 10 + digit_value c) ltac:(lia) Ht). lia.
  - pose proof (Z.mul_div_le (UINT64_MAX - digit_value c) 10 ltac:(lia)).
    assert (0 <= value * 10 + digit_value c <= UINT64_MAX) as Hn by (unfold UINT64_MAX in *; lia).
    rewrite uN_small by (unfold UINT64_MAX in *; lia). rewrite (IH _ Hn). naive_solver.
Qed.

(** A request id is accepted exactly when the text is the decimal print of a
    positive 64-bit number, so every id has one spelling. *)
Lemma ParseRequestId_canonical text v :
  ParseRequestId text = Some v <-> 1 <= v <= UINT64_MAX /\ text = to_string v.
Proof.
  unfold ParseRequestId. split.
  - destruct (_ || _) eqn:E; [done|]. apply orb_false_iff in E as [[E1 _]%orb_false_iff E2].
    apply bool_decide_eq_false_1 in E1, E2. rewrite request_id_loop_spec by done.
    intros (Hd & -> & Hle). fold (digits_value text) in *.
    destruct (to_string_value text) as [H1 H2]; [done..|]. auto.
  - intros [Hv ->]. destruct (to_string_digits v) as (E & Hd & Hne); [lia|].
    rewrite bool_decide_eq_false_2 by done.
    rewrite bool_decide_eq_false_2 by (apply to_string_head; lia).
    assert (length (to_string v) <= 20)%nat
      by (apply to_string_length; [unfold UINT64_MAX in *; lia|lia]).
    rewrite (proj2 (Z.ltb_ge _ _)) by lia. cbn [orb].
    apply request_id_loop_spec; [done|]. fold (digits_value (to_string v)). rewrite E. naive_solver lia.
Qed.
