(* ===== verification/Session.v ===== *)
(** The per-connection command queue and the parse/admission loop
    (src/src/common/session_queue.h), and what a connection admits: the
    commands of the byte stream it received, in order, however TCP split it. *)
From stdpp Require Import base numbers strings gmap list.
From S2P Require Import Prelude Effects Text Resp Command.

(** * SessionQueueLimits, SessionCommandQueue *)

Definition kMaxCommands : Z := 1000.
Definition kMaxBytes : Z := 4 * 1024 * 1024.
Definition kMaxCommandsPerTurn : nat := 128.

Definition AccountedBytes (consumed : Z) (args : list bytes) : Z :=
  let retained := foldl (fun n a => n + #a) 0 args in
  if retained <? consumed then consumed else retained.

Definition limits_IsFull (queued_commands queued_bytes : Z) : bool :=
  (kMaxCommands <=? queued_commands) || (kMaxBytes <=? queued_bytes).

Record QueuedCommand := MkQueuedCommand {
  qc_type : CommandType; qc_args : list bytes; qc_enqueued_at : Z;
  qc_error_message : bytes; qc_bytes : Z }.

Record SessionCommandQueue := MkSessionCommandQueue {
  items : list QueuedCommand; queued_bytes : Z }.

Definition queue_IsFull (q : SessionCommandQueue) : bool :=
  limits_IsFull #(items q) (queued_bytes q).

(** [args[0]] in upper case, the other arguments as they came. *)
Definition upper_verb (args : list bytes) : list bytes :=
  match args with [] => [] | verb :: rest => UpperCommand verb :: rest end.

Definition queued_command (args : list bytes) (consumed now : Z) : QueuedCommand :=
  let args := upper_verb args in
  let classified := ClassifyCommand args in
  MkQueuedCommand (cc_type classified) args now (cc_error classified) (AccountedBytes consumed args).

Definition Enqueue (args : list bytes) (consumed now : Z) (q : SessionCommandQueue)
  : bool * SessionCommandQueue :=
  if queue_IsFull q then (false, q)
  else
    let cmd := queued_command args consumed now in
    (true, MkSessionCommandQueue (items q ++ [cmd]) (queued_bytes q + qc_bytes cmd)).

(** [PopFront] on an empty deque is undefined; its callers test [Empty]. *)
Definition PopFront (q : SessionCommandQueue) : option (QueuedCommand * SessionCommandQueue) :=
  match items q with
  | [] => None
  | cmd :: rest => Some (cmd, MkSessionCommandQueue rest (uN 64 (queued_bytes q - qc_bytes cmd)))
  end.

Definition ShouldReplyInvalidFrame (executing waiting queue_empty : bool) : bool :=
  negb executing && negb waiting && queue_empty.

Definition CanDeliverClientReply (connected closing : bool) : bool := connected && negb closing.

(** * DrainCommands *)

Record DrainOutcome := MkDrainOutcome {
  do_stop_read : bool; do_invalid : bool; do_invalid_error : bytes;
  do_enqueued : Z; do_consumed_bytes : Z }.

Definition no_outcome : DrainOutcome := MkDrainOutcome false false [] 0 0.

(** The loop of [DrainCommands]; [now] is the clock's sequence of readings, one
    per admitted command. *)
Fixpoint drain_loop (turns : nat) (now : nat -> Z) (input : CommandBuffer)
    (queue : SessionCommandQueue) (out : DrainOutcome)
  : DrainOutcome * CommandBuffer * SessionCommandQueue :=
  match turns with
  | O => (out, input, queue)
  | S turns =>
      let stop := MkDrainOutcome true (do_invalid out) (do_invalid_error out) (do_enqueued out)
                    (do_consumed_bytes out) in
      if queue_IsFull queue then (stop, input, queue)
      else
        let '(parsed, input) := buffer_Next input in
        match pr_state parsed with
        | NeedMore => (out, input, queue)
        | Invalid =>
            (MkDrainOutcome true true (pr_error parsed) (do_enqueued out) (do_consumed_bytes out),
             input, queue)
        | Complete =>
            let consumed := Z.of_nat (pr_consumed parsed) in
            match Enqueue (pr_args parsed) consumed (now turns) queue with
            | (false, queue) => (stop, input, queue)
            | (true, queue) =>
                drain_loop turns now input queue
                  (MkDrainOutcome (do_stop_read out) (do_invalid out) (do_invalid_error out)
                     (do_enqueued out + 1) (do_consumed_bytes out + consumed))
            end
        end
  end.

Definition DrainCommands (now : nat -> Z) (input : CommandBuffer) (queue : SessionCommandQueue)
    (max_per_turn : nat) (keep_reading : bool)
  : DrainOutcome * CommandBuffer * SessionCommandQueue :=
  if keep_reading then drain_loop max_per_turn now input queue no_outcome
  else (no_outcome, input, queue).

(** * The command stream of a connection *)

Definition unread (b : CommandBuffer) : bytes := drop (offset_ b) (bytes_ b).
Definition buffer_ok (b : CommandBuffer) : Prop :=
  (offset_ b <= length (bytes_ b))%nat /\ #(unread b) <= kMaxBufferedBytes.
Definition empty_buffer : CommandBuffer := MkCommandBuffer [] 0.

Lemma UnreadBytes_unread b : (offset_ b <= length (bytes_ b))%nat -> UnreadBytes b = #(unread b).
Proof. intros H. unfold UnreadBytes, unread. rewrite length_drop. lia. Qed.

Lemma buffer_Append_spec chunk b :
  buffer_ok b ->
  let '(ok, b') := buffer_Append chunk b in
  buffer_ok b' /\ ok = bool_decide (#(unread b) + #chunk <= kMaxBufferedBytes) /\
  unread b' = if ok then unread b ++ chunk else unread b.
Proof.
  intros [Ho Hk]. unfold buffer_Append. case_bool_decide as Hc; [subst|].
  { simpl length. rewrite Z.add_0_r, bool_decide_eq_true_2, app_nil_r by done. done. }
  rewrite UnreadBytes_unread by done.
  destruct (Z.ltb_spec (kMaxBufferedBytes - #(unread b)) #chunk).
  - rewrite bool_decide_eq_false_2 by lia. done.
  - rewrite bool_decide_eq_true_2 by lia.
    assert ((if (offset_ b =? 0)%nat then bytes_ b else drop (offset_ b) (bytes_ b)) = unread b) as ->.
    { unfold unread. destruct (Nat.eqb_spec (offset_ b) 0) as [->|]; done. }
    change (unread (MkCommandBuffer (unread b ++ chunk) 0)) with (unread b ++ chunk).
    unfold buffer_ok. change (unread (MkCommandBuffer (unread b ++ chunk) 0)) with (unread b ++ chunk).
    rewrite length_app. cbn [offset_ bytes_]. repeat split; lia.
Qed.

Definition after_parse (s : bytes) : bytes :=
  if bool_decide (pr_state (TryParseOne s) = Complete) then drop (pr_consumed (TryParseOne s)) s else s.

Lemma buffer_Next_spec b :
  buffer_ok b ->
  let '(r, b') := buffer_Next b in
  buffer_ok b' /\ r = TryParseOne (unread b) /\ unread b' = after_parse (unread b).
Proof.
  intros [Ho Hk]. unfold buffer_Next, after_parse. fold (unread b).
  case_bool_decide as HC; [|done]. destruct (TryParseOne_complete _ HC) as [Hc _].
  set (n := pr_consumed _) in *.
  assert (length (unread b) = length (bytes_ b) - offset_ b)%nat as Hl by apply length_drop.
  assert (drop n (unread b) = drop (offset_ b + n) (bytes_ b)) as Hd.
  { unfold unread. by rewrite drop_drop. }
  assert (#(drop n (unread b)) <= kMaxBufferedBytes) by (rewrite length_drop; lia).
  cbn [offset_ bytes_]. destruct (Nat.eqb_spec (offset_ b + n) (length (bytes_ b))) as [E|E].
  - assert (drop n (unread b) = []) as -> by (rewrite Hd; apply drop_ge; lia). done.
  - rewrite Hd in *. destruct (_ && _); unfold buffer_ok, unread; cbn [offset_ bytes_];
      rewrite ?drop_0; repeat split; (done || lia).
Qed.

(** [parses s cmds s']: decoding [s] command by command gives [cmds] and
    leaves [s']. *)
Inductive parses : bytes -> list (list bytes * Z) -> bytes -> Prop :=
  | parses_nil s : parses s [] s
  | parses_cons s cmds s' :
      pr_state (TryParseOne s) = Complete ->
      parses (drop (pr_consumed (TryParseOne s)) s) cmds s' ->
      parses s ((pr_args (TryParseOne s), Z.of_nat (pr_consumed (TryParseOne s))) :: cmds) s'.

Lemma parses_more s cmds s' more : parses s cmds s' -> parses (s ++ more) cmds (s' ++ more).
Proof.
  induction 1 as [|s cmds s' HC _ IH]; [constructor|].
  pose proof (TryParseOne_app s more ltac:(by rewrite HC)) as E.
  rewrite <- E. apply parses_cons; rewrite E; [done|].
  destruct (TryParseOne_complete _ HC) as [Hc _]. by rewrite drop_app_le by lia.
Qed.

Lemma parses_trans s c1 s1 c2 s2 : parses s c1 s1 -> parses s1 c2 s2 -> parses s (c1 ++ c2) s2.
Proof. induction 1; [done|]. intros. cbn [app]. constructor; auto. Qed.

(** Decoding is deterministic: of two runs one is a prefix of the other. *)
Lemma parses_prefix s c1 s1 c2 s2 :
  parses s c1 s1 -> parses s c2 s2 -> c1 `prefix_of` c2 \/ c2 `prefix_of` c1.
Proof.
  intros H. revert c2 s2. induction H as [|s c1 s1 HC _ IH]; intros c2 s2 H2.
  { left. apply prefix_nil. }
  inversion H2 as [|? c2' ? _ H2']; subst; [right; apply prefix_nil|].
  destruct (IH _ _ H2') as [?|?]; [left|right]; by apply prefix_cons.
Qed.

(** * The queue's accounting *)

Definition total_bytes (l : list QueuedCommand) : Z := foldr (fun c n => qc_bytes c + n) 0 l.
Definition queue_ok (q : SessionCommandQueue) : Prop :=
  queued_bytes q = total_bytes (items q) /\
  Forall (fun c => 0 < qc_bytes c <= kMaxCommandBytes) (items q) /\
  #(items q) <= kMaxCommands /\ queued_bytes q < kMaxBytes + kMaxCommandBytes.

Lemma total_bytes_app l1 l2 : total_bytes (l1 ++ l2) = total_bytes l1 + total_bytes l2.
Proof. unfold total_bytes. induction l1; cbn [app foldr] in *; lia. Qed.

Lemma AccountedBytes_parsed args consumed :
  #(concat args) <= consumed -> AccountedBytes consumed (upper_verb args) = consumed.
Proof.
  unfold AccountedBytes. intros H.
  assert (forall (l : list bytes) n, foldl (fun n a => n + #a) n l = n + #(concat l)) as E.
  { induction l as [|a l IH]; intros n; simpl; [lia|]. rewrite IH, length_app. lia. }
  rewrite E. assert (length (concat (upper_verb args)) = length (concat args)) as ->.
  { destruct args; simpl; [done|]. rewrite !length_app. unfold UpperCommand. by rewrite length_fmap. }
  case_match; lia.
Qed.

Lemma Enqueue_parsed s q now :
  queue_ok q -> pr_state (TryParseOne s) = Complete -> queue_IsFull q = false ->
  let r := TryParseOne s in let consumed := Z.of_nat (pr_consumed r) in
  exists q', Enqueue (pr_args r) consumed now q = (true, q') /\ queue_ok q' /\
    items q' = items q ++ [queued_command (pr_args r) consumed now].
Proof.
  intros (Hsum & Hall & Hn & Hb) HC Hfull r consumed. unfold Enqueue. rewrite Hfull.
  destruct (TryParseOne_complete _ HC) as (Hc & Hk & _ & Hargs). fold r in Hc, Hk, Hargs.
  assert (qc_bytes (queued_command (pr_args r) consumed now) = consumed) as Eb
    by (apply AccountedBytes_parsed; unfold consumed; lia).
  unfold queue_IsFull, limits_IsFull in Hfull. apply orb_false_iff in Hfull as [Hf1 Hf2].
  apply Z.leb_gt in Hf1, Hf2. eexists. split; [done|]. split; [|done].
  unfold queue_ok. cbn [items queued_bytes]. rewrite total_bytes_app, length_app, Forall_app, Forall_singleton.
  cbn [total_bytes foldr]. rewrite Eb, Hsum in *. simpl length. unfold consumed in *. repeat split; (done || lia).
Qed.

Lemma PopFront_spec q cmd q' :
  queue_ok q -> PopFront q = Some (cmd, q') -> queue_ok q' /\ items q = cmd :: items q'.
Proof.
  intros (Hsum & Hall & Hn & Hb). unfold PopFront. destruct (items q) as [|c l] eqn:E; [done|].
  intros [= <- <-]. split; [|done]. apply Forall_cons in Hall as [Hc Hl].
  assert (0 <= total_bytes l) as Hpos by (clear -Hl; induction Hl; simpl; lia).
  change (total_bytes (c :: l)) with (qc_bytes c + total_bytes l) in Hsum. simpl length in Hn.
  unfold queue_ok. cbn [items queued_bytes].
  rewrite uN_small by (unfold kMaxBytes, kMaxCommandBytes in *; lia). repeat split; (done || lia).
Qed.

(** * What DrainCommands admits *)

Definition admitted (cmd : list bytes * Z) (q : QueuedCommand) : Prop :=
  exists t, q = queued_command cmd.1 cmd.2 t.

(** Why the loop stopped: its budget, a full queue, an incomplete or a broken
    frame. *)
Definition drain_stopped (turns : nat) (cmds : list (list bytes * Z)) (out : DrainOutcome)
    (rest : bytes) (q : SessionCommandQueue) : Prop :=
  if do_invalid out then do_stop_read out = true /\ pr_state (TryParseOne rest) = Invalid /\
                         do_invalid_error out = pr_error (TryParseOne rest)
  else if do_stop_read out then queue_IsFull q = true
  else length cmds = turns \/ pr_state (TryParseOne rest) = NeedMore.

Ltac nothing_drained :=
  split_and!; first [done | apply parses_nil | apply Forall2_nil_2 | by left | by right | simpl; lia].

Lemma drain_loop_spec turns now input queue out :
  buffer_ok input -> queue_ok queue -> do_invalid out = false -> do_stop_read out = false ->
  let '(out', input', queue') := drain_loop turns now input queue out in
  exists cmds added,
    buffer_ok input' /\ queue_ok queue' /\ parses (unread input) cmds (unread input') /\
    (length cmds <= turns)%nat /\ items queue' = items queue ++ added /\ Forall2 admitted cmds added /\
    do_enqueued out' = do_enqueued out + #cmds /\
    do_consumed_bytes out' = do_consumed_bytes out + (#(unread input) - #(unread input')) /\
    drain_stopped turns cmds out' (unread input') queue'.
Proof.
  revert input queue out.
  induction turns as [|turns IH]; intros input queue out Hb Hq Hi Hs; cbn [drain_loop].
  { exists [], []. rewrite app_nil_r. unfold drain_stopped. rewrite Hi, Hs.
    nothing_drained. }
  destruct (queue_IsFull queue) eqn:Hf.
  { exists [], []. rewrite app_nil_r. unfold drain_stopped. cbn. rewrite Hi.
    nothing_drained. }
  pose proof (buffer_Next_spec input Hb) as HN. destruct (buffer_Next input) as [r input1].
  destruct HN as (Hb1 & -> & Hu). unfold after_parse in Hu.
  destruct (pr_state (TryParseOne (unread input))) eqn:HC.
  - rewrite bool_decide_eq_true_2 in Hu by done.
    destruct (Enqueue_parsed _ queue (now turns) Hq HC Hf) as (q' & -> & Hq' & Hit).
    specialize (IH input1 q' (MkDrainOutcome (do_stop_read out) (do_invalid out) (do_invalid_error out)
      (do_enqueued out + 1) (do_consumed_bytes out + Z.of_nat (pr_consumed (TryParseOne (unread input)))))
      Hb1 Hq' Hi Hs).
    destruct (drain_loop turns now input1 q' _) as [[out' input'] queue'].
    destruct IH as (cmds & added & Hb' & Hq'' & Hp & Hlen & Hit' & Ha & He & Hc & Hst).
    destruct (TryParseOne_complete _ HC) as [Hcons _].
    exists ((pr_args (TryParseOne (unread input)), Z.of_nat (pr_consumed (TryParseOne (unread input)))) :: cmds).
    eexists (_ :: added). split; [done|]. split; [done|].
    split; [constructor; [done|by rewrite <- Hu]|]. split; [simpl; lia|].
    split; [rewrite Hit', Hit, <- app_assoc; reflexivity|]. split; [constructor; [by eexists|done]|].
    cbn in He, Hc. rewrite Hu, length_drop in Hc. split; [rewrite He; simpl; lia|].
    split; [rewrite Hc; lia|]. unfold drain_stopped in *. repeat case_match; try done.
    destruct Hst as [<-|?]; [by left|by right].
  - rewrite bool_decide_eq_false_2 in Hu by done.
    exists [], []. rewrite app_nil_r, Hu. unfold drain_stopped. rewrite Hi, Hs, HC.
    nothing_drained.
  - rewrite bool_decide_eq_false_2 in Hu by done.
    exists [], []. rewrite app_nil_r, Hu. unfold drain_stopped. cbn. rewrite HC.
    nothing_drained.
Qed.

(** * A connection's life *)

Inductive conn_event :=
  | Received (chunk : bytes)      (* OnClientMessage *)
  | Drained (now : nat -> Z)      (* DrainClient *)
  | Executed.                     (* ExecuteNextCommand *)

Record Conn := MkConn {
  c_received : bytes; c_input : CommandBuffer; c_queue : SessionCommandQueue;
  c_executed : list QueuedCommand; c_closing : bool }.

Definition new_conn : Conn := MkConn [] empty_buffer (MkSessionCommandQueue [] 0) [] false.

Definition conn_step (c : Conn) (e : conn_event) : Conn :=
  if c_closing c then c else
  match e with
  | Received chunk =>
      match buffer_Append chunk (c_input c) with
      | (true, input) => MkConn (c_received c ++ chunk) input (c_queue c) (c_executed c) false
      | (false, input) => MkConn (c_received c) input (c_queue c) (c_executed c) true
      end
  | Drained now =>
      let '(out, input, queue) := DrainCommands now (c_input c) (c_queue c) kMaxCommandsPerTurn true in
      MkConn (c_received c) input queue (c_executed c) (do_invalid out)
  | Executed =>
      match PopFront (c_queue c) with
      | None => c
      | Some (cmd, queue) => MkConn (c_received c) (c_input c) queue (c_executed c ++ [cmd]) false
      end
  end.

Definition conn_ok (c : Conn) : Prop :=
  buffer_ok (c_input c) /\ queue_ok (c_queue c) /\
  exists cmds, parses (c_received c) cmds (unread (c_input c)) /\
    Forall2 admitted cmds (c_executed c ++ items (c_queue c)).

Lemma conn_step_ok c e : conn_ok c -> conn_ok (conn_step c e).
Proof.
  intros (Hb & Hq & cmds & Hp & Ha). unfold conn_step. destruct (c_closing c); [by repeat split; eauto; apply Hb || apply Hq|].
  destruct e as [chunk|now|].
  - pose proof (buffer_Append_spec chunk _ Hb) as H. destruct (buffer_Append chunk (c_input c)) as [ok input].
    destruct H as (Hb' & _ & Hu). destruct ok; (split; [done|]; split; [done|]);
      exists cmds; cbn; rewrite Hu; (split; [|done]); [by apply parses_more|done].
  - unfold DrainCommands. pose proof (drain_loop_spec kMaxCommandsPerTurn now _ _ no_outcome Hb Hq eq_refl eq_refl) as H.
    destruct (drain_loop _ now (c_input c) (c_queue c) no_outcome) as [[out input] queue].
    destruct H as (new & added & Hb' & Hq' & Hp' & _ & Hit & Ha' & _).
    split; [done|]. split; [done|]. exists (cmds ++ new). cbn.
    split; [by eapply parses_trans|]. rewrite Hit, app_assoc. by apply Forall2_app.
  - destruct (PopFront (c_queue c)) as [[cmd queue]|] eqn:E; [|by split; [|split; eauto]].
    apply PopFront_spec in E as [Hq' Hit]; [|done]. split; [done|]. split; [done|].
    exists cmds. cbn. rewrite <- app_assoc. cbn [app]. by rewrite <- Hit.
Qed.

(** C26. Whatever the order of receives, drains and executions and however TCP
    split the input, the commands a connection has executed followed by those
    still queued are exactly the first commands of the bytes it accepted, in
    order, each classified once; the rest of the bytes is still in the buffer.
    The queue's byte count is exact and stays within its limits. *)
Theorem session_admits_the_stream (events : list conn_event) :
  let c := foldl conn_step new_conn events in
  queue_ok (c_queue c) /\ #(unread (c_input c)) <= kMaxBufferedBytes /\
  exists cmds, parses (c_received c) cmds (unread (c_input c)) /\
    Forall2 admitted cmds (c_executed c ++ items (c_queue c)).
Proof.
  assert (conn_ok (foldl conn_step new_conn events)) as (Hb & Hq & H).
  { assert (conn_ok new_conn) as H0.
    { split; [by vm_compute|]. split; [by repeat split; try constructor|].
      exists []. by repeat constructor. }
    revert H0. generalize new_conn. induction events as [|e events IH]; intros c Hc; [done|].
    apply IH, conn_step_ok, Hc. }
  split; [done|]. split; [apply Hb|done].
Qed.

(** C27. [DrainCommands] admits a run of commands of the unread bytes, reports
    their number and exactly the bytes it took from the buffer, and stops only
    because its budget is used, the queue is full (then it asks to stop
    reading), the next frame is incomplete, or it is broken (then it reports
    the decoder's error). *)
Theorem drain_commands_is_exact now input queue max_per_turn :
  buffer_ok input -> queue_ok queue ->
  let '(out, input', queue') := DrainCommands now input queue max_per_turn true in
  buffer_ok input' /\ queue_ok queue' /\
  exists cmds added,
    parses (unread input) cmds (unread input') /\ (length cmds <= max_per_turn)%nat /\
    items queue' = items queue ++ added /\ Forall2 admitted cmds added /\
    do_enqueued out = #cmds /\ do_consumed_bytes out = UnreadBytes input - UnreadBytes input' /\
    drain_stopped max_per_turn cmds out (unread input') queue'.
Proof.
  intros Hb Hq. unfold DrainCommands.
  pose proof (drain_loop_spec max_per_turn now _ _ no_outcome Hb Hq eq_refl eq_refl) as H.
  destruct (drain_loop _ now input queue no_outcome) as [[out input'] queue'].
  destruct H as (cmds & added & Hb' & Hq' & Hp & Hl & Hit & Ha & He & Hc & Hs).
  split; [done|]. split; [done|]. exists cmds, added.
  rewrite !UnreadBytes_unread by (apply Hb || apply Hb'). cbn in He, Hc. split_and!; done.
Qed.

Module SessionWitness.
Definition one_ping : CommandBuffer := MkCommandBuffer (SerializeCommand [lit "ping"] ++ lit "*1") 0.
Definition empty_queue : SessionCommandQueue := MkSessionCommandQueue [] 0.
Lemma drain_commands_is_exact_witness :
  let '(out, input', queue') := DrainCommands (fun _ => 0) one_ping empty_queue 128 true in
  buffer_ok input' /\ queue_ok queue' /\
  exists cmds added,
    parses (unread one_ping) cmds (unread input') /\ (length cmds <= 128)%nat /\
    items queue' = items empty_queue ++ added /\ Forall2 admitted cmds added /\
    do_enqueued out = #cmds /\ do_consumed_bytes out = UnreadBytes one_ping - UnreadBytes input' /\
    drain_stopped 128 cmds out (unread input') queue'.
Proof.
  apply (drain_commands_is_exact (fun _ => 0) one_ping empty_queue 128).
  - split; [|done]. simpl. lia.
  - by repeat split; try constructor.
Defined.
End SessionWitness.
