(* ===== verification/KVStore.v ===== *)
(** The durable key/value store (src/src/storage/rocksdb_store.{h,cpp}):
    [RocksDBStore] with its [Mutation]s, and what each operation does to the
    database.  The object is its database and the cached [_last_applied]. *)
From stdpp Require Import base numbers strings sorting gmap list.
From S2P Require Import Prelude Effects Storage.

(** * Data *)

Inductive MutationKind := KPut | KDelete | KNoop.
#[export] Instance MutationKind_eq_dec : EqDecision MutationKind.
Proof. solve_decision. Defined.

Record Mutation := MkMutation {
  m_index : Z; m_kind : MutationKind; m_key : bytes; m_value : bytes;
  m_session_key : bytes; m_session_value : bytes }.

Definition AppliedKey : bytes := Byte.x00 :: lit "raftkv:last_applied".

(** * Operations *)

Section RocksDBStore.
Context `{RocksDB}.

Record RocksDBStore := mkRocksDBStore { store_db : DB; store_last_applied : Z }.

#[export] Instance RocksDBStore_fields : Fields RocksDBStore :=
  {| rebuild := fun r => mkRocksDBStore (store_db r) (store_last_applied r);
     rebuild_id := fun r => match r with mkRocksDBStore _ _ => eq_refl end |}.

(** The constructor; [status] is what [rocksdb::DB::Open] reported. *)
Definition store_Open (status : Status) : M RocksDBStore unit :=
  _ ← lift_result (RequireStorageOK status "open KV store");
  got ← gets (fun s => DB_Get (store_db s) AppliedKey);
  if bool_decide (got.1 = NotFound) then
    it ← gets (fun s => DB_Scan (store_db s));
    _ ← lift_result (RequireStorageOK it.1 "inspect KV store");
    if bool_decide (it.2 <> []) then
      throw (runtime_error "legacy KV database has no lastApplied marker; preserve it and use a fresh paired KV/log path")
    else mret tt
  else
    _ ← lift_result (RequireStorageOK got.1 "read lastApplied");
    if bool_decide (length got.2 <> 8%nat) then throw (runtime_error "corrupt lastApplied marker")
    else
      let index := be_get 64 got.2 in
      if INT64_MAX <? index then throw (runtime_error "invalid lastApplied")
      else modify (fun s => s <| store_last_applied := index |>).

Definition blank_store (db : DB) : RocksDBStore := mkRocksDBStore db 0.

Definition store_Get (key : bytes) : M RocksDBStore (option bytes) :=
  got ← gets (fun s => DB_Get (store_db s) key);
  if bool_decide (got.1 = NotFound) then mret None
  else _ ← lift_result (RequireStorageOK got.1 "read KV"); mret (Some got.2).

Definition store_Write (batch : WriteBatch) (operation : string) : M RocksDBStore unit := fun s =>
  let '(status, db) := DB_Write (store_db s) batch in
  (RequireStorageOK status operation, s <| store_db := db |>).

(** The index check over the batch. *)
Fixpoint check_indices (last : Z) (mutations : list Mutation) : result Z :=
  match mutations with
  | [] => Ok last
  | m :: mutations =>
      if (last =? INT64_MAX) || negb (m_index m =? last + 1)
      then Err (runtime_error "out-of-order state machine application")
      else check_indices (m_index m) mutations
  end.

(** The loop that fills the batch: [present] is the map of keys the batch has
    already decided, the result is the batch and the [existed] vector. *)
Fixpoint fill_batch (mutations : list Mutation) (present : gmap bytes bool)
  : M RocksDBStore (WriteBatch * list bool) :=
  match mutations with
  | [] => mret ([], [])
  | m :: mutations =>
      step ← match m_kind m with
        | KPut => mret ([Put (m_key m) (m_value m)], false, <[m_key m := true]> present)
        | KDelete =>
            found ← match present !! m_key m with
                    | Some b => mret b
                    | None => old ← store_Get (m_key m); mret (bool_decide (is_Some old))
                    end;
            mret ([Delete (m_key m)], found, <[m_key m := false]> present)
        | KNoop => mret ([], false, present)
        end;
      let '(ops, existed, present) := step in
      session ← (if bool_decide (m_session_key m = []) then mret ([], present)
                 else if bool_decide (m_session_key m = AppliedKey)
                 then throw (runtime_error "client session collides with lastApplied")
                 else mret ([Put (m_session_key m) (m_session_value m)],
                            <[m_session_key m := true]> present));
      rest ← fill_batch mutations session.2;
      mret (ops ++ session.1 ++ rest.1, existed :: rest.2)
  end.

Definition store_ApplyBatch (mutations : list Mutation) : M RocksDBStore (list bool) :=
  if bool_decide (mutations = []) then mret []
  else
    last ← gets store_last_applied;
    last ← lift_result (check_indices last mutations);
    filled ← fill_batch mutations ∅;
    store_Write (filled.1 ++ [Put AppliedKey (be_put 8 (uN 64 last))]) "apply KV batch";;
    modify (fun s => s <| store_last_applied := last |>);;
    mret filled.2.

Definition ApplyPut (index : Z) (key value : bytes) : M RocksDBStore unit :=
  store_ApplyBatch [MkMutation index KPut key value [] []];; mret tt.
Definition ApplyDelete (index : Z) (key : bytes) : M RocksDBStore bool :=
  existed ← store_ApplyBatch [MkMutation index KDelete key [] [] []];
  mret (default false (head existed)).
Definition ApplyNoop (index : Z) : M RocksDBStore unit :=
  store_ApplyBatch [MkMutation index KNoop [] [] [] []];; mret tt.

Definition ExportEntries : M RocksDBStore (list (bytes * bytes)) :=
  it ← gets (fun s => DB_Scan (store_db s));
  let entries := filter (fun e => e.1 <> AppliedKey) it.2 in
  _ ← lift_result (RequireStorageOK it.1 "export KV snapshot");
  mret entries.

Fixpoint put_entries (entries : list (bytes * bytes)) : result WriteBatch :=
  match entries with
  | [] => Ok []
  | (k, v) :: entries =>
      if bool_decide (k = AppliedKey) then Err (runtime_error "KV snapshot contains lastApplied")
      else batch ← put_entries entries; Ok (Put k v :: batch)
  end.

(** [after_validation] acts on the caller's other objects, [X]. *)
Definition ReplaceAll {X} (index : Z) (entries : list (bytes * bytes)) (after_validation : M X unit)
  : M (RocksDBStore * X) unit :=
  let on_store {A} := @lens (RocksDBStore * X) RocksDBStore A fst (fun t s => (t, s.2)) in
  last ← gets (fun s => store_last_applied s.1);
  if index <? last then throw (runtime_error "KV snapshot would move backwards")
  else
    it ← gets (fun s => DB_Scan (store_db s.1));
    let deletes := (fun e => Delete e.1) <$> filter (fun e => e.1 <> AppliedKey) it.2 in
    _ ← lift_result (RequireStorageOK it.1 "scan KV snapshot");
    puts ← lift_result (put_entries entries);
    lens snd (fun x s => (s.1, x)) after_validation;;
    on_store (store_Write (deletes ++ puts ++ [Put AppliedKey (be_put 8 (uN 64 index))]) "install KV snapshot");;
    modify (fun s => (s.1 <| store_last_applied := index |>, s.2)).

End RocksDBStore.
Arguments RocksDBStore {_}.

(** * What the operations do to the database *)

Definition mut_effect (m : gmap bytes bytes) (mu : Mutation) : gmap bytes bytes :=
  let m := match m_kind mu with
           | KPut => <[m_key mu := m_value mu]> m
           | KDelete => delete (m_key mu) m
           | KNoop => m
           end in
  if bool_decide (m_session_key mu = []) then m else <[m_session_key mu := m_session_value mu]> m.

Definition mut_existed (m : gmap bytes bytes) (mu : Mutation) : bool :=
  bool_decide (m_kind mu = KDelete) && bool_decide (is_Some (m !! m_key mu)).

Fixpoint existed_seq (m : gmap bytes bytes) (mus : list Mutation) : list bool :=
  match mus with
  | [] => []
  | mu :: mus => mut_existed m mu :: existed_seq (mut_effect m mu) mus
  end.

Definition effects (m : gmap bytes bytes) (mus : list Mutation) : gmap bytes bytes :=
  foldl mut_effect m mus.

Definition collides (mu : Mutation) : bool := bool_decide (m_session_key mu = AppliedKey).

Definition marker (index : Z) : bytes := be_put 8 (uN 64 index).

(** The map of decided keys agrees with the state the batch has reached. *)
Definition coherent (present : gmap bytes bool) (m m0 : gmap bytes bytes) : Prop :=
  forall k, match present !! k with
            | Some b => b = bool_decide (is_Some (m !! k))
            | None => m !! k = m0 !! k
            end.

Lemma coherent_insert present m m0 k v :
  coherent present m m0 -> coherent (<[k := true]> present) (<[k := v]> m) m0.
Proof.
  intros H k'. destruct (decide (k = k')) as [<-|Hne].
  - by rewrite !lookup_insert_eq.
  - rewrite !lookup_insert_ne by done. apply H.
Qed.
Lemma coherent_delete present m m0 k :
  coherent present m m0 -> coherent (<[k := false]> present) (delete k m) m0.
Proof.
  intros H k'. destruct (decide (k = k')) as [<-|Hne].
  - by rewrite lookup_insert_eq, lookup_delete_eq.
  - rewrite lookup_insert_ne, lookup_delete_ne by done. apply H.
Qed.

Lemma NoDup_fst_filter {A B} (P : A * B -> Prop) `{!forall x, Decision (P x)} l :
  NoDup l.*1 -> NoDup (filter P l).*1.
Proof.
  induction l as [|x l IH]; [done|]. rewrite fmap_cons, NoDup_cons, filter_cons. intros [Hx Hl].
  case_decide; [|by apply IH]. rewrite fmap_cons, NoDup_cons. split; [|by apply IH].
  intros (y & Ey & [_ Hy]%list_elem_of_filter)%list_elem_of_fmap.
  destruct Hx. apply list_elem_of_fmap. eauto.
Qed.
Lemma StronglySorted_filter {A} (R : relation A) (P : A -> Prop) `{!forall x, Decision (P x)} l :
  StronglySorted R l -> StronglySorted R (filter P l).
Proof.
  induction 1 as [|x l Hl IH Hx]; [constructor|]. rewrite filter_cons. case_decide; [|done].
  constructor; [done|]. rewrite Forall_forall in *. intros y [_ Hy]%list_elem_of_filter. auto.
Qed.

Section StoreProofs.
Context `{RocksDBSpec}.
Implicit Types s : RocksDBStore.

Definition kv s : gmap bytes bytes := contents (store_db s).

(** The cached index is the durable one. *)
Definition synced s : Prop :=
  0 <= store_last_applied s <= INT64_MAX /\
  (kv s !! AppliedKey = Some (marker (store_last_applied s)) \/ (kv s = ∅ /\ store_last_applied s = 0)).

Lemma store_Get_spec k s :
  store_Get k s = (Ok (kv s !! k), s) \/
  (exists e, store_Get k s = (Err e, s)) /\ ~ faultless (store_db s).
Proof.
  unfold store_Get, kv. rewrite M_bind_unfold. cbn.
  destruct (DB_Get (store_db s) k) as [st v] eqn:G. cbn. case_bool_decide as E; [subst|].
  { left. by rewrite (Get_missing _ _ _ G). }
  destruct st; [|done|].
  - left. by rewrite (Get_ok _ _ _ G).
  - right. split; [by eexists|]. intros Hf. destruct (faultless_Get _ k Hf) as [E'|E']; rewrite G in E'; done.
Qed.

Lemma store_Write_spec batch op s :
  match store_Write batch op s with
  | (Ok _, s') => kv s' = apply_batch batch (kv s) /\ store_last_applied s' = store_last_applied s /\
                  (faultless (store_db s) -> faultless (store_db s'))
  | (Err _, s') => (kv s' = kv s \/ kv s' = apply_batch batch (kv s)) /\
                   store_last_applied s' = store_last_applied s /\ ~ faultless (store_db s)
  end.
Proof.
  unfold store_Write, kv. destruct (DB_Write (store_db s) batch) as [st db] eqn:E.
  pose proof (Write_atomic (store_db s) batch) as HA. rewrite E in HA.
  assert (faultless (store_db s) -> st = OK /\ faultless db) as HF.
  { intros Hf. destruct (faultless_Write _ batch Hf) as (db' & E' & Hf'). rewrite E in E'.
    by injection E' as -> ->. }
  destruct st; cbn.
  - split; [by apply Write_ok in E|]. split; [done|]. naive_solver.
  - split; [done|]. split; [done|]. intros Hf. by destruct (HF Hf).
  - split; [done|]. split; [done|]. intros Hf. by destruct (HF Hf).
Qed.

Lemma check_indices_spec last mus last' :
  check_indices last mus = Ok last' ->
  last' = last + #mus /\ (last <= INT64_MAX -> last' <= INT64_MAX).
Proof.
  revert last. induction mus as [|mu mus IH]; intros last; cbn [check_indices].
  { intros [= <-]. simpl. lia. }
  destruct (Z.eqb_spec last INT64_MAX); [done|]. cbn [orb].
  destruct (Z.eqb_spec (m_index mu) (last + 1)); [|done]. intros [E Hle]%IH. simpl length. lia.
Qed.

Lemma check_indices_complete last mus :
  (forall i mu, mus !! i = Some mu -> m_index mu = last + Z.of_nat i + 1) ->
  last + #mus <= INT64_MAX -> check_indices last mus = Ok (last + #mus).
Proof.
  revert last. induction mus as [|mu mus IH]; intros last Hi Hl; cbn [check_indices].
  { simpl. f_equal. lia. }
  pose proof (Hi 0%nat mu eq_refl) as E. simpl length in *.
  destruct (Z.eqb_spec last INT64_MAX); [lia|]. cbn [orb].
  rewrite (proj2 (Z.eqb_eq _ _)) by lia. cbn [negb]. rewrite IH; [f_equal; lia| |lia].
  intros i mu' Hi'. rewrite (Hi (S i) mu') by done. lia.
Qed.

Lemma fill_batch_spec mus present m s :
  coherent present m (kv s) ->
  match fill_batch mus present s with
  | (Ok (batch, ex), s') =>
      s' = s /\ apply_batch batch m = effects m mus /\ ex = existed_seq m mus
  | (Err _, s') => s' = s /\ (existsb collides mus = true \/ ~ faultless (store_db s))
  end.
Proof.
  revert present m. induction mus as [|mu mus IH]; intros present m Hc; cbn [fill_batch]; [done|].
  rewrite M_bind_unfold.
  (* what the switch on the kind leaves *)
  set (m1 := match m_kind mu with KPut => <[m_key mu := m_value mu]> m
             | KDelete => delete (m_key mu) m | KNoop => m end).
  match goal with |- context [match ?sw s with _ => _ end] => set (switch := sw) end.
  assert ((exists ops present1, switch s = (Ok (ops, mut_existed m mu, present1), s) /\
             apply_batch ops m = m1 /\ coherent present1 m1 (kv s)) \/
          (exists e, switch s = (Err e, s)) /\ ~ faultless (store_db s))
    as [(ops & present1 & -> & Hops & Hc1)|([e ->] & Hf)].
  { unfold switch, m1, mut_existed. clear switch. destruct (m_kind mu) eqn:Ek; cbn.
    - left. eexists [_], _. split; [done|]. split; [done|]. by apply coherent_insert.
    - pose proof (Hc (m_key mu)) as Hk. rewrite M_bind_unfold.
      destruct (present !! m_key mu) as [b|] eqn:Ep; cbn.
      + left. subst b. eexists [_], _. split; [done|]. split; [done|]. by apply coherent_delete.
      + rewrite M_bind_unfold. destruct (store_Get_spec (m_key mu) s) as [->|[[e ->] Hf]]; cbn.
        * left. rewrite <- Hk. eexists [_], _. split; [done|]. split; [done|]. by apply coherent_delete.
        * right. split; [by eexists|done].
    - left. eexists [], _. done. }
  2: { split; [done|]. by right. }
  rewrite M_bind_unfold. cbn [existsb]. unfold effects. cbn [foldl existed_seq].
  assert (mut_effect m mu = if bool_decide (m_session_key mu = []) then m1
    else <[m_session_key mu := m_session_value mu]> m1) as Eff by done.
  unfold collides at 1. case_bool_decide as Es.
  - rewrite Es. cbn. rewrite Eff. specialize (IH present1 m1 Hc1). rewrite M_bind_unfold.
    destruct (fill_batch mus present1 s) as [[[batch ex]|e] s']; cbn.
    + destruct IH as (-> & Hb & ->). rewrite apply_batch_app, Hops. by split; [|split; [exact Hb|]].
    + done.
  - case_bool_decide as Ea; cbn; [by auto|]. rewrite Eff, M_bind_unfold.
    specialize (IH _ _ (coherent_insert _ _ _ (m_session_key mu) (m_session_value mu) Hc1)).
    destruct (fill_batch mus _ s) as [[[batch ex]|e] s']; cbn.
    + destruct IH as (-> & Hb & ->). rewrite apply_batch_app, Hops. by split; [|split; [exact Hb|]].
    + done.
Qed.

(** The state after a batch: the mutations in order, then the new marker. *)
Definition batch_result s (mus : list Mutation) : gmap bytes bytes :=
  <[AppliedKey := marker (store_last_applied s + #mus)]> (effects (kv s) mus).

Lemma store_ApplyBatch_spec mus s :
  mus <> [] ->
  match store_ApplyBatch mus s with
  | (Ok ex, s') =>
      ex = existed_seq (kv s) mus /\ kv s' = batch_result s mus /\
      store_last_applied s' = store_last_applied s + #mus /\
      (store_last_applied s <= INT64_MAX -> store_last_applied s' <= INT64_MAX) /\
      (faultless (store_db s) -> faultless (store_db s'))
  | (Err _, s') =>
      store_last_applied s' = store_last_applied s /\ (kv s' = kv s \/ kv s' = batch_result s mus) /\
      (existsb collides mus = true \/ ~ faultless (store_db s) \/
       is_ok (check_indices (store_last_applied s) mus) = false)
  end.
Proof.
  intros Hne. unfold store_ApplyBatch. rewrite bool_decide_eq_false_2 by done.
  rewrite !M_bind_unfold. cbn. rewrite M_bind_unfold. unfold lift_result.
  destruct (check_indices (store_last_applied s) mus) as [last|e] eqn:EI; [|cbn; by auto].
  apply check_indices_spec in EI as [-> Hle]. rewrite M_bind_unfold.
  pose proof (fill_batch_spec mus ∅ (kv s) s) as HF.
  destruct (fill_batch mus ∅ s) as [[[batch ex]|e] s1].
  2: { destruct HF as [-> HF]; [done|]. by destruct HF; auto. }
  destruct HF as (-> & Hb & ->); [done|]. rewrite M_bind_unfold. cbn [fst snd].
  match goal with |- context [store_Write ?b ?o s] => pose proof (store_Write_spec b o s) as HW;
    destruct (store_Write b o s) as [[u|e] s2] end;
    destruct HW as (HW & HL & Hf); rewrite apply_batch_app, Hb in HW.
  - cbn. rewrite M_bind_unfold. cbn. split; [done|]. split; [exact HW|]. auto.
  - split; [done|]. split; [exact HW|]. auto.
Qed.

(** * Snapshots and restart *)

Lemma marker_value i : 0 <= i <= INT64_MAX -> be_get 64 (marker i) = i.
Proof.
  unfold INT64_MAX. intros Hi. unfold marker. rewrite uN_small, be_get_put by lia. apply Z.mod_small. lia.
Qed.

Lemma store_Open_synced s :
  synced s ->
  let s0 := blank_store (store_db s) in
  store_Open OK s0 = (Ok tt, s) \/
  (exists e, store_Open OK s0 = (Err e, s0)) /\ ~ faultless (store_db s).
Proof.
  intros [Hr Hm]. unfold store_Open. rewrite !M_bind_unfold. cbn. rewrite M_bind_unfold. cbn.
  destruct (DB_Get (store_db s) AppliedKey) as [st v] eqn:G. destruct s as [db last]. unfold kv in *.
  cbn in *. case_bool_decide as E; [subst|].
  - apply Get_missing in G as G'. destruct Hm as [Hm|[Hm ->]]; [congruence|].
    rewrite !M_bind_unfold. cbn. rewrite M_bind_unfold. cbn.
    destruct (DB_Scan db) as [st l] eqn:ES. destruct st; cbn.
    + apply Scan_ok in ES as [P _]. rewrite Hm, map_to_list_empty in P.
      apply Permutation_nil_r in P as ->. rewrite bool_decide_eq_false_2 by auto. by left.
    + right. split; [by eexists|]. intros Hf. apply faultless_Scan in Hf. by rewrite ES in Hf.
    + right. split; [by eexists|]. intros Hf. apply faultless_Scan in Hf. by rewrite ES in Hf.
  - rewrite M_bind_unfold. cbn. destruct st; [|done|]; cbn.
    + apply Get_ok in G. destruct Hm as [Hm|[Hm _]]; [|rewrite Hm in G; done].
      assert (v = marker last) as -> by congruence.
      rewrite bool_decide_eq_false_2 by (intros []; apply length_be_put).
      rewrite marker_value by done. destruct (Z.ltb_spec INT64_MAX last); [lia|]. by left.
    + right. split; [by eexists|]. intros Hf. destruct (faultless_Get db AppliedKey Hf) as [E'|E']; rewrite G in E'; done.
Qed.

Lemma ExportEntries_spec s :
  match ExportEntries s with
  | (Ok l, s') => s' = s /\ NoDup l.*1 /\ list_to_map l = delete AppliedKey (kv s) /\
                  StronglySorted key_lt l
  | (Err _, s') => s' = s /\ ~ faultless (store_db s)
  end.
Proof.
  unfold ExportEntries, kv. rewrite !M_bind_unfold. cbn. rewrite M_bind_unfold. cbn.
  destruct (DB_Scan (store_db s)) as [st l] eqn:ES. destruct st; cbn.
  2,3: split; [done|]; intros Hf; apply faultless_Scan in Hf; by rewrite ES in Hf.
  apply Scan_ok in ES as [P HS]. set (m := contents (store_db s)) in *.
  assert (NoDup (filter (fun e => e.1 <> AppliedKey) l).*1) as Hnd.
  { apply NoDup_fst_filter. rewrite P. apply NoDup_fst_map_to_list. }
  split; [done|]. split; [done|]. split; [|by apply StronglySorted_filter].
  apply map_eq. intros k. apply option_eq. intros v.
  rewrite <- elem_of_list_to_map by done. rewrite list_elem_of_filter, P, elem_of_map_to_list, lookup_delete_Some.
  naive_solver.
Qed.

(** The content a list of entries denotes; a later entry of a key wins. *)
Definition entries_map (entries : list (bytes * bytes)) : gmap bytes bytes :=
  foldl (fun m e => <[e.1 := e.2]> m) ∅ entries.

Lemma entries_map_nodup entries : NoDup entries.*1 -> entries_map entries = list_to_map entries.
Proof.
  intros Hnd. unfold entries_map.
  assert (forall m : gmap bytes bytes, foldl (fun m e => <[e.1 := e.2]> m) m entries
    = list_to_map entries ∪ m) as E; [|rewrite E; apply (right_id_L ∅ (∪))].
  induction entries as [|[k v] l IH]; intros m; simpl; [symmetry; apply (left_id_L ∅ (∪))|].
  rewrite fmap_cons, NoDup_cons in Hnd. destruct Hnd as [Hk Hnd]. rewrite IH by done.
  rewrite <- insert_union_l, <- insert_union_r; [done|]. by apply not_elem_of_list_to_map_1.
Qed.

Lemma put_entries_spec entries :
  match put_entries entries with
  | Ok batch => (AppliedKey ∉ entries.*1) /\
      forall m, apply_batch batch m = foldl (fun m e => <[e.1 := e.2]> m) m entries
  | Err _ => AppliedKey ∈ entries.*1
  end.
Proof.
  induction entries as [|[k v] entries IH]; cbn [put_entries]; [by split; [set_solver|]|].
  case_bool_decide as Ek; [subst; set_solver|].
  destruct (put_entries entries) as [batch|e]; cbn.
  - destruct IH as [IH1 IH2]. split; [set_solver|]. intros m. apply (IH2 (<[k := v]> m)).
  - set_solver.
Qed.

Definition snapshot_result (index : Z) (entries : list (bytes * bytes)) : gmap bytes bytes :=
  <[AppliedKey := marker index]> (entries_map entries).

(** Deleting all user keys and writing the entries and the marker gives exactly
    the entries and the marker. *)
Lemma replace_batch_result index entries batch l m :
  put_entries entries = Ok batch -> l ≡ₚ map_to_list m ->
  apply_batch (((fun e => Delete e.1) <$> filter (fun e => e.1 <> AppliedKey) l) ++ batch
    ++ [Put AppliedKey (marker index)]) m = snapshot_result index entries.
Proof.
  intros EP P. pose proof (put_entries_spec entries) as HP. rewrite EP in HP. destruct HP as [Hk HP].
  rewrite !apply_batch_app, HP. unfold snapshot_result, entries_map. cbn.
  set (m1 := apply_batch _ m).
  assert (forall k, k <> AppliedKey -> m1 !! k = None) as Hm1.
  { intros k Hne. unfold m1. change (?f <$> ?l) with (map f l). rewrite (apply_batch_deletes fst).
    case_bool_decide as Ein; [done|]. destruct (m !! k) as [v|] eqn:Ek; [|done]. destruct Ein.
    change (map fst ?l) with (fst <$> l). apply list_elem_of_fmap. exists (k, v). split; [done|].
    apply list_elem_of_filter. split; [done|]. rewrite P. by apply elem_of_map_to_list. }
  assert (forall (l : list (bytes * bytes)) (a b : gmap bytes bytes),
    (forall k, k <> AppliedKey -> a !! k = b !! k) ->
    forall k, k <> AppliedKey -> foldl (fun m e => <[e.1 := e.2]> m) a l !! k
                                = foldl (fun m e => <[e.1 := e.2]> m) b l !! k) as Hfold.
  { clear. induction l as [|e l IH]; intros a b Hab; [done|]. cbn [foldl]. apply IH.
    intros k Hk. destruct (decide (e.1 = k)) as [->|]; [by rewrite !lookup_insert_eq|].
    rewrite !lookup_insert_ne by done. by apply Hab. }
  apply map_eq. intros k. destruct (decide (k = AppliedKey)) as [->|Hne]; [by rewrite !lookup_insert_eq|].
  rewrite !lookup_insert_ne by done. apply Hfold; [|done]. intros k' Hk'. rewrite Hm1 by done. done.
Qed.

Lemma ReplaceAll_spec {X} index entries (cb : M X unit) s x :
  match ReplaceAll index entries cb (s, x) with
  | (Ok _, (s', x')) =>
      store_last_applied s <= index /\ (AppliedKey ∉ entries.*1) /\
      kv s' = snapshot_result index entries /\ store_last_applied s' = index /\
      cb x = (Ok tt, x') /\ (faultless (store_db s) -> faultless (store_db s'))
  | (Err _, (s', x')) =>
      store_last_applied s' = store_last_applied s /\
      (s' = s /\ x' = x /\
         (index < store_last_applied s \/ AppliedKey ∈ entries.*1 \/ ~ faultless (store_db s)) \/
       s' = s /\ (exists e, cb x = (Err e, x')) \/
       cb x = (Ok tt, x') /\ ~ faultless (store_db s) /\
         (kv s' = kv s \/ kv s' = snapshot_result index entries))
  end.
Proof.
  unfold ReplaceAll. rewrite M_bind_unfold. cbn [gets fst].
  destruct (Z.ltb_spec index (store_last_applied s)); [cbn; by auto 8|].
  rewrite M_bind_unfold. cbn [gets fst]. rewrite M_bind_unfold. unfold lift_result.
  destruct (DB_Scan (store_db s)) as [st l] eqn:ES. cbn [fst snd].
  assert (st = OK \/ (st <> OK /\ ~ faultless (store_db s))) as Hst.
  { destruct (decide (st = OK)); [by left|]. right. split; [done|]. intros Hf.
    apply faultless_Scan in Hf. by rewrite ES in Hf. }
  destruct (RequireStorageOK st _) as [u|e] eqn:ER.
  2: { destruct Hst as [->|[_ Hst]]; [done|]. cbn. by auto 8. }
  apply RequireStorageOK_ok in ER as ->. clear Hst. apply Scan_ok in ES as [P _].
  rewrite M_bind_unfold. pose proof (put_entries_spec entries) as HP.
  destruct (put_entries entries) as [batch|e] eqn:EP; [|cbn; by auto 8].
  destruct HP as [Hk _]. rewrite M_bind_unfold. unfold lens at 1. cbn [fst snd].
  destruct (cb x) as [[[]|e] x'] eqn:EC; [|cbn; by eauto 8].
  rewrite M_bind_unfold. unfold lens. cbn [fst snd].
  match goal with |- context [store_Write ?b ?o s] => pose proof (store_Write_spec b o s) as HW;
    destruct (store_Write b o s) as [[u'|e] s2] end;
    destruct HW as (HW & HL & Hf); fold (marker index) in HW;
    rewrite (replace_batch_result index entries batch l (kv s) EP P) in HW.
  - cbn. split_and!; done.
  - cbn. split; [done|]. by auto 8.
Qed.
End StoreProofs.
