(* ===== verification/KVStateMachine.v ===== *)
(** The replicated state machine (src/src/raft/kv_state_machine.{h,cc}):
    batched application of committed commands with client sessions, and the
    snapshot encoding. *)
From stdpp Require Import base numbers strings sorting gmap list.
From S2P Require Import Prelude Effects Text Storage Resp Command KVStore.

(** * Encodings *)

Definition AppendU32 (out : bytes) (value : Z) : bytes := out ++ be_put 4 (uN 32 value).

(** [ReadU32(bytes.data() + offset)]: reading past the end is undefined. *)
Definition ReadU32 (data : bytes) (offset : Z) : result Z :=
  if offset + 4 <=? #data then Ok (be_get 32 (take 4 (drop (Z.to_nat offset) data)))
  else Err OutOfBounds.

Definition ClientSessionKey (client_id : bytes) : bytes := Byte.x00 :: lit "raftkv:client:" ++ client_id.
Definition EncodeSession (request_id : Z) (reply : bytes) : bytes := be_put 8 request_id ++ reply.

Record SessionRecord := MkSessionRecord { sr_request_id : Z; sr_reply : bytes }.
#[export] Instance SessionRecord_eq_dec : EqDecision SessionRecord.
Proof. solve_decision. Defined.

Definition reply_ok : bytes := lit "+OK" ++ crlf.
Definition reply_1 : bytes := lit ":1" ++ crlf.
Definition reply_0 : bytes := lit ":0" ++ crlf.
Definition reply_stale : bytes := lit "-ERR stale request" ++ crlf.

(** * ApplyBatch *)

(** The local variables of the loop over the commands. *)
Record Locals := MkLocals {
  lo_mutations : list Mutation; lo_replies : list bytes;
  lo_present : gmap bytes bool; lo_sessions : gmap bytes SessionRecord; lo_index : Z }.

Section KVStateMachine.
Context `{RocksDB}.
Local Open Scope bool_scope.

Definition key_present (l : Locals) (key : bytes) : M RocksDBStore bool :=
  match lo_present l !! key with
  | Some b => mret b
  | None => v ← store_Get key; mret (bool_decide (is_Some v))
  end.

Definition session_for (l : Locals) (client_id : bytes) : M RocksDBStore SessionRecord :=
  match lo_sessions l !! client_id with
  | Some record => mret record
  | None =>
      raw ← store_Get (ClientSessionKey client_id);
      match raw with
      | Some raw =>
          if #raw <? 8 then throw (runtime_error "corrupt client session")
          else mret (MkSessionRecord (be_get 64 (take 8 raw)) (drop 8 raw))
      | None => mret (MkSessionRecord 0 [])
      end
  end.

(** The [IDEMP] branch: the mutation, the reply and the session cache. *)
Definition apply_idempotent (l : Locals) (parts : list bytes)
  : M RocksDBStore (Mutation * bytes * gmap bytes SessionRecord) :=
  let idempotent := ParseIdempotentCommand parts in
  if negb (ic_valid idempotent) then throw (runtime_error "unsupported command in committed Raft log")
  else
    record ← session_for l (ic_client_id idempotent);
    (* [session_for] caches what it read *)
    let sessions := <[ic_client_id idempotent := record]> (lo_sessions l) in
    let id := ic_request_id idempotent in
    let key := ic_key idempotent in
    let done_ := MkMutation (lo_index l) KNoop [] [] [] [] in
    if id <? sr_request_id record then mret (done_, reply_stale, sessions)
    else if id =? sr_request_id record then mret (done_, sr_reply record, sessions)
    else
      let commit kind value reply :=
        mret (MkMutation (lo_index l) kind key value
                (ClientSessionKey (ic_client_id idempotent)) (EncodeSession id reply),
              reply, <[ic_client_id idempotent := MkSessionRecord id reply]> sessions) in
      if bool_decide (ic_op idempotent = lit "SET") then commit KPut (ic_value idempotent) reply_ok
      else
        there ← key_present l key;
        commit KDelete [] (if (there : bool) then reply_1 else reply_0).

Definition apply_command (command : bytes) (l : Locals) : M RocksDBStore Locals :=
  index ← (if negb (bool_decide (lo_mutations l = [])) then
             if lo_index l =? INT64_MAX then throw (runtime_error "state machine index overflow")
             else mret (lo_index l + 1)
           else mret (lo_index l));
  let l := MkLocals (lo_mutations l) (lo_replies l) (lo_present l) (lo_sessions l) index in
  step ←
    (if bool_decide (command = []) then mret (MkMutation index KNoop [] [] [] [], reply_ok, lo_sessions l)
     else
       let parsed := TryParseOne command in
       if negb (bool_decide (pr_state parsed = Complete)) || negb (pr_consumed parsed =? length command)%nat
       then throw (runtime_error "invalid command in committed Raft log")
       else
         let parts := pr_args parsed in
         let op := UpperCommand (arg parts 0) in
         if bool_decide (op = lit "SET") && (length parts =? 3)%nat then
           mret (MkMutation index KPut (arg parts 1) (arg parts 2) [] [], reply_ok, lo_sessions l)
         else if bool_decide (op = lit "DEL") && (length parts =? 2)%nat then
           mret (MkMutation index KDelete (arg parts 1) [] [] [], reply_ok, lo_sessions l)
         else if bool_decide (op = lit "IDEMP") then apply_idempotent l parts
         else throw (runtime_error "unsupported command in committed Raft log"));
  let '(mutation, reply, sessions) := step in
  let present := match m_kind mutation with
                 | KPut => <[m_key mutation := true]> (lo_present l)
                 | KDelete => <[m_key mutation := false]> (lo_present l)
                 | KNoop => lo_present l
                 end in
  let reply := if bool_decide (m_kind mutation = KDelete) && bool_decide (reply = reply_ok) then [] else reply in
  mret (MkLocals (lo_mutations l ++ [mutation]) (lo_replies l ++ [reply]) present sessions index).

Fixpoint apply_commands (commands : list bytes) (l : Locals) : M RocksDBStore Locals :=
  match commands with
  | [] => mret l
  | command :: commands => l ← apply_command command l; apply_commands commands l
  end.

(** Replies left empty are filled in from what the store found. *)
Definition fill_reply (reply : bytes) (existed : bool) : bytes :=
  if bool_decide (reply = []) then if existed then reply_1 else reply_0 else reply.

Definition sm_ApplyBatch (first_index : Z) (commands : list bytes) : M RocksDBStore (list bytes) :=
  l ← apply_commands commands (MkLocals [] [] ∅ ∅ first_index);
  existed ← store_ApplyBatch (lo_mutations l);
  mret (zip_with fill_reply (lo_replies l) existed).

Definition sm_Apply (index : Z) (command : bytes) : M RocksDBStore bytes :=
  replies ← sm_ApplyBatch index [command]; mret (default [] (head replies)).

Definition sm_Get (key : bytes) : M RocksDBStore (option bytes) := store_Get key.

(** * Snapshots *)

Fixpoint export_entries (entries : list (bytes * bytes)) (out : bytes) : result bytes :=
  match entries with
  | [] => Ok out
  | (k, v) :: entries =>
      if (UINT32_MAX <? #k) || (UINT32_MAX <? #v) then Err (runtime_error "KV snapshot entry too large")
      else export_entries entries (AppendU32 (AppendU32 out #k ++ k) #v ++ v)
  end.

Definition encode_snapshot (entries : list (bytes * bytes)) : result bytes :=
  if UINT32_MAX <? #entries then Err (runtime_error "KV snapshot has too many keys")
  else export_entries entries (AppendU32 [] #entries).

Definition ExportSnapshot : M RocksDBStore bytes :=
  entries ← ExportEntries; lift_result (encode_snapshot entries).

(** The decoding loop.  [key_len + 4] is computed in [uint32_t]. *)
Fixpoint decode_entries (count : nat) (bs : bytes) (offset : Z) : result (list (bytes * bytes) * Z) :=
  match count with
  | O => Ok ([], offset)
  | S count =>
      if #bs - offset <? 4 then Err (runtime_error "truncated KV snapshot")
      else
        key_len ← ReadU32 bs offset;
        let offset := offset + 4 in
        if #bs - offset <? uN 32 (key_len + 4) then Err (runtime_error "truncated KV snapshot")
        else
          let key := take (Z.to_nat key_len) (drop (Z.to_nat offset) bs) in
          let offset := offset + key_len in
          value_len ← ReadU32 bs offset;
          let offset := offset + 4 in
          if #bs - offset <? value_len then Err (runtime_error "truncated KV snapshot")
          else
            let value := take (Z.to_nat value_len) (drop (Z.to_nat offset) bs) in
            rest ← decode_entries count bs (offset + value_len);
            Ok ((key, value) :: rest.1, rest.2)
  end.

Definition decode_snapshot (bs : bytes) : result (list (bytes * bytes)) :=
  if #bs <? 4 then Err (runtime_error "truncated KV snapshot")
  else
    count ← ReadU32 bs 0;
    decoded ← decode_entries (Z.to_nat count) bs 4;
    if negb (decoded.2 =? #bs) then Err (runtime_error "KV snapshot has trailing bytes")
    else Ok decoded.1.

Definition sm_InstallSnapshot {X} (index : Z) (bs : bytes) (after_validation : M X unit)
  : M (RocksDBStore * X) unit :=
  entries ← lift_result (decode_snapshot bs);
  ReplaceAll index entries after_validation.

End KVStateMachine.
