(* ===== verification/KVProofs.v ===== *)
(** Correctness of the state machine: a batch is the sequential application of
    its commands, a retried request is answered from its session, and a
    snapshot carries the whole content to another store. *)
From stdpp Require Import base numbers strings sorting gmap list.
From S2P Require Import Prelude Effects Text Storage Resp Command KVStore KVStateMachine.

(** * Reference semantics: one command at a time on a map *)

Inductive kv_command :=
  | CNoop
  | CSet (key value : bytes)
  | CDel (key : bytes)
  | CIdemp (client : bytes) (id : Z) (key : bytes) (value : option bytes).

Definition decode_command (command : bytes) : option kv_command :=
  if bool_decide (command = []) then Some CNoop
  else
    let parsed := TryParseOne command in
    if bool_decide (pr_state parsed = Complete) && (pr_consumed parsed =? length command)%nat then
      let parts := pr_args parsed in
      let op := UpperCommand (arg parts 0) in
      if bool_decide (op = lit "SET") && (length parts =? 3)%nat then Some (CSet (arg parts 1) (arg parts 2))
      else if bool_decide (op = lit "DEL") && (length parts =? 2)%nat then Some (CDel (arg parts 1))
      else if bool_decide (op = lit "IDEMP") then
        let i := ParseIdempotentCommand parts in
        if ic_valid i then
          Some (CIdemp (ic_client_id i) (ic_request_id i) (ic_key i)
                  (if bool_decide (ic_op i = lit "SET") then Some (ic_value i) else None))
        else None
      else None
    else None.

(** The session record a map holds for a client. *)
Definition session_of (m : gmap bytes bytes) (client : bytes) : SessionRecord :=
  match m !! ClientSessionKey client with
  | None => MkSessionRecord 0 []
  | Some raw => MkSessionRecord (be_get 64 (take 8 raw)) (drop 8 raw)
  end.

Definition del_reply (m : gmap bytes bytes) (key : bytes) : bytes :=
  if bool_decide (is_Some (m !! key)) then reply_1 else reply_0.

(** What one command does to the content, and its reply. *)
Definition kv_step (m : gmap bytes bytes) (c : kv_command) : gmap bytes bytes * bytes :=
  match c with
  | CNoop => (m, reply_ok)
  | CSet key value => (<[key := value]> m, reply_ok)
  | CDel key => (delete key m, del_reply m key)
  | CIdemp client id key value =>
      let record := session_of m client in
      if id <? sr_request_id record then (m, reply_stale)
      else if id =? sr_request_id record then (m, sr_reply record)
      else
        let '(m', reply) := match value with
                            | Some v => (<[key := v]> m, reply_ok)
                            | None => (delete key m, del_reply m key)
                            end in
        (<[ClientSessionKey client := EncodeSession id reply]> m', reply)
  end.

Fixpoint kv_run (m : gmap bytes bytes) (cs : list kv_command) : gmap bytes bytes * list bytes :=
  match cs with
  | [] => (m, [])
  | c :: cs =>
      let '(m1, reply) := kv_step m c in
      let '(m2, replies) := kv_run m1 cs in (m2, reply :: replies)
  end.

(** Client keys carry a namespace name and a colon, so they never start with
    the zero byte of the internal keys. *)
Definition user_key (key : bytes) : bool := negb (bool_decide (head key = Some Byte.x00)).
Definition user_command (c : kv_command) : bool :=
  match c with
  | CNoop => true
  | CSet key _ | CDel key | CIdemp _ _ key _ => user_key key
  end.

(** A stored session holds an id and a reply. *)
Definition sessions_ok (m : gmap bytes bytes) : Prop :=
  forall client raw, m !! ClientSessionKey client = Some raw -> (8 < length raw)%nat.

(** * Keys *)

Lemma ClientSessionKey_inj c1 c2 : ClientSessionKey c1 = ClientSessionKey c2 -> c1 = c2.
Proof. unfold ClientSessionKey. intros [= E]. done. Qed.
Lemma ClientSessionKey_applied c : ClientSessionKey c <> AppliedKey.
Proof. intros E. apply (f_equal (fun k => nth 8 k Byte.x00)) in E. vm_compute in E. done. Qed.
Lemma user_key_session key c : user_key key = true -> key <> ClientSessionKey c.
Proof. intros E ->. unfold user_key in E. by rewrite bool_decide_eq_true_2 in E. Qed.
Lemma user_key_applied key : user_key key = true -> key <> AppliedKey.
Proof. intros E ->. by vm_compute in E. Qed.

Lemma session_of_encoded m client id reply :
  0 <= id <= UINT64_MAX ->
  session_of (<[ClientSessionKey client := EncodeSession id reply]> m) client = MkSessionRecord id reply.
Proof.
  intros Hid. unfold session_of, EncodeSession. rewrite lookup_insert_eq.
  rewrite take_app_exact, drop_app_exact by apply length_be_put.
  rewrite be_get_put by lia. unfold UINT64_MAX in Hid. by rewrite Z.mod_small by lia.
Qed.

Lemma session_of_lookup m m' client :
  m !! ClientSessionKey client = m' !! ClientSessionKey client -> session_of m client = session_of m' client.
Proof. unfold session_of. by intros ->. Qed.

Lemma ParseIdempotentCommand_id parts :
  ic_valid (ParseIdempotentCommand parts) = true ->
  1 <= ic_request_id (ParseIdempotentCommand parts) <= UINT64_MAX.
Proof.
  unfold ParseIdempotentCommand. repeat (case_match; [done|]).
  destruct (ParseRequestId (arg parts 2)) as [id|] eqn:E; [|done].
  apply ParseRequestId_canonical in E as [E _]. by repeat case_match.
Qed.

Lemma decode_command_id command client id key value :
  decode_command command = Some (CIdemp client id key value) -> 1 <= id <= UINT64_MAX.
Proof.
  unfold decode_command. repeat (case_match; try done); intros [= <- <- <- <-];
    by apply ParseIdempotentCommand_id.
Qed.

(** * One command *)

Section Batch.
Context `{RocksDBSpec}.
Implicit Types s : RocksDBStore.

(** The loop's locals describe the state [m] the commands so far lead to from
    the stored content [m0]. *)
Record loop_inv (first : Z) (m0 m : gmap bytes bytes) (l : Locals) : Prop := {
  li_effects : effects m0 (lo_mutations l) = m;
  li_present : forall key, user_key key = true ->
    match lo_present l !! key with
    | Some b => b = bool_decide (is_Some (m !! key))
    | None => m !! key = m0 !! key
    end;
  li_sessions : forall c,
    match lo_sessions l !! c with
    | Some r => session_of m c = r
    | None => m !! ClientSessionKey c = m0 !! ClientSessionKey c
    end;
  li_indices : forall i mu, lo_mutations l !! i = Some mu -> m_index mu = first + Z.of_nat i;
  li_index : lo_index l = first + Z.max 0 (#(lo_mutations l) - 1);
  li_collides : existsb collides (lo_mutations l) = false;
  li_replies : length (lo_replies l) = length (lo_mutations l);
}.

Lemma key_present_spec first m l key s :
  loop_inv first (kv s) m l -> user_key key = true ->
  key_present l key s = (Ok (bool_decide (is_Some (m !! key))), s) \/
  (exists e, key_present l key s = (Err e, s)) /\ ~ faultless (store_db s).
Proof.
  intros HI Hu. unfold key_present. pose proof (li_present _ _ _ _ HI key Hu) as Hk.
  destruct (lo_present l !! key) as [b|]; [left; by subst b|]. rewrite M_bind_unfold.
  destruct (store_Get_spec key s) as [->|[[e ->] Hf]]; [left; by rewrite Hk|right; eauto].
Qed.

Lemma session_for_spec first m l c s :
  loop_inv first (kv s) m l -> sessions_ok m ->
  session_for l c s = (Ok (session_of m c), s) \/
  (exists e, session_for l c s = (Err e, s)) /\ ~ faultless (store_db s).
Proof.
  intros HI Hs. unfold session_for. pose proof (li_sessions _ _ _ _ HI c) as Hc.
  destruct (lo_sessions l !! c) as [r|]; [left; by subst r|]. rewrite M_bind_unfold.
  destruct (store_Get_spec (ClientSessionKey c) s) as [->|[[e ->] Hf]]; [left|right; eauto].
  unfold session_of. rewrite Hc. destruct (kv s !! ClientSessionKey c) as [raw|] eqn:E; [|done].
  pose proof (Hs c raw ltac:(congruence)). destruct (Z.ltb_spec #raw 8); [lia|done].
Qed.

(** What one turn of the loop may do: push the mutation and the reply of the
    command; or stop on a storage fault, leaving the store alone. *)
Definition turn_ok first m0 m c l l' : Prop :=
  exists mu r, lo_mutations l' = lo_mutations l ++ [mu] /\ lo_replies l' = lo_replies l ++ [r] /\
    mut_effect m mu = (kv_step m c).1 /\ fill_reply r (mut_existed m mu) = (kv_step m c).2 /\
    loop_inv first m0 (kv_step m c).1 l'.

Lemma mut_effect_user m idx kind key value sk sv k :
  user_key k = true -> (sk = [] \/ exists c, sk = ClientSessionKey c) ->
  mut_effect m (MkMutation idx kind key value sk sv) !! k =
  match kind with KPut => <[key := value]> m | KDelete => delete key m | KNoop => m end !! k.
Proof.
  intros Hk Hsk. unfold mut_effect. cbn. case_bool_decide; [done|].
  destruct Hsk as [->|[c ->]]; [done|]. apply lookup_insert_ne. intros <-.
  by apply (user_key_session _ c Hk).
Qed.

Definition session_key_ok (mu : Mutation) : Prop :=
  m_session_key mu = [] \/ exists c, m_session_key mu = ClientSessionKey c.

Definition decided (mu : Mutation) (present : gmap bytes bool) : gmap bytes bool :=
  match m_kind mu with
  | KPut => <[m_key mu := true]> present
  | KDelete => <[m_key mu := false]> present
  | KNoop => present
  end.

Lemma decided_present (mu : Mutation) (m m0 : gmap bytes bytes) (present : gmap bytes bool) (key : bytes) :
  session_key_ok mu -> user_key key = true ->
  match present !! key with
  | Some b => b = bool_decide (is_Some (m !! key)) | None => m !! key = m0 !! key end ->
  match decided mu present !! key with
  | Some b => b = bool_decide (is_Some (mut_effect m mu !! key))
  | None => mut_effect m mu !! key = m0 !! key
  end.
Proof.
  intros Hsk Hk Hp. destruct mu as [idx kind mk mv sk sv]. rewrite mut_effect_user by done.
  unfold decided. cbn. destruct kind; [| |done].
  - destruct (decide (mk = key)) as [->|Hne]; [by rewrite !lookup_insert_eq|].
    by rewrite !lookup_insert_ne by done.
  - destruct (decide (mk = key)) as [->|Hne]; [by rewrite lookup_insert_eq, lookup_delete_eq|].
    by rewrite lookup_insert_ne, lookup_delete_ne by done.
Qed.

Lemma push_inv first m0 m l mu reply sessions :
  loop_inv first m0 m l -> m_index mu = first + #(lo_mutations l) -> session_key_ok mu ->
  (forall c, match sessions !! c with
             | Some r => session_of (mut_effect m mu) c = r
             | None => mut_effect m mu !! ClientSessionKey c = m0 !! ClientSessionKey c
             end) ->
  loop_inv first m0 (mut_effect m mu)
    (MkLocals (lo_mutations l ++ [mu]) (lo_replies l ++ [reply]) (decided mu (lo_present l)) sessions (m_index mu)).
Proof.
  intros HI Hidx Hsk Hs. split; cbn.
  - unfold effects. rewrite foldl_app. cbn. fold (effects m0 (lo_mutations l)). by rewrite (li_effects _ _ _ _ HI).
  - intros key Hk. apply decided_present; [done..|]. by apply (li_present _ _ _ _ HI).
  - done.
  - intros i mu' Hi. apply lookup_app_Some in Hi as [Hi|[Hi Hi']]; [by apply (li_indices _ _ _ _ HI)|].
    apply list_lookup_singleton_Some in Hi' as [Hi' <-]. rewrite Hidx. lia.
  - rewrite length_app. simpl. lia.
  - rewrite existsb_app, (li_collides _ _ _ _ HI). cbn. rewrite orb_false_r. apply bool_decide_eq_false_2.
    destruct Hsk as [->|[c ->]]; [done|]. apply ClientSessionKey_applied.
  - rewrite !length_app. simpl. by rewrite (li_replies _ _ _ _ HI).
Qed.

(** A mutation without a session update leaves the sessions alone. *)
Lemma sessions_unchanged first m0 m l mu c :
  loop_inv first m0 m l -> m_session_key mu = [] -> (m_kind mu <> KNoop -> user_key (m_key mu) = true) ->
  mut_effect m mu !! ClientSessionKey c = m !! ClientSessionKey c.
Proof.
  intros HI Hsk Hu. unfold mut_effect. rewrite bool_decide_eq_true_2 by done.
  destruct (m_kind mu); [apply lookup_insert_ne|apply lookup_delete_ne|done]; by apply user_key_session, Hu.
Qed.

Lemma push_plain first m0 m l mu reply sessions :
  loop_inv first m0 m l -> m_index mu = first + #(lo_mutations l) -> m_session_key mu = [] ->
  (m_kind mu <> KNoop -> user_key (m_key mu) = true) ->
  (sessions = lo_sessions l \/ exists c, sessions = <[c := session_of m c]> (lo_sessions l)) ->
  loop_inv first m0 (mut_effect m mu)
    (MkLocals (lo_mutations l ++ [mu]) (lo_replies l ++ [reply]) (decided mu (lo_present l)) sessions (m_index mu)).
Proof.
  intros HI Hidx Hsk Hu Hs. apply push_inv; [done|done|by left|]. intros c.
  pose proof (sessions_unchanged _ _ _ _ _ c HI Hsk Hu) as Hc.
  pose proof (li_sessions _ _ _ _ HI c) as HSc.
  destruct Hs as [->|[c' ->]]; [|destruct (decide (c' = c)) as [->|Hne]].
  - destruct (lo_sessions l !! c); [by rewrite (session_of_lookup _ _ _ Hc)|by rewrite Hc].
  - rewrite lookup_insert_eq. by apply session_of_lookup.
  - rewrite lookup_insert_ne by done.
    destruct (lo_sessions l !! c); [by rewrite (session_of_lookup _ _ _ Hc)|by rewrite Hc].
Qed.

(** A mutation that records a new request of client [c]. *)
Lemma push_session first m0 m l kind key value c id reply reply' record :
  loop_inv first m0 m l -> user_key key = true -> 0 <= id <= UINT64_MAX -> kind <> KNoop ->
  let mu := MkMutation (first + #(lo_mutations l)) kind key value (ClientSessionKey c) (EncodeSession id reply) in
  loop_inv first m0 (mut_effect m mu)
    (MkLocals (lo_mutations l ++ [mu]) (lo_replies l ++ [reply']) (decided mu (lo_present l))
       (<[c := MkSessionRecord id reply]> (<[c := record]> (lo_sessions l))) (m_index mu)).
Proof.
  intros HI Hu Hid Hk mu. apply push_inv; [done|done|right; by eexists|]. intros c'.
  assert (mut_effect m mu = <[ClientSessionKey c := EncodeSession id reply]>
    (match kind with KPut => <[key := value]> m | KDelete => delete key m | KNoop => m end)) as Em by done.
  rewrite Em. destruct (decide (c = c')) as [<-|Hne].
  { rewrite lookup_insert_eq. by apply session_of_encoded. }
  assert (ClientSessionKey c <> ClientSessionKey c') as Hne' by (intros E; by apply ClientSessionKey_inj in E).
  rewrite !(lookup_insert_ne _ c c') by done.
  assert (mut_effect m mu !! ClientSessionKey c' = m !! ClientSessionKey c') as Hc.
  { rewrite Em, lookup_insert_ne by done. pose proof (user_key_session key c' Hu).
    destruct kind; [by apply lookup_insert_ne|by apply lookup_delete_ne|done]. }
  rewrite <- Em. pose proof (li_sessions _ _ _ _ HI c') as HSc.
  destruct (lo_sessions l !! c'); [by rewrite (session_of_lookup _ _ _ Hc)|by rewrite Hc].
Qed.

(** Replies are never empty, which is how the code marks the ones to fill in. *)
Lemma sessions_ok_reply m c : sessions_ok m -> session_of m c = MkSessionRecord 0 [] \/ sr_reply (session_of m c) <> [].
Proof.
  intros Hs. unfold session_of. destruct (m !! ClientSessionKey c) as [raw|] eqn:E; [|by left]. right.
  cbn. intros Hn. apply Hs in E. apply (f_equal length) in Hn. rewrite length_drop in Hn. simpl in Hn. lia.
Qed.

(** The new index, or the overflow error. *)
Lemma next_index first m0 m l s :
  loop_inv first m0 m l ->
  (if negb (bool_decide (lo_mutations l = [])) then
     if lo_index l =? INT64_MAX then throw (runtime_error "state machine index overflow")
     else mret (lo_index l + 1)
   else mret (lo_index l)) s =
  if bool_decide (lo_mutations l <> [] /\ lo_index l = INT64_MAX)
  then (Err (runtime_error "state machine index overflow"), s)
  else (Ok (first + #(lo_mutations l)), s : RocksDBStore).
Proof.
  intros HI. pose proof (li_index _ _ _ _ HI) as E. case_bool_decide as En; cbn [negb].
  - rewrite bool_decide_eq_false_2 by naive_solver. rewrite E, En. cbn. unfold mret, M_ret. do 2 f_equal; simpl; lia.
  - destruct (Z.eqb_spec (lo_index l) INT64_MAX) as [Ei|Ei].
    + by rewrite bool_decide_eq_true_2 by done.
    + rewrite bool_decide_eq_false_2 by naive_solver. unfold mret, M_ret. do 2 f_equal.
      destruct (lo_mutations l); [done|]. simpl length in *. lia.
Qed.

Lemma fill_reply_nonempty r b : r <> [] -> fill_reply r b = r.
Proof. intros Hr. unfold fill_reply. by rewrite bool_decide_eq_false_2 by done. Qed.

Definition with_index (l : Locals) (index : Z) : Locals :=
  MkLocals (lo_mutations l) (lo_replies l) (lo_present l) (lo_sessions l) index.

Lemma apply_idempotent_spec first m l parts s :
  loop_inv first (kv s) m l -> sessions_ok m ->
  let i := ParseIdempotentCommand parts in
  let c := CIdemp (ic_client_id i) (ic_request_id i) (ic_key i)
             (if bool_decide (ic_op i = lit "SET") then Some (ic_value i) else None) in
  let index := first + #(lo_mutations l) in
  ic_valid i = true -> user_key (ic_key i) = true ->
  (exists mu r sessions, apply_idempotent (with_index l index) parts s = (Ok (mu, r, sessions), s) /\
     m_index mu = index /\ r <> [] /\ r = (kv_step m c).2 /\ mut_effect m mu = (kv_step m c).1 /\
     (m_kind mu = KDelete -> r <> reply_ok) /\
     forall reply', loop_inv first (kv s) (mut_effect m mu)
       (MkLocals (lo_mutations l ++ [mu]) (lo_replies l ++ [reply']) (decided mu (lo_present l)) sessions index)) \/
  (exists e, apply_idempotent (with_index l index) parts s = (Err e, s)) /\ ~ faultless (store_db s).
Proof.
  intros HI Hs i c index Hv Hu. unfold apply_idempotent. fold i. rewrite Hv. cbn [negb].
  rewrite M_bind_unfold.
  change (session_for (with_index l index)) with (session_for l).
  change (key_present (with_index l index)) with (key_present l).
  destruct (session_for_spec first m l (ic_client_id i) s HI Hs) as [->|[[e ->] Hf]]; [|right; eauto].
  pose proof (ParseIdempotentCommand_id parts Hv) as Hid. fold i in Hid.
  pose proof (sessions_ok_reply m (ic_client_id i) Hs) as Hrep.
  set (record := session_of m (ic_client_id i)) in *. unfold c. cbn [kv_step]. fold record.
  destruct (Z.ltb_spec (ic_request_id i) (sr_request_id record)) as [Hlt|Hge].
  { left. eexists _, _, _. split; [reflexivity|]. split_and!; try done.
    intros reply'. apply (push_plain _ _ _ _ (MkMutation index KNoop [] [] [] [])); eauto; done. }
  destruct (Z.eqb_spec (ic_request_id i) (sr_request_id record)) as [Heq|Hne].
  { left. eexists _, _, _. split; [reflexivity|]. split_and!; try done.
    - destruct Hrep as [Hr|]; [|done]. rewrite Hr in Heq. cbn in Heq. lia.
    - intros reply'. apply (push_plain _ _ _ _ (MkMutation index KNoop [] [] [] [])); eauto; done. }
  case_bool_decide as Eop.
  - left. eexists _, _, _. split; [reflexivity|]. split_and!; try done.
    intros reply'. apply (push_session first (kv s) m l); (done || lia).
  - rewrite M_bind_unfold. destruct (key_present_spec first m l (ic_key i) s HI Hu) as [->|[[e ->] Hf]]; [|right; eauto].
    left. unfold del_reply. eexists _, _, _. split; [reflexivity|].
    split_and!; [done|by case_match|done|done|by intros _; case_match|].
    intros reply'. apply (push_session first (kv s) m l); (done || lia).
Qed.

(** The end of the loop body, from the mutation and reply the branches built. *)
Lemma finish_turn first m0 m c l mu r sessions :
  m_index mu = first + #(lo_mutations l) -> mut_effect m mu = (kv_step m c).1 ->
  fill_reply (if bool_decide (m_kind mu = KDelete) && bool_decide (r = reply_ok) then [] else r)
    (mut_existed m mu) = (kv_step m c).2 ->
  (forall reply', loop_inv first m0 (mut_effect m mu)
     (MkLocals (lo_mutations l ++ [mu]) (lo_replies l ++ [reply']) (decided mu (lo_present l)) sessions (m_index mu))) ->
  turn_ok first m0 m c l
    (MkLocals (lo_mutations l ++ [mu])
       (lo_replies l ++ [if bool_decide (m_kind mu = KDelete) && bool_decide (r = reply_ok) then [] else r])
       (decided mu (lo_present l)) sessions (first + #(lo_mutations l))).
Proof.
  intros Hidx He Hr HI. eexists mu, _. split; [done|]. split; [done|]. split; [done|]. split; [done|].
  rewrite <- He, <- Hidx. apply HI.
Qed.

Lemma apply_command_spec first m l command s :
  loop_inv first (kv s) m l -> sessions_ok m ->
  match decode_command command with
  | Some c => user_command c = true ->
      (exists l', apply_command command l s = (Ok l', s) /\ turn_ok first (kv s) m c l l') \/
      (exists e, apply_command command l s = (Err e, s)) /\
      (~ faultless (store_db s) \/ INT64_MAX < first + #(lo_mutations l))
  | None => exists e, apply_command command l s = (Err e, s)
  end.
Proof.
  intros HI Hs. unfold apply_command. rewrite M_bind_unfold, (next_index _ _ _ _ s HI).
  case_bool_decide as Eo.
  { pose proof (li_index _ _ _ _ HI) as Ei. destruct Eo as [Hne Eo].
    assert (INT64_MAX < first + #(lo_mutations l)).
    { destruct (lo_mutations l); [done|]. simpl length in *. lia. }
    destruct (decode_command command); [intros _; right|]; eauto. }
  clear Eo. rewrite M_bind_unfold. unfold decode_command. cbn [lo_sessions].
  assert (forall mu, m_index mu = first + #(lo_mutations l) -> m_session_key mu = [] ->
    (m_kind mu <> KNoop -> user_key (m_key mu) = true) -> forall reply', loop_inv first (kv s) (mut_effect m mu)
      (MkLocals (lo_mutations l ++ [mu]) (lo_replies l ++ [reply']) (decided mu (lo_present l)) (lo_sessions l) (m_index mu)))
    as Hplain by (intros; apply push_plain; auto).
  case_bool_decide as Ec.
  { intros _. left. eexists. split; [reflexivity|].
    by apply (finish_turn first (kv s) m CNoop l (MkMutation (first + #(lo_mutations l)) KNoop [] [] [] []) reply_ok (lo_sessions l)); [..|apply Hplain]. }
  cbn zeta. rewrite <- negb_andb. destruct (_ && _); cbn [negb]; [|by eexists].
  set (parts := pr_args (TryParseOne command)).
  destruct (bool_decide (UpperCommand (arg parts 0) = lit "SET") && _).
  { intros Hu. left. eexists. split; [reflexivity|].
    by apply (finish_turn first (kv s) m (CSet _ _) l (MkMutation (first + #(lo_mutations l)) KPut _ _ [] []) reply_ok (lo_sessions l)); [..|apply Hplain]. }
  destruct (bool_decide (UpperCommand (arg parts 0) = lit "DEL") && _).
  { intros Hu. left. eexists. split; [reflexivity|].
    by apply (finish_turn first (kv s) m (CDel _) l (MkMutation (first + #(lo_mutations l)) KDelete _ [] [] []) reply_ok (lo_sessions l)); [..|apply Hplain]. }
  case_bool_decide as Ei; [|by eexists].
  destruct (ic_valid (ParseIdempotentCommand parts)) eqn:Ev.
  2: { unfold apply_idempotent. rewrite Ev. by eexists. }
  intros Hu.
  destruct (apply_idempotent_spec first m l parts s HI Hs Ev Hu)
    as [(mu & r & sessions & E & Hidx & Hr & Hrep & He & Hd & HL)|[[e E] Hf]]; unfold with_index in E; rewrite E.
  - left. eexists. split; [reflexivity|]. apply (finish_turn first (kv s) m _ l mu r sessions); [done|done| |by rewrite Hidx].
    rewrite <- Hrep, (proj2 (andb_false_iff _ _)); [by apply fill_reply_nonempty|].
    destruct (decide (m_kind mu = KDelete)) as [Hk|Hk]; [right|left]; apply bool_decide_eq_false_2; auto.
  - right. eauto.
Qed.

Lemma sessions_ok_record m client id r :
  sessions_ok m -> (0 < length r)%nat ->
  sessions_ok (<[ClientSessionKey client := EncodeSession id r]> m).
Proof.
  intros Hs Hr c raw. destruct (decide (client = c)) as [<-|Hne].
  - rewrite lookup_insert_eq. intros [= <-]. unfold EncodeSession. rewrite length_app, length_be_put. lia.
  - rewrite lookup_insert_ne by (intros E; by apply ClientSessionKey_inj in E). apply Hs.
Qed.

Lemma kv_step_sessions_ok m c :
  sessions_ok m -> user_command c = true -> sessions_ok (kv_step m c).1.
Proof.
  intros Hs Hu. assert (forall m' (key : bytes), user_key key = true ->
    (forall k, k <> key -> m' !! k = m !! k) -> sessions_ok m') as Huser.
  { intros m' key Hk Hm' c' raw Hr. rewrite Hm' in Hr; [by eapply Hs|].
    intros E. by apply (user_key_session key c' Hk). }
  destruct c as [|key value|key|client id key value]; cbn in *; [done| | |].
  - apply (Huser _ key Hu). intros k Hk. by apply lookup_insert_ne.
  - apply (Huser _ key Hu). intros k Hk. by apply lookup_delete_ne.
  - case_match; [done|]. case_match; [done|]. destruct value as [v|]; apply sessions_ok_record.
    + apply (Huser _ key Hu). intros k Hk. by apply lookup_insert_ne.
    + simpl. lia.
    + apply (Huser _ key Hu). intros k Hk. by apply lookup_delete_ne.
    + unfold del_reply. case_match; simpl; lia.
Qed.

Lemma apply_commands_spec first m l commands cs s :
  loop_inv first (kv s) m l -> sessions_ok m ->
  mapM decode_command commands = Some cs -> forallb user_command cs = true ->
  (exists l' mus rs, apply_commands commands l s = (Ok l', s) /\
     lo_mutations l' = lo_mutations l ++ mus /\ lo_replies l' = lo_replies l ++ rs /\
     length mus = length commands /\ effects m mus = (kv_run m cs).1 /\
     zip_with fill_reply rs (existed_seq m mus) = (kv_run m cs).2 /\
     loop_inv first (kv s) (kv_run m cs).1 l') \/
  (exists e, apply_commands commands l s = (Err e, s)) /\
  (~ faultless (store_db s) \/ INT64_MAX < first + #(lo_mutations l) + #commands - 1).
Proof.
  revert m l cs. induction commands as [|command commands IH]; intros m l cs HI Hs; cbn [mapM apply_commands].
  { intros [= <-] _. left. exists l, [], []. rewrite !app_nil_r. by split_and!. }
  intros E Hu. apply bind_Some in E as (c & Ec & E). apply bind_Some in E as (cs' & Ecs & [= <-]).
  cbn [forallb] in Hu. apply andb_true_iff in Hu as [Hu Hus].
  pose proof (apply_command_spec first m l command s HI Hs) as HC. rewrite Ec in HC.
  rewrite M_bind_unfold.
  destruct (HC Hu) as [(l1 & -> & mu & r & Hm1 & Hr1 & He & Hrep & HI1)|[[e ->] Hf]].
  2: { right. split; [by eexists|]. simpl length. destruct Hf; [by left|right; lia]. }
  cbn [kv_run]. destruct (kv_step m c) as [m1 r1] eqn:Es. cbn [fst snd] in *. subst r1.
  assert (sessions_ok m1) as Hs1 by (pose proof (kv_step_sessions_ok m c Hs Hu) as X; by rewrite Es in X).
  destruct (IH m1 l1 cs' HI1 Hs1 Ecs Hus) as [(l' & mus & rs & -> & Hm & Hr & Hlen & Heff & Hz & HI')|[[e ->] Hf]].
  - left. destruct (kv_run m1 cs') as [m2 replies]. cbn [fst snd] in *.
    exists l', (mu :: mus), (r :: rs). split; [done|]. rewrite Hm, Hm1, Hr, Hr1, <- !app_assoc.
    split; [done|]. split; [done|]. split; [simpl; by rewrite Hlen|].
    unfold effects. cbn [foldl existed_seq zip_with]. rewrite He. fold (effects m1 mus).
    rewrite Hz. by split_and!.
  - right. split; [by eexists|]. rewrite Hm1, length_app in Hf. simpl length in *. destruct Hf; [by left|right; lia].
Qed.

(** Preparing a batch only reads. *)
Lemma store_Get_pure k : evolves (@eq RocksDBStore) (store_Get k).
Proof. intros s. by destruct (store_Get_spec k s) as [->|[[e ->] _]]. Qed.

Lemma apply_command_pure command l : evolves (@eq RocksDBStore) (apply_command command l).
Proof.
  unfold apply_command, apply_idempotent, session_for, key_present.
  repeat first [ apply _ | apply evolves_ret | apply evolves_throw | apply store_Get_pure | apply evolves_bind
               | progress cbn zeta | progress intros | case_match ].
Qed.

Lemma apply_command_invalid command l s :
  decode_command command = None -> exists e, apply_command command l s = (Err e, s).
Proof.
  intros Ed. pose proof (apply_command_pure command l s) as Hp.
  destruct (apply_command command l s) as [[l'|e] s'] eqn:E; [|exists e; by rewrite Hp]. exfalso.
  unfold apply_command in E. apply M_bind_ok_inv in E as (idx & s1 & _ & E).
  apply M_bind_ok_inv in E as (step & s2 & E & _). unfold decode_command in Ed. cbn zeta in *.
  case_bool_decide; [done|]. rewrite <- negb_andb in E. destruct (_ && (_ =? _)%nat); [|done]. cbn [negb] in E.
  destruct (bool_decide (_ = lit "SET") && _); [done|].
  destruct (bool_decide (_ = lit "DEL") && _); [done|]. case_bool_decide; [|done].
  unfold apply_idempotent in E. by destruct (ic_valid _).
Qed.

Lemma apply_commands_invalid commands l s :
  mapM decode_command commands = None -> exists e, apply_commands commands l s = (Err e, s).
Proof.
  revert l. induction commands as [|command commands IH]; intros l; cbn [mapM apply_commands]; [done|].
  rewrite M_bind_unfold. destruct (decode_command command) as [c|] eqn:Ec; cbn [mbind option_bind].
  - pose proof (apply_command_pure command l s) as Hp.
    destruct (apply_command command l s) as [[l'|e] s']; cbn in Hp; subst s'; [|eauto].
    destruct (mapM decode_command commands) eqn:Ecs; [done|]. intros _. by apply IH.
  - intros _. destruct (apply_command_invalid command l s Ec) as [e ->]. eauto.
Qed.

(** * A batch *)

Definition batch_content s (cs : list kv_command) : gmap bytes bytes :=
  <[AppliedKey := marker (store_last_applied s + #cs)]> (kv_run (kv s) cs).1.

Lemma mapM_length {A B} (f : A -> option B) l k : mapM f l = Some k -> length k = length l.
Proof. intros E%mapM_Some. symmetry. by eapply Forall2_length. Qed.

Lemma empty_loop_inv first m0 : loop_inv first m0 m0 (MkLocals [] [] ∅ ∅ first).
Proof. split; try done. cbn. lia. Qed.

Lemma sm_ApplyBatch_spec first commands cs s :
  commands <> [] -> sessions_ok (kv s) ->
  mapM decode_command commands = Some cs -> forallb user_command cs = true ->
  match sm_ApplyBatch first commands s with
  | (Ok replies, s') =>
      replies = (kv_run (kv s) cs).2 /\ kv s' = batch_content s cs /\
      store_last_applied s' = store_last_applied s + #cs /\
      (store_last_applied s <= INT64_MAX -> store_last_applied s' <= INT64_MAX) /\
      (faultless (store_db s) -> faultless (store_db s'))
  | (Err _, s') =>
      store_last_applied s' = store_last_applied s /\
      (kv s' = kv s \/ kv s' = batch_content s cs) /\
      (~ faultless (store_db s) \/ first <> store_last_applied s + 1 \/
       INT64_MAX < store_last_applied s + #cs)
  end.
Proof.
  intros Hne Hs Ecs Hu. unfold sm_ApplyBatch. rewrite M_bind_unfold.
  apply mapM_length in Ecs as Elen.
  destruct (apply_commands_spec first (kv s) _ commands cs s (empty_loop_inv first (kv s)) Hs Ecs Hu)
    as [(l & mus & rs & -> & Hm & Hr & Hlen & Heff & Hz & HI)|[[e ->] Hf]].
  2: { split; [done|]. split; [by left|]. cbn in Hf. rewrite Elen.
       destruct (decide (first = store_last_applied s + 1)); [|by auto]. destruct Hf; [by left|right; right; lia]. }
  cbn in Hm, Hr. subst mus rs. rewrite M_bind_unfold.
  assert (lo_mutations l <> []) as Hne' by (intros E; rewrite E in Hlen; by destruct commands).
  assert (batch_result s (lo_mutations l) = batch_content s cs) as Eb.
  { unfold batch_result, batch_content. by rewrite Heff, Hlen, Elen. }
  pose proof (store_ApplyBatch_spec (lo_mutations l) s Hne') as HA.
  destruct (store_ApplyBatch (lo_mutations l) s) as [[ex|e] s']; cbn.
  - destruct HA as (-> & Hkv & Hlast & Hle & Hf). split; [done|]. split; [by rewrite Hkv|].
    split; [by rewrite Hlast, Hlen, Elen|]. by split.
  - destruct HA as (Hlast & Hkv & Hwhy). rewrite Eb in Hkv. split; [done|]. split; [done|].
    rewrite (li_collides _ _ _ _ HI) in Hwhy. destruct Hwhy as [?|[?|Hci]]; [done|by left|].
    destruct (decide (first = store_last_applied s + 1)) as [Hfirst|]; [|by auto].
    destruct (decide (store_last_applied s + #cs <= INT64_MAX)); [|right; right; lia].
    rewrite check_indices_complete in Hci; [done| |lia].
    intros i mu Hi. apply (li_indices _ _ _ _ HI) in Hi. lia.
Qed.
End Batch.
