(* ===== verification/KVTheorems.v ===== *)
(** The state machine's theorems: batches are sequential application, a crash
    keeps the data and the applied index together, a retry is answered once,
    snapshots round-trip, and where the snapshot decoder reads out of bounds. *)
From stdpp Require Import base numbers strings sorting gmap list.
From S2P Require Import Prelude Effects Text Storage Resp Command KVStore KVStateMachine KVProofs.

(** * The content up to the applied marker *)

Definition same_data : relation (gmap bytes bytes) := fun m m' =>
  forall k, k <> AppliedKey -> m !! k = m' !! k.

#[export] Instance same_data_equiv : Equivalence same_data.
Proof.
  split; [by intros m k|by intros m m' E k Hk; rewrite E|].
  intros m1 m2 m3 E1 E2 k Hk. rewrite E1 by done. by apply E2.
Qed.
#[export] Instance insert_same_data k v : Proper (same_data ==> same_data) (<[k := v]>).
Proof.
  intros m m' E k' Hk'. destruct (decide (k = k')) as [->|]; [by rewrite !lookup_insert_eq|].
  rewrite !lookup_insert_ne by done. by apply E.
Qed.
#[export] Instance delete_same_data k : Proper (same_data ==> same_data) (delete k).
Proof.
  intros m m' E k' Hk'. destruct (decide (k = k')) as [->|]; [by rewrite !lookup_delete_eq|].
  rewrite !lookup_delete_ne by done. by apply E.
Qed.
Lemma insert_marker_same v m : same_data (<[AppliedKey := v]> m) m.
Proof. intros k Hk. by apply lookup_insert_ne. Qed.

#[export] Instance session_of_same_data : Proper (same_data ==> eq ==> eq) session_of.
Proof. intros m m' E c ? <-. apply session_of_lookup, E, ClientSessionKey_applied. Qed.

Lemma del_reply_same_data m m' key : user_key key = true -> same_data m m' -> del_reply m key = del_reply m' key.
Proof. intros Hu E. unfold del_reply. by rewrite (E key (user_key_applied key Hu)). Qed.

(** Client commands see only the data. *)
Lemma kv_step_same_data m m' c :
  user_command c = true -> same_data m m' ->
  same_data (kv_step m c).1 (kv_step m' c).1 /\ (kv_step m c).2 = (kv_step m' c).2.
Proof.
  intros Hu E. destruct c as [|key value|key|client id key value]; cbn [kv_step user_command fst snd] in *.
  - done.
  - split; [by rewrite E|done].
  - split; [by rewrite E|by apply del_reply_same_data].
  - rewrite (session_of_same_data m m' E client client eq_refl). destruct (_ <? _); [done|]. destruct (_ =? _); [done|].
    destruct value as [v|]; cbn.
    + split; [by rewrite E|done].
    + rewrite (del_reply_same_data _ _ _ Hu E). split; [by rewrite E|done].
Qed.

Lemma kv_run_same_data m m' cs :
  forallb user_command cs = true -> same_data m m' ->
  same_data (kv_run m cs).1 (kv_run m' cs).1 /\ (kv_run m cs).2 = (kv_run m' cs).2.
Proof.
  revert m m'. induction cs as [|c cs IH]; intros m m' Hu E; [done|]. cbn [forallb kv_run] in *.
  apply andb_true_iff in Hu as [Hu Hus]. destruct (kv_step_same_data m m' c Hu E) as [E1 Er].
  destruct (kv_step m c) as [m1 r1], (kv_step m' c) as [m1' r1']. cbn in E1, Er. subst r1'.
  destruct (IH m1 m1' Hus E1) as [E2 Ers].
  destruct (kv_run m1 cs), (kv_run m1' cs). cbn in *. by subst.
Qed.

Lemma kv_run_app m cs1 cs2 :
  kv_run m (cs1 ++ cs2) = ((kv_run (kv_run m cs1).1 cs2).1, (kv_run m cs1).2 ++ (kv_run (kv_run m cs1).1 cs2).2).
Proof.
  revert m. induction cs1 as [|c cs1 IH]; intros m; cbn [app kv_run fst snd]; [by destruct (kv_run m cs2)|].
  destruct (kv_step m c) as [m1 r]. rewrite IH. by destruct (kv_run m1 cs1); cbn [fst snd app].
Qed.

Lemma kv_run_sessions_ok m cs :
  sessions_ok m -> forallb user_command cs = true -> sessions_ok (kv_run m cs).1.
Proof.
  revert m. induction cs as [|c cs IH]; intros m Hs Hu; [done|]. cbn [forallb kv_run] in *.
  apply andb_true_iff in Hu as [Hu Hus]. pose proof (kv_step_sessions_ok m c Hs Hu) as H1.
  destruct (kv_step m c) as [m1 r]. specialize (IH m1 H1 Hus). by destruct (kv_run m1 cs).
Qed.

Lemma sessions_ok_same_data m m' : same_data m m' -> sessions_ok m -> sessions_ok m'.
Proof. intros E Hs c raw. rewrite <- (E _ (ClientSessionKey_applied c)). apply Hs. Qed.

Lemma mapM_app_Some {A B} (f : A -> option B) l1 l2 k :
  mapM f (l1 ++ l2) = Some k -> exists k1 k2, k = k1 ++ k2 /\ mapM f l1 = Some k1 /\ mapM f l2 = Some k2.
Proof.
  intros (k1 & k2 & H1 & H2 & ->)%mapM_Some%Forall2_app_inv_l.
  exists k1, k2. by split_and!; [|apply mapM_Some..].
Qed.

Section Theorems.
Context `{RocksDBSpec}.
Implicit Types s : RocksDBStore.

(** * Batches *)

(** What [RaftNode::ApplyCommitted] does over time: each batch starts after the
    last applied index. *)
Fixpoint run_batches (batches : list (list bytes)) : M RocksDBStore (list bytes) :=
  match batches with
  | [] => mret []
  | batch :: batches =>
      last ← gets store_last_applied;
      replies ← sm_ApplyBatch (last + 1) batch;
      rest ← run_batches batches;
      mret (replies ++ rest)
  end.

Lemma batch_content_same s cs : same_data (batch_content s cs) (kv_run (kv s) cs).1.
Proof. apply insert_marker_same. Qed.

Lemma sm_ApplyBatch_nil first s : sm_ApplyBatch first [] s = (Ok [], s).
Proof. reflexivity. Qed.

Lemma batch_content_synced s cs s' :
  cs <> [] -> 0 <= store_last_applied s -> store_last_applied s + #cs <= INT64_MAX ->
  kv s' = batch_content s cs -> store_last_applied s' = store_last_applied s + #cs -> synced s'.
Proof.
  intros Hne H0' Hle Hkv Hlast. split; [rewrite Hlast; lia|]. left.
  unfold kv in *. rewrite Hkv, Hlast. apply lookup_insert_eq.
Qed.

(** C28. How committed commands are grouped into batches is invisible. On a
    store without faults, every grouping succeeds, returns the replies of the
    commands run one at a time, leaves the content they lead to, and advances
    the applied index by their number. *)
Theorem batches_are_sequential (batches : list (list bytes)) (cs : list kv_command) s :
  faultless (store_db s) -> synced s -> sessions_ok (kv s) ->
  mapM decode_command (concat batches) = Some cs -> forallb user_command cs = true ->
  store_last_applied s + #cs <= INT64_MAX ->
  exists s', run_batches batches s = (Ok (kv_run (kv s) cs).2, s') /\
    same_data (kv s') (kv_run (kv s) cs).1 /\ store_last_applied s' = store_last_applied s + #cs /\
    synced s' /\ faultless (store_db s').
Proof.
  revert cs s. induction batches as [|b batches IH]; intros cs s Hf Hsy Hs Ecs Hu Hmax; cbn [concat run_batches] in *.
  { injection Ecs as <-. exists s. cbn. rewrite Z.add_0_r. done. }
  apply mapM_app_Some in Ecs as (cs1 & cs2 & -> & Ecs1 & Ecs2).
  rewrite forallb_app in Hu. apply andb_true_iff in Hu as [Hu1 Hu2]. rewrite length_app in Hmax.
  assert (exists s1, sm_ApplyBatch (store_last_applied s + 1) b s = (Ok (kv_run (kv s) cs1).2, s1) /\
    same_data (kv s1) (kv_run (kv s) cs1).1 /\ store_last_applied s1 = store_last_applied s + #cs1 /\
    synced s1 /\ faultless (store_db s1)) as (s1 & E1 & Hd1 & Hl1 & Hsy1 & Hf1).
  { destruct b as [|command b]; [injection Ecs1 as <-; exists s; cbn; by rewrite Z.add_0_r|].
    pose proof (sm_ApplyBatch_spec (store_last_applied s + 1) (command :: b) cs1 s ltac:(done) Hs Ecs1 Hu1) as HB.
    destruct (sm_ApplyBatch _ _ s) as [[replies|e] s1].
    - destruct HB as (-> & Hkv & Hl & _ & Hf'). exists s1. split; [done|].
      split; [rewrite Hkv; apply batch_content_same|]. split; [done|]. split; [|by apply Hf'].
      apply (batch_content_synced s cs1); [|apply Hsy|lia|done|done].
      intros ->. apply mapM_length in Ecs1. done.
    - destruct HB as (_ & _ & [?|[?|?]]); [done|done|lia]. }
  rewrite M_bind_unfold. cbn [gets]. rewrite (M_bind_ok _ _ _ _ _ E1).
  assert (sessions_ok (kv s1)) as Hs1.
  { eapply sessions_ok_same_data; [symmetry; exact Hd1|]. by apply kv_run_sessions_ok. }
  destruct (IH cs2 s1) as (s2 & E2 & Hd2 & Hl2 & Hsy2 & Hf2); [done..|lia|].
  rewrite (M_bind_ok _ _ _ _ _ E2).
  destruct (kv_run_same_data _ _ cs2 Hu2 Hd1) as [Hd Er]. exists s2. rewrite kv_run_app. cbn.
  rewrite <- Er. split; [done|]. split; [by etrans|]. rewrite length_app. split; [lia|done].
Qed.

(** C29. A batch moves the data and the applied index together, whatever the
    storage engine reports. After any outcome the database holds the old
    content with the old index or the new content with the new index, and a
    store reopened on it (if it can be read) resumes at that index. A batch
    with a command the state machine does not know changes nothing. *)
Theorem batch_is_atomic (commands : list bytes) s :
  synced s -> sessions_ok (kv s) -> commands <> [] ->
  forallb user_command (omap decode_command commands) = true ->
  let s' := (sm_ApplyBatch (store_last_applied s + 1) commands s).2 in
  let reopened := store_Open OK (blank_store (store_db s')) in
  (kv s' = kv s /\ (is_ok reopened.1 = true -> store_last_applied reopened.2 = store_last_applied s)) \/
  (exists cs, mapM decode_command commands = Some cs /\ kv s' = batch_content s cs /\
    (store_last_applied s + #cs <= INT64_MAX -> is_ok reopened.1 = true ->
     store_last_applied reopened.2 = store_last_applied s + #cs)).
Proof.
  intros Hsy Hs Hne Hu. cbv zeta.
  assert (forall s1 last, synced (mkRocksDBStore (store_db s1) last) ->
    is_ok (store_Open OK (blank_store (store_db s1))).1 = true ->
    store_last_applied (store_Open OK (blank_store (store_db s1))).2 = last) as Hopen.
  { intros s1 last H1 Hok. destruct (store_Open_synced _ H1) as [E|[[e E] _]]; cbn in E; rewrite E in *; done. }
  assert (forall s1, kv s1 = kv s -> synced (mkRocksDBStore (store_db s1) (store_last_applied s))) as Hold.
  { intros s1 E. destruct Hsy as [Hr Hm]. unfold synced, kv in *. cbn. by rewrite E. }
  destruct (mapM decode_command commands) as [cs|] eqn:Ecs.
  2: { left. unfold sm_ApplyBatch. rewrite M_bind_unfold.
       destruct (apply_commands_invalid commands (MkLocals [] [] ∅ ∅ (store_last_applied s + 1)) s Ecs) as [e ->].
       cbn [snd]. split; [done|]. apply (Hopen s _ (Hold s eq_refl)). }
  assert (omap decode_command commands = cs) as Eo.
  { clear -Ecs. revert cs Ecs. induction commands as [|c l IH]; cbn; [by intros cs [= <-]|].
    intros cs. destruct (decode_command c) as [x|]; [|done]. cbn.
    destruct (mapM decode_command l) as [k|]; [|done]. cbn. intros [= <-]. f_equal. by apply IH. }
  rewrite Eo in Hu.
  pose proof (sm_ApplyBatch_spec (store_last_applied s + 1) commands cs s Hne Hs Ecs Hu) as HB.
  destruct (sm_ApplyBatch _ commands s) as [r s1]. cbn [snd].
  assert (kv s1 = kv s \/ kv s1 = batch_content s cs) as [Hkv|Hkv] by (destruct r; naive_solver).
  - left. split; [done|]. apply (Hopen s1 _ (Hold s1 Hkv)).
  - right. exists cs. split; [done|]. split; [done|]. intros Hmax. apply Hopen.
    apply (batch_content_synced s cs); [|apply Hsy|done|done|done].
    intros ->. apply mapM_length in Ecs. by destruct commands.
Qed.

(** * Retries *)

(** The commands between the two deliveries: client [client] sends nothing newer. *)
Definition not_newer (client : bytes) (id : Z) (c : kv_command) : bool :=
  match c with CIdemp c' id' _ _ => negb (bool_decide (c' = client)) || (id' <=? id) | _ => true end.

Lemma session_after_request m client id key value :
  0 <= id <= UINT64_MAX -> sr_request_id (session_of m client) < id ->
  let c := CIdemp client id key value in
  session_of (kv_step m c).1 client = MkSessionRecord id (kv_step m c).2.
Proof.
  intros Hid Hlt c. unfold c. cbn [kv_step]. destruct (Z.ltb_spec id (sr_request_id (session_of m client))); [lia|].
  destruct (Z.eqb_spec id (sr_request_id (session_of m client))); [lia|].
  destruct value; cbn [fst snd]; by apply session_of_encoded.
Qed.

Lemma session_kept m client id reply c :
  session_of m client = MkSessionRecord id reply -> user_command c = true -> not_newer client id c = true ->
  session_of (kv_step m c).1 client = MkSessionRecord id reply.
Proof.
  intros Hr Hu Hn. assert (forall m', m' !! ClientSessionKey client = m !! ClientSessionKey client ->
    session_of m' client = MkSessionRecord id reply) as Hkeep.
  { intros m' E. by rewrite (session_of_lookup _ _ _ E). }
  destruct c as [|key value|key|client' id' key value]; cbn [kv_step user_command fst snd] in *; [done| | |].
  - apply Hkeep, lookup_insert_ne. by apply user_key_session.
  - apply Hkeep, lookup_delete_ne. by apply user_key_session.
  - destruct (Z.ltb_spec id' (sr_request_id (session_of m client'))); [done|].
    destruct (Z.eqb_spec id' (sr_request_id (session_of m client'))); [done|].
    cbn in Hn. destruct (decide (client' = client)) as [->|Hne].
    { rewrite Hr in *. rewrite bool_decide_eq_true_2 in Hn by done. cbn in *. apply Z.leb_le in Hn. lia. }
    assert (ClientSessionKey client' <> ClientSessionKey client) by (intros E; by apply ClientSessionKey_inj in E).
    destruct value; cbn [fst]; apply Hkeep; rewrite lookup_insert_ne by done;
      [apply lookup_insert_ne|apply lookup_delete_ne]; by apply user_key_session.
Qed.

Lemma session_kept_run m client id reply cs :
  session_of m client = MkSessionRecord id reply -> forallb user_command cs = true ->
  forallb (not_newer client id) cs = true ->
  session_of (kv_run m cs).1 client = MkSessionRecord id reply.
Proof.
  revert m. induction cs as [|c cs IH]; intros m Hr Hu Hn; [done|]. cbn [forallb kv_run] in *.
  apply andb_true_iff in Hu as [Hu Hus], Hn as [Hn Hns].
  pose proof (session_kept m client id reply c Hr Hu Hn) as H1. destruct (kv_step m c) as [m1 r].
  specialize (IH m1 H1 Hus Hns). by destruct (kv_run m1 cs).
Qed.

(** C30. Exactly once. A request of a client that was first applied in one batch, with
    any number of other commands after it in which the client sent nothing newer, and
    that is delivered again in the next batch, gets the reply of its first application
    and changes no data. *)
Theorem retry_is_answered_once command client id key value mid cs_mid s r1 s1 r2 s2 :
  sessions_ok (kv s) -> decode_command command = Some (CIdemp client id key value) ->
  user_key key = true -> sr_request_id (session_of (kv s) client) < id ->
  mapM decode_command mid = Some cs_mid -> forallb user_command cs_mid = true ->
  forallb (not_newer client id) cs_mid = true ->
  sm_ApplyBatch (store_last_applied s + 1) (command :: mid) s = (Ok r1, s1) ->
  sm_ApplyBatch (store_last_applied s1 + 1) [command] s1 = (Ok r2, s2) ->
  head r2 = head r1 /\ same_data (kv s2) (kv s1).
Proof.
  intros Hs Ec Hk Hlt Em Hu Hn E1 E2. set (c := CIdemp client id key value) in *.
  assert (mapM decode_command (command :: mid) = Some (c :: cs_mid)) as Ecs by (cbn; by rewrite Ec; cbn; rewrite Em).
  assert (forallb user_command (c :: cs_mid) = true) as Hu1 by (cbn; by rewrite Hk).
  pose proof (sm_ApplyBatch_spec (store_last_applied s + 1) (command :: mid) _ s ltac:(done) Hs Ecs Hu1) as B1.
  rewrite E1 in B1. destruct B1 as (-> & Hkv1 & _).
  assert (session_of (kv s1) client = MkSessionRecord id (kv_step (kv s) c).2) as Hsess.
  { rewrite Hkv1. rewrite (session_of_same_data _ _ (batch_content_same s (c :: cs_mid)) client client eq_refl).
    pose proof (decode_command_id _ _ _ _ _ Ec).
    pose proof (session_after_request (kv s) client id key value ltac:(lia) Hlt) as HA. cbn zeta in HA. fold c in HA.
    cbn [kv_run]. destruct (kv_step (kv s) c) as [m1 r] eqn:Es. cbn [fst snd] in *.
    pose proof (session_kept_run m1 client id r cs_mid HA Hu Hn) as HK. by destruct (kv_run m1 cs_mid). }
  assert (sessions_ok (kv s1)) as Hs1.
  { rewrite Hkv1. eapply sessions_ok_same_data; [symmetry; apply batch_content_same|]. by apply kv_run_sessions_ok. }
  pose proof (sm_ApplyBatch_spec (store_last_applied s1 + 1) [command] [c] s1 ltac:(done) Hs1
    ltac:(cbn; by rewrite Ec) ltac:(cbn; by rewrite Hk)) as B2.
  rewrite E2 in B2. destruct B2 as (-> & Hkv2 & _).
  assert (kv_step (kv s1) c = (kv s1, (kv_step (kv s) c).2)) as Estep.
  { unfold c at 1. cbn [kv_step]. rewrite Hsess. cbn. rewrite Z.ltb_irrefl, Z.eqb_refl. done. }
  split.
  - cbn [kv_run]. rewrite Estep. destruct (kv_step (kv s) c) as [m1 r]. by destruct (kv_run m1 cs_mid).
  - rewrite Hkv2. etrans; [apply batch_content_same|]. cbn [kv_run]. by rewrite Estep.
Qed.
End Theorems.

Module KVWitness.
Import MemDB.
Definition set_a : bytes := SerializeCommand [lit "SET"; lit "ns:a"; lit "1"].
Definition del_a : bytes := SerializeCommand [lit "DEL"; lit "ns:a"].
Definition once : bytes := SerializeCommand [lit "IDEMP"; lit "client"; lit "5"; lit "DEL"; lit "ns:a"].
Definition start : RocksDBStore := mkRocksDBStore (fresh ∅) 0.
Definition decoded (commands : list bytes) : list kv_command := omap decode_command commands.

Lemma start_synced : synced start.
Proof. split; [by vm_compute|]. by right. Qed.
Lemma start_sessions : sessions_ok (kv start).
Proof. intros c raw E. done. Qed.

Lemma batches_are_sequential_witness :
  exists s', run_batches [[set_a; once]; []; [once; del_a]] start
             = (Ok [reply_ok; reply_1; reply_1; reply_0], s') /\ store_last_applied s' = 4.
Proof.
  destruct (batches_are_sequential [[set_a; once]; []; [once; del_a]] (decoded [set_a; once; once; del_a]) start)
    as (s' & E & _ & El & _).
  - by vm_compute.
  - apply start_synced.
  - apply start_sessions.
  - by vm_compute.
  - by vm_compute.
  - by vm_compute.
  - exists s'. split; [rewrite E; do 2 f_equal; by vm_compute|rewrite El; by vm_compute].
Defined.

Definition broken : RocksDBStore :=
  mkRocksDBStore {| mem := ∅; write_faults := [Some true]; readable := true |} 0.
Lemma batch_is_atomic_witness :
  let s' := (sm_ApplyBatch 1 [set_a] broken).2 in
  kv s' = kv broken \/ exists cs, mapM decode_command [set_a] = Some cs /\ kv s' = batch_content broken cs.
Proof.
  destruct (batch_is_atomic [set_a] broken) as [[H _]|(cs & H1 & H2 & _)].
  - split; [by vm_compute|]. by right.
  - by intros c raw E.
  - done.
  - by vm_compute.
  - by left.
  - right. exists cs. by split.
Defined.

Definition after_first : RocksDBStore := (sm_ApplyBatch 1 [once; set_a] start).2.
Lemma retry_is_answered_once_witness :
  head [reply_0] = head [reply_0; reply_ok] /\
  same_data (kv (sm_ApplyBatch 3 [once] after_first).2) (kv after_first).
Proof.
  apply (retry_is_answered_once once (lit "client") 5 (lit "ns:a") None [set_a] (decoded [set_a]) start
           [reply_0; reply_ok] after_first [reply_0]).
  - apply start_sessions.
  - by vm_compute.
  - by vm_compute.
  - by vm_compute.
  - by vm_compute.
  - by vm_compute.
  - by vm_compute.
  - apply run_ok. by vm_compute.
  - apply run_ok. by vm_compute.
Defined.
End KVWitness.
