(* ===== verification/KVSnapshot.v ===== *)
(** The key/value snapshot encoding: it round-trips, the decoder accepts only
    encodings, a transfer carries the content over, and the inputs on which the
    decoder reads past the end of the message are characterized. *)
From stdpp Require Import base numbers strings sorting gmap list.
From S2P Require Import Prelude Effects Text Storage KVStore KVStateMachine KVProofs KVTheorems.

(** * The encoding *)

Definition entry_bytes (e : bytes * bytes) : bytes :=
  be_put 4 #e.1 ++ e.1 ++ be_put 4 #e.2 ++ e.2.
Definition entries_bytes (l : list (bytes * bytes)) : bytes := concat (entry_bytes <$> l).

Definition entry_size_ok (e : bytes * bytes) : Prop := #e.1 <= UINT32_MAX /\ #e.2 <= UINT32_MAX.
(** Keys whose length plus four still fits 32 bits. *)
Definition key_size_ok (e : bytes * bytes) : Prop := #e.1 + 4 <= UINT32_MAX.

Lemma AppendU32_small out v : 0 <= v <= UINT32_MAX -> AppendU32 out v = out ++ be_put 4 v.
Proof. unfold AppendU32, UINT32_MAX. intros Hv. by rewrite uN_small by lia. Qed.

Lemma export_entries_spec entries out bs :
  export_entries entries out = Ok bs <-> Forall entry_size_ok entries /\ bs = out ++ entries_bytes entries.
Proof.
  revert out. induction entries as [|[k v] l IH]; intros out; cbn [export_entries].
  { unfold entries_bytes. cbn. rewrite app_nil_r. split; [intros [= <-]; by repeat constructor|by intros [_ ->]]. }
  rewrite Forall_cons. unfold entry_size_ok at 1. cbn [fst snd].
  destruct (Z.ltb_spec UINT32_MAX #k); cbn [orb]; [naive_solver lia|].
  destruct (Z.ltb_spec UINT32_MAX #v); [naive_solver lia|].
  rewrite IH, !AppendU32_small by lia. unfold entries_bytes. cbn [fmap list_fmap concat].
  unfold entry_bytes at 2. cbn [fst snd]. rewrite <- !app_assoc. naive_solver.
Qed.

Lemma encode_snapshot_spec entries bs :
  encode_snapshot entries = Ok bs <->
  #entries <= UINT32_MAX /\ Forall entry_size_ok entries /\ bs = be_put 4 #entries ++ entries_bytes entries.
Proof.
  unfold encode_snapshot. destruct (Z.ltb_spec UINT32_MAX #entries); [naive_solver lia|].
  rewrite export_entries_spec, AppendU32_small by lia. naive_solver.
Qed.

(** * Reading *)

Lemma ReadU32_at pre v rest :
  0 <= v <= UINT32_MAX -> ReadU32 (pre ++ be_put 4 v ++ rest) #pre = Ok v.
Proof.
  unfold UINT32_MAX. intros Hv. unfold ReadU32. rewrite !length_app, length_be_put.
  rewrite (proj2 (Z.leb_le _ _)) by lia. rewrite Nat2Z.id, drop_app_length.
  rewrite take_app_exact by apply length_be_put. rewrite be_get_put by lia. f_equal. apply Z.mod_small. lia.
Qed.

Lemma ReadU32_inv bs off v :
  0 <= off -> ReadU32 bs off = Ok v ->
  off + 4 <= #bs /\ 0 <= v <= UINT32_MAX /\
  drop (Z.to_nat off) bs = be_put 4 v ++ drop (Z.to_nat (off + 4)) bs.
Proof.
  unfold ReadU32. intros Hoff. destruct (Z.leb_spec (off + 4) #bs); [|done]. intros [= <-].
  set (l := take 4 (drop (Z.to_nat off) bs)).
  assert (length l = 4%nat) as Hl by (unfold l; rewrite length_take, length_drop; lia).
  rewrite be_get_val by lia. pose proof (be_val_range l) as Hr. rewrite Hl in Hr.
  change (2 ^ (8 * Z.of_nat 4)) with 4294967296 in Hr. unfold UINT32_MAX.
  split; [done|]. split; [lia|]. pose proof (be_put_val l) as E. rewrite Hl in E. rewrite E. unfold l.
  rewrite Z2Nat.inj_add by lia. rewrite <- drop_drop. by rewrite take_drop.
Qed.

Lemma ReadU32_fails bs off e : 0 <= off -> ReadU32 bs off = Err e -> e = OutOfBounds /\ #bs < off + 4.
Proof. unfold ReadU32. intros _. destruct (Z.leb_spec (off + 4) #bs); [done|]. by intros [= <-]. Qed.

Lemma drop_split {A} a n (l : list A) :
  0 <= a -> 0 <= n -> drop (Z.to_nat a) l = take (Z.to_nat n) (drop (Z.to_nat a) l) ++ drop (Z.to_nat (a + n)) l.
Proof. intros Ha Hn. rewrite Z2Nat.inj_add by lia. rewrite <- drop_drop. by rewrite take_drop. Qed.

Lemma decode_entries_encoded l pre rest :
  Forall entry_size_ok l -> Forall key_size_ok l ->
  decode_entries (length l) (pre ++ entries_bytes l ++ rest) #pre = Ok (l, #(pre ++ entries_bytes l)).
Proof.
  intros Hl Hk. revert pre. induction l as [|[k v] l IH]; intros pre; cbn [length decode_entries].
  { unfold entries_bytes. cbn. by rewrite app_nil_r. }
  apply Forall_cons in Hl as [[Hk' Hv'] Hl], Hk as [Hk1 Hk]. unfold key_size_ok, UINT32_MAX in *. cbn [fst snd] in *.
  assert (entries_bytes ((k, v) :: l) = be_put 4 #k ++ k ++ be_put 4 #v ++ v ++ entries_bytes l) as E.
  { unfold entries_bytes. cbn. unfold entry_bytes. cbn. by rewrite <- !app_assoc. }
  rewrite E. rewrite <- !app_assoc.
  rewrite (proj2 (Z.ltb_ge _ 4)) by (rewrite !length_app, length_be_put; lia).
  rewrite ReadU32_at by (unfold UINT32_MAX; lia). cbn [mbind result_bind].
  rewrite uN_small by lia.
  rewrite (proj2 (Z.ltb_ge _ (#k + 4))) by (rewrite !length_app, !length_be_put; lia).
  set (bs := pre ++ _).
  assert (forall p q, bs = p ++ q -> forall z, z = #p -> drop (Z.to_nat z) bs = q) as Hdrop.
  { intros p q -> z ->. rewrite Nat2Z.id. apply drop_app_length. }
  rewrite (Hdrop (pre ++ be_put 4 #k) (k ++ be_put 4 #v ++ v ++ entries_bytes l ++ rest));
    [|unfold bs; by rewrite <- !app_assoc|rewrite length_app, length_be_put; lia].
  rewrite Nat2Z.id, take_app_length.
  assert (bs = (pre ++ be_put 4 #k ++ k) ++ be_put 4 #v ++ v ++ entries_bytes l ++ rest) as Ebs
    by (unfold bs; by rewrite <- !app_assoc).
  replace (#pre + 4 + #k) with (#(pre ++ be_put 4 #k ++ k)) by (rewrite !length_app, length_be_put; lia).
  rewrite Ebs at 1. rewrite ReadU32_at by (unfold UINT32_MAX; lia). cbn [mbind result_bind].
  rewrite (proj2 (Z.ltb_ge _ #v)) by (rewrite Ebs, !length_app, !length_be_put; lia).
  rewrite (Hdrop ((pre ++ be_put 4 #k ++ k) ++ be_put 4 #v) (v ++ entries_bytes l ++ rest));
    [|rewrite Ebs; by rewrite <- !app_assoc|rewrite !length_app, !length_be_put; lia].
  rewrite Nat2Z.id, take_app_length.
  specialize (IH Hl Hk ((pre ++ be_put 4 #k ++ k) ++ be_put 4 #v ++ v)).
  replace (((pre ++ be_put 4 #k ++ k) ++ be_put 4 #v ++ v) ++ entries_bytes l ++ rest) with bs in IH
    by (rewrite Ebs; by rewrite <- !app_assoc).
  replace (#(pre ++ be_put 4 #k ++ k) + 4 + #v) with (#((pre ++ be_put 4 #k ++ k) ++ be_put 4 #v ++ v))
    by (rewrite !length_app, !length_be_put; lia).
  rewrite IH. cbn. rewrite <- !app_assoc. done.
Qed.

(** The converse: what the decoder accepted is the encoding of the result. *)
Lemma decode_entries_inv n bs off l off' :
  0 <= off <= #bs -> decode_entries n bs off = Ok (l, off') ->
  length l = n /\ Forall entry_size_ok l /\ off <= off' <= #bs /\
  drop (Z.to_nat off) bs = entries_bytes l ++ drop (Z.to_nat off') bs.
Proof.
  revert off l. induction n as [|n IH]; intros off l Hoff; cbn [decode_entries].
  { intros [= <- <-]. split_and!; (done || lia || constructor). }
  destruct (Z.ltb_spec (#bs - off) 4); [done|].
  destruct (ReadU32 bs off) as [klen|e] eqn:EK; [|done]. cbn [mbind result_bind].
  apply ReadU32_inv in EK as (Hk1 & Hk2 & EK); [|lia].
  destruct (Z.ltb_spec (#bs - (off + 4)) (uN 32 (klen + 4))); [done|].
  destruct (ReadU32 bs (off + 4 + klen)) as [vlen|e] eqn:EV; [|done]. cbn [mbind result_bind].
  apply ReadU32_inv in EV as (Hv1 & Hv2 & EV); [|lia].
  destruct (Z.ltb_spec (#bs - (off + 4 + klen + 4)) vlen); [done|].
  destruct (decode_entries n bs (off + 4 + klen + 4 + vlen)) as [[l' off1]|e] eqn:ER; [|done].
  intros [= <- <-]. apply IH in ER as (Hlen & Hall & Hoff' & ED); [|lia].
  set (key := take _ (drop (Z.to_nat (off + 4)) bs)). set (value := take _ _).
  assert (#key = klen) as Ekey by (unfold key; rewrite length_take, length_drop; lia).
  assert (#value = vlen) as Evalue by (unfold value; rewrite length_take, length_drop; lia).
  split; [simpl; by rewrite Hlen|]. split; [constructor; [split; cbn; lia|done]|]. split; [lia|].
  unfold entries_bytes. cbn [fmap list_fmap concat]. fold (entries_bytes l').
  unfold entry_bytes. cbn [fst snd]. rewrite Ekey, Evalue, EK.
  rewrite (drop_split (off + 4) klen bs) by lia. fold key. rewrite EV.
  rewrite (drop_split (off + 4 + klen + 4) vlen bs) by lia. fold value.
  rewrite ED. by rewrite <- !app_assoc.
Qed.

Lemma decode_snapshot_inv bs entries : decode_snapshot bs = Ok entries -> encode_snapshot entries = Ok bs.
Proof.
  unfold decode_snapshot. destruct (Z.ltb_spec #bs 4); [done|].
  destruct (ReadU32 bs 0) as [count|e] eqn:EC; [|done]. cbn [mbind result_bind].
  apply ReadU32_inv in EC as (_ & Hc & EC); [|lia].
  destruct (decode_entries (Z.to_nat count) bs 4) as [[l off]|e] eqn:ED; [|done]. cbn [mbind result_bind fst snd].
  destruct (Z.eqb_spec off #bs) as [->|]; [|done]. intros [= ->].
  apply decode_entries_inv in ED as (Hlen & Hall & _ & ED); [|lia].
  rewrite Nat2Z.id, drop_all, app_nil_r in ED. change (Z.to_nat (0 + 4)) with (Z.to_nat 4) in EC. rewrite ED in EC.
  apply encode_snapshot_spec. split; [lia|]. split; [done|]. change (drop (Z.to_nat 0) bs) with bs in EC.
  rewrite EC. f_equal. f_equal. lia.
Qed.

Lemma decode_snapshot_encoded entries bs :
  encode_snapshot entries = Ok bs -> Forall key_size_ok entries -> decode_snapshot bs = Ok entries.
Proof.
  intros (Hn & Hall & ->)%encode_snapshot_spec Hk. unfold decode_snapshot.
  rewrite (proj2 (Z.ltb_ge _ _)) by (rewrite length_app, length_be_put; lia).
  pose proof (ReadU32_at [] #entries (entries_bytes entries) ltac:(lia)) as ER.
  cbn [app length] in ER. change (Z.of_nat 0) with 0 in ER. rewrite ER. cbn [mbind result_bind]. rewrite Nat2Z.id.
  pose proof (decode_entries_encoded entries (be_put 4 #entries) [] Hall Hk) as ED.
  rewrite app_nil_r, length_be_put in ED. change (Z.of_nat 4) with 4 in ED. rewrite ED.
  cbn [mbind result_bind fst snd]. by rewrite Z.eqb_refl.
Qed.

(** * Theorems *)

(** C31. The snapshot format is exact in both directions: the decoder gives
    back the entries an export wrote, and whatever bytes it accepts are the
    export of the entries it returns, so no entry is lost, duplicated or
    invented by damaged or padded bytes. *)
Theorem snapshot_format_is_exact (entries : list (bytes * bytes)) (bs : bytes) :
  Forall key_size_ok entries ->
  decode_snapshot bs = Ok entries <-> encode_snapshot entries = Ok bs.
Proof. intros Hk. split; [apply decode_snapshot_inv|]. intros E. by apply decode_snapshot_encoded. Qed.

Section Transfer.
Context `{RocksDBSpec}.

(** C32. Installing the snapshot exported by another store makes the content
    equal to that store's, sets the applied index, and runs the caller's hook
    (the durable redo record) before the store changes; a refused or failed
    installation that did not reach the final write leaves the store alone. *)
Theorem snapshot_transfer_copies {X} (source target : RocksDBStore) (x : X)
    (hook : M X unit) (index : Z) (bs : bytes) :
  (ExportSnapshot source).1 = Ok bs -> Forall key_size_ok (map_to_list (kv source)) ->
  match sm_InstallSnapshot index bs hook (target, x) with
  | (Ok _, (target', x')) =>
      same_data (kv target') (kv source) /\ kv target' !! AppliedKey = Some (marker index) /\
      store_last_applied target' = index /\ store_last_applied target <= index /\ hook x = (Ok tt, x')
  | (Err _, (target', x')) =>
      store_last_applied target' = store_last_applied target /\
      (target' = target \/
       (hook x = (Ok tt, x') /\ ~ faultless (store_db target) /\
        (kv target' = kv target \/ same_data (kv target') (kv source))))
  end /\
  (faultless (store_db target) -> store_last_applied target <= index -> is_ok (hook x).1 = true ->
   is_ok (sm_InstallSnapshot index bs hook (target, x)).1 = true).
Proof.
  intros HE Hk. unfold ExportSnapshot in HE. rewrite M_bind_unfold in HE.
  pose proof (ExportEntries_spec source) as HX.
  destruct (ExportEntries source) as [[entries|e] s1]; [|done]. cbn in HE.
  destruct HX as (-> & Hnd & Hmap & _).
  assert (forall k v, (k, v) ∈ entries -> kv source !! k = Some v /\ k <> AppliedKey) as Hin.
  { intros k v Hkv. apply (elem_of_list_to_map (M:=gmap bytes)) in Hkv; [|done].
    rewrite Hmap in Hkv. by apply lookup_delete_Some in Hkv as [? ?]. }
  assert (decode_snapshot bs = Ok entries) as HD.
  { apply decode_snapshot_encoded; [done|]. rewrite Forall_forall in *. intros [k v] [Hkv _]%Hin.
    by apply Hk, elem_of_map_to_list. }
  assert (same_data (snapshot_result index entries) (kv source)) as Hsame.
  { unfold snapshot_result. etrans; [apply insert_marker_same|]. rewrite entries_map_nodup, Hmap by done.
    intros k Hne. by apply lookup_delete_ne. }
  unfold sm_InstallSnapshot. rewrite M_bind_unfold, HD. cbn [lift_result].
  pose proof (ReplaceAll_spec index entries hook target x) as HR.
  destruct (ReplaceAll index entries hook (target, x)) as [[u|e] [target' x']]; split; cbn.
  - destruct HR as (Hle & _ & Hkv & Hl & Hh & _). rewrite Hkv. split; [done|].
    split; [apply lookup_insert_eq|]. done.
  - done.
  - destruct HR as (Hl & HR). split; [done|].
    destruct HR as [(-> & _)|[(-> & _)|(Hh & Hf & [Hkv|Hkv])]]; [by left..| |]; right; rewrite Hkv; auto.
  - intros Hf Hle Hok. exfalso.
    destruct HR as (_ & [(_ & _ & [?|[Ha|?]])|[(_ & e' & Hh)|(_ & ? & _)]]); [lia| |done| |done].
    + apply list_elem_of_fmap in Ha as ([k v] & Ek & [_ Hne]%Hin). by destruct Hne.
    + by rewrite Hh in Hok.
Qed.
End Transfer.

(** * The unchecked sum *)

(** Entry [n] after the one at [first] starts at [off]; the ones before it are complete. *)
Fixpoint entry_at (n : nat) (bs : bytes) (first off : Z) : Prop :=
  match n with
  | O => off = first
  | S n => exists key_len value_len, ReadU32 bs first = Ok key_len /\ ReadU32 bs (first + 4 + key_len) = Ok value_len /\
      first + 4 + key_len + 4 + value_len <= #bs /\ entry_at n bs (first + 4 + key_len + 4 + value_len) off
  end.

(** The entry at [off] announces a key so long that its length plus four wraps; what is
    left of the message is no less than the wrapped sum, and less than the sum. *)
Definition key_wraps (bs : bytes) (off : Z) : Prop :=
  exists key_len, ReadU32 bs off = Ok key_len /\ UINT32_MAX < key_len + 4 /\
    key_len + 4 - (UINT32_MAX + 1) <= #bs - (off + 4) < key_len + 4.

Lemma wrapped_sum v : 0 <= v <= UINT32_MAX ->
  uN 32 (v + 4) = if decide (v + 4 <= UINT32_MAX) then v + 4 else v + 4 - (UINT32_MAX + 1).
Proof.
  unfold UINT32_MAX. intros Hv. destruct (decide _); [apply uN_small; lia|]. unfold uN.
  rewrite <- (Z.mod_unique (v + 4) (2 ^ 32) 1 (v + 4 - 2 ^ 32)); lia.
Qed.

Lemma key_wraps_oob n bs off : 0 <= off -> key_wraps bs off -> decode_entries (S n) bs off = Err OutOfBounds.
Proof.
  intros Hoff (klen & EK & Hk & Hroom). pose proof (ReadU32_inv _ _ _ Hoff EK) as (Hb & Hr & _). cbn [decode_entries].
  destruct (Z.ltb_spec (#bs - off) 4); [lia|]. rewrite EK. cbn [mbind result_bind]. rewrite wrapped_sum by done.
  destruct (decide _); [lia|]. rewrite (proj2 (Z.ltb_ge _ _)) by lia.
  unfold ReadU32. by rewrite (proj2 (Z.leb_gt _ _)) by lia.
Qed.

(** A complete entry is passed. *)
Lemma complete_entry_oob n bs off key_len value_len :
  0 <= off -> ReadU32 bs off = Ok key_len -> ReadU32 bs (off + 4 + key_len) = Ok value_len ->
  off + 4 + key_len + 4 + value_len <= #bs ->
  decode_entries (S n) bs off = Err OutOfBounds <-> decode_entries n bs (off + 4 + key_len + 4 + value_len) = Err OutOfBounds.
Proof.
  intros Hoff EK EV Hb. pose proof (ReadU32_inv _ _ _ Hoff EK) as (Hk1 & Hk & _).
  pose proof (ReadU32_inv bs (off + 4 + key_len) _ ltac:(lia) EV) as (_ & Hv & _). cbn [decode_entries].
  destruct (Z.ltb_spec (#bs - off) 4); [lia|]. rewrite EK. cbn [mbind result_bind]. rewrite wrapped_sum by done.
  rewrite (proj2 (Z.ltb_ge _ _)) by (unfold UINT32_MAX in *; destruct (decide _); lia).
  rewrite EV. cbn [mbind result_bind]. rewrite (proj2 (Z.ltb_ge _ _)) by lia.
  destruct (decode_entries n bs _) as [[l off']|e]; cbn; [done|]. split; by intros [= ->].
Qed.

Lemma decode_entries_oob n bs off :
  0 <= off <= #bs -> decode_entries n bs off = Err OutOfBounds <-> exists k off', (k < n)%nat /\ entry_at k bs off off' /\ key_wraps bs off'.
Proof.
  revert off. induction n as [|n IH]; intros off Hoff.
  { split; [done|]. intros (k & off' & ? & _). lia. }
  split.
  - intros E. assert (key_wraps bs off \/ exists klen vlen, ReadU32 bs off = Ok klen /\ ReadU32 bs (off + 4 + klen) = Ok vlen /\
      off + 4 + klen + 4 + vlen <= #bs /\ 0 <= klen /\ 0 <= vlen) as [Hw|(klen & vlen & EK & EV & Hb & Hk & Hv)].
    { revert E. cbn [decode_entries]. destruct (Z.ltb_spec (#bs - off) 4); [done|]. destruct (ReadU32 bs off) as [klen|e] eqn:EK.
      2: { apply ReadU32_fails in EK; lia. }
      cbn [mbind result_bind]. pose proof (ReadU32_inv bs off _ ltac:(lia) EK) as (_ & Hk & _). rewrite wrapped_sum by done.
      destruct (Z.ltb_spec (#bs - (off + 4)) (if decide (klen + 4 <= UINT32_MAX) then klen + 4 else klen + 4 - (UINT32_MAX + 1))) as [|Hroom]; [done|].
      destruct (ReadU32 bs (off + 4 + klen)) as [vlen|e] eqn:EV; cbn [mbind result_bind].
      - pose proof (ReadU32_inv bs (off + 4 + klen) _ ltac:(lia) EV) as (_ & Hv & _).
        destruct (Z.ltb_spec (#bs - (off + 4 + klen + 4)) vlen); [done|]. intros _. right. exists klen, vlen. split_and!; (done || lia).
      - intros _. left. exists klen. apply ReadU32_fails in EV as [_ EV]; [|lia]. destruct (decide _); [lia|]. split; [done|lia]. }
    + exists 0%nat, off. split; [lia|done].
    + apply (complete_entry_oob n bs off klen vlen) in E; [|done||lia..]. apply IH in E as (k & off' & Hk' & He & Hw); [|lia].
      exists (S k), off'. split; [lia|]. split; [|done]. by exists klen, vlen.
  - intros ([|k] & off' & Hk & He & Hw).
    + cbn in He. subst off'. apply key_wraps_oob; [lia|done].
    + destruct He as (klen & vlen & EK & EV & Hb & He). pose proof (ReadU32_inv bs off _ ltac:(lia) EK) as (_ & Hk1 & _).
      pose proof (ReadU32_inv bs (off + 4 + klen) _ ltac:(lia) EV) as (_ & Hv1 & _).
      apply (complete_entry_oob n bs off klen vlen); [lia|done..|]. apply IH; [lia|]. exists k, off'. split; [lia|done].
Qed.

Lemma decode_snapshot_oob bs :
  decode_snapshot bs = Err OutOfBounds <->
  exists count n off, ReadU32 bs 0 = Ok count /\ Z.of_nat n < count /\ entry_at n bs 4 off /\ key_wraps bs off.
Proof.
  unfold decode_snapshot. destruct (Z.ltb_spec #bs 4).
  { split; [done|]. intros (count & n & off & (? & _)%ReadU32_inv & _); lia. }
  destruct (ReadU32 bs 0) as [count|e] eqn:EC; [|apply ReadU32_fails in EC; lia]. cbn [mbind result_bind].
  pose proof (decode_entries_oob (Z.to_nat count) bs 4 ltac:(lia)) as HO.
  assert (forall n off, Z.of_nat n < count -> entry_at n bs 4 off /\ key_wraps bs off -> decode_entries (Z.to_nat count) bs 4 = Err OutOfBounds) as HW.
  { intros n off Hn Hx. apply HO. exists n, off. split; [lia|done]. }
  split.
  - destruct (decode_entries (Z.to_nat count) bs 4) as [[l off]|e]; cbn [mbind result_bind]; [by case_match|].
    intros [= ->]. destruct (proj1 HO eq_refl) as (n & off & Hn & Hx). exists count, n, off. split; [done|]. split; [lia|done].
  - intros (c & n & off & [= <-] & Hn & Hx). by rewrite (HW n off Hn Hx).
Qed.

(** C33. The decoder reads past the end of a snapshot exactly when one of the entries the
    message counts, all those before it being complete, has a key-length field within
    four of 2^32, so that [key_len + 4] wraps in 32 bits, and what is left of the message
    after that field is no less than the wrapped sum, which passes the truncation test,
    and less than the sum.  No other read, of a value or of its length, leaves the
    message.  For instance, every message of one such entry that is shorter than it
    announces makes the decoder do so, as do the eight bytes of an entry with [key_len]
    2^32 - 4 and nothing after it. *)
Theorem snapshot_decoder_bounds (bs rest : bytes) (key_len : Z) :
  (decode_snapshot bs = Err OutOfBounds <->
   exists count n off, ReadU32 bs 0 = Ok count /\ Z.of_nat n < count /\ entry_at n bs 4 off /\ key_wraps bs off) /\
  (UINT32_MAX - 3 <= key_len <= UINT32_MAX ->
   key_len + 4 - (UINT32_MAX + 1) <= #rest < key_len + 4 ->
   decode_snapshot (be_put 4 1 ++ be_put 4 key_len ++ rest) = Err OutOfBounds).
Proof.
  split; [apply decode_snapshot_oob|]. intros Hk Hrest. apply decode_snapshot_oob. exists 1, 0%nat, 4.
  split; [apply (ReadU32_at [] 1 (be_put 4 key_len ++ rest)); unfold UINT32_MAX; lia|]. split; [lia|]. split; [done|].
  exists key_len. pose proof (ReadU32_at (be_put 4 1) key_len rest) as E. rewrite length_be_put in E.
  split; [apply E; unfold UINT32_MAX in *; lia|]. rewrite !length_app, !length_be_put. lia.
Qed.

Module SnapshotWitness.
Import MemDB.
Lemma snapshot_decoder_bounds_witness :
  decode_snapshot (be_put 4 1 ++ be_put 4 4294967292 ++ []) = Err OutOfBounds.
Proof. apply (snapshot_decoder_bounds [] [] 4294967292); unfold UINT32_MAX; simpl; lia. Defined.

Definition entries : list (bytes * bytes) := [(lit "ns:a", lit "1"); (lit "ns:b", [])].
Definition source : RocksDBStore := mkRocksDBStore (fresh (list_to_map entries)) 7.
Definition target : RocksDBStore := mkRocksDBStore (fresh {[lit "ns:c" := lit "old"]}) 3.
Definition encoded : bytes :=
  match encode_snapshot entries with Ok bs => bs | Err _ => [] end.

#[local] Instance key_size_dec e : Decision (key_size_ok e).
Proof. unfold key_size_ok. apply _. Defined.

Lemma snapshot_format_is_exact_witness :
  decode_snapshot encoded = Ok entries <-> encode_snapshot entries = Ok encoded.
Proof. apply (snapshot_format_is_exact entries encoded). apply (bool_decide_unpack _). by vm_compute. Defined.

Lemma snapshot_transfer_copies_witness :
  same_data (kv (sm_InstallSnapshot 9 encoded (mret tt : M unit unit) (target, tt)).2.1) (kv source).
Proof.
  assert (is_ok (sm_InstallSnapshot 9 encoded (mret tt : M unit unit) (target, tt)).1 = true) as Hok by by vm_compute.
  pose proof (snapshot_transfer_copies source target tt (mret tt : M unit unit) 9 encoded
    ltac:(by vm_compute) ltac:(apply (bool_decide_unpack _); by vm_compute)) as [H _].
  destruct (sm_InstallSnapshot 9 encoded _ (target, tt)) as [[u|e] [t x]]; [|done]. apply H.
Defined.
End SnapshotWitness.
