(* ===== verification/KVReplay.v ===== *)
(** The content of the store as a function of the log: replaying a log, and the
    snapshots of a replay.

    [replay P] is the content after the commands of the entries [P], one at a time.
    A batch extends a replay ([apply_replays]), an exported snapshot is a function
    of it ([snapshot_of]) and installing one restores it ([install_replays]). *)
From stdpp Require Import base numbers strings sorting gmap list.
From S2P Require Import Prelude Effects Text Storage Messages Resp Command KVStore KVStateMachine KVProofs KVTheorems KVSnapshot.

(** * Replay *)

(** A command the server may propose: it parses, and its key is a client's. *)
Definition valid_command (c : bytes) : bool :=
  match decode_command c with Some k => user_command k | None => false end.
Definition well_formed (P : list LogEntry) : Prop := Forall (fun e => valid_command (command e) = true) P.

Definition commands_of (P : list LogEntry) : list kv_command := omap decode_command (command <$> P).
Definition replay (P : list LogEntry) : gmap bytes bytes := (kv_run ∅ (commands_of P)).1.
(** The replies to the entries [es] after [P]. *)
Definition replies (P es : list LogEntry) : list bytes := (kv_run (replay P) (commands_of es)).2.

Lemma commands_of_app P Q : commands_of (P ++ Q) = commands_of P ++ commands_of Q.
Proof. unfold commands_of. by rewrite fmap_app, omap_app. Qed.

Lemma replay_app P Q : replay (P ++ Q) = (kv_run (replay P) (commands_of Q)).1.
Proof. unfold replay. by rewrite commands_of_app, kv_run_app. Qed.

Lemma well_formed_decodes P :
  well_formed P -> mapM decode_command (command <$> P) = Some (commands_of P) /\ forallb user_command (commands_of P) = true.
Proof.
  unfold well_formed, commands_of, valid_command. induction 1 as [|e P He _ [IH1 IH2]]; [done|]. cbn.
  destruct (decode_command (command e)) as [k|]; [|done]. rewrite IH1. cbn. by rewrite He.
Qed.

Lemma empty_sessions_ok : sessions_ok ∅.
Proof. intros c raw. by rewrite lookup_empty. Qed.

Lemma replay_sessions_ok P : well_formed P -> sessions_ok (replay P).
Proof. intros [_ Hu]%well_formed_decodes. by apply kv_run_sessions_ok; [apply empty_sessions_ok|]. Qed.

Lemma kv_run_length m cs : length (kv_run m cs).2 = length cs.
Proof.
  revert m. induction cs as [|c cs IH]; intros m; [done|]. cbn. destruct (kv_step m c) as [m1 r].
  specialize (IH m1). destruct (kv_run m1 cs). cbn in *. by rewrite IH.
Qed.

Lemma commands_of_length P : well_formed P -> length (commands_of P) = length P.
Proof. intros [E _]%well_formed_decodes. apply mapM_length in E. by rewrite length_fmap in E. Qed.

(** The reply to the entry at a position. *)
Lemma replies_lookup P es1 e es2 :
  well_formed (es1 ++ e :: es2) -> replies P (es1 ++ e :: es2) !! length es1 = replies (P ++ es1) [e] !! 0%nat.
Proof.
  intros W. unfold replies. rewrite commands_of_app, kv_run_app, replay_app. cbn [snd]. apply Forall_app in W as [W1 W2].
  rewrite lookup_app_r by (rewrite kv_run_length, commands_of_length; done). rewrite kv_run_length, commands_of_length, Nat.sub_diag by done.
  change (e :: es2) with ([e] ++ es2). rewrite commands_of_app, kv_run_app. cbn [snd].
  apply lookup_app_l. rewrite kv_run_length, commands_of_length; [cbn; lia|]. apply Forall_cons in W2 as [? _]. by constructor.
Qed.

(** * What the state machine has applied *)

Section Applied.
Context `{RocksDBSpec}.
Implicit Types s : RocksDBStore.

Lemma apply_idempotent_index l parts s mu r ses s' :
  apply_idempotent l parts s = (Ok (mu, r, ses), s') -> m_index mu = lo_index l.
Proof.
  unfold apply_idempotent. destruct (ic_valid _); [|done]. cbn [negb].
  intros (record & s1 & _ & E)%M_bind_ok_inv. cbn zeta in E.
  destruct (_ <? _); [by injection E as <-|]. destruct (_ =? _); [by injection E as <-|].
  case_bool_decide; [by injection E as <-|]. apply M_bind_ok_inv in E as (there & s2 & _ & E). by injection E as <-.
Qed.

Lemma apply_command_index command l s l' s' :
  apply_command command l s = (Ok l', s') ->
  exists mu, lo_mutations l' = lo_mutations l ++ [mu] /\ (lo_mutations l = [] -> m_index mu = lo_index l).
Proof.
  unfold apply_command. intros (index & s1 & E1 & E)%M_bind_ok_inv.
  assert (lo_mutations l = [] -> index = lo_index l) as Hi.
  { intros En. rewrite bool_decide_eq_true_2 in E1 by done. by injection E1 as <-. }
  cbn [lo_sessions lo_present lo_mutations lo_replies] in E.
  apply M_bind_ok_inv in E as ([[mu r] ses] & s2 & E & E'). injection E' as <- <-. cbn. exists mu. split; [done|]. intros En.
  rewrite <- (Hi En). clear E1 Hi En. case_bool_decide; [by injection E as <-|]. destruct (_ || _); [done|].
  destruct (bool_decide (_ = lit "SET") && _); [by injection E as <-|].
  destruct (bool_decide (_ = lit "DEL") && _); [by injection E as <-|]. case_bool_decide; [|done].
  by apply apply_idempotent_index in E.
Qed.

Lemma apply_commands_index commands l s l' s' :
  apply_commands commands l s = (Ok l', s') ->
  exists mus, lo_mutations l' = lo_mutations l ++ mus /\ length mus = length commands /\
    (lo_mutations l = [] -> forall mu, head mus = Some mu -> m_index mu = lo_index l).
Proof.
  revert l s. induction commands as [|c commands IH]; intros l s; cbn [apply_commands].
  - intros [= <- <-]. exists []. by rewrite app_nil_r.
  - intros (l1 & s1 & (mu & E1 & Hmu)%apply_command_index & (mus & E2 & Hlen & _)%IH)%M_bind_ok_inv.
    exists (mu :: mus). rewrite E2, E1, <- app_assoc. split; [done|]. split; [cbn; lia|].
    intros En mu' [= <-]. by apply Hmu.
Qed.

Lemma apply_commands_pure commands l : evolves (@eq RocksDBStore) (apply_commands commands l).
Proof.
  revert l. induction commands as [|c commands IH]; intros l; cbn [apply_commands]; [apply evolves_ret; apply _|].
  apply evolves_bind; [apply _|apply apply_command_pure|apply IH].
Qed.

(** The store as a restart would find it. *)
Definition stored_applied s (n : Z) : Prop := synced (mkRocksDBStore (store_db s) n).

Lemma synced_stored s : synced s -> stored_applied s (store_last_applied s).
Proof. unfold stored_applied. by destruct s. Qed.

Lemma sm_ApplyBatch_applied first commands s :
  synced s ->
  match sm_ApplyBatch first commands s with
  | (Ok results, s') => synced s' /\ store_last_applied s' = store_last_applied s + #commands /\
      (commands <> [] -> first = store_last_applied s + 1)
  | (Err _, s') => (stored_applied s' (store_last_applied s) /\ kv s' = kv s) \/
      (stored_applied s' (store_last_applied s + #commands) /\ first = store_last_applied s + 1 /\
       kv s' !! AppliedKey = Some (marker (store_last_applied s + #commands)))
  end.
Proof.
  intros Hs. unfold sm_ApplyBatch. rewrite M_bind_unfold.
  pose proof (apply_commands_pure commands (MkLocals [] [] ∅ ∅ first) s) as Hp.
  destruct (apply_commands commands _ s) as [[l|e] s1] eqn:E; cbn in Hp; subst s1; [|left; split; [by apply synced_stored|done]].
  apply apply_commands_index in E as (mus & El & Hlen & Hhd). cbn in El, Hhd. rewrite M_bind_unfold, El.
  destruct mus as [|mu mus].
  { cbn. destruct commands; [|done]. split; [done|]. split; [cbn; lia|done]. }
  specialize (Hhd eq_refl mu eq_refl). pose proof (store_ApplyBatch_spec (mu :: mus) s ltac:(done)) as HB.
  destruct (check_indices (store_last_applied s) (mu :: mus)) as [last|e] eqn:EC.
  - assert (first = store_last_applied s + 1) as Hf.
    { cbn in EC. destruct (_ || _) eqn:Eo; [done|]. apply orb_false_iff in Eo as [_ Eo].
      apply negb_false_iff, Z.eqb_eq in Eo. congruence. }
    apply check_indices_spec in EC as [El' Hle]. destruct Hs as [Hr Hk]. rewrite Hlen in *.
    assert (forall s', store_last_applied s + #commands <= INT64_MAX -> kv s' = batch_result s (mu :: mus) ->
      stored_applied s' (store_last_applied s + #commands)) as Hst.
    { intros s' Hm Ekv. split; cbn; [lia|]. left. unfold kv in *. cbn. rewrite Ekv. unfold batch_result.
      rewrite Hlen. apply lookup_insert_eq. }
    specialize (Hle ltac:(lia)).
    destruct (store_ApplyBatch (mu :: mus) s) as [[ex|e] s'].
    + destruct HB as (_ & Ekv & Ela & _ & _). cbn. split; [|by split].
      specialize (Hst s' ltac:(lia) Ekv). rewrite <- Ela in Hst. by destruct s'.
    + destruct HB as (Ela & [Ekv|Ekv] & _); cbn.
      * left. split; [|done]. split; cbn; [done|]. unfold kv in *. cbn. by rewrite Ekv.
      * right. split; [by apply Hst; [lia|]|]. split; [done|]. rewrite Ekv. unfold batch_result. rewrite Hlen. apply lookup_insert_eq.
  - unfold store_ApplyBatch. rewrite bool_decide_eq_false_2 by done. rewrite !M_bind_unfold. cbn [gets].
    rewrite M_bind_unfold, EC. cbn. left. split; [by apply synced_stored|done].
Qed.



Lemma marker_inj i j : 0 <= i <= INT64_MAX -> 0 <= j <= INT64_MAX -> marker i = marker j -> i = j.
Proof. intros Hi Hj E. rewrite <- (marker_value i), <- (marker_value j) by done. by rewrite E. Qed.

(** A batch of the entries after [P] extends the replay of [P], or nothing
    happened, whatever the storage does. *)
Lemma apply_replays first P es s :
  synced s -> same_data (kv s) (replay P) -> well_formed P -> well_formed es -> es <> [] ->
  match sm_ApplyBatch first (command <$> es) s with
  | (Ok rs, s') => synced s' /\ store_last_applied s' = store_last_applied s + #es /\ first = store_last_applied s + 1 /\
      same_data (kv s') (replay (P ++ es)) /\ rs = replies P es
  | (Err _, s') => (stored_applied s' (store_last_applied s) /\ same_data (kv s') (replay P)) \/
      (stored_applied s' (store_last_applied s + #es) /\ first = store_last_applied s + 1 /\
       same_data (kv s') (replay (P ++ es)))
  end.
Proof.
  intros Hs HD WP We Hne. destruct (well_formed_decodes es We) as [Ed Hu].
  assert (command <$> es <> []) as Hne' by (by destruct es).
  assert (same_data (batch_content s (commands_of es)) (replay (P ++ es))) as HB.
  { etrans; [apply batch_content_same|]. rewrite replay_app. by apply kv_run_same_data. }
  pose proof (sm_ApplyBatch_applied first (command <$> es) s Hs) as HA.
  pose proof (sm_ApplyBatch_spec first _ _ s Hne' (sessions_ok_same_data _ _ (symmetry HD) (replay_sessions_ok P WP)) Ed Hu) as HS.
  rewrite length_fmap in HA. destruct (sm_ApplyBatch first _ s) as [[rs|e] s'].
  - destruct HA as (? & ? & ?), HS as (Er & Ek & _). split_and!; auto; [by rewrite Ek|]. rewrite Er. by apply kv_run_same_data.
  - destruct HA as [[HA Ek]|(HA & Hf & Em)]; [left; by rewrite Ek|]. right. split; [done|]. split; [done|].
    destruct HS as (_ & [Ek|Ek] & _); [|by rewrite Ek]. exfalso. rewrite Ek in Em. destruct Hs as [Hr [Hm|[Hm _]]]; rewrite Hm in Em.
    + apply (inj Some), marker_inj in Em; [|done|apply HA]. destruct es; [done|]. cbn in Em. lia.
    + by rewrite lookup_empty in Em.
Qed.
End Applied.

(** * Snapshots *)

(** [d] is the snapshot of the content [P] leads to. *)
Definition snapshot_of (P : list LogEntry) (d : bytes) : Prop :=
  exists l, NoDup l.*1 /\ StronglySorted key_lt l /\ list_to_map l = delete AppliedKey (replay P) /\ encode_snapshot l = Ok d.

Lemma key_lt_asymm x y : key_lt x y -> key_lt y x -> x = y.
Proof.
  unfold key_lt. intros H1 H2. exfalso. pose proof (bytes_ltb_trans _ _ _ H1 H2) as H3. by rewrite bytes_ltb_irrefl in H3.
Qed.

Lemma snapshot_of_unique P d d' : snapshot_of P d -> snapshot_of P d' -> d = d'.
Proof.
  intros (l & N & So & E & En) (l' & N' & So' & E' & En').
  assert (l = l') as ->; [|congruence]. apply (StronglySorted_unique_strong key_lt); [|done..|].
  - intros x1 x2 _ _. apply key_lt_asymm.
  - rewrite <- (map_to_list_to_map l), <- (map_to_list_to_map l') by done. by rewrite E, E'.
Qed.

Section Snapshots.
Context `{RocksDBSpec}.
Implicit Types s : RocksDBStore.

Lemma export_replays P s : same_data (kv s) (replay P) ->
  match ExportSnapshot s with (Ok d, s') => s' = s /\ snapshot_of P d | (Err _, s') => s' = s end.
Proof.
  intros HD. unfold ExportSnapshot. rewrite M_bind_unfold. pose proof (ExportEntries_spec s) as E.
  destruct (ExportEntries s) as [[l|e] s']; [|by destruct E]. destruct E as (-> & N & E & So).
  cbn. destruct (encode_snapshot l) as [d|e] eqn:En; cbn; [|done]. split; [done|]. exists l. split; [done|]. split; [done|]. split; [|done].
  rewrite E. apply map_eq. intros k. destruct (decide (k = AppliedKey)) as [->|Hk]; [by rewrite !lookup_delete_eq|].
  rewrite !lookup_delete_ne by done. by apply HD.
Qed.

Lemma entries_bytes_bound l e : e ∈ l -> #e.1 + 8 <= #(entries_bytes l).
Proof.
  unfold entries_bytes. induction l as [|x l IH]; [by intros ?%not_elem_of_nil|]. cbn. rewrite length_app.
  intros [->|He]%elem_of_cons; [|apply IH in He; lia]. unfold entry_bytes. rewrite !length_app, !length_be_put. lia.
Qed.

(** A snapshot that fits decodes to the entries of the content. *)
Lemma snapshot_decodes P d : snapshot_of P d -> #d <= UINT32_MAX ->
  exists l, decode_snapshot d = Ok l /\ (AppliedKey ∉ l.*1) /\ forall i, same_data (snapshot_result i l) (replay P).
Proof.
  intros (l & N & So & E & En) Hd. exists l. split; [|split].
  - apply decode_snapshot_encoded; [done|]. apply encode_snapshot_spec in En as (_ & _ & ->). rewrite length_app in Hd.
    apply Forall_forall. intros e He. pose proof (entries_bytes_bound l e He). unfold key_size_ok. lia.
  - intros Hin. apply list_elem_of_fmap in Hin as ([k v] & Ek & Hin). cbn in Ek. subst k.
    apply (elem_of_list_to_map (M:=gmap bytes)) in Hin; [|done]. rewrite E, lookup_delete_eq in Hin. done.
  - intros i. etrans; [apply insert_marker_same|]. rewrite entries_map_nodup, E by done. intros k Hk. by apply lookup_delete_ne.
Qed.
End Snapshots.
