(* ===== verification/Namespace.v ===== *)
(** Namespaces (src/src/namespace/namespace_manager.cc): every client connection
    has one, and its name and a colon prefix the keys the connection uses; and the
    log commands [SubmitWrite] (src/src/server/main.cpp) makes of a client's write. *)
From stdpp Require Import base numbers strings gmap list.
From S2P Require Import Prelude Effects Text Resp Command Session KVProofs KVReplay.

(** * NamespaceManager *)

Definition kDefaultNs : bytes := lit "default".
Definition kSep : Byte.byte := Byte.x3a.

Definition in_range (lo hi : Z) (c : Byte.byte) : bool := (lo <=? Z_of_byte c) && (Z_of_byte c <=? hi).

(** [a-z], [A-Z], [0-9], underscore or dash. *)
Definition name_char (c : Byte.byte) : bool :=
  in_range 97 122 c || in_range 65 90 c || in_range 48 57 c || bool_decide (c = Byte.x5f) || bool_decide (c = Byte.x2d).

Definition IsValidName (name : bytes) : bool :=
  if bool_decide (name = []) || (63 <? #name) then false else forallb name_char name.

(** The map from connection names to namespaces. *)
Definition NamespaceManager : Type := gmap bytes bytes.

Definition SetNs (conn_name ns : bytes) (m : NamespaceManager) : NamespaceManager := <[conn_name := ns]> m.
Definition GetNs (conn_name : bytes) (m : NamespaceManager) : bytes := default kDefaultNs (m !! conn_name).
Definition MakeKey (conn_name raw_key : bytes) (m : NamespaceManager) : bytes := GetNs conn_name m ++ kSep :: raw_key.
Definition Remove (conn_name : bytes) (m : NamespaceManager) : NamespaceManager := delete conn_name m.

(** The arguments [SubmitWrite] serializes; the classification has made the index
    valid. *)
Definition namespaced (conn_name : bytes) (m : NamespaceManager) (args : list bytes) : list bytes :=
  let key_index := WriteKeyIndex args in
  <[key_index := MakeKey conn_name (arg args key_index) m]> args.

(** * Isolation *)

(** Every namespace was accepted by [SELECT]. *)
Definition names_ok (m : NamespaceManager) : Prop := map_Forall (fun _ ns => IsValidName ns = true) m.

Lemma IsValidName_chars name : IsValidName name = true -> name <> [] /\ Forall (fun c => name_char c = true) name.
Proof.
  unfold IsValidName. destruct (_ || _) eqn:E; [done|]. apply orb_false_iff in E as [E%bool_decide_eq_false_1 _].
  intros H. split; [done|]. by apply forallb_Forall.
Qed.

Lemma GetNs_valid c m : names_ok m -> IsValidName (GetNs c m) = true.
Proof. intros Hm. unfold GetNs. destruct (m !! c) eqn:E; cbn; [by eapply Hm|done]. Qed.

Lemma name_char_sep : name_char kSep = false.
Proof. by vm_compute. Qed.
Lemma name_char_zero : name_char Byte.x00 = false.
Proof. by vm_compute. Qed.

(** A separator after text without it splits in one way. *)
Lemma split_at_sep (x : Byte.byte) (a b r s : bytes) :
  Forall (fun c => c <> x) a -> Forall (fun c => c <> x) b -> a ++ x :: r = b ++ x :: s -> a = b /\ r = s.
Proof.
  revert b. induction a as [|c a IH]; intros [|d b] Ha Hb; cbn; intros E; simplify_eq.
  - done.
  - by apply Forall_cons in Hb as [? _].
  - by apply Forall_cons in Ha as [? _].
  - apply Forall_cons in Ha as [_ Ha], Hb as [_ Hb]. destruct (IH b Ha Hb) as [-> ->]; done.
Qed.

Lemma valid_no_sep name : IsValidName name = true -> Forall (fun c => c <> kSep) name.
Proof.
  intros [_ H]%IsValidName_chars. eapply Forall_impl; [exact H|]. intros c Hc ->. by rewrite name_char_sep in Hc.
Qed.

(** What the connections of the server do to the manager: [SELECT], which tests the
    name, and disconnecting. *)
Inductive ns_op := Select (conn name : bytes) | Disconnect (conn : bytes).
Definition ns_do (m : NamespaceManager) (op : ns_op) : NamespaceManager :=
  match op with
  | Select conn name => if IsValidName name then SetNs conn name m else m
  | Disconnect conn => Remove conn m
  end.

Lemma ns_do_ok m op : names_ok m -> names_ok (ns_do m op).
Proof.
  intros Hm. destruct op as [conn name|conn]; cbn.
  - destruct (IsValidName name) eqn:E; [|done]. by apply map_Forall_insert_2.
  - by apply map_Forall_delete.
Qed.

Lemma ns_run_ok ops : names_ok (foldl ns_do ∅ ops).
Proof.
  induction ops as [|op ops IH] using rev_ind; [by apply map_Forall_empty|]. rewrite foldl_app. by apply ns_do_ok.
Qed.

Lemma MakeKey_user c k m : names_ok m -> user_key (MakeKey c k m) = true.
Proof.
  intros Hm. unfold MakeKey, user_key. destruct (IsValidName_chars _ (GetNs_valid c m Hm)) as [Hne Hc].
  destruct (GetNs c m) as [|x ns]; [done|]. apply Forall_cons in Hc as [Hc _]. cbn.
  rewrite bool_decide_eq_false_2; [done|]. intros [= ->]. by rewrite name_char_zero in Hc.
Qed.

(** C40. Namespaces are isolated: however connections selected their namespaces, the
    stored keys of two requests are equal exactly when the namespaces and the keys the
    clients gave are, and no stored key collides with the state machine's own, which
    start with a zero byte. *)
Theorem namespaces_isolate_keys ops c1 c2 k1 k2 :
  let m := foldl ns_do ∅ ops in
  (MakeKey c1 k1 m = MakeKey c2 k2 m <-> GetNs c1 m = GetNs c2 m /\ k1 = k2) /\
  user_key (MakeKey c1 k1 m) = true.
Proof.
  intros m. pose proof (ns_run_ok ops) as Hm. fold m in Hm. split; [|by apply MakeKey_user].
  split; [|unfold MakeKey; by intros [-> ->]]. apply split_at_sep; by apply valid_no_sep, GetNs_valid.
Qed.

(** * Writes *)

(** The command of the arguments of a write; [in_ns] is the key it is stored under. *)
Definition write_command (in_ns : bytes -> bytes) (args : list bytes) : option kv_command :=
  if bool_decide (arg args 0 = lit "SET") then Some (CSet (in_ns (arg args 1)) (arg args 2))
  else if bool_decide (arg args 0 = lit "DEL") then Some (CDel (in_ns (arg args 1)))
  else
    let i := ParseIdempotentCommand args in
    Some (CIdemp (ic_client_id i) (ic_request_id i) (in_ns (ic_key i))
            (if bool_decide (ic_op i = lit "SET") then Some (ic_value i) else None)).

(** What the classification says of a write's arguments. *)
Inductive write_shape : list bytes -> Prop :=
  | shape_set k v : write_shape [lit "SET"; k; v]
  | shape_del k : write_shape [lit "DEL"; k]
  | shape_idemp c id op k rest :
      ic_valid (ParseIdempotentCommand (lit "IDEMP" :: c :: id :: op :: k :: rest)) = true ->
      write_shape (lit "IDEMP" :: c :: id :: op :: k :: rest).

Lemma idemp_length args : ic_valid (ParseIdempotentCommand args) = true -> length args = 5%nat \/ length args = 6%nat.
Proof.
  unfold ParseIdempotentCommand. destruct (_ || _); [done|]. destruct (_ && _) eqn:E; [done|]. intros _.
  apply andb_false_iff in E as [E|E]; apply bool_decide_eq_false_1 in E; lia.
Qed.

Lemma write_is_shaped args : cc_type (ClassifyCommand args) = WRITE -> write_shape args.
Proof.
  destruct args as [|op args]; [done|]. unfold ClassifyCommand. change (arg (op :: args) 0) with op. cbn [length].
  rewrite bool_decide_eq_false_2 by done.
  destruct (bool_decide (op = lit "SET")) eqn:Es; cbn [andb].
  { apply bool_decide_eq_true_1 in Es as ->. destruct args as [|k [|v [|]]]; cbn; try done. intros _. constructor. }
  destruct (bool_decide (op = lit "DEL")) eqn:Ed; cbn [andb].
  { apply bool_decide_eq_true_1 in Ed as ->. destruct args as [|k [|]]; cbn; try done. intros _. constructor. }
  destruct (bool_decide (op = lit "IDEMP")) eqn:Ei; cbn [andb].
  { apply bool_decide_eq_true_1 in Ei as ->. destruct (ic_valid _) eqn:Ev; [|done]. intros _. pose proof (idemp_length _ Ev) as Hl.
    destruct args as [|c [|id [|o [|k rest]]]]; cbn in Hl; try lia. by constructor. }
  repeat (case_match; cbn; try done).
Qed.

(** The key is a parameter of an idempotent command. *)
Lemma idemp_key c id op k k' rest :
  let i := ParseIdempotentCommand (lit "IDEMP" :: c :: id :: op :: k :: rest) in
  let i' := ParseIdempotentCommand (lit "IDEMP" :: c :: id :: op :: k' :: rest) in
  ic_valid i = true -> i' = MkIdempotentCommand true (ic_client_id i) (ic_request_id i) (ic_op i) k' (ic_value i) (ic_error i) /\ ic_key i = k.
Proof.
  unfold ParseIdempotentCommand, arg. cbn [length lookup list_lookup default from_option].
  repeat (case_match; cbn; try done).
Qed.

Lemma decode_serialized args :
  args <> [] -> #args <= kMaxArguments -> #(SerializeCommand args) <= kMaxCommandBytes -> write_shape args ->
  decode_command (SerializeCommand args) = write_command id args.
Proof.
  intros Hne Hn Hb Hs. unfold decode_command. rewrite bool_decide_eq_false_2 by done.
  pose proof (TryParseOne_SerializeCommand args [] Hne Hn Hb) as HT. rewrite app_nil_r in HT. rewrite HT. cbn [pr_state pr_consumed pr_args].
  rewrite bool_decide_eq_true_2, Nat.eqb_refl by done. cbn [andb].
  destruct Hs as [k v|k|c i op k rest Hv]; [done|done|]. unfold write_command.
  change (UpperCommand (arg (lit "IDEMP" :: c :: i :: op :: k :: rest) 0)) with (lit "IDEMP").
  change (arg (lit "IDEMP" :: c :: i :: op :: k :: rest) 0) with (lit "IDEMP").
  rewrite (bool_decide_eq_false_2 (lit "IDEMP" = lit "SET")), (bool_decide_eq_false_2 (lit "IDEMP" = lit "DEL")) by done.
  rewrite (bool_decide_eq_true_2 (lit "IDEMP" = lit "IDEMP")) by done. cbn [andb]. by rewrite Hv.
Qed.

(** Prefixing the key keeps the shape, and is what it does to the command. *)
Lemma namespaced_shape conn m args :
  write_shape args -> write_shape (namespaced conn m args) /\
    write_command id (namespaced conn m args) = write_command (fun k => MakeKey conn k m) args.
Proof.
  intros [k v|k|c i op k rest Hv].
  - split; [apply shape_set|done].
  - split; [apply shape_del|done].
  - change (namespaced conn m (lit "IDEMP" :: c :: i :: op :: k :: rest))
      with (lit "IDEMP" :: c :: i :: op :: MakeKey conn k m :: rest).
    destruct (idemp_key c i op k (MakeKey conn k m) rest Hv) as [E Ek]. split; [constructor; by rewrite E|].
    unfold write_command. rewrite E, Ek. done.
Qed.

Lemma write_command_user conn m args c :
  names_ok m -> write_command (fun k => MakeKey conn k m) args = Some c -> user_command c = true.
Proof.
  intros Hm. unfold write_command. assert (forall k, user_key (MakeKey conn k m) = true) as Hk by (intros; by apply MakeKey_user).
  repeat case_match; intros [= <-]; apply Hk.
Qed.

(** What the server puts in the log: a client's write, its verb in upper case and
    classified as a write, becomes a command that the state machine decodes to that
    very write, under the key of the connection's namespace; in particular it is a
    command every replica applies alike.  The two size conditions are those of the
    parser the arguments came from and of [SubmitWrite]. *)
Lemma submitted_write conn m args :
  let command := SerializeCommand (namespaced conn m args) in
  names_ok m -> cc_type (ClassifyCommand args) = WRITE -> #args <= kMaxArguments -> #command <= kMaxCommandBytes ->
  decode_command command = write_command (fun k => MakeKey conn k m) args /\ valid_command command = true.
Proof.
  intros command Hm Hw Hn Hb. destruct (namespaced_shape conn m args (write_is_shaped args Hw)) as [Hs E].
  assert (decode_command command = write_command (fun k => MakeKey conn k m) args) as ED.
  { rewrite <- E. apply decode_serialized; [|unfold namespaced; by rewrite length_insert|done|done]. by destruct Hs. }
  split; [done|]. unfold valid_command. rewrite ED. pose proof (write_command_user conn m args) as HU.
  destruct (write_command _ args) as [c|] eqn:Ec; [by apply HU|]. unfold write_command in Ec. by repeat case_match.
Qed.
