(* ===== verification/EventLog.v ===== *)
(** The event log (src/src/common/log.h): a log line collects text and is written to
    standard error, once, when it is destroyed. *)
From stdpp Require Import base numbers strings gmap list.
From S2P Require Import Prelude Text.

Inductive LogLevel := Info | Warning | Error_level.

Record LogLine := MkLogLine { level_ : LogLevel; out_ : bytes; active_ : bool }.

Definition Label (level : LogLevel) : bytes :=
  match level with Info => lit "INFO" | Warning => lit "WARNING" | Error_level => lit "ERROR" end.

Definition EventLog (level : LogLevel) : LogLine := MkLogLine level [] true.

(** [operator<<] with the text of its argument. *)
Definition log_append (value : bytes) (l : LogLine) : LogLine := MkLogLine (level_ l) (out_ l ++ value) (active_ l).

(** The move constructor: the new line, and what is left of the old one; its stream is
    valid but unspecified, [rest]. *)
Definition log_move (rest : bytes) (l : LogLine) : LogLine * LogLine :=
  (MkLogLine (level_ l) (out_ l) (active_ l), MkLogLine (level_ l) rest false).

(** The destructor, on what standard error holds; the mutex makes it one step. *)
Definition log_destroy (l : LogLine) (stderr : bytes) : bytes :=
  if active_ l then stderr ++ Label (level_ l) ++ lit " " ++ out_ l ++ [LF] else stderr.

(** A line that is filled, moved any number of times and filled further, all its objects
    being destroyed in the end, is written once, with the whole text. *)
Inductive log_op := Appended (value : bytes) | Moved (rest : bytes).
Definition log_do (ls : LogLine * list LogLine) (op : log_op) : LogLine * list LogLine :=
  match op with
  | Appended value => (log_append value ls.1, ls.2)
  | Moved rest => let '(l, old) := log_move rest ls.1 in (l, old :: ls.2)
  end.
Definition text_of (op : log_op) : bytes := match op with Appended value => value | Moved _ => [] end.

Lemma log_line_is_written_once level ops stderr :
  let '(l, old) := foldl log_do (EventLog level, []) ops in
  foldr log_destroy stderr (l :: old) = stderr ++ Label level ++ lit " " ++ concat (text_of <$> ops) ++ [LF].
Proof.
  assert (forall l old, active_ l = true -> Forall (fun o => active_ o = false) old ->
    let '(l', old') := foldl log_do (l, old) ops in
    foldr log_destroy stderr (l' :: old') = stderr ++ Label (level_ l) ++ lit " " ++ (out_ l ++ concat (text_of <$> ops)) ++ [LF]) as H.
  { induction ops as [|[value|rest] ops IH]; intros l old Ha Hold; cbn [foldl log_do fmap list_fmap concat text_of].
    - rewrite app_nil_r. cbn [foldr]. unfold log_destroy at 1. rewrite Ha. do 2 f_equal.
      induction Hold as [|o old Ho _ IH]; [done|]. cbn. unfold log_destroy at 1. by rewrite Ho.
    - specialize (IH (log_append value l) old Ha Hold). cbn [fst snd]. destruct (foldl _ _ ops). rewrite IH. cbn. by rewrite <- !app_assoc.
    - cbn [fst snd log_move]. specialize (IH (MkLogLine (level_ l) (out_ l) (active_ l)) (MkLogLine (level_ l) rest false :: old) Ha).
      destruct (foldl _ _ ops). apply IH. by constructor. }
  specialize (H (EventLog level) [] eq_refl). by apply H.
Qed.
