(* ===== verification/Metrics.v ===== *)
(** Owner-thread statistics (src/src/common/metrics.h).  Times are nanoseconds
    of the steady clock; the counters are 64-bit. *)
From stdpp Require Import base numbers strings gmap list.
From S2P Require Import Prelude Effects Text.

Definition ElapsedMicros (start finish : Z) : Z :=
  if finish <=? start then 0 else (finish - start) / 1000.

Record LatencyStats := MkLatencyStats { ls_count : Z; ls_total_us : Z; ls_max_us : Z }.
Definition no_latency : LatencyStats := MkLatencyStats 0 0 0.

Definition latency_Observe (us : Z) (l : LatencyStats) : LatencyStats :=
  MkLatencyStats (uN 64 (ls_count l + 1)) (uN 64 (ls_total_us l + us))
    (if ls_max_us l <? us then us else ls_max_us l).

Definition info_line (name : bytes) (value : Z) : bytes := name ++ lit ":" ++ to_string value ++ crlf.

Definition latency_ToInfo (prefix : bytes) (l : LatencyStats) : bytes :=
  info_line (prefix ++ lit "_count") (ls_count l) ++
  info_line (prefix ++ lit "_total_us") (ls_total_us l) ++
  info_line (prefix ++ lit "_max_us") (ls_max_us l) ++
  info_line (prefix ++ lit "_avg_us") (if ls_count l =? 0 then 0 else ls_total_us l / ls_count l).

Record BatchStats := MkBatchStats { bs_latency : LatencyStats; bs_entries : Z; bs_bytes : Z }.
Definition no_batches : BatchStats := MkBatchStats no_latency 0 0.

Definition batch_Observe (us n byte_count : Z) (b : BatchStats) : BatchStats :=
  MkBatchStats (latency_Observe us (bs_latency b)) (uN 64 (bs_entries b + n)) (uN 64 (bs_bytes b + byte_count)).

Definition batch_ToInfo (prefix : bytes) (b : BatchStats) : bytes :=
  latency_ToInfo prefix (bs_latency b) ++
  info_line (prefix ++ lit "_entries") (bs_entries b) ++
  info_line (prefix ++ lit "_bytes") (bs_bytes b) ++
  info_line (prefix ++ lit "_avg_entries")
    (if ls_count (bs_latency b) =? 0 then 0 else bs_entries b / ls_count (bs_latency b)).
