(* ===== verification/Prometheus.v ===== *)
(** The metrics endpoint's text (src/src/common/prometheus_text.h): INFO fields as
    Prometheus exposition, the classification of an HTTP request, the responses. *)
From stdpp Require Import base numbers strings gmap list.
From S2P Require Import Prelude Effects Text Metrics.

Inductive MetricsRequestKind := KIncomplete | KOk | KHealth | KNotFound | KMethodNotAllowed | KBadRequest.
#[export] Instance MetricsRequestKind_eq_dec : EqDecision MetricsRequestKind.
Proof. solve_decision. Defined.

(** * Fields *)

Definition EndsWith (text suffix : bytes) : bool :=
  (length suffix <=? length text)%nat && bool_decide (drop (length text - length suffix) text = suffix).

Definition IsIntegerField (text : bytes) : bool :=
  match text with
  | [] => false
  | c :: rest =>
      let digits := if bool_decide (c = Byte.x2d) then rest else text in
      negb (bool_decide (digits = [])) && forallb is_digit digits
  end.

Definition IsCumulativeField (key : bytes) : bool :=
  let named name := bool_decide (key = lit name) in
  if named "queued_write_bytes" || named "pending_proposal_bytes" || named "client_input_bytes" || named "client_output_reserved_bytes"
  then false
  else if EndsWith key (lit "_count") || EndsWith key (lit "_total_us") || EndsWith key (lit "_entries") || EndsWith key (lit "_bytes")
  then true
  else named "replication_retry_attempts" || named "proposal_timeouts" || named "read_index_total" || named "read_index_succeeded"
    || named "read_index_timeout" || named "read_index_not_leader" || named "read_index_overload" || named "read_index_lease"
    || named "overload_rejections" || named "flush_immediate_scheduled" || named "flush_delayed_scheduled" || named "flush_promotions"
    || named "proposal_batches" || named "apply_batches".

Definition FieldHelp (key : bytes) : bytes :=
  let named name := bool_decide (key = lit name) in
  if named "node_id" then lit "This process's Raft node id."
  else if named "leader_id" then lit "Current leader id, or -1 when this node does not know one."
  else if named "term" then lit "Current Raft term."
  else if named "commit_index" then lit "Highest log index known to be committed."
  else if named "last_applied" then lit "Highest log index applied to the state machine."
  else if named "apply_lag" then lit "Committed entries not yet applied (commit_index - last_applied)."
  else if named "overload_rejections" then lit "Admission failures that rejected a request or closed a connection."
  else if named "snapshot_index" then lit "Last included index of the latest snapshot, or 0 when none exists."
  else if EndsWith key (lit "_total_us") then lit "Sum of successful stage samples, in microseconds, since process start."
  else if EndsWith key (lit "_max_us") then lit "Largest successful stage sample, in microseconds, since process start."
  else if EndsWith key (lit "_avg_us") then lit "Integer-truncated mean of successful stage samples, in microseconds."
  else if EndsWith key (lit "_count") then lit "Successful stage samples since process start."
  else lit "INFO field exported for scraping.".

(** [std::isalpha] and [std::isalnum] in the C locale. *)
Definition is_alpha (c : Byte.byte) : bool :=
  let z := Z_of_byte c in ((65 <=? z) && (z <=? 90)) || ((97 <=? z) && (z <=? 122)).
Definition is_alnum (c : Byte.byte) : bool := is_alpha c || is_digit c.

Definition ValidMetricKey (key : bytes) : bool :=
  match key with
  | [] => false
  | c :: _ => is_alpha c && forallb (fun ch => is_alnum ch || bool_decide (ch = Byte.x5f)) key
  end.

(** * PrometheusText *)

Definition kRoles : list bytes := [lit "leader"; lit "follower"; lit "candidate"; lit "pre-candidate"; lit "stopped"].
Definition quote : Byte.byte := Byte.x22.
Definition colon : Byte.byte := Byte.x3a.

Definition role_lines (value : bytes) : bytes :=
  lit "# HELP raftkv_role Current Raft role. One known role is 1." ++ [LF] ++
  lit "# TYPE raftkv_role gauge" ++ [LF] ++
  concat ((fun role => lit "raftkv_role{role=" ++ [quote] ++ role ++ [quote] ++ lit "} " ++
                       (if bool_decide (value = role) then lit "1" else lit "0") ++ [LF]) <$> kRoles).

Definition sample_lines (key value : bytes) : bytes :=
  lit "# HELP raftkv_" ++ key ++ lit " " ++ FieldHelp key ++ [LF] ++
  lit "# TYPE raftkv_" ++ key ++ (if IsCumulativeField key then lit " counter" else lit " gauge") ++ [LF] ++
  lit "raftkv_" ++ key ++ lit " " ++ value ++ [LF].

(** The body of the loop for one line: what it appends to [out]. *)
Definition line_text (line : bytes) : bytes :=
  let line := if bool_decide (last line = Some CR) then take (length line - 1) line else line in
  match find_byte colon line with
  | None | Some O => []
  | Some c =>
      let key := take c line in
      let value := drop (c + 1) line in
      if bool_decide (key = lit "namespace") then []
      else if bool_decide (key = lit "state") then role_lines value
      else if negb (ValidMetricKey key) || negb (IsIntegerField value) then []
      else sample_lines key value
  end.

(** The loop at position [pos]; a turn moves past at least one byte. *)
Fixpoint prometheus_loop (fuel : nat) (info : bytes) (pos : nat) (out : bytes) : bytes :=
  match fuel with
  | O => out
  | S fuel =>
      if (pos <? length info)%nat then
        let end_ := match find_byte LF (drop pos info) with Some n => (pos + n)%nat | None => length info end in
        let line := take (end_ - pos) (drop pos info) in
        prometheus_loop fuel info (end_ + (if (end_ <? length info)%nat then 1 else 0)) (out ++ line_text line)
      else out
  end.

Definition PrometheusText (info : bytes) : bytes := prometheus_loop (length info) info 0 [].

(** * HTTP *)

(** [find("\r\n\r\n")] *)
Fixpoint find_blank_line (l : bytes) : option nat :=
  match l with
  | [] => None
  | _ :: l' => if bool_decide (take 4 l = crlf ++ crlf) then Some O else S <$> find_blank_line l'
  end.

Definition SP : Byte.byte := Byte.x20.

Definition ClassifyMetricsRequest (raw : bytes) : MetricsRequestKind :=
  match find_blank_line raw with
  | None => KIncomplete
  | Some _ =>
      match find_crlf raw with
      | None | Some O => KBadRequest
      | Some line_end =>
          let line := take line_end raw in
          match find_byte SP line with
          | None | Some O => KBadRequest
          | Some method_end =>
              match find_byte SP (drop (method_end + 1) line) with
              | None => KBadRequest
              | Some n =>
                  let path_end := (method_end + 1 + n)%nat in
                  let method := take method_end line in
                  let target := take n (drop (method_end + 1) line) in
                  let version := drop (path_end + 1) line in
                  if negb (bool_decide (version = lit "HTTP/1.0")) && negb (bool_decide (version = lit "HTTP/1.1")) then KBadRequest
                  else
                    let target := match find_byte Byte.x3f target with Some query => take query target | None => target end in
                    if negb (bool_decide (method = lit "GET")) then KMethodNotAllowed
                    else if bool_decide (target = lit "/health") then KHealth
                    else if negb (bool_decide (target = lit "/metrics")) then KNotFound
                    else KOk
              end
          end
      end
  end.

Definition HealthText (node_id : Z) (state : bytes) (term leader_id : Z) (healthy storage_healthy : bool) : bytes :=
  (if healthy then lit "ok" else lit "unavailable") ++ [LF] ++
  lit "node_id:" ++ to_string node_id ++ [LF] ++
  lit "state:" ++ state ++ [LF] ++ lit "term:" ++ to_string term ++ [LF] ++
  lit "leader_id:" ++ to_string leader_id ++ [LF] ++
  lit "storage_healthy:" ++ to_string (if storage_healthy then 1 else 0) ++ [LF].

Definition MetricsHttpResponse (status : Z) (reason body content_type : bytes) : bytes :=
  lit "HTTP/1.1 " ++ to_string status ++ lit " " ++ reason ++ crlf ++
  lit "Content-Type: " ++ content_type ++ crlf ++
  lit "Content-Length: " ++ to_string #body ++ crlf ++
  lit "Connection: close" ++ crlf ++ crlf ++ body.

(** * The exposition of an INFO text *)

Definition lines : bytes -> list bytes := split_from LF [].

(** The loop appends the text of each line. *)
Lemma prometheus_loop_lines fuel info pos out :
  (length info - pos <= fuel)%nat ->
  prometheus_loop fuel info pos out = out ++ concat (line_text <$> lines (drop pos info)).
Proof.
  revert pos out. induction fuel as [|fuel IH]; intros pos out Hf; cbn [prometheus_loop].
  { rewrite drop_ge by lia. by rewrite app_nil_r. }
  destruct (Nat.ltb_spec pos (length info)) as [Hp|Hp]; [|rewrite drop_ge by lia; by rewrite app_nil_r].
  destruct (find_byte LF (drop pos info)) as [n|] eqn:En.
  - apply find_byte_Some in En as (r & Er & Hn & Hl). rewrite length_drop in Hl.
    rewrite (proj2 (Nat.ltb_lt (pos + n) _)) by lia. replace (pos + n - pos)%nat with n by lia. rewrite IH by lia.
    assert (drop (pos + n + 1) info = r) as ->.
    { rewrite <- Nat.add_assoc, <- drop_drop, Er. change (take n (drop pos info) ++ LF :: r) with (take n (drop pos info) ++ [LF] ++ r).
      rewrite app_assoc. apply drop_app_exact. rewrite length_app, length_take, length_drop. cbn. lia. }
    rewrite <- app_assoc. f_equal. unfold lines at 2. rewrite Er at 2. rewrite split_from_app by done. done.
  - apply find_byte_None in En. rewrite Nat.ltb_irrefl, Nat.add_0_r. rewrite take_ge by (rewrite length_drop; lia).
    rewrite IH by lia. rewrite (drop_ge info (length info)) by lia. cbn [lines split_from fmap list_fmap concat]. rewrite app_nil_r.
    unfold lines. rewrite split_from_last; [cbn; by rewrite app_nil_r|done|].
    cbn. intros E. apply (f_equal length) in E. rewrite length_drop in E. cbn in E. lia.
Qed.

(** * INFO fields and what a scraper reads *)

Definition field := (bytes * bytes)%type.
Definition info_of (fields : list field) : bytes := concat ((fun f => f.1 ++ colon :: f.2 ++ crlf) <$> fields).
Definition field_ok (f : field) : Prop := f.1 <> [] /\ (colon ∉ f.1) /\ (LF ∉ f.1) /\ LF ∉ f.2.

Definition field_text (f : field) : bytes :=
  if bool_decide (f.1 = lit "namespace") then []
  else if bool_decide (f.1 = lit "state") then role_lines f.2
  else if ValidMetricKey f.1 && IsIntegerField f.2 then sample_lines f.1 f.2
  else [].

(** A scraper skips comments and splits a sample at the first space. *)
Definition sample_of (line : bytes) : option field :=
  if bool_decide (head line = Some Byte.x23) then None
  else n ← find_byte SP line; Some (take n line, drop (S n) line).
Definition scrape (text : bytes) : list field := omap sample_of (lines text).

(** The samples of a field. *)
Definition samples (f : field) : list field :=
  if bool_decide (f.1 = lit "namespace") then []
  else if bool_decide (f.1 = lit "state") then
    (fun role => (lit "raftkv_role{role=" ++ [quote] ++ role ++ [quote] ++ lit "}",
                  if bool_decide (f.2 = role) then lit "1" else lit "0")) <$> kRoles
  else if ValidMetricKey f.1 && IsIntegerField f.2 then [(lit "raftkv_" ++ f.1, f.2)]
  else [].

Lemma lines_info fields : Forall field_ok fields -> lines (info_of fields) = (fun f => f.1 ++ colon :: f.2 ++ [CR]) <$> fields.
Proof.
  induction 1 as [|[k v] fields (Hne & Hc & Hk & Hv) _ IH]; [done|]. cbn [fst snd] in *.
  change (info_of ((k, v) :: fields)) with ((k ++ colon :: v ++ crlf) ++ info_of fields).
  replace ((k ++ colon :: v ++ crlf) ++ info_of fields) with ((k ++ colon :: v ++ [CR]) ++ LF :: info_of fields)
    by (repeat (rewrite <- app_assoc; cbn [app]); done).
  unfold lines. rewrite split_from_app; [cbn [app fmap list_fmap]; change (split_from LF [] (info_of fields)) with (lines (info_of fields)); by rewrite IH|].
  rewrite not_elem_of_app, not_elem_of_cons, not_elem_of_app, not_elem_of_cons. split; [done|]. split; [done|]. split; [done|].
  split; [done|apply not_elem_of_nil].
Qed.

Lemma line_text_field k v : field_ok (k, v) -> line_text (k ++ colon :: v ++ [CR]) = field_text (k, v).
Proof.
  intros (Hne & Hc & _). cbn [fst snd] in *. unfold line_text.
  replace (k ++ colon :: v ++ [CR]) with ((k ++ colon :: v) ++ [CR]) by (by rewrite <- app_assoc).
  rewrite last_snoc, bool_decide_eq_true_2 by done. rewrite length_app. cbn [length].
  rewrite (take_app_exact (length (k ++ colon :: v) + 1 - 1)) by lia. rewrite find_byte_app by done.
  destruct (length k) as [|n] eqn:El; [by destruct k|]. rewrite <- El.
  rewrite take_app_exact by done. change (k ++ colon :: v) with (k ++ [colon] ++ v). rewrite app_assoc.
  rewrite (drop_app_exact (length k + 1)) by (rewrite length_app; cbn; lia). unfold field_text. cbn [fst snd].
  rewrite <- negb_andb. by destruct (ValidMetricKey k && IsIntegerField v).
Qed.

Lemma PrometheusText_lines info : PrometheusText info = concat (line_text <$> lines info).
Proof. unfold PrometheusText. rewrite prometheus_loop_lines by lia. by rewrite drop_0. Qed.

Lemma PrometheusText_fields fields : Forall field_ok fields -> PrometheusText (info_of fields) = concat (field_text <$> fields).
Proof.
  intros Hf. rewrite PrometheusText_lines, lines_info by done. f_equal. rewrite <- list_fmap_compose.
  apply list_fmap_ext. intros i [k v] Hi. cbn. apply line_text_field. by eapply (Forall_lookup_1 _ _ _ _ Hf).
Qed.

Lemma scrape_app l r : scrape ((l ++ [LF]) ++ r) = scrape (l ++ [LF]) ++ scrape r.
Proof. unfold scrape, lines. rewrite <- app_assoc. cbn [app]. rewrite split_from_cut. apply omap_app. Qed.

Lemma scrape_line l r : LF ∉ l -> scrape (l ++ LF :: r) = option_list (sample_of l) ++ scrape r.
Proof. intros Hl. unfold scrape, lines. rewrite split_from_app by done. cbn. by destruct (sample_of l). Qed.

(** Characters of keys and integers are no separators. *)
Lemma ValidMetricKey_free k x :
  ValidMetricKey k = true -> is_alnum x || bool_decide (x = Byte.x5f) = false -> x ∉ k.
Proof. unfold ValidMetricKey. destruct k; [done|]. intros [_ H]%andb_true_iff Hx. by eapply forallb_not_in. Qed.

Lemma IsIntegerField_free v x : IsIntegerField v = true -> is_digit x = false -> x <> Byte.x2d -> x ∉ v.
Proof.
  unfold IsIntegerField. destruct v as [|c v]; [done|]. destruct (bool_decide (c = Byte.x2d)) eqn:Ec; intros [_ H]%andb_true_iff Hx Hd.
  - apply bool_decide_eq_true_1 in Ec. apply not_elem_of_cons. split; [congruence|]. by eapply forallb_not_in.
  - by eapply forallb_not_in.
Qed.

Lemma FieldHelp_line k : LF ∉ FieldHelp k.
Proof. unfold FieldHelp. repeat case_match; apply not_in_lit; by vm_compute. Qed.

Lemma comment_skipped l r : head l = Some Byte.x23 -> LF ∉ l -> scrape (l ++ LF :: r) = scrape r.
Proof. intros Hh Hl. rewrite scrape_line by done. unfold sample_of. by rewrite bool_decide_eq_true_2. Qed.

Lemma sample_read name value r :
  SP ∉ name -> LF ∉ name -> LF ∉ value -> head name <> Some Byte.x23 -> name <> [] ->
  scrape ((name ++ SP :: value) ++ LF :: r) = (name, value) :: scrape r.
Proof.
  intros Hs Hn Hv Hh Hne. rewrite scrape_line by (rewrite not_elem_of_app, not_elem_of_cons; done).
  unfold sample_of. rewrite bool_decide_eq_false_2 by (by destruct name). rewrite find_byte_app by done. cbn [mbind option_bind].
  rewrite take_app_exact by done. change (name ++ SP :: value) with (name ++ [SP] ++ value). rewrite app_assoc.
  rewrite (drop_app_exact (S (length name))) by (rewrite length_app; cbn; lia). done.
Qed.

Ltac free_of_lf := repeat (rewrite not_elem_of_app || (split; [|])); try (apply not_in_lit; by vm_compute).

Lemma scrape_sample k v r :
  ValidMetricKey k = true -> IsIntegerField v = true -> scrape (sample_lines k v ++ r) = (lit "raftkv_" ++ k, v) :: scrape r.
Proof.
  intros Hk Hv. pose proof (ValidMetricKey_free k LF Hk eq_refl). pose proof (ValidMetricKey_free k SP Hk eq_refl).
  pose proof (IsIntegerField_free v LF Hv eq_refl ltac:(done)). pose proof (FieldHelp_line k).
  assert (sample_lines k v ++ r = (lit "# HELP raftkv_" ++ k ++ lit " " ++ FieldHelp k) ++ LF ::
    (lit "# TYPE raftkv_" ++ k ++ (if IsCumulativeField k then lit " counter" else lit " gauge")) ++ LF ::
    ((lit "raftkv_" ++ k) ++ SP :: v) ++ LF :: r) as ->.
  { unfold sample_lines. change (lit " " ++ v ++ [LF]) with (SP :: v ++ [LF]). rewrite <- ?app_assoc. cbn [app]. rewrite <- ?app_assoc. cbn [app].
    rewrite <- ?app_assoc. cbn [app]. rewrite <- ?app_assoc. done. }
  rewrite comment_skipped; [|by vm_compute|free_of_lf; done].
  rewrite comment_skipped; [|by vm_compute|free_of_lf; [done|destruct (IsCumulativeField k); apply not_in_lit; by vm_compute]].
  apply sample_read; [free_of_lf; done|free_of_lf; done|done|done|done].
Qed.

Lemma scrape_roles value roles r :
  Forall (fun role => (LF ∉ role) /\ SP ∉ role) roles ->
  scrape (concat ((fun role => lit "raftkv_role{role=" ++ [quote] ++ role ++ [quote] ++ lit "} " ++
                       (if bool_decide (value = role) then lit "1" else lit "0") ++ [LF]) <$> roles) ++ r) =
  ((fun role => (lit "raftkv_role{role=" ++ [quote] ++ role ++ [quote] ++ lit "}",
                  if bool_decide (value = role) then lit "1" else lit "0")) <$> roles) ++ scrape r.
Proof.
  induction 1 as [|role roles [Hl Hs] _ IH]; [done|]. rewrite !fmap_cons. cbn [concat].
  set (name := lit "raftkv_role{role=" ++ [quote] ++ role ++ [quote] ++ lit "}").
  set (bit := if bool_decide (value = role) then lit "1" else lit "0").
  match goal with |- scrape ((_ ++ ?rest) ++ r) = _ => replace (_ ++ r) with ((name ++ SP :: bit) ++ LF :: (rest ++ r)) end.
  2: { unfold name. change (lit "} ") with (lit "}" ++ [SP]). repeat (rewrite <- app_assoc; cbn [app]). done. }
  rewrite sample_read; [by rewrite IH| | | |done|done].
  - unfold name. free_of_lf; done.
  - unfold name. free_of_lf; done.
  - unfold bit. destruct (bool_decide _); apply not_in_lit; by vm_compute.
Qed.

Lemma scrape_field f r : scrape (field_text f ++ r) = samples f ++ scrape r.
Proof.
  unfold field_text, samples. case_bool_decide; [done|]. case_bool_decide.
  - unfold role_lines. rewrite <- !app_assoc. cbn [app].
    rewrite (comment_skipped (lit "# HELP raftkv_role Current Raft role. One known role is 1.")) by (done || (apply not_in_lit; by vm_compute)).
    rewrite (comment_skipped (lit "# TYPE raftkv_role gauge")) by (done || (apply not_in_lit; by vm_compute)).
    apply scrape_roles. unfold kRoles. repeat constructor; apply not_in_lit; by vm_compute.
  - destruct (ValidMetricKey f.1) eqn:Ek; cbn [andb]; [|done]. destruct (IsIntegerField f.2) eqn:Ev; [|done]. by apply scrape_sample.
Qed.

(** The metrics text tells a scraper exactly the INFO fields: of an INFO text, the
    exposition has, line by line, one sample per field whose name is a metric name and
    whose value is an integer, under the name's prefix and with its value, the five role
    samples for the state, and nothing for the connection's namespace or anything else.
    The loop's output on arbitrary text is the concatenation of its lines' texts. *)
Theorem prometheus_exposes_fields info fields :
  PrometheusText info = concat (line_text <$> lines info) /\
  (Forall field_ok fields ->
   PrometheusText (info_of fields) = concat (field_text <$> fields) /\
   scrape (PrometheusText (info_of fields)) = concat (samples <$> fields)).
Proof.
  split; [apply PrometheusText_lines|]. intros Hf. rewrite PrometheusText_fields by done. split; [done|]. clear Hf.
  induction fields as [|f fields IH]; [done|]. rewrite !fmap_cons. cbn [concat]. by rewrite scrape_field, IH.
Qed.

(** * HTTP requests and responses *)

Lemma find_blank_line_length l n : find_blank_line l = Some n -> (n + 4 <= length l)%nat.
Proof.
  revert n. induction l as [|c l IH]; intros n; [done|]. cbn [find_blank_line]. case_bool_decide as E.
  - intros [= <-]. apply (f_equal length) in E. rewrite length_take in E. change (length (crlf ++ crlf)) with 4%nat in E. lia.
  - destruct (find_blank_line l) as [m|]; [|done]. intros [= <-]. specialize (IH m eq_refl). cbn [length]. lia.
Qed.

Lemma find_blank_line_app l n more : find_blank_line l = Some n -> find_blank_line (l ++ more) = Some n.
Proof.
  revert n. induction l as [|c l IH]; intros n H; [done|]. pose proof (find_blank_line_length _ _ H) as Hl.
  cbn [find_blank_line app] in *. change (c :: l ++ more) with ((c :: l) ++ more). rewrite take_app_le by lia.
  case_bool_decide; [done|]. destruct (find_blank_line l) as [m|]; [|done]. by rewrite (IH m eq_refl).
Qed.

Lemma find_blank_line_crlf l n : find_blank_line l = Some n -> is_Some (find_crlf l).
Proof.
  revert n. induction l as [|c l IH]; intros n; [done|]. cbn [find_blank_line find_crlf]. case_bool_decide as E.
  - intros _. destruct l as [|d l]; [done|]. cbn in E. simplify_eq. cbn. eauto.
  - destruct (find_blank_line l) as [m|]; [|done]. intros _. destruct (IH m eq_refl) as [k ->]. destruct (_ && _); cbn; eauto.
Qed.

Lemma not_cr_take (c : Byte.byte) (l r : bytes) : c <> CR -> take 4 (c :: l) <> crlf ++ r.
Proof. intros Hc E. cbn in E. by simplify_eq. Qed.

Lemma find_blank_line_skip line rest :
  CR ∉ line -> take 2 rest <> crlf ->
  find_blank_line (line ++ crlf ++ rest) = (fun n => length line + 2 + n)%nat <$> find_blank_line rest.
Proof.
  intros Hl Hr. induction line as [|c line IH].
  - cbn [app crlf find_blank_line length].
    rewrite bool_decide_eq_false_2 by (cbn; intros E; injection E; done).
    rewrite bool_decide_eq_false_2 by (by apply not_cr_take). by destruct (find_blank_line rest).
  - apply not_elem_of_cons in Hl as [Hc Hl]. cbn [app find_blank_line length].
    rewrite bool_decide_eq_false_2 by (apply not_cr_take; congruence). rewrite IH by done. by destruct (find_blank_line rest).
Qed.

Lemma find_blank_line_here line body : CR ∉ line -> find_blank_line (line ++ crlf ++ crlf ++ body) = Some (length line).
Proof.
  induction line as [|c line IH]; intros Hl; [done|]. apply not_elem_of_cons in Hl as [Hc Hl]. cbn [app find_blank_line].
  rewrite bool_decide_eq_false_2 by (apply not_cr_take; congruence). by rewrite IH.
Qed.

Lemma classification_final raw more :
  ClassifyMetricsRequest raw <> KIncomplete -> ClassifyMetricsRequest (raw ++ more) = ClassifyMetricsRequest raw.
Proof.
  unfold ClassifyMetricsRequest. destruct (find_blank_line raw) as [n|] eqn:Eb; [|done]. intros _.
  rewrite (find_blank_line_app _ _ more Eb). destruct (find_blank_line_crlf _ _ Eb) as [k Ek]. rewrite (find_crlf_app _ _ more Ek), Ek.
  destruct k as [|k]; [done|]. apply find_crlf_Some in Ek as [r Er]. apply (f_equal length) in Er.
  rewrite !length_app, length_take in Er. cbn [length crlf] in Er. rewrite take_app_le by lia. done.
Qed.

(** What the parts of a request line ask for. *)
Definition requested (method target version : bytes) : MetricsRequestKind :=
  let path := match find_byte Byte.x3f target with Some query => take query target | None => target end in
  if negb (bool_decide (version = lit "HTTP/1.0")) && negb (bool_decide (version = lit "HTTP/1.1")) then KBadRequest
  else if negb (bool_decide (method = lit "GET")) then KMethodNotAllowed
  else if bool_decide (path = lit "/health") then KHealth
  else if negb (bool_decide (path = lit "/metrics")) then KNotFound
  else KOk.

Lemma classification_of_line method target version rest :
  method <> [] -> SP ∉ method -> SP ∉ target -> CR ∉ method -> CR ∉ target -> CR ∉ version ->
  is_Some (find_blank_line ((method ++ SP :: target ++ SP :: version) ++ crlf ++ rest)) ->
  ClassifyMetricsRequest ((method ++ SP :: target ++ SP :: version) ++ crlf ++ rest) = requested method target version.
Proof.
  intros Hne Hm Ht Cm Ct Cv [n Hb]. unfold ClassifyMetricsRequest, requested. rewrite Hb.
  set (line := method ++ SP :: target ++ SP :: version) in *.
  assert (CR ∉ line) as Cl.
  { unfold line. rewrite not_elem_of_app, not_elem_of_cons, not_elem_of_app, not_elem_of_cons. done. }
  rewrite find_crlf_after by (apply Forall_forall; intros c Hc ->; done).
  destruct (length line) as [|len] eqn:El; [unfold line in El; rewrite length_app in El; cbn in El; lia|]. rewrite <- El.
  rewrite (take_app_exact (length line)) by done.
  assert (find_byte SP line = Some (length method)) as -> by (by apply find_byte_app).
  assert (drop (length method + 1) line = target ++ SP :: version) as Hd.
  { unfold line. change (method ++ SP :: target ++ SP :: version) with (method ++ [SP] ++ target ++ SP :: version).
    rewrite app_assoc. apply drop_app_exact. by rewrite length_app. }
  assert (drop (length method + 1 + length target + 1) line = version) as Hv.
  { replace (length method + 1 + length target + 1)%nat with ((length method + 1) + (length target + 1))%nat by lia.
    rewrite <- drop_drop, Hd. change (target ++ SP :: version) with (target ++ [SP] ++ version). rewrite app_assoc.
    apply drop_app_exact. by rewrite length_app. }
  assert (take (length method) line = method) as Htk by (by apply take_app_exact).
  destruct (length method) as [|m] eqn:Em; [by destruct method|]. rewrite Hd, find_byte_app by done.
  rewrite (take_app_exact (length target)), Hv, Htk by done. done.
Qed.

(** The metrics endpoint reads requests and frames responses correctly.  A verdict
    other than "incomplete" is final: bytes that arrive later do not change it.  A request
    whose header block is complete is judged by the method, path and version of its first
    line alone.  A response's header block ends where its body begins, and declares the
    body's length. *)
Theorem metrics_http_is_exact raw more method target version rest status reason body content_type :
  (ClassifyMetricsRequest raw <> KIncomplete -> ClassifyMetricsRequest (raw ++ more) = ClassifyMetricsRequest raw) /\
  (method <> [] -> SP ∉ method -> SP ∉ target -> CR ∉ method -> CR ∉ target -> CR ∉ version ->
   let request := (method ++ SP :: target ++ SP :: version) ++ crlf ++ rest in
   is_Some (find_blank_line request) -> ClassifyMetricsRequest request = requested method target version) /\
  (CR ∉ reason -> CR ∉ content_type -> 0 <= status ->
   let response := MetricsHttpResponse status reason body content_type in
   exists header, find_blank_line response = Some (length header) /\ response = header ++ crlf ++ crlf ++ body /\
     exists before after, header = before ++ crlf ++ lit "Content-Length: " ++ to_string #body ++ crlf ++ after).
Proof.
  split; [apply classification_final|]. split; [by apply classification_of_line|]. intros Hr Hc Hs response.
  set (l1 := lit "HTTP/1.1 " ++ to_string status ++ lit " " ++ reason). set (l2 := lit "Content-Type: " ++ content_type).
  set (l3 := lit "Content-Length: " ++ to_string #body). set (l4 := lit "Connection: close").
  assert (response = l1 ++ crlf ++ l2 ++ crlf ++ l3 ++ crlf ++ l4 ++ crlf ++ crlf ++ body) as E.
  { unfold response, MetricsHttpResponse, l1, l2, l3, l4. rewrite <- ?app_assoc. done. }
  assert (forall n, 0 <= n -> CR ∉ to_string n) as Hd.
  { intros n Hn Hin. destruct (to_string_digits n Hn) as (_ & Hd & _). rewrite Forall_forall in Hd. apply Hd in Hin. by vm_compute in Hin. }
  assert ((CR ∉ l1) /\ (CR ∉ l2) /\ (CR ∉ l3) /\ CR ∉ l4) as (C1 & C2 & C3 & C4).
  { unfold l1, l2, l3, l4. rewrite !not_elem_of_app. split_and!; try done; try (apply not_in_lit; by vm_compute); apply Hd; lia. }
  exists (l1 ++ crlf ++ l2 ++ crlf ++ l3 ++ crlf ++ l4). split; [|split].
  - rewrite E, !find_blank_line_skip, find_blank_line_here by done. rewrite !length_app. change (length crlf) with 2%nat.
    cbn [fmap option_fmap option_map]. f_equal. lia.
  - rewrite E. by rewrite <- ?app_assoc.
  - exists (l1 ++ crlf ++ l2), l4. unfold l3. by rewrite <- ?app_assoc.
Qed.
