(* ===== verification/Policies.v ===== *)
(** The two scheduling policies of the owner loop: when queued writes are flushed
    (src/src/common/batch_flush_policy.h) and when a closed peer connection is
    retried (src/src/common/peer_retry_policy.h).

    Both hand out a token with every plan and accept a token back once; what their
    clients rely on is the interface [TokenGate]. *)
From stdpp Require Import base numbers strings gmap list.
From S2P Require Import Prelude Effects.

(** * Tokens

    At most one token is accepted in a state, and accepting it closes the gate. *)

Class TokenGate (S : Type) := {
  gate_token : S -> option Z;
  gate_consume : Z -> S -> bool * S;
  gate_consume_live t s : gate_token s = Some t ->
    (gate_consume t s).1 = true /\ gate_token (gate_consume t s).2 = None;
  gate_consume_stale t s : gate_token s <> Some t -> gate_consume t s = (false, s);
}.

(** * BatchFlushPolicy *)

Definition flush_kMaxEntries : Z := 128.
Definition flush_kMaxBytes : Z := 1024 * 1024.

Inductive FlushAction := NoFlush | Delayed | Immediate.
#[export] Instance FlushAction_eq_dec : EqDecision FlushAction.
Proof. solve_decision. Defined.

Record FlushPlan := MkFlushPlan { fp_action : FlushAction; fp_token : Z }.
Definition no_plan : FlushPlan := MkFlushPlan NoFlush 0.

Record BatchFlushPolicy := MkBatchFlushPolicy { bf_pending : FlushAction; bf_generation : Z }.
Definition new_flush_policy : BatchFlushPolicy := MkBatchFlushPolicy NoFlush 0.

Definition flush_Request (queued_entries queued_bytes : Z) (delay_elapsed_or_zero : bool)
  : M BatchFlushPolicy FlushPlan :=
  s ← get;
  if (queued_entries =? 0) || bool_decide (bf_pending s = Immediate) then mret no_plan
  else
    let immediate := (flush_kMaxEntries <=? queued_entries) || (flush_kMaxBytes <=? queued_bytes)
                     || delay_elapsed_or_zero in
    if bool_decide (bf_pending s = Delayed) && negb immediate then mret no_plan
    else if bf_generation s =? UINT64_MAX then throw (overflow_error "batch flush token overflow")
    else
      let pending := if immediate then Immediate else Delayed in
      let generation := uN 64 (bf_generation s + 1) in
      modify (fun _ => MkBatchFlushPolicy pending generation);;
      mret (MkFlushPlan pending generation).

Definition flush_Consume (token : Z) (s : BatchFlushPolicy) : bool * BatchFlushPolicy :=
  if bool_decide (bf_pending s = NoFlush) || negb (token =? bf_generation s) then (false, s)
  else (true, MkBatchFlushPolicy NoFlush (bf_generation s)).

Definition flush_token (s : BatchFlushPolicy) : option Z :=
  if bool_decide (bf_pending s = NoFlush) then None else Some (bf_generation s).

Lemma flush_Consume_live t s :
  flush_token s = Some t -> (flush_Consume t s).1 = true /\ flush_token (flush_Consume t s).2 = None.
Proof.
  unfold flush_token, flush_Consume. case_bool_decide; [done|]. intros [= ->]. cbn [orb].
  by rewrite Z.eqb_refl.
Qed.
Lemma flush_Consume_stale t s : flush_token s <> Some t -> flush_Consume t s = (false, s).
Proof.
  unfold flush_token, flush_Consume. case_bool_decide; [done|]. intros Ht. cbn [orb].
  destruct (Z.eqb_spec t (bf_generation s)); [by subst|done].
Qed.

#[export] Instance flush_gate : TokenGate BatchFlushPolicy :=
  {| gate_token := flush_token; gate_consume := flush_Consume;
     gate_consume_live := flush_Consume_live; gate_consume_stale := flush_Consume_stale |}.

(** * PeerRetryPolicy

    Times are nanoseconds of the steady clock. *)

Record RetryPlan := MkRetryPlan { rp_token : Z; rp_delay_ms : Z }.

Record PeerRetryPolicy := MkPeerRetryPolicy {
  connected_at_ : Z; generation_ : Z; next_delay_ms_ : Z; connected_ : bool; pending_ : bool }.
Definition new_retry_policy : PeerRetryPolicy := MkPeerRetryPolicy 0 0 500 false false.

Definition seconds (n : Z) : Z := n * 1000 * 1000 * 1000.

Definition retry_Connected (now : Z) (s : PeerRetryPolicy) : PeerRetryPolicy :=
  MkPeerRetryPolicy now (uN 64 (generation_ s + 1)) (next_delay_ms_ s) true false.

Definition retry_Disconnected (now : Z) (s : PeerRetryPolicy) : RetryPlan * PeerRetryPolicy :=
  if negb (connected_ s) then (MkRetryPlan 0 0, s)
  else
    let delay := if seconds 10 <=? now - connected_at_ s then 500 else next_delay_ms_ s in
    let generation := uN 64 (generation_ s + 1) in
    (MkRetryPlan generation delay,
     MkPeerRetryPolicy (connected_at_ s) generation (Z.min 2000 (delay * 2)) false true).

Definition retry_Consume (token : Z) (s : PeerRetryPolicy) : bool * PeerRetryPolicy :=
  if negb (pending_ s) || negb (token =? generation_ s) then (false, s)
  else (true, MkPeerRetryPolicy (connected_at_ s) (generation_ s) (next_delay_ms_ s) (connected_ s) false).

Definition retry_token (s : PeerRetryPolicy) : option Z := if pending_ s then Some (generation_ s) else None.

Lemma retry_Consume_live t s :
  retry_token s = Some t -> (retry_Consume t s).1 = true /\ retry_token (retry_Consume t s).2 = None.
Proof.
  unfold retry_token, retry_Consume. destruct (pending_ s); [|done]. intros [= ->]. cbn [orb negb].
  by rewrite Z.eqb_refl.
Qed.
Lemma retry_Consume_stale t s : retry_token s <> Some t -> retry_Consume t s = (false, s).
Proof.
  unfold retry_token, retry_Consume. destruct (pending_ s); [|done]. intros Ht. cbn [orb negb].
  destruct (Z.eqb_spec t (generation_ s)); [by subst|done].
Qed.

#[export] Instance retry_gate : TokenGate PeerRetryPolicy :=
  {| gate_token := retry_token; gate_consume := retry_Consume;
     gate_consume_live := retry_Consume_live; gate_consume_stale := retry_Consume_stale |}.

(** * Flush plans *)

(** What a request decides, on each branch. *)
Lemma flush_Request_spec entries bytes elapsed s :
  0 <= bf_generation s <= UINT64_MAX ->
  let full := (flush_kMaxEntries <=? entries) || (flush_kMaxBytes <=? bytes) || elapsed in
  match flush_Request entries bytes elapsed s with
  | (Ok plan, s') =>
      (fp_action plan = NoFlush /\ s' = s /\ (entries <> 0 -> bf_pending s = Immediate \/ (bf_pending s = Delayed /\ full = false))) \/
      (fp_action plan = bf_pending s' /\ bf_pending s' = (if full then Immediate else Delayed) /\
       fp_token plan = bf_generation s' /\ bf_generation s' = bf_generation s + 1 /\ bf_generation s' <= UINT64_MAX)
  | (Err e, s') => e = overflow_error "batch flush token overflow" /\ s' = s /\ bf_generation s = UINT64_MAX
  end.
Proof.
  intros Hg full. unfold flush_Request. rewrite M_bind_unfold. cbn [get].
  destruct (Z.eqb_spec entries 0); cbn [orb]; [left; by subst|]. case_bool_decide as HI; [left; auto|].
  fold full. destruct (bool_decide (bf_pending s = Delayed) && negb full) eqn:HD.
  { left. apply andb_true_iff in HD as [HD%bool_decide_eq_true_1 Hf%negb_true_iff]. auto. }
  destruct (Z.eqb_spec (bf_generation s) UINT64_MAX); [done|].
  cbn. rewrite uN_small by (unfold UINT64_MAX in *; lia). right. cbn. split_and!; try done. lia.
Qed.

(** A request that comes with work leaves a flush pending. *)
Lemma flush_Request_pending entries bytes elapsed s plan s' :
  entries <> 0 -> flush_Request entries bytes elapsed s = (Ok plan, s') -> bf_pending s' <> NoFlush.
Proof.
  intros He. unfold flush_Request. rewrite M_bind_unfold. cbn [get]. destruct (Z.eqb_spec entries 0); [done|]. cbn [orb].
  case_bool_decide as HI; [intros [= _ <-]; congruence|]. destruct (bool_decide _ && _) eqn:HD.
  { apply andb_true_iff in HD as [HD%bool_decide_eq_true_1 _]. intros [= _ <-]. congruence. }
  destruct (_ =? UINT64_MAX); [done|]. cbn. intros [= _ <-]. cbn. by destruct (_ || elapsed).
Qed.

(** A plan carries the token of the flush it leaves pending. *)
Lemma flush_Request_plan entries bytes elapsed s plan s' :
  flush_Request entries bytes elapsed s = (Ok plan, s') ->
  (fp_action plan = NoFlush /\ s' = s) \/ (fp_action plan = bf_pending s' /\ fp_token plan = bf_generation s').
Proof.
  unfold flush_Request. rewrite M_bind_unfold. cbn [get]. destruct (_ || bool_decide _); [intros [= <- <-]; by left|].
  destruct (bool_decide _ && _); [intros [= <- <-]; by left|]. destruct (_ =? UINT64_MAX); [done|]. cbn. intros [= <- <-]. by right.
Qed.

(** A client of the policy: requests and consumptions in any order, with the
    tokens issued and accepted so far. *)
Inductive flush_op := Request (entries bytes : Z) (elapsed : bool) | Consume (token : Z).
Record flush_client := MkFlushClient { fc_policy : BatchFlushPolicy; fc_issued : list Z; fc_accepted : list Z }.

Definition flush_do (op : flush_op) (c : flush_client) : flush_client :=
  match op with
  | Request entries bytes elapsed =>
      match flush_Request entries bytes elapsed (fc_policy c) with
      | (Ok plan, s') =>
          MkFlushClient s' (if bool_decide (fp_action plan = NoFlush) then fc_issued c else fc_issued c ++ [fp_token plan])
            (fc_accepted c)
      | (Err _, s') => MkFlushClient s' (fc_issued c) (fc_accepted c)
      end
  | Consume token =>
      let (ok, s') := flush_Consume token (fc_policy c) in
      MkFlushClient s' (fc_issued c) (if ok then fc_accepted c ++ [token] else fc_accepted c)
  end.

Definition flush_run (ops : list flush_op) : flush_client :=
  foldl (fun c op => flush_do op c) (MkFlushClient new_flush_policy [] []) ops.

Record flush_inv (c : flush_client) : Prop := {
  fi_generation : bf_generation (fc_policy c) = #(fc_issued c) /\ #(fc_issued c) <= UINT64_MAX;
  fi_issued : fc_issued c = Z.of_nat <$> seq 1 (length (fc_issued c));
  fi_accepted : NoDup (fc_accepted c);
  fi_subset t : t ∈ fc_accepted c -> t ∈ fc_issued c;
  fi_live t : flush_token (fc_policy c) = Some t <-> last (fc_issued c) = Some t /\ t ∉ fc_accepted c;
}.

Lemma seq_snoc_Z n : (Z.of_nat <$> seq 1 (n + 1)) = (Z.of_nat <$> seq 1 n) ++ [Z.of_nat n + 1].
Proof. rewrite seq_app, fmap_app. f_equal. cbn [seq fmap list_fmap]. f_equal. lia. Qed.

Lemma issued_bound c t : flush_inv c -> t ∈ fc_issued c -> 1 <= t <= #(fc_issued c).
Proof. intros I. rewrite (fi_issued _ I). intros (n & -> & Hn%elem_of_seq)%list_elem_of_fmap. rewrite length_fmap, length_seq. lia. Qed.

Lemma flush_do_inv op c : flush_inv c -> flush_inv (flush_do op c).
Proof.
  intros I. pose proof I as [[Eg Hb] Ei Na Sub Live]. destruct op as [entries bytes elapsed|token]; cbn [flush_do].
  - pose proof (flush_Request_spec entries bytes elapsed (fc_policy c) ltac:(lia)) as HR.
    destruct (flush_Request _ _ _ _) as [[plan|e] s'] eqn:ER; [|destruct HR as (_ & -> & _) ; destruct c; exact I].
    destruct HR as [(Ea & -> & _)|(Ea & Ep & Et & Es & Hs)]; [rewrite bool_decide_eq_true_2 by done; destruct c; exact I|].
    rewrite bool_decide_eq_false_2 by (rewrite Ea, Ep; by case_match).
    assert (fp_token plan = #(fc_issued c) + 1) as Ef by lia.
    assert (fp_token plan ∉ fc_accepted c) as Hfresh by (intros Hin%Sub%(issued_bound c _ I); lia).
    split; cbn; rewrite ?length_app; cbn [length].
    + lia.
    + rewrite seq_snoc_Z, <- Ei. by rewrite Ef.
    + done.
    + intros t Ht. apply elem_of_app. left. by apply Sub.
    + intros t. rewrite last_snoc. unfold flush_token. rewrite bool_decide_eq_false_2 by (rewrite Ep; by case_match).
      rewrite <- Et. naive_solver.
  - destruct (decide (flush_token (fc_policy c) = Some token)) as [Ht|Ht].
    + destruct (flush_Consume_live token (fc_policy c) Ht) as [E1 E2].
      assert (bf_generation (flush_Consume token (fc_policy c)).2 = bf_generation (fc_policy c)) as E3
        by (unfold flush_Consume; by case_match).
      destruct (flush_Consume _ _) as [ok s']. cbn in *. subst ok. apply Live in Ht as [Hl Hn].
      split; cbn; try done.
      * by rewrite E3.
      * apply NoDup_app. split; [done|]. split; [set_solver|apply NoDup_singleton].
      * intros t [?|E%list_elem_of_singleton]%elem_of_app; [by apply Sub|]. subst t. by apply last_Some_elem_of.
      * intros t. rewrite E2. split; [done|]. intros [Hl' Hn']. rewrite Hl in Hl'. set_solver.
    + pose proof (flush_Consume_stale token (fc_policy c) Ht) as E. rewrite E. destruct c; exact I.
Qed.

Lemma flush_run_inv ops : flush_inv (flush_run ops).
Proof.
  unfold flush_run. induction ops as [|op ops IH] using rev_ind.
  - split; cbn; try done; [apply NoDup_nil_2|]. intros t. split; [done|]. by intros [? _].
  - rewrite foldl_app. by apply flush_do_inv.
Qed.

(** However requests and consumptions interleave, the policy's plans are single-use:
    tokens are never issued twice nor accepted twice, only issued ones are accepted,
    and the one accepted next is the last one issued, unless it was accepted already.
    As long as the 64-bit counter lasts, a request with queued work does not throw and
    leaves such a plan, which is delayed only if the batch is not full and its time
    not up. *)
Theorem flush_tokens_are_single_use ops :
  let c := flush_run ops in
  NoDup (fc_issued c) /\ NoDup (fc_accepted c) /\ (forall t, t ∈ fc_accepted c -> t ∈ fc_issued c) /\
  (forall t, (flush_Consume t (fc_policy c)).1 = true <-> last (fc_issued c) = Some t /\ t ∉ fc_accepted c) /\
  (forall entries bytes elapsed, entries <> 0 -> #(fc_issued c) < UINT64_MAX ->
     exists plan s', flush_Request entries bytes elapsed (fc_policy c) = (Ok plan, s') /\
       is_Some (flush_token s') /\
       (bf_pending s' = Delayed -> entries < flush_kMaxEntries /\ bytes < flush_kMaxBytes /\ elapsed = false)).
Proof.
  intros c. pose proof (flush_run_inv ops) as [[Eg Hb] Ei Na Sub Live]. fold c in Eg, Hb, Ei, Na, Sub, Live.
  split; [rewrite Ei; apply NoDup_fmap_2; [apply _|apply NoDup_seq]|]. split; [done|]. split; [done|]. split.
  - intros t. rewrite <- Live. destruct (decide (flush_token (fc_policy c) = Some t)) as [Ht|Ht].
    + destruct (flush_Consume_live t (fc_policy c) Ht) as [E _]. by rewrite E.
    + pose proof (flush_Consume_stale t (fc_policy c) Ht) as E. by rewrite E.
  - intros entries bytes elapsed He Hn. pose proof (flush_Request_spec entries bytes elapsed (fc_policy c) ltac:(lia)) as HR.
    pose proof (flush_Request_pending entries bytes elapsed (fc_policy c)) as HP.
    destruct (flush_Request _ _ _ _) as [[plan|e] s']; [|destruct HR as (_ & _ & ?); lia]. specialize (HP plan s' He eq_refl). exists plan, s'. split; [done|].
    split; [unfold flush_token; by rewrite bool_decide_eq_false_2|]. intros HD.
    assert ((flush_kMaxEntries <=? entries) || (flush_kMaxBytes <=? bytes) || elapsed = false) as Hf.
    { destruct HR as [(_ & -> & HR)|(_ & E & _)]; [destruct (HR He) as [?|[_ ?]]; [congruence|done]|].
      rewrite HD in E. by case_match. }
    apply orb_false_iff in Hf as [[?%Z.leb_gt ?%Z.leb_gt]%orb_false_iff ?]. done.
Qed.

(** * Retry delays *)

(** The state machine of one peer: its connections and disconnections with the
    time they happen at, the retry timer's token. *)
Inductive retry_op := Connected (now : Z) | Disconnected (now : Z) | Retry (token : Z).

Definition retry_do (op : retry_op) (s : PeerRetryPolicy) : PeerRetryPolicy :=
  match op with
  | Connected now => retry_Connected now s
  | Disconnected now => (retry_Disconnected now s).2
  | Retry token => (retry_Consume token s).2
  end.

Definition retry_run (ops : list retry_op) : PeerRetryPolicy :=
  foldl (fun s op => retry_do op s) new_retry_policy ops.

(** The delay after [n] consecutive short connections. *)
Definition backoff (n : nat) : Z := Z.min 2000 (500 * 2 ^ Z.of_nat n).

Lemma backoff_double n : Z.min 2000 (backoff n * 2) = backoff (S n).
Proof. unfold backoff. rewrite Nat2Z.inj_succ, Z.pow_succ_r by lia. lia. Qed.

Lemma backoff_bounds n : 500 <= backoff n <= 2000.
Proof. unfold backoff. pose proof (Z.pow_pos_nonneg 2 (Z.of_nat n) ltac:(lia) ltac:(lia)). lia. Qed.

Record retry_inv (s : PeerRetryPolicy) : Prop := {
  ri_delay : exists n, next_delay_ms_ s = backoff n;
  ri_pending : pending_ s = true -> connected_ s = false;
  ri_generation : 0 <= generation_ s <= UINT64_MAX;
}.

Lemma retry_do_inv op s : retry_inv s -> retry_inv (retry_do op s).
Proof.
  assert (forall x, 0 <= uN 64 x <= UINT64_MAX) as Hu by (intros x; pose proof (uN_range 64 x ltac:(lia)); unfold UINT64_MAX; lia).
  intros [[n En] Hp Hg]. destruct op as [now|now|token]; cbn.
  - split; cbn; eauto.
  - unfold retry_Disconnected. destruct (connected_ s) eqn:Ec; cbn; [|by split; eauto].
    split; cbn; [|done|done]. destruct (_ <=? _); [by exists 1%nat|]. rewrite En, backoff_double. eauto.
  - unfold retry_Consume. destruct (_ || _); [by split; eauto|]. split; cbn; [eauto|done|done].
Qed.

Lemma retry_delay_bounds now s :
  retry_inv s -> rp_token (retry_Disconnected now s).1 <> 0 -> 500 <= rp_delay_ms (retry_Disconnected now s).1 <= 2000.
Proof.
  intros [[n En] _ _]. unfold retry_Disconnected. destruct (connected_ s); cbn; [|done]. intros _. rewrite En.
  destruct (_ <=? _); [lia|apply backoff_bounds].
Qed.

Lemma retry_run_inv ops : retry_inv (retry_run ops).
Proof.
  unfold retry_run. induction ops as [|op ops IH] using rev_ind.
  - split; cbn; [by exists 0%nat|done|done].
  - rewrite foldl_app. by apply retry_do_inv.
Qed.

(** Retries back off and are bounded: whatever happened to a peer's connections, a
    disconnection of a live connection is answered with one retry, after the delay of
    the number of short connections in a row (half a second, doubled each time up to
    two seconds, from the start again after a connection of ten seconds); a
    disconnection of no live connection is ignored, and a new connection cancels the
    pending retry. *)
Theorem retry_delays_back_off ops now :
  let s := retry_run ops in
  (connected_ s = false -> retry_Disconnected now s = (MkRetryPlan 0 0, s)) /\
  (connected_ s = true ->
     exists n, next_delay_ms_ s = backoff n /\
       let delay := if seconds 10 <=? now - connected_at_ s then backoff 0 else backoff n in
       let '(plan, s') := retry_Disconnected now s in
       rp_delay_ms plan = delay /\ 500 <= delay <= 2000 /\
       next_delay_ms_ s' = (if seconds 10 <=? now - connected_at_ s then backoff 1 else backoff (S n)) /\
       retry_token s' = Some (rp_token plan) /\
       (forall t, (retry_Consume t s').1 = true <-> t = rp_token plan) /\
       (forall t, (retry_Consume t (retry_Consume (rp_token plan) s').2).1 = false) /\
       forall later t, (retry_Consume t (retry_Connected later s')).1 = false).
Proof.
  intros s. pose proof (retry_run_inv ops) as [[n En] Hp Hg]. fold s in En, Hp, Hg. unfold retry_Disconnected. split.
  { by intros ->. }
  intros Hc. rewrite Hc. cbn [negb]. exists n. split; [done|]. cbn. rewrite En. split; [by destruct (_ <=? _)|].
  split; [destruct (_ <=? _); apply backoff_bounds|]. split; [destruct (_ <=? _); [done|apply backoff_double]|]. split; [done|].
  unfold retry_Consume. cbn. split.
  - intros t. destruct (Z.eqb_spec t (uN 64 (generation_ s + 1))); cbn; split; done || congruence.
  - by rewrite Z.eqb_refl.
Qed.
