(* ===== verification/Executor.v ===== *)
(** The worker thread that applies committed batches (src/src/raft/apply_executor.h,
    src/src/raft/serial_apply_executor.cc).

    Two threads share the object: the owner calls [Submit] and [Stop], the worker
    runs [Run].  A step is what one of them does between two synchronization
    points; the steps of the two interleave in any order.  Jobs are identified by
    the completion they carry, and [work j] is what running the job's work yields. *)
From stdpp Require Import base numbers strings gmap list relations.
From S2P Require Import Prelude Effects.

Section Executor.
Context {Job Results : Type} (work : Job -> result Results).

(** Where the worker is: it holds the lock and tests its condition, sleeps in
    [wait], is about to run a job, has its outcome, or has cleared [_busy]. *)
Inductive worker :=
  | Checking | Sleeping
  | Working (j : Job) | Finished (j : Job) (r : result Results) | Posting (j : Job) (r : result Results)
  | Exited.

(** Where the owner is: outside, between the lock and [notify_one] of [Submit] or
    of [Stop], or in [join]. *)
Inductive owner := Outside | NotifyingSubmit | NotifyingStop | Joining | Joined.

Record SerialApplyExecutor := MkExecutor {
  _job : option Job; _busy : bool; _stopping : bool;
  ex_worker : worker; ex_owner : owner;
  ex_posted : list (Job * result Results); (* what [_post_to_owner] was given *)
  ex_accepted : list Job;                  (* the jobs [Submit] returned true for *)
}.
#[local] Instance executor_fields : Fields SerialApplyExecutor :=
  {| rebuild := fun r => MkExecutor (_job r) (_busy r) (_stopping r) (ex_worker r) (ex_owner r) (ex_posted r) (ex_accepted r);
     rebuild_id := fun r => match r with MkExecutor _ _ _ _ _ _ _ => eq_refl end |}.

Definition new_executor : SerialApplyExecutor := MkExecutor None false false Checking Outside [] [].

(** [Submit] up to [notify_one]; [None] is an empty function. *)
Definition Submit (job : option Job) : M SerialApplyExecutor bool :=
  match job with
  | None => throw (invalid_argument "apply executor requires work and completion")
  | Some j =>
      s ← get;
      if _busy s || _stopping s then mret false
      else
        modify (fun s => s <| _job := Some j |> <| _busy := true |> <| ex_owner := NotifyingSubmit |>
                           <| ex_accepted := ex_accepted s ++ [j] |>);;
        mret true
  end.

(** [_ready.notify_one()] *)
Definition notify_one (s : SerialApplyExecutor) : SerialApplyExecutor :=
  match ex_worker s with Sleeping => s <| ex_worker := Checking |> | _ => s end.

(** The owner's next step inside [Submit] or [Stop]; [join] waits for the worker. *)
Definition owner_step (s : SerialApplyExecutor) : option SerialApplyExecutor :=
  match ex_owner s with
  | NotifyingSubmit => Some ((notify_one s) <| ex_owner := Outside |>)
  | NotifyingStop => Some ((notify_one s) <| ex_owner := Joining |>)
  | Joining => match ex_worker s with Exited => Some (s <| ex_owner := Joined |>) | _ => None end
  | Outside | Joined => None
  end.

(** [Stop], up to [notify_one]; [call_once] makes later calls return at once. *)
Definition Stop_begin (s : SerialApplyExecutor) : SerialApplyExecutor :=
  s <| _stopping := true |> <| ex_owner := NotifyingStop |>.

(** The worker's next step in [Run]. *)
Definition Run_step (s : SerialApplyExecutor) : option SerialApplyExecutor :=
  match ex_worker s with
  | Checking =>
      Some (match _job s with
            | Some j => s <| _job := None |> <| ex_worker := Working j |>
            | None => if _stopping s then s <| ex_worker := Exited |> else s <| ex_worker := Sleeping |>
            end)
  | Sleeping => None
  | Working j => Some (s <| ex_worker := Finished j (work j) |>)
  | Finished j r => Some (s <| _busy := false |> <| ex_worker := Posting j r |>)
  | Posting j r => Some (s <| ex_posted := ex_posted s ++ [(j, r)] |> <| ex_worker := Checking |>)
  | Exited => None
  end.

(** The steps inside a call or of the worker, and all steps: the owner may also
    begin a call, and [wait] may wake up without a notification. *)
Inductive progress (s : SerialApplyExecutor) : SerialApplyExecutor -> Prop :=
  | P_owner s' : owner_step s = Some s' -> progress s s'
  | P_worker s' : Run_step s = Some s' -> progress s s'.

Inductive estep (s : SerialApplyExecutor) : SerialApplyExecutor -> Prop :=
  | E_progress s' : progress s s' -> estep s s'
  | E_submit j : ex_owner s = Outside \/ ex_owner s = Joined -> estep s (Submit j s).2
  | E_stop : ex_owner s = Outside -> estep s (Stop_begin s)
  | E_spurious : ex_worker s = Sleeping -> estep s (s <| ex_worker := Checking |>).

Definition executor_reachable (s : SerialApplyExecutor) : Prop := rtc estep new_executor s.

(** * Invariant *)

Definition held (w : worker) : list Job :=
  match w with Working j | Finished j _ | Posting j _ => [j] | _ => [] end.

Definition active (w : worker) : bool := match w with Working _ | Finished _ _ => true | _ => false end.
Definition has_job (o : option Job) : bool := match o with Some _ => true | None => false end.
Definition in_stop (o : owner) : bool := match o with NotifyingStop | Joining | Joined => true | _ => false end.

Record executor_inv (s : SerialApplyExecutor) : Prop := {
  ei_order : ex_accepted s = (ex_posted s).*1 ++ held (ex_worker s) ++ option_list (_job s);
  ei_results : Forall (fun x => x.2 = work x.1) (ex_posted s);
  ei_held : match ex_worker s with Finished j r | Posting j r => r = work j | _ => True end;
  ei_busy : _busy s = has_job (_job s) || active (ex_worker s);
  ei_single : has_job (_job s) = true -> active (ex_worker s) = false;
  ei_sleeping : match ex_worker s with (* no wakeup is lost *)
                | Sleeping => (has_job (_job s) = true -> ex_owner s = NotifyingSubmit) /\ (_stopping s = true -> ex_owner s = NotifyingStop)
                | Exited => _stopping s = true /\ _job s = None
                | _ => True
                end;
  ei_stopping : _stopping s = in_stop (ex_owner s);
  ei_joined : ex_owner s = Joined -> ex_worker s = Exited;
}.

Lemma executor_inv_new : executor_inv new_executor.
Proof. by split. Qed.

Lemma owner_step_inv s s' : executor_inv s -> owner_step s = Some s' -> executor_inv s'.
Proof.
  intros [Eo Er Eh Eb Es El Et Ej] St. destruct s as [job busy stopping w own posted accepted].
  destruct own; cbn in *; try done; [injection St as <-..|].
  - destruct w; by split.
  - destruct w; by split.
  - destruct w; try done. injection St as <-. by split.
Qed.

Lemma Run_step_inv s s' : executor_inv s -> Run_step s = Some s' -> executor_inv s'.
Proof.
  intros [Eo Er Eh Eb Es El Et Ej] St.
  destruct s as [job busy stopping [| |j|j r|j r|] own posted accepted]; cbn in *; try done; injection St as <-.
  - assert (own <> Joined) by (intros E; by specialize (Ej E)).
    destruct job as [j|]; [by split|]. destruct stopping; by split.
  - assert (own <> Joined) by (intros E; by specialize (Ej E)). by split.
  - assert (own <> Joined) by (intros E; by specialize (Ej E)). destruct job; [by specialize (Es eq_refl)|by split].
  - assert (own <> Joined) by (intros E; by specialize (Ej E)). split; cbn; try done.
    + by rewrite fmap_app, <- app_assoc.
    + apply Forall_app. split; [done|]. by apply Forall_singleton.
Qed.

Lemma Submit_inv j s : executor_inv s -> ex_owner s = Outside \/ ex_owner s = Joined -> executor_inv (Submit j s).2.
Proof.
  intros I Ho. destruct j as [j|]; [|done]. unfold Submit. rewrite M_bind_unfold. cbn [get].
  destruct (_busy s || _stopping s) eqn:E; [done|]. apply orb_false_iff in E as [E1 E2]. rewrite M_bind_unfold. cbn.
  destruct I as [Eo Er Eh Eb Es El Et Ej]. destruct s as [job busy stopping w own posted accepted]; cbn in *. subst busy stopping.
  destruct Ho as [->| ->]; [|done]. destruct job as [j'|]; [done|].
  destruct w; split; cbn in *; try done; try (by rewrite Eo, ?app_nil_r, <- ?app_assoc). by destruct El.
Qed.

Lemma estep_inv s s' : executor_inv s -> estep s s' -> executor_inv s'.
Proof.
  intros I [s1 [s2 St|s2 St]|j Ho|Ho|Hw].
  - by eapply owner_step_inv.
  - by eapply Run_step_inv.
  - by apply Submit_inv.
  - destruct I as [Eo Er Eh Eb Es El Et Ej]. destruct s as [job busy stopping w own posted accepted]; cbn in *. subst own stopping.
    destruct w, job; split; cbn in *; try done; destruct El as [El1 El2]; (done || by specialize (El1 eq_refl)).
  - destruct I as [Eo Er Eh Eb Es El Et Ej]. destruct s as [job busy stopping w own posted accepted]; cbn in *. subst w.
    assert (own <> Joined) by (intros E; by specialize (Ej E)). by split.
Qed.

Lemma reachable_inv s : executor_reachable s -> executor_inv s.
Proof.
  unfold executor_reachable. intros R. assert (executor_inv new_executor) as I by apply executor_inv_new.
  induction R; eauto using estep_inv.
Qed.

(** * Termination *)

Definition worker_rank (w : worker) : nat :=
  match w with Exited | Sleeping => 0 | Checking => 1 | Posting _ _ => 2 | Finished _ _ => 3 | Working _ => 4 end.
Definition owner_rank (o : owner) : nat :=
  match o with Outside | Joined => 0 | NotifyingSubmit | Joining => 10 | NotifyingStop => 20 end.
(** What is left to do when the owner begins no further call. *)
Definition remaining (s : SerialApplyExecutor) : nat :=
  (if _job s is Some _ then 8 else 0) + worker_rank (ex_worker s) + owner_rank (ex_owner s).

Lemma progress_decreases s s' : progress s s' -> (remaining s' < remaining s)%nat.
Proof.
  intros [s1 St|s1 St].
  - destruct s as [job busy stopping w own posted accepted]. destruct own; cbn in *; try done; simplify_eq/=.
    + destruct w; cbn; unfold remaining; cbn; lia.
    + destruct w; cbn; unfold remaining; cbn; lia.
    + destruct w; cbn in *; simplify_eq/=. unfold remaining; cbn; lia.
  - destruct s as [job busy stopping w own posted accepted]. unfold remaining.
    destruct w; cbn in *; simplify_eq/=; try done; try (destruct job, stopping; cbn); lia.
Qed.

Lemma progress_bounded n s s' : nsteps progress n s s' -> (n + remaining s' <= remaining s)%nat.
Proof. induction 1 as [|n s s1 s' St _ IH]; [lia|]. apply progress_decreases in St. lia. Qed.

(** With no step left, everything accepted was posted. *)
Lemma quiescent_done s :
  executor_inv s -> (forall s', ~ progress s s') ->
  (ex_posted s).*1 = ex_accepted s /\ _busy s = false /\
  (if _stopping s then ex_owner s = Joined /\ ex_worker s = Exited else ex_owner s = Outside /\ ex_worker s = Sleeping).
Proof.
  intros I Hn. assert (owner_step s = None) as Ho by (destruct (owner_step s) eqn:E; [|done]; by destruct (Hn _ (P_owner _ _ E))).
  assert (Run_step s = None) as Hw by (destruct (Run_step s) eqn:E; [|done]; by destruct (Hn _ (P_worker _ _ E))).
  destruct I as [Eo Er Eh Eb Es El Et Ej].
  destruct s as [job busy stopping w own posted accepted]; destruct w; cbn in *; try done.
  - destruct El as [El1 El2]. destruct own; cbn in *; try done; [|by specialize (El2 Et)|by specialize (Ej eq_refl)].
    destruct job; [by specialize (El1 eq_refl)|]. subst. cbn. by rewrite app_nil_r.
  - destruct El as [-> ->]. destruct own; cbn in *; try done. subst. cbn. by rewrite app_nil_r.
Qed.

(** * Claims *)

(** C37. The executor keeps the contract of [ApplyExecutor], however the two threads
    interleave: the completions posted to the owner are those of the accepted jobs, in
    the order of acceptance and each once, with the result or the exception of its
    work; at most two accepted ones are still to come, and never is one running (its
    work not finished or [_busy] not yet cleared) while another is queued; [Submit]
    accepts a job exactly when none is queued, none is running and [Stop] has not begun,
    and then queues it; a refused job changes nothing. *)
Theorem executor_completes_in_order s :
  executor_reachable s ->
  (exists rest, ex_accepted s = (ex_posted s).*1 ++ rest /\ (length rest <= 2)%nat) /\
  Forall (fun x => x.2 = work x.1) (ex_posted s) /\
  ~ (has_job (_job s) = true /\ active (ex_worker s) = true) /\
  (forall j, match Submit (Some j) s with
             | (Ok true, s') => _stopping s = false /\ _job s = None /\ active (ex_worker s) = false /\ _job s' = Some j /\
                 ex_worker s' = ex_worker s /\ ex_accepted s' = ex_accepted s ++ [j] /\ ex_posted s' = ex_posted s
             | (Ok false, s') => s' = s /\ (_stopping s = true \/ has_job (_job s) = true \/ active (ex_worker s) = true)
             | (Err _, _) => False
             end).
Proof.
  intros R. pose proof (reachable_inv s R) as [Eo Er Eh Eb Es El Et Ej]. split; [|split; [done|split]].
  - exists (held (ex_worker s) ++ option_list (_job s)). split; [done|]. rewrite length_app.
    destruct (ex_worker s), (_job s); cbn; lia.
  - intros [Hj Ha]. rewrite Es in Ha; done.
  - intros j. unfold Submit. rewrite M_bind_unfold. cbn [get]. rewrite Eb. destruct (_job s) eqn:E; cbn [has_job orb].
    + split; [done|]. right. by left.
    + destruct (active (ex_worker s)); cbn [orb]; [split; [done|]; right; by right|].
      destruct (_stopping s); [by split; [|left]|]. done.
Qed.

(** C38. The executor never hangs: from any reachable state, once the owner begins no new
    call, the two threads make at most 32 more steps, and when neither can make one the
    completion of every accepted job has been posted; after [Stop] the worker has then
    returned and [Stop] with it, and otherwise the worker sleeps and the next job is
    accepted.  No wakeup is lost. *)
Theorem executor_terminates s :
  executor_reachable s ->
  (forall n s', nsteps progress n s s' -> (n <= 32)%nat) /\
  (forall s', rtc progress s s' -> (forall s'', ~ progress s' s'') ->
     (ex_posted s').*1 = ex_accepted s' /\
     (if _stopping s' then ex_owner s' = Joined /\ ex_worker s' = Exited
      else ex_worker s' = Sleeping /\ forall j, (Submit (Some j) s').1 = Ok true)).
Proof.
  intros R. split.
  - intros n s' Hn. apply progress_bounded in Hn. enough (remaining s <= 32)%nat by lia.
    unfold remaining. destruct (_job s), (ex_worker s), (ex_owner s); cbn; lia.
  - intros s' P Hn. assert (executor_inv s') as I.
    { apply reachable_inv. unfold executor_reachable in *. etrans; [exact R|]. eapply rtc_subrel; [|exact P]. intros x y. apply E_progress. }
    destruct (quiescent_done s' I Hn) as (Ep & Eb & Hs). split; [done|]. destruct (_stopping s') eqn:Es; [done|]. split; [apply Hs|].
    intros j. unfold Submit. rewrite M_bind_unfold. cbn [get]. by rewrite Eb, Es.
Qed.
End Executor.

Module ExecutorWitness.
Definition work (n : Z) : result Z := if n =? 0 then Err (runtime_error "no work") else Ok (n * 2).

(** The first job is done and its completion not posted yet, the second queued. *)
Definition busy_executor : SerialApplyExecutor :=
  MkExecutor (Some 0) true false (Posting 3 (Ok 6)) Outside [] [3; 0].

Lemma busy_reachable : executor_reachable work busy_executor.
Proof.
  unfold executor_reachable.
  eapply rtc_l; [apply (E_submit work _ (Some 3)); by left|]. cbn.
  eapply rtc_l; [apply E_progress, P_owner; reflexivity|]. cbn.
  do 3 (eapply rtc_l; [apply E_progress, P_worker; reflexivity|]; cbn).
  eapply rtc_l; [apply (E_submit work _ (Some 0)); by left|]. cbn.
  eapply rtc_l; [apply E_progress, P_owner; reflexivity|]. apply rtc_refl.
Qed.

(** The first job runs. *)
Definition running_executor : SerialApplyExecutor (Job := Z) (Results := Z) := MkExecutor None true false (Working 3) Outside [] [3].

Lemma running_reachable : executor_reachable work running_executor.
Proof.
  unfold executor_reachable.
  eapply rtc_l; [apply (E_submit work _ (Some 3)); by left|]. cbn.
  eapply rtc_l; [apply E_progress, P_owner; reflexivity|]. cbn.
  eapply rtc_l; [apply E_progress, P_worker; reflexivity|]. apply rtc_refl.
Qed.

Lemma executor_completes_in_order_witness :
  (executor_reachable work busy_executor /\
   exists rest, ex_accepted busy_executor = (ex_posted busy_executor).*1 ++ rest /\ (length rest <= 2)%nat) /\
  active (ex_worker running_executor) = true /\ Submit (Some 5) running_executor = (Ok false, running_executor).
Proof.
  split; [split; [apply busy_reachable|]; apply (executor_completes_in_order work busy_executor busy_reachable)|].
  split; [reflexivity|]. destruct (executor_completes_in_order work running_executor running_reachable) as (_ & _ & _ & HS).
  specialize (HS 5). destruct (Submit (Some 5) running_executor) as [[[]|] s'].
  - destruct HS as (_ & _ & Ha & _). discriminate Ha.
  - destruct HS as [-> _]. reflexivity.
  - destruct HS.
Defined.

Lemma executor_terminates_witness :
  executor_reachable work busy_executor /\ forall n s, nsteps (progress work) n busy_executor s -> (n <= 32)%nat.
Proof. split; [apply busy_reachable|]. apply (executor_terminates work busy_executor busy_reachable). Defined.
End ExecutorWitness.
