(* ===== verification/Peers.v ===== *)
(** The static membership (src/src/raft/peers.h). *)
From stdpp Require Import base numbers strings gmap list.
From S2P Require Import Prelude Effects.

Record PeerInfo := MkPeerInfo { peer_id : Z; peer_host : bytes; peer_raft_port : Z }.

(** The loop over the peers; [ids] is the set of identifiers seen. *)
Fixpoint validate_loop (peers : list PeerInfo) (ids : gset Z) : result (gset Z) :=
  match peers with
  | [] => Ok ids
  | peer :: peers =>
      if (peer_id peer <? 0) || bool_decide (peer_host peer = []) || (peer_raft_port peer <? 1)
         || (65535 <? peer_raft_port peer) || bool_decide (peer_id peer ∈ ids)
      then Err (invalid_argument "invalid or duplicate Raft peer")
      else validate_loop peers ({[peer_id peer]} ∪ ids)
  end.

Definition ValidatePeers (self_id : Z) (peers : list PeerInfo) : result unit :=
  ids ← validate_loop peers ∅;
  if bool_decide (self_id ∈ ids) then Ok tt else Err (invalid_argument "self is not a Raft peer").

Definition peer_ids (peers : list PeerInfo) : list Z := peer_id <$> peers.

Lemma validate_loop_spec peers ids ids' :
  validate_loop peers ids = Ok ids' ->
  ids' = ids ∪ list_to_set (peer_ids peers) /\ NoDup (peer_ids peers) /\
  (forall i, i ∈ peer_ids peers -> 0 <= i /\ i ∉ ids).
Proof.
  revert ids. induction peers as [|p peers IH]; intros ids; cbn [validate_loop].
  { intros [= <-]. split; [set_solver|]. split; [constructor|set_solver]. }
  destruct (_ || _) eqn:E; [done|]. intros (-> & Hnd & Hids)%IH.
  repeat match goal with H : _ || _ = false |- _ => apply orb_false_iff in H as [? ?] end.
  repeat match goal with H : bool_decide _ = false |- _ => apply bool_decide_eq_false_1 in H end.
  assert (0 <= peer_id p) by (apply Z.ltb_ge; done).
  unfold peer_ids in *. cbn. split; [set_solver|]. split.
  - constructor; [|done]. intros Hin. apply Hids in Hin as [_ Hin]. set_solver.
  - intros i [->|Hi]%elem_of_cons; [done|]. apply Hids in Hi as [? Hi]. set_solver.
Qed.

(** An accepted membership has distinct non-negative identifiers and contains
    the node itself. *)
Lemma ValidatePeers_spec self_id peers :
  ValidatePeers self_id peers = Ok tt ->
  NoDup (peer_ids peers) /\ self_id ∈ peer_ids peers /\ (forall i, i ∈ peer_ids peers -> 0 <= i).
Proof.
  unfold ValidatePeers. destruct (validate_loop peers ∅) as [ids|] eqn:E; [|done].
  cbn [mbind result_bind]. apply validate_loop_spec in E as (-> & Hnd & Hids). case_bool_decide; [|done].
  intros _. split; [done|]. split; [set_solver|]. intros i Hi. by apply Hids.
Qed.
