(* ===== verification/Config.v ===== *)
(** The server's configuration (src/src/server/main.cpp): the peer list and the checks
    of [RunServer] before anything is opened. *)
From stdpp Require Import base numbers strings gmap list.
From S2P Require Import Prelude Effects Text Resp Peers.

Definition minus : Byte.byte := Byte.x2d.
Definition comma : Byte.byte := Byte.x2c.
Definition peer_sep : Byte.byte := Byte.x3a.

(** [std::from_chars] into an [int], required to read the whole text. *)
Definition ParseInteger (text : bytes) : result Z :=
  let '(sign, digits) := match text with
                         | c :: rest => if bool_decide (c = minus) then (-1, rest) else (1, text)
                         | [] => (1, [])
                         end in
  let value := sign * digits_value digits in
  if bool_decide (digits = []) || negb (forallb is_digit digits) || (value <? - INT32_MAX - 1) || (INT32_MAX <? value)
  then Err (invalid_argument "invalid integer in peer configuration")
  else Ok value.

(** [rfind(c)] *)
Definition rfind_byte (x : Byte.byte) (l : bytes) : option nat :=
  (fun n => length l - 1 - n)%nat <$> find_byte x (reverse l).

(** The body of the loop of [ParsePeers]. *)
Definition parse_peer (token : bytes) : result PeerInfo :=
  match find_byte peer_sep token, rfind_byte peer_sep token with
  | Some first, Some last =>
      if (first =? last)%nat then Err (invalid_argument "peer must be id:host:port")
      else
        id ← ParseInteger (take first token);
        port ← ParseInteger (drop (last + 1) token);
        Ok (MkPeerInfo id (take (last - first - 1) (drop (first + 1) token)) port)
  | _, _ => Err (invalid_argument "peer must be id:host:port")
  end.

Fixpoint parse_peers (tokens : list bytes) : result (list PeerInfo) :=
  match tokens with
  | [] => Ok []
  | token :: tokens => peer ← parse_peer token; peers ← parse_peers tokens; Ok (peer :: peers)
  end.

Definition ParsePeers (node_id : Z) (text : bytes) : result (list PeerInfo) :=
  peers ← parse_peers (split_from comma [] text);
  _ ← ValidatePeers node_id peers;
  Ok peers.

(** The flags [RunServer] reads before it opens anything; gflags has parsed them to
    their types. *)
Record Flags := MkFlags {
  FLAGS_node_id : Z; FLAGS_client_port : Z; FLAGS_raft_port : Z; FLAGS_metrics_port : Z;
  FLAGS_peers : bytes; FLAGS_group_commit_ms : Z; FLAGS_max_clients : Z; FLAGS_snapshot_threshold : Z }.

Definition bad_port (low port : Z) : bool := (port <? low) || (65535 <? port).

(** The checks of [RunServer], in order; the peers it goes on with. *)
Definition check_flags (f : Flags) : result (list PeerInfo) :=
  if (FLAGS_group_commit_ms f <? 0) || (10 <? FLAGS_group_commit_ms f) || (FLAGS_max_clients f <? 1)
     || (FLAGS_snapshot_threshold f <? 0)
  then Err (invalid_argument "invalid group_commit_ms, max_clients, or snapshot_threshold")
  else
    peers ← ParsePeers (FLAGS_node_id f) (FLAGS_peers f);
    if bad_port 1 (FLAGS_client_port f) || bad_port 1 (FLAGS_raft_port f) || bad_port 0 (FLAGS_metrics_port f)
    then Err (invalid_argument "invalid listening port")
    else if negb (FLAGS_metrics_port f =? 0) &&
            ((FLAGS_metrics_port f =? FLAGS_client_port f) || (FLAGS_metrics_port f =? FLAGS_raft_port f))
    then Err (invalid_argument "metrics_port collides with client_port or raft_port")
    else if existsb (fun peer => (peer_id peer =? FLAGS_node_id f) && negb (peer_raft_port peer =? FLAGS_raft_port f)) peers
    then Err (invalid_argument "self peer port differs from raft_port")
    else Ok peers.

(** * The peer list round-trips *)

(** How a peer list is written. *)
Definition print_peer (p : PeerInfo) : bytes :=
  to_string (peer_id p) ++ peer_sep :: peer_host p ++ peer_sep :: to_string (peer_raft_port p).
Fixpoint print_peers (ps : list PeerInfo) : bytes :=
  match ps with
  | [] => []
  | [p] => print_peer p
  | p :: ps => print_peer p ++ comma :: print_peers ps
  end.

Lemma ParseInteger_to_string n : 0 <= n <= INT32_MAX -> ParseInteger (to_string n) = Ok n.
Proof.
  intros Hn. destruct (to_string_digits n) as (Ev & Hd & Hne); [lia|]. unfold ParseInteger.
  destruct (to_string n) as [|c l] eqn:E; [done|].
  assert (c <> minus) as Hc by (intros ->; apply Forall_cons in Hd as [Hd _]; by vm_compute in Hd).
  rewrite bool_decide_eq_false_2 by done. cbn [fst snd]. rewrite bool_decide_eq_false_2 by done.
  rewrite (proj2 (forallb_Forall _ _) Hd), Ev. cbn [orb negb].
  rewrite (proj2 (Z.ltb_ge _ _)) by lia. rewrite (proj2 (Z.ltb_ge _ _)) by lia. cbn [orb]. f_equal. lia.
Qed.

Lemma ParseInteger_range text n : ParseInteger text = Ok n -> - INT32_MAX - 1 <= n <= INT32_MAX.
Proof.
  unfold ParseInteger. destruct (match text with [] => _ | _ => _ end) as [sign digits]. destruct (_ || (INT32_MAX <? _)) eqn:E; [done|].
  intros [= <-]. apply orb_false_iff in E as [[_ E1]%orb_false_iff E2]. apply Z.ltb_ge in E1, E2. lia.
Qed.

Lemma to_string_free n x : 0 <= n -> is_digit x = false -> x ∉ to_string n.
Proof.
  intros Hn Hx Hin. destruct (to_string_digits n Hn) as (_ & Hd & _). rewrite Forall_forall in Hd. apply Hd in Hin. congruence.
Qed.

Lemma rfind_byte_app x l r : x ∉ r -> rfind_byte x (l ++ x :: r) = Some (length l).
Proof.
  intros Hr. unfold rfind_byte. rewrite reverse_app, reverse_cons, <- app_assoc. cbn [app].
  rewrite find_byte_app by (by rewrite elem_of_reverse). cbn. rewrite length_reverse, length_app. cbn. f_equal. lia.
Qed.

Lemma parse_print_peer p :
  0 <= peer_id p <= INT32_MAX -> 0 <= peer_raft_port p <= INT32_MAX -> parse_peer (print_peer p) = Ok p.
Proof.
  intros Hi Hp. destruct p as [id host port]. cbn in *. unfold parse_peer, print_peer. cbn [peer_id peer_host peer_raft_port].
  set (a := to_string id). set (b := to_string port).
  assert (peer_sep ∉ a) as Ha by (by apply to_string_free; [lia|]). assert (peer_sep ∉ b) as Hb by (by apply to_string_free; [lia|]).
  rewrite find_byte_app by done.
  replace (a ++ peer_sep :: host ++ peer_sep :: b) with ((a ++ peer_sep :: host) ++ peer_sep :: b) by (by rewrite <- app_assoc).
  rewrite rfind_byte_app by done. rewrite length_app. cbn [length].
  rewrite (proj2 (Nat.eqb_neq _ _)) by lia. rewrite <- app_assoc. cbn [app]. rewrite take_app_exact by done.
  assert (ParseInteger a = Ok id) as -> by (by apply ParseInteger_to_string). cbn [mbind result_bind].
  assert (drop (length a + S (length host) + 1) (a ++ peer_sep :: host ++ peer_sep :: b) = b) as ->.
  { replace (a ++ peer_sep :: host ++ peer_sep :: b) with ((a ++ peer_sep :: host ++ [peer_sep]) ++ b)
      by (rewrite <- app_assoc; cbn [app]; by rewrite <- app_assoc).
    apply drop_app_exact. rewrite !length_app. cbn. rewrite length_app. cbn. lia. }
  assert (ParseInteger b = Ok port) as -> by (by apply ParseInteger_to_string). cbn [mbind result_bind]. do 2 f_equal.
  assert (drop (length a + 1) (a ++ peer_sep :: host ++ peer_sep :: b) = host ++ peer_sep :: b) as ->.
  { change (a ++ peer_sep :: host ++ peer_sep :: b) with (a ++ [peer_sep] ++ host ++ peer_sep :: b). rewrite app_assoc.
    apply drop_app_exact. by rewrite length_app. }
  apply take_app_exact. lia.
Qed.

Lemma split_print_peers ps :
  Forall (fun p => 0 <= peer_id p /\ 0 <= peer_raft_port p /\ comma ∉ peer_host p) ps ->
  split_from comma [] (print_peers ps) = print_peer <$> ps.
Proof.
  assert (forall p, 0 <= peer_id p -> 0 <= peer_raft_port p -> comma ∉ peer_host p -> comma ∉ print_peer p) as Hc.
  { intros p H1 H2 H3. unfold print_peer. rewrite not_elem_of_app, not_elem_of_cons, not_elem_of_app, not_elem_of_cons.
    split_and!; try done; by apply to_string_free. }
  induction 1 as [|p ps (H1 & H2 & H3) Hps IH]; [done|]. destruct ps as [|q ps].
  - cbn [print_peers]. rewrite split_from_last; [done|by apply Hc|]. unfold print_peer. by destruct (to_string _).
  - change (print_peers (p :: q :: ps)) with (print_peer p ++ comma :: print_peers (q :: ps)).
    rewrite split_from_app by (by apply Hc). by rewrite IH.
Qed.

Lemma parse_printed_peers ps :
  Forall (fun p => 0 <= peer_id p <= INT32_MAX /\ 0 <= peer_raft_port p <= INT32_MAX) ps -> parse_peers (print_peer <$> ps) = Ok ps.
Proof.
  induction 1 as [|p ps [H1 H2] _ IH]; [done|]. cbn [fmap list_fmap parse_peers]. rewrite parse_print_peer by done.
  cbn [mbind result_bind]. by rewrite IH.
Qed.

(** An accepted peer has a port and a host. *)
Lemma ValidatePeers_ports self ps :
  ValidatePeers self ps = Ok tt -> Forall (fun p => 0 <= peer_id p /\ 1 <= peer_raft_port p <= 65535 /\ peer_host p <> []) ps.
Proof.
  unfold ValidatePeers. destruct (validate_loop ps ∅) as [ids|] eqn:E; [|done]. intros _. revert E.
  generalize (∅ : gset Z). induction ps as [|p ps IH]; intros seen E; [constructor|]. cbn [validate_loop] in E.
  destruct (_ || _) eqn:Eb; [done|]. repeat match goal with H : _ || _ = false |- _ => apply orb_false_iff in H as [? ?] end.
  repeat match goal with H : bool_decide _ = false |- _ => apply bool_decide_eq_false_1 in H | H : (_ <? _) = false |- _ => apply Z.ltb_ge in H end.
  constructor; [done|by eapply IH].
Qed.

Lemma parse_peers_ids tokens ps : parse_peers tokens = Ok ps -> Forall (fun p => peer_id p <= INT32_MAX) ps.
Proof.
  revert ps. induction tokens as [|t tokens IH]; intros ps; cbn [parse_peers]; [intros [= <-]; constructor|].
  destruct (parse_peer t) as [p|] eqn:Ep; [|done]. cbn [mbind result_bind].
  destruct (parse_peers tokens) as [qs|]; [|done]. cbn. intros [= <-]. constructor; [|by apply IH].
  unfold parse_peer in Ep. destruct (find_byte peer_sep t); [|done]. destruct (rfind_byte peer_sep t); [|done]. destruct (_ =? _)%nat; [done|].
  destruct (ParseInteger (take _ _)) as [i|] eqn:Ei; [|done]. cbn in Ep. destruct (ParseInteger (drop _ _)); [|done]. cbn in Ep.
  injection Ep as <-. cbn. apply ParseInteger_range in Ei. lia.
Qed.

Lemma ParsePeers_inv node_id text ps :
  ParsePeers node_id text = Ok ps -> ValidatePeers node_id ps = Ok tt /\ Forall (fun p => peer_id p <= INT32_MAX) ps.
Proof.
  unfold ParsePeers. destruct (parse_peers _) as [qs|] eqn:E; [|done]. cbn. destruct (ValidatePeers node_id qs) as [[]|] eqn:Ev; [|done].
  cbn. intros [= <-]. split; [done|by eapply parse_peers_ids].
Qed.

(** Peer lists round-trip: a membership that [ValidatePeers] accepts, with identifiers
    that fit an [int] and hosts without a comma (colons are allowed), is read back from its
    text; and whatever text is accepted gives a valid membership whose identifiers fit an
    [int]. *)
Theorem peer_lists_round_trip node_id ps text :
  (ValidatePeers node_id ps = Ok tt -> Forall (fun p => peer_id p <= INT32_MAX /\ comma ∉ peer_host p) ps ->
   ParsePeers node_id (print_peers ps) = Ok ps) /\
  (forall qs, ParsePeers node_id text = Ok qs ->
     ValidatePeers node_id qs = Ok tt /\ forall k, k ∈ peer_ids qs -> 0 <= k <= INT32_MAX).
Proof.
  split.
  - intros Hv Hf. pose proof (ValidatePeers_ports _ _ Hv) as Hp. pose proof (proj2 (Forall_and _ _) (conj Hf Hp)) as HF. cbn beta in HF.
    unfold ParsePeers. rewrite split_print_peers by (eapply Forall_impl; [exact HF|]; cbn; intros p ?; naive_solver lia).
    rewrite parse_printed_peers; [cbn; by rewrite Hv|]. eapply Forall_impl; [exact HF|]. cbn. unfold INT32_MAX. intros p ?. naive_solver lia.
  - intros qs Hq. apply ParsePeers_inv in Hq as [Hv Hf]. split; [done|]. intros k Hk. split; [by apply (ValidatePeers_spec _ _ Hv)|].
    unfold peer_ids in Hk. apply list_elem_of_fmap in Hk as (p & -> & Hp). rewrite Forall_forall in Hf. by apply Hf.
Qed.

(** * Rejections *)

(** The only exception is [invalid_argument]. *)
Definition rejects {A} (r : result A) : Prop := forall e, r = Err e -> exists what, e = invalid_argument what.

Lemma rejects_Ok {A} (a : A) : rejects (Ok a).
Proof. done. Qed.
Lemma rejects_Err {A} what : rejects (@Err A (invalid_argument what)).
Proof. intros e [= <-]. eauto. Qed.
Lemma rejects_bind {A B} (r : result A) (f : A -> result B) : rejects r -> (forall a, rejects (f a)) -> rejects (r ≫= f).
Proof. intros Hr Hf. destruct r as [a|e]; [apply Hf|]. intros e' [= <-]. by apply Hr. Qed.

Create HintDb rejects.
#[export] Hint Resolve rejects_Ok rejects_Err rejects_bind : rejects.
Ltac rejects_auto := repeat (case_match || eauto with rejects).

Lemma ParseInteger_rejects text : rejects (ParseInteger text).
Proof. unfold ParseInteger. rejects_auto. Qed.
#[export] Hint Resolve ParseInteger_rejects : rejects.
Lemma parse_peers_rejects tokens : rejects (parse_peers tokens).
Proof. induction tokens; cbn; [apply rejects_Ok|]. apply rejects_bind; [unfold parse_peer; rejects_auto|]. rejects_auto. Qed.
Lemma ValidatePeers_rejects self ps : rejects (ValidatePeers self ps).
Proof.
  unfold ValidatePeers. apply rejects_bind; [|intros; case_bool_decide; rejects_auto]. generalize (∅ : gset Z).
  induction ps as [|p ps IH]; intros seen; cbn [validate_loop]; [apply rejects_Ok|]. destruct (_ || _); [apply rejects_Err|apply IH].
Qed.
#[export] Hint Resolve parse_peers_rejects ValidatePeers_rejects : rejects.

Lemma check_flags_rejects f : rejects (check_flags f).
Proof.
  unfold check_flags. case_match; [apply rejects_Err|]. apply rejects_bind; [unfold ParsePeers; rejects_auto|]. intros peers. rejects_auto.
Qed.

