(* ===== verification/RaftCodec.v ===== *)
(** The frames between peers (src/src/raft/raft_codec.h): a 4-byte big-endian
    length, a type byte, the sender, the payload. *)
From stdpp Require Import base numbers strings gmap list.
From S2P Require Import Prelude Effects.

Inductive RaftMsgType :=
  | kRequestVote | kRequestVoteResponse | kAppendEntries | kAppendEntriesResponse
  | kInstallSnapshot | kInstallSnapshotResponse.
#[export] Instance RaftMsgType_eq_dec : EqDecision RaftMsgType.
Proof. solve_decision. Defined.

Definition type_code (t : RaftMsgType) : Z :=
  match t with
  | kRequestVote => 0 | kRequestVoteResponse => 1 | kAppendEntries => 2
  | kAppendEntriesResponse => 3 | kInstallSnapshot => 4 | kInstallSnapshotResponse => 5
  end.
(** [IsValidType] and the cast: the type of a code, if it is one. *)
Definition code_type (c : Z) : option RaftMsgType :=
  match c with
  | 0 => Some kRequestVote | 1 => Some kRequestVoteResponse | 2 => Some kAppendEntries
  | 3 => Some kAppendEntriesResponse | 4 => Some kInstallSnapshot | 5 => Some kInstallSnapshotResponse
  | _ => None
  end.

Record DecodedRaftMsg := MkDecodedRaftMsg {
  dm_type : RaftMsgType; dm_sender_id : Z; dm_payload : bytes }.

Definition kHeaderSize : nat := 9.
Definition kMaxFrameSize : Z := 10 * 1024 * 1024.

Definition Encode (type : RaftMsgType) (sender : Z) (payload : bytes) : result bytes :=
  if sender <? 0 then Err (invalid_argument "invalid Raft frame header")
  else if kMaxFrameSize - 5 <? #payload then Err (length_error "Raft frame too large")
  else Ok (be_put 4 (uN 32 (#payload + 5)) ++ [byte_of_Z (type_code type)] ++ be_put 4 (uN 32 sender) ++ payload).

(** [None] means incomplete; otherwise the message and the bytes consumed. *)
Definition TryDecode (data : bytes) : result (option (DecodedRaftMsg * nat)) :=
  if #data <? 4 then Ok None
  else
    let payload_length := be_get 32 (take 4 data) in
    if (payload_length <? 5) || (kMaxFrameSize <? payload_length)
    then Err (invalid_argument "invalid Raft frame length")
    else if #data <? 4 + payload_length then Ok None
    else
      let sender := be_get 32 (take 4 (drop 5 data)) in
      match code_type (Z_of_byte (nth 4 data Byte.x00)) with
      | None => Err (invalid_argument "invalid Raft frame header")
      | Some type =>
          if INT32_MAX <? sender then Err (invalid_argument "invalid Raft frame header")
          else Ok (Some (MkDecodedRaftMsg type sender
                           (take (Z.to_nat (payload_length - 5)) (drop kHeaderSize data)),
                         Z.to_nat (4 + payload_length)))
      end.

(** * Lemmas *)

Lemma code_type_code t : code_type (type_code t) = Some t.
Proof. by destruct t. Qed.
Lemma type_code_type c t : code_type c = Some t -> type_code t = c.
Proof.
  unfold code_type. intros E. repeat case_match; by simplify_eq.
Qed.

Lemma be4_read v rest : 0 <= v < 2 ^ 32 -> be_get 32 (take 4 (be_put 4 v ++ rest)) = v.
Proof.
  intros Hv. rewrite take_app_exact by apply length_be_put. rewrite be_get_put by lia. by apply Z.mod_small.
Qed.

Lemma be4_bytes l : length l = 4%nat -> be_put 4 (be_get 32 l) = l /\ 0 <= be_get 32 l < 2 ^ 32.
Proof.
  intros Hl. rewrite be_get_val by lia. pose proof (be_put_val l) as E. rewrite Hl in E.
  pose proof (be_val_range l) as R. rewrite Hl in R. done.
Qed.

Lemma TryDecode_Encode type sender payload frame rest :
  0 <= sender <= INT32_MAX -> Encode type sender payload = Ok frame ->
  TryDecode (frame ++ rest) = Ok (Some (MkDecodedRaftMsg type sender payload, length frame)).
Proof.
  unfold Encode, INT32_MAX. intros Hs. destruct (Z.ltb_spec sender 0); [lia|].
  destruct (Z.ltb_spec (kMaxFrameSize - 5) #payload); [done|]. unfold kMaxFrameSize in *.
  rewrite !uN_small by lia. intros Hf. set (n := #payload + 5) in *.
  assert (frame = be_put 4 n ++ [byte_of_Z (type_code type)] ++ be_put 4 sender ++ payload) as -> by congruence.
  clear Hf.
  assert (length (be_put 4 n ++ [byte_of_Z (type_code type)] ++ be_put 4 sender ++ payload) = 9 + length payload)%nat
    as Hlen by (rewrite !length_app, !length_be_put; simpl; lia).
  unfold TryDecode. rewrite length_app, Hlen, <- app_assoc. rewrite (proj2 (Z.ltb_ge _ 4)) by lia.
  rewrite be4_read by lia. unfold kMaxFrameSize.
  rewrite (proj2 (orb_false_iff _ _)) by (split; apply Z.ltb_ge; lia).
  rewrite (proj2 (Z.ltb_ge _ (4 + n))) by lia.
  rewrite app_nth2, length_be_put by (rewrite length_be_put; lia). cbn [nth Nat.sub app].
  rewrite Z_of_byte_of_Z, Z.mod_small by (destruct type; simpl; lia). rewrite code_type_code.
  change 5%nat with (4 + 1)%nat. rewrite <- drop_drop. rewrite (drop_app_exact 4) by apply length_be_put.
  cbn [app drop]. rewrite <- ?app_assoc, drop_0, be4_read by lia.
  rewrite (proj2 (Z.ltb_ge _ _)) by (unfold INT32_MAX; lia).
  change kHeaderSize with (4 + 5)%nat. rewrite <- drop_drop, (drop_app_exact 4) by apply length_be_put.
  cbn [app drop]. rewrite (drop_app_exact 4) by apply length_be_put.
  rewrite take_app_exact by lia. do 3 f_equal. lia.
Qed.

Lemma TryDecode_inv data m n :
  TryDecode data = Ok (Some (m, n)) ->
  (n <= length data)%nat /\ 0 <= dm_sender_id m <= INT32_MAX /\
  Encode (dm_type m) (dm_sender_id m) (dm_payload m) = Ok (take n data).
Proof.
  unfold TryDecode. destruct (Z.ltb_spec #data 4); [done|].
  destruct (be4_bytes (take 4 data)) as [EL RL]; [rewrite length_take; lia|].
  set (len := be_get 32 (take 4 data)) in *.
  destruct (_ || _) eqn:E; [done|]. apply orb_false_iff in E as [E1 E2]. apply Z.ltb_ge in E1, E2.
  destruct (Z.ltb_spec #data (4 + len)); [done|].
  destruct (code_type _) as [type|] eqn:Et; [|done]. apply type_code_type in Et.
  destruct (be4_bytes (take 4 (drop 5 data))) as [ES RS]; [rewrite length_take, length_drop; lia|].
  set (sender := be_get 32 (take 4 (drop 5 data))) in *. destruct (Z.ltb_spec INT32_MAX sender); [done|].
  intros [= <- <-]. cbn [dm_type dm_sender_id dm_payload]. unfold kMaxFrameSize in *. split; [lia|]. split; [lia|].
  assert (#(take (Z.to_nat (len - 5)) (drop kHeaderSize data)) = len - 5) as Hp
    by (rewrite length_take, length_drop; unfold kHeaderSize; lia).
  unfold Encode. rewrite (proj2 (Z.ltb_ge sender 0)) by lia. rewrite Hp.
  rewrite (proj2 (Z.ltb_ge _ _)) by (unfold kMaxFrameSize; lia). rewrite !uN_small by lia.
  replace (len - 5 + 5) with len by lia. rewrite EL, ES, Et. rewrite byte_of_Z_of_byte. f_equal.
  replace (Z.to_nat (4 + len)) with (4 + (1 + (4 + Z.to_nat (len - 5))))%nat by lia.
  rewrite <- (take_drop 4 data) at 5. rewrite (take_app_add' (take 4 data)) by (rewrite length_take; lia).
  f_equal. destruct data as [|b0 [|b1 [|b2 [|b3 [|b4 data]]]]]; try (simpl in *; lia). cbn [drop nth].
  change (1 + (4 + Z.to_nat (len - 5)))%nat with (S (4 + Z.to_nat (len - 5))). cbn [take app]. f_equal.
  rewrite <- (take_drop 4 data) at 3. rewrite (take_app_add' (take 4 data)); [done|].
  rewrite length_take. simpl length in *. lia.
Qed.

(** What was decided stays decided when more bytes arrive. *)
Lemma TryDecode_app data more :
  TryDecode data <> Ok None -> TryDecode (data ++ more) = TryDecode data.
Proof.
  unfold TryDecode. destruct (Z.ltb_spec #data 4); [done|].
  rewrite length_app, (proj2 (Z.ltb_ge _ 4)) by lia. rewrite (take_app_le data) by lia.
  destruct (_ || _) eqn:E; [done|]. apply orb_false_iff in E as [E1 E2]. apply Z.ltb_ge in E1, E2.
  destruct (Z.ltb_spec #data (4 + be_get 32 (take 4 data))); [done|]. intros _.
  rewrite (proj2 (Z.ltb_ge _ (4 + _))) by lia.
  rewrite app_nth1 by lia. rewrite !(drop_app_le data) by (unfold kHeaderSize; lia).
  rewrite !take_app_le by (rewrite length_drop; unfold kHeaderSize; lia). done.
Qed.

(** A strict prefix of a frame makes the decoder wait. *)
Lemma TryDecode_strict_prefix type sender payload p q :
  0 <= sender <= INT32_MAX -> Encode type sender payload = Ok (p ++ q) -> q <> [] -> TryDecode p = Ok None.
Proof.
  intros Hs HE Hq. pose proof (TryDecode_Encode _ _ _ _ [] Hs HE) as HD. rewrite app_nil_r in HD.
  destruct (TryDecode p) as [[[m' n']|]|e] eqn:EP; [|done|].
  - rewrite TryDecode_app in HD by by rewrite EP. apply TryDecode_inv in EP as EP'. destruct EP' as (Hn & _).
    rewrite EP in HD. injection HD as -> ->. rewrite length_app in Hn. destruct q; [done|simpl in Hn; lia].
  - rewrite TryDecode_app in HD by by rewrite EP. by rewrite EP in HD.
Qed.

(** C34. Frames between peers round-trip and can be cut anywhere. A frame is
    decoded to the same type, sender and payload and to exactly its own bytes
    whatever follows it; every strict prefix of it makes the decoder wait; and
    whatever the decoder accepts is the frame of the message it returns. *)
Theorem raft_frames_round_trip type sender payload frame data m n :
  0 <= sender <= INT32_MAX -> Encode type sender payload = Ok frame ->
  (forall rest, TryDecode (frame ++ rest) = Ok (Some (MkDecodedRaftMsg type sender payload, length frame))) /\
  (forall p q, frame = p ++ q -> q <> [] -> TryDecode p = Ok None) /\
  (TryDecode data = Ok (Some (m, n)) ->
   (n <= length data)%nat /\ Encode (dm_type m) (dm_sender_id m) (dm_payload m) = Ok (take n data)).
Proof.
  intros Hs HE. split; [intros rest; by apply TryDecode_Encode|]. split; [|intros (? & _ & ?)%TryDecode_inv; done].
  intros p q E Hq. subst frame. by eapply TryDecode_strict_prefix.
Qed.

Module CodecWitness.
Definition frame : bytes := match Encode kAppendEntries 2 (lit "payload") with Ok f => f | Err _ => [] end.
Lemma raft_frames_round_trip_witness :
  TryDecode (frame ++ lit "next") = Ok (Some (MkDecodedRaftMsg kAppendEntries 2 (lit "payload"), 16%nat)).
Proof.
  apply (raft_frames_round_trip kAppendEntries 2 (lit "payload") frame [] (MkDecodedRaftMsg kRequestVote 0 []) 0);
    by vm_compute.
Defined.
End CodecWitness.
