(* ===== verification/PeerManager.v ===== *)
(** The TCP connections between peers (src/src/raft/peer_manager.cc).

    Muduo is a parameter: a connection is known by its name, which muduo makes unique,
    and what the code asks of it ([connected()], the bytes in its output buffer, the
    clock) comes with the call.  What the code does to it, the timers it starts and the
    messages it hands to the node are effects in [pm_trace]. *)
From stdpp Require Import base numbers strings gmap list.
From S2P Require Import Prelude Effects Text Policies Peers RaftCodec.

(** * PeerManager *)

Inductive peer_effect :=
  | Connects (peer : PeerInfo) (generation : Z)  (* a new [TcpClient], its [connect()] *)
  | Sends (conn : bytes) (frame : bytes)
  | ForceCloses (conn : bytes)
  | RunsAfter (delay_ms : Z) (peer : PeerInfo) (token : Z)
  | Dispatches (conn : bytes) (message : DecodedRaftMsg)
  | Listens.

Record PeerManager := MkPeerManager {
  _self_id : Z; pm_all_peers : list PeerInfo;
  _clients : gmap Z Z;                   (* the generation of the peer's [TcpClient] *)
  _retry : gmap Z PeerRetryPolicy;
  _client_generation : Z; _started : bool;
  _connections : gmap Z bytes;
  _connection_peers : gmap bytes Z;
  pm_trace : list peer_effect;
}.
#[export] Instance PeerManager_fields : Fields PeerManager :=
  {| rebuild := fun r => MkPeerManager (_self_id r) (pm_all_peers r) (_clients r) (_retry r) (_client_generation r) (_started r)
       (_connections r) (_connection_peers r) (pm_trace r);
     rebuild_id := fun r => match r with MkPeerManager _ _ _ _ _ _ _ _ _ => eq_refl end |}.

Definition peer_emit (e : peer_effect) : M PeerManager unit := modify (fun s => s <| pm_trace := pm_trace s ++ [e] |>).

(** The constructor. *)
Definition new_peer_manager (self_id : Z) (all_peers : list PeerInfo) : result PeerManager :=
  _ ← ValidatePeers self_id all_peers;
  Ok (MkPeerManager self_id all_peers ∅ ∅ 0 false ∅ ∅ []).

Definition ConnectToPeer (peer : PeerInfo) : M PeerManager unit :=
  modify (fun s => s <| _client_generation ::= fun g => uN 64 (g + 1) |>);;
  s ← get;
  modify (fun s => s <| _clients ::= <[peer_id peer := _client_generation s]> |>);;
  peer_emit (Connects peer (_client_generation s)).

Definition pm_Start : M PeerManager unit :=
  s ← get;
  if _started s then mret tt
  else
    modify (fun s => s <| _started := true |>);;
    peer_emit Listens;;
    for_each (pm_all_peers s) (fun peer =>
      if peer_id peer =? _self_id s then mret tt
      else when (_self_id s <? peer_id peer) (ConnectToPeer peer)).

(** A connection the server accepted was established or closed. *)
Definition OnServerConnection (conn : bytes) (connected : bool) : M PeerManager unit :=
  if connected then mret tt
  else modify (fun s => s <| _connection_peers ::= delete conn |> <| _connections ::= filter (fun x => x.2 <> conn) |>).

Definition RegisterPeerConnection (peer : Z) (conn : bytes) : M PeerManager bool :=
  s ← get;
  if negb (existsb (fun p => (peer_id p =? peer) && negb (peer =? _self_id s)) (pm_all_peers s)) then mret false
  else
    let bound := _connection_peers s !! conn in
    if match bound with Some id => negb (id =? peer) | None => false end then mret false
    else if bool_decide (bound = None) && (_self_id s <? peer) then mret false
    else
      modify (fun s => s <| _connection_peers ::= <[conn := peer]> |> <| _connections ::= <[peer := conn]> |>);;
      mret true.

(** A connection this node opened was established or closed. *)
Definition OnPeerConnection (conn : bytes) (peer : Z) (connected : bool) (now : Z) : M PeerManager unit :=
  s ← get;
  let policy := default new_retry_policy (_retry s !! peer) in
  if connected then
    modify (fun s => s <| _retry ::= <[peer := retry_Connected now policy]> |>
                       <| _connections ::= <[peer := conn]> |> <| _connection_peers ::= <[conn := peer]> |>)
  else
    modify (fun s => s <| _connection_peers ::= delete conn |>);;
    if bool_decide (_connections s !! peer = Some conn) then
      let '(plan, policy) := retry_Disconnected now policy in
      modify (fun s => s <| _connections ::= delete peer |> <| _retry ::= <[peer := policy]> |>);;
      if rp_token plan =? 0 then mret tt
      else
        match list_find (fun p => peer_id p = peer) (pm_all_peers s) with
        | None => mret tt
        | Some (_, p) => peer_emit (RunsAfter (rp_delay_ms plan) p (rp_token plan))
        end
    else mret tt.

(** The timer [OnPeerConnection] started. *)
Definition OnRetryTimer (peer : PeerInfo) (token : Z) : M PeerManager unit :=
  s ← get;
  match _retry s !! peer_id peer with
  | None => throw (out_of_range "map::at")
  | Some policy =>
      let '(live, policy) := retry_Consume token policy in
      modify (fun s => s <| _retry ::= <[peer_id peer := policy]> |>);;
      when live (ConnectToPeer peer)
  end.

Definition max_queued : Z := 4 * 1024 * 1024.

(** [connected] and [queued] are the connection's [connected()] and the bytes in its
    output buffer. *)
Definition pm_Send (connected : bytes -> bool) (queued : bytes -> Z) (peer : Z) (type : RaftMsgType) (payload : bytes)
  : M PeerManager bool :=
  s ← get;
  match _connections s !! peer with
  | None => mret false
  | Some conn =>
      if negb (connected conn) then mret false
      else if (max_queued <? queued conn) || (max_queued - Z.of_nat kHeaderSize <? #payload)
              || (max_queued - queued conn <? #payload + Z.of_nat kHeaderSize) then mret false
      else
        frame ← lift_result (Encode type (_self_id s) payload);
        peer_emit (Sends conn frame);;
        mret true
  end.

Definition pm_Broadcast (connected : bytes -> bool) (queued : bytes -> Z) (type : RaftMsgType) (payload : bytes)
  : M PeerManager unit :=
  s ← get;
  for_each (pm_all_peers s) (fun peer =>
    if peer_id peer =? _self_id s then mret tt
    else _ ← pm_Send connected queued (peer_id peer) type payload; mret tt).

(** The loop of [ParseAndDispatch] on the input buffer [buf]: what is left in the
    buffer.  [handler] is whether the node's handler throws; a frame has at least nine
    bytes, so the buffer's length is enough fuel. *)
Fixpoint dispatch_loop (handler : DecodedRaftMsg -> result unit) (fuel : nat) (conn : bytes) (buf : bytes)
  : M PeerManager bytes :=
  match fuel with
  | O => mret buf
  | S fuel =>
      if #buf <? 4 then mret buf
      else
        match TryDecode buf with
        | Err _ => peer_emit (ForceCloses conn);; mret buf
        | Ok None => mret buf
        | Ok (Some (message, consumed)) =>
            registered ← RegisterPeerConnection (dm_sender_id message) conn;
            if negb registered then peer_emit (ForceCloses conn);; mret buf
            else
              peer_emit (Dispatches conn message);;
              lift_result (handler message);;
              dispatch_loop handler fuel conn (drop consumed buf)
        end
  end.

Definition ParseAndDispatch (handler : DecodedRaftMsg -> result unit) (conn buf : bytes) : M PeerManager bytes :=
  dispatch_loop handler (length buf) conn buf.

(** [OnServerMessage] and [OnClientMessage] are both the loop. *)
Definition OnPeerMessage := ParseAndDispatch.

(** * Streams of frames *)

Section Streams.
Context (handler : DecodedRaftMsg -> result unit) (handler_ok : forall m, handler m = Ok tt).
Context (conn : bytes) (p : Z) (p_range : 0 <= p <= INT32_MAX).

(** The frame of a message of peer [p]. *)
Definition frame_of (m : RaftMsgType * bytes) : bytes :=
  match Encode m.1 p m.2 with Ok f => f | Err _ => [] end.
Definition message_of (m : RaftMsgType * bytes) : DecodedRaftMsg := MkDecodedRaftMsg m.1 p m.2.
Definition sendable (m : RaftMsgType * bytes) : Prop := #m.2 <= kMaxFrameSize - 5.
Definition stream (ms : list (RaftMsgType * bytes)) : bytes := concat (frame_of <$> ms).

Lemma frame_of_Encode m : sendable m -> Encode m.1 p m.2 = Ok (frame_of m) /\ frame_of m <> [].
Proof.
  unfold sendable, frame_of, Encode. intros Hm. rewrite (proj2 (Z.ltb_ge p 0)), (proj2 (Z.ltb_ge _ _)) by lia. split; [done|].
  intros E. apply (f_equal length) in E. rewrite length_app, length_be_put in E. cbn in E. lia.
Qed.

(** The manager accepts [p] on the connection. *)
Definition accepts (s : PeerManager) : Prop :=
  p ∈ peer_ids (pm_all_peers s) /\ p <> _self_id s /\
  (_connection_peers s !! conn = Some p \/ (_connection_peers s !! conn = None /\ p < _self_id s)).

(** The manager after it dispatched [ms]. *)
Definition delivered (ms : list (RaftMsgType * bytes)) (s : PeerManager) : PeerManager :=
  match ms with
  | [] => s
  | _ => s <| _connection_peers ::= <[conn := p]> |> <| _connections ::= <[p := conn]> |>
           <| pm_trace := pm_trace s ++ (Dispatches conn <$> (message_of <$> ms)) |>
  end.

Lemma Register_accepted s : accepts s -> RegisterPeerConnection p conn s =
  (Ok true, s <| _connection_peers ::= <[conn := p]> |> <| _connections ::= <[p := conn]> |>).
Proof.
  intros (Hk & Hne & Hb). unfold RegisterPeerConnection. rewrite M_bind_unfold. cbn [get].
  assert (existsb (fun q => (peer_id q =? p) && negb (p =? _self_id s)) (pm_all_peers s) = true) as ->.
  { unfold peer_ids in Hk. apply list_elem_of_fmap in Hk as (q & Eq & Hq). apply existsb_exists. exists q. split; [by apply list_elem_of_In|].
    rewrite <- Eq, Z.eqb_refl, (proj2 (Z.eqb_neq _ _)) by congruence. done. }
  cbn [negb]. destruct Hb as [-> |[-> Hlt]].
  - by rewrite Z.eqb_refl.
  - by rewrite bool_decide_eq_true_2, (proj2 (Z.ltb_ge _ _)) by (done || lia).
Qed.

Lemma delivered_cons m ms s :
  delivered ms (delivered [m] s) = delivered (m :: ms) s.
Proof.
  destruct ms as [|m' ms]; [done|]. cbn. unfold update. cbn. f_equal; [by rewrite insert_insert_eq..|]. by rewrite <- app_assoc.
Qed.

Lemma delivered_app ms1 ms2 s : delivered ms2 (delivered ms1 s) = delivered (ms1 ++ ms2) s.
Proof.
  revert s. induction ms1 as [|m ms1 IH]; intros s; [done|]. rewrite <- delivered_cons, IH. cbn [app]. by rewrite delivered_cons.
Qed.

Lemma delivered_accepts ms s : accepts s -> accepts (delivered ms s).
Proof. destruct ms; [done|]. intros (Hk & Hne & _). split; [done|]. split; [done|]. left. cbn. by rewrite lookup_insert_eq. Qed.

(** The loop dispatches the complete frames of a buffer and leaves the rest. *)
Lemma dispatch_loop_frames ms fuel tail s :
  Forall sendable ms -> accepts s -> (length (stream ms ++ tail) <= fuel)%nat -> TryDecode tail = Ok None ->
  dispatch_loop handler fuel conn (stream ms ++ tail) s = (Ok tail, delivered ms s).
Proof.
  revert fuel s. induction ms as [|m ms IH]; intros fuel s Hf HA Hl Ht.
  - cbn [stream fmap list_fmap concat app delivered]. destruct fuel as [|fuel]; [done|]. cbn [dispatch_loop].
    destruct (#tail <? 4); [done|]. by rewrite Ht.
  - apply Forall_cons in Hf as [Hm Hf]. destruct (frame_of_Encode m Hm) as [HE Hne].
    change (stream (m :: ms)) with (frame_of m ++ stream ms) in *. rewrite <- app_assoc in *.
    pose proof (TryDecode_Encode _ _ _ _ (stream ms ++ tail) p_range HE) as HD.
    destruct fuel as [|fuel]; [rewrite length_app in Hl; destruct (frame_of m); [done|cbn in Hl; lia]|]. cbn [dispatch_loop].
    destruct (Z.ltb_spec #(frame_of m ++ stream ms ++ tail) 4) as [Hs|_].
    { exfalso. unfold TryDecode in HD. by rewrite (proj2 (Z.ltb_lt _ _) Hs) in HD. }
    rewrite HD. rewrite M_bind_unfold. cbn [dm_sender_id]. rewrite Register_accepted by done. cbn [negb].
    rewrite !M_bind_unfold. cbn [peer_emit modify]. rewrite M_bind_unfold. unfold lift_result. rewrite handler_ok.
    rewrite drop_app_exact by done. rewrite <- delivered_cons. rewrite length_app in Hl. destruct (frame_of m) as [|b f] eqn:Ef; [done|].
    cbn [length] in Hl. apply IH; [done| |lia|done]. by apply (delivered_accepts [m]).
Qed.

(** A prefix of a stream is some frames and the beginning of the next. *)
Lemma stream_prefix ms b rest :
  Forall sendable ms -> b ++ rest = stream ms ->
  exists ms1 ms2 tail, ms = ms1 ++ ms2 /\ b = stream ms1 ++ tail /\ tail ++ rest = stream ms2 /\ TryDecode tail = Ok None /\
    (rest = [] -> ms2 = []).
Proof.
  revert b. induction ms as [|m ms IH]; intros b Hf E.
  - apply app_nil in E as [-> ->]. by exists [], [], [].
  - apply Forall_cons in Hf as [Hm Hf]. destruct (frame_of_Encode m Hm) as [HE Hne].
    change (stream (m :: ms)) with (frame_of m ++ stream ms) in E.
    destruct (decide (length (frame_of m) <= length b)%nat) as [Hl|Hl].
    + assert (b = frame_of m ++ drop (length (frame_of m)) b) as Eb.
      { rewrite <- (take_drop (length (frame_of m)) b) at 1. f_equal. apply (f_equal (take (length (frame_of m)))) in E.
        rewrite take_app_le, (take_app_exact (length (frame_of m))) in E by (done || lia). done. }
      rewrite Eb, <- app_assoc in E. apply app_inv_head in E. destruct (IH _ Hf E) as (ms1 & ms2 & tail & -> & E1 & E2 & E3 & E4).
      exists (m :: ms1), ms2, tail. split; [done|]. split; [|done].
      rewrite Eb, E1. change (stream (m :: ms1)) with (frame_of m ++ stream ms1). by rewrite <- app_assoc.
    + exists [], (m :: ms), b. split; [done|]. split; [done|]. split; [done|].
      assert (exists q, frame_of m = b ++ q /\ q <> []) as (q & Eq & Hq).
      { exists (drop (length b) (frame_of m)). split.
        - rewrite <- (take_drop (length b) (frame_of m)) at 1. f_equal. apply (f_equal (take (length b))) in E.
          rewrite take_app_exact, take_app_le in E by (done || lia). done.
        - intros Ed. apply (f_equal length) in Ed. rewrite length_drop in Ed. cbn in Ed. lia. }
      split; [rewrite Eq in HE; by eapply TryDecode_strict_prefix|].
      intros ->. apply (f_equal length) in E. rewrite !length_app in E. cbn in E. lia.
Qed.

(** The connection's input, in the chunks TCP delivers. *)
Fixpoint feed (chunks : list bytes) (buf : bytes) : M PeerManager bytes :=
  match chunks with
  | [] => mret buf
  | chunk :: chunks => buf ← OnPeerMessage handler conn (buf ++ chunk); feed chunks buf
  end.

Lemma feed_stream chunks buf ms rest s :
  Forall sendable ms -> accepts s -> TryDecode buf = Ok None -> (buf ++ concat chunks) ++ rest = stream ms ->
  exists ms1 ms2 tail, ms = ms1 ++ ms2 /\ feed chunks buf s = (Ok tail, delivered ms1 s) /\
    tail ++ rest = stream ms2 /\ TryDecode tail = Ok None /\ (chunks <> [] -> rest = [] -> ms2 = []).
Proof.
  revert buf ms s. induction chunks as [|chunk chunks IH]; intros buf ms s Hf HA Hb E.
  - exists [], ms, buf. cbn [concat] in E. rewrite app_nil_r in E. done.
  - cbn [concat] in E. rewrite app_assoc, <- (app_assoc (buf ++ chunk)) in E.
    destruct (stream_prefix ms (buf ++ chunk) (concat chunks ++ rest) Hf E) as (ms1 & ms2 & tail & -> & E1 & E2 & E3 & E4).
    apply Forall_app in Hf as [Hf1 Hf2]. cbn [feed]. rewrite M_bind_unfold. unfold OnPeerMessage, ParseAndDispatch.
    rewrite E1, dispatch_loop_frames by done.
    destruct (IH tail ms2 (delivered ms1 s)) as (ms3 & ms4 & tail' & -> & E5 & E6 & E7 & E8); [done|by apply delivered_accepts|done| |].
    { by rewrite <- app_assoc. }
    exists (ms1 ++ ms3), ms4, tail'. split; [by rewrite app_assoc|]. rewrite E5, delivered_app. split; [done|]. split; [done|]. split; [done|].
    intros _ ->. destruct chunks as [|c chunks]; [|by apply E8]. cbn in E5. injection E5 as <- Ed.
    cbn in E4. specialize (E4 eq_refl). by apply app_nil in E4 as [_ ->].
Qed.
End Streams.

(** C36. A peer's messages reach the node's handler in order and unchanged, however TCP
    cuts their frames: of a connection on which peer [p] is accepted, and a stream that is
    the frames of messages [ms], the chunks received so far make the manager dispatch
    exactly the messages whose frames are complete, bind the connection to [p] and keep the
    beginning of the next frame; when the whole stream arrived, all were dispatched. *)
Theorem peer_streams_dispatch_in_order handler conn p ms chunks rest s :
  (forall m, handler m = Ok tt) -> 0 <= p <= INT32_MAX -> Forall sendable ms -> accepts conn p s ->
  concat chunks ++ rest = stream p ms ->
  exists ms1 ms2 tail, ms = ms1 ++ ms2 /\ feed handler conn chunks [] s = (Ok tail, delivered conn p ms1 s) /\
    tail ++ rest = stream p ms2 /\ TryDecode tail = Ok None /\ (rest = [] -> ms1 = ms).
Proof.
  intros Hh Hp Hf HA E. destruct (feed_stream handler Hh conn p Hp chunks [] ms rest s) as (ms1 & ms2 & tail & E1 & E2 & E3 & E4 & E5); [done..|].
  exists ms1, ms2, tail. do 4 (split; [done|]). intros ->. enough (ms2 = []) as -> by (by rewrite E1, app_nil_r).
  destruct chunks as [|c chunks]; [|by apply E5]. cbn in E2. injection E2 as <- _. cbn in E3.
  destruct ms2 as [|m ms2]; [done|]. rewrite E1 in Hf. apply Forall_app in Hf as [_ Hf]. apply Forall_cons in Hf as [Hm _].
  destruct (frame_of_Encode p Hp m Hm) as [_ Hne]. change (stream p (m :: ms2)) with (frame_of p m ++ stream p ms2) in E3.
  symmetry in E3. by apply app_nil in E3 as [? _].
Qed.

(** Sending is bounded and cannot fail: [Send] returns true exactly when the peer has a
    live connection whose output buffer still has room for the frame within its four
    mebibytes, and has then queued the one frame the receiver decodes to this message;
    otherwise it has no effect. *)
Theorem peer_send_is_bounded connected queued peer type payload s :
  0 <= _self_id s <= INT32_MAX -> (forall c, 0 <= queued c) ->
  let fits conn := connected conn && (queued conn + #payload + 9 <=? max_queued) in
  match pm_Send connected queued peer type payload s with
  | (Err _, _) => False
  | (Ok false, s') => s' = s /\ (forall conn, _connections s !! peer = Some conn -> fits conn = false)
  | (Ok true, s') => exists conn frame, _connections s !! peer = Some conn /\ fits conn = true /\
      s' = s <| pm_trace := pm_trace s ++ [Sends conn frame] |> /\
      queued conn + #frame <= max_queued /\
      forall more, TryDecode (frame ++ more) = Ok (Some (MkDecodedRaftMsg type (_self_id s) payload, length frame))
  end.
Proof.
  intros Hs Hq fits. unfold pm_Send. rewrite M_bind_unfold. cbn [get]. destruct (_connections s !! peer) as [conn|] eqn:Ec; [|done].
  specialize (Hq conn). unfold fits. destruct (connected conn) eqn:El; cbn [negb]; [|split; [done|]; intros c [= <-]; by rewrite El].
  change (Z.of_nat kHeaderSize) with 9. destruct (_ || _) eqn:E.
  - split; [done|]. intros c [= <-]. rewrite El. cbn [andb]. apply Z.leb_gt. unfold max_queued in *.
    apply orb_true_iff in E as [[E|E]%orb_true_iff|E]; apply Z.ltb_lt in E; lia.
  - apply orb_false_iff in E as [[E1 E2]%orb_false_iff E3]. apply Z.ltb_ge in E1, E2, E3. unfold max_queued in *.
    rewrite M_bind_unfold. unfold lift_result.
    assert (exists frame, Encode type (_self_id s) payload = Ok frame /\ #frame = #payload + 9) as (frame & EE & Hl).
    { unfold Encode, kMaxFrameSize. rewrite (proj2 (Z.ltb_ge _ 0)), (proj2 (Z.ltb_ge _ _)) by lia. eexists. split; [done|].
      rewrite !length_app, !length_be_put. cbn. lia. }
    rewrite EE. cbn. exists conn, frame. rewrite El. cbn [andb]. split; [done|]. split; [apply Z.leb_le; lia|]. split; [done|]. split; [lia|].
    intros more. by apply TryDecode_Encode.
Qed.

(** * The connections of a manager *)

(** What muduo and the node call; a name is never used for two peers, and outgoing connections are
    those to peers with a larger identifier. *)
Inductive peer_op :=
  | PStart
  | PServer (conn : bytes) (connected : bool)
  | PClient (conn : bytes) (peer : Z) (connected : bool) (now : Z)
  | PTimer (peer : PeerInfo) (token : Z)
  | PMessage (conn buf : bytes)
  | PSend (connected : bytes -> bool) (queued : bytes -> Z) (peer : Z) (type : RaftMsgType) (payload : bytes)
  | PBroadcast (connected : bytes -> bool) (queued : bytes -> Z) (type : RaftMsgType) (payload : bytes).

Definition op_ok (s : PeerManager) (op : peer_op) : Prop :=
  match op with
  | PClient conn peer _ _ =>
      peer ∈ peer_ids (pm_all_peers s) /\ _self_id s < peer /\ (_connection_peers s !! conn = None \/ _connection_peers s !! conn = Some peer)
  | PTimer peer token => exists d, RunsAfter d peer token ∈ pm_trace s
  | _ => True
  end.

Definition peer_do (handler : DecodedRaftMsg -> result unit) (op : peer_op) : M PeerManager unit :=
  match op with
  | PStart => pm_Start
  | PServer conn connected => OnServerConnection conn connected
  | PClient conn peer connected now => OnPeerConnection conn peer connected now
  | PTimer peer token => OnRetryTimer peer token
  | PMessage conn buf => _ ← OnPeerMessage handler conn buf; mret tt
  | PSend connected queued peer type payload => _ ← pm_Send connected queued peer type payload; mret tt
  | PBroadcast connected queued type payload => pm_Broadcast connected queued type payload
  end.

Inductive peer_reachable (handler : DecodedRaftMsg -> result unit) (self : Z) (peers : list PeerInfo) : PeerManager -> Prop :=
  | PR_new s : new_peer_manager self peers = Ok s -> peer_reachable handler self peers s
  | PR_op s op : peer_reachable handler self peers s -> op_ok s op -> peer_reachable handler self peers (peer_do handler op s).2.

Definition remote (self : Z) (peers : list PeerInfo) (p : Z) : Prop := p ∈ peer_ids peers /\ p <> self.

Definition peer_effect_ok (self : Z) (peers : list PeerInfo) (e : peer_effect) : Prop :=
  match e with
  | Connects p _ => p ∈ peers /\ self < peer_id p
  | RunsAfter d p _ => p ∈ peers /\ self < peer_id p /\ 500 <= d <= 2000
  | Dispatches _ m => remote self peers (dm_sender_id m)
  | Sends _ frame => exists type payload, Encode type self payload = Ok frame
  | ForceCloses _ | Listens => True
  end.

(** [frame] is the frame of the message for peer [p], on a live connection that is bound
    to [p], a configured peer. *)
Definition frame_for (self : Z) (peers : list PeerInfo) (s : PeerManager) (connected : bytes -> bool)
  (type : RaftMsgType) (payload : bytes) (p : Z) (conn frame : bytes) : Prop :=
  remote self peers p /\ _connections s !! p = Some conn /\ _connection_peers s !! conn = Some p /\ connected conn = true /\
  Encode type self payload = Ok frame.

(** The frames an operation may send from [s]. *)
Definition frame_allowed (self : Z) (peers : list PeerInfo) (s : PeerManager) (op : peer_op) (e : peer_effect) : Prop :=
  match e, op with
  | Sends conn frame, PSend connected _ p type payload => frame_for self peers s connected type payload p conn frame
  | Sends conn frame, PBroadcast connected _ type payload => exists p, frame_for self peers s connected type payload p conn frame
  | Sends _ _, _ => False
  | _, _ => True
  end.

Record manager_ok (self : Z) (peers : list PeerInfo) (s : PeerManager) : Prop := {
  mo_self : _self_id s = self /\ pm_all_peers s = peers;
  mo_connections p c : _connections s !! p = Some c -> remote self peers p /\ _connection_peers s !! c = Some p;
  mo_clients p g : _clients s !! p = Some g -> self < p;
  mo_retry p r : _retry s !! p = Some r -> retry_inv r;
  mo_timers d p t : RunsAfter d p t ∈ pm_trace s -> is_Some (_retry s !! peer_id p);
  mo_trace e : e ∈ pm_trace s -> peer_effect_ok self peers e;
}.

Section Manager.
Context (self : Z) (peers : list PeerInfo).
Abbreviation ok := (manager_ok self peers).

Lemma emit_ok e s :
  ok s -> peer_effect_ok self peers e -> (forall d p t, e = RunsAfter d p t -> is_Some (_retry s !! peer_id p)) ->
  ok (peer_emit e s).2.
Proof.
  intros [] He Ht. split; cbn; try done.
  - intros d p t [?|E%list_elem_of_singleton]%elem_of_app; [by eapply mo_timers0|]. by eapply Ht.
  - intros e' [?|E%list_elem_of_singleton]%elem_of_app; [by apply mo_trace0|]. by subst.
Qed.

Lemma ConnectToPeer_ok peer s : ok s -> peer ∈ peers -> self < peer_id peer -> ok (ConnectToPeer peer s).2.
Proof.
  intros Ok Hp Hs. unfold ConnectToPeer. rewrite !M_bind_unfold. cbn [modify get]. rewrite !M_bind_unfold. cbn [modify].
  apply emit_ok; [|done|done]. destruct Ok. split; cbn; try done.
  intros p g. destruct (decide (p = peer_id peer)) as [->|]; [done|]. rewrite lookup_insert_ne by done. by eapply mo_clients0.
Qed.

Lemma Start_loop_ok l s :
  l ⊆ peers -> ok s ->
  ok (for_each l (fun q => if peer_id q =? self then mret tt else when (self <? peer_id q) (ConnectToPeer q)) s).2.
Proof.
  revert s. induction l as [|q l IH]; intros s Hsub Ok; [done|]. cbn [for_each]. rewrite M_bind_unfold.
  assert (ok ((if peer_id q =? self then mret tt else when (self <? peer_id q) (ConnectToPeer q)) s).2) as Ok3.
  { destruct (peer_id q =? self); [done|]. destruct (Z.ltb_spec self (peer_id q)); cbn [when]; [|done].
    apply ConnectToPeer_ok; [done| |done]. apply Hsub. set_solver. }
  destruct ((if peer_id q =? self then mret tt else when (self <? peer_id q) (ConnectToPeer q)) s) as [[[]|e] s3]; [|done]. apply IH; [|done]. set_solver.
Qed.

Lemma pm_Start_ok s : ok s -> ok (pm_Start s).2.
Proof.
  intros Ok. unfold pm_Start. rewrite M_bind_unfold. cbn [get]. destruct (_started s); [done|]. rewrite !M_bind_unfold. cbn [modify].
  destruct (mo_self _ _ _ Ok) as [Es Ep]. assert (ok (s <| _started := true |>)) as Ok1 by (by destruct Ok; split).
  rewrite M_bind_unfold, Es, Ep. pose proof (emit_ok Listens _ Ok1 I ltac:(done)) as Ok2.
  destruct (peer_emit Listens _) as [[[]|e] s2]; [|done]. by apply Start_loop_ok.
Qed.

Lemma OnServerConnection_ok conn connected s : ok s -> ok (OnServerConnection conn connected s).2.
Proof.
  intros []. unfold OnServerConnection. destruct connected; [by split|]. split; cbn; try done.
  intros p c [Hc Hne]%map_lookup_filter_Some. cbn in Hne. destruct (mo_connections0 p c Hc) as [? Hb]. split; [done|].
  by rewrite lookup_delete_ne.
Qed.

Lemma RegisterPeerConnection_ok p conn s :
  ok s -> let '(r, s') := RegisterPeerConnection p conn s in ok s' /\ (r = Ok true -> remote self peers p).
Proof.
  intros Ok. destruct (mo_self _ _ _ Ok) as [Es Ep]. unfold RegisterPeerConnection. rewrite M_bind_unfold. cbn [get]. rewrite Es, Ep.
  destruct (existsb _ peers) eqn:Ee; cbn [negb]; [|by split].
  assert (remote self peers p) as Hr.
  { apply existsb_exists in Ee as (q & Hq%list_elem_of_In & [Hi%Z.eqb_eq Hn%negb_true_iff%Z.eqb_neq]%andb_true_iff). split; [|done].
    unfold peer_ids. apply list_elem_of_fmap. by exists q. }
  destruct (match _connection_peers s !! conn with Some id => _ | None => _ end) eqn:Eb; [by split|]. destruct (_ && _); [by split|]. cbn.
  split; [|done]. destruct Ok. split; cbn; try done. intros q c. destruct (decide (q = p)) as [->|Hne].
  - rewrite lookup_insert_eq. intros [= <-]. by rewrite lookup_insert_eq.
  - rewrite lookup_insert_ne by done. intros Hc. destruct (mo_connections0 q c Hc) as [? Hb]. split; [done|].
    rewrite lookup_insert_ne; [done|]. intros ->. rewrite Hb in Eb. by apply negb_false_iff, Z.eqb_eq in Eb.
Qed.

Lemma OnPeerConnection_ok conn p connected now s :
  ok s -> op_ok s (PClient conn p connected now) -> ok (OnPeerConnection conn p connected now s).2.
Proof.
  intros Ok (Hk & Hlt & Hb). destruct (mo_self _ _ _ Ok) as [Es Ep]. rewrite Es, Ep in *.
  unfold OnPeerConnection. rewrite M_bind_unfold. cbn [get].
  assert (retry_inv (default new_retry_policy (_retry s !! p))) as Hri.
  { destruct (_retry s !! p) as [r|] eqn:E; cbn; [by eapply (mo_retry _ _ _ Ok)|]. apply (retry_run_inv []). }
  assert (forall (r : PeerRetryPolicy), retry_inv r -> forall q r', <[p := r]> (_retry s) !! q = Some r' -> retry_inv r') as Hins.
  { intros r Hr q r'. destruct (decide (q = p)) as [->|]; [rewrite lookup_insert_eq; by intros [= <-]|].
    rewrite lookup_insert_ne by done. apply (mo_retry _ _ _ Ok). }
  assert (forall (r : PeerRetryPolicy) q, is_Some (_retry s !! q) -> is_Some (<[p := r]> (_retry s) !! q)) as Hdom.
  { intros r q Hq. by apply lookup_insert_is_Some'; right. }
  assert (forall q c, q <> p -> _connections s !! q = Some c -> remote self peers q /\ _connection_peers s !! c = Some q /\ c <> conn) as Hother.
  { intros q c Hne Hc. destruct (mo_connections _ _ _ Ok q c Hc) as [? Hbc]. split; [done|]. split; [done|]. intros ->. naive_solver congruence. }
  destruct connected.
  - cbn. destruct Ok. split; cbn; try done.
    + intros q c. destruct (decide (q = p)) as [->|Hne]; [|rewrite lookup_insert_ne by done].
      * rewrite lookup_insert_eq. intros [= <-]. rewrite lookup_insert_eq. split; [split; [done|lia]|done].
      * intros Hc. destruct (Hother q c Hne Hc) as (? & ? & ?). by rewrite lookup_insert_ne.
    + apply Hins. by apply (retry_do_inv (Connected now)).
    + intros d q t Hq. by eapply Hdom, mo_timers0.
  - rewrite M_bind_unfold. cbn [modify]. case_bool_decide as Hcur.
    + pose proof (retry_do_inv (Disconnected now) _ Hri) as Hri'. cbn [retry_do] in Hri'.
      pose proof (retry_delay_bounds now _ Hri) as Hd.
      destruct (retry_Disconnected now _) as [plan policy]. cbn [fst snd] in *. rewrite M_bind_unfold. cbn [modify].
      assert (ok (s <| _connection_peers ::= delete conn |> <| _connections ::= delete p |> <| _retry ::= <[p := policy]> |>)) as Ok1.
      { destruct Ok. split; cbn; try done.
        - intros q c [Hne Hc]%lookup_delete_Some. destruct (Hother q c ltac:(congruence) Hc) as (? & ? & ?). by rewrite lookup_delete_ne.
        - by apply Hins.
        - intros d q t Hq. by eapply Hdom, mo_timers0. }
      destruct (Z.eqb_spec (rp_token plan) 0); [done|]. rewrite Ep.
      destruct (list_find _ peers) as [[i q]|] eqn:Ef; [|done]. apply list_find_Some in Ef as (Hq & Eq & _).
      apply emit_ok; [done| |].
      * split; [by eapply list_elem_of_lookup_2|]. split; [lia|by apply Hd].
      * intros d q' t [= <- <- <-]. cbn. rewrite Eq, lookup_insert_eq. eauto.
    + cbn. destruct Ok. split; cbn; try done. intros q c Hc. destruct (decide (q = p)) as [->|Hne].
      * destruct (mo_connections0 p c Hc) as [? ?]. by rewrite lookup_delete_ne by congruence.
      * destruct (Hother q c Hne Hc) as (? & ? & ?). by rewrite lookup_delete_ne.
Qed.

Lemma OnRetryTimer_ok peer token s : ok s -> op_ok s (PTimer peer token) -> ok (OnRetryTimer peer token s).2.
Proof.
  intros Ok [d Hd]. pose proof (mo_trace _ _ _ Ok _ Hd) as (Hp & Hlt & _). unfold OnRetryTimer. rewrite M_bind_unfold. cbn [get].
  destruct (_retry s !! peer_id peer) as [r|] eqn:Er; [|done]. pose proof (retry_do_inv (Retry token) _ (mo_retry _ _ _ Ok _ _ Er)) as Hri.
  cbn [retry_do] in Hri. destruct (retry_Consume token r) as [live r']. cbn [snd] in Hri. rewrite M_bind_unfold. cbn [modify].
  assert (ok (s <| _retry ::= <[peer_id peer := r']> |>)) as Ok1.
  { destruct Ok. split; cbn; try done.
    - intros q x. destruct (decide (q = peer_id peer)) as [->|]; [rewrite lookup_insert_eq; by intros [= <-]|].
      rewrite lookup_insert_ne by done. apply mo_retry0.
    - intros d' q t Hq. apply lookup_insert_is_Some'. right. by eapply mo_timers0. }
  destruct live; cbn [when]; [by apply ConnectToPeer_ok|done].
Qed.

Lemma dispatch_loop_ok handler fuel conn buf s : ok s -> ok (dispatch_loop handler fuel conn buf s).2.
Proof.
  revert buf s. induction fuel as [|fuel IH]; intros buf s Ok; cbn [dispatch_loop]; [done|]. destruct (#buf <? 4); [done|].
  destruct (TryDecode buf) as [[[m n]|]|e]; [|done|by apply (emit_ok (ForceCloses conn))]. rewrite M_bind_unfold.
  pose proof (RegisterPeerConnection_ok (dm_sender_id m) conn s Ok) as HR. destruct (RegisterPeerConnection _ _ s) as [[[]|e] s1]; cbn [negb].
  - destruct HR as [Ok1 HR]. rewrite M_bind_unfold.
    pose proof (emit_ok (Dispatches conn m) s1 Ok1 (HR eq_refl) ltac:(done)) as Ok2.
    destruct (peer_emit _ s1) as [[[]|e] s2]; [|done]. cbn in Ok2. rewrite M_bind_unfold. unfold lift_result. destruct (handler m) as [[]|e]; [by apply IH|done].
  - destruct HR as [Ok1 _]. by apply (emit_ok (ForceCloses conn)).
  - apply HR.
Qed.

Lemma pm_Send_ok connected queued p type payload s : ok s -> ok (pm_Send connected queued p type payload s).2.
Proof.
  intros Ok. unfold pm_Send. rewrite M_bind_unfold. cbn [get]. destruct (_connections s !! p) as [conn|]; [|done].
  destruct (connected conn); cbn [negb]; [|done]. destruct (_ || _); [done|]. rewrite M_bind_unfold. unfold lift_result.
  rewrite (proj1 (mo_self _ _ _ Ok)). destruct (Encode _ _ _) as [frame|e] eqn:EE; [|done].
  apply (emit_ok (Sends conn frame)); [done|by exists type, payload|done].
Qed.

Lemma pm_Broadcast_ok connected queued type payload s : ok s -> ok (pm_Broadcast connected queued type payload s).2.
Proof.
  intros Ok. unfold pm_Broadcast. rewrite M_bind_unfold. cbn [get]. generalize (_self_id s) as me. intros me.
  generalize (pm_all_peers s) as l. intros l. revert s Ok. induction l as [|q l IH]; intros s Ok; [done|].
  cbn [for_each]. rewrite M_bind_unfold. destruct (peer_id q =? me); [by apply IH|]. rewrite M_bind_unfold.
  pose proof (pm_Send_ok connected queued (peer_id q) type payload s Ok) as HD.
  destruct (pm_Send _ _ _ _ _ s) as [[b|e] s1]; [by apply IH|done].
Qed.

(** ** Frames *)

(** All of the effects from [s] to [s'] satisfy [P]. *)
Definition emits (P : peer_effect -> Prop) (s s' : PeerManager) : Prop := exists es, pm_trace s' = pm_trace s ++ es /\ Forall P es.

#[export] Instance emits_preorder P : PreOrder (emits P).
Proof.
  split.
  - intros s. exists []. split; [by rewrite app_nil_r|constructor].
  - intros s1 s2 s3 (es1 & E1 & H1) (es2 & E2 & H2). exists (es1 ++ es2). rewrite E2, E1, app_assoc. split; [done|by apply Forall_app].
Qed.

Lemma emits_none P s s' : pm_trace s' = pm_trace s -> emits P s s'.
Proof. intros E. exists []. rewrite E, app_nil_r. split; [done|constructor]. Qed.

Lemma emits_one (P : peer_effect -> Prop) e : P e -> evolves (emits P) (peer_emit e).
Proof. intros He s. exists [e]. split; [done|by apply Forall_singleton]. Qed.

Definition no_frame (e : peer_effect) : Prop := match e with Sends _ _ => False | _ => True end.

Ltac frameless :=
  repeat first
    [ by apply emits_one
    | apply evolves_modify; intros ?; by apply emits_none
    | apply evolves_bind; [exact _| |intros ?; cbv zeta]
    | apply evolves_ret; exact _ | apply evolves_get; exact _ | apply evolves_throw; exact _ | apply evolves_lift_result; exact _
    | apply evolves_when; [exact _|]
    | match goal with |- evolves _ (match ?x with _ => _ end) => destruct x end ].

Lemma dispatch_loop_frameless handler fuel conn buf : evolves (emits no_frame) (dispatch_loop handler fuel conn buf).
Proof.
  revert buf. induction fuel as [|fuel IH]; intros buf; cbn [dispatch_loop]; [frameless|]. unfold RegisterPeerConnection. frameless. apply IH.
Qed.

(** Only [Send] and [Broadcast] send. *)
Lemma frameless_op handler op :
  match op with PSend _ _ _ _ _ | PBroadcast _ _ _ _ => True | _ => evolves (emits no_frame) (peer_do handler op) end.
Proof.
  destruct op; cbn [peer_do]; try done.
  - unfold pm_Start. frameless. apply evolves_for_each; [exact _|]. intros p _. frameless.
  - unfold OnServerConnection. frameless.
  - unfold OnPeerConnection. frameless.
  - unfold OnRetryTimer. frameless.
  - apply evolves_bind; [exact _|apply dispatch_loop_frameless|]. intros b. frameless.
Qed.

Lemma pm_Send_frames connected queued p type payload s :
  ok s -> let s' := (pm_Send connected queued p type payload s).2 in
  s' = s \/ exists conn frame, frame_for self peers s connected type payload p conn frame /\
    s' = s <| pm_trace := pm_trace s ++ [Sends conn frame] |>.
Proof.
  intros Ok. unfold pm_Send. rewrite M_bind_unfold. cbn [get]. destruct (_connections s !! p) as [conn|] eqn:Ec; [|by left].
  destruct (connected conn) eqn:El; cbn [negb]; [|by left]. destruct (_ || _); [by left|]. rewrite M_bind_unfold. unfold lift_result.
  rewrite (proj1 (mo_self _ _ _ Ok)). destruct (Encode _ _ _) as [frame|e] eqn:EE; [right|by left].
  destruct (mo_connections _ _ _ Ok p conn Ec) as [Hr Hb]. by exists conn, frame.
Qed.

Lemma pm_Broadcast_frames connected queued type payload s :
  ok s -> emits (frame_allowed self peers s (PBroadcast connected queued type payload)) s (pm_Broadcast connected queued type payload s).2.
Proof.
  intros Ok0. unfold pm_Broadcast. rewrite M_bind_unfold. cbn [get]. generalize (_self_id s) as me. intros me.
  generalize (pm_all_peers s) as l. intros l.
  enough (forall s1, ok s1 -> _connections s1 = _connections s -> _connection_peers s1 = _connection_peers s ->
    emits (frame_allowed self peers s (PBroadcast connected queued type payload)) s1
      (for_each l (fun peer => if peer_id peer =? me then mret tt
        else _ ← pm_Send connected queued (peer_id peer) type payload; mret tt) s1).2) as HB by by apply HB.
  induction l as [|q l IH]; intros s1 Ok Ec Ep; [reflexivity|].
  cbn [for_each]. rewrite M_bind_unfold. destruct (peer_id q =? me); [by apply IH|]. rewrite M_bind_unfold.
  pose proof (pm_Send_ok connected queued (peer_id q) type payload s1 Ok) as Ok2.
  pose proof (pm_Send_frames connected queued (peer_id q) type payload s1 Ok) as HF. cbv zeta in HF.
  destruct (pm_Send _ _ _ _ _ s1) as [r s2]. cbn [snd] in *.
  assert (emits (frame_allowed self peers s (PBroadcast connected queued type payload)) s1 s2) as HE.
  { destruct HF as [->|(conn & frame & HF & ->)]; [reflexivity|]. exists [Sends conn frame]. split; [done|]. apply Forall_singleton.
    exists (peer_id q). unfold frame_for in *. by rewrite <- Ec, <- Ep. }
  destruct r as [b|e]; [|done]. etrans; [exact HE|].
  apply IH; [done|..]; destruct HF as [->|(conn & frame & _ & ->)]; done.
Qed.
End Manager.

Lemma peer_do_ok self peers handler op s :
  manager_ok self peers s -> op_ok s op -> manager_ok self peers (peer_do handler op s).2.
Proof.
  intros Ok Hop. destruct op as [|conn up|conn p up now|p token|conn buf|up queued p type payload|up queued type payload]; cbn [peer_do].
  - by apply pm_Start_ok.
  - by apply OnServerConnection_ok.
  - by apply OnPeerConnection_ok.
  - by apply OnRetryTimer_ok.
  - rewrite M_bind_unfold. pose proof (dispatch_loop_ok self peers handler (length buf) conn buf s Ok) as HD.
    unfold OnPeerMessage, ParseAndDispatch. by destruct (dispatch_loop _ _ _ _ s) as [[b|e] s'].
  - rewrite M_bind_unfold. pose proof (pm_Send_ok self peers up queued p type payload s Ok) as HD.
    by destruct (pm_Send _ _ _ _ _ s) as [[b|e] s'].
  - by apply pm_Broadcast_ok.
Qed.

Lemma peer_do_frames self peers handler op s :
  manager_ok self peers s -> emits (frame_allowed self peers s op) s (peer_do handler op s).2.
Proof.
  intros Ok. pose proof (frameless_op handler op) as HF.
  assert (forall e, no_frame e -> frame_allowed self peers s op e) as Hn by (by intros []).
  destruct op as [| | | | |up queued p type payload|up queued type payload];
    try (destruct (HF s) as (es & E & He); exists es; split; [done|by eapply Forall_impl]).
  - cbn [peer_do]. rewrite M_bind_unfold. pose proof (pm_Send_frames self peers up queued p type payload s Ok) as HS. cbv zeta in HS.
    assert (emits (frame_allowed self peers s (PSend up queued p type payload)) s (pm_Send up queued p type payload s).2) as HE.
    { destruct HS as [->|(conn & frame & HS & ->)]; [reflexivity|]. exists [Sends conn frame]. split; [done|]. by apply Forall_singleton. }
    by destruct (pm_Send _ _ _ _ _ s) as [[b|e] s'].
  - by apply pm_Broadcast_frames.
Qed.

Lemma reachable_manager_ok handler self peers s : peer_reachable handler self peers s -> manager_ok self peers s.
Proof.
  induction 1 as [s E|s op _ IH Hop]; [|by apply peer_do_ok].
  unfold new_peer_manager in E. destruct (ValidatePeers self peers); [|done]. cbn in E. injection E as <-.
  split; cbn; try done; intros *; rewrite ?lookup_empty; try done; set_solver.
Qed.

Lemma Register_keeps self peers s p c s' :
  manager_ok self peers s -> RegisterPeerConnection p c s = (Ok true, s') -> remote self peers p /\ _connections s' !! p = Some c.
Proof.
  intros Ok E. pose proof (RegisterPeerConnection_ok self peers p c s Ok) as HR. rewrite E in HR. split; [by apply HR|].
  revert E. unfold RegisterPeerConnection. rewrite M_bind_unfold. cbn [get].
  destruct (negb _); [done|]. destruct (match _connection_peers s !! c with Some _ => _ | None => _ end); [done|]. destruct (_ && _); [done|].
  cbn. intros [= <-]. cbn. by rewrite lookup_insert_eq.
Qed.

(** C35. Connections and peers stay in step: whatever connections open, close and deliver,
    the connection kept for a peer is bound to that peer, so no two peers share one; the
    node keeps connections to, dispatches messages from and reconnects to configured peers
    other than itself only; it opens connections only to peers with a larger identifier,
    and retries one after half a second to two seconds; a retry timer finds its peer's
    policy.  Frames are sent by [Send] and [Broadcast] alone, each under the node's own
    identifier, and those of a message for a peer only on a live connection bound to that
    peer, which is a configured one.  When a message of a peer is accepted, its connection
    is the one kept for the peer, so the answer the handler sends goes back on it. *)
Theorem peer_connections_are_consistent handler self peers s :
  peer_reachable handler self peers s ->
  (forall p q c, _connections s !! p = Some c -> _connections s !! q = Some c -> p = q) /\
  (forall p c, _connections s !! p = Some c -> remote self peers p /\ _connection_peers s !! c = Some p) /\
  (forall e, e ∈ pm_trace s -> peer_effect_ok self peers e) /\
  (forall p t, op_ok s (PTimer p t) -> is_ok (OnRetryTimer p t s).1 = true) /\
  (forall op, exists es, pm_trace (peer_do handler op s).2 = pm_trace s ++ es /\ Forall (frame_allowed self peers s op) es) /\
  (forall p c s', RegisterPeerConnection p c s = (Ok true, s') -> remote self peers p /\ _connections s' !! p = Some c).
Proof.
  intros R. pose proof (reachable_manager_ok _ _ _ _ R) as Ok. split.
  { intros p q c Hp Hq. destruct (mo_connections _ _ _ Ok p c Hp) as [_ E1], (mo_connections _ _ _ Ok q c Hq) as [_ E2]. congruence. }
  split; [apply Ok|]. split; [apply Ok|]. split; [|split; [intros op; by apply peer_do_frames|intros p c s'; by apply Register_keeps]].
  intros p t [d Hd]. destruct (mo_timers _ _ _ Ok d p t Hd) as [r Er].
  unfold OnRetryTimer. rewrite M_bind_unfold. cbn [get]. rewrite Er. destruct (retry_Consume t r) as [live r']. by destruct live.
Qed.

Module PeerWitness.
Definition peers : list PeerInfo := [MkPeerInfo 0 (lit "a") 9080; MkPeerInfo 1 (lit "b") 9081; MkPeerInfo 2 (lit "c") 9082].
Definition quiet : DecodedRaftMsg -> result unit := fun _ => Ok tt.
Definition manager : PeerManager := match new_peer_manager 1 peers with Ok s => s | Err _ => MkPeerManager 1 peers ∅ ∅ 0 false ∅ ∅ [] end.
Definition messages : list (RaftMsgType * bytes) := [(kAppendEntries, lit "one"); (kRequestVote, lit "two")].

(** The two frames of peer 0, cut inside the first and inside the second. *)
Lemma peer_streams_dispatch_in_order_witness :
  exists ms1 ms2 tail, messages = ms1 ++ ms2 /\
    feed quiet (lit "x") [take 5 (stream 0 messages); drop 5 (stream 0 messages)] [] manager = (Ok tail, delivered (lit "x") 0 ms1 manager) /\
    ms1 = messages.
Proof.
  destruct (peer_streams_dispatch_in_order quiet (lit "x") 0 messages [take 5 (stream 0 messages); drop 5 (stream 0 messages)] [] manager)
    as (ms1 & ms2 & tail & E1 & E2 & _ & _ & E5).
  - done.
  - by vm_compute.
  - repeat constructor; by vm_compute.
  - split; [apply (bool_decide_unpack _); by vm_compute|]. split; [done|]. right. split; [done|]. by vm_compute.
  - by vm_compute.
  - exists ms1, ms2, tail. split; [exact E1|]. split; [exact E2|]. by apply E5.
Defined.

Definition connected_manager : PeerManager := (RegisterPeerConnection 0 (lit "x") manager).2.

Lemma peer_send_is_bounded_witness :
  (pm_Send (fun _ => true) (fun _ => 100) 0 kAppendEntries (lit "one") connected_manager).1 = Ok true /\
  (forall s, pm_Send (fun _ => true) (fun _ => max_queued) 0 kAppendEntries (lit "one") connected_manager = (Ok false, s) -> s = connected_manager).
Proof.
  split; [by vm_compute|]. intros s E.
  pose proof (peer_send_is_bounded (fun _ => true) (fun _ => max_queued) 0 kAppendEntries (lit "one") connected_manager) as HS.
  rewrite E in HS. apply HS; [by vm_compute|done].
Defined.

(** Peer 0 has connected and sent two messages; then the node broadcasts one. *)
Definition served : PeerManager := (peer_do quiet (PMessage (lit "x") (stream 0 messages)) manager).2.
Definition broadcast : peer_op := PBroadcast (fun _ => true) (fun _ => 0) kAppendEntries (lit "one").

Lemma peer_connections_are_consistent_witness :
  peer_reachable quiet 1 peers served /\
  (forall p c, _connections served !! p = Some c -> remote 1 peers p) /\
  pm_trace (peer_do quiet broadcast served).2 = pm_trace served ++ [Sends (lit "x") (frame_of 1 (kAppendEntries, lit "one"))] /\
  exists p, frame_for 1 peers served (fun _ => true) kAppendEntries (lit "one") p (lit "x") (frame_of 1 (kAppendEntries, lit "one")).
Proof.
  assert (peer_reachable quiet 1 peers served) as R.
  { apply PR_op; [|exact I]. apply PR_new. by vm_compute. }
  assert (pm_trace (peer_do quiet broadcast served).2 = pm_trace served ++ [Sends (lit "x") (frame_of 1 (kAppendEntries, lit "one"))]) as E
    by (vm_compute; reflexivity).
  destruct (peer_connections_are_consistent quiet 1 peers served R) as (_ & HC & _ & _ & HF & _).
  split; [exact R|]. split; [intros p c Hc; apply (HC p c Hc)|]. split; [exact E|].
  destruct (HF broadcast) as (es & E' & Hes). rewrite E in E'. apply app_inv_head in E'. subst es. exact (Forall_inv Hes).
Defined.
End PeerWitness.
