(* ===== verification/RaftState.v ===== *)
(** The state of a Raft node (src/src/raft/raft_node.h): the class's members as
    records, the environment its code consults, and the effects it has.

    The steady clock, the random election timeouts, [PeerManager::Send] and
    [ApplyExecutor::Submit] answer from the outside: each call takes the next
    answer of [Env].  What the node does to the outside is appended to [_trace]:
    durable hard-state writes, messages, replies to clients, log lines on role
    changes.  Callbacks are identified by a number and do not re-enter the node,
    as the class's contract asks. *)
From stdpp Require Import base numbers strings gmap list.
From S2P Require Import Prelude Effects Storage Messages RaftLog KVStore KVStateMachine Metrics Peers.

(** * Constants; times are nanoseconds *)

Definition ms (n : Z) : Z := n * 1000000.
Definition kTickIntervalMs : Z := 10.
Definition kHeartbeatIntervalMs : Z := 50.
Definition kMinElectionTimeoutMs : Z := 150.
Definition kMaxElectionTimeoutMs : Z := 300.
Definition kProposalTimeoutMs : Z := 1000.
Definition kRpcRetryMs : Z := kHeartbeatIntervalMs.
Definition kMaxPending : Z := 1024.
Definition kMaxPendingBytes : Z := 16 * 1024 * 1024.
Definition kMaxBatchBytes : Z := 2 * 1024 * 1024.
Definition kMaxBatchEntries : nat := 128.
Definition kMaxPendingReadIndex : Z := 10000.
Definition kReadIndexTimeoutMs : Z := 1000.

(** * Messages and effects *)

Inductive Message :=
  | MRequestVote (m : RequestVote)
  | MRequestVoteResponse (m : RequestVoteResponse)
  | MAppendEntries (m : AppendEntries)
  | MAppendEntriesResponse (m : AppendEntriesResponse)
  | MInstallSnapshot (m : Messages.InstallSnapshot)
  | MInstallSnapshotResponse (m : InstallSnapshotResponse).
#[export] Instance Message_eq_dec : EqDecision Message.
Proof. solve_decision. Defined.

Inductive NodeState := FOLLOWER | PRE_CANDIDATE | CANDIDATE | LEADER.
#[export] Instance NodeState_eq_dec : EqDecision NodeState.
Proof. solve_decision. Defined.

Inductive Effect :=
  | Persisted (term voted_for : Z)
  | Sent (peer : Z) (m : Message)
  | Broadcasted (m : Message)
  | Logged (role : NodeState) (term : Z)
  | ProposeReply (callback : nat) (ok : bool) (reply : bytes)
  | ReadReply (callback : nat) (ok : bool) (read_index : Z) (error : bytes).
#[export] Instance Effect_eq_dec : EqDecision Effect.
Proof. solve_decision. Defined.

(** * Members *)

Record Inflight := MkInflight {
  fl_id : Z; fl_last_index : Z; fl_elapsed_ms : Z; fl_entries : Z;
  fl_first_send : Z; fl_lease_sent_at : Z; fl_payload : option Message;
  fl_append : bool; (* [type == kAppendEntries] *)
  fl_snapshot : bool; fl_snapshot_offset : Z; fl_snapshot_chunk : Z;
  fl_snapshot_index : Z; fl_snapshot_term : Z; fl_snapshot_data : bytes }.
Definition no_flight : Inflight := MkInflight 0 0 0 0 0 0 None true false 0 0 0 0 [].

#[export] Instance Inflight_fields : Fields Inflight :=
  {| rebuild := fun r => MkInflight (fl_id r) (fl_last_index r) (fl_elapsed_ms r) (fl_entries r)
       (fl_first_send r) (fl_lease_sent_at r) (fl_payload r) (fl_append r) (fl_snapshot r)
       (fl_snapshot_offset r) (fl_snapshot_chunk r) (fl_snapshot_index r) (fl_snapshot_term r)
       (fl_snapshot_data r);
     rebuild_id := fun r => match r with MkInflight _ _ _ _ _ _ _ _ _ _ _ _ _ _ => eq_refl end |}.

Record SnapshotReceive := MkSnapshotReceive { sr_index : Z; sr_term : Z; sr_data : bytes }.
Definition no_receive : SnapshotReceive := MkSnapshotReceive (-1) (-1) [].

Record ReadIndexRequest := MkReadIndexRequest { rq_read_index : Z; rq_callback : nat; rq_created_at : Z }.

Record HeartbeatRound := MkHeartbeatRound {
  hr_round_id : Z; hr_acks : gset Z; hr_requests : list ReadIndexRequest;
  hr_probe_rpc_ids : gmap Z Z; hr_sent_at : Z; hr_confirmed : bool }.

#[export] Instance HeartbeatRound_fields : Fields HeartbeatRound :=
  {| rebuild := fun r => MkHeartbeatRound (hr_round_id r) (hr_acks r) (hr_requests r)
       (hr_probe_rpc_ids r) (hr_sent_at r) (hr_confirmed r);
     rebuild_id := fun r => match r with MkHeartbeatRound _ _ _ _ _ _ => eq_refl end |}.

Record Pending := MkPending { pd_callback : option nat; pd_bytes : Z; pd_created_at : Z }.

(** The ReadIndex members. *)
Record ReadState := MkReadState {
  _can_serve_read : bool; _next_round_id : Z; _heartbeat_rounds : list HeartbeatRound;
  _heartbeat_in_flight : bool; _completing_reads : bool;
  _unsent_reads : list ReadIndexRequest; _pending_reads : list ReadIndexRequest;
  _read_index_total : Z; _read_index_succeeded : Z; _read_index_timeout : Z;
  _read_index_not_leader : Z; _read_index_overload : Z; _read_index_lease : Z }.
Definition no_reads : ReadState := MkReadState false 0 [] false false [] [] 0 0 0 0 0 0.

#[export] Instance ReadState_fields : Fields ReadState :=
  {| rebuild := fun r => MkReadState (_can_serve_read r) (_next_round_id r) (_heartbeat_rounds r)
       (_heartbeat_in_flight r) (_completing_reads r) (_unsent_reads r) (_pending_reads r)
       (_read_index_total r) (_read_index_succeeded r) (_read_index_timeout r)
       (_read_index_not_leader r) (_read_index_overload r) (_read_index_lease r);
     rebuild_id := fun r => match r with MkReadState _ _ _ _ _ _ _ _ _ _ _ _ _ => eq_refl end |}.

(** The statistics members. *)
Record NodeStats := MkNodeStats {
  _snapshot_oversize_skips : Z; _proposal_batches : Z; _proposal_timeouts : Z; _apply_batches : Z;
  _leader_log_write : BatchStats; _follower_log_write : BatchStats; _kv_apply : BatchStats;
  _replication_data_ack : LatencyStats; _apply_dispatch : LatencyStats;
  _replication_retry_attempts : Z }.
Definition no_stats : NodeStats :=
  MkNodeStats 0 0 0 0 no_batches no_batches no_batches no_latency no_latency 0.

#[export] Instance NodeStats_fields : Fields NodeStats :=
  {| rebuild := fun r => MkNodeStats (_snapshot_oversize_skips r) (_proposal_batches r)
       (_proposal_timeouts r) (_apply_batches r) (_leader_log_write r) (_follower_log_write r)
       (_kv_apply r) (_replication_data_ack r) (_apply_dispatch r) (_replication_retry_attempts r);
     rebuild_id := fun r => match r with MkNodeStats _ _ _ _ _ _ _ _ _ _ => eq_refl end |}.

(** The batch handed to the apply executor: what the worker will run, what its
    completion captured, and the outcome once the worker has run it. *)
Record ApplyWork := MkApplyWork {
  aw_first : Z; aw_commands : list bytes; aw_bytes : Z; aw_results : option (result (list bytes)) }.

Section RaftNode.
Context `{RocksDB}.

Record RaftNode := mkRaftNode {
  _node_id : Z;
  _all_peers : list PeerInfo;
  _sm : RocksDBStore;
  _apply_executor : bool; (* whether an executor was given *)
  _apply_inflight : bool;
  _apply_work : option ApplyWork;
  _storage_healthy : bool;
  _log : RaftLog;
  _current_term : Z;
  _voted_for : Z;
  _state : NodeState;
  _running : bool;
  _commit_index : Z;
  _last_applied : Z;
  _leader_id : Z;
  _votes : gset Z;
  _next_index : gmap Z Z;
  _match_index : gmap Z Z;
  _inflight : gmap Z Inflight;
  _snapshot_receive : SnapshotReceive;
  _snapshot_threshold : Z;
  _last_snapshot_attempt : Z;
  _lease_reads : bool;
  _snapshot_chunk_bytes : Z;
  _rpc_sequence : Z;
  _election_deadline : Z;
  _leader_since : Z;
  _peer_active : gmap Z Z;
  _lease_confirmed : gmap Z Z;
  _heartbeat_timer_ms : Z;
  _pending : gmap Z Pending;
  _pending_bytes : Z;
  _stats : NodeStats;
  _reads : ReadState;
  _answers : nat; (* how many answers of the environment were taken *)
  _trace : list Effect;
}.

#[export] Instance RaftNode_fields : Fields RaftNode :=
  {| rebuild := fun r => mkRaftNode (_node_id r) (_all_peers r) (_sm r) (_apply_executor r)
       (_apply_inflight r) (_apply_work r) (_storage_healthy r) (_log r) (_current_term r) (_voted_for r)
       (_state r) (_running r) (_commit_index r) (_last_applied r) (_leader_id r) (_votes r)
       (_next_index r) (_match_index r) (_inflight r) (_snapshot_receive r) (_snapshot_threshold r)
       (_last_snapshot_attempt r) (_lease_reads r) (_snapshot_chunk_bytes r) (_rpc_sequence r)
       (_election_deadline r) (_leader_since r) (_peer_active r) (_lease_confirmed r)
       (_heartbeat_timer_ms r) (_pending r) (_pending_bytes r) (_stats r) (_reads r) (_answers r)
       (_trace r);
     rebuild_id := fun r => match r with
       mkRaftNode _ _ _ _ _ _ _ _ _ _ _ _ _ _ _ _ _ _ _ _ _ _ _ _ _ _ _ _ _ _ _ _ _ _ _ _ => eq_refl end |}.

(** * The environment *)

Class Env := {
  env_clock : nat -> Z;      (* SteadyClock::now() *)
  env_timeout : nat -> Z;    (* the uniform election timeout, ms *)
  env_send : nat -> bool;    (* PeerManager::Send *)
  env_submit : nat -> bool;  (* ApplyExecutor::Submit *)
}.

(** What the code relies on: a steady clock and the range of the distribution. *)
Class EnvSpec `{Env} : Prop := {
  clock_steady n : env_clock n <= env_clock (S n);
  timeout_range n : kMinElectionTimeoutMs <= env_timeout n <= kMaxElectionTimeoutMs;
}.

Context `{Env}.

Definition ask {A} (answers : nat -> A) : M RaftNode A :=
  n ← gets _answers; modify (fun s => s <| _answers ::= S |>);; mret (answers n).

Definition emit (e : Effect) : M RaftNode unit := modify (fun s => s <| _trace ::= fun t => t ++ [e] |>).

Definition Now : M RaftNode Z := ask env_clock.

(** [_peer_mgr->Send] and [Broadcast]: the frame leaves or the call says it did
    not. *)
Definition Send (peer : Z) (m : Message) : M RaftNode bool :=
  ok ← ask env_send; when ok (emit (Sent peer m));; mret ok.
Definition Broadcast (m : Message) : M RaftNode unit := emit (Broadcasted m).

Definition on_log {A} (m : M RaftLog A) : M RaftNode A := lens _log (fun l s => s <| _log := l |>) m.
Definition on_sm {A} (m : M RocksDBStore A) : M RaftNode A := lens _sm (fun t s => s <| _sm := t |>) m.
(** Both stores, for the installation of a snapshot. *)
Definition on_stores {A} (m : M (RocksDBStore * RaftLog) A) : M RaftNode A :=
  lens (fun s => (_sm s, _log s)) (fun p s => s <| _sm := p.1 |> <| _log := p.2 |>) m.

Definition SaveHardState (term voted_for : Z) : M RaftNode unit :=
  on_log (RaftLog.SaveHardState term voted_for);; emit (Persisted term voted_for).

Definition at_key {A} (m : gmap Z A) (k : Z) : M RaftNode A :=
  match m !! k with Some a => mret a | None => throw (out_of_range "map::at") end.

Definition set_flight (peer : Z) (f : Inflight) : M RaftNode unit :=
  modify (fun s => s <| _inflight ::= <[peer := f]> |>).

Definition on_stats (f : NodeStats -> NodeStats) : M RaftNode unit := modify (fun s => s <| _stats ::= f |>).
Definition on_reads (f : ReadState -> ReadState) : M RaftNode unit := modify (fun s => s <| _reads ::= f |>).

Definition QuorumSize (s : RaftNode) : Z := #(_all_peers s) / 2 + 1.
Definition IsLeader (s : RaftNode) : bool := _running s && bool_decide (_state s = LEADER).

(** The getters of raft_node.h. *)
Definition IsHealthy (s : RaftNode) : bool := _storage_healthy s.
Definition GetLeaderId (s : RaftNode) : Z := _leader_id s.
Definition GetNodeId (s : RaftNode) : Z := _node_id s.
Definition GetCurrentTerm (s : RaftNode) : Z := _current_term s.
Definition GetCommitIndex (s : RaftNode) : Z := _commit_index s.
Definition GetLastApplied (s : RaftNode) : Z := _last_applied s.
Definition SnapshotIndex (s : RaftNode) : Z := _snapshot_index (_log s).
Definition MatchIndexOf (peer_id : Z) (s : RaftNode) : Z := default (-1) (_match_index s !! peer_id).
Definition HasInflightRpc (peer_id : Z) (s : RaftNode) : bool :=
  match _inflight s !! peer_id with Some f => negb (fl_id f =? 0) | None => false end.
Definition PendingProposals (s : RaftNode) : Z := Z.of_nat (size (_pending s)).
Definition PendingBytes (s : RaftNode) : Z := _pending_bytes s.
Definition ProposalBatches (s : RaftNode) : Z := _proposal_batches (_stats s).
Definition ApplyBatches (s : RaftNode) : Z := _apply_batches (_stats s).
Definition ApplyInFlight (s : RaftNode) : bool := _apply_inflight s.
Definition AsyncApplyEnabled (s : RaftNode) : bool := _apply_executor s.

Definition IsRemotePeer (id : Z) (s : RaftNode) : bool :=
  negb (id =? _node_id s) && bool_decide (is_Some (_next_index s !! id)).

Definition ResetElectionTimer : M RaftNode unit :=
  timeout ← ask env_timeout;
  now ← Now;
  modify (fun s => s <| _election_deadline := now + ms timeout |>).

Definition NotePeerContact (peer : Z) : M RaftNode unit :=
  now ← Now; modify (fun s => s <| _peer_active ::= <[peer := now]> |>).

End RaftNode.
Arguments RaftNode {_}.
