(* ===== verification/RaftNode.v ===== *)
(** The Raft node (src/src/raft/raft_node.cc): every member function, in the
    order their calls need.  [EventLog] lines other than role changes are left
    out; they have no effect on the node. *)
From stdpp Require Import base numbers strings sorting gmap list.
From S2P Require Import Prelude Effects Text Storage Messages RaftLog Resp KVStore KVStateMachine Metrics Peers RaftCodec RaftState.

(** [std::sort] with [std::greater]. *)
Definition desc : relation Z := fun x y => y <= x.
#[export] Instance desc_dec : RelDecision desc.
Proof. intros x y. unfold desc. apply _. Defined.
Definition sort_desc (l : list Z) : list Z := merge_sort desc l.

Section Node.
Context `{RocksDB} `{LogEntryCodec} `{!Env}.
Abbreviation Node := (M RaftNode).

(** * Replication *)

Definition BindReadIndexProbe (peer rpc_id : Z) : Node unit :=
  let fix bind_first rounds :=
    match rounds with
    | [] => []
    | round :: rounds =>
        if hr_confirmed round || bool_decide (is_Some (hr_probe_rpc_ids round !! peer))
        then round :: bind_first rounds
        else (round <| hr_probe_rpc_ids ::= <[peer := rpc_id]> |>) :: rounds
    end in
  on_reads (fun r => r <| _heartbeat_rounds ::= bind_first |>).

Definition next_rpc_id : Node Z :=
  seq ← gets _rpc_sequence;
  if seq =? UINT64_MAX then throw (runtime_error "Raft RPC sequence exhausted")
  else modify (fun s => s <| _rpc_sequence := seq + 1 |>);; mret (seq + 1).

Definition SendSnapshotChunk (peer : Z) : Node unit :=
  s ← get;
  flight ← at_key (_inflight s) peer;
  let size := #(fl_snapshot_data flight) in
  if size <? fl_snapshot_offset flight then throw (runtime_error "snapshot send offset past the end")
  else
    let remain := size - fl_snapshot_offset flight in
    let chunk := Z.min (_snapshot_chunk_bytes s) remain in
    rpc_id ← next_rpc_id;
    let request := mkInstallSnapshot (_current_term s) (_node_id s) (fl_snapshot_index flight)
      (fl_snapshot_term flight) (fl_snapshot_offset flight)
      (take (Z.to_nat chunk) (drop (Z.to_nat (fl_snapshot_offset flight)) (fl_snapshot_data flight)))
      (fl_snapshot_offset flight + chunk =? size) rpc_id in
    now ← Now;
    let flight := flight <| fl_id := rpc_id |> <| fl_snapshot_chunk := chunk |>
      <| fl_last_index := fl_snapshot_index flight |> <| fl_entries := 0 |> <| fl_elapsed_ms := 0 |>
      <| fl_append := false |> <| fl_first_send := now |> <| fl_payload := Some (MInstallSnapshot request) |> in
    set_flight peer flight;;
    sent ← Send peer (MInstallSnapshot request);
    when (negb sent) (set_flight peer (flight <| fl_id := 0 |>)).

(** The loop that fills an AppendEntries request from [index] on.  It stops at
    the latest when [kMaxBatchEntries] entries are in, so the fuel below is
    never used up. *)
Fixpoint gather_entries (fuel : nat) (index : Z) (entries : list LogEntry) (bytes last : Z)
  : Node (list LogEntry * Z) :=
  match fuel with
  | O => mret (entries, last)
  | S fuel =>
      s ← get;
      if _last_index (_log s) <? index then mret (entries, last)
      else
        entry ← on_log (RaftLog.Get index);
        match entry with
        | None => throw (runtime_error "missing replication entry")
        | Some entry =>
            let size := ByteSizeLong entry + 16 in
            if kMaxBatchBytes - 128 <? size then throw (runtime_error "oversized Raft entry")
            else if (kMaxBatchEntries <=? length entries)%nat || (kMaxBatchBytes - bytes <? size)
            then mret (entries, last)
            else if index =? INT64_MAX then mret (entries ++ [entry], index)
            else gather_entries fuel (index + 1) (entries ++ [entry]) (bytes + size) index
        end
  end.

Definition SendAppendEntries (peer : Z) : Node unit :=
  s ← get;
  flight ← at_key (_inflight s) peer;
  if negb (fl_id flight =? 0) then
    if kRpcRetryMs <=? fl_elapsed_ms flight then
      match fl_payload flight with
      | None => mret tt
      | Some payload =>
          sent ← Send peer payload;
          when sent (set_flight peer (flight <| fl_elapsed_ms := 0 |>);;
                     on_stats (fun st => st <| _replication_retry_attempts ::= Z.succ |>))
      end
    else mret tt
  else
    next ← at_key (_next_index s) peer;
    if (0 <? _snapshot_index (_log s)) && (next <=? _snapshot_index (_log s)) then
      set_flight peer (flight <| fl_snapshot := true |> <| fl_snapshot_data := _snapshot_data (_log s) |>
        <| fl_snapshot_index := _snapshot_index (_log s) |>
        <| fl_snapshot_term := _snapshot_term (_log s) |> <| fl_snapshot_offset := 0 |>);;
      SendSnapshotChunk peer
    else
      let previous := next - 1 in
      prev_term ← on_log (GetTerm previous);
      rpc_id ← next_rpc_id;
      gathered ← gather_entries (S kMaxBatchEntries) next [] 128 previous;
      let '(entries, last) := gathered in
      let request := mkAppendEntries (_current_term s) (_node_id s) previous prev_term entries
                       (_commit_index s) rpc_id in
      lease_sent_at ← Now;
      sent ← Send peer (MAppendEntries request);
      if (sent : bool) then
        first_send ← Now;
        set_flight peer (flight <| fl_id := rpc_id |> <| fl_last_index := last |> <| fl_elapsed_ms := 0 |>
          <| fl_entries := #entries |> <| fl_append := true |> <| fl_snapshot := false |>
          <| fl_payload := Some (MAppendEntries request) |> <| fl_first_send := first_send |>
          <| fl_lease_sent_at := lease_sent_at |>);;
        BindReadIndexProbe peer rpc_id
      else mret tt.

Definition BroadcastAppendEntries : Node unit :=
  s ← get;
  for_each (_all_peers s) (fun peer => when (negb (peer_id peer =? _node_id s)) (SendAppendEntries (peer_id peer))).

(** * ReadIndex *)

Definition PendingReadIndexCount (r : ReadState) : Z :=
  foldl (fun n round => n + #(hr_requests round)) (#(_pending_reads r) + #(_unsent_reads r)) (_heartbeat_rounds r).

(** [if (_last_applied >= req.read_index) callback(true, ...) else pending]. *)
Definition complete_read (req : ReadIndexRequest) : Node unit :=
  emit (ReadReply (rq_callback req) true (rq_read_index req) []);;
  on_reads (fun r => r <| _read_index_succeeded ::= Z.succ |>).

Definition set_completing (b : bool) : Node unit := on_reads (fun r => r <| _completing_reads := b |>).

(** The requests leave the round before any callback runs. *)
Definition ProcessConfirmedRound (requests : list ReadIndexRequest) : Node unit :=
  nested ← gets (fun s => _completing_reads (_reads s));
  set_completing true;;
  for_each requests (fun req =>
    applied ← gets _last_applied;
    if rq_read_index req <=? applied then complete_read req
    else on_reads (fun r => r <| _pending_reads ::= fun q => q ++ [req] |>));;
  set_completing nested.

(** One turn of the [while] of [TryStartReadRound]; a callback that does not
    re-enter leaves [_unsent_reads] empty, so a second turn never starts. *)
Definition TryStartReadRound : Node unit :=
  s ← get;
  if bool_decide (_unsent_reads (_reads s) = []) || negb (bool_decide (_heartbeat_rounds (_reads s) = [])) then mret tt
  else
    let requests := _unsent_reads (_reads s) in
    let round_id := uN 64 (_next_round_id (_reads s) + 1) in
    now ← Now;
    on_reads (fun r => r <| _next_round_id := round_id |> <| _unsent_reads := [] |>
      <| _heartbeat_rounds := [MkHeartbeatRound round_id {[_node_id s]} requests ∅ now false] |>
      <| _heartbeat_in_flight := true |>);;
    when (QuorumSize s =? 1)
      (on_reads (fun r => r <| _heartbeat_rounds := [MkHeartbeatRound round_id {[_node_id s]} [] ∅ now true] |>);;
       ProcessConfirmedRound requests;;
       on_reads (fun r => r <| _heartbeat_rounds ::= tail |> <| _heartbeat_in_flight := false |>)).

Definition MaybeSendReadProbes : Node unit :=
  s ← get;
  match _heartbeat_rounds (_reads s) with
  | [] => mret tt
  | round :: _ =>
      if hr_confirmed round then mret tt
      else
        for_each (_all_peers s) (fun peer =>
          (* [round] is a reference: the probes bound so far are seen *)
          rounds ← gets (fun s => _heartbeat_rounds (_reads s));
          let bound := match rounds with
                       | round :: _ => bool_decide (is_Some (hr_probe_rpc_ids round !! peer_id peer))
                       | [] => false
                       end in
          when (negb ((peer_id peer =? _node_id s) || bound)) (SendAppendEntries (peer_id peer)))
  end.

Fixpoint drop_confirmed (rounds : list HeartbeatRound) : list HeartbeatRound :=
  match rounds with
  | round :: rest => if hr_confirmed round then drop_confirmed rest else rounds
  | [] => []
  end.

Definition FinishReadIndexRounds : Node unit :=
  on_reads (fun r => r <| _heartbeat_rounds ::= drop_confirmed |>);;
  on_reads (fun r => r <| _heartbeat_in_flight := negb (bool_decide (_heartbeat_rounds r = [])) |>);;
  TryStartReadRound;;
  MaybeSendReadProbes.

(** The [while] over the front of the queue, on the queue as it was at entry:
    callbacks do not push. *)
Fixpoint pending_loop (queue : list ReadIndexRequest) : Node unit :=
  match queue with
  | [] => mret tt
  | req :: queue =>
      applied ← gets _last_applied;
      if rq_read_index req <=? applied then
        on_reads (fun r => r <| _pending_reads ::= tail |>);;
        complete_read req;;
        pending_loop queue
      else mret tt
  end.

Definition ProcessPendingReads : Node unit :=
  nested ← gets (fun s => _completing_reads (_reads s));
  set_completing true;;
  queue ← gets (fun s => _pending_reads (_reads s));
  pending_loop queue;;
  set_completing nested;;
  when (negb nested) FinishReadIndexRounds.

Definition fail_read (error : bytes) (req : ReadIndexRequest) : Node unit :=
  emit (ReadReply (rq_callback req) false (-1) error).
Definition expire_read (error : bytes) (req : ReadIndexRequest) : Node unit :=
  fail_read error req;; on_reads (fun r => r <| _read_index_timeout ::= Z.succ |>).

Fixpoint expire_rounds (now : Z) (rounds : list HeartbeatRound) : Node unit :=
  match rounds with
  | [] => mret tt
  | round :: rounds =>
      if now - hr_sent_at round <? ms kMinElectionTimeoutMs then mret tt
      else
        for_each (hr_requests round) (expire_read (lit "read index timeout"));;
        on_reads (fun r => r <| _heartbeat_rounds ::= tail |>);;
        expire_rounds now rounds
  end.

(** The [timeout_queue] lambda; [drop_front] pops the queue it walks. *)
Fixpoint expire_queue (now : Z) (reason : bytes) (queue : list ReadIndexRequest)
    (drop_front : ReadState -> ReadState) : Node unit :=
  match queue with
  | [] => mret tt
  | req :: queue =>
      if now - rq_created_at req <=? ms kReadIndexTimeoutMs then mret tt
      else expire_read reason req;; on_reads drop_front;; expire_queue now reason queue drop_front
  end.

Definition CheckReadIndexTimeout : Node unit :=
  now ← Now;
  nested ← gets (fun s => _completing_reads (_reads s));
  set_completing true;;
  rounds ← gets (fun s => _heartbeat_rounds (_reads s));
  expire_rounds now rounds;;
  on_reads (fun r => r <| _heartbeat_in_flight := negb (bool_decide (_heartbeat_rounds r = [])) |>);;
  unsent ← gets (fun s => _unsent_reads (_reads s));
  expire_queue now (lit "read index timeout") unsent (fun r => r <| _unsent_reads ::= tail |>);;
  pending ← gets (fun s => _pending_reads (_reads s));
  expire_queue now (lit "apply timeout") pending (fun r => r <| _pending_reads ::= tail |>);;
  set_completing nested.

Definition ClearReadIndexQueues (reason : bytes) : Node unit :=
  nested ← gets (fun s => _completing_reads (_reads s));
  set_completing true;;
  rounds ← gets (fun s => _heartbeat_rounds (_reads s));
  for_each rounds (fun round => for_each (hr_requests round) (fail_read reason));;
  on_reads (fun r => r <| _heartbeat_rounds := [] |> <| _heartbeat_in_flight := false |>);;
  unsent ← gets (fun s => _unsent_reads (_reads s));
  for_each unsent (fail_read reason);;
  on_reads (fun r => r <| _unsent_reads := [] |>);;
  pending ← gets (fun s => _pending_reads (_reads s));
  for_each pending (fail_read reason);;
  on_reads (fun r => r <| _pending_reads := [] |>);;
  set_completing nested.

(** The loop of [AckReadIndexProbe] over the rounds: the updated rounds and the
    requests of the round it confirmed. *)
Fixpoint ack_rounds (from rpc_id now quorum : Z) (rounds : list HeartbeatRound)
  : list HeartbeatRound * option (list ReadIndexRequest) :=
  match rounds with
  | [] => ([], None)
  | round :: rest =>
      if hr_confirmed round || negb (bool_decide (hr_probe_rpc_ids round !! from = Some rpc_id))
      then let '(rest, confirmed) := ack_rounds from rpc_id now quorum rest in (round :: rest, confirmed)
      else if ms kMinElectionTimeoutMs <=? now - hr_sent_at round then (rounds, None)
      else
        let acks := {[from]} ∪ hr_acks round in
        if quorum <=? Z.of_nat (size acks) then
          (* [ProcessConfirmedRound] moves the requests out *)
          ((round <| hr_acks := acks |> <| hr_confirmed := true |> <| hr_requests := [] |>) :: rest,
           Some (hr_requests round))
        else ((round <| hr_acks := acks |>) :: rest, None)
  end.

Definition AckReadIndexProbe (from rpc_id : Z) : Node unit :=
  now ← Now;
  s ← get;
  let '(rounds, confirmed) := ack_rounds from rpc_id now (QuorumSize s) (_heartbeat_rounds (_reads s)) in
  on_reads (fun r => r <| _heartbeat_rounds := rounds |>);;
  match confirmed with
  | Some requests => ProcessConfirmedRound requests
  | None => mret tt
  end.

Definition heard_recently (last_heard : gmap Z Z) (now id : Z) : bool :=
  match last_heard !! id with Some t => now - t <? ms kMinElectionTimeoutMs | None => false end.
(** The number of [peers] heard within the minimum election timeout. *)
Definition fresh_peers (peers : list PeerInfo) (last_heard : gmap Z Z) (now : Z) : Z :=
  #(filter (fun peer => heard_recently last_heard now (peer_id peer) = true) peers).

Definition ReadLeaseValid : Node bool :=
  s ← get;
  if negb (_lease_reads s) || negb (IsLeader s) || negb (_can_serve_read (_reads s)) then mret false
  else
    now ← Now;
    if now - _leader_since s <? ms kMaxElectionTimeoutMs then mret false
    else if QuorumSize s <=? 1 then mret true
    else mret (QuorumSize s <=? 1 + fresh_peers (filter (fun peer => peer_id peer <> _node_id s) (_all_peers s)) (_lease_confirmed s) now).

Definition reject_read (callback : nat) (error : bytes) : Node bool :=
  emit (ReadReply callback false (-1) error);; mret false.

Definition RequestReadIndex (callback : nat) : Node bool :=
  on_reads (fun r => r <| _read_index_total ::= Z.succ |>);;
  s ← get;
  if negb (IsLeader s) then
    on_reads (fun r => r <| _read_index_not_leader ::= Z.succ |>);;
    reject_read callback (if _leader_id s =? -1 then lit "no leader" else lit "not leader")
  else if negb (_can_serve_read (_reads s)) then
    on_reads (fun r => r <| _read_index_not_leader ::= Z.succ |>);;
    reject_read callback (lit "waiting for leader to commit no-op")
  else if kMaxPendingReadIndex <=? PendingReadIndexCount (_reads s) then
    on_reads (fun r => r <| _read_index_overload ::= Z.succ |>);;
    reject_read callback (lit "read index queue full")
  else
    lease ← ReadLeaseValid;
    if (lease : bool) then
      on_reads (fun r => r <| _read_index_lease ::= Z.succ |>);;
      now ← Now;
      let req := MkReadIndexRequest (_commit_index s) callback now in
      if (_last_applied s <? rq_read_index req) || _completing_reads (_reads s) then
        on_reads (fun r => r <| _pending_reads ::= fun q => q ++ [req] |>);; mret true
      else
        set_completing true;; complete_read req;; set_completing false;;
        ProcessPendingReads;; mret true
    else
      now ← Now;
      on_reads (fun r => r <| _unsent_reads ::= fun q => q ++ [MkReadIndexRequest (_commit_index s) callback now] |>);;
      when (negb (_completing_reads (_reads s))) FinishReadIndexRounds;;
      mret true.

(** * Applying *)

Definition MaybeSnapshot : Node unit :=
  s ← get;
  if negb (_running s) || _apply_inflight s || (_snapshot_threshold s <=? 0) then mret tt
  else
    let index := _last_applied s in
    let previous := Z.max (_snapshot_index (_log s)) (_last_snapshot_attempt s) in
    if index <=? _snapshot_index (_log s) then mret tt
    else if (index <=? previous) || (index - previous <? _snapshot_threshold s) then mret tt
    else
      term ← on_log (GetTerm index);
      if term <=? 0 then mret tt
      else
        data ← on_sm ExportSnapshot;
        modify (fun s => s <| _last_snapshot_attempt := index |>);;
        if kMaxSnapshotBytes <? #data then on_stats (fun st => st <| _snapshot_oversize_skips ::= Z.succ |>)
        else on_log (CompactApplied index term data).

(** The callbacks of the applied proposals, in log order. *)
Fixpoint take_pending (first : Z) (results : list bytes) : Node (list (nat * bytes)) :=
  match results with
  | [] => mret []
  | result :: results =>
      s ← get;
      taken ← match _pending s !! first with
        | None => mret []
        | Some p =>
            modify (fun s => s <| _pending_bytes := uN 64 (_pending_bytes s - pd_bytes p) |>
                               <| _pending ::= delete first |>);;
            mret (match pd_callback p with Some cb => [(cb, result)] | None => [] end)
        end;
      rest ← take_pending (first + 1) results;
      mret (taken ++ rest)
  end.

Definition FinishApply (first count : Z) (results : list bytes) (work_us bytes dispatch_us : Z) : Node unit :=
  s ← get;
  if negb (first =? _last_applied s + 1) || negb (#results =? count)
  then throw (runtime_error "out-of-order state machine completion")
  else
    modify (fun s => s <| _last_applied ::= Z.add count |>);;
    on_stats (fun st => st <| _apply_batches ::= Z.succ |> <| _kv_apply ::= batch_Observe work_us count bytes |>
                          <| _apply_dispatch ::= latency_Observe dispatch_us |>);;
    s ← get;
    when (bool_decide (_state s = LEADER) && negb (_can_serve_read (_reads s)) && (0 <? _commit_index s))
      (term ← on_log (GetTerm (_commit_index s));
       when (term =? _current_term s) (on_reads (fun r => r <| _can_serve_read := true |>)));;
    ProcessPendingReads;;
    callbacks ← take_pending first results;
    for_each callbacks (fun cb => emit (ProposeReply cb.1 true cb.2)).

(** The commands of the next batch; at most [kMaxBatchEntries], see
    [gather_entries]. *)
Fixpoint gather_commands (fuel : nat) (index : Z) (commands : list bytes) (nbytes : Z)
  : Node (list bytes * Z) :=
  match fuel with
  | O => mret (commands, nbytes)
  | S fuel =>
      s ← get;
      if _commit_index s <? index then mret (commands, nbytes)
      else
        entry ← on_log (RaftLog.Get index);
        match entry with
        | None => throw (runtime_error "missing committed entry")
        | Some entry =>
            let size := #(command entry) in
            if kMaxCommandBytes <? size then throw (runtime_error "oversized committed entry")
            else if negb (bool_decide (commands = [])) &&
                    ((kMaxBatchEntries <=? length commands)%nat || (kMaxBatchBytes - nbytes <? size))
            then mret (commands, nbytes)
            else if index =? _commit_index s then mret (commands ++ [command entry], nbytes + size)
            else gather_commands fuel (index + 1) (commands ++ [command entry]) (nbytes + size)
        end
  end.

Definition storage_failed : Node unit := modify (fun s => s <| _storage_healthy := false |>).

(** The [while] of [ApplyCommitted]; every turn applies at least one entry, so
    [_commit_index - _last_applied] turns are enough. *)
Fixpoint apply_loop (fuel : nat) : Node unit :=
  s ← get;
  if negb (_running s) || (_commit_index s <=? _last_applied s) then MaybeSnapshot
  else
    match fuel with
    | O => mret tt
    | S fuel =>
        let first := _last_applied s + 1 in
        gathered ← gather_commands (S kMaxBatchEntries) first [] 0;
        let '(commands, bytes) := gathered in
        if _apply_executor s then
          modify (fun s => s <| _apply_inflight := true |>);;
          accepted ← ask env_submit;
          if (accepted : bool) then modify (fun s => s <| _apply_work := Some (MkApplyWork first commands bytes None) |>)
          else throw (runtime_error "state machine executor unavailable")
        else
          started ← Now;
          on_exception
            (results ← on_sm (sm_ApplyBatch first commands);
             finished ← Now;
             FinishApply first #commands results (ElapsedMicros started finished) bytes 0)
            storage_failed;;
          apply_loop fuel
    end.

Definition ApplyCommitted : Node unit :=
  s ← get;
  if _apply_inflight s then mret tt
  else apply_loop (Z.to_nat (_commit_index s - _last_applied s)).

(** The executor's worker runs the batch on the state machine and keeps the
    results or the exception... *)
Definition RunApplyWork : Node unit :=
  s ← get;
  match _apply_work s with
  | Some (MkApplyWork first commands nbytes None) =>
      let '(results, sm) := sm_ApplyBatch first commands (_sm s) in
      modify (fun s => s <| _sm := sm |> <| _apply_work := Some (MkApplyWork first commands nbytes (Some results)) |>)
  | _ => mret tt
  end.

(** ...and the completion receives them later on the owner thread. *)
Definition CompleteApply (work_us dispatch_us : Z) : Node unit :=
  s ← get;
  match _apply_work s with
  | Some (MkApplyWork first commands nbytes (Some results)) =>
      modify (fun s => s <| _apply_work := None |>);;
      match results with
      | Err e => storage_failed;; throw e
      | Ok results =>
          FinishApply first #commands results work_us nbytes dispatch_us;;
          modify (fun s => s <| _apply_inflight := false |>);;
          ApplyCommitted
      end
  | _ => mret tt
  end.

Fixpoint match_indices (peers : list PeerInfo) : Node (list Z) :=
  match peers with
  | [] => mret []
  | peer :: peers =>
      s ← get;
      m ← at_key (_match_index s) (peer_id peer);
      rest ← match_indices peers;
      mret (m :: rest)
  end.

Definition AdvanceCommitIndex : Node unit :=
  s ← get;
  matched ← match_indices (_all_peers s);
  let candidate := default 0 (sort_desc matched !! Z.to_nat (QuorumSize s - 1)) in
  when (_commit_index s <? candidate)
    (term ← on_log (GetTerm candidate);
     when (term =? _current_term s) (modify (fun s => s <| _commit_index := candidate |>)));;
  ApplyCommitted.

(** * Proposals *)

(** The entries of a [std::map], in key order. *)
Definition pending_le (p q : Z * Pending) : Prop := p.1 <= q.1.
#[export] Instance pending_le_dec : RelDecision pending_le.
Proof. intros p q. unfold pending_le. apply _. Defined.
Definition pending_list (m : gmap Z Pending) : list (Z * Pending) := merge_sort pending_le (map_to_list m).

Definition reply_pending (ok : bool) (reply : bytes) (p : Pending) : Node unit :=
  match pd_callback p with Some cb => emit (ProposeReply cb ok reply) | None => mret tt end.

Definition FailPending (reply : bytes) : Node unit :=
  s ← get;
  modify (fun s => s <| _pending := ∅ |> <| _pending_bytes := 0 |>);;
  for_each (pending_list (_pending s)) (fun item => reply_pending false reply item.2).

Definition expired (now commit : Z) (item : Z * Pending) : Prop :=
  commit < item.1 /\ ms kProposalTimeoutMs <= now - pd_created_at item.2.
#[export] Instance expired_dec now commit item : Decision (expired now commit item).
Proof. unfold expired. apply _. Defined.

Definition ExpireUncommittedProposals : Node unit :=
  now ← Now;
  s ← get;
  let gone := filter (expired now (_commit_index s)) (pending_list (_pending s)) in
  for_each gone (fun item =>
    modify (fun s => s <| _pending_bytes := uN 64 (_pending_bytes s - pd_bytes item.2) |>
                       <| _pending ::= delete item.1 |>);;
    on_stats (fun st => st <| _proposal_timeouts ::= Z.succ |>));;
  for_each gone (fun item => reply_pending false (lit "-ERR proposal timeout; outcome unknown" ++ crlf) item.2).

Record Proposal := MkProposal { pr_command : bytes; pr_callback : option nat }.

(** The admission loop: the total size, or [None] for the [return -2]. *)
Fixpoint admit_bytes (proposals : list Proposal) (bytes : Z) : option Z :=
  match proposals with
  | [] => Some bytes
  | p :: proposals =>
      if (kMaxCommandBytes <? #(pr_command p)) || (kMaxPendingBytes - bytes <? #(pr_command p)) then None
      else admit_bytes proposals (bytes + #(pr_command p))
  end.

Definition proposal_entries (first term : Z) (proposals : list Proposal) : list LogEntry :=
  imap (fun i p => mkLogEntry (first + Z.of_nat i) term (pr_command p)) proposals.

Fixpoint add_pending (index : Z) (proposals : list Proposal) : Node unit :=
  match proposals with
  | [] => mret tt
  | p :: proposals =>
      now ← Now;
      (* [emplace] keeps an entry that is already there *)
      modify (fun s => s <| _pending ::= fun m => match m !! index with
        | Some _ => m
        | None => <[index := MkPending (pr_callback p) #(pr_command p) now]> m end |>);;
      add_pending (index + 1) proposals
  end.

Definition ProposeBatch (proposals : list Proposal) : Node Z :=
  s ← get;
  if negb (IsLeader s) then mret (-1)
  else if negb (_storage_healthy s) then mret (-3)
  else if bool_decide (proposals = []) || (kMaxBatchEntries <? length proposals)%nat
          || (kMaxPending - Z.of_nat (size (_pending s)) <? #proposals) then mret (-2)
  else
    match admit_bytes proposals 0 with
    | None => mret (-2)
    | Some bytes =>
        if (kMaxPendingBytes - _pending_bytes s <? bytes) || (kMaxBatchBytes - 128 - #proposals * 64 <? bytes)
        then mret (-2)
        else if INT64_MAX - #proposals - 1 <? _last_index (_log s) then throw (runtime_error "Raft index exhausted")
        else
          let first := _last_index (_log s) + 1 in
          let entries := proposal_entries first (_current_term s) proposals in
          write_started ← Now;
          on_exception
            (on_log (AppendBatch entries);;
             finished ← Now;
             on_stats (fun st => st <| _leader_log_write ::= batch_Observe (ElapsedMicros write_started finished) #entries bytes |>))
            (storage_failed;; FailPending (lit "-ERR storage failure; outcome unknown" ++ crlf));;
          on_stats (fun st => st <| _proposal_batches ::= Z.succ |>);;
          add_pending first proposals;;
          modify (fun s => s <| _pending_bytes := uN 64 (_pending_bytes s + bytes) |>
                             <| _match_index ::= <[_node_id s := first + #proposals - 1]> |>);;
          BroadcastAppendEntries;;
          AdvanceCommitIndex;;
          mret first
    end.

Definition Propose (command : bytes) (callback : option nat) : Node Z :=
  ProposeBatch [MkProposal command callback].

(** * Role changes *)

Definition BecomeFollower (term : Z) : Node unit :=
  s ← get;
  let changed := negb (bool_decide (_state s = FOLLOWER)) || (_current_term s <? term) || negb (_leader_id s =? -1) in
  when (_current_term s <? term)
    (SaveHardState term (-1);;
     modify (fun s => s <| _current_term := term |> <| _voted_for := -1 |>));;
  modify (fun s => s <| _state := FOLLOWER |> <| _leader_id := -1 |> <| _votes := ∅ |> <| _peer_active := ∅ |>
    <| _lease_confirmed := ∅ |> <| _inflight ::= fmap (fun _ => no_flight) |> <| _snapshot_receive := no_receive |>);;
  ResetElectionTimer;;
  FailPending (lit "-ERR leadership lost; outcome unknown" ++ crlf);;
  ClearReadIndexQueues (lit "leadership lost");;
  on_reads (fun r => r <| _can_serve_read := false |>);;
  s ← get;
  when changed (emit (Logged FOLLOWER (_current_term s))).

Definition BecomeLeader : Node unit :=
  modify (fun s => s <| _state := LEADER |> <| _leader_id := _node_id s |> <| _peer_active := ∅ |>
    <| _lease_confirmed := ∅ |>);;
  s ← get;
  emit (Logged LEADER (_current_term s));;
  for_each (_all_peers s) (fun peer =>
    modify (fun s => s <| _next_index ::= <[peer_id peer := _last_index (_log s) + 1]> |>
      <| _match_index ::= <[peer_id peer := 0]> |> <| _inflight ::= <[peer_id peer := no_flight]> |>));;
  modify (fun s => s <| _match_index ::= <[_node_id s := _last_index (_log s)]> |>
    <| _heartbeat_timer_ms := kHeartbeatIntervalMs |>);;
  on_reads (fun r => r <| _can_serve_read := false |>);;
  Propose [] None;;
  now ← Now;
  modify (fun s => s <| _leader_since := now |>);;
  s ← get;
  NotePeerContact (_node_id s).

Definition vote_request (term : Z) (prevote : bool) (s : RaftNode) : Message :=
  MRequestVote (mkRequestVote term (_node_id s) (_last_index (_log s)) (_last_term (_log s)) prevote).

Definition BecomeCandidate : Node unit :=
  s ← get;
  if _current_term s =? INT32_MAX then throw (runtime_error "Raft term exhausted")
  else
    SaveHardState (_current_term s + 1) (_node_id s);;
    modify (fun s => s <| _current_term ::= Z.succ |> <| _voted_for := _node_id s |> <| _state := CANDIDATE |>
      <| _leader_id := -1 |> <| _votes := {[_node_id s]} |>);;
    ResetElectionTimer;;
    s ← get;
    emit (Logged CANDIDATE (_current_term s));;
    if QuorumSize s =? 1 then BecomeLeader
    else Broadcast (vote_request (_current_term s) false s).

Definition BecomePreCandidate : Node unit :=
  s ← get;
  if QuorumSize s =? 1 then BecomeCandidate
  else if _current_term s =? INT32_MAX then throw (runtime_error "Raft term exhausted")
  else
    modify (fun s => s <| _state := PRE_CANDIDATE |> <| _leader_id := -1 |> <| _votes := {[_node_id s]} |>);;
    ResetElectionTimer;;
    s ← get;
    emit (Logged PRE_CANDIDATE (_current_term s));;
    Broadcast (vote_request (_current_term s + 1) true s).

Definition CheckQuorum : Node unit :=
  s ← get;
  NotePeerContact (_node_id s);;
  if QuorumSize s <=? 1 then mret tt
  else
    now ← Now;
    s ← get;
    if now - _leader_since s <? ms kMinElectionTimeoutMs then mret tt
    else if QuorumSize s <=? fresh_peers (_all_peers s) (_peer_active s) now then mret tt
    else BecomeFollower (_current_term s).

(** * Message handlers *)

Definition IsLogUpToDate (index term : Z) (s : RaftNode) : bool :=
  if negb (term =? _last_term (_log s)) then _last_term (_log s) <? term else _last_index (_log s) <=? index.

Definition reply_vote (from : Z) (prevote granted : bool) : Node unit :=
  s ← get;
  Send from (MRequestVoteResponse (mkRequestVoteResponse (_current_term s) granted prevote));;
  mret tt.

Definition HandleRequestVote (from : Z) (request : RequestVote) : Node unit :=
  s ← get;
  let prevote := rv_prevote request in
  if negb (_running s) || negb (IsRemotePeer from s) || negb (rv_candidate_id request =? from)
     || (rv_term request <=? 0) || (rv_last_log_index request <? 0) || (rv_last_log_term request <? 0)
     || (rv_term request <? rv_last_log_term request) then mret tt
  else if prevote && bool_decide (_state s = LEADER) then reply_vote from prevote false
  else
    heard_leader ←
      (if bool_decide (_state s = FOLLOWER) && negb (_leader_id s =? -1) && negb (_leader_id s =? from)
       then now ← Now; mret (now <? _election_deadline s) else mret false);
    if (heard_leader : bool) then reply_vote from prevote false
    else if prevote then
      reply_vote from prevote
        ((_current_term s <? rv_term request)
         && IsLogUpToDate (rv_last_log_index request) (rv_last_log_term request) s)
    else
      when (_current_term s <? rv_term request) (BecomeFollower (rv_term request));;
      s ← get;
      let grant := (rv_term request =? _current_term s)
        && ((_voted_for s =? -1) || (_voted_for s =? from))
        && IsLogUpToDate (rv_last_log_index request) (rv_last_log_term request) s in
      when grant
        (SaveHardState (_current_term s) from;;
         modify (fun s => s <| _voted_for := from |>);;
         ResetElectionTimer);;
      reply_vote from prevote grant.

Definition HandleRequestVoteResponse (from : Z) (response : RequestVoteResponse) : Node unit :=
  s ← get;
  if negb (_running s) || negb (IsRemotePeer from s) then mret tt
  else if _current_term s <? rvr_term response then BecomeFollower (rvr_term response)
  else if bool_decide (_state s = PRE_CANDIDATE) then
    when (rvr_prevote response && rvr_vote_granted response && (rvr_term response <=? _current_term s))
      (modify (fun s => s <| _votes ::= fun v => {[from]} ∪ v |>);;
       s ← get;
       when (QuorumSize s <=? Z.of_nat (size (_votes s))) BecomeCandidate)
  else if negb (bool_decide (_state s = CANDIDATE)) || rvr_prevote response
          || negb (rvr_term response =? _current_term s) then mret tt
  else
    when (rvr_vote_granted response)
      (modify (fun s => s <| _votes ::= fun v => {[from]} ∪ v |>);;
       s ← get;
       when (QuorumSize s <=? Z.of_nat (size (_votes s))) BecomeLeader).

(** The validation loop over the entries of a request. *)
Fixpoint valid_entries (prev_index previous_term request_term : Z) (entries : list LogEntry) : bool :=
  match entries with
  | [] => true
  | e :: entries =>
      (index e =? prev_index + 1) && (0 <? term e) && (previous_term <=? term e)
      && (term e <=? request_term) && (#(command e) <=? kMaxCommandBytes)
      && valid_entries (prev_index + 1) (term e) request_term entries
  end.

(** The loop that finds the entries to append, truncating a conflicting suffix. *)
Fixpoint reconcile (entries : list LogEntry) : Node (list LogEntry) :=
  match entries with
  | [] => mret []
  | e :: entries =>
      existing ← on_log (GetTerm (index e));
      s ← get;
      when (negb (existing =? -1) && negb (existing =? term e))
        (if index e <=? _commit_index s then throw (runtime_error "attempt to replace committed Raft entry")
         else on_log (TruncateSuffix (index e)));;
      s ← get;
      rest ← reconcile entries;
      mret (if _last_index (_log s) <? index e then e :: rest else rest)
  end.

(** The binary search of [ConflictIndex]; the interval halves, so its length in
    binary digits is enough fuel. *)
Fixpoint conflict_search (fuel : nat) (term low high : Z) : Node Z :=
  match fuel with
  | O => mret high
  | S fuel =>
      if high - low <=? 1 then mret high
      else
        let mid := low + (high - low) / 2 in
        t ← on_log (GetTerm mid);
        if t =? term then conflict_search fuel term low mid else conflict_search fuel term mid high
  end.

Definition ConflictIndex (index : Z) : Node Z :=
  term ← on_log (GetTerm index);
  s ← get;
  let snapshot := _snapshot_index (_log s) in
  if term <=? 0 then mret index
  else
    high ← conflict_search (S (Z.to_nat (Z.log2_up (index - snapshot)))) term snapshot index;
    if (high =? snapshot + 1) && (0 <? snapshot) && (_snapshot_term (_log s) =? term)
    then mret snapshot else mret high.

(** What [AppendEntries] of the current term answers: success and the index. *)
Definition append_current (request : AppendEntries) : Node (bool * Z) :=
  s ← get;
  have ← on_log (GetTerm (ae_prev_log_index request));
  if have =? ae_prev_log_term request then
    appended ← reconcile (ae_entries request);
    when (negb (bool_decide (appended = [])))
      (write_started ← Now;
       on_exception
         (on_log (AppendBatch appended);;
          finished ← Now;
          on_stats (fun st => st <| _follower_log_write ::= batch_Observe (ElapsedMicros write_started finished)
            #appended (foldl (fun n e => n + #(command e)) 0 appended) |>))
         storage_failed);;
    let matched := ae_prev_log_index request + #(ae_entries request) in
    modify (fun s => s <| _commit_index ::= fun c => Z.max c (Z.min (ae_leader_commit request) matched) |>);;
    ApplyCommitted;;
    mret (true, matched)
  else if ae_prev_log_index request <=? _last_index (_log s) then
    have ← on_log (GetTerm (ae_prev_log_index request));
    conflict ← (if 0 <? have then ConflictIndex (ae_prev_log_index request) else mret (_snapshot_index (_log s)));
    mret (false, if 0 <? conflict then conflict - 1 else 0)
  else mret (false, _last_index (_log s)).

Definition HandleAppendEntries (from : Z) (request : AppendEntries) : Node unit :=
  s ← get;
  if negb (_running s) || negb (IsRemotePeer from s) || negb (ae_leader_id request =? from)
     || (ae_term request <=? 0) || (ae_rpc_id request =? 0) || (ae_prev_log_index request <? 0)
     || (ae_prev_log_term request <? 0) || (ae_term request <? ae_prev_log_term request)
     || (ae_leader_commit request <? 0)
     || (INT64_MAX - #(ae_entries request) <? ae_prev_log_index request) then mret tt
  else if negb (Bool.eqb (ae_prev_log_index request =? 0) (ae_prev_log_term request =? 0)) then mret tt
  else if negb (valid_entries (ae_prev_log_index request) (ae_prev_log_term request) (ae_term request)
                  (ae_entries request)) then mret tt
  else
    when ((_current_term s <? ae_term request)
          || ((ae_term request =? _current_term s) && negb (bool_decide (_state s = FOLLOWER))))
      (BecomeFollower (ae_term request));;
    s ← get;
    answer ← (if ae_term request =? _current_term s then
                modify (fun s => s <| _leader_id := from |>);;
                ResetElectionTimer;;
                append_current request
              else mret (false, _last_index (_log s)));
    Send from (MAppendEntriesResponse
      (mkAppendEntriesResponse (_current_term s) answer.1 answer.2 (ae_rpc_id request)));;
    mret tt.

Definition HandleAppendEntriesResponse (from : Z) (response : AppendEntriesResponse) : Node unit :=
  s ← get;
  if negb (_running s) || negb (IsRemotePeer from s) then mret tt
  else if _current_term s <? aer_term response then BecomeFollower (aer_term response)
  else if negb (IsLeader s) || negb (aer_term response =? _current_term s) then mret tt
  else
    NotePeerContact from;;
    CheckReadIndexTimeout;;
    s ← get;
    flight ← at_key (_inflight s) from;
    when (negb (fl_id flight =? 0) && (aer_rpc_id response =? fl_id flight)) (AckReadIndexProbe from (fl_id flight));;
    if (fl_id flight =? 0) || negb (aer_rpc_id response =? fl_id flight) || (aer_last_log_index response <? 0)
    then FinishReadIndexRounds
    else if aer_success response && negb (aer_last_log_index response =? fl_last_index flight)
    then FinishReadIndexRounds
    else
      when (aer_success response && (0 <? fl_entries flight))
        (now ← Now;
         on_stats (fun st => st <| _replication_data_ack ::= latency_Observe (ElapsedMicros (fl_first_send flight) now) |>));;
      when (aer_success response && fl_append flight)
        (modify (fun s => s <| _lease_confirmed ::= <[from := fl_lease_sent_at flight]> |>));;
      let acknowledged := fl_last_index flight in
      set_flight from no_flight;;
      if aer_success response then
        modify (fun s => let m := Z.max (default 0 (_match_index s !! from)) acknowledged in
          s <| _match_index ::= <[from := m]> |> <| _next_index ::= <[from := m + 1]> |>);;
        before ← gets _commit_index;
        AdvanceCommitIndex;;
        FinishReadIndexRounds;;
        s ← get;
        when (before <? _commit_index s) BroadcastAppendEntries;;
        s ← get;
        when (default 0 (_next_index s !! from) <=? _last_index (_log s)) (SendAppendEntries from)
      else
        let hint := if aer_last_log_index response =? INT64_MAX then INT64_MAX else aer_last_log_index response + 1 in
        modify (fun s => s <| _next_index ::= <[from :=
          Z.max (default 0 (_match_index s !! from) + 1) (Z.min (default 0 (_next_index s !! from) - 1) hint)]> |>);;
        FinishReadIndexRounds;;
        SendAppendEntries from.

(** The chunk of a snapshot of the current term: success and complete. *)
Definition receive_chunk (request : Messages.InstallSnapshot) : Node (bool * bool) :=
  let reset := modify (fun s => s <| _snapshot_receive := no_receive |>) in
  let included := is_last_included_index request in
  let included_term := is_last_included_term request in
  s ← get;
  if included <=? _last_applied s then reset;; mret (true, true)
  else if _apply_inflight s then mret (false, false)
  else if kMaxSnapshotBytes - #(is_data request) <? is_offset request then reset;; mret (false, false)
  else
    when (is_offset request =? 0)
      (modify (fun s => s <| _snapshot_receive := MkSnapshotReceive included included_term [] |>));;
    received ← gets _snapshot_receive;
    if (sr_index received =? included) && (sr_term received =? included_term)
       && (is_offset request =? #(sr_data received)) then
      let data := sr_data received ++ is_data request in
      modify (fun s => s <| _snapshot_receive := MkSnapshotReceive (sr_index received) (sr_term received) data |>);;
      if kMaxSnapshotBytes <? #data then reset;; mret (false, false)
      else if negb (is_done request) then mret (true, false)
      else
        on_stores (sm_InstallSnapshot included data (StageSnapshotInstall included included_term data));;
        on_log (RaftLog.InstallSnapshot included included_term data);;
        modify (fun s => s <| _last_applied := included |> <| _commit_index ::= fun c => Z.max c included |>);;
        reset;;
        mret (true, true)
    else reset;; mret (false, false).

Definition HandleInstallSnapshot (from : Z) (request : Messages.InstallSnapshot) : Node unit :=
  s ← get;
  if negb (_running s) || negb (IsRemotePeer from s) || negb (is_leader_id request =? from)
     || (is_term request <=? 0) || (is_rpc_id request =? 0) || (is_last_included_index request <=? 0)
     || (is_last_included_term request <=? 0) || (is_term request <? is_last_included_term request)
     || (is_offset request <? 0) || (kMaxSnapshotBytes <? #(is_data request)) then mret tt
  else
    when (_current_term s <? is_term request) (BecomeFollower (is_term request));;
    s ← get;
    answer ← (if is_term request =? _current_term s then
                modify (fun s => s <| _leader_id := from |>);;
                ResetElectionTimer;;
                receive_chunk request
              else mret (false, false));
    Send from (MInstallSnapshotResponse
      (mkInstallSnapshotResponse (_current_term s) answer.1 answer.2 (is_rpc_id request)));;
    mret tt.

Definition HandleInstallSnapshotResponse (from : Z) (response : InstallSnapshotResponse) : Node unit :=
  s ← get;
  if negb (_running s) || negb (IsRemotePeer from s) then mret tt
  else if _current_term s <? isr_term response then BecomeFollower (isr_term response)
  else if negb (IsLeader s) || negb (isr_term response =? _current_term s) then mret tt
  else
    NotePeerContact from;;
    s ← get;
    flight ← at_key (_inflight s) from;
    if negb (fl_snapshot flight) || (fl_id flight =? 0) || negb (isr_rpc_id response =? fl_id flight) then mret tt
    else if negb (isr_success response) then
      set_flight from (flight <| fl_snapshot_offset := 0 |>);; SendSnapshotChunk from
    else if negb (isr_complete response) then
      let next := fl_snapshot_offset flight + fl_snapshot_chunk flight in
      set_flight from (flight <| fl_snapshot_offset := if #(fl_snapshot_data flight) <=? next then 0 else next |>);;
      SendSnapshotChunk from
    else
      let installed := fl_snapshot_index flight in
      set_flight from no_flight;;
      modify (fun s => let m := Z.max (default 0 (_match_index s !! from)) installed in
        s <| _match_index ::= <[from := m]> |> <| _next_index ::= <[from := m + 1]> |>);;
      s ← get;
      when (default 0 (_next_index s !! from) <=? _last_index (_log s)) (SendAppendEntries from).

(** * Timer and life cycle *)

Definition Tick : Node unit :=
  s ← get;
  if negb (_running s) then mret tt
  else
    when (negb (bool_decide (_state s = LEADER)))
      (now ← Now; when (_election_deadline s <=? now) BecomePreCandidate);;
    s ← get;
    when (bool_decide (_state s = LEADER))
      (modify (fun s => s <| _inflight ::= fmap (fun f =>
           if fl_id f =? 0 then f else f <| fl_elapsed_ms ::= Z.add kTickIntervalMs |>) |>
         <| _heartbeat_timer_ms ::= fun t => t - kTickIntervalMs |>);;
       s ← get;
       (if _heartbeat_timer_ms s <=? 0 then
          BroadcastAppendEntries;;
          modify (fun s => s <| _heartbeat_timer_ms := kHeartbeatIntervalMs |>)
        else
          for_each (_all_peers s) (fun peer =>
            if peer_id peer =? _node_id s then mret tt
            else
              s ← get;
              flight ← at_key (_inflight s) (peer_id peer);
              when (fl_id flight =? 0) (SendAppendEntries (peer_id peer))));;
       CheckReadIndexTimeout;;
       CheckQuorum;;
       s ← get;
       when (IsLeader s) (ExpireUncommittedProposals;; FinishReadIndexRounds)).

Definition Start : Node unit :=
  modify (fun s => s <| _running := true |>);;
  s ← get;
  BecomeFollower (_current_term s);;
  ApplyCommitted.

Definition Stop : Node unit :=
  modify (fun s => s <| _running := false |> <| _state := FOLLOWER |> <| _leader_id := -1 |>);;
  FailPending (lit "-ERR server stopped; outcome unknown" ++ crlf);;
  ClearReadIndexQueues (lit "server stopped");;
  on_reads (fun r => r <| _can_serve_read := false |>).

Definition SetSnapshotThreshold (entries : Z) : Node unit :=
  if entries <? 0 then throw (invalid_argument "negative snapshot threshold")
  else modify (fun s => s <| _snapshot_threshold := entries |> <| _last_snapshot_attempt := _snapshot_index (_log s) |>).

Definition SetSnapshotChunkBytes (bytes : Z) : Node unit :=
  if (bytes =? 0) || (kMaxFrameSize / 2 <? bytes) then throw (invalid_argument "invalid snapshot chunk size")
  else modify (fun s => s <| _snapshot_chunk_bytes := bytes |>).

Definition SetLeaseReads (enabled : bool) : Node unit := modify (fun s => s <| _lease_reads := enabled |>).

(** The object before its constructor's body: the members' initializers, on
    the two databases. *)
Definition initial_node (id : Z) (peers : list PeerInfo) (log_db kv_db : DB) (executor : bool) : RaftNode :=
  mkRaftNode id peers (blank_store kv_db) executor false None true (blank log_db) 0 (-1) FOLLOWER false 0 0 (-1) ∅
    ∅ ∅ ∅ no_receive 0 0 false (256 * 1024) 0 0 0 ∅ ∅ 0 ∅ 0 no_stats no_reads 0 [].

(** The constructor's body, after the two stores were opened: [kv_status] and
    [log_status] are what [rocksdb::DB::Open] reported for each. *)
Definition Construct (kv_status log_status : Status) : Node unit :=
  on_sm (store_Open kv_status);;
  s ← get;
  _ ← lift_result (ValidatePeers (_node_id s) (_all_peers s));
  on_log (Open log_status);;
  hard ← on_log LoadHardState;
  modify (fun s => s <| _current_term := hard.1.2 |> <| _voted_for := hard.2 |>);;
  s ← get;
  if _current_term s <? _last_term (_log s) then throw (runtime_error "inconsistent Raft term recovery state")
  else
    pending ← on_log LoadPendingSnapshot;
    match pending with
    | None => mret tt
    | Some (pending_index, pending_term, pending_data) =>
        if _current_term s <? pending_term then throw (runtime_error "pending snapshot term exceeds durable hard state")
        else
          on_stores (sm_InstallSnapshot pending_index pending_data (mret tt));;
          on_log (RaftLog.InstallSnapshot pending_index pending_term pending_data)
    end;;
    modify (fun s => s <| _last_applied := store_last_applied (_sm s) |> <| _commit_index := store_last_applied (_sm s) |>);;
    s ← get;
    if (_last_applied s <? _snapshot_index (_log s)) || (_last_index (_log s) <? _last_applied s)
       || (_current_term s <? _last_term (_log s)) then throw (runtime_error "inconsistent KV/log recovery state")
    else
      for_each (_all_peers s) (fun peer =>
        modify (fun s => s <| _next_index ::= <[peer_id peer := 1]> |> <| _match_index ::= <[peer_id peer := 0]> |>
          <| _inflight ::= <[peer_id peer := no_flight]> |>));;
      s ← get;
      if negb (_voted_for s =? -1) && negb (bool_decide (is_Some (_next_index s !! _voted_for s)))
      then throw (runtime_error "persisted vote is outside the static membership")
      else mret tt.

(** * Reports *)

Definition StateName (s : RaftNode) : bytes :=
  if negb (_running s) then lit "stopped"
  else match _state s with
       | LEADER => lit "leader"
       | CANDIDATE => lit "candidate"
       | PRE_CANDIDATE => lit "pre-candidate"
       | FOLLOWER => lit "follower"
       end.

Definition MatchIndexOf (peer : Z) (s : RaftNode) : Z := default (-1) (_match_index s !! peer).
Definition HasInflightRpc (peer : Z) (s : RaftNode) : bool :=
  match _inflight s !! peer with Some f => negb (fl_id f =? 0) | None => false end.

Definition MetricsInfo (s : RaftNode) : bytes :=
  let st := _stats s in let r := _reads s in
  batch_ToInfo (lit "leader_log_write") (_leader_log_write st) ++
  batch_ToInfo (lit "follower_log_write") (_follower_log_write st) ++
  latency_ToInfo (lit "replication_data_ack") (_replication_data_ack st) ++
  batch_ToInfo (lit "kv_apply") (_kv_apply st) ++ latency_ToInfo (lit "apply_dispatch") (_apply_dispatch st) ++
  info_line (lit "replication_retry_attempts") (_replication_retry_attempts st) ++
  info_line (lit "proposal_timeouts") (_proposal_timeouts st) ++
  info_line (lit "snapshot_oversize_skips") (_snapshot_oversize_skips st) ++
  info_line (lit "read_index_total") (_read_index_total r) ++
  info_line (lit "read_index_succeeded") (_read_index_succeeded r) ++
  info_line (lit "read_index_timeout") (_read_index_timeout r) ++
  info_line (lit "read_index_not_leader") (_read_index_not_leader r) ++
  info_line (lit "read_index_overload") (_read_index_overload r) ++
  info_line (lit "read_index_lease") (_read_index_lease r) ++
  info_line (lit "read_index_pending") (PendingReadIndexCount r).

End Node.
