(* ===== verification/Server.v ===== *)
(** The server (src/src/server/main.cpp): client sessions, the queue of writes in
    front of the Raft node, the metrics endpoint.

    The file-level variables are the record [Server].  Three things are outside it.
    Muduo: a connection is known by its name; [g_conns] holds what its documentation
    says of its state, [connected()], the output buffer, and, for the theorems, what was
    received and sent on it; functors queued in the loop and armed timers are lists.
    The node: [se_raft] is its state during a step, read through its getters.  The
    clock and the socket: [se_now], [se_taken].

    The node calls back, possibly from inside the server's own call, and a callback may
    start the next command of its session, which calls the node again.  So the call
    stack is explicit: a function that calls another in the end returns the [frame]s
    that remain to run, innermost first, and the node is a frame on which callbacks may
    be pushed until it returns. *)
From stdpp Require Import base numbers strings gmap list.
From S2P Require Import Prelude Effects Text Resp Command Session Namespace Metrics Prometheus Policies.
From S2P Require Import Storage RaftLog KVStore KVStateMachine Peers Config RaftState RaftNode.

(** * Data *)

Record ClientSession := MkClientSession {
  cs_input : CommandBuffer; cs_queue : SessionCommandQueue; cs_waiting : bool; cs_closing : bool;
  cs_drain_scheduled : bool; cs_accounted_output : Z; cs_executing : bool }.
#[export] Instance ClientSession_fields : Fields ClientSession :=
  {| rebuild := fun r => MkClientSession (cs_input r) (cs_queue r) (cs_waiting r) (cs_closing r)
       (cs_drain_scheduled r) (cs_accounted_output r) (cs_executing r);
     rebuild_id := fun r => match r with MkClientSession _ _ _ _ _ _ _ => eq_refl end |}.
Definition new_session : ClientSession :=
  MkClientSession empty_buffer (MkSessionCommandQueue [] 0) false false false 0 false.

Definition kMaxTotalInput : Z := 64 * 1024 * 1024.
Definition kMaxTotalOutput : Z := 64 * 1024 * 1024.
Definition kMaxClientOutput : Z := 4 * 1024 * 1024.
Definition kMaxQueuedWrites : Z := 1024.
Definition kMaxQueuedWriteBytes : Z := 16 * 1024 * 1024.
Definition kMaxMetricsRequest : Z := 4096.

(** The two weak pointers of a queued write are the name of its connection. *)
Record QueuedWrite := MkQueuedWrite { qw_command : bytes; qw_conn : bytes; qw_enqueued_at : Z }.

(** A connection; the last three fields are its history: the bytes the server took
    from it, the commands it started to execute, the replies it sent. *)
Record TcpConnection := MkTcpConnection {
  tc_metrics : bool;   (* which of the two servers accepted it *)
  tc_connected : bool; tc_reading : bool; tc_output : Z;
  tc_received : bytes; tc_executed : list QueuedCommand; tc_sent : list bytes }.
#[export] Instance TcpConnection_fields : Fields TcpConnection :=
  {| rebuild := fun r => MkTcpConnection (tc_metrics r) (tc_connected r) (tc_reading r) (tc_output r) (tc_received r)
       (tc_executed r) (tc_sent r);
     rebuild_id := fun r => match r with MkTcpConnection _ _ _ _ _ _ _ => eq_refl end |}.
Definition new_connection (metrics : bool) : TcpConnection := MkTcpConnection metrics true true 0 [] [] [].

(** What a closure given to the node captured. *)
Inductive callback :=
  | WriteCallback (conn : bytes) (enqueued_at : Z)
  | ReadCallback (conn : bytes) (key : bytes).

(** A functor in the loop's queue. *)
Inductive loop_task := FlushTask (token : Z) | DrainTask (conn : bytes).

(** What passes between the server and the node. *)
Inductive node_call :=
  | Proposes (proposals : list Proposal)
  | RequestsRead (callback : nat)
  | CallsBack (callback : nat) (ok : bool) (text : bytes)
  | ReadsKey (key : bytes) (value : option bytes).

Record Server := MkServer {
  g_sessions : gmap bytes ClientSession;
  g_namespaces : NamespaceManager;
  g_input_bytes : Z; g_output_bytes : Z; g_queued_write_bytes : Z;
  g_overload_rejections : Z;
  g_write_queue_wait : LatencyStats; g_write_completed : LatencyStats; g_local_read : LatencyStats;
  g_flush_immediate : Z; g_flush_delayed : Z; g_flush_promoted : Z;
  g_writes : list QueuedWrite;
  g_flush_policy : BatchFlushPolicy;
  g_flush_timer : option Z;             (* a timer is known by the token it carries *)
  g_metrics_requests : gmap bytes bytes;
  g_conns : gmap bytes TcpConnection;
  g_tasks : list loop_task;
  g_timers : list Z; g_cancelled : list Z;
  g_callbacks : gmap nat callback; g_next_callback : nat;
  g_calls : list node_call;
}.
#[export] Instance Server_fields : Fields Server :=
  {| rebuild := fun r => MkServer (g_sessions r) (g_namespaces r) (g_input_bytes r) (g_output_bytes r)
       (g_queued_write_bytes r) (g_overload_rejections r) (g_write_queue_wait r) (g_write_completed r) (g_local_read r)
       (g_flush_immediate r) (g_flush_delayed r) (g_flush_promoted r) (g_writes r) (g_flush_policy r) (g_flush_timer r)
       (g_metrics_requests r) (g_conns r) (g_tasks r) (g_timers r) (g_cancelled r) (g_callbacks r) (g_next_callback r)
       (g_calls r);
     rebuild_id := fun r => match r with
       MkServer _ _ _ _ _ _ _ _ _ _ _ _ _ _ _ _ _ _ _ _ _ _ _ => eq_refl end |}.
Definition new_server : Server :=
  MkServer ∅ ∅ 0 0 0 0 no_latency no_latency no_latency 0 0 0 [] new_flush_policy None ∅ ∅ [] [] [] ∅ 0 [].

(** What is left to run of the functions on the call stack. *)
Inductive frame :=
  | ExecuteNext (conn : bytes)                       (* ExecuteNextCommand *)
  | CommandComplete (conn : bytes)                   (* OnCommandComplete *)
  | Proposing (owners : list (bytes * nat))          (* FlushQueuedWrites, in ProposeBatch *)
  | Rejecting (index : Z) (owners : list bytes)      (* the loop over the owners of a refused batch *)
  | Scheduling                                       (* ScheduleFlush *)
  | RequestingRead                                   (* in RequestReadIndex *)
  | InNode.                                          (* a message, a tick, a completion *)

(** [--linearizable_reads] and [--leader_only_reads]. *)
Record ReadFlags := MkReadFlags { FLAGS_linearizable_reads : bool; FLAGS_leader_only_reads : bool }.

(** * Connections *)

Definition session_of (conn : bytes) (s : Server) : ClientSession := default new_session (g_sessions s !! conn).
Definition connected (conn : bytes) (s : Server) : bool :=
  match g_conns s !! conn with Some c => tc_connected c | None => false end.
Definition output_bytes (conn : bytes) (s : Server) : Z :=
  match g_conns s !! conn with Some c => tc_output c | None => 0 end.

(** The connections of the two servers have different names. *)
Definition is_client (conn : bytes) (s : Server) : bool := bool_decide (tc_metrics <$> g_conns s !! conn = Some false).
Definition is_scraper (conn : bytes) (s : Server) : bool := bool_decide (tc_metrics <$> g_conns s !! conn = Some true).
Definition is_new (conn : bytes) (s : Server) : bool := bool_decide (g_conns s !! conn = None).

Definition on_session (conn : bytes) (f : ClientSession -> ClientSession) : M Server unit :=
  modify (fun s => s <| g_sessions ::= alter f conn |>).
Definition on_conn (conn : bytes) (f : TcpConnection -> TcpConnection) : M Server unit :=
  modify (fun s => s <| g_conns ::= alter f conn |>).

(** [forceClose] and [shutdown] both end [connected()] at once. *)
Definition forceClose (conn : bytes) : M Server unit := on_conn conn (fun c => c <| tc_connected := false |>).
Definition shutdown (conn : bytes) : M Server unit := on_conn conn (fun c => c <| tc_connected := false |>).
Definition startRead (conn : bytes) : M Server unit := on_conn conn (fun c => c <| tc_reading := true |>).
Definition stopRead (conn : bytes) : M Server unit := on_conn conn (fun c => c <| tc_reading := false |>).
Definition tell (e : node_call) : M Server unit := modify (fun s => s <| g_calls ::= fun t => t ++ [e] |>).
Definition queueInLoop (t : loop_task) : M Server unit := modify (fun s => s <| g_tasks ::= fun l => l ++ [t] |>).

Definition Error (message : bytes) : bytes := lit "-ERR " ++ message ++ crlf.

(** The tests on the two locked weak pointers. *)
Definition deliverable (conn : bytes) (s : Server) : bool :=
  match g_sessions s !! conn with
  | Some session => CanDeliverClientReply (connected conn s) (cs_closing session)
  | None => false
  end.
Definition abandon (conn : bytes) : M Server unit :=
  on_session conn (fun c => c <| cs_executing := false |> <| cs_waiting := false |>).

Section Server.
Context `{RocksDB}.

Class StepEnv := {
  se_raft : RaftNode;     (* the node, between two of its calls *)
  se_now : nat -> Z;      (* the readings of the steady clock *)
  se_taken : Z;           (* how many bytes the socket takes at once *)
}.

Context {step : StepEnv} (flags : Flags) (reads : ReadFlags).

(** [conn->send]: what the socket does not take stays in the output buffer. *)
Definition conn_send (conn reply : bytes) : M Server unit :=
  on_conn conn (fun c => c <| tc_output := Z.max 0 (tc_output c + #reply - Z.max 0 se_taken) |>
                           <| tc_sent ::= fun l => l ++ [reply] |>).

Definition CloseClient (conn : bytes) : M Server unit :=
  on_session conn (fun c => c <| cs_closing := true |>);; forceClose conn.

Definition AccountOutput (conn : bytes) : M Server unit :=
  modify (fun s => s <| g_output_bytes := uN 64 (g_output_bytes s - cs_accounted_output (session_of conn s)) |>);;
  s ← get;
  on_session conn (fun c => c <| cs_accounted_output := output_bytes conn s |>);;
  modify (fun s => s <| g_output_bytes := uN 64 (g_output_bytes s + cs_accounted_output (session_of conn s)) |>).

Definition overloaded : M Server unit := modify (fun s => s <| g_overload_rejections ::= Z.succ |>).

Definition SendReply (conn reply : bytes) : M Server unit :=
  s ← get;
  if cs_closing (session_of conn s) || negb (connected conn s) then mret tt
  else
    AccountOutput conn;;
    s ← get;
    if (uN 64 (kMaxClientOutput - cs_accounted_output (session_of conn s)) <? #reply)
       || (uN 64 (kMaxTotalOutput - g_output_bytes s) <? #reply)
    then overloaded;; CloseClient conn
    else conn_send conn reply;; AccountOutput conn.

Definition moved : bytes := Error (lit "MOVED " ++ to_string (GetLeaderId se_raft)).

(** * Commands of a session *)

Definition ScheduleDrain (conn : bytes) : M Server unit :=
  s ← get;
  let session := session_of conn s in
  if cs_drain_scheduled session || cs_closing session || cs_waiting session || (UnreadBytes (cs_input session) =? 0)
  then mret tt
  else on_session conn (fun c => c <| cs_drain_scheduled := true |>);; queueInLoop (DrainTask conn).

Definition OnCommandComplete (conn : bytes) : M Server (list frame) :=
  on_session conn (fun c => c <| cs_executing := false |>);;
  s ← get;
  let session := session_of conn s in
  when (negb (queue_IsFull (cs_queue session)) && connected conn s && negb (cs_closing session)) (startRead conn);;
  mret [ExecuteNext conn].

(** Most commands end with a reply. *)
Definition reply_and_complete (conn reply : bytes) : M Server (list frame) :=
  SendReply conn reply;; mret [CommandComplete conn].

(** * The write queue *)

(** Handing a closure to the node. *)
Definition register (k : callback) : M Server nat :=
  n ← gets g_next_callback;
  modify (fun s => s <| g_callbacks ::= <[n := k]> |> <| g_next_callback ::= S |>);;
  mret n.

(** The loop of [FlushQueuedWrites]; [turns] is what [inspected] leaves of the budget. *)
Fixpoint collect_writes (turns : nat) (proposals : list Proposal) (owners : list (bytes * nat)) (total : Z)
  : M Server (list Proposal * list (bytes * nat)) :=
  match turns with
  | O => mret (proposals, owners)
  | S turns =>
      s ← get;
      match g_writes s with
      | [] => mret (proposals, owners)
      | write :: rest =>
          if negb (bool_decide (proposals = [])) && (uN 64 (flush_kMaxBytes - total) <? #(qw_command write))
          then mret (proposals, owners)
          else
            modify (fun s => s <| g_writes := rest |>
              <| g_queued_write_bytes := uN 64 (g_queued_write_bytes s - #(qw_command write)) |>);;
            if negb (deliverable (qw_conn write) s) then collect_writes turns proposals owners total
            else
              modify (fun s => s <| g_write_queue_wait ::=
                latency_Observe (ElapsedMicros (qw_enqueued_at write) (se_now turns)) |>);;
              cb ← register (WriteCallback (qw_conn write) (qw_enqueued_at write));
              collect_writes turns (proposals ++ [MkProposal (qw_command write) (Some cb)])
                (owners ++ [(qw_conn write, cb)]) (total + #(qw_command write))
      end
  end.

Definition FlushQueuedWrites : M Server (list frame) :=
  batch ← collect_writes (Z.to_nat flush_kMaxEntries) [] [] 0;
  let '(proposals, owners) := batch in
  if bool_decide (proposals = []) then mret [Scheduling]
  else tell (Proposes proposals);; mret [Proposing owners; Scheduling].

(** After [ProposeBatch] returned [index]; the node drops the closures of a batch it
    refuses. *)
Definition OnProposed (index : Z) (owners : list (bytes * nat)) : M Server (list frame) :=
  if index <? 0 then
    modify (fun s => s <| g_callbacks ::= fun m => foldr (fun o => delete o.2) m owners |>);;
    when (index =? -2) (modify (fun s => s <| g_overload_rejections ::= Z.add #owners |>));;
    mret [Rejecting index (fst <$> owners)]
  else mret [].

(** One owner of a refused batch. *)
Definition reject_owner (index : Z) (owners : list bytes) : M Server (list frame) :=
  match owners with
  | [] => mret []
  | conn :: owners =>
      s ← get;
      if negb (deliverable conn s) then abandon conn;; mret [Rejecting index owners]
      else
        on_session conn (fun c => c <| cs_waiting := false |>);;
        SendReply conn (if index =? -1 then moved else Error (lit "BUSY proposal capacity exhausted"));;
        mret [CommandComplete conn; Rejecting index owners]
  end.

Definition cancel_timer : M Server unit :=
  s ← get;
  match g_flush_timer s with
  | None => mret tt
  | Some timer =>
      modify (fun s => s <| g_timers ::= filter (fun t => t <> timer) |> <| g_cancelled ::= cons timer |>
                         <| g_flush_timer := None |> <| g_flush_promoted ::= Z.succ |>)
  end.

Definition ScheduleFlush : M Server unit :=
  s ← get;
  match g_writes s with
  | [] => mret tt
  | front :: _ =>
      let remaining := ms (FLAGS_group_commit_ms flags) - (se_now 0 - qw_enqueued_at front) in
      plan ← lens g_flush_policy (fun p s => s <| g_flush_policy := p |>)
               (flush_Request #(g_writes s) (g_queued_write_bytes s) (remaining <=? 0));
      match fp_action plan with
      | NoFlush => mret tt
      | Immediate =>
          cancel_timer;;
          modify (fun s => s <| g_flush_immediate ::= Z.succ |>);;
          queueInLoop (FlushTask (fp_token plan))
      | Delayed =>
          cancel_timer;;
          modify (fun s => s <| g_flush_delayed ::= Z.succ |> <| g_flush_timer := Some (fp_token plan) |>
                             <| g_timers ::= fun l => l ++ [fp_token plan] |>)
      end
  end.

Definition SubmitWrite (conn : bytes) (args : list bytes) : M Server (list frame) :=
  s ← get;
  let command := SerializeCommand (namespaced conn (g_namespaces s) args) in
  if kMaxCommandBytes <? #command then reply_and_complete conn (Error (lit "command too large"))
  else if negb (IsLeader se_raft) then reply_and_complete conn moved
  else if (kMaxQueuedWrites <=? #(g_writes s)) || (uN 64 (kMaxQueuedWriteBytes - g_queued_write_bytes s) <? #command)
  then overloaded;; reply_and_complete conn (Error (lit "BUSY write queue full"))
  else
    modify (fun s => s <| g_writes ::= fun q => q ++ [MkQueuedWrite command conn (se_now 1)] |>
                       <| g_queued_write_bytes := uN 64 (g_queued_write_bytes s + #command) |>);;
    on_session conn (fun c => c <| cs_waiting := true |>);;
    ScheduleFlush;;
    mret [].

(** * Commands *)

Definition bool_number (b : bool) : Z := if b then 1 else 0.

Definition BuildNodeInfo (ns : option bytes) (s : Server) : bytes :=
  let r := se_raft in
  info_line (lit "node_id") (GetNodeId r) ++
  lit "state:" ++ StateName r ++ crlf ++
  info_line (lit "leader_id") (GetLeaderId r) ++
  info_line (lit "term") (GetCurrentTerm r) ++
  info_line (lit "commit_index") (GetCommitIndex r) ++
  info_line (lit "last_applied") (GetLastApplied r) ++
  match ns with Some ns => lit "namespace:" ++ ns ++ crlf | None => [] end ++
  info_line (lit "connected_clients") (Z.of_nat (size (g_sessions s))) ++
  info_line (lit "queued_writes") #(g_writes s) ++
  info_line (lit "queued_write_bytes") (g_queued_write_bytes s) ++
  info_line (lit "pending_proposals") (PendingProposals r) ++
  info_line (lit "pending_proposal_bytes") (PendingBytes r) ++
  info_line (lit "proposal_batches") (ProposalBatches r) ++
  info_line (lit "apply_batches") (ApplyBatches r) ++
  info_line (lit "async_apply") (bool_number (AsyncApplyEnabled r)) ++
  info_line (lit "apply_inflight") (bool_number (ApplyInFlight r)) ++
  info_line (lit "apply_lag") (GetCommitIndex r - GetLastApplied r) ++
  info_line (lit "snapshot_index") (SnapshotIndex r) ++
  info_line (lit "client_input_bytes") (g_input_bytes s) ++
  info_line (lit "client_output_reserved_bytes") (g_output_bytes s) ++
  info_line (lit "overload_rejections") (g_overload_rejections s) ++
  info_line (lit "flush_immediate_scheduled") (g_flush_immediate s) ++
  info_line (lit "flush_delayed_scheduled") (g_flush_delayed s) ++
  info_line (lit "flush_promotions") (g_flush_promoted s) ++
  latency_ToInfo (lit "write_queue_wait") (g_write_queue_wait s) ++
  latency_ToInfo (lit "write_completed") (g_write_completed s) ++
  latency_ToInfo (lit "local_read") (g_local_read s) ++
  MetricsInfo r.

(** [g_sm->Get] and the reply it makes. *)
Definition read_key (key : bytes) : M Server (option bytes) :=
  value ← lift_result (sm_Get key (_sm se_raft)).1;
  tell (ReadsKey key value);; mret value.
Definition value_reply (value : option bytes) : bytes :=
  match value with Some v => Bulk v | None => lit "$-1" ++ crlf end.

Definition execute_get (conn : bytes) (args : list bytes) : M Server (list frame) :=
  s ← get;
  let key := MakeKey conn (arg args 1) (g_namespaces s) in
  if FLAGS_linearizable_reads reads then
    if negb (IsLeader se_raft) then reply_and_complete conn moved
    else
      cb ← register (ReadCallback conn key);
      tell (RequestsRead cb);; mret [RequestingRead]
  else if FLAGS_leader_only_reads reads && negb (IsLeader se_raft) then reply_and_complete conn moved
  else
    value ← read_key key;
    modify (fun s => s <| g_local_read ::= latency_Observe (ElapsedMicros (se_now 0) (se_now 1)) |>);;
    reply_and_complete conn (value_reply value).

Definition execute_read (conn : bytes) (args : list bytes) : M Server (list frame) :=
  let op := arg args 0 in
  if bool_decide (op = lit "PING") then reply_and_complete conn (lit "+PONG" ++ crlf)
  else if bool_decide (op = lit "SELECT") then
    if negb (IsValidName (arg args 1)) then reply_and_complete conn (Error (lit "invalid namespace name"))
    else
      modify (fun s => s <| g_namespaces ::= SetNs conn (arg args 1) |>);;
      reply_and_complete conn (lit "+OK" ++ crlf)
  else if bool_decide (op = lit "GET") then execute_get conn args
  else if bool_decide (op = lit "INFO") then
    s ← get; reply_and_complete conn (Bulk (BuildNodeInfo (Some (GetNs conn (g_namespaces s))) s))
  else reply_and_complete conn (Error (lit "ERR unknown command")).

Definition ExecuteNextCommand (conn : bytes) : M Server (list frame) :=
  s ← get;
  let session := session_of conn s in
  if cs_executing session || cs_closing session || negb (connected conn s) then mret []
  else
    match PopFront (cs_queue session) with
    | None => ScheduleDrain conn;; mret []
    | Some (cmd, queue) =>
        on_session conn (fun c => c <| cs_executing := true |> <| cs_queue := queue |>);;
        on_conn conn (fun c => c <| tc_executed ::= fun l => l ++ [cmd] |>);;
        match qc_type cmd with
        | ERROR => reply_and_complete conn (Error (qc_error_message cmd))
        | READ => execute_read conn (qc_args cmd)
        | WRITE => SubmitWrite conn (qc_args cmd)
        end
    end.

(** * The closures given to the node *)

Definition OnWriteDone (conn : bytes) (enqueued_at : Z) (ok : bool) (response : bytes) : M Server (list frame) :=
  when ok (modify (fun s => s <| g_write_completed ::= latency_Observe (ElapsedMicros enqueued_at (se_now 0)) |>));;
  s ← get;
  if negb (deliverable conn s) then abandon conn;; mret []
  else
    SendReply conn response;;
    on_session conn (fun c => c <| cs_waiting := false |>);;
    mret [CommandComplete conn].

Definition OnReadDone (conn key : bytes) (success : bool) (error : bytes) : M Server (list frame) :=
  s ← get;
  if negb (deliverable conn s) then abandon conn;; mret []
  else
    match DecideLinearizableGet success (IsLeader se_raft) error with
    | Redirect => reply_and_complete conn moved
    | FailGet => reply_and_complete conn (Error error)
    | Serve => value ← read_key key; reply_and_complete conn (value_reply value)
    end.

Definition run_callback (k : callback) (ok : bool) (text : bytes) : M Server (list frame) :=
  match k with
  | WriteCallback conn enqueued_at => OnWriteDone conn enqueued_at ok text
  | ReadCallback conn key => OnReadDone conn key ok text
  end.

(** * Input *)

Definition DrainClient (conn : bytes) : M Server (list frame) :=
  s ← get;
  let session := session_of conn s in
  let '(drained, input, queue) := DrainCommands se_now (cs_input session) (cs_queue session) kMaxCommandsPerTurn
    (connected conn s && negb (cs_closing session) && negb (cs_drain_scheduled session)) in
  on_session conn (fun c => c <| cs_input := input |> <| cs_queue := queue |>);;
  modify (fun s => s <| g_input_bytes := uN 64 (g_input_bytes s - do_consumed_bytes drained) |>);;
  if do_invalid drained then
    stopRead conn;;
    when (ShouldReplyInvalidFrame (cs_executing session) (cs_waiting session) (bool_decide (items queue = [])))
      (SendReply conn (Error (do_invalid_error drained)));;
    on_session conn (fun c => c <| cs_closing := true |>);;
    shutdown conn;;
    mret []
  else
    when (do_stop_read drained) (stopRead conn);;
    if negb (cs_executing session) && negb (bool_decide (items queue = [])) then mret [ExecuteNext conn]
    else
      s ← get;
      when (connected conn s && negb (cs_executing session)) (ScheduleDrain conn);;
      mret [].

Definition OnClientConnection (conn : bytes) : M Server unit :=
  s ← get;
  if connected conn s then
    if FLAGS_max_clients flags <=? Z.of_nat (size (g_sessions s)) then overloaded;; forceClose conn
    else modify (fun s => s <| g_sessions ::= <[conn := new_session]> |>)
  else
    match g_sessions s !! conn with
    | Some session =>
        modify (fun s => s <| g_input_bytes := uN 64 (g_input_bytes s - UnreadBytes (cs_input session)) |>
                           <| g_output_bytes := uN 64 (g_output_bytes s - cs_accounted_output session) |>
                           <| g_sessions ::= delete conn |>)
    | None => mret tt
    end;;
    modify (fun s => s <| g_namespaces ::= Remove conn |>).

(** [buffer] is what muduo's input buffer holds. *)
Definition OnClientMessage (conn buffer : bytes) : M Server (list frame) :=
  s ← get;
  match g_sessions s !! conn with
  | None => forceClose conn;; mret []
  | Some session =>
      if cs_closing session then mret []
      else
        let '(appended, input) := buffer_Append buffer (cs_input session) in
        if (uN 64 (kMaxTotalInput - g_input_bytes s) <? #buffer) || negb appended
        then overloaded;; CloseClient conn;; mret []
        else
          on_session conn (fun c => c <| cs_input := input |>);;
          on_conn conn (fun c => c <| tc_received ::= fun b => b ++ buffer |>);;
          modify (fun s => s <| g_input_bytes := uN 64 (g_input_bytes s + #buffer) |>);;
          DrainClient conn
  end.

(** The callback set with [setWriteCompleteCallback]. *)
Definition OnWriteComplete (conn : bytes) : M Server unit :=
  s ← get;
  match g_sessions s !! conn with Some _ => AccountOutput conn | None => mret tt end.

(** * Metrics *)

Definition ReplyMetrics (conn http : bytes) : M Server unit := conn_send conn http;; shutdown conn.

Definition OnMetricsConnection (conn : bytes) : M Server unit :=
  s ← get;
  if connected conn s then
    if 16 <=? Z.of_nat (size (g_metrics_requests s)) then forceClose conn
    else modify (fun s => s <| g_metrics_requests ::= <[conn := default [] (g_metrics_requests s !! conn)]> |>)
  else modify (fun s => s <| g_metrics_requests ::= delete conn |>).

Definition text_plain : bytes := lit "text/plain; charset=utf-8".

(** The response to a request whose header block has arrived. *)
Definition metrics_response (kind : MetricsRequestKind) (s : Server) : bytes :=
  match kind with
  | KOk => MetricsHttpResponse 200 (lit "OK") (PrometheusText (BuildNodeInfo None s))
             (lit "text/plain; version=0.0.4; charset=utf-8")
  | KHealth =>
      let storage_healthy := IsHealthy se_raft in
      let up := storage_healthy && negb (bool_decide (StateName se_raft = lit "stopped")) in
      MetricsHttpResponse (if up then 200 else 503) (if up then lit "OK" else lit "Service Unavailable")
        (HealthText (GetNodeId se_raft) (StateName se_raft) (GetCurrentTerm se_raft) (GetLeaderId se_raft) up storage_healthy)
        text_plain
  | KNotFound => MetricsHttpResponse 404 (lit "Not Found") (lit "not found" ++ [LF]) text_plain
  | KMethodNotAllowed => MetricsHttpResponse 405 (lit "Method Not Allowed") (lit "method not allowed" ++ [LF]) text_plain
  | _ => MetricsHttpResponse 400 (lit "Bad Request") (lit "bad request" ++ [LF]) text_plain
  end.

Definition OnMetricsMessage (conn buffer : bytes) : M Server unit :=
  s ← get;
  match g_metrics_requests s !! conn with
  | None => forceClose conn
  | Some request =>
      if kMaxMetricsRequest <? #request + #buffer then
        ReplyMetrics conn (MetricsHttpResponse 400 (lit "Bad Request") (lit "request too large" ++ [LF]) text_plain);;
        modify (fun s => s <| g_metrics_requests ::= delete conn |>)
      else
        let request := request ++ buffer in
        modify (fun s => s <| g_metrics_requests ::= <[conn := request]> |>);;
        match ClassifyMetricsRequest request with
        | KIncomplete => mret tt
        | kind =>
            s ← get;
            ReplyMetrics conn (metrics_response kind s);;
            modify (fun s => s <| g_metrics_requests ::= delete conn |>)
        end
  end.

(** * The event loop *)

(** A functor of the loop's queue. *)
Definition run_task (t : loop_task) : M Server (list frame) :=
  match t with
  | FlushTask token =>
      live ← lens g_flush_policy (fun p s => s <| g_flush_policy := p |>) (fun p => let '(b, p) := flush_Consume token p in (Ok b, p));
      if (live : bool) then modify (fun s => s <| g_flush_timer := None |>);; FlushQueuedWrites
      else mret []
  | DrainTask conn =>
      s ← get;
      match g_sessions s !! conn with
      | None => mret []
      | Some _ => on_session conn (fun c => c <| cs_drain_scheduled := false |>);; DrainClient conn
      end
  end.

(** What the loop may do next when no function of the server runs. *)
Inductive loop_event :=
  | Accepts (conn : bytes)               (* a client connects *)
  | Closes (conn : bytes)                (* its connection is down *)
  | Receives (conn buffer : bytes)
  | Drains (conn : bytes) (n : Z)        (* the socket takes [n] more bytes *)
  | WriteCompletes (conn : bytes)
  | RunsTask                             (* the first queued functor *)
  | Fires (token : Z)                    (* a timer, perhaps a cancelled one *)
  | AcceptsMetrics (conn : bytes) | ClosesMetrics (conn : bytes) | ReceivesMetrics (conn buffer : bytes)
  | EntersNode.                          (* a peer's message, a tick, an apply completion *)

Definition no_frames (m : M Server unit) : M Server (list frame) := m;; mret [].

(** When muduo gives an event: names of connections are not used twice, and the
    loop only runs what was queued and fires what was armed. *)
Definition enabled (e : loop_event) (s : Server) : bool :=
  match e with
  | Accepts conn | AcceptsMetrics conn => is_new conn s
  | Closes conn | Receives conn _ | WriteCompletes conn => is_client conn s
  | ClosesMetrics conn | ReceivesMetrics conn _ => is_scraper conn s
  | RunsTask => negb (bool_decide (g_tasks s = []))
  | Fires token => bool_decide (token ∈ g_timers s ++ g_cancelled s)
  | Drains _ _ | EntersNode => true
  end.

Definition accept (conn : bytes) (metrics : bool) : M Server unit :=
  modify (fun s => s <| g_conns ::= <[conn := new_connection metrics]> |>).

Definition run_event (e : loop_event) : M Server (list frame) :=
  match e with
  | Accepts conn => accept conn false;; no_frames (OnClientConnection conn)
  | Closes conn => forceClose conn;; no_frames (OnClientConnection conn)
  | Receives conn buffer => OnClientMessage conn buffer
  | Drains conn n => no_frames (on_conn conn (fun c => c <| tc_output := Z.max 0 (tc_output c - Z.max 0 n) |>))
  | WriteCompletes conn => no_frames (OnWriteComplete conn)
  | RunsTask =>
      s ← get;
      match g_tasks s with
      | [] => mret []
      | t :: rest => modify (fun s => s <| g_tasks := rest |>);; run_task t
      end
  | Fires token =>
      modify (fun s => s <| g_timers ::= filter (fun t => t <> token) |> <| g_cancelled ::= filter (fun t => t <> token) |>);;
      no_frames (queueInLoop (FlushTask token))
  | AcceptsMetrics conn => accept conn true;; no_frames (OnMetricsConnection conn)
  | ClosesMetrics conn => forceClose conn;; no_frames (OnMetricsConnection conn)
  | ReceivesMetrics conn buffer => no_frames (OnMetricsMessage conn buffer)
  | EntersNode => mret [InNode]
  end.

(** A step of the thread: the top frame runs, or the node, when it is on top, calls
    back or returns; the loop takes an event when the stack is empty. *)
Inductive label :=
  | Runs
  | Calls (cb : nat) (ok : bool) (text : bytes)
  | Returns (index : Z)
  | Event (e : loop_event).

Definition in_node (f : frame) : bool :=
  match f with Proposing _ | RequestingRead | InNode => true | _ => false end.

(** A batch is refused before any of its closures was called. *)
Definition may_return (index : Z) (owners : list (bytes * nat)) (s : Server) : bool :=
  (0 <=? index) || forallb (fun o => bool_decide (is_Some (g_callbacks s !! o.2))) owners.

Definition run_frame (f : frame) : M Server (list frame) :=
  match f with
  | ExecuteNext conn => ExecuteNextCommand conn
  | CommandComplete conn => OnCommandComplete conn
  | Rejecting index owners => reject_owner index owners
  | Scheduling => no_frames ScheduleFlush
  | _ => mret []
  end.

Definition machine_step (l : label) (s : Server) (stack : list frame) : option (result (list frame) * Server) :=
  match l, stack with
  | Event e, [] => if enabled e s then Some (run_event e s) else None
  | Runs, f :: stack =>
      if in_node f then None
      else Some ((fs ← run_frame f; mret (fs ++ stack)) s)
  | Calls cb ok text, f :: stack =>
      if in_node f then
        match g_callbacks s !! cb with
        | None => None
        | Some k =>
            Some ((fs ← run_callback k ok text; mret (fs ++ f :: stack))
                    (s <| g_callbacks ::= delete cb |> <| g_calls ::= fun t => t ++ [CallsBack cb ok text] |>))
        end
      else None
  | Returns index, Proposing owners :: stack =>
      if may_return index owners s then Some ((fs ← OnProposed index owners; mret (fs ++ stack)) s) else None
  | Returns _, (RequestingRead | InNode) :: stack => Some (Ok stack, s)
  | _, _ => None
  end.

End Server.

(** The states of a server process: an exception ends it. *)
Inductive server_reachable `{RocksDB} (flags : Flags) (reads : ReadFlags) : Server -> list frame -> Prop :=
  | reach_start : server_reachable flags reads new_server []
  | reach_step env l s stack s' stack' :
      server_reachable flags reads s stack ->
      machine_step (step := env) flags reads l s stack = Some (Ok stack', s') ->
      server_reachable flags reads s' stack'.
