(* ===== verification/ServerAccounting.v ===== *)
(** What the server holds on behalf of its clients: the bytes it accounts for are the
    bytes it has, and its limits are limits. *)
From stdpp Require Import base numbers strings gmap list.
From S2P Require Import Prelude Effects Text Resp Command Session Namespace Metrics Prometheus Policies.
From S2P Require Import Storage RaftLog KVStore KVStateMachine Peers Config RaftState RaftNode Server.

(** * Sums over a map *)

Definition msum {A} (f : A -> Z) (m : gmap bytes A) : Z := map_fold (fun _ x n => f x + n) 0 m.

Section MapSum.
Context {A : Type} (f : A -> Z).

Lemma msum_empty : msum f ∅ = 0.
Proof. apply map_fold_empty. Qed.

Lemma msum_insert k x m : m !! k = None -> msum f (<[k := x]> m) = f x + msum f m.
Proof. intros Hk. unfold msum. rewrite map_fold_insert_L; [done| |done]. intros. lia. Qed.

Lemma msum_delete k x m : m !! k = Some x -> msum f m = f x + msum f (delete k m).
Proof. intros Hk. rewrite <- (insert_delete_id m k x Hk) at 1. apply msum_insert, lookup_delete_eq. Qed.

Lemma msum_alter g k x m : m !! k = Some x -> msum f (alter g k m) = msum f m - f x + f (g x).
Proof.
  intros Hk. rewrite (msum_delete k x m Hk), (msum_delete k (g x) (alter g k m)) by (by rewrite lookup_alter_eq, Hk).
  rewrite delete_alter_eq. lia.
Qed.

Lemma alter_none (g : A -> A) (k : bytes) (m : gmap bytes A) : m !! k = None -> alter g k m = m.
Proof.
  intros Hk. apply map_eq. intros j. destruct (decide (j = k)) as [->|]; [by rewrite lookup_alter_eq, Hk|by rewrite lookup_alter_ne].
Qed.

Lemma size_alter (g : A -> A) (k : bytes) (m : gmap bytes A) : size (alter g k m) = size m.
Proof. by rewrite <- !size_dom, dom_alter_L. Qed.

Lemma size_delete_le (k : bytes) (m : gmap bytes A) : (size (delete k m) <= size m)%nat.
Proof. rewrite map_size_delete. destruct (m !! k); cbn; lia. Qed.

Lemma msum_alter_same g k m : (forall x, f (g x) = f x) -> msum f (alter g k m) = msum f m.
Proof.
  intros Hg. destruct (m !! k) as [x|] eqn:Hk; [rewrite (msum_alter g k x m Hk), Hg; lia|by rewrite alter_none].
Qed.

Lemma msum_nonneg m : (forall k x, m !! k = Some x -> 0 <= f x) -> 0 <= msum f m.
Proof.
  intros H. induction m as [|k x m Hk IH] using map_ind; [by rewrite msum_empty|]. rewrite msum_insert by done.
  assert (0 <= f x) by (eapply H, lookup_insert_eq). assert (0 <= msum f m); [|lia].
  apply IH. intros j y Hj. apply (H j). rewrite lookup_insert_ne; [done|]. by intros ->; rewrite Hk in Hj.
Qed.
End MapSum.

(** * Walking through the code

    [ev] decomposes a function into its assignments; the lemmas of the hint database
    say what they keep. *)

Create HintDb server.
Create HintDb server_ops.
Create HintDb server_entries.
#[export] Hint Unfold reply_and_complete OnCommandComplete ScheduleDrain register FlushQueuedWrites OnProposed reject_owner
  ScheduleFlush cancel_timer read_key execute_get execute_read OnWriteDone OnReadDone
  run_callback OnWriteComplete ReplyMetrics OnMetricsConnection OnMetricsMessage run_task
  run_frame no_frames abandon forceClose shutdown startRead stopRead tell queueInLoop : server_ops.
(** The functions that pop, fill or parse; an invariant of these has lemmas on them. *)
#[export] Hint Unfold SubmitWrite ExecuteNextCommand DrainClient OnClientMessage : server_entries.
Ltac walk :=
  cbv zeta;
  repeat first
    [ apply evolves_ret; exact _ | apply evolves_get; exact _ | apply evolves_gets; exact _
    | apply evolves_throw; exact _ | apply evolves_lift_result; exact _
    | solve [auto with server nocore]
    | apply evolves_bind; [exact _| |intros ?; cbv zeta]
    | apply evolves_when; [exact _|]
    | match goal with |- evolves _ (match ?x with _ => _ end) => destruct x end ].
Ltac ev := autounfold with server_ops server_entries; walk.
Ltac ev_ops := autounfold with server_ops; walk.

(** Running the assignments in front of a function. *)
Ltac run := repeat (rewrite M_bind_unfold; cbn [get gets modify mret M_ret on_session on_conn]).

(** A step of a frame pushes what the function returns. *)
Lemma run_more (m : M Server (list frame)) rest x stack s' :
  (fs ← m; mret (fs ++ rest)) x = (Ok stack, s') -> exists fs, m x = (Ok fs, s') /\ stack = fs ++ rest.
Proof. intros (fs & x' & E & E2)%M_bind_ok_inv. injection E2 as <- <-. eauto. Qed.

Lemma run_more_state (m : M Server (list frame)) rest x r s' : (fs ← m; mret (fs ++ rest)) x = (r, s') -> s' = (m x).2.
Proof. rewrite M_bind_unfold. by destruct (m x) as [[]]; intros [= _ <-]. Qed.

Lemma no_frames_state (m : M Server unit) s : (no_frames m s).2 = (m s).2.
Proof. unfold no_frames. rewrite M_bind_unfold. by destruct (m s) as [[]]. Qed.

(** * Output *)

Definition accounts (c : ClientSession) (tc : TcpConnection) : Prop :=
  tc_metrics tc = false /\ 0 <= tc_output tc <= cs_accounted_output c /\ cs_accounted_output c <= kMaxClientOutput.

Record output_inv (sessions : gmap bytes ClientSession) (conns : gmap bytes TcpConnection) (total : Z) : Prop := {
  oi_conn : forall conn c, sessions !! conn = Some c -> exists tc, conns !! conn = Some tc /\ accounts c tc;
  oi_total : total = msum cs_accounted_output sessions;
  oi_bound : total <= kMaxTotalOutput;
}.
Definition output_ok (s : Server) : Prop := output_inv (g_sessions s) (g_conns s) (g_output_bytes s).

Lemma keeps_session conn f :
  (forall c, cs_accounted_output (f c) = cs_accounted_output c) -> evolves (keeps output_ok) (on_session conn f).
Proof.
  intros Hf. apply evolves_modify. intros s [H1 H2 H3]. split; cbn; [|by rewrite msum_alter_same|done].
  intros k c. destruct (decide (k = conn)) as [->|]; [|rewrite lookup_alter_ne by done; auto].
  rewrite lookup_alter_eq. destruct (g_sessions s !! conn) as [c0|] eqn:E; [|done]. intros [= <-].
  unfold accounts. rewrite Hf. by apply H1.
Qed.

Lemma keeps_conn conn f :
  (forall tc, tc_metrics (f tc) = tc_metrics tc /\ (0 <= tc_output tc -> 0 <= tc_output (f tc) <= tc_output tc)) -> evolves (keeps output_ok) (on_conn conn f).
Proof.
  intros Hf. apply evolves_modify. intros s [H1 H2 H3]. split; cbn; [|done|done].
  intros k c Hk. destruct (H1 k c Hk) as (tc & Htc & Ha). destruct (decide (k = conn)) as [->|].
  - exists (f tc). rewrite lookup_alter_eq, Htc. split; [done|]. destruct (Hf tc) as [Em Ho]. unfold accounts in *. rewrite Em. intuition lia.
  - exists tc. by rewrite lookup_alter_ne.
Qed.

(** Every other assignment leaves the three fields alone. *)
Lemma keeps_others (f : Server -> Server) :
  (forall s, g_sessions (f s) = g_sessions s /\ g_conns (f s) = g_conns s /\ g_output_bytes (f s) = g_output_bytes s) ->
  evolves (keeps output_ok) (modify f).
Proof. intros Hf. apply evolves_modify. intros s Hs. unfold output_ok. by destruct (Hf s) as (-> & -> & ->). Qed.

Lemma output_total_bounds s conn c :
  output_ok s -> g_sessions s !! conn = Some c ->
  0 <= cs_accounted_output c <= g_output_bytes s /\ g_output_bytes s <= kMaxTotalOutput.
Proof.
  intros [H1 H2 H3] Hc. assert (forall k x, g_sessions s !! k = Some x -> 0 <= cs_accounted_output x) as Hpos.
  { intros k x Hk. destruct (H1 k x Hk) as (tc & _ & Ha). unfold accounts in Ha. lia. }
  rewrite H2, (msum_delete _ conn c _ Hc) in *. pose proof (Hpos _ _ Hc).
  assert (0 <= msum cs_accounted_output (delete conn (g_sessions s))); [|lia].
  apply msum_nonneg. intros k x [_ Hk]%lookup_delete_Some. by apply (Hpos k).
Qed.

Lemma output_ranges conn s :
  output_ok s -> 0 <= cs_accounted_output (session_of conn s) <= kMaxClientOutput /\ 0 <= g_output_bytes s <= kMaxTotalOutput.
Proof.
  intros Hs. split.
  - unfold session_of. destruct (g_sessions s !! conn) as [c|] eqn:Hc; [|done].
    destruct (oi_conn _ _ _ Hs conn c Hc) as (tc & _ & Ha). unfold accounts in Ha. cbn. lia.
  - split; [|apply Hs]. rewrite (oi_total _ _ _ Hs). apply msum_nonneg. intros k x Hk.
    destruct (oi_conn _ _ _ Hs k x Hk) as (tc & _ & Ha). unfold accounts in Ha. lia.
Qed.

(** [AccountOutput], where the counters are in range. *)
Lemma AccountOutput_eq conn c s :
  g_sessions s !! conn = Some c -> 0 <= cs_accounted_output c <= g_output_bytes s -> g_output_bytes s <= kMaxTotalOutput ->
  0 <= output_bytes conn s <= kMaxTotalOutput ->
  AccountOutput conn s = (Ok tt,
    s <| g_output_bytes := g_output_bytes s - cs_accounted_output c + output_bytes conn s |>
      <| g_sessions ::= alter (fun c => c <| cs_accounted_output := output_bytes conn s |>) conn |>).
Proof.
  intros Hc Ha Hg Ho. unfold AccountOutput, kMaxTotalOutput in *. rewrite M_bind_unfold. cbn [modify].
  rewrite M_bind_unfold. cbn [get]. rewrite M_bind_unfold. cbn [on_session modify]. unfold session_of, modify. cbn.
  rewrite lookup_alter_eq, Hc. cbn. unfold output_bytes in *. cbn in *.
  rewrite (uN_small 64 (g_output_bytes s - _)), uN_small by lia. done.
Qed.

Lemma alter_output conn c out conns s :
  output_ok s -> g_sessions s !! conn = Some c -> 0 <= out <= kMaxClientOutput ->
  g_output_bytes s - cs_accounted_output c + out <= kMaxTotalOutput ->
  (forall k, k <> conn -> conns !! k = g_conns s !! k) ->
  (exists tc, conns !! conn = Some tc /\ tc_metrics tc = false /\ 0 <= tc_output tc <= out) ->
  output_inv (alter (fun c => c <| cs_accounted_output := out |>) conn (g_sessions s)) conns
    (g_output_bytes s - cs_accounted_output c + out).
Proof.
  intros [H1 H2 H3] Hc Ho Hb Hk (tc & Htc & Hm & Hle). split; [|rewrite (msum_alter _ _ conn c), H2; [done|done]|done].
  intros k c'. destruct (decide (k = conn)) as [->|]; [|rewrite lookup_alter_ne, Hk by done; auto].
  rewrite lookup_alter_eq, Hc. intros [= <-]. exists tc. split; [done|]. unfold accounts. cbn. split; [done|lia].
Qed.

Lemma AccountOutput_missing conn s :
  output_ok s -> g_sessions s !! conn = None -> AccountOutput conn s = (Ok tt, s).
Proof.
  intros Hs Hc. destruct (output_ranges conn s Hs) as [_ Hg]. unfold AccountOutput. rewrite M_bind_unfold. cbn [modify]. rewrite M_bind_unfold. cbn [get].
  rewrite M_bind_unfold. cbn [on_session modify]. unfold session_of, modify. cbn. rewrite lookup_alter_eq, Hc. cbn.
  unfold kMaxTotalOutput in *. rewrite Z.sub_0_r, (uN_small 64 (g_output_bytes s)), Z.add_0_r, uN_small, alter_none by (done || lia).
  by destruct s.
Qed.

Lemma AccountOutput_keeps conn : evolves (keeps output_ok) (AccountOutput conn).
Proof.
  intros s Hs. destruct (g_sessions s !! conn) as [c|] eqn:Hc; [|by rewrite AccountOutput_missing].
  destruct (output_total_bounds s conn c Hs Hc) as [Hg Hm]. destruct (oi_conn _ _ _ Hs conn c Hc) as (tc & Htc & Ha).
  unfold accounts, kMaxClientOutput, kMaxTotalOutput in *.
  assert (output_bytes conn s = tc_output tc) as Eo by (unfold output_bytes; by rewrite Htc).
  rewrite (AccountOutput_eq conn c s Hc) by (unfold kMaxTotalOutput in *; lia). unfold output_ok. cbn.
  apply alter_output; unfold kMaxClientOutput, kMaxTotalOutput; [done|done|lia|lia|done|]. exists tc. split; [done|]. split; [by apply Ha|lia].
Qed.
#[export] Hint Resolve AccountOutput_keeps : server.

Lemma closing_keeps conn : evolves (keeps output_ok) (CloseClient conn).
Proof. apply evolves_bind; [exact _|by apply keeps_session|intros _]. apply keeps_conn. intros tc. cbn. split; [done|lia]. Qed.
Lemma overloaded_keeps : evolves (keeps output_ok) overloaded.
Proof. by apply keeps_others. Qed.
Lemma policy_keeps {A} (m : M BatchFlushPolicy A) :
  evolves (keeps output_ok) (lens g_flush_policy (fun p s => s <| g_flush_policy := p |>) m).
Proof. intros s Hs. unfold lens. by destruct (m _). Qed.
#[export] Hint Resolve closing_keeps overloaded_keeps policy_keeps : server.
#[export] Hint Extern 1 (evolves (keeps output_ok) (on_session _ _)) => apply keeps_session; intros ?; reflexivity : server.
#[export] Hint Extern 1 (evolves (keeps output_ok) (on_conn _ _)) => apply keeps_conn; intros ?; cbn; split; [reflexivity|lia] : server.
#[export] Hint Extern 1 (evolves (keeps output_ok) (modify _)) => apply keeps_others; intros ?; repeat split : server.

Section Output.
Context `{RocksDB} {step : StepEnv} (flags : Flags) (reads : ReadFlags).

(** The test of [SendReply]. *)
Definition fits (conn reply : bytes) (s : Server) : Prop :=
  #reply <= kMaxClientOutput - cs_accounted_output (session_of conn s) /\ #reply <= kMaxTotalOutput - g_output_bytes s.

Lemma send_account_keeps conn reply s :
  output_ok s -> fits conn reply s -> output_ok ((conn_send conn reply;; AccountOutput conn) s).2.
Proof.
  intros Hs [Hf1 Hf2]. rewrite M_bind_unfold. cbn [conn_send on_conn modify]. set (s1 := s <| g_conns ::= _ |>).
  destruct (g_sessions s !! conn) as [c|] eqn:Hc.
  2:{ assert (output_ok s1) as Hs1; [|by rewrite AccountOutput_missing]. destruct Hs as [H1 H2 H3]. split; cbn; [|done|done].
      intros k c Hk. rewrite lookup_alter_ne; [auto|]. intros ->. by rewrite Hc in Hk. }
  unfold session_of in Hf1. rewrite Hc in Hf1. cbn in Hf1.
  destruct (output_total_bounds s conn c Hs Hc) as [Hg Hm]. destruct (oi_conn _ _ _ Hs conn c Hc) as (tc & Htc & Ha). unfold accounts in Ha.
  set (out := Z.max 0 (tc_output tc + #reply - Z.max 0 se_taken)).
  assert (output_bytes conn s1 = out) as Eo by (unfold output_bytes, s1; cbn; by rewrite lookup_alter_eq, Htc).
  rewrite (AccountOutput_eq conn c s1 Hc) by (rewrite ?Eo; unfold s1; cbn; unfold kMaxClientOutput, kMaxTotalOutput in *; lia). unfold output_ok. rewrite Eo. unfold s1. cbn.
  apply alter_output; [done|done|lia|lia|intros; by rewrite lookup_alter_ne|].
  eexists. rewrite lookup_alter_eq, Htc. split; [done|]. cbn. split; [by apply Ha|lia].
Qed.

Lemma SendReply_keeps conn reply : evolves (keeps output_ok) (SendReply conn reply).
Proof.
  intros s Hs. unfold SendReply. rewrite M_bind_unfold. cbn [get]. destruct (_ || _); [done|].
  pose proof (AccountOutput_keeps conn s Hs) as Hs1. rewrite M_bind_unfold.
  destruct (AccountOutput conn s) as [[[]|e] s1]; [|done]. cbn in Hs1. rewrite M_bind_unfold. cbn [get].
  destruct (_ || _) eqn:Ef.
  - assert (evolves (keeps output_ok) (overloaded;; CloseClient conn)) as Hev by ev. by apply Hev.
  - apply orb_false_iff in Ef as [Ef1%Z.ltb_ge Ef2%Z.ltb_ge]. apply send_account_keeps; [done|].
    destruct (output_ranges conn s1 Hs1) as [Hr1 Hr2]. unfold fits, kMaxClientOutput, kMaxTotalOutput in *.
    rewrite uN_small in Ef1, Ef2 by lia. lia.
Qed.
#[local] Hint Resolve SendReply_keeps : server.

Lemma collect_keeps turns proposals owners total : evolves (keeps output_ok) (collect_writes turns proposals owners total).
Proof. revert proposals owners total. induction turns as [|turns IH]; intros; cbn [collect_writes]; ev. Qed.
#[local] Hint Resolve collect_keeps : server.

Lemma frames_keep f : evolves (keeps output_ok) (run_frame flags reads f).
Proof. destruct f; ev. Qed.
Lemma callbacks_keep k ok text : evolves (keeps output_ok) (run_callback k ok text).
Proof. destruct k; ev. Qed.
Lemma message_keeps conn buffer : evolves (keeps output_ok) (OnClientMessage conn buffer).
Proof. ev. Qed.
Lemma task_keeps t : evolves (keeps output_ok) (run_task t).
Proof. destruct t; ev. Qed.

(** A connection without a session does not count. *)
Lemma other_conn_keeps conn f :
  evolves (keeps (fun s => g_sessions s !! conn = None /\ output_ok s)) (on_conn conn f).
Proof.
  apply evolves_modify. intros s [Hn [H1 H2 H3]]. split; [done|]. split; cbn; [|done|done].
  intros k c Hk. rewrite lookup_alter_ne; [auto|]. intros ->. by rewrite Hn in Hk.
Qed.

Lemma scraper_no_session conn s : output_ok s -> is_scraper conn s = true -> g_sessions s !! conn = None.
Proof.
  intros Hs Hm%bool_decide_eq_true_1. destruct (g_sessions s !! conn) as [c|] eqn:Hc; [|done].
  destruct (oi_conn _ _ _ Hs conn c Hc) as (tc & Htc & Ha & _). rewrite Htc in Hm. cbn in Hm. congruence.
Qed.

Lemma new_no_session conn s : output_ok s -> is_new conn s = true -> g_sessions s !! conn = None.
Proof.
  intros Hs Hm%bool_decide_eq_true_1. destruct (g_sessions s !! conn) as [c|] eqn:Hc; [|done].
  destruct (oi_conn _ _ _ Hs conn c Hc) as (tc & Htc & _). congruence.
Qed.

Lemma accept_keeps conn metrics s :
  output_ok s -> is_new conn s = true -> output_ok (accept conn metrics s).2.
Proof.
  intros Hs Hn. pose proof (new_no_session conn s Hs Hn) as Hc. destruct Hs as [H1 H2 H3]. split; cbn; [|done|done].
  intros k c Hk. rewrite lookup_insert_ne; [auto|]. intros ->. by rewrite Hc in Hk.
Qed.

Lemma connection_keeps conn s :
  output_ok s -> (connected conn s = true -> g_sessions s !! conn = None /\ g_conns s !! conn = Some (new_connection false)) ->
  output_ok (OnClientConnection flags conn s).2.
Proof.
  intros Hs Hc. unfold OnClientConnection. rewrite M_bind_unfold. cbn [get]. destruct (connected conn s) eqn:Ec.
  - destruct (Hc eq_refl) as [Hn Hnew]. destruct (_ <=? _).
    + assert (evolves (keeps output_ok) (overloaded;; forceClose conn)) as Hev by ev. by apply Hev.
    + destruct Hs as [H1 H2 H3]. split; cbn; [|rewrite msum_insert by done; cbn; lia|done].
      intros k c. destruct (decide (k = conn)) as [->|]; [|rewrite lookup_insert_ne by done; auto].
      rewrite lookup_insert_eq. intros [= <-]. exists (new_connection false). unfold accounts. cbn. by split_and!.
  - destruct (g_sessions s !! conn) as [c|] eqn:Es; [|done]. destruct (output_total_bounds s conn c Hs Es) as [Hb Hm].
    unfold kMaxTotalOutput in Hm. destruct Hs as [H1 H2 H3]. run. split; cbn; rewrite ?uN_small by lia.
    + intros k c' [_ Hk]%lookup_delete_Some. auto.
    + rewrite H2, (msum_delete _ conn c _ Es). lia.
    + unfold kMaxTotalOutput. lia.
Qed.

(** The events that make, end or serve connections. *)
Definition classic_event (e : loop_event) : bool :=
  match e with Accepts _ | Closes _ | AcceptsMetrics _ | ReceivesMetrics _ _ => false | _ => true end.

(** The endpoint of the metrics writes to connections without a session only. *)
Lemma metrics_keeps conn buffer s :
  output_ok s -> is_scraper conn s = true -> output_ok (OnMetricsMessage conn buffer s).2.
Proof.
  intros Hs Hm. assert (evolves (keeps (fun s => g_sessions s !! conn = None /\ output_ok s)) (OnMetricsMessage conn buffer)) as Hev.
  { assert (forall f, (forall s, g_sessions (f s) = g_sessions s /\ g_conns (f s) = g_conns s /\ g_output_bytes (f s) = g_output_bytes s) ->
      evolves (keeps (fun s => g_sessions s !! conn = None /\ output_ok s)) (modify f)) as Hmod.
    { intros f Hf. apply evolves_modify. intros x [Hn Hx]. unfold output_ok. destruct (Hf x) as (-> & -> & ->). by split. }
    pose proof (other_conn_keeps conn) as Hc. unfold OnMetricsMessage, ReplyMetrics, conn_send, shutdown, forceClose.
    ev; apply Hmod; by intros. }
  apply Hev. split; [by apply scraper_no_session|done].
Qed.

Lemma event_keeps e s : enabled e s = true -> output_ok s -> output_ok (run_event flags e s).2.
Proof.
  intros He Hs. destruct (classic_event e) eqn:Ee.
  - assert (evolves (keeps output_ok) (run_event flags e)) as Hev by (destruct e; try done; cbn [run_event]; ev). by apply Hev.
  - destruct e as [conn|conn| | | | | |conn| |conn buffer|]; try done; cbn [run_event enabled] in *; run;
      unfold accept, forceClose; cbn [modify on_conn]; rewrite no_frames_state.
    + apply connection_keeps; [by apply (accept_keeps conn false s)|]. cbn. rewrite lookup_insert_eq. by split; [apply new_no_session|].
    + apply connection_keeps; [by apply (keeps_conn conn (fun c => c <| tc_connected := false |>))|]. unfold connected. cbn.
      rewrite lookup_alter_eq. by destruct (g_conns s !! conn).
    + assert (evolves (keeps output_ok) (OnMetricsConnection conn)) as Hev by ev. apply Hev. by apply (accept_keeps conn true s).
    + by apply metrics_keeps.
Qed.
End Output.

(** * Input *)

Definition unread_bytes (c : ClientSession) : Z := UnreadBytes (cs_input c).
Definition input_session (c : ClientSession) : Prop := buffer_ok (cs_input c) /\ queue_ok (cs_queue c).

Record input_inv (sessions : gmap bytes ClientSession) (total : Z) : Prop := {
  ii_session : forall conn c, sessions !! conn = Some c -> input_session c;
  ii_total : total = msum unread_bytes sessions;
  ii_bound : total <= kMaxTotalInput;
}.
Definition input_ok (s : Server) : Prop := input_inv (g_sessions s) (g_input_bytes s).

Lemma UnreadBytes_bounds b : buffer_ok b -> 0 <= UnreadBytes b <= kMaxBufferedBytes.
Proof. intros [Ho Hk]. rewrite UnreadBytes_unread by done. lia. Qed.
Lemma unread_bytes_bounds c : input_session c -> 0 <= unread_bytes c <= kMaxBufferedBytes.
Proof. intros [Hb _]. by apply UnreadBytes_bounds. Qed.

Lemma new_input_session : input_session new_session.
Proof. split; [split; [done|by vm_compute]|]. split_and!; [done|constructor|done|done]. Qed.

Lemma input_nonneg m : (forall conn c, m !! conn = Some c -> input_session c) -> 0 <= msum unread_bytes m.
Proof. intros Hm. apply msum_nonneg. intros k x Hk. apply unread_bytes_bounds. by apply (Hm k). Qed.

Lemma input_share s conn c :
  input_ok s -> g_sessions s !! conn = Some c -> 0 <= unread_bytes c <= g_input_bytes s /\ g_input_bytes s <= kMaxTotalInput.
Proof.
  intros [H1 H2 H3] Hc. rewrite H2, (msum_delete _ conn c _ Hc) in *. pose proof (unread_bytes_bounds c (H1 _ _ Hc)).
  assert (0 <= msum unread_bytes (delete conn (g_sessions s))); [|lia].
  apply input_nonneg. intros k x [_ Hk]%lookup_delete_Some. by apply (H1 k).
Qed.

Lemma session_of_input conn s : input_ok s -> input_session (session_of conn s).
Proof.
  intros Hs. unfold session_of. destruct (g_sessions s !! conn) as [c|] eqn:Hc; [by apply (ii_session _ _ Hs conn)|].
  apply new_input_session.
Qed.

(** Replacing a session, with its share of the total. *)
Lemma alter_input conn f sessions total total' :
  input_inv sessions total -> total' <= kMaxTotalInput ->
  (forall c, sessions !! conn = Some c -> input_session (f c) /\ total' = total - unread_bytes c + unread_bytes (f c)) ->
  (sessions !! conn = None -> total' = total) ->
  input_inv (alter f conn sessions) total'.
Proof.
  intros [H1 H2 H3] Hb Hf Hn. destruct (sessions !! conn) as [c|] eqn:Hc.
  - destruct (Hf c eq_refl) as [Hi ->]. split; [|by rewrite (msum_alter _ _ conn c), H2|done].
    intros k x. destruct (decide (k = conn)) as [->|]; [|rewrite lookup_alter_ne by done; apply H1].
    rewrite lookup_alter_eq, Hc. by intros [= <-].
  - rewrite alter_none by done. by rewrite Hn.
Qed.

Lemma input_keeps_session conn f :
  (forall c, cs_input (f c) = cs_input c /\ (queue_ok (cs_queue c) -> queue_ok (cs_queue (f c)))) ->
  evolves (keeps input_ok) (on_session conn f).
Proof.
  intros Hf. apply evolves_modify. intros s Hs. apply (alter_input conn f _ (g_input_bytes s)); [done|apply Hs| |done].
  intros c Hc. destruct (Hf c) as [Ei Eq]. destruct (ii_session _ _ Hs conn c Hc) as [Hb Hq].
  unfold input_session, unread_bytes. rewrite Ei. split; [by split; auto|cbn; lia].
Qed.

Lemma input_keeps_others (f : Server -> Server) :
  (forall s, g_sessions (f s) = g_sessions s /\ g_input_bytes (f s) = g_input_bytes s) -> evolves (keeps input_ok) (modify f).
Proof. intros Hf. apply evolves_modify. intros s Hs. unfold input_ok. by destruct (Hf s) as (-> & ->). Qed.

Lemma input_keeps_policy {A} (m : M BatchFlushPolicy A) :
  evolves (keeps input_ok) (lens g_flush_policy (fun p s => s <| g_flush_policy := p |>) m).
Proof. intros s Hs. unfold lens. by destruct (m _). Qed.
#[export] Hint Resolve input_keeps_policy : server.
#[export] Hint Extern 1 (evolves (keeps input_ok) (on_session _ _)) =>
  apply input_keeps_session; intros ?; cbn; split; [reflexivity|first [exact id|by intros _]] : server.
#[export] Hint Extern 1 (evolves (keeps input_ok) (on_conn _ _)) => apply input_keeps_others; intros ?; split; reflexivity : server.
#[export] Hint Extern 1 (evolves (keeps input_ok) (modify _)) => apply input_keeps_others; intros ?; split; reflexivity : server.

Section Input.
Context `{RocksDB} {step : StepEnv} (flags : Flags) (reads : ReadFlags).
#[local] Hint Unfold SubmitWrite : server_ops.

Lemma CloseClient_input conn : evolves (keeps input_ok) (CloseClient conn).
Proof. unfold CloseClient. ev_ops. Qed.
Lemma AccountOutput_input conn : evolves (keeps input_ok) (AccountOutput conn).
Proof. unfold AccountOutput. ev_ops. Qed.
Lemma overloaded_input : evolves (keeps input_ok) overloaded.
Proof. unfold overloaded. ev_ops. Qed.
#[local] Hint Resolve CloseClient_input AccountOutput_input overloaded_input : server.
Lemma SendReply_input conn reply : evolves (keeps input_ok) (SendReply conn reply).
Proof. unfold SendReply, conn_send. ev_ops. Qed.
Lemma collect_input turns proposals owners total : evolves (keeps input_ok) (collect_writes turns proposals owners total).
Proof. revert proposals owners total. induction turns as [|turns IH]; intros; cbn [collect_writes]; ev_ops. Qed.
#[local] Hint Resolve SendReply_input collect_input : server.

Lemma ExecuteNextCommand_input conn : evolves (keeps input_ok) (ExecuteNextCommand flags reads conn).
Proof.
  intros s Hs. unfold ExecuteNextCommand. rewrite M_bind_unfold. cbn [get]. cbv zeta. destruct (_ || _); [done|].
  destruct (PopFront _) as [[cmd queue]|] eqn:Ep.
  - destruct (PopFront_spec _ cmd queue (proj2 (session_of_input conn s Hs)) Ep) as [Hq _].
    match goal with |- input_ok (?m s).2 => assert (evolves (keeps input_ok) m) as Hev by ev_ops; by apply Hev end.
  - match goal with |- input_ok (?m s).2 => assert (evolves (keeps input_ok) m) as Hev by ev_ops; by apply Hev end.
Qed.
#[local] Hint Resolve ExecuteNextCommand_input : server.

Lemma parses_shorter b cmds b' : parses b cmds b' -> #b' <= #b.
Proof. induction 1; [done|]. rewrite length_drop in *. lia. Qed.

Lemma DrainCommands_input now c n keep :
  input_session c ->
  let '(out, input, queue) := DrainCommands now (cs_input c) (cs_queue c) n keep in
  buffer_ok input /\ queue_ok queue /\ do_consumed_bytes out = unread_bytes c - UnreadBytes input /\ 0 <= do_consumed_bytes out.
Proof.
  intros [Hb Hq]. unfold DrainCommands, unread_bytes. destruct keep; [|split_and!; [done|done|cbn; lia|done]].
  pose proof (drain_loop_spec n now (cs_input c) (cs_queue c) no_outcome Hb Hq eq_refl eq_refl) as HD.
  destruct (drain_loop _ _ _ _ _) as [[out input] queue]. destruct HD as (cmds & added & Hb' & Hq' & Hp & _ & _ & _ & _ & Hc & _).
  apply parses_shorter in Hp. rewrite Hc, !UnreadBytes_unread by (apply Hb || apply Hb'). split_and!; [done|done|cbn; lia|cbn; lia].
Qed.

(** The two assignments at the head of [DrainClient] keep the total exact. *)
Lemma drained_input conn input queue consumed s :
  input_ok s -> buffer_ok input -> queue_ok queue -> consumed = unread_bytes (session_of conn s) - UnreadBytes input -> 0 <= consumed ->
  input_ok (s <| g_sessions ::= alter (fun c => c <| cs_input := input |> <| cs_queue := queue |>) conn |>
              <| g_input_bytes := uN 64 (g_input_bytes s - consumed) |>).
Proof.
  intros Hs Hb Hq -> Hpos. pose proof (UnreadBytes_bounds input Hb) as Hn.
  assert (0 <= g_input_bytes s) by (rewrite (ii_total _ _ Hs); apply input_nonneg, Hs). pose proof (ii_bound _ _ Hs) as Hm.
  unfold session_of in *. unfold kMaxTotalInput, kMaxBufferedBytes in *. unfold input_ok. cbn.
  destruct (g_sessions s !! conn) as [c|] eqn:Hc; cbn in Hpos.
  - destruct (input_share s conn c Hs Hc) as [Hg _]. cbn. rewrite uN_small by lia.
    apply (alter_input conn _ _ (g_input_bytes s)); [done|unfold kMaxTotalInput; lia| |by rewrite Hc].
    intros c' Ec'. rewrite Hc in Ec'. injection Ec' as <-. split; [by split|]. unfold unread_bytes. cbn. lia.
  - rewrite alter_none by done. change (unread_bytes new_session) with 0 in *.
    assert (UnreadBytes input = 0) as -> by lia. cbn. change (unread_bytes new_session) with 0.
    replace (g_input_bytes s - (0 - 0)) with (g_input_bytes s) by lia. by rewrite uN_small by lia.
Qed.

Ltac by_ev := match goal with |- input_ok (?m ?s).2 => assert (evolves (keeps input_ok) m) as Hev by ev_ops; by apply Hev end.

Lemma DrainClient_input conn : evolves (keeps input_ok) (DrainClient conn).
Proof.
  intros s Hs. unfold DrainClient. rewrite M_bind_unfold. cbn [get]. cbv zeta.
  pose proof (DrainCommands_input se_now (session_of conn s) kMaxCommandsPerTurn
    (connected conn s && negb (cs_closing (session_of conn s)) && negb (cs_drain_scheduled (session_of conn s))) (session_of_input conn s Hs)) as HD.
  destruct (DrainCommands _ _ _ _ _) as [[out input] queue]. destruct HD as (Hb & Hq & Hc & Hpos).
  pose proof (drained_input conn input queue _ s Hs Hb Hq Hc Hpos) as Hs2.
  do 2 (rewrite M_bind_unfold; cbn [on_session modify]). by_ev.
Qed.
#[local] Hint Resolve DrainClient_input : server.

Lemma OnClientMessage_input conn buffer : evolves (keeps input_ok) (OnClientMessage conn buffer).
Proof.
  intros s Hs. unfold OnClientMessage. rewrite M_bind_unfold. cbn [get]. destruct (g_sessions s !! conn) as [c|] eqn:Hc; [|by_ev].
  destruct (cs_closing c); [done|]. destruct (ii_session _ _ Hs conn c Hc) as [Hb Hq].
  pose proof (buffer_Append_spec buffer (cs_input c) Hb) as HA. destruct (buffer_Append buffer (cs_input c)) as [appended input].
  destruct HA as (Hb' & _ & Hu). destruct (_ || _) eqn:Ef; [by_ev|].
  apply orb_false_iff in Ef as [Ef%Z.ltb_ge ->%negb_false_iff].
  do 3 (rewrite M_bind_unfold; cbn [on_session on_conn modify]). apply DrainClient_input. unfold input_ok. cbn.
  destruct (input_share s conn c Hs Hc) as [Hg Hm]. unfold kMaxTotalInput in *. rewrite uN_small in Ef by lia. rewrite uN_small by lia.
  apply (alter_input conn _ _ (g_input_bytes s)); [done|unfold kMaxTotalInput; lia| |by rewrite Hc].
  intros c' Ec'. rewrite Hc in Ec'. injection Ec' as <-. split; [by split|]. unfold unread_bytes. cbn.
  rewrite !UnreadBytes_unread, Hu, length_app by (apply Hb || apply Hb'). lia.
Qed.
#[local] Hint Resolve OnClientMessage_input : server.

Lemma OnClientConnection_input conn s :
  input_ok s -> (connected conn s = true -> g_sessions s !! conn = None) -> input_ok (OnClientConnection flags conn s).2.
Proof.
  intros Hs Hn. unfold OnClientConnection. rewrite M_bind_unfold. cbn [get]. destruct (connected conn s).
  - destruct (_ <=? _); [by_ev|]. pose proof new_input_session as Hnew. specialize (Hn eq_refl). destruct Hs as [H1 H2 H3].
    split; cbn; [|rewrite msum_insert, H2 by done; change (unread_bytes new_session) with 0; lia|done].
    intros k c. destruct (decide (k = conn)) as [->|]; [rewrite lookup_insert_eq; by intros [= <-]|].
    rewrite lookup_insert_ne by done. apply H1.
  - destruct (g_sessions s !! conn) as [c|] eqn:Hc; [|by_ev]. destruct (input_share s conn c Hs Hc) as [Hg Hm].
    unfold kMaxTotalInput in Hm. destruct Hs as [H1 H2 H3]. run. split; cbn; rewrite ?uN_small by (unfold unread_bytes in *; lia).
    + intros k c' [_ Hk]%lookup_delete_Some. by apply (H1 k).
    + rewrite H2, (msum_delete _ conn c _ Hc). unfold unread_bytes. lia.
    + unfold kMaxTotalInput, unread_bytes in *. lia.
Qed.

Lemma frames_input f : evolves (keeps input_ok) (run_frame flags reads f).
Proof. destruct f; cbn [run_frame]; ev_ops. Qed.
Lemma callbacks_input k ok text : evolves (keeps input_ok) (run_callback k ok text).
Proof. destruct k; ev_ops. Qed.

Lemma event_input e s : enabled e s = true -> output_ok s -> input_ok s -> input_ok (run_event flags e s).2.
Proof.
  intros He Ho Hs. destruct e as [conn|conn|conn buffer| | | | |conn| |conn buffer|]; cbn [run_event enabled] in *.
  1, 2: run; unfold accept, forceClose; cbn [modify on_conn]; rewrite no_frames_state; apply OnClientConnection_input; [done|].
  - intros _. exact (new_no_session conn s Ho He).
  - unfold connected. cbn. rewrite lookup_alter_eq. by destruct (g_conns s !! conn).
  - by apply OnClientMessage_input.
  - by_ev.
  - by_ev.
  - unfold run_task. by_ev.
  - by_ev.
  - unfold accept. by_ev.
  - by_ev.
  - unfold conn_send. by_ev.
  - done.
Qed.
End Input.

(** * Queued writes *)

Definition write_bytes (l : list QueuedWrite) : Z := foldr (fun w n => #(qw_command w) + n) 0 l.
Record writes_inv (writes : list QueuedWrite) (total : Z) : Prop := {
  wi_total : total = write_bytes writes;
  wi_bytes : total <= kMaxQueuedWriteBytes;
  wi_count : #writes <= kMaxQueuedWrites;
  wi_size : Forall (fun w => #(qw_command w) <= kMaxCommandBytes) writes;
}.
Definition writes_ok (s : Server) : Prop := writes_inv (g_writes s) (g_queued_write_bytes s).

Lemma write_bytes_nonneg l : 0 <= write_bytes l.
Proof. unfold write_bytes. induction l; cbn [foldr]; lia. Qed.
Lemma write_bytes_app l1 l2 : write_bytes (l1 ++ l2) = write_bytes l1 + write_bytes l2.
Proof. unfold write_bytes. induction l1; cbn [app foldr] in *; lia. Qed.

(** The front write leaves. *)
Lemma writes_pop w writes total : writes_inv (w :: writes) total -> writes_inv writes (uN 64 (total - #(qw_command w))).
Proof.
  intros [H1 H2 H3 H4]. apply Forall_cons in H4 as [_ H4]. pose proof (write_bytes_nonneg writes) as Hp.
  change (write_bytes (w :: writes)) with (#(qw_command w) + write_bytes writes) in H1. cbn in H3.
  unfold kMaxQueuedWriteBytes in *. rewrite uN_small by lia. split; unfold kMaxQueuedWriteBytes; [lia|lia|lia|done].
Qed.

Lemma writes_push w writes total :
  writes_inv writes total -> #writes < kMaxQueuedWrites -> #(qw_command w) <= uN 64 (kMaxQueuedWriteBytes - total) ->
  #(qw_command w) <= kMaxCommandBytes -> writes_inv (writes ++ [w]) (uN 64 (total + #(qw_command w))).
Proof.
  intros [H1 H2 H3 H4] Hn Hb Hc. pose proof (write_bytes_nonneg writes). unfold kMaxQueuedWriteBytes in *.
  rewrite uN_small in Hb by lia. rewrite uN_small by lia.
  split; unfold kMaxQueuedWriteBytes; rewrite ?write_bytes_app, ?length_app, ?Forall_app, ?Forall_singleton; [|lia|cbn; lia|done].
  change (write_bytes [w]) with (#(qw_command w) + 0). lia.
Qed.

Lemma writes_keeps_others (f : Server -> Server) :
  (forall s, g_writes (f s) = g_writes s /\ g_queued_write_bytes (f s) = g_queued_write_bytes s) -> evolves (keeps writes_ok) (modify f).
Proof. intros Hf. apply evolves_modify. intros s Hs. unfold writes_ok. by destruct (Hf s) as (-> & ->). Qed.

Lemma writes_keeps_policy {A} (m : M BatchFlushPolicy A) :
  evolves (keeps writes_ok) (lens g_flush_policy (fun p s => s <| g_flush_policy := p |>) m).
Proof. intros s Hs. unfold lens. by destruct (m _). Qed.
#[export] Hint Resolve writes_keeps_policy : server.
#[export] Hint Extern 1 (evolves (keeps writes_ok) (on_session _ _)) => apply writes_keeps_others; intros ?; split; reflexivity : server.
#[export] Hint Extern 1 (evolves (keeps writes_ok) (on_conn _ _)) => apply writes_keeps_others; intros ?; split; reflexivity : server.
#[export] Hint Extern 1 (evolves (keeps writes_ok) (modify _)) => apply writes_keeps_others; intros ?; split; reflexivity : server.

Section Writes.
Context `{RocksDB} {step : StepEnv} (flags : Flags) (reads : ReadFlags).

Lemma AccountOutput_writes conn : evolves (keeps writes_ok) (AccountOutput conn).
Proof. unfold AccountOutput. ev. Qed.
Lemma CloseClient_writes conn : evolves (keeps writes_ok) (CloseClient conn).
Proof. unfold CloseClient. ev. Qed.
Lemma overloaded_writes : evolves (keeps writes_ok) overloaded.
Proof. unfold overloaded. ev. Qed.
#[local] Hint Resolve AccountOutput_writes CloseClient_writes overloaded_writes : server.
Lemma SendReply_writes conn reply : evolves (keeps writes_ok) (SendReply conn reply).
Proof. unfold SendReply, conn_send. ev. Qed.
#[local] Hint Resolve SendReply_writes : server.

Lemma collect_writes_keeps turns proposals owners total :
  evolves (keeps writes_ok) (collect_writes turns proposals owners total).
Proof.
  revert proposals owners total. induction turns as [|turns IH]; intros proposals owners total; cbn [collect_writes]; [ev|].
  intros s Hs. rewrite M_bind_unfold. cbn [get]. destruct (g_writes s) as [|w rest] eqn:Ew; [done|].
  destruct (_ && _); [done|]. rewrite M_bind_unfold. cbn [modify]. unfold writes_ok in Hs. rewrite Ew in Hs. apply writes_pop in Hs.
  match goal with |- writes_ok (?m ?x).2 => assert (evolves (keeps writes_ok) m) as Hev; [|by apply Hev] end. ev.
Qed.
#[local] Hint Resolve collect_writes_keeps : server.

Lemma SubmitWrite_writes conn args : evolves (keeps writes_ok) (SubmitWrite flags conn args).
Proof.
  intros s Hs. unfold SubmitWrite. rewrite M_bind_unfold. cbn [get]. cbv zeta. set (command := SerializeCommand _).
  assert (forall m : M Server (list frame), evolves (keeps writes_ok) m -> writes_ok (m s).2) as Hev by (intros m Hm; by apply Hm).
  destruct (Z.ltb_spec kMaxCommandBytes #command) as [|Hc]; [apply Hev; ev|].
  destruct (negb _); [apply Hev; ev|]. destruct (_ || _) eqn:Ef; [apply Hev; ev|].
  apply orb_false_iff in Ef as [Hn%Z.leb_gt Hb%Z.ltb_ge]. rewrite M_bind_unfold. cbn [modify].
  match goal with |- writes_ok (?m ?x).2 => assert (evolves (keeps writes_ok) m) as Hev2 by ev; apply Hev2 end.
  by apply (writes_push (MkQueuedWrite command conn (se_now 1))).
Qed.
#[local] Hint Resolve SubmitWrite_writes : server.
#[local] Hint Unfold ExecuteNextCommand DrainClient OnClientMessage OnClientConnection accept conn_send : server_ops.

Lemma frames_writes f : evolves (keeps writes_ok) (run_frame flags reads f).
Proof. destruct f; ev_ops. Qed.
Lemma callbacks_writes k ok text : evolves (keeps writes_ok) (run_callback k ok text).
Proof. destruct k; ev_ops. Qed.
Lemma event_writes e : evolves (keeps writes_ok) (run_event flags e).
Proof. destruct e; cbn [run_event]; ev_ops. Qed.
End Writes.

(** * Numbers of connections *)

Record counts_ok (flags : Flags) (s : Server) : Prop := {
  co_clients : Z.of_nat (size (g_sessions s)) <= FLAGS_max_clients flags;
  co_scrapers : Z.of_nat (size (g_metrics_requests s)) <= 16;
  co_requests : map_Forall (fun _ request => #request <= kMaxMetricsRequest) (g_metrics_requests s);
}.

Lemma counts_keeps_session flags conn f : evolves (keeps (counts_ok flags)) (on_session conn f).
Proof. apply evolves_modify. intros s [H1 H2 H3]. split; cbn; [|done|done]. by rewrite size_alter. Qed.
Lemma counts_keeps_others flags (f : Server -> Server) :
  (forall s, g_sessions (f s) = g_sessions s /\ g_metrics_requests (f s) = g_metrics_requests s) ->
  evolves (keeps (counts_ok flags)) (modify f).
Proof. intros Hf. apply evolves_modify. intros s [H1 H2 H3]. destruct (Hf s) as [E1 E2]. split; by rewrite ?E1, ?E2. Qed.
Lemma counts_keeps_policy flags {A} (m : M BatchFlushPolicy A) :
  evolves (keeps (counts_ok flags)) (lens g_flush_policy (fun p s => s <| g_flush_policy := p |>) m).
Proof. intros s [H1 H2 H3]. unfold lens. by destruct (m _). Qed.
#[export] Hint Resolve counts_keeps_policy counts_keeps_session : server.
#[export] Hint Extern 1 (evolves (keeps (counts_ok _)) (on_conn _ _)) => apply counts_keeps_others; intros ?; split; reflexivity : server.
#[export] Hint Extern 1 (evolves (keeps (counts_ok _)) (modify _)) => apply counts_keeps_others; intros ?; split; reflexivity : server.

Section Counts.
Context `{RocksDB} {step : StepEnv} (flags : Flags) (reads : ReadFlags).

Lemma AccountOutput_counts conn : evolves (keeps (counts_ok flags)) (AccountOutput conn).
Proof. unfold AccountOutput. ev. Qed.
Lemma CloseClient_counts conn : evolves (keeps (counts_ok flags)) (CloseClient conn).
Proof. unfold CloseClient. ev. Qed.
Lemma overloaded_counts : evolves (keeps (counts_ok flags)) overloaded.
Proof. unfold overloaded. ev. Qed.
#[local] Hint Resolve AccountOutput_counts CloseClient_counts overloaded_counts : server.
Lemma SendReply_counts conn reply : evolves (keeps (counts_ok flags)) (SendReply conn reply).
Proof. unfold SendReply, conn_send. ev. Qed.
Lemma collect_counts turns proposals owners total : evolves (keeps (counts_ok flags)) (collect_writes turns proposals owners total).
Proof. revert proposals owners total. induction turns as [|turns IH]; intros; cbn [collect_writes]; ev. Qed.
#[local] Hint Resolve SendReply_counts collect_counts : server.

Lemma frames_counts f : evolves (keeps (counts_ok flags)) (run_frame flags reads f).
Proof. destruct f; ev. Qed.
Lemma callbacks_counts k ok text : evolves (keeps (counts_ok flags)) (run_callback k ok text).
Proof. destruct k; ev. Qed.

Lemma forget_request_counts conn :
  evolves (keeps (counts_ok flags)) (modify (fun s => s <| g_metrics_requests ::= delete conn |>)).
Proof.
  apply evolves_modify. intros s [H1 H2 H3]. split; cbn; [done| |].
  - pose proof (size_delete_le conn (g_metrics_requests s)). lia.
  - intros k r [_ Hk]%lookup_delete_Some. by apply (H3 k).
Qed.
#[local] Hint Resolve forget_request_counts : server.

Ltac by_counts := match goal with |- counts_ok _ (?m ?s).2 => assert (evolves (keeps (counts_ok flags)) m) as Hev by ev; by apply Hev end.

Lemma OnClientConnection_counts conn : evolves (keeps (counts_ok flags)) (OnClientConnection flags conn).
Proof.
  intros s Hs. unfold OnClientConnection. rewrite M_bind_unfold. cbn [get]. destruct (connected conn s).
  - destruct (Z.leb_spec (FLAGS_max_clients flags) (Z.of_nat (size (g_sessions s)))) as [|Hlt]; [by_counts|].
    destruct Hs as [H1 H2 H3]. split; cbn; [|done|done]. rewrite map_size_insert. destruct (g_sessions s !! conn); cbn; lia.
  - destruct (g_sessions s !! conn); [|by_counts]. run. destruct Hs as [H1 H2 H3]. split; cbn; [|done|done].
    pose proof (size_delete_le conn (g_sessions s)). lia.
Qed.

Lemma OnMetricsConnection_counts conn : evolves (keeps (counts_ok flags)) (OnMetricsConnection conn).
Proof.
  intros s Hs. unfold OnMetricsConnection. rewrite M_bind_unfold. cbn [get]. destruct (connected conn s); [|by_counts].
  destruct (Z.leb_spec 16 (Z.of_nat (size (g_metrics_requests s)))) as [|Hlt]; [by_counts|].
  destruct Hs as [H1 H2 H3]. split; cbn; [done| |].
  - rewrite map_size_insert. destruct (g_metrics_requests s !! conn); cbn; lia.
  - apply map_Forall_insert_2; [|done]. destruct (g_metrics_requests s !! conn) as [r|] eqn:Er; [by apply (H3 conn)|done].
Qed.

Lemma OnMetricsMessage_counts conn buffer : evolves (keeps (counts_ok flags)) (OnMetricsMessage conn buffer).
Proof.
  intros s Hs. unfold OnMetricsMessage. rewrite M_bind_unfold. cbn [get]. destruct (g_metrics_requests s !! conn) as [r|] eqn:Er; [|by_counts].
  destruct (Z.ltb_spec kMaxMetricsRequest (#r + #buffer)) as [|Hle]; [unfold ReplyMetrics, conn_send; by_counts|].
  cbv zeta. rewrite M_bind_unfold. cbn [modify].
  match goal with |- counts_ok _ (?m ?x).2 => assert (evolves (keeps (counts_ok flags)) m) as Hev; [unfold ReplyMetrics, conn_send; ev|apply Hev] end.
  destruct Hs as [H1 H2 H3]. split; cbn; [done| |].
  - rewrite map_size_insert, Er. done.
  - apply map_Forall_insert_2; [|done]. rewrite length_app. lia.
Qed.

Lemma OnClientMessage_counts conn buffer : evolves (keeps (counts_ok flags)) (OnClientMessage conn buffer).
Proof. ev. Qed.
Lemma run_task_counts t : evolves (keeps (counts_ok flags)) (run_task t).
Proof. destruct t; ev. Qed.
#[local] Hint Resolve OnClientConnection_counts OnMetricsConnection_counts OnMetricsMessage_counts OnClientMessage_counts
  run_task_counts : server.

Lemma event_counts e : evolves (keeps (counts_ok flags)) (run_event flags e).
Proof. destruct e; cbn [run_event]; unfold no_frames, accept, forceClose, OnWriteComplete, queueInLoop; walk. Qed.
End Counts.

(** * A step keeps what its parts keep *)

Section Step.
Context `{RocksDB} (flags : Flags) (reads : ReadFlags) (I : Server -> Prop).
Hypothesis frames_hold : forall (step : StepEnv) f, evolves (keeps I) (run_frame flags reads f).
Hypothesis callbacks_hold : forall (step : StepEnv) k ok text, evolves (keeps I) (run_callback k ok text).
Hypothesis events_hold : forall (step : StepEnv) e s, enabled e s = true -> I s -> I (run_event flags e s).2.
Hypothesis calls_hold : forall f, (forall s, g_sessions (f s) = g_sessions s /\ g_conns (f s) = g_conns s /\
  g_input_bytes (f s) = g_input_bytes s /\ g_output_bytes (f s) = g_output_bytes s /\ g_writes (f s) = g_writes s /\
  g_queued_write_bytes (f s) = g_queued_write_bytes s /\ g_metrics_requests (f s) = g_metrics_requests s) ->
  evolves (keeps I) (modify f).

Lemma step_holds (step : StepEnv) l s stack r s' : machine_step flags reads l s stack = Some (r, s') -> I s -> I s'.
Proof.
  intros Hl Hs.
  destruct l as [|cb ok text|index|e], stack as [|f stack]; cbn [machine_step] in Hl; try done.
  - destruct (in_node f); [done|]. injection Hl as ->%run_more_state. by apply frames_hold.
  - destruct (in_node f); [|done]. destruct (g_callbacks s !! cb) as [k|]; [|done]. injection Hl as ->%run_more_state.
    apply callbacks_hold.
    assert (evolves (keeps I) (modify (fun s => s <| g_callbacks ::= delete cb |> <| g_calls ::= fun t => t ++ [CallsBack cb ok text] |>)))
      as Hc by (apply calls_hold; by intros).
    exact (Hc s Hs).
  - destruct f; simplify_eq/=; [|done|done]. destruct (may_return _ _ _); [|done]. injection Hl as ->%run_more_state.
    unfold OnProposed. assert (evolves (keeps I) (OnProposed index owners)) as Hev; [|by apply Hev].
    unfold OnProposed. walk; apply calls_hold; by intros.
  - destruct (enabled e s) eqn:Ee; [|done]. injection Hl as E. replace s' with (run_event flags e s).2 by (by rewrite E). by apply events_hold.
Qed.
End Step.

(** * The theorem *)

Definition accounting_ok (flags : Flags) (s : Server) : Prop := output_ok s /\ input_ok s /\ writes_ok s /\ counts_ok flags s.

Lemma accounting_step `{RocksDB} flags reads (step : StepEnv) l s stack r s' :
  machine_step flags reads l s stack = Some (r, s') -> accounting_ok flags s -> accounting_ok flags s'.
Proof.
  apply step_holds.
  - intros step' f x (Ho & Hi & Hw & Hc).
    split_and!; [by apply frames_keep|by apply frames_input|by apply frames_writes|by apply frames_counts].
  - intros step' k ok text x (Ho & Hi & Hw & Hc).
    split_and!; [by apply callbacks_keep|by apply callbacks_input|by apply callbacks_writes|by apply callbacks_counts].
  - intros step' e x He (Ho & Hi & Hw & Hc).
    split_and!; [by apply event_keeps|by apply event_input|by apply event_writes|by apply event_counts].
  - intros f Hf. apply evolves_modify. intros x (Ho & Hi & Hw & Hc). destruct (Hf x) as (E1 & E2 & E3 & E4 & E5 & E6 & E7).
    unfold accounting_ok, output_ok, input_ok, writes_ok. rewrite E1, E2, E3, E4, E5, E6. split_and!; [done..|].
    destruct Hc as [C1 C2 C3]. split; by rewrite ?E1, ?E7.
Qed.

(** C16. Whatever clients send, however the socket takes the replies and whatever the node
    answers, the server's counters are exact and its limits hold: the accounted input is
    the bytes not yet parsed, at most 64 MiB; the accounted output is the sum of the
    sessions' shares, each at least what waits in the connection's buffer and at most
    4 MiB, together at most 64 MiB; the queue holds at most 1024 writes and 16 MiB; a
    session's input and queue respect their limits; there are at most [--max_clients]
    sessions and 16 metrics requests.  In particular no counter ever wraps around. *)
Theorem server_accounting `{RocksDB} flags reads s stack :
  0 <= FLAGS_max_clients flags -> server_reachable flags reads s stack -> accounting_ok flags s.
Proof.
  intros Hf. induction 1 as [|step l s stack s' stack' _ IH Hl]; [|by eapply accounting_step].
  split_and!; split; done.
Qed.
