(* ===== verification/Conversation.v ===== *)
(** The conversation on one connection: what the server promises a client.

    A [View] is all the server holds of a connection: its history, its session while it
    may still be answered, its namespace, and what is outstanding for it, a queued write,
    a closure given to the node, a place among the owners of a refused batch, a completion
    on the call stack.  [converse] are the moves a conversation can make; [conv_inv] is
    their invariant: one command at a time, its answer before the next one starts. *)
From stdpp Require Import base numbers strings gmap list.
From S2P Require Import Prelude Effects Text Resp Command Session Namespace Metrics Prometheus Policies.
From S2P Require Import Storage RaftLog KVStore KVStateMachine Peers Config RaftState RaftNode Server.

(** * Answers *)

Definition moved_to (leader : Z) : bytes := Error (lit "MOVED " ++ to_string leader).
Definition refusal (r : bytes) : Prop := (exists leader, r = moved_to leader) \/ r = Error (lit "BUSY proposal capacity exhausted").

(** The namespace after a command. *)
Definition selects (cmd : QueuedCommand) : bool :=
  bool_decide (qc_type cmd = READ) && bool_decide (arg (qc_args cmd) 0 = lit "SELECT") && IsValidName (arg (qc_args cmd) 1).
Definition ns_after (ns : bytes) (cmd : QueuedCommand) : bytes := if selects cmd then arg (qc_args cmd) 1 else ns.
Definition ns_of (cmds : list QueuedCommand) : bytes := foldl ns_after kDefaultNs cmds.

Definition namespaced_in (ns : bytes) (args : list bytes) : list bytes :=
  <[WriteKeyIndex args := ns ++ kSep :: arg args (WriteKeyIndex args)]> args.
(** What the server proposes for a write. *)
Definition proposal_of (ns : bytes) (cmd : QueuedCommand) : bytes := SerializeCommand (namespaced_in ns (qc_args cmd)).
Definition key_of (ns : bytes) (cmd : QueuedCommand) : bytes := ns ++ kSep :: arg (qc_args cmd) 1.

Definition proposed (calls : list node_call) (cb : nat) (command : bytes) : Prop :=
  exists ps, Proposes ps ∈ calls /\ MkProposal command (Some cb) ∈ ps.

(** The answer to a write is the node's answer to the proposal of that write, or says
    why there was none. *)
Definition write_answer (calls : list node_call) (ns : bytes) (cmd : QueuedCommand) (r : bytes) : Prop :=
  (kMaxCommandBytes < #(proposal_of ns cmd) /\ r = Error (lit "command too large")) \/
  refusal r \/ r = Error (lit "BUSY write queue full") \/
  exists cb ok, proposed calls cb (proposal_of ns cmd) /\ CallsBack cb ok r ∈ calls.

(** With linearizable reads a value was read right after the node confirmed the read
    index asked for; otherwise it was read from the local state. *)
Definition confirmed_read (calls : list node_call) (key r : bytes) : Prop :=
  exists cb ok error before after,
    calls = before ++ CallsBack cb ok error :: after /\ RequestsRead cb ∈ before /\
    if ok then exists value after', after = ReadsKey key value :: after' /\ r = value_reply value
    else r = Error error.

Definition get_answer (reads : ReadFlags) (calls : list node_call) (ns : bytes) (cmd : QueuedCommand) (r : bytes) : Prop :=
  (exists leader, r = moved_to leader) \/
  if FLAGS_linearizable_reads reads then confirmed_read calls (key_of ns cmd) r
  else exists value, ReadsKey (key_of ns cmd) value ∈ calls /\ r = value_reply value.

Definition answer (reads : ReadFlags) (calls : list node_call) (ns : bytes) (cmd : QueuedCommand) (r : bytes) : Prop :=
  let named op := arg (qc_args cmd) 0 = lit op in
  match qc_type cmd with
  | ERROR => r = Error (qc_error_message cmd)
  | WRITE => write_answer calls ns cmd r
  | READ =>
      (named "PING" /\ r = lit "+PONG" ++ crlf) \/
      (named "SELECT" /\ r = if IsValidName (arg (qc_args cmd) 1) then lit "+OK" ++ crlf
                             else Error (lit "invalid namespace name")) \/
      (named "GET" /\ get_answer reads calls ns cmd r) \/
      (named "INFO" /\ exists info, r = Bulk info) \/
      r = Error (lit "ERR unknown command")
  end.

(** * Views *)

Record Talk := MkTalk { tk_input : CommandBuffer; tk_queue : SessionCommandQueue; tk_executing : bool }.
Definition new_talk : Talk := MkTalk empty_buffer (MkSessionCommandQueue [] 0) false.
Record History := MkHistory { hi_received : bytes; hi_executed : list QueuedCommand; hi_sent : list bytes }.
Definition new_history : History := MkHistory [] [] [].

Record View := MkView {
  v_hist : option History;             (* [None]: no such connection yet *)
  v_live : option Talk;                (* [None]: it will not be answered any more *)
  v_ns : option bytes;
  v_writes : list bytes; v_callbacks : gmap nat callback; v_reject : nat; v_done : nat }.
#[export] Instance View_fields : Fields View :=
  {| rebuild := fun r => MkView (v_hist r) (v_live r) (v_ns r) (v_writes r) (v_callbacks r) (v_reject r) (v_done r);
     rebuild_id := fun r => match r with MkView _ _ _ _ _ _ _ => eq_refl end |}.

Definition owed (v : View) : nat := length (v_writes v) + size (v_callbacks v) + v_reject v.
Definition view_ns (v : View) : bytes := default kDefaultNs (v_ns v).

(** * Moves *)

(** [SendReply]: the reply is sent, or the client is over its limits and is closed. *)
Inductive replied (r : bytes) (v : View) : View -> Prop :=
  | replied_dead : v_live v = None -> replied r v v
  | replied_sent h : v_hist v = Some h -> is_Some (v_live v) ->
      replied r v (v <| v_hist := Some (MkHistory (hi_received h) (hi_executed h) (hi_sent h ++ [r])) |>)
  | replied_closed : is_Some (v_live v) -> replied r v (v <| v_live := None |>).

(** The next command leaves the queue. *)
Definition started (h : History) (talk : Talk) (cmd : QueuedCommand) (q : SessionCommandQueue) (v : View) : View :=
  v <| v_live := Some (MkTalk (tk_input talk) q true) |>
    <| v_hist := Some (MkHistory (hi_received h) (hi_executed h ++ [cmd]) (hi_sent h)) |>
    <| v_ns := if selects cmd then Some (arg (qc_args cmd) 1) else v_ns v |>.

Definition can_start (v : View) (h : History) (talk : Talk) (cmd : QueuedCommand) (q : SessionCommandQueue) : Prop :=
  v_hist v = Some h /\ v_live v = Some talk /\ tk_executing talk = false /\ PopFront (tk_queue talk) = Some (cmd, q).

(** What a closure sends when the node calls it. *)
Definition replies_to (k : callback) (ok : bool) (text : bytes) (more : list node_call) (r : bytes) : Prop :=
  match k with
  | WriteCallback _ _ => more = [] /\ r = text
  | ReadCallback _ key =>
      (more = [] /\ exists leader, r = moved_to leader) \/
      (more = [] /\ ok = false /\ r = Error text) \/
      (ok = true /\ exists value, more = [ReadsKey key value] /\ r = value_reply value)
  end.

Definition is_get (cmd : QueuedCommand) : Prop := qc_type cmd = READ /\ arg (qc_args cmd) 0 = lit "GET".

(** [converse reads c batch news v v']: a move on connection [c]; [news] is what the
    server and the node tell each other in it, [batch] the proposals being collected. *)
Inductive converse (reads : ReadFlags) (c : bytes) (batch : list Proposal) : list node_call -> View -> View -> Prop :=
  | cv_reply v h talk cmd q news r v2 :
      can_start v h talk cmd q -> answer reads news (view_ns v) cmd r -> replied r (started h talk cmd q v) v2 ->
      converse reads c batch news v (v2 <| v_done ::= S |>)
  | cv_write v h talk cmd q :
      can_start v h talk cmd q -> qc_type cmd = WRITE ->
      converse reads c batch [] v ((started h talk cmd q v) <| v_writes ::= fun l => l ++ [proposal_of (view_ns v) cmd] |>)
  | cv_read v h talk cmd q n :
      can_start v h talk cmd q -> is_get cmd -> FLAGS_linearizable_reads reads = true -> v_callbacks v !! n = None ->
      converse reads c batch [RequestsRead n] v
        ((started h talk cmd q v) <| v_callbacks ::= <[n := ReadCallback c (key_of (view_ns v) cmd)]> |>)
  | cv_collect v w ws n t :
      v_writes v = w :: ws -> is_Some (v_live v) -> v_callbacks v !! n = None -> MkProposal w (Some n) ∈ batch ->
      converse reads c batch [] v (v <| v_writes := ws |> <| v_callbacks ::= <[n := WriteCallback c t]> |>)
  | cv_drop v w ws : v_writes v = w :: ws -> v_live v = None -> converse reads c batch [] v (v <| v_writes := ws |>)
  | cv_called v n k ok text more r v2 :
      batch = [] -> v_callbacks v !! n = Some k -> is_Some (v_live v) -> replies_to k ok text more r ->
      replied r (v <| v_callbacks ::= delete n |>) v2 ->
      converse reads c batch (CallsBack n ok text :: more) v (v2 <| v_done ::= S |>)
  | cv_called_dead v n k ok text :
      v_callbacks v !! n = Some k -> v_live v = None ->
      converse reads c batch [CallsBack n ok text] v (v <| v_callbacks ::= delete n |>)
  | cv_refused v n t :
      v_callbacks v !! n = Some (WriteCallback c t) ->
      converse reads c batch [] v (v <| v_callbacks ::= delete n |> <| v_reject ::= S |>)
  | cv_rejected v n r v2 :
      v_reject v = S n -> is_Some (v_live v) -> refusal r -> replied r (v <| v_reject := n |>) v2 ->
      converse reads c batch [] v (v2 <| v_done ::= S |>)
  | cv_reject_dead v n : v_reject v = S n -> v_live v = None -> converse reads c batch [] v (v <| v_reject := n |>)
  | cv_completed v n :
      v_done v = S n ->
      converse reads c batch [] v
        (v <| v_done := n |> <| v_live ::= fmap (fun talk => MkTalk (tk_input talk) (tk_queue talk) false) |>)
  | cv_accepted v : v_hist v = None -> converse reads c batch [] v (v <| v_hist := Some new_history |> <| v_live := Some new_talk |>)
  | cv_turned_away v : v_hist v = None -> converse reads c batch [] v (v <| v_hist := Some new_history |>)
  | cv_closed v : is_Some (v_hist v) -> converse reads c batch [] v (v <| v_live := None |> <| v_ns := None |>)
  | cv_over v : converse reads c batch [] v (v <| v_live := None |>)
  | cv_received v h talk chunk input :
      v_hist v = Some h -> v_live v = Some talk -> buffer_Append chunk (tk_input talk) = (true, input) ->
      converse reads c batch [] v
        (v <| v_live := Some (MkTalk input (tk_queue talk) (tk_executing talk)) |>
           <| v_hist := Some (MkHistory (hi_received h ++ chunk) (hi_executed h) (hi_sent h)) |>)
  | cv_drained v talk now keep out input queue :
      v_live v = Some talk -> DrainCommands now (tk_input talk) (tk_queue talk) kMaxCommandsPerTurn keep = (out, input, queue) ->
      do_invalid out = false ->
      converse reads c batch [] v (v <| v_live := Some (MkTalk input queue (tk_executing talk)) |>)
  | cv_invalid v talk now out input queue v2 :
      v_live v = Some talk -> DrainCommands now (tk_input talk) (tk_queue talk) kMaxCommandsPerTurn true = (out, input, queue) ->
      do_invalid out = true ->
      (v2 = v \/ (tk_executing talk = false /\ items queue = [] /\ replied (Error (do_invalid_error out)) v v2)) ->
      converse reads c batch [] v (v2 <| v_live := None |>).

(** * The invariant *)

Definition asked (calls : list node_call) (batch : list Proposal) (cb : nat) (command : bytes) : Prop :=
  proposed calls cb command \/ MkProposal command (Some cb) ∈ batch.

(** Every reply answers the command at its place. *)
Definition answers_ok (reads : ReadFlags) (calls : list node_call) (executed : list QueuedCommand) (sent : list bytes) : Prop :=
  forall i r, sent !! i = Some r ->
    exists cmd, executed !! i = Some cmd /\ answer reads calls (ns_of (take i executed)) cmd r.

(** The commands are the first of the stream, and the replies answer them, except for a
    last one that reports a broken frame behind all of them. *)
Definition history_ok (reads : ReadFlags) (calls : list node_call) (h : History) : Prop :=
  exists cmds rest later sent tail,
    parses (hi_received h) cmds rest /\ Forall2 admitted cmds (hi_executed h ++ later) /\
    hi_sent h = sent ++ tail /\ answers_ok reads calls (hi_executed h) sent /\
    (tail = [] \/ (later = [] /\ length sent = length (hi_executed h) /\ pr_state (TryParseOne rest) = Invalid /\
                   tail = [Error (pr_error (TryParseOne rest))])).

(** The command being executed. *)
Definition current (h : History) (cmd : QueuedCommand) : Prop := last (hi_executed h) = Some cmd.

Definition callback_ok (reads : ReadFlags) (calls : list node_call) (batch : list Proposal) (h : History) (n : nat) (k : callback) : Prop :=
  match k with
  | WriteCallback _ _ =>
      exists cmd, current h cmd /\ qc_type cmd = WRITE /\ asked calls batch n (proposal_of (ns_of (hi_executed h)) cmd)
  | ReadCallback _ key =>
      exists cmd, current h cmd /\ is_get cmd /\ key = key_of (ns_of (hi_executed h)) cmd /\
        FLAGS_linearizable_reads reads = true /\ RequestsRead n ∈ calls
  end.

(** A connection that may be answered; [hand] counts the command that a running function
    has in its hands. *)
Record live_at (hand : nat) (reads : ReadFlags) (calls : list node_call) (batch : list Proposal) (v : View) (h : History) (talk : Talk) : Prop := {
  lo_buffer : buffer_ok (tk_input talk);
  lo_queue : queue_ok (tk_queue talk);
  lo_parse : exists cmds, parses (hi_received h) cmds (unread (tk_input talk)) /\
    Forall2 admitted cmds (hi_executed h ++ items (tk_queue talk));
  lo_ns : view_ns v = ns_of (hi_executed h);
  lo_count : (owed v + v_done v + hand = if tk_executing talk then 1 else 0)%nat;
  lo_sent : (length (hi_sent h) + owed v + hand = length (hi_executed h))%nat;
  lo_answers : answers_ok reads calls (hi_executed h) (hi_sent h);
  lo_writes : forall w, w ∈ v_writes v -> exists cmd,
    current h cmd /\ qc_type cmd = WRITE /\ w = proposal_of (ns_of (hi_executed h)) cmd;
  lo_callbacks : map_Forall (callback_ok reads calls batch h) (v_callbacks v);
  lo_reject : (0 < v_reject v)%nat -> exists cmd, current h cmd /\ qc_type cmd = WRITE;
}.

Definition conv_inv (reads : ReadFlags) (calls : list node_call) (batch : list Proposal) (v : View) : Prop :=
  match v_hist v, v_live v with
  | None, None => v_ns v = None /\ owed v = O /\ v_done v = O
  | None, Some _ => False
  | Some h, None => history_ok reads calls h
  | Some h, Some talk => live_at 0 reads calls batch v h talk
  end.

(** * What is said stays said *)

Lemma confirmed_read_mono calls news key r : confirmed_read calls key r -> confirmed_read (calls ++ news) key r.
Proof.
  intros (cb & ok & error & before & after & -> & Hb & Hr). exists cb, ok, error, before, (after ++ news).
  rewrite <- app_assoc. split; [done|]. split; [done|]. destruct ok; [|done]. destruct Hr as (value & after' & -> & ->).
  by exists value, (after' ++ news).
Qed.

Lemma answer_mono reads calls news ns cmd r : answer reads calls ns cmd r -> answer reads (calls ++ news) ns cmd r.
Proof.
  unfold answer. destruct (qc_type cmd); [|intros [H|[H|[H|(cb & ok & (ps & Hp & Hin) & Hc)]]]|done].
  - intros [H|[H|[[Hg H]|H]]]; [by left|by right; left| |by right; right; right]. right. right. left. split; [done|].
    destruct H as [H|H]; [by left|]. right. destruct (FLAGS_linearizable_reads reads); [by apply confirmed_read_mono|].
    destruct H as (value & Hv & ->). exists value. split; [|done]. apply elem_of_app. by left.
  - by left.
  - by right; left.
  - by right; right; left.
  - right. right. right. exists cb, ok. split; [exists ps; split; [|done]|]; apply elem_of_app; by left.
Qed.

Lemma answers_mono reads calls news executed sent : answers_ok reads calls executed sent -> answers_ok reads (calls ++ news) executed sent.
Proof. intros H i r Hi. destruct (H i r Hi) as (cmd & Hc & Ha). exists cmd. split; [done|]. by apply answer_mono. Qed.

Lemma history_mono reads calls news h : history_ok reads calls h -> history_ok reads (calls ++ news) h.
Proof.
  intros (cmds & rest & later & sent & tail & H1 & H2 & H3 & H4 & H5). exists cmds, rest, later, sent, tail.
  split_and!; [done|done|done|by apply answers_mono|done].
Qed.

(** The batch turns into a call. *)
Definition keeps_asked (calls : list node_call) (batch : list Proposal) (calls' : list node_call) (batch' : list Proposal) : Prop :=
  forall n w, asked calls batch n w -> asked calls' batch' n w.

Lemma live_mono hand reads calls batch news batch' v h talk :
  keeps_asked calls batch (calls ++ news) batch' ->
  live_at hand reads calls batch v h talk -> live_at hand reads (calls ++ news) batch' v h talk.
Proof.
  intros Hk [H1 H2 H3 H4 H5 H6 H7 H8 H9 H10]. split; try done; [by apply answers_mono|].
  intros n k Hn. specialize (H9 n k Hn). destruct k as [c t|c key]; cbn in *.
  - destruct H9 as (cmd & Hc & Ht & Ha). exists cmd. eauto.
  - destruct H9 as (cmd & Hc & Hg & -> & Hl & Hr). exists cmd. split_and!; try done. apply elem_of_app. by left.
Qed.

Lemma conv_mono reads calls batch news batch' v :
  keeps_asked calls batch (calls ++ news) batch' -> conv_inv reads calls batch v -> conv_inv reads (calls ++ news) batch' v.
Proof.
  intros Hk. unfold conv_inv. destruct (v_hist v), (v_live v); [by apply live_mono|by apply history_mono|done|done].
Qed.

Lemma live_history hand reads calls batch v h talk : live_at hand reads calls batch v h talk -> history_ok reads calls h.
Proof.
  intros [H1 H2 (cmds & Hp & Hf) H4 H5 H6 H7 H8 H9 H10]. exists cmds, (unread (tk_input talk)), (items (tk_queue talk)), (hi_sent h), [].
  rewrite app_nil_r. split_and!; [done|done|done|done|by left].
Qed.

(** * The moves keep the invariant *)

Lemma ns_of_snoc l cmd : ns_of (l ++ [cmd]) = ns_after (ns_of l) cmd.
Proof. unfold ns_of. by rewrite foldl_app. Qed.

Lemma ns_after_write ns cmd : qc_type cmd = WRITE -> ns_after ns cmd = ns.
Proof. intros E. unfold ns_after, selects. by rewrite E, bool_decide_eq_false_2. Qed.
Lemma ns_after_get ns cmd : is_get cmd -> ns_after ns cmd = ns.
Proof. intros [_ E]. unfold ns_after, selects. by rewrite E, (bool_decide_eq_false_2 (lit "GET" = lit "SELECT")), andb_false_r. Qed.

(** The namespace a command runs in. *)
Definition ns_before (h : History) : bytes := ns_of (take (pred (length (hi_executed h))) (hi_executed h)).

Lemma current_snoc h cmd : current h cmd -> exists l, hi_executed h = l ++ [cmd] /\ ns_before h = ns_of l.
Proof.
  unfold current, ns_before. intros (l & E)%last_Some. exists l. split; [done|]. rewrite E.
  replace (pred (length (l ++ [cmd]))) with (length l) by (rewrite length_app; cbn; lia). by rewrite take_app_length.
Qed.

Lemma ns_before_same h cmd : current h cmd -> (forall ns, ns_after ns cmd = ns) -> ns_before h = ns_of (hi_executed h).
Proof. intros Hc Hn. destruct (current_snoc h cmd Hc) as (l & E & ->). by rewrite E, ns_of_snoc, Hn. Qed.

Lemma answers_start reads calls executed sent cmd : answers_ok reads calls executed sent -> answers_ok reads calls (executed ++ [cmd]) sent.
Proof.
  intros H i r Hi. destruct (H i r Hi) as (c & Hc & Ha). exists c. pose proof (lookup_lt_Some _ _ _ Hc).
  rewrite take_app_le, lookup_app_l by lia. done.
Qed.

Lemma answers_reply reads calls h cmd r :
  answers_ok reads calls (hi_executed h) (hi_sent h) -> current h cmd -> length (hi_executed h) = S (length (hi_sent h)) ->
  answer reads calls (ns_before h) cmd r -> answers_ok reads calls (hi_executed h) (hi_sent h ++ [r]).
Proof.
  intros H Hc Hl Ha i x Hi. apply lookup_app_Some in Hi as [Hi|[Hge Hi]]; [by apply H|].
  assert (i = length (hi_sent h)) as -> by (destruct (i - length (hi_sent h))%nat eqn:E; [lia|done]).
  rewrite Nat.sub_diag in Hi. injection Hi as <-. exists cmd. unfold ns_before in Ha. rewrite Hl in Ha. split; [|done].
  destruct (current_snoc h cmd Hc) as (l & E & _). rewrite E in Hl |- *. rewrite length_app in Hl. cbn in Hl.
  replace (length (hi_sent h)) with (length l) by lia. apply list_lookup_middle. done.
Qed.

Lemma owed_zero v : owed v = O -> v_writes v = [] /\ v_callbacks v = ∅ /\ v_reject v = O.
Proof.
  unfold owed. intros H. split_and!; [apply length_zero_iff_nil; lia|apply map_size_empty_inv; lia|lia].
Qed.

Section Moves.
Context (reads : ReadFlags) (calls : list node_call) (batch : list Proposal).

Lemma live_started v h talk cmd q :
  live_at 0 reads calls batch v h talk -> can_start v h talk cmd q ->
  live_at 1 reads calls batch (started h talk cmd q v)
    (MkHistory (hi_received h) (hi_executed h ++ [cmd]) (hi_sent h)) (MkTalk (tk_input talk) q true).
Proof.
  intros [H1 H2 (cmds & Hp & Hf) H4 H5 H6 H7 H8 H9 H10] (_ & _ & Ex & Ep). rewrite Ex in H5.
  assert (owed v = O) as Ho by lia. destruct (owed_zero v Ho) as (Ew & Ek & Er).
  destruct (PopFront_spec _ cmd q H2 Ep) as [Hq Hi]. split; cbn.
  - done.
  - done.
  - exists cmds. rewrite <- app_assoc. cbn. by rewrite <- Hi.
  - rewrite ns_of_snoc, <- H4. unfold view_ns, ns_after. cbn. by destruct (selects cmd).
  - change (owed v + v_done v + 1 = 1)%nat. lia.
  - change (length (hi_sent h) + owed v + 1 = length (hi_executed h ++ [cmd]))%nat. rewrite length_app. cbn. lia.
  - by apply answers_start.
  - rewrite Ew. intros w Hw. by apply elem_of_nil in Hw.
  - rewrite Ek. apply map_Forall_empty.
  - lia.
Qed.

(** The command in hand is answered. *)
Lemma conv_replied v h talk cmd r v2 :
  v_hist v = Some h -> v_live v = Some talk -> live_at 1 reads calls batch v h talk -> current h cmd ->
  answer reads calls (ns_before h) cmd r -> replied r v v2 -> conv_inv reads calls batch (v2 <| v_done ::= S |>).
Proof.
  intros Eh Et Hl Hc Ha Hr. pose proof Hl as [H1 H2 H3 H4 H5 H6 H7 H8 H9 H10].
  assert (owed v = O) as Ho by (destruct (tk_executing talk); lia). destruct (owed_zero v Ho) as (Ew & Ek & Er).
  destruct Hr as [Hn|h' Eh' _|_]; unfold conv_inv; cbn; rewrite ?Eh, ?Et.
  - congruence.
  - rewrite Eh in Eh'. injection Eh' as <-. split; cbn; try done.
    + change (owed v + S (v_done v) + 0 = if tk_executing talk then 1 else 0)%nat. lia.
    + change (length (hi_sent h ++ [r]) + owed v + 0 = length (hi_executed h))%nat. rewrite length_app. cbn. lia.
    + apply (answers_reply _ _ _ cmd); [done|done|lia|done].
  - by eapply live_history.
Qed.

Lemma conv_live v h talk :
  v_hist v = Some h -> v_live v = Some talk -> live_at 0 reads calls batch v h talk -> conv_inv reads calls batch v.
Proof. unfold conv_inv. by intros -> ->. Qed.

(** It becomes a queued write, or a closure given to the node. *)
Lemma conv_queued v h talk cmd :
  v_hist v = Some h -> v_live v = Some talk -> live_at 1 reads calls batch v h talk -> current h cmd -> qc_type cmd = WRITE ->
  conv_inv reads calls batch (v <| v_writes ::= fun l => l ++ [proposal_of (ns_of (hi_executed h)) cmd] |>).
Proof.
  intros Eh Et [H1 H2 H3 H4 H5 H6 H7 H8 H9 H10] Hc Hw. apply (conv_live _ h talk); [done|done|].
  assert (owed (v <| v_writes ::= fun l => l ++ [proposal_of (ns_of (hi_executed h)) cmd] |>) = S (owed v)) as Eo
    by (unfold owed; cbn; rewrite length_app; cbn; lia).
  split; rewrite ?Eo; try done; [cbn; lia|lia|]. cbn.
  intros w [Hin|Hin%list_elem_of_singleton]%elem_of_app; [by apply H8|]. subst. eauto.
Qed.

Lemma conv_registered v h talk n k :
  v_hist v = Some h -> v_live v = Some talk -> live_at 1 reads calls batch v h talk -> v_callbacks v !! n = None ->
  callback_ok reads calls batch h n k -> conv_inv reads calls batch (v <| v_callbacks ::= <[n := k]> |>).
Proof.
  intros Eh Et [H1 H2 H3 H4 H5 H6 H7 H8 H9 H10] Hn Hk. apply (conv_live _ h talk); [done|done|].
  assert (owed (v <| v_callbacks ::= <[n := k]> |>) = S (owed v)) as Eo
    by (unfold owed; cbn; rewrite map_size_insert_None by done; lia).
  split; rewrite ?Eo; try done; [cbn; lia|lia|]. by apply map_Forall_insert_2.
Qed.

(** What is owed comes into a function's hands. *)
Lemma live_in_hand v v' h talk :
  v_ns v' = v_ns v -> v_done v' = v_done v -> owed v = S (owed v') -> v_writes v' ⊆ v_writes v ->
  v_callbacks v' ⊆ v_callbacks v -> (v_reject v' <= v_reject v)%nat ->
  live_at 0 reads calls batch v h talk -> live_at 1 reads calls batch v' h talk.
Proof.
  intros En Ed Eo Ew Ek Er [H1 H2 H3 H4 H5 H6 H7 H8 H9 H10]. split; try done.
  - unfold view_ns. by rewrite En.
  - lia.
  - lia.
  - intros w Hw. by apply H8, Ew.
  - intros n k Hn. apply H9. by eapply lookup_weaken.
  - intros Hr. apply H10. lia.
Qed.

Lemma live_called v h talk n k :
  live_at 0 reads calls batch v h talk -> v_callbacks v !! n = Some k -> live_at 1 reads calls batch (v <| v_callbacks ::= delete n |>) h talk.
Proof.
  intros Hl Hn. revert Hl. apply live_in_hand; cbn; [done|done| |done|apply delete_subseteq|done].
  unfold owed. cbn. assert (size (v_callbacks v) <> 0)%nat by (intros E%map_size_empty_inv; by rewrite E in Hn).
  rewrite map_size_delete_Some by eauto. lia.
Qed.

Lemma live_taken v h talk w ws :
  live_at 0 reads calls batch v h talk -> v_writes v = w :: ws -> live_at 1 reads calls batch (v <| v_writes := ws |>) h talk.
Proof.
  intros Hl Hw. revert Hl. apply live_in_hand; cbn; try done; [unfold owed; rewrite Hw; cbn; lia|]. rewrite Hw. intros x Hx. by right.
Qed.

Lemma live_rejected v h talk n :
  live_at 0 reads calls batch v h talk -> v_reject v = S n -> live_at 1 reads calls batch (v <| v_reject := n |>) h talk.
Proof. intros Hl Hn. revert Hl. apply live_in_hand; cbn; try done; [unfold owed; rewrite Hn; cbn; lia|lia]. Qed.

(** And goes to the owners of a refused batch. *)
Lemma conv_refused v h talk cmd :
  v_hist v = Some h -> v_live v = Some talk -> live_at 1 reads calls batch v h talk -> current h cmd -> qc_type cmd = WRITE ->
  conv_inv reads calls batch (v <| v_reject ::= S |>).
Proof.
  intros Eh Et [H1 H2 H3 H4 H5 H6 H7 H8 H9 H10] Hc Hw. apply (conv_live _ h talk); [done|done|].
  assert (owed (v <| v_reject ::= S |>) = S (owed v)) as Eo by (unfold owed; cbn; lia).
  split; rewrite ?Eo; try done; [cbn; lia|lia|]. eauto.
Qed.
End Moves.

Lemma answer_before reads calls news ns cmd r : answer reads news ns cmd r -> answer reads (calls ++ news) ns cmd r.
Proof.
  assert (forall x, x ∈ news -> x ∈ calls ++ news) as Hin by (intros; apply elem_of_app; by right).
  unfold answer. destruct (qc_type cmd); [|intros [H|[H|[H|(cb & ok & (ps & Hp & Hi) & Hc)]]]|done].
  - intros [H|[H|[[Hg H]|H]]]; [by left|by right; left| |by right; right; right]. right. right. left. split; [done|].
    destruct H as [H|H]; [by left|]. right. destruct (FLAGS_linearizable_reads reads).
    + destruct H as (cb & ok & error & before & after & -> & Hb & Hr). exists cb, ok, error, (calls ++ before), after.
      rewrite app_assoc. split_and!; [done|apply elem_of_app; by right|done].
    + destruct H as (value & Hv & ->). exists value. auto.
  - by left.
  - by right; left.
  - by right; right; left.
  - right. right. right. exists cb, ok. split; [exists ps|]; auto.
Qed.

Lemma conv_over reads calls batch v : conv_inv reads calls batch v -> conv_inv reads calls batch (v <| v_live := None |>).
Proof.
  unfold conv_inv. cbn. destruct (v_hist v); [destruct (v_live v); [by apply live_history|done]|by destruct (v_live v)].
Qed.

(** A connection that is not answered any more asks for nothing. *)
Lemma conv_dead reads calls batch v v' :
  v_live v = None -> is_Some (v_hist v) -> v_hist v' = v_hist v -> v_live v' = None ->
  conv_inv reads calls batch v -> conv_inv reads calls batch v'.
Proof. unfold conv_inv. intros E1 [h E2] E3 E4. by rewrite E3, E4, E1, E2. Qed.

Lemma conv_known reads calls batch v :
  conv_inv reads calls batch v -> (0 < owed v + v_done v)%nat -> is_Some (v_hist v).
Proof. unfold conv_inv. destruct (v_hist v); [eauto|]. destruct (v_live v); [done|]. intros (_ & -> & ->). lia. Qed.

Section Starts.
Context (reads : ReadFlags) (calls : list node_call) (batch : list Proposal).

Lemma can_start_live v h talk cmd q :
  conv_inv reads calls batch v -> can_start v h talk cmd q -> live_at 0 reads calls batch v h talk.
Proof. unfold conv_inv. intros Hv (E1 & E2 & _). by rewrite E1, E2 in Hv. Qed.

Lemma conv_reply v h talk cmd q r v2 :
  conv_inv reads calls batch v -> can_start v h talk cmd q -> answer reads calls (view_ns v) cmd r ->
  replied r (started h talk cmd q v) v2 -> conv_inv reads calls batch (v2 <| v_done ::= S |>).
Proof.
  intros Hv Hc Ha Hr. pose proof (can_start_live v h talk cmd q Hv Hc) as Hl.
  refine (conv_replied reads calls batch (started h talk cmd q v) _ _ cmd r v2 eq_refl eq_refl (live_started reads calls batch v h talk cmd q Hl Hc) _ _ Hr).
  - apply last_snoc.
  - rewrite (lo_ns _ _ _ _ _ _ _ Hl) in Ha. unfold ns_before. cbn [hi_executed].
    replace (pred (length (hi_executed h ++ [cmd]))) with (length (hi_executed h)) by (rewrite length_app; cbn; lia).
    by rewrite take_app_length.
Qed.

Lemma conv_write v h talk cmd q :
  conv_inv reads calls batch v -> can_start v h talk cmd q -> qc_type cmd = WRITE ->
  conv_inv reads calls batch ((started h talk cmd q v) <| v_writes ::= fun l => l ++ [proposal_of (view_ns v) cmd] |>).
Proof.
  intros Hv Hc Hw. pose proof (can_start_live v h talk cmd q Hv Hc) as Hl. rewrite (lo_ns _ _ _ _ _ _ _ Hl).
  assert (ns_of (hi_executed h) = ns_of (hi_executed h ++ [cmd])) as -> by (by rewrite ns_of_snoc, ns_after_write).
  refine (conv_queued reads calls batch (started h talk cmd q v) _ _ cmd eq_refl eq_refl (live_started reads calls batch v h talk cmd q Hl Hc) _ Hw).
  apply last_snoc.
Qed.

Lemma conv_read v h talk cmd q n c :
  conv_inv reads calls batch v -> can_start v h talk cmd q -> is_get cmd -> FLAGS_linearizable_reads reads = true ->
  v_callbacks v !! n = None -> RequestsRead n ∈ calls ->
  conv_inv reads calls batch ((started h talk cmd q v) <| v_callbacks ::= <[n := ReadCallback c (key_of (view_ns v) cmd)]> |>).
Proof.
  intros Hv Hc Hg Hf Hn Hr. pose proof (can_start_live v h talk cmd q Hv Hc) as Hl.
  refine (conv_registered reads calls batch (started h talk cmd q v) _ _ n _ eq_refl eq_refl (live_started reads calls batch v h talk cmd q Hl Hc) Hn _).
  exists cmd. cbn. rewrite (lo_ns _ _ _ _ _ _ _ Hl), ns_of_snoc, ns_after_get by done. split_and!; [apply last_snoc|done..].
Qed.

Lemma conv_collect v w ws n t c :
  conv_inv reads calls batch v -> v_writes v = w :: ws -> is_Some (v_live v) -> v_callbacks v !! n = None ->
  MkProposal w (Some n) ∈ batch ->
  conv_inv reads calls batch (v <| v_writes := ws |> <| v_callbacks ::= <[n := WriteCallback c t]> |>).
Proof.
  intros Hv Hw [talk Et] Hn Hb. unfold conv_inv in Hv. rewrite Et in Hv. destruct (v_hist v) as [h|] eqn:Eh; [|done].
  destruct (lo_writes _ _ _ _ _ _ _ Hv w) as (cmd & Hc & Ht & Ew); [rewrite Hw; by left|].
  apply (conv_registered reads calls batch (v <| v_writes := ws |>) h talk n); [done|done|by apply (live_taken reads calls batch v h talk w)|done|].
  exists cmd. rewrite <- Ew. by split_and!; [| |right].
Qed.
End Starts.

Section Calls.
Context (reads : ReadFlags) (calls : list node_call).

(** The node's call answers the command its closure was made for. *)
Lemma callback_answer batch h n k ok text more r :
  callback_ok reads calls batch h n k -> keeps_asked calls batch (calls ++ CallsBack n ok text :: more) [] ->
  replies_to k ok text more r ->
  exists cmd, current h cmd /\ answer reads (calls ++ CallsBack n ok text :: more) (ns_before h) cmd r.
Proof.
  intros Hk Ha Hr. destruct k as [c t|c key].
  - destruct Hk as (cmd & Hc & Hw & Hask). destruct Hr as [-> ->]. exists cmd. split; [done|].
    rewrite (ns_before_same h cmd Hc) by (intros; by apply ns_after_write). unfold answer. rewrite Hw. right. right. right.
    destruct (Ha _ _ Hask) as [Hp|[]%elem_of_nil]. exists n, ok. split; [done|]. apply elem_of_app. right. by left.
  - destruct Hk as (cmd & Hc & Hg & -> & Hf & Hreq). exists cmd. split; [done|].
    rewrite (ns_before_same h cmd Hc) by (intros; by apply ns_after_get). destruct Hg as [Ht Hget]. unfold answer. rewrite Ht.
    right. right. left. split; [done|]. unfold get_answer. rewrite Hf.
    destruct Hr as [[_ Hm]|[(-> & -> & ->)|(-> & value & -> & ->)]]; [by left|right..].
    + by exists n, false, text, calls, [].
    + exists n, true, text, calls, [ReadsKey (key_of (ns_of (hi_executed h)) cmd) value]. split_and!; [done|done|]. by eexists _, [].
Qed.

Lemma conv_called batch v n k ok text more r v2 :
  conv_inv reads calls batch v -> keeps_asked calls batch (calls ++ CallsBack n ok text :: more) [] ->
  v_callbacks v !! n = Some k -> is_Some (v_live v) -> replies_to k ok text more r ->
  replied r (v <| v_callbacks ::= delete n |>) v2 ->
  conv_inv reads (calls ++ CallsBack n ok text :: more) [] (v2 <| v_done ::= S |>).
Proof.
  intros Hv Ha Hn [talk Et] Hk Hr. unfold conv_inv in Hv. rewrite Et in Hv. destruct (v_hist v) as [h|] eqn:Eh; [|done].
  destruct (callback_answer batch h n k ok text more r (lo_callbacks _ _ _ _ _ _ _ Hv n k Hn) Ha Hk) as (cmd & Hc & Hans).
  apply (conv_replied reads _ [] (v <| v_callbacks ::= delete n |>) h talk cmd r); [done|done| |done|done|done].
  apply (live_called _ _ _ v h talk n k); [by apply (live_mono 0 reads calls batch)|done].
Qed.
End Calls.

Section Rest.
Context (reads : ReadFlags) (calls : list node_call) (batch : list Proposal).

Lemma conv_refuse v n c t :
  conv_inv reads calls batch v -> v_callbacks v !! n = Some (WriteCallback c t) ->
  conv_inv reads calls batch (v <| v_callbacks ::= delete n |> <| v_reject ::= S |>).
Proof.
  intros Hv Hn. assert (0 < owed v)%nat as Ho.
  { unfold owed. assert (size (v_callbacks v) <> 0)%nat by (intros E%map_size_empty_inv; by rewrite E in Hn). lia. }
  destruct (v_live v) as [talk|] eqn:Et; [|eapply (conv_dead _ _ _ v); [done|eapply conv_known; [done|lia]|done..]].
  unfold conv_inv in Hv. rewrite Et in Hv. destruct (v_hist v) as [h|] eqn:Eh; [|done].
  destruct (lo_callbacks _ _ _ _ _ _ _ Hv n _ Hn) as (cmd & Hc & Hw & _).
  apply (conv_refused reads calls batch (v <| v_callbacks ::= delete n |>) h talk cmd); [done|done| |done|done].
  by eapply live_called.
Qed.

Lemma conv_reject v n r v2 :
  conv_inv reads calls batch v -> v_reject v = S n -> is_Some (v_live v) -> refusal r -> replied r (v <| v_reject := n |>) v2 ->
  conv_inv reads calls batch (v2 <| v_done ::= S |>).
Proof.
  intros Hv Hn [talk Et] Hf Hr. unfold conv_inv in Hv. rewrite Et in Hv. destruct (v_hist v) as [h|] eqn:Eh; [|done].
  destruct (lo_reject _ _ _ _ _ _ _ Hv) as (cmd & Hc & Hw); [lia|].
  apply (conv_replied reads calls batch (v <| v_reject := n |>) h talk cmd r); [done|done|by apply live_rejected|done| |done].
  unfold answer. rewrite Hw. right. by left.
Qed.

Lemma conv_completed v n :
  conv_inv reads calls batch v -> v_done v = S n ->
  conv_inv reads calls batch
    (v <| v_done := n |> <| v_live ::= fmap (fun talk => MkTalk (tk_input talk) (tk_queue talk) false) |>).
Proof.
  intros Hv Hn. destruct (v_live v) as [talk|] eqn:Et.
  2:{ eapply (conv_dead _ _ _ v); [done|eapply conv_known; [done|lia]|done|cbn; by rewrite Et|done]. }
  unfold conv_inv in Hv. rewrite Et in Hv. destruct (v_hist v) as [h|] eqn:Eh; [|done].
  apply (conv_live _ _ _ _ h (MkTalk (tk_input talk) (tk_queue talk) false)); [done|cbn; by rewrite Et|].
  destruct Hv as [H1 H2 H3 H4 H5 H6 H7 H8 H9 H10]. split; try done. change (owed v + n + 0 = 0)%nat. destruct (tk_executing talk); lia.
Qed.

Lemma conv_accepted v :
  conv_inv reads calls batch v -> v_hist v = None -> conv_inv reads calls batch (v <| v_hist := Some new_history |> <| v_live := Some new_talk |>).
Proof.
  unfold conv_inv. intros Hv Eh. rewrite Eh in Hv. destruct (v_live v); [done|]. destruct Hv as (En & Eo & Ed). cbn.
  destruct (owed_zero v Eo) as (Ew & Ek & Er). split; cbn.
  - split; [done|by vm_compute].
  - split_and!; [done|constructor|done|done].
  - exists []. split; [constructor|done].
  - unfold view_ns. cbn. by rewrite En.
  - change (owed v + v_done v + 0 = 0)%nat. lia.
  - change (0 + owed v + 0 = 0)%nat. lia.
  - by intros i r Hi.
  - rewrite Ew. by intros w []%elem_of_nil.
  - rewrite Ek. apply map_Forall_empty.
  - lia.
Qed.

Lemma new_history_ok : history_ok reads calls new_history.
Proof. exists [], [], [], [], []. split_and!; [constructor|constructor|done|by intros i r Hi|by left]. Qed.
End Rest.

#[local] Opaque drain_loop TryParseOne.

Section Stream.
Context (reads : ReadFlags) (calls : list node_call) (batch : list Proposal).

Lemma conv_received v h talk chunk input :
  conv_inv reads calls batch v -> v_hist v = Some h -> v_live v = Some talk -> buffer_Append chunk (tk_input talk) = (true, input) ->
  conv_inv reads calls batch
    (v <| v_live := Some (MkTalk input (tk_queue talk) (tk_executing talk)) |>
       <| v_hist := Some (MkHistory (hi_received h ++ chunk) (hi_executed h) (hi_sent h)) |>).
Proof.
  unfold conv_inv. intros Hv Eh Et Ea. rewrite Eh, Et in Hv. cbn. destruct Hv as [H1 H2 (cmds & Hp & Hf) H4 H5 H6 H7 H8 H9 H10].
  pose proof (buffer_Append_spec chunk (tk_input talk) H1) as HA. rewrite Ea in HA. destruct HA as (Hb & _ & Hu).
  split; try done. exists cmds. cbn. rewrite Hu. split; [by apply parses_more|done].
Qed.

Lemma drained_live v h talk now keep out input queue :
  live_at 0 reads calls batch v h talk ->
  DrainCommands now (tk_input talk) (tk_queue talk) kMaxCommandsPerTurn keep = (out, input, queue) ->
  live_at 0 reads calls batch v h (MkTalk input queue (tk_executing talk)) /\
  (do_invalid out = true -> pr_state (TryParseOne (unread input)) = Invalid /\ do_invalid_error out = pr_error (TryParseOne (unread input))).
Proof.
  intros [H1 H2 (cmds & Hp & Hf) H4 H5 H6 H7 H8 H9 H10] Ed. unfold DrainCommands in Ed. destruct keep.
  2:{ injection Ed as <- <- <-. split; [|done]. split; try done. by exists cmds. }
  pose proof (drain_loop_spec kMaxCommandsPerTurn now _ _ no_outcome H1 H2 eq_refl eq_refl) as HD. rewrite Ed in HD.
  destruct HD as (cmds' & added & Hb & Hq & Hp' & _ & Hi & Ha & _ & _ & Hs). split.
  - split; try done. exists (cmds ++ cmds'). cbn. rewrite Hi, app_assoc. split; [by eapply parses_trans|by apply Forall2_app].
  - intros Ei. unfold drain_stopped in Hs. rewrite Ei in Hs. tauto.
Qed.

Lemma conv_drained v talk now keep out input queue :
  conv_inv reads calls batch v -> v_live v = Some talk ->
  DrainCommands now (tk_input talk) (tk_queue talk) kMaxCommandsPerTurn keep = (out, input, queue) ->
  conv_inv reads calls batch (v <| v_live := Some (MkTalk input queue (tk_executing talk)) |>).
Proof.
  unfold conv_inv. intros Hv Et Ed. rewrite Et in Hv. cbn. destruct (v_hist v) as [h|]; [|done].
  destruct (drained_live v h talk now keep out input queue Hv Ed) as [[H1 H2 H3 H4 H5 H6 H7 H8 H9 H10] _]. by split.
Qed.

(** The reply to a broken frame comes after the answers to everything in front of it. *)
Lemma conv_invalid v talk now out input queue v2 :
  conv_inv reads calls batch v -> v_live v = Some talk ->
  DrainCommands now (tk_input talk) (tk_queue talk) kMaxCommandsPerTurn true = (out, input, queue) -> do_invalid out = true ->
  tk_executing talk = false -> items queue = [] -> replied (Error (do_invalid_error out)) v v2 ->
  conv_inv reads calls batch (v2 <| v_live := None |>).
Proof.
  intros Hv Et Ed Ei Ex Eq Hr. pose proof Hv as Hv'. unfold conv_inv in Hv'. rewrite Et in Hv'. destruct (v_hist v) as [h|] eqn:Eh; [|done].
  destruct Hr as [|h' Eh' _|_]; [congruence| |by apply conv_over, conv_over]. rewrite Eh in Eh'. injection Eh' as <-.
  destruct (drained_live v h talk now true out input queue Hv' Ed) as [[H1 H2 (cmds & Hp & Hf) H4 H5 H6 H7 H8 H9 H10] Hinv].
  destruct (Hinv Ei) as [Hst Her]. unfold conv_inv. cbn in *. rewrite Ex in H5.
  exists cmds, (unread input), [], (hi_sent h), [Error (do_invalid_error out)]. rewrite Eq in Hf. cbn.
  split_and!; [done|done|done|done|]. right. split_and!; [done|lia|done|by rewrite Her].
Qed.
End Stream.

(** Every move keeps the invariant. *)
Lemma converse_inv reads c calls batch batch' news v v' :
  converse reads c batch' news v v' -> keeps_asked calls batch (calls ++ news) batch' ->
  conv_inv reads calls batch v -> conv_inv reads (calls ++ news) batch' v'.
Proof.
  intros Hc Ha Hv. pose proof (conv_mono reads calls batch news batch' v Ha Hv) as Hv2.
  destruct Hc as [v h talk cmd q news r v2 Hst Hans Hr|v h talk cmd q Hst Hw|v h talk cmd q n Hst Hg Hf Hn
    |v w ws n t Hw Hl Hn Hb|v w ws Hw Hl|v n k ok text more r v2 Eb Hn Hl Hk Hr|v n k ok text Hn Hl|v n t Hn|v n r v2 Hn Hl Hf Hr
    |v n Hn Hl|v n Hn|v Hh|v Hh|v Hh|v|v h talk chunk input Hh Hl Happ|v talk now keep out input queue Hl Hd Hi
    |v talk now out input queue v2 Hl Hd Hi Hr].
  - eapply conv_reply; [done|done|by apply answer_before|done].
  - by apply conv_write.
  - apply conv_read; [done..|]. apply elem_of_app. right. by left.
  - by eapply conv_collect.
  - eapply (conv_dead _ _ _ v); [done|eapply conv_known; [done|unfold owed; rewrite Hw; cbn; lia]|done..].
  - subst batch'. by eapply conv_called.
  - assert (0 < owed v)%nat as Ho.
    { unfold owed. assert (size (v_callbacks v) <> 0)%nat by (intros E%map_size_empty_inv; by rewrite E in Hn). lia. }
    eapply (conv_dead _ _ _ v); [done|eapply conv_known; [done|lia]|done..].
  - by eapply conv_refuse.
  - by eapply conv_reject.
  - eapply (conv_dead _ _ _ v); [done|eapply conv_known; [done|unfold owed; lia]|done..].
  - by apply conv_completed.
  - by apply conv_accepted.
  - unfold conv_inv in *. rewrite Hh in Hv2. cbn. destruct (v_live v); [done|]. apply new_history_ok.
  - destruct Hh as [h Hh]. unfold conv_inv in *. cbn. rewrite Hh in *. destruct (v_live v); [by eapply live_history|done].
  - by apply conv_over.
  - by apply conv_received.
  - by eapply conv_drained.
  - destruct Hr as [->|(Hx & Hq & Hr)]; [by apply conv_over|]. by eapply conv_invalid.
Qed.
