(* ===== verification/ServerConversation.v ===== *)
(** The server carries out its clients' conversations: every step of the event-loop
    thread is a move of one conversation, or of none. *)
From stdpp Require Import base numbers strings gmap list.
From S2P Require Import Prelude Effects Text Resp Command Session Namespace Metrics Prometheus Policies.
From S2P Require Import Storage RaftLog KVStore KVStateMachine Peers Config RaftState RaftNode.
From S2P Require Import Server ServerAccounting Conversation.

(** * The view of a connection *)

Definition cb_conn (k : callback) : bytes := match k with WriteCallback conn _ | ReadCallback conn _ => conn end.
Definition occ (c : bytes) (l : list bytes) : nat := length (filter (fun x => x = c) l).
Definition writes_of (c : bytes) (l : list QueuedWrite) : list bytes := qw_command <$> filter (fun w => qw_conn w = c) l.
Definition callbacks_of (c : bytes) (m : gmap nat callback) : gmap nat callback := filter (fun p => cb_conn p.2 = c) m.
Arguments occ : simpl never.
Arguments writes_of : simpl never.
Arguments callbacks_of : simpl never.

Definition hist_in (c : bytes) (s : Server) : option History :=
  match g_conns s !! c with
  | Some tc => if tc_metrics tc then None else Some (MkHistory (tc_received tc) (tc_executed tc) (tc_sent tc))
  | None => None
  end.
Definition live_in (c : bytes) (s : Server) : option Talk :=
  match g_sessions s !! c with
  | Some session => if cs_closing session then None
                    else Some (MkTalk (cs_input session) (cs_queue session) (cs_executing session))
  | None => None
  end.

(** The state with what the call stack owes ([sn_reject], [sn_done]) and the batch being
    collected. *)
Record Snap := MkSnap { sn_server : Server; sn_reject : list bytes; sn_done : list bytes; sn_batch : list Proposal }.

Definition view (c : bytes) (a : Snap) : View :=
  let s := sn_server a in
  MkView (hist_in c s) (live_in c s) (g_namespaces s !! c)
    (writes_of c (g_writes s)) (callbacks_of c (g_callbacks s))
    (occ c (sn_reject a)) (occ c (sn_done a)).

Definition calls_of (a : Snap) : list node_call := g_calls (sn_server a).

(** A step: one connection moves, and the others do not notice. *)
Definition conv_step (reads : ReadFlags) (a b : Snap) : Prop :=
  exists news, calls_of b = calls_of a ++ news /\ keeps_asked (calls_of a) (sn_batch a) (calls_of b) (sn_batch b) /\
    ((exists c, converse reads c (sn_batch b) news (view c a) (view c b) /\ forall d, d <> c -> view d b = view d a) \/
     forall d, view d b = view d a).

Definition conv_all (reads : ReadFlags) (a : Snap) : Prop := forall c, conv_inv reads (calls_of a) (sn_batch a) (view c a).

Lemma conv_step_all reads a b : conv_step reads a b -> conv_all reads a -> conv_all reads b.
Proof.
  intros (news & Ec & Ha & Hv) Hall d. rewrite Ec in *. destruct Hv as [(c & Hm & Ho)|Ho].
  - destruct (decide (d = c)) as [->|Hne]; [by eapply converse_inv|]. rewrite Ho by done. by eapply conv_mono.
  - rewrite Ho. by eapply conv_mono.
Qed.

Lemma conv_steps_all reads a b : rtc (conv_step reads) a b -> conv_all reads a -> conv_all reads b.
Proof. induction 1; [done|]. eauto using conv_step_all. Qed.

(** * The connection of a session *)

Definition sessions_up (s : Server) : Prop :=
  forall c session, g_sessions s !! c = Some session ->
    exists tc, g_conns s !! c = Some tc /\ tc_metrics tc = false /\ (cs_closing session = false -> tc_connected tc = true).

(** * Assignments no conversation notices *)

Record quiet (s s' : Server) : Prop := {
  qu_hist : forall c, hist_in c s' = hist_in c s;
  qu_live : forall c, live_in c s' = live_in c s;
  qu_ns : g_namespaces s' = g_namespaces s;
  qu_writes : g_writes s' = g_writes s;
  qu_callbacks : g_callbacks s' = g_callbacks s;
  qu_next : g_next_callback s' = g_next_callback s;
  qu_calls : g_calls s' = g_calls s;
  qu_up : sessions_up s -> sessions_up s';
}.

#[export] Instance quiet_preorder : PreOrder quiet.
Proof.
  split; [by intros s; split|]. intros s1 s2 s3 [A1 A2 A3 A4 A5 A6 A7 A8] [B1 B2 B3 B4 B5 B6 B7 B8].
  split; intros; try congruence; auto.
Qed.

Lemma quiet_session conn f :
  (forall c, cs_input (f c) = cs_input c /\ cs_queue (f c) = cs_queue c /\ cs_executing (f c) = cs_executing c /\ cs_closing (f c) = cs_closing c) ->
  evolves quiet (on_session conn f).
Proof.
  intros Hf. apply evolves_modify. intros s. split; cbn; try done.
  - intros c. unfold live_in. cbn. destruct (decide (c = conn)) as [->|]; [|by rewrite lookup_alter_ne].
    rewrite lookup_alter_eq. destruct (g_sessions s !! conn) as [x|]; [|done]. cbn. by destruct (Hf x) as (-> & -> & -> & ->).
  - intros Hu c session. cbn. destruct (decide (c = conn)) as [->|]; [|rewrite lookup_alter_ne by done; apply Hu].
    rewrite lookup_alter_eq. destruct (g_sessions s !! conn) as [x|] eqn:E; [|done]. intros [= <-].
    destruct (Hf x) as (_ & _ & _ & ->). by apply Hu.
Qed.

Lemma quiet_conn conn f :
  (forall tc, tc_received (f tc) = tc_received tc /\ tc_executed (f tc) = tc_executed tc /\ tc_sent (f tc) = tc_sent tc /\
     tc_metrics (f tc) = tc_metrics tc /\ tc_connected (f tc) = tc_connected tc) ->
  evolves quiet (on_conn conn f).
Proof.
  intros Hf. apply evolves_modify. intros s. split; cbn; try done.
  - intros c. unfold hist_in. cbn. destruct (decide (c = conn)) as [->|]; [|by rewrite lookup_alter_ne].
    rewrite lookup_alter_eq. destruct (g_conns s !! conn) as [x|]; [|done]. cbn. by destruct (Hf x) as (-> & -> & -> & -> & _).
  - intros Hu c session Hc. destruct (Hu c session Hc) as (tc & Htc & Hm & Hcl). cbn.
    destruct (decide (c = conn)) as [->|]; [|rewrite lookup_alter_ne by done; eauto].
    rewrite lookup_alter_eq, Htc. cbn. destruct (Hf tc) as (_ & _ & _ & E1 & E2). eexists. split; [done|]. by rewrite E1, E2.
Qed.

Lemma quiet_others (f : Server -> Server) :
  (forall s, g_sessions (f s) = g_sessions s /\ g_conns (f s) = g_conns s /\ g_namespaces (f s) = g_namespaces s /\
     g_writes (f s) = g_writes s /\ g_callbacks (f s) = g_callbacks s /\ g_next_callback (f s) = g_next_callback s /\
     g_calls (f s) = g_calls s) -> evolves quiet (modify f).
Proof.
  intros Hf. apply evolves_modify. intros s. destruct (Hf s) as (E1 & E2 & E3 & E4 & E5 & E6 & E7).
  split; try done; [intros c; unfold hist_in; by rewrite E2|intros c; unfold live_in; by rewrite E1|].
  intros Hu c session. rewrite E1, E2. apply Hu.
Qed.

Lemma quiet_policy {A} (m : M BatchFlushPolicy A) :
  evolves quiet (lens g_flush_policy (fun p s => s <| g_flush_policy := p |>) m).
Proof. intros s. unfold lens. destruct (m _) as [r p]. exact (quiet_others (fun s => s <| g_flush_policy := p |>) ltac:(done) s). Qed.
#[export] Hint Resolve quiet_policy : server.
#[export] Hint Extern 1 (evolves quiet (on_session _ _)) => apply quiet_session; intros ?; repeat split; reflexivity : server.
#[export] Hint Extern 1 (evolves quiet (on_conn _ _)) => apply quiet_conn; intros ?; repeat split; reflexivity : server.
#[export] Hint Extern 1 (evolves quiet (modify _)) => apply quiet_others; intros ?; repeat split; reflexivity : server.

Section Quiet.
Context `{RocksDB} {step : StepEnv} (flags : Flags).

Lemma AccountOutput_quiet conn : evolves quiet (AccountOutput conn).
Proof. unfold AccountOutput. ev. Qed.
Lemma overloaded_quiet : evolves quiet overloaded.
Proof. unfold overloaded. ev. Qed.
Lemma ScheduleFlush_quiet : evolves quiet (ScheduleFlush flags).
Proof. ev. Qed.
Lemma ScheduleDrain_quiet conn : evolves quiet (ScheduleDrain conn).
Proof. ev. Qed.
End Quiet.

Lemma quiet_view s s' rj dn batch c : quiet s s' -> view c (MkSnap s' rj dn batch) = view c (MkSnap s rj dn batch).
Proof. intros [A1 A2 A3 A4 A5 A6 A7 A8]. unfold view. cbn. by rewrite A1, A2, A3, A4, A5. Qed.

(** * Replies *)

(** Only the connection [conn] changes. *)
Record only (conn : bytes) (s s' : Server) : Prop := {
  on_hist : forall c, c <> conn -> hist_in c s' = hist_in c s;
  on_live : forall c, c <> conn -> live_in c s' = live_in c s;
  on_ns : g_namespaces s' = g_namespaces s;
  on_writes : g_writes s' = g_writes s;
  on_callbacks : g_callbacks s' = g_callbacks s;
  on_next : g_next_callback s' = g_next_callback s;
  on_calls : g_calls s' = g_calls s;
  on_up : sessions_up s -> sessions_up s';
}.
#[export] Instance only_preorder conn : PreOrder (only conn).
Proof.
  split; [by intros s; split|]. intros s1 s2 s3 [A1 A2 A3 A4 A5 A6 A7 A8] [B1 B2 B3 B4 B5 B6 B7 B8].
  split; intros; try congruence; auto; [by rewrite B1, A1|by rewrite B2, A2].
Qed.
Lemma quiet_only conn s s' : quiet s s' -> only conn s s'.
Proof. intros [A1 A2 A3 A4 A5 A6 A7 A8]. by split. Qed.

Lemma only_view conn s s' rj dn batch c :
  only conn s s' -> c <> conn -> view c (MkSnap s' rj dn batch) = view c (MkSnap s rj dn batch).
Proof. intros [A1 A2 A3 A4 A5 A6 A7 A8] Hc. unfold view. cbn. by rewrite A1, A2, A3, A4, A5. Qed.

(** The view of the connection itself. *)
Lemma only_view_self conn s s' rj dn batch :
  only conn s s' -> view conn (MkSnap s' rj dn batch) =
    (view conn (MkSnap s rj dn batch)) <| v_hist := hist_in conn s' |> <| v_live := live_in conn s' |>.
Proof. intros [A1 A2 A3 A4 A5 A6 A7 A8]. unfold view. cbn. by rewrite A3, A4, A5. Qed.

Lemma CloseClient_view conn s :
  sessions_up s -> exists s', CloseClient conn s = (Ok tt, s') /\ only conn s s' /\ hist_in conn s' = hist_in conn s /\ live_in conn s' = None.
Proof.
  intros Hu. eexists. split; [reflexivity|]. split; [|split].
  - split; cbn; try done.
    + intros c Hc. unfold hist_in. cbn. by rewrite lookup_alter_ne.
    + intros c Hc. unfold live_in. cbn. by rewrite lookup_alter_ne.
    + intros _ c session. cbn. destruct (decide (c = conn)) as [->|]; [|rewrite !lookup_alter_ne by done; apply Hu].
      rewrite !lookup_alter_eq. destruct (g_sessions s !! conn) as [x|] eqn:E; [|done]. intros [= <-].
      destruct (Hu conn x E) as (tc & -> & Hm & _). cbn. by eexists.
  - unfold hist_in. cbn. rewrite lookup_alter_eq. by destruct (g_conns s !! conn).
  - unfold live_in. cbn. rewrite lookup_alter_eq. by destruct (g_sessions s !! conn).
Qed.

Section Reply.
Context `{RocksDB} {step : StepEnv}.

Lemma AccountOutput_ok conn s : exists s', AccountOutput conn s = (Ok tt, s') /\ quiet s s'.
Proof. eexists. split; [reflexivity|]. apply (AccountOutput_quiet conn s). Qed.

Lemma conn_send_view conn reply s h :
  hist_in conn s = Some h -> exists s', conn_send conn reply s = (Ok tt, s') /\ only conn s s' /\ live_in conn s' = live_in conn s /\
    hist_in conn s' = Some (MkHistory (hi_received h) (hi_executed h) (hi_sent h ++ [reply])).
Proof.
  intros Hh. eexists. split; [reflexivity|]. split; [|split; [done|]].
  - split; cbn; try done; [intros c Hc; unfold hist_in; cbn; by rewrite lookup_alter_ne|].
    intros Hu c session Hc. destruct (Hu c session Hc) as (tc & Htc & Hm). cbn.
    destruct (decide (c = conn)) as [->|]; [rewrite lookup_alter_eq, Htc; by eexists|rewrite lookup_alter_ne by done; eauto].
  - unfold hist_in in *. cbn. rewrite lookup_alter_eq. destruct (g_conns s !! conn) as [tc|]; [|done]. cbn in *.
    destruct (tc_metrics tc); [done|]. by injection Hh as <-.
Qed.

Lemma live_open conn s talk :
  sessions_up s -> live_in conn s = Some talk -> cs_closing (session_of conn s) || negb (connected conn s) = false.
Proof.
  intros Hu Hl. unfold live_in in Hl. unfold session_of, connected. destruct (g_sessions s !! conn) as [x|] eqn:E; [|done].
  destruct (Hu conn x E) as (tc & -> & _ & Hc). cbn. destruct (cs_closing x); [done|]. by rewrite Hc.
Qed.

Lemma SendReply_view conn reply s rj dn batch :
  sessions_up s -> is_Some (live_in conn s) ->
  exists s', SendReply conn reply s = (Ok tt, s') /\ only conn s s' /\
    replied reply (view conn (MkSnap s rj dn batch)) (view conn (MkSnap s' rj dn batch)).
Proof.
  intros Hu [talk Hl]. assert (exists h, hist_in conn s = Some h) as [h Hh].
  { unfold live_in in Hl. destruct (g_sessions s !! conn) as [x|] eqn:E; [|done]. destruct (Hu conn x E) as (tc & Htc & Hm & _).
    unfold hist_in. rewrite Htc, Hm. eauto. }
  unfold SendReply. rewrite M_bind_unfold. cbn [get]. rewrite (live_open conn s talk Hu Hl).
  destruct (AccountOutput_ok conn s) as (s1 & E1 & Q1). rewrite M_bind_unfold, E1. rewrite M_bind_unfold. cbn [get].
  destruct (_ || _).
  - pose proof (overloaded_quiet s1) as Q2. rewrite M_bind_unfold. cbn [overloaded modify] in *. set (s2 := s1 <| _ ::= _ |>) in *.
    destruct (CloseClient_view conn s2) as (s3 & E3 & O3 & Hh3 & Hl3); [by apply (qu_up _ _ Q2), (qu_up _ _ Q1)|].
    assert (only conn s s3) as O by (etrans; [eapply quiet_only, Q1|]; etrans; [eapply quiet_only, Q2|done]).
    exists s3. split; [done|]. split; [done|]. rewrite (only_view_self conn s s3) by done. rewrite Hl3, Hh3, (qu_hist _ _ Q2), (qu_hist _ _ Q1).
    apply replied_closed. cbn. eauto.
  - assert (hist_in conn s1 = Some h) as Hh1 by (by rewrite (qu_hist _ _ Q1)).
    destruct (conn_send_view conn reply s1 h Hh1) as (s2 & E2 & O2 & Hl2 & Hh2). rewrite M_bind_unfold, E2.
    destruct (AccountOutput_ok conn s2) as (s3 & E3 & Q3). exists s3. split; [done|].
    assert (only conn s s3) as O by (etrans; [eapply quiet_only, Q1|]; etrans; [done|by apply quiet_only]).
    split; [done|]. rewrite (only_view_self conn s s3) by done.
    rewrite (qu_live _ _ Q3), (qu_hist _ _ Q3), Hl2, Hh2, (qu_live _ _ Q1). refine (replied_sent reply (view conn (MkSnap s rj dn batch)) h _ _); [done|]. cbn. eauto.
Qed.
End Reply.

(** * Counting *)

Lemma occ_app c l1 l2 : occ c (l1 ++ l2) = (occ c l1 + occ c l2)%nat.
Proof. unfold occ. by rewrite filter_app, length_app. Qed.
Lemma occ_cons c x l : occ c (x :: l) = ((if decide (x = c) then 1 else 0) + occ c l)%nat.
Proof. unfold occ. rewrite filter_cons. by repeat case_decide. Qed.
Lemma occ_self c l : occ c (c :: l) = S (occ c l).
Proof. rewrite occ_cons. by case_decide. Qed.
Lemma occ_other c x l : x <> c -> occ c (x :: l) = occ c l.
Proof. intros Hx. rewrite occ_cons. by case_decide. Qed.

Lemma writes_of_cons c w l : writes_of c (w :: l) = if decide (qw_conn w = c) then qw_command w :: writes_of c l else writes_of c l.
Proof. unfold writes_of. rewrite filter_cons. by case_decide. Qed.
Lemma writes_of_app c l1 l2 : writes_of c (l1 ++ l2) = writes_of c l1 ++ writes_of c l2.
Proof. unfold writes_of. by rewrite filter_app, fmap_app. Qed.

Lemma callbacks_of_lookup c m n k : callbacks_of c m !! n = Some k <-> m !! n = Some k /\ cb_conn k = c.
Proof. unfold callbacks_of. by rewrite map_lookup_filter_Some. Qed.
Lemma callbacks_of_none c m n : m !! n = None -> callbacks_of c m !! n = None.
Proof. intros Hn. unfold callbacks_of. apply map_lookup_filter_None. by left. Qed.
Lemma callbacks_of_insert c m n k :
  m !! n = None -> callbacks_of c (<[n := k]> m) = if decide (cb_conn k = c) then <[n := k]> (callbacks_of c m) else callbacks_of c m.
Proof.
  intros Hn. unfold callbacks_of. rewrite map_filter_insert. cbn. case_decide; [done|]. by rewrite delete_id.
Qed.
Lemma callbacks_of_delete c m n : callbacks_of c (delete n m) = delete n (callbacks_of c m).
Proof. unfold callbacks_of. apply map_filter_delete. Qed.
Lemma callbacks_of_other c m n k : m !! n = Some k -> cb_conn k <> c -> callbacks_of c (delete n m) = callbacks_of c m.
Proof.
  intros Hn Hk. rewrite callbacks_of_delete. apply delete_id. unfold callbacks_of. apply map_lookup_filter_None. right.
  intros k' Hk'. rewrite Hn in Hk'. by injection Hk' as <-.
Qed.

(** What frames owe. *)
Definition rejects (stack : list frame) : list bytes :=
  concat ((fun f => match f with Rejecting _ owners => owners | _ => [] end) <$> stack).
Definition dones (stack : list frame) : list bytes :=
  concat ((fun f => match f with CommandComplete conn => [conn] | _ => [] end) <$> stack).

Lemma rejects_app l1 l2 : rejects (l1 ++ l2) = rejects l1 ++ rejects l2.
Proof. unfold rejects. by rewrite fmap_app, concat_app. Qed.
Lemma dones_app l1 l2 : dones (l1 ++ l2) = dones l1 ++ dones l2.
Proof. unfold dones. by rewrite fmap_app, concat_app. Qed.

(** * Building steps *)

Lemma keeps_asked_more calls news batch : keeps_asked calls batch (calls ++ news) batch.
Proof.
  intros n w [(ps & Hp & Hin)|Hb]; [left|by right]. exists ps. split; [|done]. apply elem_of_app. by left.
Qed.

Lemma move_step reads a b c news :
  calls_of b = calls_of a ++ news -> sn_batch b = sn_batch a ->
  converse reads c (sn_batch b) news (view c a) (view c b) -> (forall d, d <> c -> view d b = view d a) -> conv_step reads a b.
Proof.
  intros Ec Eb Hm Ho. exists news. split; [done|]. split; [|by left; exists c]. rewrite Ec, Eb. apply keeps_asked_more.
Qed.

Lemma still_step reads a b :
  calls_of b = calls_of a -> sn_batch b = sn_batch a -> (forall d, view d b = view d a) -> conv_step reads a b.
Proof.
  intros Ec Eb Ho. exists []. rewrite app_nil_r. split; [done|]. split; [|by right]. rewrite Ec, Eb. by intros n w Hn.
Qed.

Lemma quiet_step reads s s' rj dn batch : quiet s s' -> conv_step reads (MkSnap s rj dn batch) (MkSnap s' rj dn batch).
Proof. intros Hq. apply still_step; [apply Hq|done|]. intros d. by apply quiet_view. Qed.

(** * Starting a command *)

Definition start_state (conn : bytes) (cmd : QueuedCommand) (q : SessionCommandQueue) (news : list node_call) (s : Server) : Server :=
  s <| g_sessions ::= alter (fun c => c <| cs_executing := true |> <| cs_queue := q |>) conn |>
    <| g_conns ::= alter (fun c => c <| tc_executed ::= fun l => l ++ [cmd] |>) conn |>
    <| g_namespaces ::= (if selects cmd then SetNs conn (arg (qc_args cmd) 1) else id) |>
    <| g_calls ::= fun t => t ++ news |>.

Section Start.
Context (conn : bytes) (cmd : QueuedCommand) (q : SessionCommandQueue) (news : list node_call) (s : Server) (rj dn : list bytes) (batch : list Proposal).

Lemma start_other d : d <> conn -> view d (MkSnap (start_state conn cmd q news s) rj dn batch) = view d (MkSnap s rj dn batch).
Proof.
  intros Hd. unfold view, hist_in, live_in. cbn. rewrite !lookup_alter_ne by done. f_equal.
  destruct (selects cmd); [|done]. by apply lookup_insert_ne.
Qed.

Lemma start_self h talk :
  can_start (view conn (MkSnap s rj dn batch)) h talk cmd q ->
  view conn (MkSnap (start_state conn cmd q news s) rj dn batch) = started h talk cmd q (view conn (MkSnap s rj dn batch)).
Proof.
  intros (Hh & Hl & _ & _). unfold view, started, hist_in, live_in in *. cbn in *. rewrite !lookup_alter_eq.
  destruct (g_conns s !! conn) as [tc|]; [|done]. cbn. destruct (tc_metrics tc); [done|]. injection Hh as <-.
  destruct (g_sessions s !! conn) as [x|]; [|done]. cbn. destruct (cs_closing x); [done|]. injection Hl as <-. cbn. f_equal.
  destruct (selects cmd); [|done]. apply lookup_insert_eq.
Qed.

Lemma start_up : sessions_up s -> sessions_up (start_state conn cmd q news s).
Proof.
  intros Hu c session. cbn. destruct (decide (c = conn)) as [->|]; [|rewrite !lookup_alter_ne by done; apply Hu].
  rewrite !lookup_alter_eq. destruct (g_sessions s !! conn) as [x|] eqn:E; [|done]. intros [= <-].
  destruct (Hu conn x E) as (tc & -> & Hm). cbn. by eexists.
Qed.
End Start.

Lemma start_like conn cmd q news s s1 :
  g_sessions s1 = g_sessions (start_state conn cmd q news s) -> g_conns s1 = g_conns (start_state conn cmd q news s) ->
  g_namespaces s1 = g_namespaces (start_state conn cmd q news s) -> g_calls s1 = g_calls s ++ news ->
  g_writes s1 = g_writes s -> g_callbacks s1 = g_callbacks s -> g_next_callback s1 = g_next_callback s ->
  quiet (start_state conn cmd q news s) s1.
Proof.
  intros E1 E2 E3 E4 E5 E6 E7. split; try done.
  - intros c. unfold hist_in. by rewrite E2.
  - intros c. unfold live_in. by rewrite E1.
  - intros Hu c session. rewrite E1, E2. apply Hu.
Qed.

(** * Simulation *)

Record base (s : Server) : Prop := {
  ba_up : sessions_up s;
  ba_fresh : forall n, (g_next_callback s <= n)%nat -> g_callbacks s !! n = None;
}.
(** Closures are made with new numbers and leave when they are called or dropped. *)
Record cb_evolve (s s' : Server) : Prop := {
  ce_next : (g_next_callback s <= g_next_callback s')%nat;
  ce_old : forall n, (n < g_next_callback s)%nat -> g_callbacks s' !! n = g_callbacks s !! n \/ g_callbacks s' !! n = None;
}.
Definition sim (reads : ReadFlags) (a b : Snap) : Prop :=
  base (sn_server a) -> base (sn_server b) /\ cb_evolve (sn_server a) (sn_server b) /\ rtc (conv_step reads) a b.

#[export] Instance cb_evolve_preorder : PreOrder cb_evolve.
Proof.
  split; [by intros s; split; [|left]|]. intros s1 s2 s3 [A1 A2] [B1 B2]. split; [lia|]. intros n Hn.
  destruct (B2 n) as [->|]; [lia| |by right]. auto.
Qed.
#[export] Instance sim_preorder reads : PreOrder (sim reads).
Proof.
  split; [by intros a Ha; split_and!; [| |apply rtc_refl]|]. intros a b c Hab Hbc Ha.
  destruct (Hab Ha) as (Hb & E1 & R1). destruct (Hbc Hb) as (Hc & E2 & R2). split_and!; [done|by etrans|by etrans].
Qed.

(** A step that leaves the closures alone. *)
Lemma sim_step reads a b :
  (sessions_up (sn_server a) -> sessions_up (sn_server b) /\ conv_step reads a b) ->
  g_callbacks (sn_server b) = g_callbacks (sn_server a) -> g_next_callback (sn_server b) = g_next_callback (sn_server a) ->
  sim reads a b.
Proof.
  intros Hs Ek En [Hu Hf]. destruct (Hs Hu) as [Hu' Hst]. split_and!; [|by split; rewrite ?Ek, ?En; [|left]|by apply rtc_once].
  split; [done|]. by rewrite Ek, En.
Qed.

Lemma sim_quiet reads s s' rj dn batch : quiet s s' -> sim reads (MkSnap s rj dn batch) (MkSnap s' rj dn batch).
Proof.
  intros Hq. apply sim_step; [|apply Hq|apply Hq]. intros Hu. split; [by apply (qu_up _ _ Hq)|by apply quiet_step].
Qed.

Lemma view_done conn s rj dn batch :
  view conn (MkSnap s rj (conn :: dn) batch) = (view conn (MkSnap s rj dn batch)) <| v_done ::= S |>.
Proof. unfold view. cbn [sn_server sn_reject sn_done]. by rewrite occ_self. Qed.
Lemma view_done_other c conn s rj dn batch :
  c <> conn -> view c (MkSnap s rj (conn :: dn) batch) = view c (MkSnap s rj dn batch).
Proof. intros Hc. unfold view. cbn [sn_server sn_reject sn_done]. by rewrite occ_other. Qed.

Lemma view_reject_other c conn s rj dn batch :
  c <> conn -> view c (MkSnap s rj dn batch) = view c (MkSnap s (conn :: rj) dn batch).
Proof. intros Hc. unfold view. cbn [sn_server sn_reject sn_done]. by rewrite occ_other. Qed.

(** The view after a move. *)
Ltac becomes v' := match goal with |- converse _ _ _ _ _ ?v => replace v with v' end.

Section Simulation.
Context `{RocksDB} {step : StepEnv} (flags : Flags) (reads : ReadFlags).

(** A move that ends with a reply, sent from the state [s1]. *)
Lemma sim_sent conn r news s s1 rj rj1 dn :
  base s1 -> cb_evolve s s1 -> is_Some (live_in conn s1) ->
  (forall d, d <> conn -> view d (MkSnap s1 rj1 dn []) = view d (MkSnap s rj dn [])) -> g_calls s1 = g_calls s ++ news ->
  (forall v2, replied r (view conn (MkSnap s1 rj1 dn [])) v2 ->
     converse reads conn [] news (view conn (MkSnap s rj dn [])) (v2 <| v_done ::= S |>)) ->
  exists s', SendReply conn r s1 = (Ok tt, s') /\ sim reads (MkSnap s rj dn []) (MkSnap s' rj1 (conn :: dn) []).
Proof.
  intros [Hu Hf] He Hl Hd Ec Hm. destruct (SendReply_view conn r s1 rj1 dn [] Hu Hl) as (s2 & E2 & O & Hr).
  exists s2. split; [done|]. intros _. cbn [sn_server]. split_and!.
  - split; [by apply (on_up _ _ _ O)|]. by rewrite (on_callbacks _ _ _ O), (on_next _ _ _ O).
  - etrans; [done|]. split; [by rewrite (on_next _ _ _ O)|]. left. by rewrite (on_callbacks _ _ _ O).
  - apply rtc_once, (move_step reads _ _ conn news); [unfold calls_of; cbn; by rewrite (on_calls _ _ _ O)|done| |].
    + rewrite view_done. by apply Hm.
    + intros d Hne. rewrite view_done_other, <- Hd by done. by apply (only_view conn s1 s2).
Qed.

Lemma sim_reply_from conn r news s s1 s' fs rj rj1 dn :
  base s1 -> cb_evolve s s1 -> is_Some (live_in conn s1) ->
  (forall d, d <> conn -> view d (MkSnap s1 rj1 dn []) = view d (MkSnap s rj dn [])) -> g_calls s1 = g_calls s ++ news ->
  (forall v2, replied r (view conn (MkSnap s1 rj1 dn [])) v2 ->
     converse reads conn [] news (view conn (MkSnap s rj dn [])) (v2 <| v_done ::= S |>)) ->
  reply_and_complete conn r s1 = (Ok fs, s') ->
  sim reads (MkSnap s rj dn []) (MkSnap s' (rejects fs ++ rj1) (dones fs ++ dn) []).
Proof.
  intros Hb He Hl Hd Ec Hm E. destruct (sim_sent conn r news s s1 rj rj1 dn Hb He Hl Hd Ec Hm) as (s2 & E2 & Hs).
  unfold reply_and_complete in E. rewrite M_bind_unfold, E2 in E. by injection E as <- <-.
Qed.

(** A started command that is answered at once. *)
Lemma sim_answer conn cmd q news r s s1 h talk fs s' rj dn :
  base s -> can_start (view conn (MkSnap s rj dn [])) h talk cmd q ->
  answer reads news (view_ns (view conn (MkSnap s rj dn []))) cmd r ->
  quiet (start_state conn cmd q news s) s1 -> reply_and_complete conn r s1 = (Ok fs, s') ->
  sim reads (MkSnap s rj dn []) (MkSnap s' (rejects fs ++ rj) (dones fs ++ dn) []).
Proof.
  intros [Hu Hf] Hc Ha Q. apply (sim_reply_from conn r news s s1).
  - split; [by apply (qu_up _ _ Q), start_up|]. by rewrite (qu_callbacks _ _ Q), (qu_next _ _ Q).
  - split; [by rewrite (qu_next _ _ Q)|]. left. by rewrite (qu_callbacks _ _ Q).
  - rewrite (qu_live _ _ Q). change (is_Some (v_live (view conn (MkSnap (start_state conn cmd q news s) rj dn [])))).
    rewrite (start_self _ _ _ _ _ _ _ _ h talk) by done. by eexists.
  - intros d Hd. rewrite (quiet_view (start_state conn cmd q news s)) by done. by apply start_other.
  - by rewrite (qu_calls _ _ Q).
  - intros v2. rewrite (quiet_view (start_state conn cmd q news s)), (start_self _ _ _ _ _ _ _ _ h talk) by done. by apply cv_reply.
Qed.

(** The state in which a command's function is entered. *)
Definition popped (conn : bytes) (cmd : QueuedCommand) (q : SessionCommandQueue) (s : Server) : Server :=
  s <| g_sessions ::= alter (fun c => c <| cs_executing := true |> <| cs_queue := q |>) conn |>
    <| g_conns ::= alter (fun c => c <| tc_executed ::= fun l => l ++ [cmd] |>) conn |>.

Lemma popped_quiet conn cmd q s : selects cmd = false -> quiet (start_state conn cmd q [] s) (popped conn cmd q s).
Proof. intros Es. apply start_like; try done; [cbn; by rewrite Es|cbn; by rewrite app_nil_r]. Qed.

Lemma write_selects cmd : qc_type cmd = WRITE -> selects cmd = false.
Proof. intros E. unfold selects. by rewrite E, bool_decide_eq_false_2. Qed.

(** A quiet end without frames. *)
Lemma quiet_frames (m : M Server unit) s (fs : list frame) s' : evolves quiet m -> (m;; mret []) s = (Ok fs, s') -> fs = [] /\ quiet s s'.
Proof.
  intros Hm E. specialize (Hm s). rewrite M_bind_unfold in E. destruct (m s) as [[]]; [|done]. by injection E as <- <-.
Qed.

(** A started write is queued. *)
Lemma sim_queued conn cmd q s s1 s2 h talk rj dn t :
  base s -> can_start (view conn (MkSnap s rj dn [])) h talk cmd q -> qc_type cmd = WRITE ->
  s1 = (popped conn cmd q s) <| g_writes ::= fun l => l ++ [MkQueuedWrite (proposal_of (view_ns (view conn (MkSnap s rj dn []))) cmd) conn t] |> ->
  quiet s1 s2 -> sim reads (MkSnap s rj dn []) (MkSnap s2 rj dn []).
Proof.
  intros [Hu Hf] Hc Hw -> Q. pose proof (popped_quiet conn cmd q s (write_selects cmd Hw)) as Q0.
  etrans; [|apply sim_quiet, Q]. apply sim_step; [|done|done]. intros _. split; [by apply (qu_up _ _ Q0), start_up|].
  apply (move_step reads _ _ conn []); [by rewrite app_nil_r|done| |].
  - pose proof (start_self conn cmd q [] s rj dn [] h talk Hc) as Es. rewrite <- (quiet_view _ _ rj dn [] conn Q0) in Es.
    match goal with |- converse _ _ _ _ _ ?v => assert (v = (started h talk cmd q (view conn (MkSnap s rj dn [])))
      <| v_writes ::= fun l => l ++ [proposal_of (view_ns (view conn (MkSnap s rj dn []))) cmd] |>) as -> end; [|by apply cv_write].
    rewrite <- Es. unfold view. cbn. f_equal. rewrite writes_of_app, writes_of_cons. cbn. by case_decide.
  - intros d Hd. rewrite <- (start_other conn cmd q [] s rj dn [] d Hd), <- (quiet_view _ _ rj dn [] d Q0). unfold view. cbn. f_equal.
    rewrite writes_of_app, writes_of_cons. cbn. case_decide; [congruence|]. apply app_nil_r.
Qed.

Lemma sim_submit conn cmd q s fs s' h talk rj dn :
  base s -> can_start (view conn (MkSnap s rj dn [])) h talk cmd q -> qc_type cmd = WRITE ->
  SubmitWrite flags conn (qc_args cmd) (popped conn cmd q s) = (Ok fs, s') ->
  sim reads (MkSnap s rj dn []) (MkSnap s' (rejects fs ++ rj) (dones fs ++ dn) []).
Proof.
  intros Hb Hc Hw E. pose proof (popped_quiet conn cmd q s (write_selects cmd Hw)) as Q0.
  unfold SubmitWrite in E. rewrite M_bind_unfold in E. cbn [get] in E. cbv zeta in E.
  change (SerializeCommand _) with (proposal_of (view_ns (view conn (MkSnap s rj dn []))) cmd) in E.
  assert (forall r s1, answer reads [] (view_ns (view conn (MkSnap s rj dn []))) cmd r -> quiet (popped conn cmd q s) s1 ->
    reply_and_complete conn r s1 = (Ok fs, s') -> sim reads (MkSnap s rj dn []) (MkSnap s' (rejects fs ++ rj) (dones fs ++ dn) [])) as Hreply.
  { intros r s1 Ha Q Er. eapply sim_answer; [done|done|done|by etrans|done]. }
  unfold answer in Hreply. rewrite Hw in Hreply.
  destruct (Z.ltb_spec kMaxCommandBytes #(proposal_of (view_ns (view conn (MkSnap s rj dn []))) cmd)) as [Hbig|Hfit];
    [eapply Hreply, E; [by left|done]|].
  destruct (negb (IsLeader se_raft)); [eapply Hreply, E; [right; left; left; by eexists|done]|].
  destruct (_ || _).
  { rewrite M_bind_unfold in E. cbn [overloaded modify] in E. eapply Hreply, E; [by right; right; left|apply (overloaded_quiet (popped conn cmd q s))]. }
  rewrite M_bind_unfold in E. cbn [modify] in E. set (s1 := (popped conn cmd q s) <| g_writes ::= _ |> <| g_queued_write_bytes := _ |>) in E.
  rewrite M_bind_unfold in E. cbn [on_session modify] in E. apply quiet_frames in E as [-> Q]; [|apply ScheduleFlush_quiet].
  pose (s0 := (popped conn cmd q s) <| g_writes ::= fun l => l ++ [MkQueuedWrite (proposal_of (view_ns (view conn (MkSnap s rj dn []))) cmd) conn (se_now 1)] |>).
  assert (quiet s0 s1) as Q1 by exact (quiet_others (fun s => s <| g_queued_write_bytes := g_queued_write_bytes s1 |>) ltac:(by intros) s0).
  apply (sim_queued conn cmd q s s0 s' h talk rj dn (se_now 1)); [done|done|done|done|]. etrans; [exact Q1|]. etrans; [|exact Q].
  exact (quiet_session conn (fun c => c <| cs_waiting := true |>) ltac:(by intros) s1).
Qed.

Lemma get_selects cmd : is_get cmd -> selects cmd = false.
Proof. intros [_ E]. unfold selects. by rewrite E, (bool_decide_eq_false_2 (lit "GET" = lit "SELECT")), andb_false_r. Qed.

(** A started read is handed to the node. *)
Lemma sim_requested conn cmd q s s1 h talk rj dn :
  base s -> can_start (view conn (MkSnap s rj dn [])) h talk cmd q -> is_get cmd -> FLAGS_linearizable_reads reads = true ->
  s1 = (popped conn cmd q s)
    <| g_callbacks ::= <[g_next_callback s := ReadCallback conn (key_of (view_ns (view conn (MkSnap s rj dn []))) cmd)]> |>
    <| g_next_callback ::= S |> <| g_calls ::= fun t => t ++ [RequestsRead (g_next_callback s)] |> ->
  sim reads (MkSnap s rj dn []) (MkSnap s1 rj dn []).
Proof.
  intros [Hu Hf] Hc Hg Hl -> _. pose proof (popped_quiet conn cmd q s (get_selects cmd Hg)) as Q0.
  assert (g_callbacks s !! g_next_callback s = None) as Hn by (by apply Hf). split_and!.
  - split; [by apply (qu_up _ _ Q0), start_up|]. cbn. intros n Hle. rewrite lookup_insert_ne by lia. apply Hf. lia.
  - split; cbn; [lia|]. intros n Hlt. left. by rewrite lookup_insert_ne by lia.
  - apply rtc_once, (move_step reads _ _ conn [RequestsRead (g_next_callback s)]); [done|done| |].
    + pose proof (start_self conn cmd q [] s rj dn [] h talk Hc) as Es. rewrite <- (quiet_view _ _ rj dn [] conn Q0) in Es.
      match goal with |- converse _ _ _ _ _ ?v => assert (v = (started h talk cmd q (view conn (MkSnap s rj dn [])))
        <| v_callbacks ::= <[g_next_callback s := ReadCallback conn (key_of (view_ns (view conn (MkSnap s rj dn []))) cmd)]> |>) as -> end;
        [|apply cv_read; [done..|by apply callbacks_of_none]].
      rewrite <- Es. unfold view. cbn. f_equal. rewrite callbacks_of_insert by done. by case_decide.
    + intros d Hd. rewrite <- (start_other conn cmd q [] s rj dn [] d Hd), <- (quiet_view _ _ rj dn [] d Q0). unfold view. cbn. f_equal.
      rewrite callbacks_of_insert by done. by case_decide.
Qed.

Lemma sim_get conn cmd q s fs s' h talk rj dn :
  base s -> can_start (view conn (MkSnap s rj dn [])) h talk cmd q -> is_get cmd ->
  execute_get reads conn (qc_args cmd) (popped conn cmd q s) = (Ok fs, s') ->
  sim reads (MkSnap s rj dn []) (MkSnap s' (rejects fs ++ rj) (dones fs ++ dn) []).
Proof.
  intros Hb Hc Hg E. pose proof (popped_quiet conn cmd q s (get_selects cmd Hg)) as Q0.
  unfold execute_get in E. rewrite M_bind_unfold in E. cbn [get] in E. cbv zeta in E.
  change (MakeKey conn (arg (qc_args cmd) 1) (g_namespaces (popped conn cmd q s))) with (key_of (view_ns (view conn (MkSnap s rj dn []))) cmd) in E.
  assert (forall r news, get_answer reads news (view_ns (view conn (MkSnap s rj dn []))) cmd r ->
    answer reads news (view_ns (view conn (MkSnap s rj dn []))) cmd r) as Hans.
  { intros r news Ha. destruct Hg as [Ht Hn]. unfold answer. rewrite Ht. right. right. by left. }
  assert (reply_and_complete conn moved (popped conn cmd q s) = (Ok fs, s') ->
    sim reads (MkSnap s rj dn []) (MkSnap s' (rejects fs ++ rj) (dones fs ++ dn) [])) as Hmoved.
  { apply (sim_answer conn cmd q [] moved s _ h talk); [done|done| |done]. apply Hans. left. by eexists. }
  unfold get_answer in Hans. destruct (FLAGS_linearizable_reads reads) eqn:Hl; cbn [andb] in E.
  - destruct (negb (IsLeader se_raft)); [by apply Hmoved|]. injection E as <- <-. by eapply (sim_requested conn cmd q s).
  - destruct (_ && _); [by apply Hmoved|]. rewrite M_bind_unfold in E. unfold read_key in E. rewrite M_bind_unfold in E. cbn [lift_result] in E.
    destruct (sm_Get _ _).1 as [value|]; [|done]. rewrite M_bind_unfold in E. cbn [tell modify mret M_ret] in E. rewrite M_bind_unfold in E.
    cbn [modify] in E. revert E.
    apply (sim_answer conn cmd q [ReadsKey (key_of (view_ns (view conn (MkSnap s rj dn []))) cmd) value] (value_reply value) s _ h talk); [done|done| |].
    + apply Hans. right. exists value. split; [by left|done].
    + apply start_like; try done. cbn. by rewrite get_selects.
Qed.

Lemma sim_read conn cmd q s fs s' h talk rj dn :
  base s -> can_start (view conn (MkSnap s rj dn [])) h talk cmd q -> qc_type cmd = READ ->
  execute_read reads conn (qc_args cmd) (popped conn cmd q s) = (Ok fs, s') ->
  sim reads (MkSnap s rj dn []) (MkSnap s' (rejects fs ++ rj) (dones fs ++ dn) []).
Proof.
  intros Hb Hc Ht. unfold execute_read. cbv zeta.
  assert (forall r, answer reads [] (view_ns (view conn (MkSnap s rj dn []))) cmd r -> selects cmd = false ->
    reply_and_complete conn r (popped conn cmd q s) = (Ok fs, s') ->
    sim reads (MkSnap s rj dn []) (MkSnap s' (rejects fs ++ rj) (dones fs ++ dn) [])) as Hreply.
  { intros r Ha Hs. apply (sim_answer conn cmd q [] r s _ h talk); [done|done|done|by apply popped_quiet]. }
  pose proof (sim_answer conn cmd q [] (lit "+OK" ++ crlf) s) as Hok. unfold answer in Hreply, Hok. rewrite Ht in Hreply, Hok.
  unfold selects in Hreply. rewrite Ht, (bool_decide_eq_true_2 (READ = READ)) in Hreply by done. cbn [andb] in Hreply.
  destruct (bool_decide_reflect (arg (qc_args cmd) 0 = lit "PING")) as [Hp|Hp]. { apply Hreply; [by left|by rewrite Hp]. }
  destruct (bool_decide_reflect (arg (qc_args cmd) 0 = lit "SELECT")) as [Hsel|Hsel].
  { destruct (IsValidName (arg (qc_args cmd) 1)) eqn:Hv; cbn [negb].
    - rewrite M_bind_unfold. cbn [modify]. apply (Hok _ h talk); [done|done|by right; left|]. apply start_like; try done.
      + cbn. unfold selects. by rewrite Ht, Hsel, Hv.
      + cbn. by rewrite app_nil_r.
    - apply Hreply; [by right; left|]. by rewrite andb_false_r. }
  assert (selects cmd = false) as Hns by (unfold selects; by rewrite Ht, (bool_decide_eq_false_2 (arg (qc_args cmd) 0 = lit "SELECT"))).
  destruct (bool_decide_reflect (arg (qc_args cmd) 0 = lit "GET")) as [Hg|Hg]. { by apply (sim_get conn cmd q s fs s' h talk). }
  destruct (bool_decide_reflect (arg (qc_args cmd) 0 = lit "INFO")) as [Hi|Hi].
  - rewrite M_bind_unfold. cbn [get]. apply Hreply; [|done].
    right. right. right. left. split; [done|]. by eexists.
  - apply Hreply; [by right; right; right; right|done].
Qed.

Lemma sim_execute conn s fs s' rj dn :
  ExecuteNextCommand flags reads conn s = (Ok fs, s') ->
  sim reads (MkSnap s rj dn []) (MkSnap s' (rejects fs ++ rj) (dones fs ++ dn) []).
Proof.
  intros E Hb. revert Hb. unfold ExecuteNextCommand in E. rewrite M_bind_unfold in E. cbn [get] in E. cbv zeta in E.
  destruct (_ || _) eqn:Eg; [injection E as <- <-; intros Hb; by apply (sim_preorder reads)|].
  destruct (PopFront (cs_queue (session_of conn s))) as [[cmd q]|] eqn:Ep.
  2:{ apply quiet_frames in E as [-> Q]; [|apply ScheduleDrain_quiet]. intros Hb. by apply (sim_quiet reads s s' rj dn []). }
  intros Hb. cbn [sn_server] in Hb. do 2 (rewrite M_bind_unfold in E; cbn [on_session on_conn modify] in E). fold (popped conn cmd q s) in E.
  apply orb_false_iff in Eg as [[Ex Ecl]%orb_false_iff _].
  unfold session_of in *. destruct (g_sessions s !! conn) as [x|] eqn:Es; [|done]. cbn in Ex, Ecl, Ep.
  destruct (ba_up _ Hb conn x Es) as (tc & Htc & Hm & _).
  assert (exists h talk, can_start (view conn (MkSnap s rj dn [])) h talk cmd q) as (h & talk & Hc).
  { eexists _, (MkTalk (cs_input x) (cs_queue x) false). unfold view, can_start, hist_in, live_in. cbn.
    rewrite Htc, Hm, Es, Ecl, Ex. by split_and!. }
  destruct (qc_type cmd) eqn:Ht.
  - exact (sim_read conn cmd q s fs s' h talk rj dn Hb Hc Ht E Hb).
  - exact (sim_submit conn cmd q s fs s' h talk rj dn Hb Hc Ht E Hb).
  - refine (sim_answer conn cmd q [] _ s _ h talk fs s' rj dn Hb Hc _ (popped_quiet conn cmd q s _) E Hb).
    + unfold answer. by rewrite Ht.
    + unfold selects. by rewrite Ht, bool_decide_eq_false_2.
Qed.

Lemma sim_complete conn s fs s' rj dn :
  OnCommandComplete conn s = (Ok fs, s') ->
  sim reads (MkSnap s rj (conn :: dn) []) (MkSnap s' (rejects fs ++ rj) (dones fs ++ dn) []).
Proof.
  intros E. unfold OnCommandComplete in E. rewrite M_bind_unfold in E. cbn [on_session modify] in E. set (s1 := s <| _ ::= _ |>) in E.
  rewrite M_bind_unfold in E. cbn [get] in E. cbv zeta in E. rewrite M_bind_unfold in E.
  assert (exists s2, when (negb (queue_IsFull (cs_queue (session_of conn s1))) && connected conn s1 && negb (cs_closing (session_of conn s1)))
    (startRead conn) s1 = (Ok tt, s2) /\ quiet s1 s2) as (s2 & E2 & Q).
  { destruct (_ && _); [|by eexists]. eexists. split; [reflexivity|]. exact (quiet_conn conn (fun c => c <| tc_reading := true |>) ltac:(by intros) s1). }
  rewrite E2 in E. injection E as <- <-. change (rejects [ExecuteNext conn] ++ rj) with rj. change (dones [ExecuteNext conn] ++ dn) with dn.
  etrans; [|apply sim_quiet, Q]. apply sim_step; [|done|done]. intros Hu. split.
  - intros c session. cbn. destruct (decide (c = conn)) as [->|]; [|rewrite lookup_alter_ne by done; apply Hu].
    rewrite lookup_alter_eq. destruct (g_sessions s !! conn) as [x|] eqn:Es; [|done]. intros [= <-]. by apply (Hu conn x).
  - apply (move_step reads _ _ conn []); [by rewrite app_nil_r|done| |].
    + replace (view conn (MkSnap s1 rj dn [])) with ((view conn (MkSnap s rj (conn :: dn) [])) <| v_done := occ conn dn |>
        <| v_live ::= fmap (fun talk => MkTalk (tk_input talk) (tk_queue talk) false) |>); [apply cv_completed; apply occ_self|].
      unfold view. cbn. f_equal. unfold live_in. cbn. rewrite lookup_alter_eq. destruct (g_sessions s !! conn) as [x|]; [|done].
      cbn. by destruct (cs_closing x).
    + intros d Hd. rewrite view_done_other by done. unfold view, live_in. cbn. by rewrite lookup_alter_ne.
Qed.

Lemma undeliverable conn s : sessions_up s -> deliverable conn s = false -> live_in conn s = None.
Proof.
  intros Hu. unfold deliverable, live_in, CanDeliverClientReply, connected. destruct (g_sessions s !! conn) as [x|] eqn:E; [|done].
  destruct (Hu conn x E) as (tc & -> & _ & Hc). destruct (cs_closing x); [done|]. by rewrite Hc.
Qed.
Lemma deliverable_live conn s : deliverable conn s = true -> is_Some (live_in conn s).
Proof.
  unfold deliverable, live_in, CanDeliverClientReply. destruct (g_sessions s !! conn) as [x|]; [|done].
  destruct (cs_closing x); [by rewrite andb_false_r|]. by eexists.
Qed.

Lemma abandon_quiet conn s : live_in conn s = None -> quiet s (abandon conn s).2.
Proof.
  intros Hl. unfold live_in in Hl. split; cbn; try done.
  - intros c. unfold live_in. cbn. destruct (decide (c = conn)) as [->|]; [|by rewrite lookup_alter_ne].
    rewrite lookup_alter_eq. destruct (g_sessions s !! conn) as [x|]; [|done]. cbn. by destruct (cs_closing x).
  - intros Hu c session. cbn. destruct (decide (c = conn)) as [->|]; [|rewrite lookup_alter_ne by done; apply Hu].
    rewrite lookup_alter_eq. destruct (g_sessions s !! conn) as [x|] eqn:E; [|done]. intros [= <-]. by apply (Hu conn x).
Qed.

Lemma sim_reject index owners s fs s' rj dn :
  reject_owner index owners s = (Ok fs, s') ->
  sim reads (MkSnap s (owners ++ rj) dn []) (MkSnap s' (rejects fs ++ rj) (dones fs ++ dn) []).
Proof.
  intros E Hb. destruct owners as [|conn owners]; [by injection E as <- <-; apply (sim_preorder reads)|].
  unfold reject_owner in E. rewrite M_bind_unfold in E. cbn [get] in E. destruct (deliverable conn s) eqn:Hd; cbn [negb] in E.
  - rewrite M_bind_unfold in E. cbn [on_session modify] in E. set (s1 := s <| _ ::= _ |>) in E.
    pose proof (quiet_session conn (fun c => c <| cs_waiting := false |>) ltac:(by intros) s) as Q. change (quiet s s1) in Q.
    destruct (sim_sent conn (if index =? -1 then moved else Error (lit "BUSY proposal capacity exhausted")) [] s s1 (conn :: owners ++ rj)
      (owners ++ rj) dn) as (s2 & E2 & Hs).
    + split; [by apply (qu_up _ _ Q), Hb|]. apply Hb.
    + by split; [|left].
    + rewrite (qu_live _ _ Q). by apply deliverable_live.
    + intros d Hne. rewrite (quiet_view s s1) by done. by apply view_reject_other.
    + by rewrite app_nil_r.
    + intros v2. rewrite (quiet_view s s1) by done. intros Hr. eapply cv_rejected; [apply occ_self|by apply deliverable_live| |exact Hr].
      destruct (index =? -1); [left; by exists (_leader_id se_raft)|by right].
    + rewrite M_bind_unfold, E2 in E. injection E as <- <-. revert Hb.
      cbn [rejects dones concat fmap list_fmap app]. rewrite app_nil_r. exact Hs.
  - apply undeliverable in Hd; [|apply Hb]. pose proof (abandon_quiet conn s Hd) as Q. rewrite M_bind_unfold in E.
    injection E as <- <-. revert Hb.
    change (sim reads (MkSnap s ((conn :: owners) ++ rj) dn []) (MkSnap (abandon conn s).2 (rejects [Rejecting index owners] ++ rj) dn [])).
    etrans; [|apply sim_quiet, Q]. unfold rejects. cbn [concat fmap list_fmap]. rewrite app_nil_r.
    apply sim_step; [|done|done]. intros Hu. split; [done|]. apply (move_step reads _ _ conn []); [by rewrite app_nil_r|done| |].
    + replace (view conn (MkSnap s (owners ++ rj) dn [])) with ((view conn (MkSnap s ((conn :: owners) ++ rj) dn [])) <| v_reject := occ conn (owners ++ rj) |>)
        by done. apply cv_reject_dead; [apply occ_self|done].
    + intros d Hne. by apply (view_reject_other d conn s (owners ++ rj)).
Qed.

(** The node calls a closure. *)
Definition called (cb : nat) (news : list node_call) (s : Server) : Server :=
  s <| g_callbacks ::= delete cb |> <| g_calls ::= fun t => t ++ news |>.

Lemma called_base cb news s : base s -> base (called cb news s).
Proof. intros [Hu Hf]. split; [done|]. cbn. intros n Hn. rewrite lookup_delete_None. right. by apply Hf. Qed.
Lemma called_evolve cb news s : cb_evolve s (called cb news s).
Proof.
  split; [done|]. intros n _. cbn. destruct (decide (cb = n)) as [->|Hne]; [right; apply lookup_delete_eq|left; by apply lookup_delete_ne].
Qed.
Lemma called_self conn cb news s rj dn :
  view conn (MkSnap (called cb news s) rj dn []) = (view conn (MkSnap s rj dn [])) <| v_callbacks ::= delete cb |>.
Proof. unfold view. cbn. by rewrite callbacks_of_delete. Qed.
Lemma called_other d cb k news s rj dn :
  g_callbacks s !! cb = Some k -> d <> cb_conn k -> view d (MkSnap (called cb news s) rj dn []) = view d (MkSnap s rj dn []).
Proof. intros Hk Hd. unfold view. cbn. f_equal. by apply (callbacks_of_other d _ cb k). Qed.
Lemma quiet_base s s' : quiet s s' -> base s -> base s'.
Proof. intros Q [Hu Hf]. split; [by apply (qu_up _ _ Q)|]. by rewrite (qu_callbacks _ _ Q), (qu_next _ _ Q). Qed.
Lemma quiet_evolve s s' : quiet s s' -> cb_evolve s s'.
Proof. intros Q. split; [by rewrite (qu_next _ _ Q)|]. left. by rewrite (qu_callbacks _ _ Q). Qed.

Lemma sim_called cb k ok text more r s s1 rj dn :
  base s -> g_callbacks s !! cb = Some k -> is_Some (live_in (cb_conn k) s) -> replies_to k ok text more r ->
  quiet (called cb (CallsBack cb ok text :: more) s) s1 ->
  exists s', SendReply (cb_conn k) r s1 = (Ok tt, s') /\ sim reads (MkSnap s rj dn []) (MkSnap s' rj (cb_conn k :: dn) []).
Proof.
  intros Hb Hk Hl Hr Q. apply (sim_sent (cb_conn k) r (CallsBack cb ok text :: more)).
  - by eapply quiet_base, called_base.
  - etrans; [apply called_evolve|by apply quiet_evolve].
  - by rewrite (qu_live _ _ Q).
  - intros d Hd. rewrite (quiet_view _ s1 rj dn [] d Q). by apply (called_other d cb k).
  - by rewrite (qu_calls _ _ Q).
  - intros v2. rewrite (quiet_view _ s1 rj dn [] _ Q), called_self. intros Hrep.
    apply (cv_called reads (cb_conn k) [] _ cb k ok text more r); [done|by apply callbacks_of_lookup|done|done|done].
Qed.

Lemma sim_called_dead cb k ok text s s1 rj dn :
  base s -> g_callbacks s !! cb = Some k -> live_in (cb_conn k) s = None -> quiet (called cb [CallsBack cb ok text] s) s1 ->
  sim reads (MkSnap s rj dn []) (MkSnap s1 rj dn []).
Proof.
  intros Hb Hk Hl Q. etrans; [|apply sim_quiet, Q]. intros _. split_and!; [by apply called_base|apply called_evolve|].
  apply rtc_once, (move_step reads _ _ (cb_conn k) [CallsBack cb ok text]); [done|done| |].
  - rewrite called_self. apply (cv_called_dead reads (cb_conn k) [] _ cb k); [by apply callbacks_of_lookup|done].
  - intros d Hd. by apply (called_other d cb k).
Qed.

Lemma snoc_calls s cb c news :
  quiet (called cb (c :: news) s) (s <| g_callbacks ::= delete cb |> <| g_calls ::= fun t => t ++ [c] |> <| g_calls ::= fun t => t ++ news |>).
Proof. split; try done. cbn. by rewrite <- app_assoc. Qed.

Lemma sim_callback cb k ok text s fs s' rj dn :
  base s -> g_callbacks s !! cb = Some k -> run_callback k ok text (called cb [CallsBack cb ok text] s) = (Ok fs, s') ->
  sim reads (MkSnap s rj dn []) (MkSnap s' (rejects fs ++ rj) (dones fs ++ dn) []).
Proof.
  intros Hb Hk E. set (s1 := called cb [CallsBack cb ok text] s) in *.
  assert (forall s2, quiet s1 s2 -> deliverable (cb_conn k) s2 = false ->
    (abandon (cb_conn k);; mret []) s2 = (Ok fs, s') ->
    sim reads (MkSnap s rj dn []) (MkSnap s' (rejects fs ++ rj) (dones fs ++ dn) [])) as Hdead.
  { intros s2 Q Hd Ea. pose proof (called_base cb [CallsBack cb ok text] s Hb) as Hb1.
    apply undeliverable in Hd; [|apply (qu_up _ _ Q), Hb1]. pose proof (abandon_quiet (cb_conn k) s2 Hd) as Q2.
    rewrite M_bind_unfold in Ea. injection Ea as <- <-. apply (sim_called_dead cb k ok text s); [done|done| |by etrans].
    by rewrite (qu_live _ _ Q) in Hd. }
  destruct k as [conn enqueued_at|conn key]; cbn [run_callback cb_conn] in *.
  - unfold OnWriteDone in E. rewrite M_bind_unfold in E.
    assert (exists s2, when ok (modify (fun s => s <| g_write_completed ::= latency_Observe (ElapsedMicros enqueued_at (se_now 0)) |>)) s1
      = (Ok tt, s2) /\ quiet s1 s2) as (s2 & E2 & Q).
    { destruct ok; [|by eexists]. eexists. split; [reflexivity|].
      exact (quiet_others (fun s => s <| g_write_completed ::= latency_Observe (ElapsedMicros enqueued_at (se_now 0)) |>) ltac:(by intros) s1). }
    rewrite E2, M_bind_unfold in E. cbn [get] in E. destruct (deliverable conn s2) eqn:Hd; cbn [negb] in E; [|by apply (Hdead s2)].
    apply deliverable_live in Hd. rewrite (qu_live _ _ Q) in Hd.
    destruct (sim_called cb (WriteCallback conn enqueued_at) ok text [] text s s2 rj dn Hb Hk Hd) as (s3 & E3 & Hs); [done|done|].
    cbn [cb_conn] in E3, Hs. rewrite M_bind_unfold, E3 in E. rewrite M_bind_unfold in E. cbn [on_session modify] in E. injection E as <- <-.
    etrans; [exact Hs|]. apply sim_quiet. exact (quiet_session conn (fun c => c <| cs_waiting := false |>) ltac:(by intros) s3).
  - unfold OnReadDone in E. rewrite M_bind_unfold in E. cbn [get] in E.
    destruct (deliverable conn s1) eqn:Hd; cbn [negb] in E; [|by apply (Hdead s1)]. apply deliverable_live in Hd. change (is_Some (live_in conn s)) in Hd.
    assert (forall r more s2, replies_to (ReadCallback conn key) ok text more r -> quiet (called cb (CallsBack cb ok text :: more) s) s2 ->
      reply_and_complete conn r s2 = (Ok fs, s') -> sim reads (MkSnap s rj dn []) (MkSnap s' (rejects fs ++ rj) (dones fs ++ dn) [])) as Hreply.
    { intros r more s2 Hr Q Er. destruct (sim_called cb (ReadCallback conn key) ok text more r s s2 rj dn Hb Hk Hd Hr Q) as (s3 & E3 & Hs).
      cbn [cb_conn] in E3, Hs. unfold reply_and_complete in Er. rewrite M_bind_unfold, E3 in Er. by injection Er as <- <-. }
    unfold DecideLinearizableGet in E. destruct ok, (IsLeader se_raft); cbn [andb negb] in E.
    + rewrite M_bind_unfold in E. unfold read_key in E. rewrite M_bind_unfold in E. cbn [lift_result] in E.
      destruct (sm_Get _ _).1 as [value|]; [|done]. rewrite M_bind_unfold in E. cbn [tell modify mret M_ret] in E.
      eapply (Hreply _ [ReadsKey key value]), E; [right; right; by eauto|]. unfold s1, called. apply snoc_calls.
    + eapply (Hreply _ []), E; [left; split; [done|by exists (_leader_id se_raft)]|done].
    + destruct (IsReadIndexRedirectError text); cbn [negb] in E; (eapply (Hreply _ []), E; [|done]);
        [left; split; [done|by exists (_leader_id se_raft)]|by right; left].
    + eapply (Hreply _ []), E; [left; split; [done|by exists (_leader_id se_raft)]|done].
Qed.

(** * Batches *)

(** The owners of a batch are the connections of its closures. *)
Definition owner_ok (s : Server) (o : bytes * nat) : Prop :=
  (o.2 < g_next_callback s)%nat /\ (g_callbacks s !! o.2 = None \/ exists t, g_callbacks s !! o.2 = Some (WriteCallback o.1 t)).
Definition owners_ok (s : Server) (owners : list (bytes * nat)) : Prop := NoDup owners.*2 /\ Forall (owner_ok s) owners.

Lemma owners_evolve s s' owners : cb_evolve s s' -> owners_ok s owners -> owners_ok s' owners.
Proof.
  intros [En Eo] [Hd Ho]. split; [done|]. eapply Forall_impl; [done|]. intros o [Hlt Hk]. split; [lia|].
  destruct (Eo o.2 Hlt) as [->|]; [done|by left].
Qed.

Lemma sim_refuse_one n c t s rj dn :
  base s -> g_callbacks s !! n = Some (WriteCallback c t) ->
  sim reads (MkSnap s rj dn []) (MkSnap (s <| g_callbacks ::= delete n |>) (c :: rj) dn []).
Proof.
  intros Hb Hn _. pose proof (called_base n [] s Hb) as [Hu Hf]. pose proof (called_evolve n [] s) as [En Eo]. split_and!; [done|done|].
  apply rtc_once, (move_step reads _ _ c []); [by rewrite app_nil_r|done| |].
  - replace (view c (MkSnap (s <| g_callbacks ::= delete n |>) (c :: rj) dn [])) with
      ((view c (MkSnap s rj dn [])) <| v_callbacks ::= delete n |> <| v_reject ::= S |>)
      by (unfold view; cbn; by rewrite callbacks_of_delete, occ_self).
    apply (cv_refused reads c [] _ n t). by apply callbacks_of_lookup.
  - intros d Hd. unfold view. cbn. rewrite occ_other by done. f_equal. by apply (callbacks_of_other d _ n (WriteCallback c t)).
Qed.

Lemma foldr_delete_lookup (m : gmap nat callback) (owners : list (bytes * nat)) n :
  n ∉ owners.*2 -> foldr (fun o => delete o.2) m owners !! n = m !! n.
Proof.
  induction owners as [|o owners IH]; [done|]. rewrite fmap_cons. intros [H1 H2]%not_elem_of_cons. cbn [foldr].
  rewrite lookup_delete_ne by done. by apply IH.
Qed.

Lemma sim_refused owners s rj dn :
  base s -> NoDup owners.*2 -> Forall (fun o => exists t, g_callbacks s !! o.2 = Some (WriteCallback o.1 t)) owners ->
  sim reads (MkSnap s rj dn [])
    (MkSnap (s <| g_callbacks ::= fun m => foldr (fun o => delete o.2) m owners |>) (owners.*1 ++ rj) dn []).
Proof.
  intros Hb. induction owners as [|[c n] owners IH]; intros Hnd Ho; [by apply sim_quiet; split|].
  rewrite fmap_cons in Hnd. apply NoDup_cons in Hnd as [Hn Hnd]. apply Forall_cons in Ho as [[t Ht] Ho]. specialize (IH Hnd Ho).
  set (s1 := s <| g_callbacks ::= _ |>) in IH. destruct (IH Hb) as (Hb1 & He1 & Hr1).
  etrans; [exact IH|]. apply (sim_refuse_one n c t s1); [done|]. cbn. by rewrite foldr_delete_lookup.
Qed.

Lemma sim_proposed index owners s fs s' rj dn :
  base s -> owners_ok s owners -> may_return index owners s = true -> OnProposed index owners s = (Ok fs, s') ->
  sim reads (MkSnap s rj dn []) (MkSnap s' (rejects fs ++ rj) (dones fs ++ dn) []).
Proof.
  intros Hb [Hnd Ho] Hr E. unfold OnProposed in E. unfold may_return in Hr. destruct (Z.ltb_spec index 0) as [Hneg|Hpos].
  2:{ by injection E as <- <-. }
  rewrite (proj2 (Z.leb_gt 0 index)) in Hr by lia. cbn [orb] in Hr. apply forallb_Forall in Hr.
  assert (Forall (fun o => exists t, g_callbacks s !! o.2 = Some (WriteCallback o.1 t)) owners) as Hp.
  { apply Forall_forall. intros o Hin. rewrite Forall_forall in Ho, Hr. specialize (Hr o Hin). apply bool_decide_eq_true_1 in Hr as [k Hk].
    destruct (Ho o Hin) as [_ [Hn|[t Ht]]]; [congruence|eauto]. }
  rewrite M_bind_unfold in E. cbn [modify] in E. set (s1 := s <| g_callbacks ::= _ |>) in E.
  assert (exists s2, when (index =? -2) (modify (fun s => s <| g_overload_rejections ::= Z.add #owners |>)) s1 = (Ok tt, s2) /\ quiet s1 s2)
    as (s2 & E2 & Q).
  { destruct (index =? -2); [|by eexists]. eexists. split; [reflexivity|].
    exact (quiet_others (fun s => s <| g_overload_rejections ::= Z.add #owners |>) ltac:(by intros) s1). }
  rewrite M_bind_unfold, E2 in E. injection E as <- <-. unfold rejects. cbn [concat fmap list_fmap]. rewrite app_nil_r.
  etrans; [by apply (sim_refused owners)|]. by apply sim_quiet.
Qed.

(** One write of the queue becomes a proposal. *)
Lemma sim_collect_one w rest s s1 rj dn proposals :
  base s -> g_writes s = w :: rest -> is_Some (live_in (qw_conn w) s) ->
  quiet (s <| g_writes := rest |> <| g_callbacks ::= <[g_next_callback s := WriteCallback (qw_conn w) (qw_enqueued_at w)]> |>
           <| g_next_callback ::= S |>) s1 ->
  sim reads (MkSnap s rj dn proposals)
    (MkSnap s1 rj dn (proposals ++ [MkProposal (qw_command w) (Some (g_next_callback s))])).
Proof.
  intros [Hu Hf] Hw Hl Q. etrans; [|apply sim_quiet, Q]. intros _.
  assert (g_callbacks s !! g_next_callback s = None) as Hn by (by apply Hf). split_and!.
  - split; [done|]. cbn. intros n Hle. rewrite lookup_insert_ne by lia. apply Hf. lia.
  - split; cbn; [lia|]. intros n Hlt. left. by rewrite lookup_insert_ne by lia.
  - apply rtc_once. exists []. rewrite app_nil_r. split; [done|]. split.
    { intros n x [Hp|Hb]; [by left|]. right. cbn. apply elem_of_app. by left. }
    left. exists (qw_conn w). split.
    + becomes ((view (qw_conn w) (MkSnap s rj dn proposals)) <| v_writes := writes_of (qw_conn w) rest |>
        <| v_callbacks ::= <[g_next_callback s := WriteCallback (qw_conn w) (qw_enqueued_at w)]> |>).
      2:{ unfold view. cbn. f_equal. rewrite callbacks_of_insert by done. by case_decide. }
      apply (cv_collect reads (qw_conn w) _ _ (qw_command w)); [|done|by apply callbacks_of_none|cbn; apply elem_of_app; right; by left].
      cbn. rewrite Hw, writes_of_cons. by case_decide.
    + intros d Hd. unfold view. cbn. rewrite Hw, writes_of_cons, callbacks_of_insert by done. cbn. by repeat case_decide.
Qed.

Lemma sim_drop_one w rest s s1 rj dn proposals :
  g_writes s = w :: rest -> live_in (qw_conn w) s = None -> quiet (s <| g_writes := rest |>) s1 ->
  sim reads (MkSnap s rj dn proposals) (MkSnap s1 rj dn proposals).
Proof.
  intros Hw Hl Q. etrans; [|apply sim_quiet, Q]. apply sim_step; [|done|done]. intros Hu. split; [done|].
  apply (move_step reads _ _ (qw_conn w) []); [by rewrite app_nil_r|done| |].
  - becomes ((view (qw_conn w) (MkSnap s rj dn proposals)) <| v_writes := writes_of (qw_conn w) rest |>); [|done].
    apply (cv_drop reads (qw_conn w) _ _ (qw_command w)); [|done]. cbn. rewrite Hw, writes_of_cons. by case_decide.
  - intros d Hd. unfold view. cbn. rewrite Hw, writes_of_cons. by case_decide.
Qed.

Lemma owners_snoc s s1 owners c t :
  base s -> owners_ok s owners -> g_next_callback s1 = S (g_next_callback s) ->
  g_callbacks s1 = <[g_next_callback s := WriteCallback c t]> (g_callbacks s) -> owners_ok s1 (owners ++ [(c, g_next_callback s)]).
Proof.
  intros Hb [Hd Ho] En Ek. split.
  - rewrite fmap_app. apply NoDup_app. split; [done|]. split; [|apply NoDup_singleton]. intros n Hn Hx%list_elem_of_singleton. subst n.
    apply list_elem_of_fmap in Hn as (o & Eo & Hin). rewrite Forall_forall in Ho. destruct (Ho o Hin) as [Hlt _]. cbn in Eo. lia.
  - apply Forall_app. split.
    + eapply Forall_impl; [exact Ho|]. intros o [Hlt Hk]. unfold owner_ok. rewrite En, Ek. split; [lia|].
      rewrite lookup_insert_ne by lia. done.
    + apply Forall_singleton. unfold owner_ok. rewrite En, Ek. cbn. split; [lia|]. right. exists t. apply lookup_insert_eq.
Qed.

Lemma sim_collect turns proposals owners total s ps os s' rj dn :
  base s -> owners_ok s owners -> collect_writes turns proposals owners total s = (Ok (ps, os), s') ->
  sim reads (MkSnap s rj dn proposals) (MkSnap s' rj dn ps) /\ owners_ok s' os.
Proof.
  revert proposals owners total s. induction turns as [|turns IH]; intros proposals owners total s Hb Ho E; cbn [collect_writes] in E.
  { by injection E as <- <- <-. }
  rewrite M_bind_unfold in E. cbn [get] in E. destruct (g_writes s) as [|w rest] eqn:Hw; [by injection E as <- <- <-|].
  destruct (_ && _); [by injection E as <- <- <-|]. rewrite M_bind_unfold in E. cbn [modify] in E.
  set (s1 := s <| g_writes := rest |> <| g_queued_write_bytes := _ |>) in E.
  assert (quiet (s <| g_writes := rest |>) s1) as Q1
    by exact (quiet_others (fun x => x <| g_queued_write_bytes := g_queued_write_bytes s1 |>) ltac:(by intros) (s <| g_writes := rest |>)).
  destruct (deliverable (qw_conn w) s) eqn:Hd; cbn [negb] in E.
  - apply deliverable_live in Hd. rewrite M_bind_unfold in E. cbn [modify] in E. rewrite M_bind_unfold in E.
    unfold register in E. rewrite M_bind_unfold in E. cbn [gets] in E. rewrite M_bind_unfold in E. cbn [modify mret M_ret] in E.
    match type of E with collect_writes _ _ _ _ ?x = _ => set (s2 := x) in E end.
    assert (quiet (s <| g_writes := rest |> <| g_callbacks ::= <[g_next_callback s := WriteCallback (qw_conn w) (qw_enqueued_at w)]> |>
           <| g_next_callback ::= S |>) s2) as Q2 by (by split).
    pose proof (sim_collect_one w rest s s2 rj dn proposals Hb Hw Hd Q2) as Hs. destruct (Hs Hb) as (Hb2 & He2 & _).
    destruct (IH _ _ _ _ Hb2 (owners_snoc s s2 owners _ _ Hb Ho eq_refl eq_refl) E) as [Hs2 Ho2]. split; [by etrans|done].
  - apply undeliverable in Hd; [|apply Hb]. pose proof (sim_drop_one w rest s s1 rj dn proposals Hw Hd Q1) as Hs.
    destruct (Hs Hb) as (Hb1 & He1 & _). destruct (IH _ _ _ _ Hb1 (owners_evolve _ _ _ He1 Ho) E) as [Hs2 Ho2]. split; [by etrans|done].
Qed.

Lemma drain_nothing now input queue n : DrainCommands now input queue n false = (no_outcome, input, queue).
Proof. done. Qed.
#[local] Opaque collect_writes DrainCommands.

(** The frames a function leaves: nothing owed, and the owners of a batch match. *)
Definition frames_ok (s : Server) (fs : list frame) : Prop := forall owners, Proposing owners ∈ fs -> owners_ok s owners.
Definition owes_nothing (fs : list frame) : Prop := rejects fs = [] /\ dones fs = [].

Lemma sim_flush s fs s' rj dn :
  base s -> FlushQueuedWrites s = (Ok fs, s') ->
  sim reads (MkSnap s rj dn []) (MkSnap s' rj dn []) /\ frames_ok s' fs /\ owes_nothing fs.
Proof.
  intros Hb E. unfold FlushQueuedWrites in E. rewrite M_bind_unfold in E. destruct (collect_writes _ _ _ _ s) as [[[ps os]|] s1] eqn:Ec; [|done].
  destruct (sim_collect (Z.to_nat flush_kMaxEntries) [] [] 0 s ps os s1 rj dn Hb) as [Hs Ho]; [by split; [apply NoDup_nil|]|done|].
  case_bool_decide as Hps.
  - injection E as <- <-. subst ps. split; [done|]. split; [|done]. intros owners Hin%list_elem_of_singleton. done.
  - rewrite M_bind_unfold in E. cbn [tell modify] in E. injection E as <- <-. split; [|split; [|done]].
    + etrans; [exact Hs|]. apply sim_step; [|done|done]. intros Hu. split; [done|]. exists [Proposes ps]. split; [done|]. split; [|by right].
      intros n w [(l & Hl & Hin)|Hin]; left; [exists l|exists ps]; (split; [|done]); apply elem_of_app; [by left|right; by left].
    + intros owners [[= ->]|Hin%list_elem_of_singleton]%elem_of_cons; done.
Qed.

(** * Input *)

Lemma replied_relive r v t v2 :
  is_Some (v_live v) -> replied r (v <| v_live := Some t |>) v2 -> exists v3, replied r v v3 /\ v3 <| v_live := None |> = v2 <| v_live := None |>.
Proof.
  intros Hl [Hn|h Hh _|_]; [done|eexists; split; [by eapply replied_sent|done]|eexists; split; [by apply replied_closed|done]].
Qed.

(** The assignments at the head of [DrainClient]. *)
Definition drained (conn : bytes) (input : CommandBuffer) (queue : SessionCommandQueue) (consumed : Z) (s : Server) : Server :=
  s <| g_sessions ::= alter (fun c => c <| cs_input := input |> <| cs_queue := queue |>) conn |>
    <| g_input_bytes := uN 64 (g_input_bytes s - consumed) |>.

Lemma drained_up conn input queue consumed s : sessions_up s -> sessions_up (drained conn input queue consumed s).
Proof.
  intros Hu c session. cbn. destruct (decide (c = conn)) as [->|]; [|rewrite lookup_alter_ne by done; apply Hu].
  rewrite lookup_alter_eq. destruct (g_sessions s !! conn) as [x|] eqn:E; [|done]. intros [= <-]. by apply (Hu conn x).
Qed.
Lemma drained_other d conn input queue consumed s rj dn batch :
  d <> conn -> view d (MkSnap (drained conn input queue consumed s) rj dn batch) = view d (MkSnap s rj dn batch).
Proof. intros Hd. unfold view, live_in. cbn. by rewrite lookup_alter_ne. Qed.
Lemma drained_self conn input queue consumed s talk rj dn batch :
  live_in conn s = Some talk -> view conn (MkSnap (drained conn input queue consumed s) rj dn batch) =
    (view conn (MkSnap s rj dn batch)) <| v_live := Some (MkTalk input queue (tk_executing talk)) |>.
Proof.
  intros Hl. unfold view, live_in in *. cbn. rewrite lookup_alter_eq. destruct (g_sessions s !! conn) as [x|]; [|done]. cbn.
  destruct (cs_closing x); [done|]. by injection Hl as <-.
Qed.
Lemma drained_dead conn x consumed s :
  g_sessions s !! conn = Some x -> quiet s (drained conn (cs_input x) (cs_queue x) consumed s).
Proof.
  intros Hx. split; try done; [|intros Hu; by apply drained_up]. intros c. unfold live_in. cbn.
  destruct (decide (c = conn)) as [->|]; [|by rewrite lookup_alter_ne]. by rewrite lookup_alter_eq, Hx.
Qed.

(** The end of a drain that found no broken frame. *)
Lemma drain_tail conn stop executing nonempty s fs s' :
  (when stop (stopRead conn);;
   if (executing : bool) && (nonempty : bool) then mret [ExecuteNext conn]
   else s ← get; when (connected conn s && executing) (ScheduleDrain conn);; mret []) s = (Ok fs, s') ->
  quiet s s' /\ frames_ok s' fs /\ owes_nothing fs.
Proof.
  intros E. assert (evolves quiet (when stop (stopRead conn))) as Q1 by (destruct stop; ev). specialize (Q1 s).
  rewrite M_bind_unfold in E. destruct (when stop (stopRead conn) s) as [[[]|] s1]; [|done]. cbn in Q1. destruct (executing && nonempty).
  - injection E as <- <-. split; [done|]. split; [|done]. by intros owners Hin%list_elem_of_singleton.
  - rewrite M_bind_unfold in E. cbn [get] in E. apply quiet_frames in E as [-> Q2]; [|destruct (_ && _); [apply ScheduleDrain_quiet|ev]].
    split; [by etrans|]. split; [|done]. by intros owners Hin%elem_of_nil.
Qed.

(** The end of a drain that found one. *)
Lemma sim_broken conn error should now out input queue consumed talk s (fs : list frame) s' rj dn :
  base s -> live_in conn s = Some talk ->
  DrainCommands now (tk_input talk) (tk_queue talk) kMaxCommandsPerTurn true = (out, input, queue) -> do_invalid out = true ->
  error = do_invalid_error out -> (should = true -> tk_executing talk = false /\ items queue = []) ->
  (stopRead conn;; when should (SendReply conn (Error error));; on_session conn (fun c => c <| cs_closing := true |>);; shutdown conn;; mret [])
    (drained conn input queue consumed s) = (Ok fs, s') ->
  sim reads (MkSnap s rj dn []) (MkSnap s' rj dn []) /\ fs = [].
Proof.
  intros Hb Hl Ed Ei -> Hsh E. set (s1 := drained conn input queue consumed s) in E.
  pose proof (quiet_conn conn (fun c => c <| tc_reading := false |>) ltac:(by intros) s1) as Q1.
  rewrite M_bind_unfold in E. unfold stopRead in E. destruct (on_conn _ _ s1) as [[[]|] s2] eqn:E1; [|done]. cbn in Q1.
  pose proof (drained_up conn input queue consumed s (ba_up _ Hb)) as Hu1. pose proof (qu_up _ _ Q1 Hu1) as Hu2.
  assert (live_in conn s2 = Some (MkTalk input queue (tk_executing talk))) as Hl2.
  { rewrite (qu_live _ _ Q1). change (v_live (view conn (MkSnap s1 rj dn [])) = Some (MkTalk input queue (tk_executing talk))).
    unfold s1. by rewrite (drained_self _ _ _ _ _ talk). }
  assert (exists s3, when should (SendReply conn (Error (do_invalid_error out))) s2 = (Ok tt, s3) /\ only conn s2 s3 /\
    (view conn (MkSnap s3 rj dn []) = view conn (MkSnap s2 rj dn []) \/
     (should = true /\ replied (Error (do_invalid_error out)) (view conn (MkSnap s2 rj dn [])) (view conn (MkSnap s3 rj dn []))))) as (s3 & E3 & O3 & Hr).
  { destruct should; [|exists s2; split_and!; [done|done|by left]].
    destruct (SendReply_view conn (Error (do_invalid_error out)) s2 rj dn [] Hu2) as (s3 & E3 & O3 & Hr); [by eexists|]. exists s3. eauto. }
  rewrite M_bind_unfold, E3 in E. destruct (CloseClient_view conn s3 (on_up _ _ _ O3 Hu2)) as (s4 & E4 & O4 & Hh4 & Hl4).
  assert (fs = [] /\ s' = s4) as [-> ->] by (injection E4 as <-; by injection E as <- <-).
  split; [|done].
  apply sim_step; cbn [sn_server]; [|by rewrite (on_callbacks _ _ _ O4), (on_callbacks _ _ _ O3), (qu_callbacks _ _ Q1)|by rewrite (on_next _ _ _ O4), (on_next _ _ _ O3), (qu_next _ _ Q1)].
  intros _. split; [by apply (on_up _ _ _ O4), (on_up _ _ _ O3)|].
  apply (move_step reads _ _ conn []); [unfold calls_of; cbn; by rewrite (on_calls _ _ _ O4), (on_calls _ _ _ O3), (qu_calls _ _ Q1), app_nil_r|done| |].
  - becomes ((view conn (MkSnap s3 rj dn [])) <| v_live := None |>); [|rewrite (only_view_self conn s3 s4), Hl4, Hh4 by done; done].
    rewrite (quiet_view s1 s2) in Hr by done. unfold s1 in Hr. rewrite (drained_self _ _ _ _ _ talk) in Hr by done.
    destruct Hr as [->|[Hs Hr]]; [by apply (cv_invalid reads conn [] _ talk now out input queue (view conn (MkSnap s rj dn []))); [..|left]|].
    apply replied_relive in Hr as (v3 & Hr & <-); [|cbn; by eexists].
    apply (cv_invalid reads conn [] _ talk now out input queue); [done|done|done|]. right. destruct (Hsh Hs). by split_and!.
  - intros d Hd. rewrite (only_view conn s3 s4), (only_view conn s2 s3), (quiet_view s1 s2) by done. by apply drained_other.
Qed.

Lemma sim_drain conn s fs s' rj dn :
  base s -> is_Some (g_sessions s !! conn) -> DrainClient conn s = (Ok fs, s') ->
  sim reads (MkSnap s rj dn []) (MkSnap s' rj dn []) /\ frames_ok s' fs /\ owes_nothing fs.
Proof.
  intros Hb [x Hx] E. unfold DrainClient in E. rewrite M_bind_unfold in E. cbn [get] in E. cbv zeta in E.
  assert (session_of conn s = x) as Es by (unfold session_of; by rewrite Hx). rewrite Es in E.
  destruct (DrainCommands _ _ _ _ _) as [[out input] queue] eqn:Ed.
  do 2 (rewrite M_bind_unfold in E; cbn [on_session modify] in E).
  match type of E with _ ?y = _ => change y with (drained conn input queue (do_consumed_bytes out) s) in E end.
  destruct (live_in conn s) as [talk|] eqn:Hl.
  - assert (cs_closing x = false /\ talk = MkTalk (cs_input x) (cs_queue x) (cs_executing x)) as [Ecl ->].
    { unfold live_in in Hl. rewrite Hx in Hl. destruct (cs_closing x); [done|]. by injection Hl as <-. }
    destruct (do_invalid out) eqn:Ei.
    + assert (connected conn s && negb (cs_closing x) && negb (cs_drain_scheduled x) = true) as Ek.
      { destruct (_ && _); [done|]. rewrite drain_nothing in Ed. by injection Ed as <- <- <-. }
      rewrite Ek in Ed. eapply (sim_broken conn _ _ se_now out input queue) in E as [Hs ->]; [|done|done|done|done|done|].
      * split; [exact Hs|]. split; [|done]. by intros owners Hin%elem_of_nil.
      * unfold ShouldReplyInvalidFrame. cbn. intros [[He _]%andb_true_iff Hq]%andb_true_iff.
        apply negb_true_iff in He. apply bool_decide_eq_true_1 in Hq. done.
    + apply drain_tail in E as (Q & Hf & Ho). split; [|done]. etrans; [|apply sim_quiet, Q]. apply sim_step; [|done|done].
      intros Hu. split; [by apply drained_up|]. apply (move_step reads _ _ conn []); [by rewrite app_nil_r|done| |].
      * rewrite (drained_self _ _ _ _ _ (MkTalk (cs_input x) (cs_queue x) (cs_executing x))) by done.
        by eapply (cv_drained reads conn [] _ (MkTalk (cs_input x) (cs_queue x) (cs_executing x)) se_now).
      * intros d Hd. by apply drained_other.
  - assert (cs_closing x = true) as Ecl by (unfold live_in in Hl; rewrite Hx in Hl; by destruct (cs_closing x)).
    rewrite Ecl, andb_false_r in Ed. cbn [negb andb] in Ed. rewrite drain_nothing in Ed. injection Ed as <- <- <-. cbn [do_invalid no_outcome] in E.
    apply drain_tail in E as (Q & Hf & Ho). split; [|done]. apply sim_quiet. etrans; [by apply (drained_dead conn x)|done].
Qed.

(** The bytes of a message enter the session. *)
Definition taken_in (conn : bytes) (input : CommandBuffer) (buffer : bytes) (total : Z) (s : Server) : Server :=
  s <| g_sessions ::= alter (fun c => c <| cs_input := input |>) conn |>
    <| g_conns ::= alter (fun c => c <| tc_received ::= fun b => b ++ buffer |>) conn |> <| g_input_bytes := total |>.

Lemma sim_received conn x input buffer total s rj dn :
  g_sessions s !! conn = Some x -> cs_closing x = false -> buffer_Append buffer (cs_input x) = (true, input) ->
  sim reads (MkSnap s rj dn []) (MkSnap (taken_in conn input buffer total s) rj dn []).
Proof.
  intros Hx Hc Ha. apply sim_step; [|done|done]. cbn [sn_server]. intros Hu. destruct (Hu conn x Hx) as (tc & Htc & Hm & Hup). split.
  - intros c session. cbn. destruct (decide (c = conn)) as [->|]; [|rewrite !lookup_alter_ne by done; apply Hu].
    rewrite !lookup_alter_eq, Hx, Htc. intros [= <-]. cbn. eexists. split; [done|]. done.
  - apply (move_step reads _ _ conn []); [by rewrite app_nil_r|done| |].
    + assert (v_live (view conn (MkSnap s rj dn [])) = Some (MkTalk (cs_input x) (cs_queue x) (cs_executing x))) as Hl
        by (unfold view, live_in; cbn; by rewrite Hx, Hc).
      assert (v_hist (view conn (MkSnap s rj dn [])) = Some (MkHistory (tc_received tc) (tc_executed tc) (tc_sent tc))) as Hh
        by (unfold view, hist_in; cbn; by rewrite Htc, Hm).
      pose proof (cv_received reads conn [] _ _ _ buffer input Hh Hl Ha) as Hcv. cbn in Hcv.
      becomes ((view conn (MkSnap s rj dn [])) <| v_live := Some (MkTalk input (cs_queue x) (cs_executing x)) |>
        <| v_hist := Some (MkHistory (tc_received tc ++ buffer) (tc_executed tc) (tc_sent tc)) |>); [exact Hcv|].
      unfold view, live_in, hist_in. cbn. rewrite !lookup_alter_eq, Hx, Htc. cbn. by rewrite Hc, Hm.
    + intros d Hd. unfold view, live_in, hist_in. cbn. by rewrite !lookup_alter_ne.
Qed.

Lemma sim_over conn s s' rj dn :
  CloseClient conn s = (Ok tt, s') -> sim reads (MkSnap s rj dn []) (MkSnap s' rj dn []).
Proof.
  intros E. apply sim_step; [|by injection E as <-|by injection E as <-]. intros Hu.
  destruct (CloseClient_view conn s Hu) as (s1 & E1 & O & Hh & Hl). rewrite E in E1. injection E1 as <-.
  split; [by apply (on_up _ _ _ O)|]. apply (move_step reads _ _ conn []); [unfold calls_of; cbn; by rewrite (on_calls _ _ _ O), app_nil_r|done| |].
  - rewrite (only_view_self conn s s'), Hh, Hl by done. apply cv_over.
  - intros d Hd. by apply (only_view conn s s').
Qed.

(** Closing a connection that has no session. *)
Lemma forceClose_quiet conn s : g_sessions s !! conn = None -> quiet s (forceClose conn s).2.
Proof.
  intros Hn. split; cbn; try done.
  - intros c. unfold hist_in. cbn. destruct (decide (c = conn)) as [->|]; [|by rewrite lookup_alter_ne].
    rewrite lookup_alter_eq. by destruct (g_conns s !! conn).
  - intros Hu c session Hc. cbn in Hc. destruct (Hu c session Hc) as (tc & Htc & Hm). exists tc. cbn.
    rewrite lookup_alter_ne by (intros ->; congruence). done.
Qed.

Lemma sim_message conn buffer s fs s' rj dn :
  base s -> OnClientMessage conn buffer s = (Ok fs, s') ->
  sim reads (MkSnap s rj dn []) (MkSnap s' rj dn []) /\ frames_ok s' fs /\ owes_nothing fs.
Proof.
  intros Hb E. assert (forall s1, frames_ok s1 [] /\ owes_nothing []) as Hnil by (intros; split; [by intros owners []%elem_of_nil|done]).
  unfold OnClientMessage in E. rewrite M_bind_unfold in E. cbn [get] in E. destruct (g_sessions s !! conn) as [x|] eqn:Hx.
  2:{ rewrite M_bind_unfold in E. injection E as <- <-. split; [|apply Hnil]. by apply sim_quiet, (forceClose_quiet conn s). }
  destruct (cs_closing x) eqn:Hc; [injection E as <- <-; split; [done|apply Hnil]|].
  destruct (buffer_Append buffer (cs_input x)) as [appended input] eqn:Ha. destruct (_ || _) eqn:Ef.
  - rewrite M_bind_unfold in E. cbn [overloaded modify] in E. rewrite M_bind_unfold in E.
    injection E as <- <-. split; [|apply Hnil]. etrans; [apply sim_quiet, (overloaded_quiet s)|]. by apply (sim_over conn).
  - apply orb_false_iff in Ef as [_ ->%negb_false_iff].
    do 3 (rewrite M_bind_unfold in E; cbn [on_session on_conn modify] in E).
    match type of E with _ ?y = _ => change y with (taken_in conn input buffer (g_input_bytes y) s) in E; set (s1 := taken_in _ _ _ _ _) in E end.
    pose proof (sim_received conn x input buffer (g_input_bytes s1) s rj dn Hx Hc Ha) as Hs. change (taken_in _ _ _ _ s) with s1 in Hs.
    destruct (Hs Hb) as (Hb1 & _ & _). destruct (sim_drain conn s1 fs s' rj dn Hb1) as (Hs2 & Hf & Ho); [|done|].
    + cbn. rewrite lookup_alter_eq, Hx. by eexists.
    + split; [by etrans|done].
Qed.

Lemma sim_task t s fs s' rj dn :
  base s -> run_task t s = (Ok fs, s') ->
  sim reads (MkSnap s rj dn []) (MkSnap s' rj dn []) /\ frames_ok s' fs /\ owes_nothing fs.
Proof.
  intros Hb E. destruct t as [token|conn]; unfold run_task in E; rewrite M_bind_unfold in E.
  - destruct (lens _ _ _ s) as [[live|] s1] eqn:El; [|done].
    assert (quiet s s1) as Q by (eapply evolves_run; [apply quiet_policy|exact El]). destruct live.
    + rewrite M_bind_unfold in E. cbn [modify] in E. set (s2 := s1 <| g_flush_timer := None |>) in E.
      assert (quiet s s2) as Q2 by (etrans; [exact Q|]; exact (quiet_others (fun s => s <| g_flush_timer := None |>) ltac:(by intros) s1)).
      destruct (sim_flush s2 fs s' rj dn (quiet_base _ _ Q2 Hb) E) as (Hs & Hf & Ho). split; [|done]. etrans; [by apply sim_quiet|done].
    + injection E as <- <-. split; [by apply sim_quiet|]. split; [by intros owners []%elem_of_nil|done].
  - cbn [get] in E. destruct (g_sessions s !! conn) as [x|] eqn:Hx.
    2:{ injection E as <- <-. split; [done|]. split; [by intros owners []%elem_of_nil|done]. }
    rewrite M_bind_unfold in E. cbn [on_session modify] in E. set (s1 := s <| g_sessions ::= _ |>) in E.
    pose proof (quiet_session conn (fun c => c <| cs_drain_scheduled := false |>) ltac:(by intros) s) as Q. change (quiet s s1) in Q.
    destruct (sim_drain conn s1 fs s' rj dn (quiet_base _ _ Q Hb)) as (Hs & Hf & Ho); [cbn; rewrite lookup_alter_eq, Hx; by eexists|done|].
    split; [|done]. etrans; [by apply sim_quiet|done].
Qed.

(** * Connections *)

Lemma new_view conn s :
  sessions_up s -> is_new conn s = true -> hist_in conn s = None /\ g_sessions s !! conn = None.
Proof.
  intros Hu Hn%bool_decide_eq_true_1. unfold hist_in. rewrite Hn. split; [done|].
  destruct (g_sessions s !! conn) as [x|] eqn:Hx; [|done]. destruct (Hu conn x Hx) as (tc & Htc & _). congruence.
Qed.

Lemma sim_accept conn s fs s' rj dn :
  is_new conn s = true -> run_event flags (Accepts conn) s = (Ok fs, s') ->
  sim reads (MkSnap s rj dn []) (MkSnap s' rj dn []) /\ fs = [].
Proof.
  intros Hn E. cbn [run_event] in E. rewrite M_bind_unfold in E. cbn [accept modify] in E. unfold no_frames in E. rewrite M_bind_unfold in E.
  unfold OnClientConnection in E. rewrite M_bind_unfold in E. cbn [get] in E.
  set (s1 := s <| g_conns ::= _ |>) in E. assert (connected conn s1 = true) as Ec by (unfold connected; cbn; by rewrite lookup_insert_eq).
  rewrite Ec in E. destruct (_ <=? _).
  - rewrite M_bind_unfold in E. cbn [overloaded modify] in E. injection E as <- <-. split; [|done]. apply sim_step; [|done|done].
    cbn [sn_server]. intros Hu. destruct (new_view conn s Hu Hn) as [Hh Hs]. split.
    + intros c x Hx. cbn in Hx. destruct (Hu c x Hx) as (tc & Htc & Hm). exists tc. cbn.
      rewrite lookup_alter_ne, lookup_insert_ne by (intros ->; congruence). done.
    + apply (move_step reads _ _ conn []); [by rewrite app_nil_r|done| |].
      * becomes ((view conn (MkSnap s rj dn [])) <| v_hist := Some new_history |>); [by apply cv_turned_away|].
        unfold view, hist_in. cbn. by rewrite lookup_alter_eq, lookup_insert_eq.
      * intros d Hd. unfold view, hist_in. cbn. by rewrite lookup_alter_ne, lookup_insert_ne.
  - injection E as <- <-. split; [|done]. apply sim_step; [|done|done]. cbn [sn_server]. intros Hu.
    destruct (new_view conn s Hu Hn) as [Hh Hs]. split.
    + intros c x. cbn. destruct (decide (c = conn)) as [->|]; [|rewrite !lookup_insert_ne by done; apply Hu].
      rewrite !lookup_insert_eq. intros [= <-]. by eexists.
    + apply (move_step reads _ _ conn []); [by rewrite app_nil_r|done| |].
      * becomes ((view conn (MkSnap s rj dn [])) <| v_hist := Some new_history |> <| v_live := Some new_talk |>); [by apply cv_accepted|].
        unfold view, hist_in, live_in. cbn. by rewrite !lookup_insert_eq.
      * intros d Hd. unfold view, hist_in, live_in. cbn. by rewrite !lookup_insert_ne.
Qed.

Lemma sim_close conn s fs s' rj dn :
  is_client conn s = true -> run_event flags (Closes conn) s = (Ok fs, s') ->
  sim reads (MkSnap s rj dn []) (MkSnap s' rj dn []) /\ fs = [].
Proof.
  intros Hc%bool_decide_eq_true_1 E. destruct (g_conns s !! conn) as [tc|] eqn:Htc; [|done]. injection Hc as Hm.
  cbn [run_event] in E. rewrite M_bind_unfold in E. cbn [forceClose on_conn modify] in E. unfold no_frames in E. rewrite M_bind_unfold in E.
  unfold OnClientConnection in E. rewrite M_bind_unfold in E. cbn [get] in E.
  set (s1 := s <| g_conns ::= _ |>) in E.
  assert (connected conn s1 = false) as Ec by (unfold connected; cbn; by rewrite lookup_alter_eq, Htc). rewrite Ec in E.
  assert (exists s2, s' = s2 <| g_namespaces ::= Remove conn |> /\ fs = [] /\ g_sessions s2 = delete conn (g_sessions s) /\
    g_conns s2 = g_conns s1 /\ g_namespaces s2 = g_namespaces s /\ g_writes s2 = g_writes s /\ g_callbacks s2 = g_callbacks s /\
    g_next_callback s2 = g_next_callback s /\ g_calls s2 = g_calls s) as (s2 & -> & -> & E1 & E2 & E3 & E4 & E5 & E6 & E7).
  { rewrite M_bind_unfold in E. destruct (g_sessions s1 !! conn) as [x|] eqn:Hx; injection E as <- <-.
    - exists (s1 <| g_input_bytes := uN 64 (g_input_bytes s1 - UnreadBytes (cs_input x)) |>
        <| g_output_bytes := uN 64 (g_output_bytes s1 - cs_accounted_output x) |> <| g_sessions ::= delete conn |>). by split_and!.
    - exists s1. split_and!; try done. symmetry. by apply delete_id. }
  split; [|done]. apply sim_step; [|done|done]. cbn [sn_server]. intros Hu. split.
  - intros c x. cbn. rewrite E1, E2. intros [Hne Hx]%lookup_delete_Some. cbn. rewrite lookup_alter_ne by done. by apply Hu.
  - apply (move_step reads _ _ conn []); [unfold calls_of; cbn; by rewrite E7, app_nil_r|done| |].
    + becomes ((view conn (MkSnap s rj dn [])) <| v_live := None |> <| v_ns := None |>).
      2:{ unfold view, hist_in, live_in, Remove. cbn. rewrite E1, E2, E3, E4, E5. cbn. rewrite lookup_alter_eq, lookup_delete_eq, Htc. f_equal.
          symmetry. apply lookup_delete_eq. }
      apply cv_closed. unfold view, hist_in. cbn. rewrite Htc, Hm. by eexists.
    + intros d Hd. unfold view, hist_in, live_in, Remove. cbn. rewrite E1, E2, E3, E4, E5. cbn.
      rewrite lookup_alter_ne, lookup_delete_ne by done. f_equal. by apply lookup_delete_ne.
Qed.

(** * The metrics endpoint *)

Definition scraping (conn : bytes) (s s' : Server) : Prop := is_scraper conn s = true -> quiet s s' /\ is_scraper conn s' = true.
#[local] Instance scraping_preorder conn : PreOrder (scraping conn).
Proof.
  split; [by intros s Hs|]. intros s1 s2 s3 H1 H2 Hs. destruct (H1 Hs) as [Q1 Hs1]. destruct (H2 Hs1) as [Q2 Hs2]. split; [by etrans|done].
Qed.

Lemma scraping_conn conn f : (forall tc, tc_metrics (f tc) = tc_metrics tc) -> evolves (scraping conn) (on_conn conn f).
Proof.
  intros Hf. apply evolves_modify. intros s Hs. apply bool_decide_eq_true_1 in Hs. destruct (g_conns s !! conn) as [tc|] eqn:Htc; [|done].
  injection Hs as Hm. split; [|apply bool_decide_eq_true_2; cbn; by rewrite lookup_alter_eq, Htc; cbn; rewrite Hf, Hm].
  split; cbn; try done.
  - intros c. unfold hist_in. cbn. destruct (decide (c = conn)) as [->|]; [|by rewrite lookup_alter_ne].
    rewrite lookup_alter_eq, Htc. cbn. by rewrite Hf, Hm.
  - intros Hu c x Hx. cbn in Hx. destruct (Hu c x Hx) as (tc' & Htc' & Hm' & Hc). exists tc'. cbn.
    rewrite lookup_alter_ne by (intros ->; congruence). done.
Qed.
Lemma scraping_others conn (f : Server -> Server) :
  (forall s, g_sessions (f s) = g_sessions s /\ g_conns (f s) = g_conns s /\ g_namespaces (f s) = g_namespaces s /\
     g_writes (f s) = g_writes s /\ g_callbacks (f s) = g_callbacks s /\ g_next_callback (f s) = g_next_callback s /\
     g_calls (f s) = g_calls s) -> evolves (scraping conn) (modify f).
Proof.
  intros Hf. pose proof (quiet_others f Hf) as Q. intros s Hs. split; [apply Q|]. cbn. unfold is_scraper. by rewrite (proj1 (proj2 (Hf s))).
Qed.
#[local] Hint Extern 1 (evolves (scraping _) (on_conn _ _)) => apply scraping_conn; intros ?; reflexivity : server.
#[local] Hint Extern 1 (evolves (scraping _) (modify _)) => apply scraping_others; intros ?; repeat split; reflexivity : server.

Lemma OnMetricsConnection_quiet conn : evolves (scraping conn) (OnMetricsConnection conn).
Proof. ev. Qed.
Lemma OnMetricsMessage_quiet conn buffer : evolves (scraping conn) (OnMetricsMessage conn buffer).
Proof. unfold OnMetricsMessage, ReplyMetrics, conn_send. ev. Qed.
Lemma forceClose_scraping conn : evolves (scraping conn) (forceClose conn).
Proof. ev. Qed.

Lemma accept_metrics conn s : is_new conn s = true -> quiet s (accept conn true s).2 /\ is_scraper conn (accept conn true s).2 = true.
Proof.
  intros Hn. split; [|apply bool_decide_eq_true_2; cbn; by rewrite lookup_insert_eq].
  pose proof Hn as Hn'. apply bool_decide_eq_true_1 in Hn. split; cbn; try done.
  - intros c. unfold hist_in. cbn. destruct (decide (c = conn)) as [->|]; [|by rewrite lookup_insert_ne]. by rewrite lookup_insert_eq, Hn.
  - intros Hu c x Hx. cbn in Hx. destruct (Hu c x Hx) as (tc & Htc & Hm). exists tc. cbn.
    rewrite lookup_insert_ne by (intros ->; congruence). done.
Qed.

(** A quiet event. *)
Lemma quiet_event (m : M Server unit) s fs s' rj dn :
  quiet s (m s).2 -> no_frames m s = (Ok fs, s') -> sim reads (MkSnap s rj dn []) (MkSnap s' rj dn []) /\ fs = [].
Proof.
  intros Q E. unfold no_frames in E. rewrite M_bind_unfold in E. destruct (m s) as [[]]; [|done]. injection E as <- <-.
  split; [by apply sim_quiet|done].
Qed.

Lemma sim_event e s fs s' rj dn :
  base s -> enabled e s = true -> run_event flags e s = (Ok fs, s') ->
  sim reads (MkSnap s rj dn []) (MkSnap s' rj dn []) /\ frames_ok s' fs /\ owes_nothing fs.
Proof.
  intros Hb He E. assert (sim reads (MkSnap s rj dn []) (MkSnap s' rj dn []) /\ fs = [] ->
    sim reads (MkSnap s rj dn []) (MkSnap s' rj dn []) /\ frames_ok s' fs /\ owes_nothing fs) as Hnil.
  { intros [Hs ->]. split; [done|]. split; [by intros owners []%elem_of_nil|done]. }
  destruct e as [conn|conn|conn buffer|conn n|conn| |token|conn|conn|conn buffer|]; cbn [enabled] in He.
  - by apply Hnil, (sim_accept conn).
  - by apply Hnil, (sim_close conn).
  - by apply (sim_message conn buffer).
  - apply Hnil. revert E. apply quiet_event. by apply quiet_conn.
  - apply Hnil. revert E. apply quiet_event. assert (evolves quiet (OnWriteComplete conn)) as Q; [|apply Q].
    pose proof (AccountOutput_quiet conn). unfold OnWriteComplete. walk.
  - cbn [run_event] in E. rewrite M_bind_unfold in E. cbn [get] in E. destruct (g_tasks s) as [|t rest]; [by apply Hnil; injection E as <- <-|].
    rewrite M_bind_unfold in E. cbn [modify] in E. set (s1 := s <| g_tasks := rest |>) in E.
    assert (quiet s s1) as Q by exact (quiet_others (fun s => s <| g_tasks := rest |>) ltac:(by intros) s).
    destruct (sim_task t s1 fs s' rj dn (quiet_base _ _ Q Hb) E) as (Hs & Hf & Ho). split; [|done]. etrans; [by apply sim_quiet|done].
  - apply Hnil. cbn [run_event] in E. rewrite M_bind_unfold in E. cbn [modify] in E. split; [|by injection E as <- <-].
    apply sim_quiet. injection E as <- <-. by split.
  - apply Hnil. cbn [run_event] in E. rewrite M_bind_unfold in E. destruct (accept_metrics conn s He) as [Q1 Hsc].
    destruct (accept conn true s) as [[[]|] s1]; [|done]. cbn in Q1, Hsc. apply (quiet_event _ _ _ _ rj dn) in E as [Hs ->].
    + split; [|done]. etrans; [by apply sim_quiet|done].
    + by apply OnMetricsConnection_quiet.
  - apply Hnil. cbn [run_event] in E. rewrite M_bind_unfold in E. destruct (forceClose_scraping conn s He) as [Q1 Hsc].
    destruct (forceClose conn s) as [[[]|] s1]; [|done]. cbn in Q1, Hsc. apply (quiet_event _ _ _ _ rj dn) in E as [Hs ->].
    + split; [|done]. etrans; [by apply sim_quiet|done].
    + by apply OnMetricsConnection_quiet.
  - apply Hnil. revert E. apply quiet_event. by apply OnMetricsMessage_quiet.
  - injection E as <- <-. split; [done|]. split; [by intros owners Hin%list_elem_of_singleton|done].
Qed.

(** * Steps of the thread *)

(** What a function can return. *)
Definition returns (P : list frame -> Prop) (m : M Server (list frame)) : Prop := forall s fs s', m s = (Ok fs, s') -> P fs.
Lemma returns_ret (P : list frame -> Prop) fs : P fs -> returns P (mret fs).
Proof. intros HP s fs' s' [= <- <-]. done. Qed.
Lemma returns_bind {A} P (m : M Server A) f : (forall a, returns P (f a)) -> returns P (m ≫= f).
Proof. intros Hf s fs s' E. rewrite M_bind_unfold in E. destruct (m s) as [[a|] s1]; [|done]. by eapply Hf. Qed.

Definition no_batch (fs : list frame) : Prop := Forall (fun f => match f with Proposing _ => False | _ => True end) fs.
Ltac returning :=
  autounfold with server_ops server_entries; cbv zeta;
  repeat first [ apply returns_ret; by repeat constructor | apply returns_bind; intros ?; cbv zeta
               | match goal with |- returns _ (match ?x with _ => _ end) => destruct x end ].

Lemma run_frame_no_batch f : returns no_batch (run_frame flags reads f).
Proof. destruct f; returning. Qed.
Lemma run_callback_no_batch k ok text : returns no_batch (run_callback k ok text).
Proof. destruct k; returning. Qed.
Lemma OnProposed_no_batch index owners : returns no_batch (OnProposed index owners).
Proof. returning. Qed.

Lemma frames_more s s' fs stack :
  cb_evolve s s' -> no_batch fs -> frames_ok s stack -> frames_ok s' (fs ++ stack).
Proof.
  intros He Hn Hf owners [Hin|Hin]%elem_of_app; [|by eapply owners_evolve, Hf].
  unfold no_batch in Hn. rewrite Forall_forall in Hn. by specialize (Hn _ Hin).
Qed.

Definition snap (s : Server) (stack : list frame) : Snap := MkSnap s (rejects stack) (dones stack) [].

Lemma live_view s stack c x :
  g_sessions s !! c = Some x -> cs_closing x = false ->
  v_live (view c (snap s stack)) = Some (MkTalk (cs_input x) (cs_queue x) (cs_executing x)).
Proof. intros Hx Hc. unfold view, live_in. cbn. by rewrite Hx, Hc. Qed.

Lemma snap_app s fs stack : snap s (fs ++ stack) = MkSnap s (rejects fs ++ rejects stack) (dones fs ++ dones stack) [].
Proof. unfold snap. by rewrite rejects_app, dones_app. Qed.

Lemma sim_frame f s fs s' stack :
  base s -> in_node f = false -> run_frame flags reads f s = (Ok fs, s') -> sim reads (snap s (f :: stack)) (snap s' (fs ++ stack)).
Proof.
  intros Hb Hn E. rewrite snap_app. destruct f as [conn|conn| |index owners| | |]; try done; cbn [run_frame] in E.
  - by apply (sim_execute conn).
  - by apply (sim_complete conn).
  - by apply (sim_reject index owners).
  - unfold no_frames in E. apply quiet_frames in E as [-> Q]; [|apply ScheduleFlush_quiet]. by apply sim_quiet.
Qed.

Lemma sim_machine l s stack s' stack' :
  base s -> frames_ok s stack -> machine_step flags reads l s stack = Some (Ok stack', s') ->
  sim reads (snap s stack) (snap s' stack') /\ frames_ok s' stack'.
Proof.
  intros Hb Hf Hl.
  assert (forall fs rest, stack' = fs ++ rest -> no_batch fs -> frames_ok s rest -> sim reads (snap s stack) (snap s' stack') ->
    sim reads (snap s stack) (snap s' stack') /\ frames_ok s' stack') as Hmore.
  { intros fs rest -> Hn Hr Hs. split; [done|]. destruct (Hs Hb) as (_ & He & _). by apply (frames_more s). }
  assert (forall f rest, stack = f :: rest -> frames_ok s rest) as Htail by (intros f rest -> owners Hin; apply Hf; by right).
  destruct l as [|cb ok text|index|e], stack as [|f stack]; cbn [machine_step] in Hl; try done.
  - destruct (in_node f) eqn:Hn; [done|]. injection Hl as (fs & E & ->)%run_more.
    apply (Hmore fs stack); [done|by eapply run_frame_no_batch|by eapply Htail|by apply sim_frame].
  - destruct (in_node f); [|done]. destruct (g_callbacks s !! cb) as [k|] eqn:Hk; [|done]. injection Hl as (fs & E & ->)%run_more.
    apply (Hmore fs (f :: stack)); [done|by eapply run_callback_no_batch|done|]. rewrite snap_app. by apply (sim_callback cb k ok text).
  - destruct f as [ | |owners| | | |]; try done.
    + destruct (may_return index owners s) eqn:Hr; [|done]. injection Hl as (fs & E & ->)%run_more.
      apply (Hmore fs stack); [done|by eapply OnProposed_no_batch|by eapply Htail|]. rewrite snap_app.
      apply (sim_proposed index owners); [done|apply Hf; by left|done|done].
    + injection Hl as <- <-. apply (Hmore [] stack); [done|constructor|by eapply Htail|done].
    + injection Hl as <- <-. apply (Hmore [] stack); [done|constructor|by eapply Htail|done].
  - destruct (enabled e s) eqn:He; [|done]. injection Hl as E.
    destruct (sim_event e s stack' s' [] [] Hb He E) as (Hs & Hfr & Er & Ed). unfold snap. rewrite Er, Ed. done.
Qed.
End Simulation.

(** * Every conversation, always *)

Lemma server_converses `{RocksDB} flags reads s stack :
  server_reachable flags reads s stack -> base s /\ frames_ok s stack /\ conv_all reads (snap s stack).
Proof.
  induction 1 as [|step l s stack s' stack' _ (Hb & Hf & Hc) Hl].
  - split; [by split|]. split; [by intros owners []%elem_of_nil|]. intros c. exact (conj eq_refl (conj eq_refl eq_refl)).
  - destruct (sim_machine flags reads l s stack s' stack' Hb Hf Hl) as [Hs Hf']. destruct (Hs Hb) as (Hb' & _ & Hr).
    split; [done|]. split; [done|]. by eapply conv_steps_all.
Qed.
