(* ===== verification/ServerWrites.v ===== *)
(** The clients' writes on their way to the node: what is queued and proposed is valid,
    and what is queued is flushed. *)
From stdpp Require Import base numbers strings gmap list.
From S2P Require Import Prelude Effects Text Resp Command Session Namespace Metrics Prometheus Policies.
From S2P Require Import Storage RaftLog KVStore KVStateMachine KVReplay Peers Config RaftState RaftNode.
From S2P Require Import Server ServerAccounting Conversation ServerConversation.

(** * Batches *)

Definition command_ok (command : bytes) : Prop := valid_command command = true /\ #command <= kMaxCommandBytes.

(** Nothing in the batch itself makes [ProposeBatch] refuse it. *)
Definition batch_ok (ps : list Proposal) : Prop :=
  ps <> [] /\ (length ps <= kMaxBatchEntries)%nat /\ Forall (fun p => valid_command (pr_command p) = true) ps /\
  exists total, admit_bytes ps 0 = Some total /\ total <= kMaxBatchBytes - 128 - #ps * 64.

Record writes_valid (s : Server) : Prop := {
  wv_names : names_ok (g_namespaces s);
  wv_queue : Forall (fun w => command_ok (qw_command w)) (g_writes s);
  wv_calls : forall ps, Proposes ps ∈ g_calls s -> batch_ok ps;
}.

Definition proposal_bytes (ps : list Proposal) : Z := foldr (fun p n => #(pr_command p) + n) 0 ps.

Lemma proposal_bytes_app ps qs : proposal_bytes (ps ++ qs) = proposal_bytes ps + proposal_bytes qs.
Proof. unfold proposal_bytes. induction ps; cbn [app foldr] in *; lia. Qed.
Lemma proposal_bytes_nonneg ps : 0 <= proposal_bytes ps.
Proof. unfold proposal_bytes. induction ps; cbn [foldr]; lia. Qed.

Lemma admit_bytes_total ps n :
  Forall (fun p => #(pr_command p) <= kMaxCommandBytes) ps -> n + proposal_bytes ps <= kMaxPendingBytes ->
  admit_bytes ps n = Some (n + proposal_bytes ps).
Proof.
  intros Hp. revert n. induction Hp as [|p ps Hc _ IH]; intros n Hn; cbn [admit_bytes]; [f_equal; cbn; lia|].
  change (proposal_bytes (p :: ps)) with (#(pr_command p) + proposal_bytes ps) in *. pose proof (proposal_bytes_nonneg ps).
  destruct (Z.ltb_spec kMaxCommandBytes #(pr_command p)); [lia|]. destruct (Z.ltb_spec (kMaxPendingBytes - n) #(pr_command p)); [lia|].
  cbn [orb]. rewrite IH by lia. f_equal. lia.
Qed.

Lemma admitted_total ps n total : admit_bytes ps n = Some total -> total = n + proposal_bytes ps.
Proof.
  revert n. induction ps as [|p ps IH]; intros n; cbn [admit_bytes]; [intros [= ->]; cbn; lia|]. destruct (_ || _); [done|].
  intros ->%IH. change (proposal_bytes (p :: ps)) with (#(pr_command p) + proposal_bytes ps). lia.
Qed.

Lemma batch_ok_of ps :
  ps <> [] -> (length ps <= Z.to_nat flush_kMaxEntries)%nat -> Forall (fun p => command_ok (pr_command p)) ps ->
  proposal_bytes ps <= flush_kMaxBytes -> batch_ok ps.
Proof.
  intros Hne Hlen Hok Hb. change (Z.to_nat flush_kMaxEntries) with 128%nat in Hlen. unfold flush_kMaxBytes in Hb.
  split; [done|]. split; [done|]. split; [eapply Forall_impl; [done|]; by intros p []|].
  exists (proposal_bytes ps). split.
  - rewrite admit_bytes_total; [done| |unfold kMaxPendingBytes; lia]. eapply Forall_impl; [done|]. by intros p [].
  - unfold kMaxBatchBytes. lia.
Qed.

Section Keeps.
Context `{RocksDB} {step : StepEnv} (flags : Flags) (reads : ReadFlags).

Lemma valid_others (f : Server -> Server) :
  (forall s, g_namespaces (f s) = g_namespaces s /\ g_writes (f s) = g_writes s /\
    (g_calls (f s) = g_calls s \/ exists c, g_calls (f s) = g_calls s ++ [c] /\ forall ps, c <> Proposes ps)) ->
  evolves (keeps writes_valid) (modify f).
Proof.
  intros Hf. apply evolves_modify. intros s [H1 H2 H3]. destruct (Hf s) as (E1 & E2 & E3).
  split; rewrite ?E1, ?E2; try done. destruct E3 as [->|(c & -> & Hc)]; [done|].
  intros ps [Hin|Hin%list_elem_of_singleton]%elem_of_app; [by apply H3|]. by destruct (Hc ps).
Qed.
Lemma valid_policy {A} (m : M BatchFlushPolicy A) :
  evolves (keeps writes_valid) (lens g_flush_policy (fun p s => s <| g_flush_policy := p |>) m).
Proof. intros s []. unfold lens. by destruct (m _); split. Qed.
#[local] Hint Resolve valid_policy : server.
#[local] Hint Extern 1 (evolves (keeps writes_valid) (on_session _ _)) =>
  apply valid_others; intros ?; split_and!; [reflexivity..|left; reflexivity] : server.
#[local] Hint Extern 1 (evolves (keeps writes_valid) (on_conn _ _)) =>
  apply valid_others; intros ?; split_and!; [reflexivity..|left; reflexivity] : server.
#[local] Hint Extern 1 (evolves (keeps writes_valid) (modify _)) =>
  apply valid_others; intros ?; split_and!; [reflexivity..|solve [left; reflexivity|right; eexists; split; [reflexivity|done]]] : server.

Lemma AccountOutput_valid conn : evolves (keeps writes_valid) (AccountOutput conn).
Proof. unfold AccountOutput. ev. Qed.
Lemma CloseClient_valid conn : evolves (keeps writes_valid) (CloseClient conn).
Proof. unfold CloseClient. ev. Qed.
Lemma overloaded_valid : evolves (keeps writes_valid) overloaded.
Proof. unfold overloaded. ev. Qed.
#[local] Hint Resolve AccountOutput_valid CloseClient_valid overloaded_valid : server.
Lemma SendReply_valid conn reply : evolves (keeps writes_valid) (SendReply conn reply).
Proof. unfold SendReply, conn_send. ev. Qed.
#[local] Hint Resolve SendReply_valid : server.

Lemma SetNs_valid conn name : IsValidName name = true ->
  evolves (keeps writes_valid) (modify (fun s => s <| g_namespaces ::= SetNs conn name |>)).
Proof. intros Hn. apply evolves_modify. intros s []. split; cbn; try done. by apply map_Forall_insert_2. Qed.
Lemma Remove_valid conn : evolves (keeps writes_valid) (modify (fun s => s <| g_namespaces ::= Remove conn |>)).
Proof. apply evolves_modify. intros s []. split; cbn; try done. by apply map_Forall_delete. Qed.
#[local] Hint Resolve Remove_valid : server.

Lemma execute_read_valid conn args : evolves (keeps writes_valid) (execute_read reads conn args).
Proof.
  unfold execute_read. destruct (bool_decide _); [ev|]. destruct (bool_decide _); [|ev].
  destruct (IsValidName (arg args 1)) eqn:Hn; cbn [negb]; [|ev].
  apply evolves_bind; [exact _|by apply SetNs_valid|intros []; ev].
Qed.
#[local] Hint Resolve execute_read_valid : server.
(** The loop of [FlushQueuedWrites] stays within its budgets. *)
Lemma collect_valid turns ps os total s r s' :
  writes_valid s -> Forall (fun p => command_ok (pr_command p)) ps -> total = proposal_bytes ps -> total <= flush_kMaxBytes ->
  collect_writes turns ps os total s = (r, s') ->
  writes_valid s' /\ forall ps' os', r = Ok (ps', os') ->
    Forall (fun p => command_ok (pr_command p)) ps' /\ proposal_bytes ps' <= flush_kMaxBytes /\ (length ps' <= length ps + turns)%nat.
Proof.
  revert ps os total s. induction turns as [|turns IH]; intros ps os total s Hs Hps -> Hb; cbn [collect_writes].
  { intros [= <- <-]. split; [done|]. intros ps' os' [= <- <-]. split_and!; [done|done|lia]. }
  assert ((Ok (ps, os), s) = (r, s') -> writes_valid s' /\ forall ps' os', r = Ok (ps', os') ->
    Forall (fun p => command_ok (pr_command p)) ps' /\ proposal_bytes ps' <= flush_kMaxBytes /\ (length ps' <= length ps + S turns)%nat) as Hstop.
  { intros [= <- <-]. split; [done|]. intros ps' os' [= <- <-]. split_and!; [done|done|lia]. }
  rewrite M_bind_unfold. cbn [get]. destruct (g_writes s) as [|w rest] eqn:Ew; [done|].
  destruct (negb _ && _) eqn:Efull; [done|]. clear Hstop. rewrite M_bind_unfold. cbn [modify].
  pose proof (wv_queue s Hs) as Hq. rewrite Ew in Hq. apply Forall_cons in Hq as [Hw Hrest].
  match goal with |- (if _ then _ else _) ?x = _ -> _ => set (s1 := x) end.
  assert (writes_valid s1) as Hs1 by (destruct Hs; by split).
  assert (proposal_bytes (ps ++ [MkProposal (qw_command w) (Some (g_next_callback s1))]) <= flush_kMaxBytes) as Hsum.
  { rewrite proposal_bytes_app. change (proposal_bytes [MkProposal (qw_command w) _]) with (#(qw_command w) + 0).
    pose proof (proposal_bytes_nonneg ps). apply andb_false_iff in Efull as [He%negb_false_iff%bool_decide_eq_true_1|He%Z.ltb_ge].
    - subst ps. destruct Hw as [_ Hw]. unfold kMaxCommandBytes, flush_kMaxBytes in *. cbn. lia.
    - unfold flush_kMaxBytes in *. rewrite uN_small in He by lia. lia. }
  destruct (negb (deliverable _ _)).
  { intros E. destruct (IH ps os _ s1 Hs1 Hps eq_refl Hb E) as [H1 H2]. split; [done|].
    intros ps' os' Er. destruct (H2 ps' os' Er) as (? & ? & ?). split_and!; [done|done|lia]. }
  run. unfold register. run. intros E. eapply IH in E; [|by destruct Hs1; split| | |].
  - destruct E as [H1 H2]. split; [done|]. intros ps' os' Er. destruct (H2 ps' os' Er) as (? & ? & Hl).
    rewrite length_app in Hl. cbn in Hl. split_and!; [done|done|lia].
  - apply Forall_app. split; [done|]. by apply Forall_singleton.
  - rewrite proposal_bytes_app. cbn. lia.
  - rewrite proposal_bytes_app in Hsum. cbn in Hsum. lia.
Qed.

Lemma FlushQueuedWrites_valid : evolves (keeps writes_valid) FlushQueuedWrites.
Proof.
  intros s Hs. unfold FlushQueuedWrites. rewrite M_bind_unfold.
  destruct (collect_writes _ [] [] 0 s) as [r s1] eqn:Ec.
  apply collect_valid in Ec as [Hs1 Hr]; [|done|by apply Forall_nil_2|done|unfold flush_kMaxBytes; lia].
  destruct r as [[ps os]|e]; [|done]. destruct (Hr ps os eq_refl) as (Hp & Hb & Hl).
  destruct (bool_decide_reflect (ps = [])) as [|Hne]; [done|]. cbn. destruct Hs1 as [H1 H2 H3]. split; cbn; [done|done|].
  intros qs [Hin|[= ->]%list_elem_of_singleton]%elem_of_app; [by apply H3|]. by apply batch_ok_of.
Qed.
#[local] Hint Resolve FlushQueuedWrites_valid : server.

Lemma SubmitWrite_valid conn args :
  cc_type (ClassifyCommand args) = WRITE -> #args <= kMaxArguments -> evolves (keeps writes_valid) (SubmitWrite flags conn args).
Proof.
  intros Hw Hn s Hs. unfold SubmitWrite. rewrite M_bind_unfold. cbn [get]. cbv zeta. set (command := SerializeCommand _).
  assert (forall m : M Server (list frame), evolves (keeps writes_valid) m -> writes_valid (m s).2) as Hev by (intros m Hm; by apply Hm).
  destruct (Z.ltb_spec kMaxCommandBytes #command) as [|Hc]; [apply Hev; ev|].
  destruct (negb _); [apply Hev; ev|]. destruct (_ || _) eqn:Ef; [apply Hev; ev|]. rewrite M_bind_unfold. cbn [modify].
  match goal with |- writes_valid (?m ?x).2 => assert (evolves (keeps writes_valid) m) as Hev2 by ev; apply Hev2 end.
  destruct Hs as [H1 H2 H3]. split; cbn; [done| |done]. apply Forall_app. split; [done|]. apply Forall_singleton. cbn.
  split; [|done]. by apply (submitted_write conn (g_namespaces s) args).
Qed.

(** What a session's queue gives [ExecuteNextCommand]. *)
Definition next_ok (conn : bytes) (s : Server) : Prop :=
  forall cmd q, cs_closing (session_of conn s) = false -> PopFront (cs_queue (session_of conn s)) = Some (cmd, q) ->
    qc_type cmd = WRITE -> cc_type (ClassifyCommand (qc_args cmd)) = WRITE /\ #(qc_args cmd) <= kMaxArguments.

Lemma ExecuteNext_valid conn s : next_ok conn s -> writes_valid s -> writes_valid (ExecuteNextCommand flags reads conn s).2.
Proof.
  intros Hn Hs. unfold ExecuteNextCommand. rewrite M_bind_unfold. cbn [get]. cbv zeta.
  assert (forall m : M Server (list frame), evolves (keeps writes_valid) m -> writes_valid (m s).2) as Hev by (intros m Hm; by apply Hm).
  destruct (_ || negb _) eqn:Eg; [done|]. apply orb_false_iff in Eg as [[_ Hcl]%orb_false_iff _].
  destruct (PopFront _) as [[cmd q]|] eqn:Ep; [|apply Hev; ev]. specialize (Hn cmd q Hcl Ep).
  apply Hev. apply evolves_bind; [exact _|by auto with server nocore|intros []].
  apply evolves_bind; [exact _|by auto with server nocore|intros []].
  destruct (qc_type cmd) eqn:Et; [by apply execute_read_valid|by apply SubmitWrite_valid; apply Hn|ev].
Qed.

#[local] Hint Unfold DrainClient OnClientMessage OnClientConnection accept conn_send : server_ops.
Lemma callback_valid k ok text : evolves (keeps writes_valid) (run_callback k ok text).
Proof. destruct k; ev_ops. Qed.
Lemma proposed_valid index owners : evolves (keeps writes_valid) (OnProposed index owners).
Proof. ev_ops. Qed.
Lemma run_task_valid t : evolves (keeps writes_valid) (run_task t).
Proof. destruct t; cbn [run_task]; [walk|ev_ops]. Qed.
#[local] Hint Resolve run_task_valid : server.
Lemma event_valid e : evolves (keeps writes_valid) (run_event flags e).
Proof. destruct e; cbn [run_event]; try (by walk); ev_ops. Qed.
Lemma frame_valid f s :
  (forall conn, f = ExecuteNext conn -> next_ok conn s) -> writes_valid s -> writes_valid (run_frame flags reads f s).2.
Proof.
  intros Hn Hs. destruct f as [conn|conn| |index owners| | |]; cbn [run_frame]; try done.
  - by apply ExecuteNext_valid; [apply Hn|].
  - assert (evolves (keeps writes_valid) (OnCommandComplete conn)) as Hev by ev_ops. by apply Hev.
  - assert (evolves (keeps writes_valid) (reject_owner index owners)) as Hev by ev_ops. by apply Hev.
  - assert (evolves (keeps writes_valid) (no_frames (ScheduleFlush flags))) as Hev by ev_ops. by apply Hev.
Qed.
End Keeps.

Lemma parses_arguments raw cmds rest : parses raw cmds rest -> Forall (fun c => 1 <= #c.1 <= kMaxArguments) cmds.
Proof. induction 1 as [|s cmds s' Hc _ IH]; [done|]. constructor; [|done]. by destruct (TryParseOne_complete s Hc) as (_ & _ & Ha & _). Qed.

Lemma queued_shape cmd c : admitted c cmd -> 1 <= #c.1 <= kMaxArguments ->
  qc_type cmd = cc_type (ClassifyCommand (qc_args cmd)) /\ #(qc_args cmd) <= kMaxArguments.
Proof.
  intros [t ->] Hc. unfold queued_command. cbn [qc_type qc_args]. split; [done|]. destruct c.1 as [|x l]; cbn in *; [lia|]. lia.
Qed.

Lemma next_ok_of `{RocksDB} reads conn s stack : conv_all reads (snap s stack) -> next_ok conn s.
Proof.
  intros Hc cmd q Hcl Hp Ht. specialize (Hc conn). unfold conv_inv, session_of in *.
  destruct (g_sessions s !! conn) as [x|] eqn:Es; [|done]. cbn in Hcl, Hp.
  rewrite (live_view s stack conn x Es Hcl) in Hc. destruct (v_hist _) as [h|]; [|done]. destruct (lo_parse _ _ _ _ _ _ _ Hc) as (cmds & Hps & Hf). cbn [tk_queue] in Hf.
  unfold PopFront in Hp. destruct (items (cs_queue x)) as [|c0 more]; [done|]. injection Hp as -> _.
  apply Forall2_app_inv_r in Hf as (l1 & l2 & _ & Hf2 & ->).
  apply Forall2_cons_inv_r in Hf2 as (c & l2' & Ha & _ & ->).
  apply parses_arguments, Forall_app in Hps as [_ Hps]. apply Forall_cons in Hps as [Hps _].
  destruct (queued_shape cmd c Ha Hps) as [E Hn]. split; [congruence|done].
Qed.

Lemma writes_valid_step `{RocksDB} flags reads (env : StepEnv) l s stack r s' :
  conv_all reads (snap s stack) -> writes_valid s -> machine_step flags reads l s stack = Some (r, s') -> writes_valid s'.
Proof.
  intros Hc Hs Hl.
  destruct l as [|cb ok text|index|e], stack as [|f stack]; cbn [machine_step] in Hl; try done.
  - destruct (in_node f); [done|]. injection Hl as ->%run_more_state. apply frame_valid; [|done]. intros conn ->. by eapply next_ok_of.
  - destruct (in_node f); [|done]. destruct (g_callbacks s !! cb) as [k|]; [|done]. injection Hl as ->%run_more_state.
    apply callback_valid. destruct Hs as [H1 H2 H3]. split; cbn; [done|done|].
    intros ps [Hin|Hin%list_elem_of_singleton]%elem_of_app; [by apply H3|done].
  - destruct f; simplify_eq/=; [|done|done]. destruct (may_return _ _ _); [|done]. injection Hl as ->%run_more_state. by apply proposed_valid.
  - destruct (enabled e s); [|done]. injection Hl as E. assert (s' = (run_event flags e s).2) as -> by by rewrite E. by apply event_valid.
Qed.

Lemma reachable_valid `{RocksDB} flags reads s stack : server_reachable flags reads s stack -> writes_valid s.
Proof.
  induction 1 as [|env l s stack s' stack' Hr IH Hl]; [by split; [apply map_Forall_empty|apply Forall_nil_2|intros ps Hin; apply elem_of_nil in Hin]|].
  eapply writes_valid_step, Hl; [|done]. by apply (server_converses flags reads s stack).
Qed.
