(* ===== verification/ServerFlush.v ===== *)
(** Queued writes are flushed: while writes wait, a flush is scheduled, and it takes
    writes off the queue. *)
From stdpp Require Import base numbers strings gmap list.
From S2P Require Import Prelude Effects Text Resp Command Session Namespace Metrics Prometheus Policies.
From S2P Require Import Storage RaftLog KVStore KVStateMachine KVReplay Peers Config RaftState RaftNode.
From S2P Require Import Server ServerAccounting.

(** The token that the policy waits for is on its way; [scheduling] says that
    [ScheduleFlush] is about to run. *)
Definition on_its_way (t : Z) (s : Server) : Prop := FlushTask t ∈ g_tasks s \/ t ∈ g_timers s.
Record flush_live (scheduling : Prop) (s : Server) : Prop := {
  fl_token t : flush_token (g_flush_policy s) = Some t -> on_its_way t s;
  fl_writes : g_writes s <> [] -> is_Some (flush_token (g_flush_policy s)) \/ scheduling;
}.

(** Most functions have no part in it. *)
Record calm (s s' : Server) : Prop := {
  ca_policy : g_flush_policy s' = g_flush_policy s;
  ca_timers : g_timers s' = g_timers s;
  ca_writes : g_writes s' = g_writes s;
  ca_tasks t : t ∈ g_tasks s -> t ∈ g_tasks s';
}.
#[export] Instance calm_preorder : PreOrder calm.
Proof. split; [by intros s; split|]. intros s1 s2 s3 [] []. split; [congruence..|auto]. Qed.

Lemma calm_way t s s' : calm s s' -> on_its_way t s -> on_its_way t s'.
Proof. intros [_ E _ Ht] [Hin|Hin]; [left; by apply Ht|right; by rewrite E]. Qed.
Lemma calm_live sch s s' : calm s s' -> flush_live sch s -> flush_live sch s'.
Proof.
  intros Hc [H1 H2]. split; rewrite (ca_policy _ _ Hc); [intros t Ht; eapply calm_way; [done|by apply H1]|].
  by rewrite (ca_writes _ _ Hc).
Qed.
Lemma calm_run {A} (m : M Server A) sch s r s' : evolves calm m -> m s = (r, s') -> flush_live sch s -> flush_live sch s'.
Proof. intros Hm E. apply calm_live. by eapply evolves_run. Qed.
Lemma live_impl (P Q : Prop) s : (P -> Q) -> flush_live P s -> flush_live Q s.
Proof. intros HPQ [H1 H2]. split; [done|]. intros Hw. destruct (H2 Hw); auto. Qed.

Section Calm.
Context `{RocksDB} {step : StepEnv} (flags : Flags) (reads : ReadFlags).

Lemma calm_others (f : Server -> Server) :
  (forall s, g_flush_policy (f s) = g_flush_policy s /\ g_timers (f s) = g_timers s /\ g_writes (f s) = g_writes s /\
    g_tasks (f s) = g_tasks s) -> evolves calm (modify f).
Proof. intros Hf. apply evolves_modify. intros s. destruct (Hf s) as (? & ? & ? & E). split; [done..|]. by rewrite E. Qed.
Lemma calm_queue t : evolves calm (queueInLoop t).
Proof. apply evolves_modify. intros s. split; cbn; [done..|]. intros u Hu. apply elem_of_app. by left. Qed.
#[local] Hint Extern 1 (evolves calm (on_session _ _)) => apply calm_others; intros ?; split_and!; reflexivity : server.
#[local] Hint Extern 1 (evolves calm (on_conn _ _)) => apply calm_others; intros ?; split_and!; reflexivity : server.
#[local] Hint Extern 1 (evolves calm (modify _)) => apply calm_others; intros ?; split_and!; reflexivity : server.
#[local] Hint Resolve calm_queue : server.

Lemma AccountOutput_calm conn : evolves calm (AccountOutput conn).
Proof. unfold AccountOutput. ev. Qed.
Lemma CloseClient_calm conn : evolves calm (CloseClient conn).
Proof. unfold CloseClient. ev. Qed.
Lemma overloaded_calm : evolves calm overloaded.
Proof. unfold overloaded. ev. Qed.
#[local] Hint Resolve AccountOutput_calm CloseClient_calm overloaded_calm : server.
Lemma conn_send_calm conn reply : evolves calm (conn_send conn reply).
Proof. unfold conn_send. ev. Qed.
#[local] Hint Resolve conn_send_calm : server.
Lemma SendReply_calm conn reply : evolves calm (SendReply conn reply).
Proof. unfold SendReply. ev. Qed.
#[local] Hint Resolve SendReply_calm : server.
Lemma ScheduleDrain_calm conn : evolves calm (ScheduleDrain conn).
Proof. unfold ScheduleDrain. walk. Qed.
#[local] Hint Resolve ScheduleDrain_calm : server.
Lemma execute_read_calm conn args : evolves calm (execute_read reads conn args).
Proof. ev. Qed.
Lemma reject_owner_calm index owners : evolves calm (reject_owner index owners).
Proof. ev. Qed.
Lemma OnProposed_calm index owners : evolves calm (OnProposed index owners).
Proof. ev. Qed.
Lemma OnCommandComplete_calm conn : evolves calm (OnCommandComplete conn).
Proof. ev. Qed.
Lemma run_callback_calm k ok text : evolves calm (run_callback k ok text).
Proof. destruct k; ev. Qed.
Lemma DrainClient_calm conn : evolves calm (DrainClient conn).
Proof. unfold DrainClient, stopRead, shutdown. walk. Qed.
#[local] Hint Resolve DrainClient_calm : server.
Lemma OnClientMessage_calm conn buffer : evolves calm (OnClientMessage conn buffer).
Proof. unfold OnClientMessage, forceClose. walk. Qed.
Lemma other_events_calm e : match e with RunsTask | Fires _ => False | _ => True end -> evolves calm (run_event flags e).
Proof.
  destruct e as [| |conn buffer| | | | | | | |]; try done; intros _; cbn [run_event];
    [| |apply OnClientMessage_calm|..]; unfold accept, OnClientConnection; ev_ops.
Qed.

(** [ScheduleFlush] leaves a flush on its way if there are writes. *)
Lemma cancel_timer_eq s : exists timers cancelled timer promoted,
  cancel_timer s = (Ok tt, s <| g_timers := timers |> <| g_cancelled := cancelled |> <| g_flush_timer := timer |> <| g_flush_promoted := promoted |>).
Proof.
  unfold cancel_timer. rewrite M_bind_unfold. cbn [get].
  destruct (g_flush_timer s) as [t|] eqn:E; eexists _, _, _, _; [reflexivity|].
  cbn. f_equal. by rewrite <- (rebuild_id s) at 1.
Qed.

Lemma flush_token_pending p : bf_pending p <> NoFlush -> flush_token p = Some (bf_generation p).
Proof. intros Hp. unfold flush_token. by rewrite bool_decide_eq_false_2. Qed.

Lemma ScheduleFlush_live sch s s' :
  flush_live sch s -> ScheduleFlush flags s = (Ok tt, s') -> g_writes s' = g_writes s /\ flush_live False s'.
Proof.
  intros [H1 _]. unfold ScheduleFlush. rewrite M_bind_unfold. cbn [get].
  destruct (g_writes s) as [|front rest] eqn:Ew; [intros [= <-]; split; [done|]; by split; [|rewrite Ew]|].
  cbv zeta. unfold lens. rewrite M_bind_unfold.
  destruct (flush_Request _ _ _ (g_flush_policy s)) as [[plan|e] p'] eqn:ER; [|done].
  pose proof ER as Hp. apply flush_Request_pending in Hp; [|cbn; lia].
  apply flush_Request_plan in ER.
  destruct ER as [(Ea & ->)|(Ea & Et)].
  { rewrite Ea. intros [= <-]. split; [done|]. split; cbn; [done|]. intros _. left. rewrite flush_token_pending by done. by eexists. }
  destruct (cancel_timer_eq (s <| g_flush_policy := p' |>)) as (timers & cancelled & timer & promoted & Ec).
  destruct (fp_action plan) eqn:Ep; [congruence| |]; rewrite M_bind_unfold, Ec; cbn; intros [= <-]; cbn; (split; [done|]); split; cbn;
    try (intros _; left; rewrite flush_token_pending by done; by eexists);
    rewrite flush_token_pending by done; intros t [= <-]; rewrite <- Et; [right|left]; cbn; apply elem_of_app; right; by left.
Qed.

Lemma SubmitWrite_live conn args sch s fs s' :
  flush_live sch s -> SubmitWrite flags conn args s = (Ok fs, s') -> flush_live sch s'.
Proof.
  intros Hs. unfold SubmitWrite. rewrite M_bind_unfold. cbn [get]. cbv zeta.
  assert (forall m : M Server (list frame), evolves calm m -> m s = (Ok fs, s') -> flush_live sch s') as Hcalm
    by eauto using calm_run.
  destruct (_ <? _); [apply Hcalm; ev|]. destruct (negb _); [apply Hcalm; ev|]. destruct (_ || _); [apply Hcalm; ev|].
  run. destruct (ScheduleFlush _ _) as [[[]|] s1] eqn:E; [|done]. intros [= _ <-].
  apply (ScheduleFlush_live True) in E as [_ Hl]; [by eapply live_impl, Hl|]. destruct Hs as [H1 _]. split; cbn; [exact H1|by right].
Qed.

Lemma ExecuteNext_live conn sch s fs s' :
  flush_live sch s -> ExecuteNextCommand flags reads conn s = (Ok fs, s') -> flush_live sch s'.
Proof.
  intros Hs. unfold ExecuteNextCommand. rewrite M_bind_unfold. cbn [get]. cbv zeta.
  assert (forall (m : M Server (list frame)) x, evolves calm m -> flush_live sch x -> m x = (Ok fs, s') -> flush_live sch s') as Hcalm
    by eauto using calm_run.
  destruct (_ || negb _); [apply Hcalm; [ev|done]|]. destruct (PopFront _) as [[cmd q]|]; [|apply Hcalm; [walk|done]].
  run. match goal with |- _ ?x = _ -> _ => assert (flush_live sch x) as Hx by by destruct Hs; split end.
  destruct (qc_type cmd); [by apply Hcalm; [apply execute_read_calm|]|by apply SubmitWrite_live|apply Hcalm; [ev|done]].
Qed.

(** A flush takes the first write, and as many as it can. *)
Record taking (s s' : Server) : Prop := {
  tg_policy : g_flush_policy s' = g_flush_policy s;
  tg_timers : g_timers s' = g_timers s;
  tg_tasks : g_tasks s' = g_tasks s;
  tg_writes : g_writes s' `suffix_of` g_writes s;
}.
#[export] Instance taking_preorder : PreOrder taking.
Proof. split; [by intros s; split|]. intros s1 s2 s3 [] []. split; [congruence..|by etrans]. Qed.
Lemma taking_others (f : Server -> Server) :
  (forall s, g_flush_policy (f s) = g_flush_policy s /\ g_timers (f s) = g_timers s /\ g_writes (f s) = g_writes s /\
    g_tasks (f s) = g_tasks s) -> evolves taking (modify f).
Proof. intros Hf. apply evolves_modify. intros s. destruct (Hf s) as (? & ? & E & ?). split; [done..|]. by rewrite E. Qed.
#[local] Hint Extern 1 (evolves taking (modify _)) => apply taking_others; intros ?; split_and!; reflexivity : server.

Lemma collect_taking turns ps os total : evolves taking (collect_writes turns ps os total).
Proof.
  revert ps os total. induction turns as [|turns IH]; intros ps os total; cbn [collect_writes]; [walk|].
  intros s. rewrite M_bind_unfold. cbn [get]. destruct (g_writes s) as [|w rest] eqn:Ew; [done|]. destruct (_ && _); [done|].
  rewrite M_bind_unfold. cbn [modify]. etrans; [|match goal with |- taking _ (?m _).2 => assert (evolves taking m) as Hev; [|apply Hev] end].
  - split; cbn; [done..|]. rewrite Ew. by apply suffix_cons_r.
  - unfold register. walk.
Qed.

Lemma collect_ok turns ps os total s : exists ps' os' s', collect_writes turns ps os total s = (Ok (ps', os'), s').
Proof.
  revert ps os total s. induction turns as [|turns IH]; intros ps os total s; cbn [collect_writes]; [eauto|].
  rewrite M_bind_unfold. cbn [get]. destruct (g_writes s); [eauto|]. destruct (_ && _); [eauto|].
  rewrite M_bind_unfold. cbn [modify]. destruct (negb _); [apply IH|]. run. unfold register. run. apply IH.
Qed.
Lemma collect_front turns ps os total s w rest r s' :
  g_writes s = w :: rest -> ps = [] -> collect_writes (S turns) ps os total s = (r, s') -> g_writes s' `suffix_of` rest.
Proof.
  intros Ew ->. cbn [collect_writes]. rewrite M_bind_unfold. cbn [get]. rewrite Ew. cbn [bool_decide negb andb].
  rewrite bool_decide_eq_true_2 by done. cbn [negb andb]. rewrite M_bind_unfold. cbn [modify].
  match goal with |- ?m ?x = _ -> _ => assert (evolves taking m) as Hev end.
  { pose proof collect_taking. unfold register. walk. }
  intros E. match type of E with _ ?x = _ => specialize (Hev x) end. rewrite E in Hev. apply (tg_writes _ _ Hev).
Qed.

Lemma FlushQueuedWrites_takes s fs s' :
  FlushQueuedWrites s = (Ok fs, s') ->
  taking s s' /\ Scheduling ∈ fs /\ forall w rest, g_writes s = w :: rest -> g_writes s' `suffix_of` rest.
Proof.
  unfold FlushQueuedWrites. rewrite M_bind_unfold. destruct (collect_writes _ _ _ _ s) as [[[ps os]|] s1] eqn:Ec; [|done].
  pose proof (collect_taking (Z.to_nat flush_kMaxEntries) [] [] 0 s) as Ht. rewrite Ec in Ht. cbn in Ht.
  assert (forall w rest, g_writes s = w :: rest -> g_writes s1 `suffix_of` rest) as Hf.
  { intros w rest Ew. change (Z.to_nat flush_kMaxEntries) with (S 127) in Ec. by eapply collect_front in Ec. }
  destruct (bool_decide _); cbn; intros [= <- <-]; (split; [|split; [|done]]); [done|by left| |by right; left].
  by destruct Ht; split.
Qed.

Lemma FlushQueuedWrites_ok s : exists fs s', FlushQueuedWrites s = (Ok fs, s').
Proof.
  unfold FlushQueuedWrites. rewrite M_bind_unfold. destruct (collect_ok (Z.to_nat flush_kMaxEntries) [] [] 0 s) as (ps & os & s1 & ->).
  destruct (bool_decide _); cbn; eauto.
Qed.
End Calm.

#[local] Opaque collect_writes FlushQueuedWrites.

Section Live.
Context `{RocksDB} (flags : Flags) (reads : ReadFlags).

Lemma run_task_live {step : StepEnv} t rest sch s fs s' :
  flush_live sch s -> g_tasks s = t :: rest -> run_task t (s <| g_tasks := rest |>) = (Ok fs, s') -> flush_live (Scheduling ∈ fs \/ sch) s'.
Proof.
  intros [H1 H2] Et. destruct t as [token|conn]; cbn [run_task].
  - unfold lens. rewrite M_bind_unfold. cbn [g_flush_policy].
    destruct (decide (flush_token (g_flush_policy s) = Some token)) as [Hl|Hl].
    + destruct (flush_Consume_live token _ Hl) as [E1 E2]. cbn. destruct (flush_Consume token _) as [live p']. cbn in E1, E2. subst live.
      rewrite M_bind_unfold. cbn [modify]. intros E. apply FlushQueuedWrites_takes in E as (Ht & Hin & _).
      split; [|intros _; right; by left]. intros t. rewrite (tg_policy _ _ Ht). cbn. by rewrite E2.
    + cbn. rewrite flush_Consume_stale by done. intros [= <- <-]. split; cbn.
      * intros t Hp. destruct (H1 t Hp) as [Hin|]; [|by right]. left. cbn. rewrite Et in Hin.
        apply elem_of_cons in Hin as [[= ->]|]; [done|done].
      * intros Hw. destruct (H2 Hw); auto.
  - intros E. assert (flush_live sch (s <| g_tasks := rest |>)) as Hs.
    { split; cbn; [|done]. intros t Hp. destruct (H1 t Hp) as [Hin|]; [|by right]. left. cbn. rewrite Et in Hin. by apply elem_of_cons in Hin as [|]. }
    rewrite M_bind_unfold in E. cbn [get] in E. apply (live_impl sch); [by right|].
    destruct (g_sessions _ !! conn); [|by injection E as _ <-]. eapply calm_run, Hs; [|exact E].
    apply evolves_bind; [exact _|apply calm_others; by intros|intros []; apply DrainClient_calm].
Qed.

Lemma fires_live token sch s : flush_live sch s ->
  flush_live sch (s <| g_timers ::= filter (fun t => t <> token) |> <| g_cancelled ::= filter (fun t => t <> token) |>
                    <| g_tasks ::= fun l => l ++ [FlushTask token] |>).
Proof.
  intros [H1 H2]. split; cbn; [|done]. intros t Hp. unfold on_its_way. cbn. destruct (H1 t Hp) as [Hin|Hin].
  - left. apply elem_of_app. by left.
  - destruct (decide (t = token)) as [->|]; [left; apply elem_of_app; right; by left|]. right. by apply list_elem_of_filter.
Qed.

Lemma event_live {step : StepEnv} e sch s fs s' :
  flush_live sch s -> run_event flags e s = (Ok fs, s') -> flush_live (Scheduling ∈ fs \/ sch) s'.
Proof.
  intros Hs E.
  assert (match e with RunsTask | Fires _ => False | _ => True end -> flush_live (Scheduling ∈ fs \/ sch) s') as Hcalm.
  { intros He. apply (live_impl sch); [by right|]. exact (calm_run _ sch s _ s' (other_events_calm flags e He) E Hs). }
  destruct e as [| | | | | |token| | | |]; try (by apply Hcalm); cbn [run_event] in E.
  - rewrite M_bind_unfold in E. cbn [get] in E. destruct (g_tasks s) as [|t rest] eqn:Et.
    + assert ((Ok [], s) = (Ok fs, s')) as [= <- <-] by exact E. eapply live_impl; [by right|done].
    + rewrite M_bind_unfold in E. cbn [modify] in E. by eapply run_task_live.
  - unfold no_frames, queueInLoop in E. cbn in E. injection E as <- <-. eapply live_impl, (fires_live token sch s Hs). by right.
Qed.

Lemma frame_live {step : StepEnv} f sch s fs s' :
  in_node f = false -> flush_live (f = Scheduling \/ sch) s -> run_frame flags reads f s = (Ok fs, s') -> flush_live sch s'.
Proof.
  intros Hn Hs E. assert (f <> Scheduling -> flush_live sch s) as Hsch by (intros; eapply live_impl; [|done]; naive_solver).
  destruct f as [conn|conn| |index owners| | |]; try done; cbn [run_frame] in E.
  - eapply ExecuteNext_live, E. by apply Hsch.
  - eapply calm_run; [apply OnCommandComplete_calm|done|by apply Hsch].
  - eapply calm_run; [apply reject_owner_calm|done|by apply Hsch].
  - unfold no_frames in E. rewrite M_bind_unfold in E. destruct (ScheduleFlush flags s) as [[[]|] s1] eqn:Es; [|done].
    injection E as _ <-. apply (ScheduleFlush_live flags _ _ _ Hs) in Es as [_ Hl]. by eapply live_impl, Hl.
Qed.

Lemma live_step (env : StepEnv) l s stack s' stack' :
  machine_step flags reads l s stack = Some (Ok stack', s') -> flush_live (Scheduling ∈ stack) s -> flush_live (Scheduling ∈ stack') s'.
Proof.
  intros Hl Hs.
  destruct l as [|cb ok text|index|e], stack as [|f stack]; cbn [machine_step] in Hl; try done.
  - destruct (in_node f) eqn:Hn; [done|]. injection Hl as (fs & E & ->)%run_more.
    apply (live_impl (Scheduling ∈ stack)); [intros; apply elem_of_app; by right|]. eapply frame_live; [done| |done].
    eapply live_impl, Hs. intros [->|]%elem_of_cons; auto.
  - destruct (in_node f); [|done]. destruct (g_callbacks s !! cb) as [k|]; [|done]. injection Hl as (fs & E & ->)%run_more.
    eapply live_impl, calm_run; [|apply run_callback_calm|exact E|]; [intros Hin; apply elem_of_app; right; exact Hin|].
    by destruct Hs; split.
  - assert (in_node f = true) as Hf by by destruct f.
    assert (Scheduling ∈ f :: stack -> Scheduling ∈ stack) as Hin by by intros [<-|]%elem_of_cons.
    destruct f; simplify_eq/=; [|by eapply live_impl, Hs..]. destruct (may_return _ _ _); [|done]. injection Hl as (fs & E & ->)%run_more.
    eapply live_impl, calm_run; [|apply OnProposed_calm|exact E|exact Hs].
    intros Hx. apply elem_of_app. right. by apply Hin.
  - destruct (enabled e s); [|done]. injection Hl as E. eapply event_live in E; [|exact Hs]. eapply live_impl, E. intros [|Hx]; [done|]. by apply elem_of_nil in Hx.
Qed.

Lemma reachable_live s stack : server_reachable flags reads s stack -> flush_live (Scheduling ∈ stack) s.
Proof. induction 1 as [|env l s stack s' stack' Hr IH Hl]; [by split|]. by eapply live_step. Qed.
End Live.
