(* ===== verification/ServerIdle.v ===== *)
(** No session is forgotten: a client's command is being executed, or nothing of what the
    client sent can be executed yet, or the loop will look at it. *)
From stdpp Require Import base numbers strings gmap list.
From S2P Require Import Prelude Effects Text Resp Command Session Namespace Metrics Prometheus Policies.
From S2P Require Import Storage RaftLog KVStore KVStateMachine KVReplay Peers Config RaftState RaftNode.
From S2P Require Import Server ServerAccounting Conversation ServerConversation.

(** What holds of a session that is not closing, while [stack] runs. *)
Record session_idle (c : bytes) (x : ClientSession) (s : Server) (stack : list frame) : Prop := {
  si_waiting : cs_waiting x = true ->
    cs_executing x = true /\ (CommandComplete c ∉ stack) /\ forall n key, g_callbacks s !! n <> Some (ReadCallback c key);
  si_next : cs_executing x = false ->
    ExecuteNext c ∈ stack \/ (items (cs_queue x) = [] /\ (UnreadBytes (cs_input x) = 0 \/ cs_drain_scheduled x = true));
  si_drain : cs_drain_scheduled x = true -> DrainTask c ∈ g_tasks s;
}.
Definition idle_at (c : bytes) (s : Server) (stack : list frame) : Prop :=
  forall x, g_sessions s !! c = Some x -> cs_closing x = false -> session_idle c x s stack.

Definition same_work (x y : ClientSession) : Prop :=
  cs_input y = cs_input x /\ cs_queue y = cs_queue x /\ cs_waiting y = cs_waiting x /\ cs_executing y = cs_executing x /\
  cs_drain_scheduled y = cs_drain_scheduled x.
Lemma same_work_trans x y z : same_work x y -> same_work y z -> same_work x z.
Proof. unfold same_work. intuition congruence. Qed.

(** Assignments that do not touch the work of the session of [c], except by closing it. *)
Record tame (c : bytes) (s s' : Server) : Prop := {
  ta_session y : g_sessions s' !! c = Some y -> cs_closing y = false ->
    exists x, g_sessions s !! c = Some x /\ cs_closing x = false /\ same_work x y;
  ta_tasks t : t ∈ g_tasks s -> t ∈ g_tasks s';
  ta_reads n key : g_callbacks s' !! n = Some (ReadCallback c key) -> g_callbacks s !! n = Some (ReadCallback c key);
}.
#[export] Instance tame_preorder c : PreOrder (tame c).
Proof.
  split.
  - intros s. split; [|done..]. intros y Hy Hc. exists y. by split_and!.
  - intros s1 s2 s3 [A1 A2 A3] [B1 B2 B3]. split; [|auto..]. intros z Hz Hc.
    destruct (B1 z Hz Hc) as (y & Hy & Hcy & Hw). destruct (A1 y Hy Hcy) as (x & Hx & Hcx & Hw'). exists x. eauto using same_work_trans.
Qed.

Definition not_waiting (c : bytes) (s : Server) : Prop :=
  forall x, g_sessions s !! c = Some x -> cs_closing x = false -> cs_waiting x = false.

Lemma tame_idle c s s' fs stack :
  tame c s s' -> (CommandComplete c ∈ fs -> not_waiting c s) -> idle_at c s stack -> idle_at c s' (fs ++ stack).
Proof.
  intros [T1 T2 T3] Hf Hi y Hy Hc. destruct (T1 y Hy Hc) as (x & Hx & Hcx & E1 & E2 & E3 & E4 & E5).
  destruct (Hi x Hx Hcx) as [H1 H2 H3]. split; rewrite ?E1, ?E2, ?E3, ?E4, ?E5.
  - intros Hw. destruct (H1 Hw) as (? & ? & Hr). split_and!; [done| |intros n key Hn; by apply (Hr n key), T3].
    intros [Hin|]%elem_of_app; [|done]. specialize (Hf Hin x Hx Hcx). congruence.
  - intros He. destruct (H2 He) as [Hin|]; [left; apply elem_of_app; by right|by right].
  - intros Hd. by apply T2, H3.
Qed.

Lemma tame_still c s s' stack : tame c s s' -> idle_at c s stack -> idle_at c s' stack.
Proof. intros Ht. apply (tame_idle c s s' [] stack Ht). by intros Hin%elem_of_nil. Qed.

Section Tame.
Context `{RocksDB} {step : StepEnv} (flags : Flags) (reads : ReadFlags) (c : bytes).

Lemma tame_session conn f :
  conn <> c \/ (forall x, cs_closing (f x) = false -> cs_closing x = false /\ same_work x (f x)) -> evolves (tame c) (on_session conn f).
Proof.
  intros Hf. apply evolves_modify. intros s. split; cbn; [|done..]. intros y.
  destruct (decide (c = conn)) as [<-|]; [|rewrite lookup_alter_ne by done; intros; exists y; by split_and!].
  destruct Hf as [|Hf]; [done|]. rewrite lookup_alter_eq. destruct (g_sessions s !! c) as [x|]; [|done]. intros [= <-] Hy. exists x.
  destruct (Hf x Hy). by split_and!.
Qed.
Lemma tame_others (f : Server -> Server) :
  (forall s, g_sessions (f s) = g_sessions s /\ g_tasks (f s) = g_tasks s /\ g_callbacks (f s) = g_callbacks s) ->
  evolves (tame c) (modify f).
Proof.
  intros Hf. apply evolves_modify. intros s. destruct (Hf s) as (E1 & E2 & E3). split; rewrite ?E1, ?E2, ?E3; [|done..].
  intros y Hy Hc. exists y. by split_and!.
Qed.
Lemma tame_policy {A} (m : M BatchFlushPolicy A) : evolves (tame c) (lens g_flush_policy (fun p s => s <| g_flush_policy := p |>) m).
Proof. intros s. unfold lens. destruct (m _) as [r p]. exact (tame_others (fun s => s <| g_flush_policy := p |>) ltac:(by intros) s). Qed.
Lemma tame_queue t : evolves (tame c) (queueInLoop t).
Proof. apply evolves_modify. intros s. split; cbn; [|intros u Hu; apply elem_of_app; by left|done]. intros y Hy Hc. exists y. by split_and!. Qed.

Lemma tame_register k : (forall key, k <> ReadCallback c key) -> evolves (tame c) (register k).
Proof.
  intros Hk s. unfold register. run. split; cbn; [intros y Hy Hc; exists y; by split_and!|done|].
  intros n key. destruct (decide (n = g_next_callback s)) as [->|]; [|by rewrite lookup_insert_ne]. rewrite lookup_insert_eq. by intros [= ->]; destruct (Hk key).
Qed.
Lemma tame_delete (f : Server -> Server) :
  (forall s, g_sessions (f s) = g_sessions s /\ g_tasks (f s) = g_tasks s /\ g_callbacks (f s) ⊆ g_callbacks s) -> evolves (tame c) (modify f).
Proof.
  intros Hf. apply evolves_modify. intros s. destruct (Hf s) as (E1 & E2 & E3). split; rewrite ?E1, ?E2; [|done|].
  - intros y Hy Hc. exists y. by split_and!.
  - intros n key Hn. by eapply lookup_weaken.
Qed.
End Tame.

#[export] Hint Extern 1 (evolves (tame _) (on_session _ _)) =>
  apply tame_session; solve [left; assumption | right; intros ?; by cbn] : server.
#[export] Hint Extern 1 (evolves (tame _) (on_conn _ _)) => apply tame_others; intros ?; split_and!; reflexivity : server.
#[export] Hint Extern 1 (evolves (tame _) (modify _)) => apply tame_others; intros ?; split_and!; reflexivity : server.
#[export] Hint Extern 1 (evolves (tame _) (register _)) => apply tame_register; solve [intros ?; congruence] : server.
#[export] Hint Resolve tame_policy tame_queue : server.

Section OtherConnection.
Context `{RocksDB} {step : StepEnv} (flags : Flags) (reads : ReadFlags) (c : bytes).

(** ** Functions that leave the work of every session alone *)

Lemma CloseClient_tame conn : evolves (tame c) (CloseClient conn).
Proof. unfold CloseClient, forceClose. walk. Qed.
Lemma AccountOutput_tame conn : evolves (tame c) (AccountOutput conn).
Proof. unfold AccountOutput. walk. Qed.
Lemma overloaded_tame : evolves (tame c) overloaded.
Proof. unfold overloaded. walk. Qed.
#[local] Hint Resolve CloseClient_tame AccountOutput_tame overloaded_tame : server.
Lemma conn_send_tame conn reply : evolves (tame c) (conn_send conn reply).
Proof. unfold conn_send. walk. Qed.
#[local] Hint Resolve conn_send_tame : server.
Lemma SendReply_tame conn reply : evolves (tame c) (SendReply conn reply).
Proof. unfold SendReply. walk. Qed.
#[local] Hint Resolve SendReply_tame : server.
Lemma reply_tame conn reply : evolves (tame c) (reply_and_complete conn reply).
Proof. unfold reply_and_complete. walk. Qed.
Lemma ScheduleFlush_tame : evolves (tame c) (ScheduleFlush flags).
Proof. unfold ScheduleFlush, cancel_timer. walk. Qed.
Lemma read_key_tame key : evolves (tame c) (read_key key).
Proof. unfold read_key, tell. walk. Qed.
#[local] Hint Resolve reply_tame ScheduleFlush_tame read_key_tame : server.

Lemma OnProposed_tame index owners : evolves (tame c) (OnProposed index owners).
Proof.
  unfold OnProposed. walk. apply tame_delete. intros s. split_and!; [done..|]. cbn.
  induction owners as [|o owners IH]; cbn; [done|]. etrans; [apply delete_subseteq|done].
Qed.

Lemma collect_tame turns ps os total : evolves (tame c) (collect_writes turns ps os total).
Proof.
  revert ps os total. induction turns as [|turns IH]; intros ps os total; cbn [collect_writes]; walk.
Qed.
Lemma Flush_tame : evolves (tame c) FlushQueuedWrites.
Proof. unfold FlushQueuedWrites, tell. pose proof collect_tame. walk. Qed.


(** ** Functions that work for another connection *)

Lemma tame_sessions (f : gmap bytes ClientSession -> gmap bytes ClientSession) (g : Server -> Server) :
  (forall m, f m !! c = m !! c) ->
  (forall s, g_sessions (g s) = f (g_sessions s) /\ g_tasks (g s) = g_tasks s /\ g_callbacks (g s) = g_callbacks s) ->
  evolves (tame c) (modify g).
Proof.
  intros Hf Hg. apply evolves_modify. intros s. destruct (Hg s) as (E1 & E2 & E3). split; rewrite ?E1, ?E2, ?E3, ?Hf; [|done..].
  intros y Hy Hc. exists y. by split_and!.
Qed.

Variable conn : bytes.
Hypothesis Hne : conn <> c.

Lemma abandon_tame : evolves (tame c) (abandon conn).
Proof. unfold abandon. walk. Qed.
Lemma ScheduleDrain_tame : evolves (tame c) (ScheduleDrain conn).
Proof. unfold ScheduleDrain. walk. Qed.
Lemma OnCommandComplete_tame : evolves (tame c) (OnCommandComplete conn).
Proof. unfold OnCommandComplete, startRead. walk. Qed.
#[local] Hint Resolve abandon_tame ScheduleDrain_tame OnProposed_tame : server.
Lemma reject_owner_tame index owners : evolves (tame c) (reject_owner index (conn :: owners)).
Proof. unfold reject_owner. walk. Qed.
Lemma run_callback_tame k ok text : cb_conn k = conn -> evolves (tame c) (run_callback k ok text).
Proof. destruct k; cbn [cb_conn run_callback]; intros ->; unfold OnWriteDone, OnReadDone; walk. Qed.
Lemma ExecuteNext_tame : evolves (tame c) (ExecuteNextCommand flags reads conn).
Proof. unfold ExecuteNextCommand, SubmitWrite, execute_read, execute_get, tell. walk. Qed.
Lemma DrainClient_tame : evolves (tame c) (DrainClient conn).
Proof. unfold DrainClient, stopRead, shutdown. walk. Qed.
#[local] Hint Resolve DrainClient_tame : server.
Lemma OnClientMessage_tame buffer : evolves (tame c) (OnClientMessage conn buffer).
Proof. unfold OnClientMessage, forceClose. walk. Qed.
Lemma OnClientConnection_tame : evolves (tame c) (OnClientConnection flags conn).
Proof.
  unfold OnClientConnection, forceClose. walk.
  - apply (tame_sessions <[conn := new_session]>); [intros m; by apply lookup_insert_ne|by intros].
  - apply (tame_sessions (delete conn)); [intros m; by apply lookup_delete_ne|by intros].
Qed.
End OtherConnection.

(** * The functions that work for the connection *)

(** A session whose command has no write under way. *)
Definition busy (c : bytes) (s : Server) : Prop :=
  forall x, g_sessions s !! c = Some x -> cs_closing x = false ->
    cs_waiting x = false /\ cs_executing x = true /\ (cs_drain_scheduled x = true -> DrainTask c ∈ g_tasks s).
Lemma busy_idle c s stack : busy c s -> idle_at c s stack.
Proof. intros Hb x Hx Hc. destruct (Hb x Hx Hc) as (? & ? & ?). split; [congruence|congruence|done]. Qed.
Lemma tame_busy {A} c (m : M Server A) : evolves (tame c) m -> evolves (keeps (busy c)) m.
Proof.
  intros Hm s Hb y Hy Hc. destruct (Hm s) as [T1 T2 _]. destruct (T1 y Hy Hc) as (x & Hx & Hcx & _ & _ & -> & -> & ->).
  destruct (Hb x Hx Hcx) as (? & ? & Hd). split_and!; [done..|]. intros. by apply T2, Hd.
Qed.
Lemma idle_none c s stack : live_in c s = None -> idle_at c s stack.
Proof. intros Hn x Hx Hc. unfold live_in in Hn. by rewrite Hx, Hc in Hn. Qed.

Section SameConnection.
Context `{RocksDB} {step : StepEnv} (flags : Flags) (reads : ReadFlags) (c : bytes).

Lemma register_busy k : evolves (keeps (busy c)) (register k).
Proof. intros s Hb. unfold register. run. exact Hb. Qed.
#[local] Hint Resolve register_busy : server.
#[local] Hint Resolve reply_tame read_key_tame overloaded_tame ScheduleFlush_tame SendReply_tame : server.
#[local] Hint Extern 2 (evolves (keeps (busy _)) _) => apply tame_busy; solve [auto with server nocore] : server.

Lemma execute_read_busy conn args : evolves (keeps (busy c)) (execute_read reads conn args).
Proof. unfold execute_read, execute_get, tell. walk. Qed.

Lemma on_session_eq f s x : g_sessions s !! c = Some x -> g_sessions (on_session c f s).2 !! c = Some (f x).
Proof. intros Hx. cbn. by rewrite lookup_alter_eq, Hx. Qed.

Lemma SubmitWrite_idle args s fs s' stack :
  busy c s -> CommandComplete c ∉ stack -> (forall n key, g_callbacks s !! n <> Some (ReadCallback c key)) ->
  SubmitWrite flags c args s = (Ok fs, s') -> idle_at c s' (fs ++ stack).
Proof.
  intros Hb Hd Hr. unfold SubmitWrite. rewrite M_bind_unfold. cbn [get]. cbv zeta.
  assert (forall m : M Server (list frame), evolves (keeps (busy c)) m -> m s = (Ok fs, s') -> idle_at c s' (fs ++ stack)) as Hbusy.
  { intros m Hm E. apply busy_idle. specialize (Hm s Hb). by rewrite E in Hm. }
  destruct (_ <? _); [apply Hbusy; walk|]. destruct (negb _); [apply Hbusy; walk|]. destruct (_ || _); [apply Hbusy; walk|].
  run. match goal with |- match ScheduleFlush _ ?x with _ => _ end = _ -> _ => set (s1 := x) end.
  pose proof (ScheduleFlush_tame flags c s1) as Ht. destruct (ScheduleFlush flags s1) as [[[]|] s2]; [|done]. intros [= <- <-].
  eapply (tame_still c s1); [done|].
  intros y Hy Hc. subst s1. cbn in Hy. rewrite lookup_alter_eq in Hy. destruct (g_sessions s !! c) as [x|] eqn:Ex; [|done].
  injection Hy as <-. destruct (Hb x Ex Hc) as (_ & He & Hdr). split; cbn; [done|congruence|done].
Qed.

(** [ScheduleDrain] for a session that does not execute. *)
Lemma ScheduleDrain_idle s stack x :
  g_sessions s !! c = Some x -> (cs_closing x = false -> cs_waiting x = false /\ items (cs_queue x) = [] /\
    (cs_drain_scheduled x = true -> DrainTask c ∈ g_tasks s)) ->
  idle_at c (ScheduleDrain c s).2 stack.
Proof.
  intros Hx Hpre. unfold ScheduleDrain. rewrite M_bind_unfold. cbn [get]. unfold session_of. rewrite Hx. cbv zeta. cbn [default from_option id].
  destruct (_ || _) eqn:Eg.
  - intros y Hy Hc. cbn in Hy. rewrite Hx in Hy. injection Hy as <-. destruct (Hpre Hc) as (Hw & Hq & Hd). rewrite Hc, Hw, !orb_false_r in Eg.
    split; cbn; [congruence| |done]. intros _. right. split; [done|]. apply orb_true_iff in Eg as [|He%Z.eqb_eq]; auto.
  - run. intros y Hy Hc. cbn in Hy. rewrite lookup_alter_eq, Hx in Hy. injection Hy as <-. cbn in Hc. destruct (Hpre Hc) as (Hw & Hq & Hd).
    split; cbn; [congruence|by right; auto|]. intros _. apply elem_of_app. right. by left.
Qed.

Lemma ScheduleDrain_none s : g_sessions s !! c = None -> ScheduleDrain c s = (Ok tt, s).
Proof. intros Hx. unfold ScheduleDrain, session_of. rewrite M_bind_unfold. cbn [get]. by rewrite Hx. Qed.

Lemma ExecuteNext_idle s fs s' stack :
  sessions_up s -> idle_at c s (ExecuteNext c :: stack) ->
  (forall x, g_sessions s !! c = Some x -> cs_closing x = false -> cs_executing x = false ->
    (CommandComplete c ∉ stack) /\ forall n key, g_callbacks s !! n <> Some (ReadCallback c key)) ->
  ExecuteNextCommand flags reads c s = (Ok fs, s') -> idle_at c s' (fs ++ stack).
Proof.
  intros Hu Hi Hfree. unfold ExecuteNextCommand. rewrite M_bind_unfold. cbn [get]. cbv zeta. unfold session_of.
  destruct (g_sessions s !! c) as [x|] eqn:Ex; cbn [default from_option id].
  2:{ cbn [new_session cs_executing cs_closing cs_queue orb PopFront items]. 
      destruct (negb _); [|rewrite M_bind_unfold, ScheduleDrain_none by done]; intros [= <- <-]; apply idle_none; unfold live_in; by rewrite Ex. }
  destruct (cs_closing x) eqn:Hc.
  { rewrite orb_true_r. cbn. intros [= <- <-]. apply idle_none. unfold live_in. by rewrite Ex, Hc. }
  destruct (Hi x Ex Hc) as [H1 _ H3].
  assert (connected c s = true) as Hup. { destruct (Hu c x Ex) as (tc & Htc & _ & Hcon). unfold connected. rewrite Htc. auto. }
  rewrite Hup, !orb_false_r. destruct (cs_executing x) eqn:He.
  { intros [= <- <-]. intros y Hy _. rewrite Ex in Hy. injection Hy as <-. split; [|congruence|done].
    intros Hw. destruct (H1 Hw) as (? & Hn & ?). split_and!; [done| |done]. intros Hin. apply Hn. by right. }
  assert (cs_waiting x = false) as Hw by (destruct (cs_waiting x); [by destruct H1|done]).
  destruct (Hfree x eq_refl Hc He) as [Hd Hr].
  destruct (PopFront (cs_queue x)) as [[cmd q]|] eqn:Ep.
  2:{ rewrite M_bind_unfold. destruct (ScheduleDrain c s) as [[[]|] s1] eqn:Es; [|done]. intros [= <- <-].
      assert (s1 = (ScheduleDrain c s).2) as -> by by rewrite Es. apply (ScheduleDrain_idle s stack x Ex). intros _.
      split_and!; [done| |done]. unfold PopFront in Ep. by destruct (items (cs_queue x)). }
  run. match goal with |- _ ?p = _ -> _ => set (s1 := p) end.
  assert (busy c s1) as Hb.
  { intros y Hy _. subst s1. cbn in Hy. rewrite lookup_alter_eq, Ex in Hy. injection Hy as <-. by split_and!. }
  destruct (qc_type cmd).
  - intros E. apply busy_idle. pose proof (execute_read_busy c (qc_args cmd) s1 Hb) as Hb'. by rewrite E in Hb'.
  - by apply SubmitWrite_idle.
  - intros E. apply busy_idle. pose proof (tame_busy c _ (reply_tame c c (Error (qc_error_message cmd))) s1 Hb) as Hb'. by rewrite E in Hb'.
Qed.

(** After an assignment to the session. *)
Lemma idle_alter f s fs stack :
  (forall x, g_sessions s !! c = Some x -> cs_closing (f x) = false -> session_idle c (f x) s (fs ++ stack)) ->
  idle_at c (on_session c f s).2 (fs ++ stack).
Proof.
  intros Hf y Hy Hc. cbn in Hy. rewrite lookup_alter_eq in Hy. destruct (g_sessions s !! c) as [x|]; [|done]. injection Hy as <-.
  destruct (Hf x eq_refl Hc). by split.
Qed.

Lemma complete_idle s fs s' stack :
  idle_at c s (CommandComplete c :: stack) -> OnCommandComplete c s = (Ok fs, s') -> idle_at c s' (fs ++ stack).
Proof.
  intros Hi. unfold OnCommandComplete. rewrite M_bind_unfold. cbn [on_session modify]. set (s1 := s <| g_sessions ::= _ |>).
  assert (idle_at c s1 ([ExecuteNext c] ++ stack)) as H1.
  { apply (idle_alter (fun x => x <| cs_executing := false |>)). intros x Hx Hc. destruct (Hi x Hx Hc) as [Hw _ Hd].
    split; cbn; [intros Hx'; destruct (Hw Hx') as (_ & Hn & _); destruct Hn; by left|intros _; left; by left|done]. }
  rewrite M_bind_unfold. cbn [get]. cbv zeta. rewrite M_bind_unfold. unfold startRead.
  match goal with |- match when ?b ?m s1 with _ => _ end = _ -> _ =>
    assert (evolves (tame c) (when b m)) as Hev by walk; specialize (Hev s1); destruct (when b m s1) as [[[]|] s2] end; [|done].
  intros [= <- <-]. by apply (tame_still c s1).
Qed.

Lemma unwait_idle s stack :
  idle_at c s stack -> idle_at c (on_session c (fun x => x <| cs_waiting := false |>) s).2 stack /\
  not_waiting c (on_session c (fun x => x <| cs_waiting := false |>) s).2.
Proof.
  intros Hi. split.
  - apply (idle_alter _ s []). intros x Hx Hc. destruct (Hi x Hx Hc). by split.
  - intros y Hy _. cbn in Hy. rewrite lookup_alter_eq in Hy. destruct (g_sessions s !! c); [|done]. by injection Hy as <-.
Qed.

Lemma abandon_idle s stack : sessions_up s -> deliverable c s = false -> idle_at c (abandon c s).2 stack.
Proof.
  intros Hu Hd. pose proof (undeliverable c s Hu Hd) as Hn. apply idle_none. rewrite <- Hn. by apply abandon_quiet.
Qed.

Lemma reject_idle index owners s fs s' stack :
  sessions_up s -> idle_at c s stack -> reject_owner index (c :: owners) s = (Ok fs, s') -> idle_at c s' (fs ++ stack).
Proof.
  intros Hu Hi. cbn [reject_owner]. rewrite M_bind_unfold. cbn [get]. destruct (deliverable c s) eqn:Hd; cbn [negb].
  - rewrite M_bind_unfold. cbn [on_session modify]. destruct (unwait_idle s stack Hi) as [H1 H2]. cbn [on_session modify snd] in H1, H2.
    rewrite M_bind_unfold. match goal with |- match SendReply c ?r ?x with _ => _ end = _ -> _ => pose proof (SendReply_tame c c r x) as Ht end.
    destruct (SendReply _ _ _) as [[[]|] s2]; [|done]. intros [= <- <-]. by eapply tame_idle.
  - intros [= <- <-]. by apply abandon_idle.
Qed.

Lemma callback_idle k cb ok text s fs s' stack :
  cb_conn k = c -> sessions_up s -> g_callbacks s !! cb = Some k -> idle_at c s stack ->
  run_callback k ok text (called cb [CallsBack cb ok text] s) = (Ok fs, s') -> idle_at c s' (fs ++ stack).
Proof.
  intros Hk Hu Hcb Hi. set (s1 := called _ _ s).
  assert (tame c s s1) as H1.
  { apply (tame_delete c (called cb [CallsBack cb ok text])). intros x. split_and!; [done..|]. apply delete_subseteq. }
  assert (idle_at c s1 stack) as Hi1 by by apply (tame_still c s).
  assert (sessions_up s1) as Hu1 by exact Hu. clearbody s1. destruct k as [conn t|conn key]; cbn [cb_conn run_callback] in *; subst conn.
  - unfold OnWriteDone. rewrite M_bind_unfold.
    match goal with |- match ?m s1 with _ => _ end = _ -> _ => assert (evolves (tame c) m) as Hev by walk;
      assert (sessions_up (m s1).2 /\ exists s2, m s1 = (Ok tt, s2)) as [Hu2 [s2 E2]] by (destruct ok; cbn; eauto) end.
    specialize (Hev s1). rewrite E2 in *. cbn [snd] in *.
    assert (idle_at c s2 stack) as Hi2 by by apply (tame_still c s1).
    rewrite M_bind_unfold. cbn [get]. destruct (deliverable c s2) eqn:Hd; cbn [negb]; [|intros [= <- <-]; by apply abandon_idle].
    rewrite M_bind_unfold. pose proof (SendReply_tame c c text s2) as Ht. destruct (SendReply _ _ _) as [[[]|] s3]; [|done]. cbn [snd] in Ht.
    assert (idle_at c s3 stack) as Hi3 by by apply (tame_still c s2).
    destruct (unwait_idle s3 stack Hi3) as [H3 H4]. intros [= <- <-]. eapply tame_idle; [|by intros _|exact H3]. reflexivity.
  - assert (not_waiting c s1) as Hw.
    { intros y Hy Hc. destruct (ta_session _ _ _ H1 y Hy Hc) as (x & Hx & Hcx & _ & _ & -> & _).
      destruct (cs_waiting x) eqn:Hw; [|done]. destruct (Hi x Hx Hcx) as [Hn _ _]. destruct (Hn Hw) as (_ & _ & Hr). by destruct (Hr cb key). }
    unfold OnReadDone. rewrite M_bind_unfold. cbn [get]. destruct (deliverable c s1) eqn:Hd; cbn [negb]; [|intros [= <- <-]; by apply abandon_idle].
    match goal with |- ?m s1 = _ -> _ => assert (evolves (tame c) m) as Hev by walk end. specialize (Hev s1). intros E. rewrite E in Hev.
    by eapply tame_idle.
Qed.

(** What a handler finds when it looks at the input. *)
Definition ready (s : Server) : Prop :=
  forall x, g_sessions s !! c = Some x -> cs_closing x = false ->
    (cs_waiting x = true -> cs_executing x = true /\ forall n key, g_callbacks s !! n <> Some (ReadCallback c key)) /\
    (cs_drain_scheduled x = true -> DrainTask c ∈ g_tasks s).
Lemma ready_idle s : ready s -> (forall x, g_sessions s !! c = Some x -> cs_closing x = false -> cs_executing x = true) -> idle_at c s [].
Proof.
  intros Hr He x Hx Hc. destruct (Hr x Hx Hc) as [H1 H2]. specialize (He x Hx Hc). split; [|congruence|done].
  intros Hw. destruct (H1 Hw). split_and!; [done|by intros Hin%elem_of_nil|done].
Qed.

(** The end of [DrainClient]. *)
Lemma drained_idle s fs s' y :
  sessions_up s -> ready s -> g_sessions s !! c = Some y ->
  (if negb (cs_executing y) && negb (bool_decide (items (cs_queue y) = [])) then mret [ExecuteNext c]
   else s ← get; when (connected c s && negb (cs_executing y)) (ScheduleDrain c);; mret []) s = (Ok fs, s') -> idle_at c s' fs.
Proof.
  intros Hu Hr Hy. destruct (cs_executing y) eqn:He; cbn [negb andb].
  { rewrite M_bind_unfold. cbn [get]. rewrite andb_false_r. cbn. intros [= <- <-]. apply ready_idle; [done|].
    intros z Hz _. rewrite Hy in Hz. by injection Hz as <-. }
  destruct (bool_decide_reflect (items (cs_queue y) = [])) as [Hq|Hq]; cbn [negb].
  2:{ intros [= <- <-] z Hz Hc. destruct (Hr z Hz Hc) as [H1 H2]. rewrite Hy in Hz. injection Hz as <-.
      split; [intros Hw; destruct (H1 Hw); congruence|intros _; left; by left|done]. }
  rewrite M_bind_unfold. cbn [get]. rewrite andb_true_r, M_bind_unfold. destruct (connected c s) eqn:Hup; cbn [when].
  - destruct (ScheduleDrain c s) as [[[]|] s3] eqn:Es; [|done]. intros [= <- <-].
    assert (s3 = (ScheduleDrain c s).2) as -> by by rewrite Es. apply (ScheduleDrain_idle s [] _ Hy). intros Hc.
    destruct (Hr _ Hy Hc) as [H1 H2]. split_and!; [|done|done]. destruct (cs_waiting y); [|done]. destruct (H1 eq_refl); congruence.
  - intros [= <- <-] z Hz Hc. destruct (Hu c z Hz) as (tc & Htc & _ & Hcon). unfold connected in Hup. rewrite Htc, Hcon in Hup by done. done.
Qed.

Lemma DrainClient_idle s fs s' x :
  sessions_up s -> g_sessions s !! c = Some x -> ready s -> DrainClient c s = (Ok fs, s') -> idle_at c s' fs.
Proof.
  intros Hu Hx Hr. unfold DrainClient, session_of. rewrite M_bind_unfold. cbn [get]. rewrite Hx. cbn [default from_option id].
  destruct (DrainCommands _ _ _ _ _) as [[out input] queue]. rewrite M_bind_unfold. cbn [on_session modify].
  rewrite M_bind_unfold. cbn [modify].
  match goal with |- _ ?y = _ -> _ => change y with (drained c input queue (do_consumed_bytes out) s) end. set (s1 := drained _ _ _ _ s).
  assert (g_sessions s1 !! c = Some (x <| cs_input := input |> <| cs_queue := queue |>)) as Hx1 by (cbn; by rewrite lookup_alter_eq, Hx).
  assert (sessions_up s1) as Hu1 by by apply drained_up.
  assert (ready s1) as Hr1. { intros y Hy Hc. rewrite Hx1 in Hy. injection Hy as <-. apply (Hr x Hx Hc). }
  clearbody s1. destruct (do_invalid out) eqn:Ei.
  { rewrite M_bind_unfold. cbn [stopRead on_conn modify]. rewrite M_bind_unfold.
    destruct (when _ _ _) as [[[]|] s2]; [|done]. cbn. intros [= <- <-] y Hy. cbn in Hy. rewrite lookup_alter_eq in Hy.
    destruct (g_sessions s2 !! c); [|done]. by injection Hy as <-. }
  rewrite M_bind_unfold. destruct (when _ (stopRead c) s1) as [[[]|] s2] eqn:Es2; [|done].
  assert (g_sessions s2 = g_sessions s1 /\ g_callbacks s2 = g_callbacks s1 /\ g_tasks s2 = g_tasks s1) as (E1 & E2 & E3)
    by (destruct (do_stop_read out); by injection Es2 as <-).
  assert (sessions_up s2) as Hu2 by (destruct (do_stop_read out); injection Es2 as <-; [|done]; by apply (quiet_conn c)).
  assert (ready s2) as Hr2 by (unfold ready; by rewrite E1, E2, E3).
  rewrite <- E1 in Hx1. exact (drained_idle s2 fs s' _ Hu2 Hr2 Hx1).
Qed.

Lemma idle_ready s : idle_at c s [] -> ready s.
Proof. intros Hi x Hx Hc. destruct (Hi x Hx Hc) as [H1 _ H3]. split; [|done]. intros Hw. by destruct (H1 Hw) as (? & _ & ?). Qed.

Lemma message_idle buffer s fs s' :
  sessions_up s -> idle_at c s [] -> OnClientMessage c buffer s = (Ok fs, s') -> idle_at c s' fs.
Proof.
  intros Hu Hi. unfold OnClientMessage. rewrite M_bind_unfold. cbn [get]. destruct (g_sessions s !! c) as [x|] eqn:Hx.
  2:{ cbn. intros [= <- <-] y Hy. cbn in Hy. congruence. }
  destruct (cs_closing x) eqn:Hc; [intros [= <- <-] y Hy; rewrite Hx in Hy; injection Hy as <-; congruence|].
  destruct (buffer_Append buffer (cs_input x)) as [ok input]. destruct (_ || negb ok).
  { cbn. intros [= <- <-] y Hy. cbn in Hy. rewrite lookup_alter_eq, Hx in Hy. by injection Hy as <-. }
  run. match goal with |- DrainClient c ?y = _ -> _ => set (s1 := y) end.
  assert (g_sessions s1 !! c = Some (x <| cs_input := input |>)) as Hx1 by (cbn; by rewrite lookup_alter_eq, Hx).
  eapply (DrainClient_idle s1 fs s'); [|exact Hx1|].
  - assert (sessions_up (s <| g_sessions ::= alter (fun x => x <| cs_input := input |>) c |>)) as Hu1.
    { intros d y. cbn. destruct (decide (d = c)) as [->|]; [|rewrite lookup_alter_ne by done; apply Hu].
      rewrite lookup_alter_eq, Hx. intros [= <-]. by apply (Hu c x). }
    intros d y Hy. destruct (Hu1 d y Hy) as (tc & Htc & Hm & Hcon). subst s1. cbn in Htc |- *.
    destruct (decide (d = c)) as [->|]; [rewrite lookup_alter_eq, Htc|rewrite lookup_alter_ne by done]; eauto.
  - intros y Hy Hcy. rewrite Hx1 in Hy. injection Hy as <-. apply (idle_ready s Hi x Hx Hcy).
Qed.

Lemma drain_task_idle rest s fs s' :
  sessions_up s -> idle_at c s [] -> run_task (DrainTask c) (s <| g_tasks := rest |>) = (Ok fs, s') -> idle_at c s' fs.
Proof.
  intros Hu Hi. cbn [run_task]. rewrite M_bind_unfold. cbn [get].
  change (g_sessions (s <| g_tasks := rest |>)) with (g_sessions s). destruct (g_sessions s !! c) as [x|] eqn:Hx.
  2:{ intros [= <- <-] y Hy. cbn in Hy. congruence. }
  rewrite M_bind_unfold. cbn [on_session modify].
  set (s1 := _ <| g_sessions ::= _ |>).
  assert (g_sessions s1 !! c = Some (x <| cs_drain_scheduled := false |>)) as Hx1 by (cbn; by rewrite lookup_alter_eq, Hx).
  eapply (DrainClient_idle s1 fs s'); [|exact Hx1|].
  - by apply (quiet_session c (fun x => x <| cs_drain_scheduled := false |>) ltac:(done) (s <| g_tasks := rest |>)).
  - intros y Hy Hcy. rewrite Hx1 in Hy. injection Hy as <-. split; [apply (idle_ready s Hi x Hx Hcy)|done].
Qed.
End SameConnection.

(** * Steps *)

#[export] Instance loop_task_eq_dec : EqDecision loop_task.
Proof. solve_decision. Defined.

Lemma pop_task_idle c t rest s : t <> DrainTask c -> g_tasks s = t :: rest -> idle_at c s [] -> idle_at c (s <| g_tasks := rest |>) [].
Proof.
  intros Ht Et Hi x Hx Hc. destruct (Hi x Hx Hc) as [H1 H2 H3]. split; [done|done|]. intros Hd. specialize (H3 Hd). rewrite Et in H3.
  apply elem_of_cons in H3 as [|]; [congruence|done].
Qed.
Lemma pop_frame_idle c f s stack : f <> ExecuteNext c -> idle_at c s (f :: stack) -> idle_at c s stack.
Proof.
  intros Hf Hi x Hx Hc. destruct (Hi x Hx Hc) as [H1 H2 H3]. split; [|intros He; destruct (H2 He) as [[|]%elem_of_cons|]; auto; congruence|done].
  intros Hw. destruct (H1 Hw) as (? & Hn & ?). split_and!; [done| |done]. intros Hin. apply Hn. by right.
Qed.

Definition spares (c : bytes) (fs : list frame) : Prop := CommandComplete c ∉ fs.
Ltac sparing :=
  autounfold with server_ops server_entries; cbv zeta;
  repeat first [ apply returns_ret; unfold spares; rewrite ?not_elem_of_cons; split_and?; solve [congruence|apply not_elem_of_nil]
               | apply returns_bind; intros ?; cbv zeta
               | match goal with |- returns _ (match ?x with _ => _ end) => destruct x end ].

Section Steps.
Context `{RocksDB} {step : StepEnv} (flags : Flags) (reads : ReadFlags) (c : bytes).

Lemma execute_spares conn : conn <> c -> returns (spares c) (ExecuteNextCommand flags reads conn).
Proof. intros. sparing. Qed.
Lemma complete_spares conn : conn <> c -> returns (spares c) (OnCommandComplete conn).
Proof. intros. sparing. Qed.
Lemma reject_spares index conn owners : conn <> c -> returns (spares c) (reject_owner index (conn :: owners)).
Proof. intros. cbn [reject_owner]. sparing. Qed.
Lemma callback_spares k ok text : cb_conn k <> c -> returns (spares c) (run_callback k ok text).
Proof. destruct k; cbn [cb_conn]; intros; sparing. Qed.
Lemma proposed_spares index owners : returns (spares c) (OnProposed index owners).
Proof. sparing. Qed.
Lemma event_spares e : returns (spares c) (run_event flags e).
Proof. destruct e; cbn [run_event]; sparing. Qed.

#[local] Hint Resolve overloaded_tame conn_send_tame AccountOutput_tame Flush_tame ScheduleFlush_tame : server.
Definition client_event (e : loop_event) : option bytes :=
  match e with Accepts conn | Closes conn | Receives conn _ => Some conn | _ => None end.

Lemma event_tame e : client_event e <> Some c -> e <> RunsTask -> evolves (tame c) (run_event flags e).
Proof.
  intros Hc Ht. assert (forall conn, client_event e = Some conn -> conn <> c) as Hne by (intros conn E ->; done).
  destruct e as [conn|conn|conn buffer| | | | | | | |]; try done; cbn [run_event];
    try (pose proof (Hne conn eq_refl) as Hn; pose proof (OnClientConnection_tame flags c conn Hn)).
  3: by apply OnClientMessage_tame, Hne.
  all: unfold accept, no_frames, forceClose, OnWriteComplete, OnMetricsConnection, OnMetricsMessage, ReplyMetrics, shutdown, forceClose; walk.
Qed.

Lemma accept_idle s fs s' : sessions_up s -> is_new c s = true -> run_event flags (Accepts c) s = (Ok fs, s') -> idle_at c s' fs.
Proof.
  intros Hu Hnew%bool_decide_eq_true_1. cbn [run_event]. unfold accept, no_frames, OnClientConnection. run.
  assert (g_sessions s !! c = None) as Hx.
  { destruct (g_sessions s !! c) as [x|] eqn:E; [|done]. destruct (Hu c x E) as (tc & Htc & _). congruence. }
  match goal with |- context [connected c ?y] => assert (connected c y = true) as -> by (unfold connected; cbn; by rewrite lookup_insert_eq) end.
  destruct (_ <=? _); cbn; intros [= <- <-] y Hy Hc; cbn in Hy; [congruence|]. rewrite lookup_insert_eq in Hy. injection Hy as <-.
  split; cbn; [done|by right; auto|done].
Qed.

Lemma close_idle s fs s' : run_event flags (Closes c) s = (Ok fs, s') -> idle_at c s' fs.
Proof.
  cbn [run_event]. unfold forceClose, no_frames, OnClientConnection. run. set (s1 := s <| g_conns ::= _ |>).
  assert (connected c s1 = false) as ->.
  { unfold connected. cbn. rewrite lookup_alter_eq. by destruct (g_conns s !! c). }
  destruct (g_sessions s1 !! c) as [x|] eqn:E; cbn; intros [= <- <-] y Hy; cbn in Hy; [by rewrite lookup_delete_eq in Hy|].
  cbn in E. congruence.
Qed.

Lemma event_idle e s fs s' :
  sessions_up s -> enabled e s = true -> idle_at c s [] -> run_event flags e s = (Ok fs, s') -> idle_at c s' fs.
Proof.
  intros Hu He Hi E.
  assert (forall s0, tame c s0 s' -> idle_at c s0 [] -> idle_at c s' fs) as Htame.
  { intros s0 Ht H0. rewrite <- (app_nil_r fs). eapply tame_idle; [done| |done]. intros Hin. by destruct (event_spares e s fs s' E). }
  assert (e = RunsTask \/ e <> RunsTask) as [->|Hr] by (destruct e; auto).
  - cbn [run_event] in E. rewrite M_bind_unfold in E. cbn [get] in E. destruct (g_tasks s) as [|t rest] eqn:Et.
    { apply (Htame s); [|done]. assert ((Ok [], s) = (Ok fs, s')) as [= _ <-] by exact E. done. }
    rewrite M_bind_unfold in E. cbn [modify] in E. destruct (decide (t = DrainTask c)) as [->|Ht]; [by eapply drain_task_idle|].
    apply (Htame (s <| g_tasks := rest |>)); [|by apply (pop_task_idle c t)].
    eapply evolves_run; [|exact E].
    destruct t as [token|conn]; cbn [run_task]; [walk|]. assert (conn <> c) as Hne by congruence. pose proof (DrainClient_tame c conn Hne). walk.
  - destruct (decide (client_event e = Some c)) as [Hc|Hc].
    + destruct e; try done; injection Hc as ->; [by eapply accept_idle|by eapply close_idle|by eapply message_idle].
    + apply (Htame s); [|done]. by eapply evolves_run, E; apply event_tame.
Qed.

(** What the conversation says of a session that does not execute. *)
Lemma conv_free s stack x :
  conv_all reads (snap s stack) -> g_sessions s !! c = Some x -> cs_closing x = false -> cs_executing x = false ->
  (CommandComplete c ∉ stack) /\ forall n key, g_callbacks s !! n <> Some (ReadCallback c key).
Proof.
  intros Hc Hx Hcl He. specialize (Hc c). unfold conv_inv in Hc.
  rewrite (live_view s stack c x Hx Hcl) in Hc. destruct (v_hist _) as [h|]; [|done]. pose proof (lo_count _ _ _ _ _ _ _ Hc) as Hn. cbn [tk_executing] in Hn. rewrite He in Hn.
  assert (owed (view c (snap s stack)) = O) as (_ & Hcb & _)%owed_zero by lia. split.
  - intros Hin. assert (v_done (view c (snap s stack)) <> O); [|lia]. change (occ c (dones stack) <> O). unfold occ. intros Hz%length_zero_iff_nil.
    apply (filter_nil_not_elem_of _ _ c Hz); [done|]. 
    apply list_elem_of_split in Hin as (l1 & l2 & ->). rewrite dones_app. apply elem_of_app. right. by left.
  - intros n key Hk. assert (callbacks_of c (g_callbacks s) !! n = Some (ReadCallback c key)) as Hl' by by apply callbacks_of_lookup.
    change (v_callbacks (view c (snap s stack))) with (callbacks_of c (g_callbacks s)) in Hcb. by rewrite Hcb in Hl'.
Qed.

Lemma frame_idle f s fs s' stack :
  base s -> conv_all reads (snap s (f :: stack)) -> in_node f = false -> idle_at c s (f :: stack) ->
  run_frame flags reads f s = (Ok fs, s') -> idle_at c s' (fs ++ stack).
Proof.
  intros Hb Hc Hn Hi E.
  assert (forall m : M Server (list frame), m s = (Ok fs, s') -> f <> ExecuteNext c -> evolves (tame c) m -> returns (spares c) m -> idle_at c s' (fs ++ stack)) as Htame.
  { intros m Em Hf Hm Hr. apply (tame_idle c s); [by eapply evolves_run|intros Hin; by destruct (Hr s fs s' Em)|by eapply pop_frame_idle]. }
  destruct f as [conn|conn| |index [|conn owners]| | |]; try done; cbn [run_frame] in E.
  - destruct (decide (conn = c)) as [->|Hne].
    + apply (ExecuteNext_idle flags reads c s); [apply Hb|done| |done]. intros x Hx Hcl He.
      destruct (conv_free s (ExecuteNext c :: stack) x Hc Hx Hcl He) as [Hd Hr]. split; [|done]. intros Hin. apply Hd. by right.
    + eapply Htame; [exact E|congruence|by apply ExecuteNext_tame|by apply execute_spares].
  - destruct (decide (conn = c)) as [->|Hne]; [by eapply complete_idle|].
    eapply Htame; [exact E|done|by apply OnCommandComplete_tame|by apply complete_spares].
  - cbn in E. injection E as <- <-. by eapply pop_frame_idle, Hi.
  - destruct (decide (conn = c)) as [->|Hne]; [eapply reject_idle; [apply Hb|by eapply pop_frame_idle, Hi|done]|].
    eapply Htame; [exact E|done|by apply reject_owner_tame|by apply reject_spares].
  - eapply Htame; [exact E|done|unfold no_frames; walk|unfold no_frames; sparing].
Qed.

Lemma idle_step l s stack s' stack' :
  base s -> conv_all reads (snap s stack) -> idle_at c s stack ->
  machine_step flags reads l s stack = Some (Ok stack', s') -> idle_at c s' stack'.
Proof.
  intros Hb Hc Hi Hl.
  destruct l as [|cb ok text|index|e], stack as [|f stack]; cbn [machine_step] in Hl; try done.
  - destruct (in_node f) eqn:Hn; [done|]. injection Hl as (fs & E & ->)%run_more. by eapply frame_idle.
  - destruct (in_node f); [|done]. destruct (g_callbacks s !! cb) as [k|] eqn:Hk; [|done]. injection Hl as (fs & E & ->)%run_more.
    destruct (decide (cb_conn k = c)) as [Hcb|Hne]; [by eapply (callback_idle c k cb ok text s); [|apply Hb|..]|].
    apply (tame_idle c s); [|intros Hin; by destruct (callback_spares k ok text Hne _ fs s' E)|done].
    etrans; [|eapply evolves_run; [by eapply run_callback_tame|exact E]].
    apply (tame_delete c (called cb [CallsBack cb ok text])). intros x. split_and!; [done..|]. apply delete_subseteq.
  - destruct f as [ | |owners| | | |]; try done; [|injection Hl as <- <-; by eapply pop_frame_idle, Hi..].
    destruct (may_return _ _ _); [|done]. injection Hl as (fs & E & ->)%run_more.
    apply (tame_idle c s); [eapply evolves_run; [apply OnProposed_tame|exact E]|intros Hin; by destruct (proposed_spares index owners s fs s' E)|by eapply pop_frame_idle, Hi].
  - destruct (enabled e s) eqn:He; [|done]. injection Hl as E. eapply event_idle; [apply Hb|done..].
Qed.
End Steps.

Lemma reachable_idle `{RocksDB} flags reads c s stack : server_reachable flags reads s stack -> idle_at c s stack.
Proof.
  induction 1 as [|env l s stack s' stack' Hr IH Hl]; [by intros x Hx|].
  destruct (server_converses flags reads s stack Hr) as (Hb & _ & Hc). by eapply idle_step.
Qed.
