(* ===== verification/ServerTermination.v ===== *)
(** Every handler returns: between two events, the server's functions and the node's
    callbacks can call one another only so often. *)
From stdpp Require Import base numbers strings gmap list.
From S2P Require Import Prelude Effects Text Resp Command Session Namespace Metrics Prometheus Policies.
From S2P Require Import Storage RaftLog KVStore KVStateMachine KVReplay Peers Config RaftState RaftNode.
From S2P Require Import Server ServerAccounting.

(** A command still to execute may cost a read request, its callback, the completion and
    the look for the next command; a refused owner a completion. *)
Definition frame_effort (f : frame) : Z :=
  match f with
  | CommandComplete _ => 2
  | Proposing owners => 2 + 3 * #owners
  | Rejecting _ owners => 1 + 3 * #owners
  | _ => 1
  end.
Definition stack_effort (stack : list frame) : Z := foldr (fun f n => frame_effort f + n) 0 stack.
Definition queued_commands (s : Server) : Z := msum (fun x => #(items (cs_queue x))) (g_sessions s).
Definition load (s : Server) : Z := 4 * queued_commands s + 3 * Z.of_nat (size (g_callbacks s)).
Definition effort (s : Server) (stack : list frame) : Z := load s + stack_effort stack.

Lemma stack_effort_app l1 l2 : stack_effort (l1 ++ l2) = stack_effort l1 + stack_effort l2.
Proof. unfold stack_effort. induction l1; cbn [app foldr] in *; lia. Qed.
Lemma effort_nonneg s stack : 0 <= effort s stack.
Proof.
  unfold effort, load, queued_commands.
  assert (0 <= msum (fun x => #(items (cs_queue x))) (g_sessions s)) by (apply msum_nonneg; intros; lia).
  assert (0 <= stack_effort stack); [|lia]. unfold stack_effort. induction stack as [|[] stack IH]; cbn [foldr frame_effort]; lia.
Qed.

(** Functions that leave the queues and the closures alone. *)
Definition light (s s' : Server) : Prop := load s' = load s.
#[export] Instance light_preorder : PreOrder light.
Proof. split; [by intros s|]. unfold light. intros s1 s2 s3. congruence. Qed.
Lemma light_session conn f : (forall x, cs_queue (f x) = cs_queue x) -> evolves light (on_session conn f).
Proof.
  intros Hf. apply evolves_modify. intros s. unfold light, load, queued_commands. cbn. rewrite msum_alter_same; [done|]. intros x. by rewrite Hf.
Qed.
Lemma light_others (f : Server -> Server) :
  (forall s, g_sessions (f s) = g_sessions s /\ g_callbacks (f s) = g_callbacks s) -> evolves light (modify f).
Proof. intros Hf. apply evolves_modify. intros s. unfold light, load, queued_commands. by destruct (Hf s) as [-> ->]. Qed.
Lemma light_policy {A} (m : M BatchFlushPolicy A) : evolves light (lens g_flush_policy (fun p s => s <| g_flush_policy := p |>) m).
Proof. intros s. unfold lens. by destruct (m _). Qed.

Section Effort.
Context `{RocksDB} (flags : Flags) (reads : ReadFlags).

#[local] Hint Extern 1 (evolves light (on_session _ _)) => apply light_session; intros ?; reflexivity : server.
#[local] Hint Extern 1 (evolves light (on_conn _ _)) => apply light_others; intros ?; split; reflexivity : server.
#[local] Hint Extern 1 (evolves light (modify _)) => apply light_others; intros ?; split; reflexivity : server.
#[local] Hint Resolve light_policy : server.

Context {step : StepEnv}.
Lemma AccountOutput_light conn : evolves light (AccountOutput conn).
Proof. unfold AccountOutput. walk. Qed.
Lemma CloseClient_light conn : evolves light (CloseClient conn).
Proof. unfold CloseClient, forceClose. walk. Qed.
Lemma overloaded_light : evolves light overloaded.
Proof. unfold overloaded. walk. Qed.
#[local] Hint Resolve AccountOutput_light CloseClient_light overloaded_light : server.
Lemma SendReply_light conn reply : evolves light (SendReply conn reply).
Proof. unfold SendReply, conn_send. walk. Qed.
Lemma ScheduleDrain_light conn : evolves light (ScheduleDrain conn).
Proof. unfold ScheduleDrain, queueInLoop. walk. Qed.
Lemma ScheduleFlush_light : evolves light (ScheduleFlush flags).
Proof. unfold ScheduleFlush, cancel_timer, queueInLoop. walk. Qed.
Lemma read_key_light key : evolves light (read_key key).
Proof. unfold read_key, tell. walk. Qed.
#[local] Hint Resolve SendReply_light ScheduleDrain_light ScheduleFlush_light read_key_light : server.

(** A function that may spend [n]. *)
Definition costs (n : Z) (m : M Server (list frame)) : Prop :=
  forall s fs s', m s = (Ok fs, s') -> load s' + stack_effort fs <= load s + n.
Lemma costs_ret fs n : stack_effort fs <= n -> costs n (mret fs).
Proof. intros Hn s ? ? [= <- <-]. lia. Qed.
Lemma costs_bind {A} n (m : M Server A) f : evolves light m -> (forall a, costs n (f a)) -> costs n (m ≫= f).
Proof.
  intros Hm Hf s fs s' E. rewrite M_bind_unfold in E. specialize (Hm s). unfold light in Hm.
  destruct (m s) as [[a|] s1]; [|done]. cbn in Hm. rewrite <- Hm. by apply (Hf a).
Qed.
Lemma costs_register n k f : (forall a, costs n (f a)) -> costs (3 + n) (register k ≫= f).
Proof.
  intros Hf s fs s' E. rewrite M_bind_unfold in E. unfold register in E. revert E. run. intros E%Hf. cbn in E.
  unfold load, queued_commands in *. cbn in E. pose proof (map_size_insert (g_next_callback s) k (g_callbacks s)) as Hz.
  destruct (g_callbacks s !! g_next_callback s); cbn in Hz; lia.
Qed.
Ltac costing :=
  cbv zeta;
  repeat first
    [ apply costs_ret; unfold stack_effort; cbn [foldr frame_effort length]; lia
    | apply costs_bind; [solve [walk]|intros ?; cbv zeta]
    | apply (costs_register 1); intros ?
    | match goal with |- costs _ (match ?x with _ => _ end) => destruct x end ].

Lemma complete_costs conn : costs 1 (OnCommandComplete conn).
Proof. unfold OnCommandComplete, startRead. costing. Qed.
Lemma reject_costs index owners : costs (3 * #owners) (reject_owner index owners).
Proof. unfold reject_owner, abandon. destruct owners; costing. Qed.
Lemma callback_costs k ok text : costs 2 (run_callback k ok text).
Proof. destruct k; cbn [run_callback]; unfold OnWriteDone, OnReadDone, abandon, reply_and_complete; costing. Qed.
Lemma read_costs conn args : costs 4 (execute_read reads conn args).
Proof. unfold execute_read, execute_get, reply_and_complete, tell. costing. Qed.
Lemma write_costs conn args : costs 4 (SubmitWrite flags conn args).
Proof. unfold SubmitWrite, reply_and_complete. costing. Qed.

Lemma execute_costs conn : costs 0 (ExecuteNextCommand flags reads conn).
Proof.
  unfold ExecuteNextCommand. intros s fs s'. rewrite M_bind_unfold. cbn [get]. cbv zeta.
  destruct (_ || negb _); [intros [= <- <-]; cbn; lia|]. unfold session_of.
  destruct (g_sessions s !! conn) as [x|] eqn:Hx; cbn [default from_option id].
  2:{ apply (costs_bind 0 (ScheduleDrain conn)); [walk|]. intros []. by apply costs_ret. }
  destruct (PopFront (cs_queue x)) as [[cmd q]|] eqn:Ep.
  2:{ apply (costs_bind 0 (ScheduleDrain conn)); [walk|]. intros []. by apply costs_ret. }
  run. match goal with |- _ ?y = _ -> _ => set (s1 := y) end.
  assert (load s1 = load s - 4) as Hl.
  { unfold load, queued_commands. subst s1. cbn. rewrite (msum_alter _ _ conn x) by done. cbn.
    unfold PopFront in Ep. destruct (items (cs_queue x)); [done|]. injection Ep as _ <-. cbn. lia. }
  assert (costs 4 (reply_and_complete conn (Error (qc_error_message cmd)))) as He by (unfold reply_and_complete; costing).
  destruct (qc_type cmd); intros E; [apply read_costs in E|apply write_costs in E|apply He in E]; lia.
Qed.

Lemma delete_owners_size (owners : list (bytes * nat)) (m : gmap nat callback) :
  (size (foldr (fun o => delete o.2) m owners) <= size m)%nat.
Proof.
  induction owners as [|o owners IH]; cbn; [done|]. etrans; [|exact IH]. rewrite map_size_delete. destruct (_ !! _); cbn; lia.
Qed.
Lemma proposed_costs index owners : costs (1 + 3 * #owners) (OnProposed index owners).
Proof.
  unfold OnProposed. destruct (index <? 0); [|apply costs_ret; cbn; lia]. intros s fs s' E. rewrite M_bind_unfold in E. cbn [modify] in E.
  assert (costs (1 + 3 * #owners) (when (index =? -2) (modify (fun s => s <| g_overload_rejections ::= Z.add #owners |>));; mret [Rejecting index (fst <$> owners)])) as Hc.
  { apply costs_bind; [walk|]. intros []. apply costs_ret. unfold stack_effort. cbn [foldr frame_effort]. rewrite length_fmap. lia. }
  apply Hc in E. unfold load, queued_commands in *. cbn [g_sessions g_callbacks] in E. pose proof (delete_owners_size owners (g_callbacks s)). cbn in E. lia.
Qed.

(** Every step of the thread but an event makes the effort smaller. *)
Lemma step_effort l s stack stack' s' :
  machine_step flags reads l s stack = Some (Ok stack', s') -> (forall e, l <> Event e) -> effort s' stack' < effort s stack.
Proof.
  intros Hl Hne. unfold effort.
  destruct l as [|cb ok text|index|e], stack as [|f stack]; cbn [machine_step] in Hl; try done; [| | |by destruct (Hne e)].
  - destruct (in_node f) eqn:Hn; [done|]. injection Hl as (fs & E & ->)%run_more. rewrite stack_effort_app.
    change (stack_effort (f :: stack)) with (frame_effort f + stack_effort stack).
    destruct f as [conn|conn| |i owners| | |]; try done; cbn [run_frame frame_effort] in *.
    + apply execute_costs in E. lia.
    + apply complete_costs in E. lia.
    + apply reject_costs in E. lia.
    + assert (costs 0 (no_frames (ScheduleFlush flags))) as Hc by (unfold no_frames; costing). apply Hc in E. lia.
  - destruct (in_node f); [|done]. destruct (g_callbacks s !! cb) as [k|] eqn:Hk; [|done]. injection Hl as (fs & E & ->)%run_more.
    rewrite stack_effort_app. apply callback_costs in E. unfold load, queued_commands in *. cbn in E.
    rewrite map_size_delete, Hk in E. cbn in E. assert (size (g_callbacks s) <> 0)%nat; [|lia].
    intros Hz%map_size_empty_inv. by rewrite Hz in Hk.
  - destruct f as [ | |owners| | | |]; try done; [|injection Hl as <- <-; unfold stack_effort; cbn [foldr frame_effort]; lia..].
    destruct (may_return _ _ _); [|done]. injection Hl as (fs & E & ->)%run_more. apply proposed_costs in E. rewrite stack_effort_app.
    change (stack_effort (Proposing owners :: stack)) with (2 + 3 * #owners + stack_effort stack). lia.
Qed.
End Effort.

(** A step that is not an event, in any environment. *)
Definition inner_step `{RocksDB} (flags : Flags) (reads : ReadFlags) (a b : Server * list frame) : Prop :=
  exists (env : StepEnv) l, (forall e, l <> Event e) /\ machine_step flags reads l a.1 a.2 = Some (Ok b.2, b.1).

Lemma inner_steps_bound `{RocksDB} flags reads n a b :
  nsteps (inner_step flags reads) n a b -> Z.of_nat n + effort b.1 b.2 <= effort a.1 a.2.
Proof.
  induction 1 as [|n a b c (env & l & Hne & Hl) _ IH]; [lia|]. pose proof (step_effort flags reads l _ _ _ _ Hl Hne). lia.
Qed.

(** The thread is never stuck inside a handler. *)
Lemma handler_steps `{RocksDB} flags reads (env : StepEnv) s f stack :
  exists l r s', (forall e, l <> Event e) /\ machine_step flags reads l s (f :: stack) = Some (r, s').
Proof.
  destruct (in_node f) eqn:Hn.
  - exists (Returns 0). destruct f; try done; cbn [machine_step].
    + eexists _, _. split; [done|]. unfold may_return. cbn [Z.leb orb Z.compare]. apply f_equal, surjective_pairing.
    + by eexists _, _.
    + by eexists _, _.
  - exists Runs. cbn [machine_step]. rewrite Hn. eexists _, _. split; [done|]. apply f_equal, surjective_pairing.
Qed.
