(* ===== verification/ServerTheorems.v ===== *)
(** What the server promises its clients and the node, for every run of the machine of
    [Server.v]: any clients, any timing of sockets, timers and queued functors, any
    behaviour of the node. *)
From stdpp Require Import base numbers strings gmap list.
From S2P Require Import Prelude Effects Text Resp Command Session Namespace Metrics Prometheus Policies.
From S2P Require Import Storage Messages RaftLog KVStore KVStateMachine KVReplay Peers Config RaftState RaftNode.
From S2P Require Import Server ServerAccounting Conversation ServerConversation ServerWrites ServerFlush ServerIdle ServerTermination.

Lemma owed_somewhere c writes callbacks :
  (length (writes_of c writes) + size (callbacks_of c callbacks))%nat <> O ->
  (exists w, w ∈ writes /\ qw_conn w = c) \/ (exists cb k, callbacks !! cb = Some k /\ cb_conn k = c).
Proof.
  intros Hn. destruct (writes_of c writes) as [|w ws] eqn:Hw.
  - right. destruct (map_choose (callbacks_of c callbacks)) as (cb & k & Hk).
    { intros He. rewrite He, map_size_empty in Hn. by cbn in Hn. }
    exists cb, k. by apply callbacks_of_lookup.
  - left. assert (w ∈ writes_of c writes) as Hin by (rewrite Hw; left).
    unfold writes_of in Hin. apply list_elem_of_fmap in Hin as (q & _ & Hq). apply list_elem_of_filter in Hq. naive_solver.
Qed.

(** [ProposeBatch] on a batch that passes its checks: what it answers. *)
Lemma bind_result {S A B} (P : result A -> Prop) (m : M S B) (f : B -> M S A) s :
  (forall e, P (Err e)) -> (forall b s, P (f b s).1) -> P ((m ≫= f) s).1.
Proof. intros He Hf. rewrite M_bind_unfold. destruct (m s) as [[b|e] s1]; [apply Hf|apply He]. Qed.

Lemma propose_refuses `{RocksDB, LogEntryCodec, Env} ps node :
  batch_ok ps -> 0 <= _last_index (_log node) -> (ProposeBatch ps node).1 = Ok (-2) ->
  kMaxPending - Z.of_nat (size (_pending node)) < #ps \/ kMaxPendingBytes - _pending_bytes node < proposal_bytes ps.
Proof.
  intros (Hne & Hlen & _ & total & Ht & Hb) Hi. unfold ProposeBatch. rewrite M_bind_unfold. cbn [get].
  destruct (negb _); [done|]. destruct (negb _); [done|]. rewrite bool_decide_eq_false_2 by done.
  destruct (Nat.ltb_spec kMaxBatchEntries (length ps)); [lia|]. cbn [orb].
  destruct (Z.ltb_spec (kMaxPending - Z.of_nat (size (_pending node))) #ps); [by left|]. rewrite Ht. apply admitted_total in Ht as ->.
  destruct (Z.ltb_spec (kMaxPendingBytes - _pending_bytes node) (0 + proposal_bytes ps)); [right; lia|]. cbn [orb].
  destruct (Z.ltb_spec (kMaxBatchBytes - 128 - #ps * 64) (0 + proposal_bytes ps)); [lia|]. destruct (_ <? _); [done|]. cbv zeta.
  set (P := fun r : result Z => r = Ok (-2) -> kMaxPending - Z.of_nat (size (_pending node)) < #ps \/ kMaxPendingBytes - _pending_bytes node < proposal_bytes ps).
  match goal with |- ?r = _ -> _ => change (P r) end.
  repeat (apply bind_result; [done|intros ? ?]). intros [= E]. lia.
Qed.

(** An incomplete frame is left as it is. *)
Lemma drain_partial now input queue n :
  queue_IsFull queue = false -> pr_state (TryParseOne (unread input)) = NeedMore ->
  DrainCommands now input queue (S n) true = (no_outcome, input, queue).
Proof.
  intros Hf Hm. unfold DrainCommands. cbn [drain_loop]. rewrite Hf. unfold buffer_Next. fold (unread input).
  rewrite bool_decide_eq_false_2 by congruence. by rewrite Hm.
Qed.

Lemma alter_same {A} (f : A -> A) (m : gmap bytes A) k x : m !! k = Some x -> f x = x -> alter f k m = m.
Proof.
  intros Hx Hf. apply map_eq. intros j. destruct (decide (j = k)) as [->|]; [|by rewrite lookup_alter_ne].
  rewrite lookup_alter_eq, Hx. cbn. by rewrite Hf.
Qed.
Lemma alter_back {A} (f g : A -> A) (m : gmap bytes A) k x : m !! k = Some x -> f (g x) = x -> alter f k (alter g k m) = m.
Proof.
  intros Hx Hf. apply map_eq. intros j. destruct (decide (j = k)) as [->|]; [|by rewrite !lookup_alter_ne].
  rewrite !lookup_alter_eq, Hx. cbn. by rewrite Hf.
Qed.
Lemma drained_same conn x s :
  g_sessions s !! conn = Some x -> 0 <= g_input_bytes s < 2 ^ 64 -> drained conn (cs_input x) (cs_queue x) 0 s = s.
Proof.
  intros Hx Hi. unfold drained. destruct s as [sessions]. cbn in *. rewrite Z.sub_0_r, uN_small by done.
  rewrite (alter_same _ sessions conn x Hx); [done|]. by destruct x.
Qed.

Section Partial.
Context (conn : bytes) (x : ClientSession) (s : Server).
Hypotheses (Hx : g_sessions s !! conn = Some x) (Hc : cs_closing x = false) (He : cs_executing x = false)
  (Hw : cs_waiting x = false) (Hd : cs_drain_scheduled x = false).

Definition rescheduled : Server :=
  s <| g_sessions ::= alter (fun c => c <| cs_drain_scheduled := true |>) conn |> <| g_tasks ::= fun l => l ++ [DrainTask conn] |>.

Lemma ScheduleDrain_again : UnreadBytes (cs_input x) <> 0 -> ScheduleDrain conn s = (Ok tt, rescheduled).
Proof.
  intros Hu. unfold ScheduleDrain, session_of. rewrite M_bind_unfold. cbn [get]. rewrite Hx. cbn [default from_option id]. rewrite Hc, Hw, Hd.
  by destruct (Z.eqb_spec (UnreadBytes (cs_input x)) 0).
Qed.

Lemma DrainClient_again `{RocksDB} {env : StepEnv} :
  connected conn s = true -> items (cs_queue x) = [] -> queue_IsFull (cs_queue x) = false -> UnreadBytes (cs_input x) <> 0 ->
  pr_state (TryParseOne (unread (cs_input x))) = NeedMore -> 0 <= g_input_bytes s < 2 ^ 64 ->
  DrainClient conn s = (Ok [], rescheduled).
Proof.
  intros Hup Hq Hf Hu Hm Hi. unfold DrainClient. rewrite M_bind_unfold. cbn [get]. unfold session_of. rewrite Hx. cbn [default from_option id].
  rewrite Hup, Hc, Hd, He, Hw. cbn [negb andb]. change kMaxCommandsPerTurn with (S 127). rewrite drain_partial by done.
  rewrite M_bind_unfold. cbn [on_session modify]. rewrite M_bind_unfold. cbn [modify].
  match goal with |- _ ?y = _ => change y with (drained conn (cs_input x) (cs_queue x) 0 s) end. rewrite drained_same by done.
  cbn [do_invalid do_stop_read no_outcome when]. rewrite M_bind_unfold. rewrite bool_decide_eq_true_2 by done. cbn [negb].
  change ((mret tt : M Server unit) s) with (@Ok unit tt, s). cbv iota. rewrite M_bind_unfold. cbn [get]. rewrite Hup. cbn [andb when].
  by rewrite M_bind_unfold, ScheduleDrain_again.
Qed.
End Partial.

Section Order.
Context `{RocksDB} (flags : Flags) (reads : ReadFlags).

(** C12. Replies answer commands, one by one and in order.  On every connection, whatever
    the interleaving of clients, of the node's callbacks (which may come from inside the
    server's own calls) and of disconnections: the commands executed are the first
    commands of the byte stream; the replies sent are, in this order, answers to them
    ([answer]: the node's answer to the proposal of that very write in the namespace of
    the connection, the value of the key read after the node confirmed the read, ...),
    possibly followed by one that reports the broken frame behind all of them.  Between
    handlers, a session has at most one command without its reply, and has one exactly
    while [executing]. *)
Theorem clients_are_answered_in_order s stack conn tc :
  server_reachable flags reads s stack -> g_conns s !! conn = Some tc -> tc_metrics tc = false ->
  history_ok reads (g_calls s) (MkHistory (tc_received tc) (tc_executed tc) (tc_sent tc)) /\
  forall session, stack = [] -> g_sessions s !! conn = Some session -> cs_closing session = false ->
    (length (tc_executed tc) = length (tc_sent tc) + if cs_executing session then 1 else 0)%nat.
Proof.
  intros Hr Htc Hm. destruct (server_converses flags reads s stack Hr) as (_ & _ & Hc). specialize (Hc conn).
  set (h := MkHistory (tc_received tc) (tc_executed tc) (tc_sent tc)).
  assert (v_hist (view conn (snap s stack)) = Some h) as Hh by (unfold view, hist_in; cbn; by rewrite Htc, Hm).
  unfold conv_inv in Hc. rewrite Hh in Hc. split; [destruct (v_live _); [by eapply live_history|done]|].
  intros session -> Hs Hcl. rewrite (live_view s [] conn session Hs Hcl) in Hc.
  destruct Hc as [_ _ _ _ Hcount Hsent _ _ _ _]. cbn [tk_executing hi_sent hi_executed h] in Hcount, Hsent.
  change (v_done (view conn (snap s []))) with O in Hcount. destruct (cs_executing session); lia.
Qed.

(** C13. No session is forgotten.  Between handlers, the command that an open session
    executes is in the write queue or with the node, which will call back; and a session
    that executes nothing has no command left to execute, and of its input either nothing
    is left or a functor that will parse it is in the loop's queue. *)
Theorem sessions_do_not_stall s conn session :
  server_reachable flags reads s [] -> g_sessions s !! conn = Some session -> cs_closing session = false ->
  if cs_executing session then
    (exists w, w ∈ g_writes s /\ qw_conn w = conn) \/ (exists cb k, g_callbacks s !! cb = Some k /\ cb_conn k = conn)
  else items (cs_queue session) = [] /\ (UnreadBytes (cs_input session) = 0 \/ DrainTask conn ∈ g_tasks s).
Proof.
  intros Hr Hs Hcl. destruct (cs_executing session) eqn:He.
  - destruct (server_converses flags reads s [] Hr) as (_ & _ & Hc). specialize (Hc conn). unfold conv_inv in Hc.
    rewrite (live_view s [] conn session Hs Hcl) in Hc. destruct (v_hist _) as [h|]; [|done].
    pose proof (lo_count _ _ _ _ _ _ _ Hc) as Hn. cbn [tk_executing] in Hn. rewrite He in Hn.
    apply owed_somewhere. unfold owed in Hn. cbn [v_writes v_callbacks v_reject view snap sn_server sn_reject sn_done] in Hn.
    change (v_done (view conn (snap s []))) with O in Hn. change (occ conn (rejects [])) with O in Hn. lia.
  - destruct (reachable_idle flags reads conn s [] Hr session Hs Hcl) as [_ Hn Hd].
    destruct (Hn He) as [Hin%elem_of_nil|[Hq [Hu|Hdr]]]; [done|by auto|]. split; [done|right; by apply Hd].
Qed.

(** C14. Queued writes are flushed.  Between handlers, while writes wait, the flush that
    the policy waits for is on its way, as a functor in the loop's queue or as an armed
    timer that was not cancelled; and when its functor runs, it does not throw and takes
    the first write off the queue, and then as many as its budget allows. *)
Theorem queued_writes_are_flushed s w rest :
  server_reachable flags reads s [] -> g_writes s = w :: rest ->
  exists token, on_its_way token s /\
    forall env : StepEnv, exists fs s', run_task (FlushTask token) s = (Ok fs, s') /\ g_writes s' `suffix_of` rest.
Proof.
  intros Hr Hw. destruct (reachable_live flags reads s [] Hr) as [H1 H2].
  destruct H2 as [[token Ht]|Hin%elem_of_nil]; [by rewrite Hw| |done]. exists token. split; [by apply H1|]. intros env.
  cbn [run_task]. unfold lens. rewrite M_bind_unfold. destruct (flush_Consume_live token _ Ht) as [E1 _].
  destruct (flush_Consume token (g_flush_policy s)) as [live p]. cbn in E1. subst live. rewrite M_bind_unfold. cbn [modify].
  match goal with |- context [FlushQueuedWrites ?x] => destruct (FlushQueuedWrites_ok x) as (fs & s' & E) end.
  exists fs, s'. split; [exact E|]. apply FlushQueuedWrites_takes in E as (_ & _ & Hf). by apply (Hf w).
Qed.

(** C15. What the server proposes is well formed.  Every batch it hands to the node has
    between 1 and 128 entries, each a command that all replicas decode and apply alike,
    and passes the size checks of [ProposeBatch]; so a node answers -2 (the client sees
    BUSY) only if its table of pending proposals has no room for it.  That a node that
    does not lead answers -1, and one whose storage failed -3, is not the subject. *)
Theorem proposed_batches_are_valid s stack ps :
  server_reachable flags reads s stack -> Proposes ps ∈ g_calls s ->
  batch_ok ps /\
  forall (codec : LogEntryCodec) (env : Env) node, 0 <= _last_index (_log node) -> (ProposeBatch ps node).1 = Ok (-2) ->
    kMaxPending - Z.of_nat (size (_pending node)) < #ps \/ kMaxPendingBytes - _pending_bytes node < proposal_bytes ps.
Proof.
  intros Hr Hin. pose proof (wv_calls s (reachable_valid flags reads s stack Hr) ps Hin) as Hb. split; [done|].
  intros codec env node. by apply propose_refuses.
Qed.

(** C17. Every handler returns.  Between two events the thread takes at most [effort]
    steps, however the node calls back from inside the server's calls: four for each
    queued command, three for each closure the node holds, and those of the frames on the
    stack.  And it is never stuck: while a handler runs, a step is possible. *)
Theorem handlers_return s stack :
  (forall n s' stack', nsteps (inner_step flags reads) n (s, stack) (s', stack') -> Z.of_nat n <= effort s stack) /\
  (stack <> [] -> forall env : StepEnv, exists l r s', (forall e, l <> Event e) /\ machine_step flags reads l s stack = Some (r, s')).
Proof.
  split.
  - intros n s' stack' Hn%inner_steps_bound. cbn in Hn. pose proof (effort_nonneg s' stack'). lia.
  - intros Hne env. destruct stack as [|f stack]; [done|]. apply handler_steps.
Qed.

(** C18. A partial frame keeps the event loop busy.  When the functor queued by
    [ScheduleDrain] runs for an idle session that holds the beginning of a command, it
    parses nothing and queues itself again: the state is what it was, with the functor
    last in the queue.  So until the client sends more, the loop never waits. *)
Theorem partial_frames_spin (env : StepEnv) s conn x rest :
  g_sessions s !! conn = Some x -> connected conn s = true -> cs_closing x = false -> cs_executing x = false ->
  cs_waiting x = false -> cs_drain_scheduled x = true -> items (cs_queue x) = [] -> queue_IsFull (cs_queue x) = false ->
  (offset_ (cs_input x) < length (bytes_ (cs_input x)))%nat ->
  pr_state (TryParseOne (unread (cs_input x))) = NeedMore -> 0 <= g_input_bytes s < 2 ^ 64 ->
  g_tasks s = DrainTask conn :: rest ->
  machine_step flags reads (Event RunsTask) s [] = Some (Ok [], s <| g_tasks := rest ++ [DrainTask conn] |>).
Proof.
  intros Hx Hup Hc He Hw Hd Hq Hfull Ho Hm Hi Ht. cbn [machine_step]. unfold enabled. rewrite Ht.
  rewrite bool_decide_eq_false_2 by done. cbn [negb]. f_equal. cbn [run_event]. rewrite M_bind_unfold. cbn [get]. rewrite Ht.
  rewrite M_bind_unfold. cbn [modify run_task]. rewrite M_bind_unfold. cbn [get].
  change (g_sessions (s <| g_tasks := rest |>)) with (g_sessions s). rewrite Hx. rewrite M_bind_unfold. cbn [on_session modify].
  rewrite (DrainClient_again conn (x <| cs_drain_scheduled := false |>)); try done.
  - f_equal. unfold rescheduled. destruct s as [sessions]. cbn in *. 
    rewrite (alter_back _ _ sessions conn x Hx); [done|]. destruct x. cbn in *. by subst.
  - cbn. by rewrite lookup_alter_eq, Hx.
  - unfold UnreadBytes. cbn. lia.
Qed.
End Order.

(** * A server with one client *)

Module ServerWitness.
Import MemDB.

(** A running leader, a clock that stands still, a socket that takes everything. *)
Definition leader : RaftNode :=
  (initial_node 0 [] (fresh ∅) (fresh ∅) false) <| _running := true |> <| _state := LEADER |> <| _leader_id := 0 |>.
#[local] Instance env : StepEnv := {| se_raft := leader; se_now := fun _ => 0; se_taken := 1000000 |}.
Definition flags : Flags := MkFlags 0 6380 9080 0 (lit "") 0 10 0.
Definition reads : ReadFlags := MkReadFlags true false.
Definition a : bytes := lit "a".

Fixpoint go (ls : list label) (s : Server) (stack : list frame) : option (Server * list frame) :=
  match ls with
  | [] => Some (s, stack)
  | l :: ls =>
      match machine_step flags reads l s stack with
      | Some (Ok stack', s') => go ls s' stack'
      | _ => None
      end
  end.
Definition after (ls : list label) : Server * list frame := default (new_server, []) (go ls new_server []).

Lemma go_reachable ls s stack s' stack' :
  server_reachable flags reads s stack -> go ls s stack = Some (s', stack') -> server_reachable flags reads s' stack'.
Proof.
  revert s stack. induction ls as [|l ls IH]; intros s stack Hr; cbn [go]; [by intros [= <- <-]|].
  destruct (machine_step flags reads l s stack) as [[[st|] x]|] eqn:E; [|done..]. apply IH. by eapply reach_step.
Qed.
Lemma after_reachable ls : server_reachable flags reads (after ls).1 (after ls).2.
Proof.
  unfold after. destruct (go ls new_server []) as [[s stack]|] eqn:E; [by eapply go_reachable, E; constructor|constructor].
Qed.

(** The client sends a write and a read in one packet. *)
Definition packet : bytes := SerializeCommand [lit "set"; lit "k"; lit "v"] ++ SerializeCommand [lit "GET"; lit "k"].
Definition submitted : list label := [Event (Accepts a); Event (Receives a packet); Runs].
(** The flush proposes the write; the node answers from inside [ProposeBatch], and the
    completion starts the read, whose answer comes from inside [RequestReadIndex]. *)
Definition answered : list label :=
  submitted ++ [Event RunsTask; Calls 0 true (lit "+OK" ++ crlf); Runs; Runs; Calls 1 true []; Runs; Runs; Returns 0; Returns 1; Runs].
Definition partial : list label := [Event (Accepts a); Event (Receives a (lit "*2"))].

Lemma after_idle ls : (after ls).2 = [] -> server_reachable flags reads (after ls).1 [].
Proof. intros <-. apply after_reachable. Qed.
Definition conn_a (ls : list label) : TcpConnection := default (new_connection false) (g_conns (after ls).1 !! a).
Definition session_a (ls : list label) : ClientSession := session_of a (after ls).1.

Lemma clients_are_answered_in_order_witness :
  tc_sent (conn_a answered) = [lit "+OK" ++ crlf; lit "$-1" ++ crlf] /\
  history_ok reads (g_calls (after answered).1) (MkHistory packet (tc_executed (conn_a answered)) (tc_sent (conn_a answered))).
Proof.
  split; [by vm_compute|]. replace packet with (tc_received (conn_a answered)) by by vm_compute.
  apply (clients_are_answered_in_order flags reads (after answered).1 (after answered).2 a (conn_a answered));
    [apply after_reachable|by vm_compute|by vm_compute].
Defined.

Lemma server_accounting_witness : g_queued_write_bytes (after submitted).1 = 35 /\ accounting_ok flags (after submitted).1.
Proof.
  split; [by vm_compute|]. apply (server_accounting flags reads (after submitted).1 (after submitted).2); [by vm_compute|apply after_reachable].
Defined.

Lemma sessions_do_not_stall_witness :
  (exists w, w ∈ g_writes (after submitted).1 /\ qw_conn w = a) \/ (exists cb k, g_callbacks (after submitted).1 !! cb = Some k /\ cb_conn k = a).
Proof.
  apply (sessions_do_not_stall flags reads (after submitted).1 a (session_a submitted)); [apply after_idle; by vm_compute|by vm_compute|by vm_compute].
Defined.

Definition first_write : QueuedWrite := default (MkQueuedWrite [] [] 0) (head (g_writes (after submitted).1)).
Lemma queued_writes_are_flushed_witness :
  exists token, on_its_way token (after submitted).1 /\
    forall env : StepEnv, exists fs s', run_task (FlushTask token) (after submitted).1 = (Ok fs, s') /\ g_writes s' `suffix_of` [].
Proof.
  apply (queued_writes_are_flushed flags reads (after submitted).1 first_write []); [apply after_idle; by vm_compute|by vm_compute].
Defined.

Definition first_batch : list Proposal :=
  match head (g_calls (after answered).1) with Some (Proposes ps) => ps | _ => [] end.
Lemma proposed_batches_are_valid_witness : length first_batch = 1%nat /\ batch_ok first_batch.
Proof.
  split; [by vm_compute|]. apply (proposed_batches_are_valid flags reads (after answered).1 (after answered).2 first_batch); [apply after_reachable|].
  replace (g_calls (after answered).1) with (Proposes first_batch :: tail (g_calls (after answered).1)) by by vm_compute. by left.
Defined.

(** A state that the loop never leaves by itself. *)
Lemma partial_frames_spin_witness :
  server_reachable flags reads (after partial).1 [] /\
  machine_step flags reads (Event RunsTask) (after partial).1 [] = Some (Ok [], (after partial).1 <| g_tasks := [DrainTask a] |>).
Proof.
  split; [apply after_idle; by vm_compute|].
  apply (partial_frames_spin flags reads env (after partial).1 a (session_a partial) []);
    first [by vm_compute|apply Nat.ltb_lt; by vm_compute].
Defined.
End ServerWitness.
