(* ===== verification/RaftProtocol.v ===== *)
(** The Raft protocol: the abstract specification of a node.

    A protocol node has a term, a vote, a role, the votes it counted, its whole
    log from index 1 on (compacted or not), its commit index, the index its state
    machine has durably applied, and a leader's match indices.  [pstep] is one
    atomic action of such a node: it may depend on the message being handled, and
    emits messages.  [wstep] interleaves the actions of the members of a cluster
    whose network loses, duplicates, delays and reorders messages; nodes crash
    and restart at any point.

    [ProtocolTheorems] states that the protocol is safe; the [Node...] files and [ClusterSafety]
    prove that the code of [RaftNode] only performs actions of this protocol. *)
From stdpp Require Import base numbers strings gmap functions list.
From S2P Require Import Prelude Effects Messages KVReplay RaftState.

(** * Logs as lists *)

(** The first [i] entries. *)
Definition upto (L : list LogEntry) (i : Z) : list LogEntry := take (Z.to_nat i) L.

(** The term at an index: 0 at the origin, -1 outside. *)
Definition term_at (L : list LogEntry) (i : Z) : Z :=
  if i =? 0 then 0
  else if i <? 0 then -1
  else match L !! Z.to_nat (i - 1) with Some e => term e | None => -1 end.

(** The log ending at [(li, lt)] is at least as up to date as [L]. *)
Definition up_to_date (li lt : Z) (L : list LogEntry) : Prop :=
  term_at L #L < lt \/ (lt = term_at L #L /\ #L <= li).

(** * Nodes *)

(** A read a leader was asked for: its callback, the commit index at that moment,
    and what the members had sent by then. *)
Record inquiry := mkInquiry {
  ask_callback : nat;
  ask_index : Z;
  ask_net : list (Z * Effect);
}.

Record pnode := mkPnode {
  p_term : Z;
  p_voted : Z; (* -1: none *)
  p_role : NodeState;
  p_votes : gset Z;
  p_log : list LogEntry;
  p_commit : Z;
  p_applied : Z; (* durable *)
  p_match : gmap Z Z;
  p_seq : Z; (* the last RPC identifier *)
  p_recv : list LogEntry; (* the prefix whose snapshot is being received *)
  p_asks : list inquiry; (* the reads asked for in this leadership *)
  p_answers : list (Z * nat); (* the answers heard in this leadership: whose, and which of its answers *)
}.

#[export] Instance pnode_fields : Fields pnode :=
  {| rebuild := fun r => mkPnode (p_term r) (p_voted r) (p_role r) (p_votes r) (p_log r)
       (p_commit r) (p_applied r) (p_match r) (p_seq r) (p_recv r) (p_asks r) (p_answers r);
     rebuild_id := fun r => match r with mkPnode _ _ _ _ _ _ _ _ _ _ _ _ => eq_refl end |}.

Definition p_initial : pnode := mkPnode 0 (-1) FOLLOWER ∅ [] 0 0 ∅ 0 [] [] [].

(** What an action adds to the history of the cluster. *)
Inductive event :=
  | Tau
  | Voted (candidate : Z)
  | Campaigned
  | Won
  | Appended (es : list LogEntry)
  | Acked (l : Z).

(** Messages that promise nothing. *)
Definition harmless_message (m : Message) : Prop :=
  match m with
  | MRequestVote r => rv_prevote r = true
  | MRequestVoteResponse r => rvr_vote_granted r = false \/ rvr_prevote r = true
  | MAppendEntries r => ae_prev_log_term r < 0
  | MAppendEntriesResponse _ => False
  | MInstallSnapshot _ => False
  | MInstallSnapshotResponse r => isr_success r = false \/ isr_complete r = false
  end.
Definition harmless (e : Effect) : Prop :=
  match e with
  | Sent _ m => harmless_message m
  | Broadcasted m => match m with MRequestVote r => rv_prevote r = true | _ => False end
  | ProposeReply _ ok _ | ReadReply _ ok _ _ => ok = false
  | _ => True
  end.

(** The index an [AppendEntries] request ends at, and the term there. *)
Definition ae_end (r : AppendEntries) : Z := ae_prev_log_index r + #(ae_entries r).
Definition ae_end_term (r : AppendEntries) : Z :=
  match last (ae_entries r) with Some e => term e | None => ae_prev_log_term r end.

(** [r] is a request a leader with this term, log and commit index may send. *)
Definition ae_from (id t : Z) (L : list LogEntry) (commit : Z) (r : AppendEntries) : Prop :=
  ae_term r = t /\ ae_leader_id r = id /\ 0 <= ae_prev_log_index r /\
  ae_prev_log_term r = term_at L (ae_prev_log_index r) /\
  upto L (ae_end r) = upto L (ae_prev_log_index r) ++ ae_entries r /\ ae_end r <= #L /\
  ae_leader_commit r <= commit.

Definition next_entries (i t : Z) (es : list LogEntry) : Prop :=
  forall j e, es !! j = Some e -> index e = i + Z.of_nat j + 1 /\ term e = t /\ valid_command (command e) = true.

(** [r] carries a piece of the snapshot of [P]. *)
Definition chunk_of (P : list LogEntry) (r : Messages.InstallSnapshot) : Prop :=
  exists d, snapshot_of P d /\ 0 <= is_offset r /\ is_offset r + #(is_data r) <= #d /\
    is_data r = take (length (is_data r)) (drop (Z.to_nat (is_offset r)) d) /\
    (is_done r = true -> is_offset r + #(is_data r) = #d).

(** What the environment asks for: the command each callback was proposed with; the
    callbacks of writes that had been acknowledged when the read of a callback was
    requested; whether reads may be served from leases; and whether an answer may reach
    another process than the one that sent the request ([Cluster]). *)
Class Requests := {
  command_of : nat -> bytes;
  told_before : nat -> list nat;
  leases : bool;
  crossing : bool;
}.

(** With either liberty, reads promise nothing. *)
Definition lenient {asks : Requests} : bool := leases || crossing.

(** What a process knows of the network: all that has been sent, and how much of it had
    been sent when the process started. *)
Record outlook := mkOutlook {
  known : list (Z * Effect);
  since : nat;
}.

(** What a node relies on of the rest of the cluster: the log of the leader of each
    term, and the network. *)
Record outside := mkOutside {
  lead_of :> Z -> list LogEntry;
  look : outlook;
}.
Definition seen (lead : outside) : list (Z * Effect) := known (look lead).

(** The members of [told] have been told that their writes are done. *)
Definition all_told (told : list nat) (net : list (Z * Effect)) : Prop :=
  forall cb, cb ∈ told -> exists q reply, (q, ProposeReply cb true reply) ∈ net.

(** * Answers *)

Definition is_answer (e : Effect) : bool := match e with Sent _ (MAppendEntriesResponse _) => true | _ => false end.
Definition answers (l : list Effect) : list Effect := filter (fun e => is_answer e = true) l.

Definition sent_by (q : Z) (net : list (Z * Effect)) : list Effect :=
  snd <$> filter (fun x => x.1 = q) net.

(** The answers of [v] to requests of log replication, in the order it sent them. *)
Definition answers_of (v : Z) (net : list (Z * Effect)) : list Effect := answers (sent_by v net).

Lemma answers_app l l' : answers (l ++ l') = answers l ++ answers l'.
Proof. apply filter_app. Qed.

Lemma answers_none l : (forall e, e ∈ l -> is_answer e = false) -> answers l = [].
Proof.
  induction l as [|e l IH]; intros Hl; [done|]. unfold answers. rewrite filter_cons_False; [apply IH; set_solver|].
  rewrite (Hl e ltac:(left)). done.
Qed.

Lemma elem_of_answers e l : e ∈ answers l <-> e ∈ l /\ is_answer e = true.
Proof. unfold answers. rewrite list_elem_of_filter. tauto. Qed.

Lemma sent_by_net_app q net net' : sent_by q (net ++ net') = sent_by q net ++ sent_by q net'.
Proof. unfold sent_by. by rewrite filter_app, fmap_app. Qed.

Lemma answers_of_app v net net' : answers_of v (net ++ net') = answers_of v net ++ answers_of v net'.
Proof. unfold answers_of. by rewrite sent_by_net_app, answers_app. Qed.

Lemma answers_of_prefix v net net' : net `prefix_of` net' -> answers_of v net `prefix_of` answers_of v net'.
Proof. intros [k ->]. rewrite answers_of_app. by apply prefix_app_r. Qed.

(** The place of an answer among those of its sender. *)
Lemma answers_of_at v e net j :
  net !! j = Some (v, e) -> is_answer e = true -> answers_of v net !! length (answers_of v (take j net)) = Some e.
Proof.
  intros Hj He. rewrite <- (take_drop_middle _ _ _ Hj) at 2. rewrite answers_of_app, lookup_app_r, Nat.sub_diag by lia.
  unfold answers_of, sent_by, answers. by rewrite filter_cons_True, fmap_cons, filter_cons_True.
Qed.

Section Protocol.
Context {asks : Requests} (members : gset Z).

Definition majority (Q : gset Z) : Prop := Q ⊆ members /\ Z.of_nat (size members) / 2 < Z.of_nat (size Q).

(** [me] has heard, in this leadership, from a majority whose answers were not yet
    sent when [a] was asked. *)
Definition confirmed (me : Z) (heard : list (Z * nat)) (a : inquiry) : Prop :=
  exists Q, majority Q /\ forall v, v ∈ Q -> v = me \/
    exists n, (v, n) ∈ heard /\ (length (answers_of v (ask_net a)) <= n)%nat.

(** The actions of node [me], while it handles the message [box]; [lead t] is
    the log of the leader of term [t], [sent] what the node has sent so far. *)
Inductive pstep (me : Z) (box : option (Z * Message)) (lead : outside) (sent : list Effect)
  (p : pnode) : event -> list Effect -> pnode -> Prop :=
  (* roles and votes *)
  | P_step_down r :
      r = FOLLOWER \/ r = PRE_CANDIDATE ->
      pstep me box lead sent p Tau [] (p <| p_role := r |> <| p_votes := ∅ |>)
  | P_adopt t :
      p_term p < t ->
      pstep me box lead sent p Tau []
        (p <| p_term := t |> <| p_voted := -1 |> <| p_role := FOLLOWER |> <| p_votes := ∅ |>)
  | P_campaign :
      pstep me box lead sent p Campaigned
        [Broadcasted (MRequestVote (mkRequestVote (p_term p + 1) me #(p_log p) (term_at (p_log p) #(p_log p)) false))]
        (p <| p_term ::= Z.succ |> <| p_voted := me |> <| p_role := CANDIDATE |> <| p_votes := {[me]} |>)
  | P_vote c r :
      box = Some (c, MRequestVote r) -> rv_prevote r = false -> rv_term r = p_term p -> c <> me -> c ∈ members ->
      p_voted p = -1 \/ p_voted p = c ->
      up_to_date (rv_last_log_index r) (rv_last_log_term r) (p_log p) ->
      pstep me box lead sent p (Voted c)
        [Sent c (MRequestVoteResponse (mkRequestVoteResponse (p_term p) true false))] (p <| p_voted := c |>)
  | P_count v r :
      box = Some (v, MRequestVoteResponse r) -> rvr_vote_granted r = true -> rvr_prevote r = false ->
      rvr_term r = p_term p -> p_role p = CANDIDATE -> v ∈ members ->
      pstep me box lead sent p Tau [] (p <| p_votes ::= fun vs => {[v]} ∪ vs |>)
  | P_win :
      p_role p = CANDIDATE -> majority (p_votes p) ->
      pstep me box lead sent p Won []
        (p <| p_role := LEADER |> <| p_votes := ∅ |> <| p_match := ∅ |> <| p_asks := [] |> <| p_answers := [] |>)
  (* the leader *)
  | P_append es :
      p_role p = LEADER -> next_entries #(p_log p) (p_term p) es ->
      pstep me box lead sent p (Appended es) [] (p <| p_log ::= fun L => L ++ es |>)
  | P_match_self v :
      p_role p = LEADER -> v <= #(p_log p) -> me ∈ members ->
      pstep me box lead sent p Tau [] (p <| p_match ::= <[me := v]> |>)
  | P_send_append peer r :
      p_role p = LEADER -> ae_from me (p_term p) (p_log p) (p_commit p) r ->
      pstep me box lead sent p Tau [Sent peer (MAppendEntries r)] p
  | P_send_snapshot peer r :
      p_role p = LEADER -> is_term r = p_term p -> is_leader_id r = me ->
      0 < is_last_included_index r <= p_commit p ->
      is_last_included_term r = term_at (p_log p) (is_last_included_index r) ->
      chunk_of (upto (p_log p) (is_last_included_index r)) r -> p_seq p < is_rpc_id r ->
      pstep me box lead sent p Tau [Sent peer (MInstallSnapshot r)] (p <| p_seq := is_rpc_id r |>)
  | P_match_append v r m :
      box = Some (v, MAppendEntriesResponse r) -> p_role p = LEADER -> aer_term r = p_term p ->
      aer_success r = true -> v ∈ members -> m <= aer_last_log_index r ->
      pstep me box lead sent p Tau [] (p <| p_match ::= <[v := m]> |>)
  | P_match_snapshot v r peer s m :
      box = Some (v, MInstallSnapshotResponse r) -> p_role p = LEADER -> isr_term r = p_term p ->
      isr_success r = true -> isr_complete r = true -> v ∈ members ->
      Sent peer (MInstallSnapshot s) ∈ sent -> is_term s = p_term p -> is_rpc_id s = isr_rpc_id r ->
      m <= is_last_included_index s ->
      pstep me box lead sent p Tau [] (p <| p_match ::= <[v := m]> |>)
  | P_lead_commit c Q :
      p_role p = LEADER -> majority Q -> (forall k, k ∈ Q -> exists v, p_match p !! k = Some v /\ c <= v) ->
      0 < c -> term_at (p_log p) c = p_term p -> p_commit p <= c ->
      pstep me box lead sent p Tau [] (p <| p_commit := c |>)
  (* reads *)
  | P_ask cb :
      p_role p = LEADER -> term_at (p_log p) (p_commit p) = p_term p -> all_told (told_before cb) (seen lead) ->
      pstep me box lead sent p Tau [] (p <| p_asks ::= cons (mkInquiry cb (p_commit p) (seen lead)) |>)
  | P_answer v r n :
      p_role p = LEADER -> aer_term r = p_term p -> answers_of v (seen lead) !! n = Some (Sent me (MAppendEntriesResponse r)) ->
      pstep me box lead sent p Tau [] (p <| p_answers ::= cons (v, n) |>)
  | P_read a :
      p_role p = LEADER -> a ∈ p_asks p -> confirmed me (p_answers p) a -> ask_index a <= p_applied p ->
      pstep me box lead sent p Tau [ReadReply (ask_callback a) true (ask_index a) []] p
  | P_lenient_read cb i :
      lenient = true -> pstep me box lead sent p Tau [ReadReply cb true i []] p
  (* the follower *)
  | P_truncate c r e :
      box = Some (c, MAppendEntries r) -> ae_term r = p_term p -> c <> me -> 0 <= ae_prev_log_term r ->
      e ∈ ae_entries r -> p_commit p < index e <= #(p_log p) -> term_at (p_log p) (index e) <> term e ->
      pstep me box lead sent p Tau [] (p <| p_log ::= fun L => upto L (index e - 1) |>)
  | P_follow c r :
      box = Some (c, MAppendEntries r) -> ae_term r = p_term p -> c <> me -> 0 <= ae_prev_log_term r ->
      ae_prev_log_index r <= #(p_log p) < ae_end r ->
      (#(p_log p) = ae_prev_log_index r /\ term_at (p_log p) #(p_log p) = ae_prev_log_term r) \/
      (exists e, e ∈ ae_entries r /\ index e = #(p_log p) /\ term_at (p_log p) #(p_log p) = term e) ->
      pstep me box lead sent p Tau []
        (p <| p_log ::= fun L => L ++ drop (Z.to_nat (#L - ae_prev_log_index r)) (ae_entries r) |>)
  | P_ack_append c r :
      box = Some (c, MAppendEntries r) -> ae_term r = p_term p -> c <> me -> 0 <= ae_prev_log_term r ->
      ae_end r <= p_commit p \/ term_at (p_log p) (ae_end r) = ae_end_term r ->
      pstep me box lead sent p (Acked (ae_end r))
        [Sent c (MAppendEntriesResponse (mkAppendEntriesResponse (p_term p) true (ae_end r) (ae_rpc_id r)))] p
  | P_refuse_append c r i :
      box = Some (c, MAppendEntries r) ->
      pstep me box lead sent p Tau
        [Sent c (MAppendEntriesResponse (mkAppendEntriesResponse (p_term p) false i (ae_rpc_id r)))] p
  | P_follow_commit c r i :
      box = Some (c, MAppendEntries r) -> ae_term r = p_term p -> c <> me -> 0 <= ae_prev_log_term r ->
      term_at (p_log p) (ae_end r) = ae_end_term r -> p_commit p <= i ->
      i <= ae_leader_commit r -> i <= ae_end r ->
      pstep me box lead sent p Tau [] (p <| p_commit := i |>)
  | P_receive c r :
      box = Some (c, MInstallSnapshot r) -> is_term r = p_term p -> c <> me ->
      pstep me box lead sent p Tau [] (p <| p_recv := upto (lead (p_term p)) (is_last_included_index r) |>)
  | P_install c r :
      box = Some (c, MInstallSnapshot r) -> is_term r = p_term p -> c <> me ->
      pstep me box lead sent p Tau []
        (p <| p_log := if term_at (p_log p) (is_last_included_index r) =? is_last_included_term r then p_log p
                       else upto (lead (p_term p)) (is_last_included_index r) |>
           <| p_commit ::= Z.max (is_last_included_index r) |>)
  | P_ack_snapshot c r :
      box = Some (c, MInstallSnapshot r) -> is_term r = p_term p -> c <> me ->
      is_last_included_index r <= p_commit p ->
      pstep me box lead sent p (Acked (is_last_included_index r))
        [Sent c (MInstallSnapshotResponse (mkInstallSnapshotResponse (p_term p) true true (is_rpc_id r)))] p
  (* the rest *)
  | P_apply a :
      p_applied p <= a <= p_commit p -> pstep me box lead sent p Tau [] (p <| p_applied := a |>)
  | P_restart :
      pstep me box lead sent p Tau []
        (p <| p_role := FOLLOWER |> <| p_votes := ∅ |> <| p_match := ∅ |> <| p_seq := 0 |>
           <| p_commit := p_applied p |> <| p_asks := [] |> <| p_answers := [] |>)
  | P_reply cb reply i e :
      p_role p = LEADER -> term e = p_term p -> 0 < i <= p_commit p -> p_log p !! Z.to_nat (i - 1) = Some e -> command e = command_of cb ->
      replies (upto (p_log p) (i - 1)) [e] = [reply] ->
      pstep me box lead sent p Tau [ProposeReply cb true reply] p
  | P_emit e :
      harmless e \/ (e ∈ sent /\ is_answer e = false) -> pstep me box lead sent p Tau [e] p.

(** * The cluster *)

(** The history: who led each term, the leaders' logs, the votes (each with the
    voter's log at that moment), and what was acknowledged in which term. *)
Record history := mkHistory {
  h_leader : gmap Z Z;
  h_logs : gmap Z (list LogEntry);
  h_votes : gmap (Z * Z) (Z * list LogEntry); (* (voter, term) *)
  h_acks : gset (Z * Z * Z); (* (node, term, index) *)
}.
#[export] Instance history_fields : Fields history :=
  {| rebuild := fun r => mkHistory (h_leader r) (h_logs r) (h_votes r) (h_acks r);
     rebuild_id := fun r => match r with mkHistory _ _ _ _ => eq_refl end |}.

Definition lead_log (h : history) (t : Z) : list LogEntry := default [] (h_logs h !! t).

(** The history after node [q], in state [p], performed an action. *)
Definition recorded (q : Z) (p : pnode) (ev : event) (h : history) : history :=
  match ev with
  | Tau => h
  | Voted c =>
      match h_votes h !! (q, p_term p) with
      | Some _ => h
      | None => h <| h_votes ::= <[(q, p_term p) := (c, p_log p)]> |>
      end
  | Campaigned => h <| h_votes ::= <[(q, p_term p + 1) := (q, p_log p)]> |>
  | Won => h <| h_leader ::= <[p_term p := q]> |> <| h_logs ::= <[p_term p := p_log p]> |>
             <| h_acks ::= fun a => {[(q, p_term p, #(p_log p))]} ∪ a |>
  | Appended es => h <| h_logs ::= <[p_term p := p_log p ++ es]> |>
                     <| h_acks ::= fun a => {[(q, p_term p, #(p_log p) + #es)]} ∪ a |>
  | Acked l => h <| h_acks ::= fun a => {[(q, p_term p, l)]} ∪ a |>
  end.

Record world := mkWorld {
  w_node : Z -> pnode;
  w_history : history;
  w_net : list (Z * Effect); (* everything ever sent, with its sender *)
}.

Definition deliverable (net : list (Z * Effect)) (q : Z) (box : option (Z * Message)) : Prop :=
  match box with
  | None => True
  | Some (from, m) => (from, Sent q m) ∈ net \/ (from, Broadcasted m) ∈ net
  end.

(** What node [q] sees of the network: only what was sent, and the answers of the
    others, in order. *)
Definition sees (q : Z) (net' net : list (Z * Effect)) : Prop :=
  (forall x, x ∈ net' -> x ∈ net) /\ forall v, v <> q -> answers_of v net' = answers_of v net.

Inductive wstep (w : world) : world -> Prop :=
  | W_step q box o ev out p' :
      q ∈ members -> deliverable (w_net w) q box -> sees q (known o) (w_net w) ->
      pstep q box (mkOutside (lead_log (w_history w)) o) (sent_by q (w_net w)) (w_node w q) ev out p' ->
      wstep w (mkWorld (<[q := p']> (w_node w)) (recorded q (w_node w q) ev (w_history w))
                 (w_net w ++ ((q,.) <$> out))).

Definition w_initial : world := mkWorld (fun _ => p_initial) (mkHistory ∅ ∅ ∅ ∅) [].

End Protocol.
