(* ===== verification/ProtocolSafety.v ===== *)
(** Safety of the protocol of [RaftProtocol].

    The invariant of a cluster is stated about its history: votes are unique per
    term, every prefix of a log that ends with an entry of term [T] is a prefix
    of the log of the leader of [T], and an entry acknowledged in its leader's
    term stays in the acknowledging log unless some later leader was elected
    without it.  From it follow election safety, log matching, leader
    completeness and state machine safety. *)
From stdpp Require Import base numbers strings gmap functions list.
From S2P Require Import Prelude Effects Messages KVReplay RaftState RaftProtocol.

(** * Prefixes *)

Lemma upto_prefix L i : upto L i `prefix_of` L.
Proof. apply prefix_take. Qed.

Lemma length_upto L i : 0 <= i <= #L -> #(upto L i) = i.
Proof. intros Hi. unfold upto. rewrite length_take. lia. Qed.

Lemma upto_all L i : #L <= i -> upto L i = L.
Proof. intros Hi. apply firstn_all2. lia. Qed.

Lemma upto_nonpos L i : i <= 0 -> upto L i = [].
Proof. intros Hi. unfold upto. by replace (Z.to_nat i) with 0%nat by lia. Qed.

Lemma upto_upto L i j : i <= j -> upto (upto L j) i = upto L i.
Proof. intros Hij. unfold upto. rewrite take_take. f_equal. lia. Qed.

Lemma upto_app L M i : i <= #L -> upto (L ++ M) i = upto L i.
Proof. intros Hi. unfold upto. apply take_app_le. lia. Qed.

Lemma prefix_upto L M i : L `prefix_of` M -> i <= #L -> upto M i = upto L i.
Proof. intros [k ->] Hi. by apply upto_app. Qed.

Lemma prefix_is_upto L M : L `prefix_of` M -> L = upto M #L.
Proof. intros HP. rewrite (prefix_upto L M #L) by (done || lia). by rewrite upto_all by lia. Qed.

Lemma prefix_length_Z (L M : list LogEntry) : L `prefix_of` M -> #L <= #M.
Proof. intros HP%prefix_length. lia. Qed.

Lemma prefix_ordered (L M K : list LogEntry) :
  L `prefix_of` K -> M `prefix_of` K -> #L <= #M -> L `prefix_of` M.
Proof.
  intros HL HM Hl. rewrite (prefix_is_upto L K), (prefix_is_upto M K) by done.
  rewrite <- (upto_upto K #L #M) by lia. apply upto_prefix.
Qed.

Lemma upto_mono L i j : i <= j -> upto L i `prefix_of` upto L j.
Proof. intros Hij. rewrite <- (upto_upto L i j) by lia. apply upto_prefix. Qed.

Lemma prefix_of_upto L M i : L `prefix_of` M -> #L <= i -> L `prefix_of` upto M i.
Proof. intros HP Hi. rewrite (prefix_is_upto L M) by done. by apply upto_mono. Qed.

Lemma term_at_prefix L M i : L `prefix_of` M -> 0 <= i <= #L -> term_at M i = term_at L i.
Proof.
  intros [k ->] Hi. unfold term_at. repeat case_match; try done; try lia; rewrite lookup_app_l in * by lia; congruence.
Qed.

Lemma term_at_upto L i j : 0 <= i <= j -> j <= #L -> term_at (upto L j) i = term_at L i.
Proof. intros Hi Hj. symmetry. apply term_at_prefix; [apply upto_prefix|]. rewrite length_upto; lia. Qed.

Lemma term_at_0 L : term_at L 0 = 0.
Proof. done. Qed.

Lemma term_at_Some L i e : L !! Z.to_nat (i - 1) = Some e -> 0 < i -> term_at L i = term e.
Proof. intros E Hi. unfold term_at. destruct (Z.eqb_spec i 0), (Z.ltb_spec i 0); try lia. by rewrite E. Qed.

Lemma term_at_lookup L i : 0 < i <= #L -> exists e, L !! Z.to_nat (i - 1) = Some e /\ term_at L i = term e.
Proof.
  intros Hi. destruct (lookup_lt_is_Some_2 L (Z.to_nat (i - 1)) ltac:(lia)) as [e E]. exists e. split; [done|].
  apply term_at_Some; [done|lia].
Qed.

Lemma term_at_outside L i : i < 0 \/ #L < i -> term_at L i = -1.
Proof.
  intros Hi. unfold term_at. destruct (Z.eqb_spec i 0), (Z.ltb_spec i 0); try done; try lia.
  by rewrite lookup_ge_None_2 by lia.
Qed.

Lemma term_at_inside L i : 0 <= term_at L i -> 0 <= i <= #L.
Proof. intros Ht. destruct (decide (0 <= i <= #L)); [done|]. rewrite term_at_outside in Ht by lia. lia. Qed.

Lemma term_at_app_r L M i : #L < i -> term_at (L ++ M) i = term_at M (i - #L).
Proof.
  intros Hi. unfold term_at. destruct (Z.eqb_spec i 0), (Z.ltb_spec i 0), (Z.eqb_spec (i - #L) 0),
    (Z.ltb_spec (i - #L) 0); try lia. rewrite lookup_app_r by lia. by replace (Z.to_nat (i - 1) - length L)%nat with (Z.to_nat (i - #L - 1)) by lia.
Qed.

(** * Majorities *)

Lemma majority_meet members Q1 Q2 :
  majority members Q1 -> majority members Q2 -> exists q, q ∈ Q1 /\ q ∈ Q2.
Proof.
  intros [S1 N1] [S2 N2]. destruct (decide (Q1 ∩ Q2 = ∅)) as [E|E].
  - assert (size (Q1 ∪ Q2) <= size members)%nat by (apply subseteq_size; set_solver).
    rewrite size_union in * by set_solver. Z.to_euclidean_division_equations. lia.
  - apply set_choose_L in E as [q ?]. exists q. set_solver.
Qed.

Section Safety.
Context {asks : Requests} (members : gset Z) (no_member : -1 ∉ members).
Implicit Types (h : history) (L : list LogEntry) (T l i : Z).

(** * The invariant *)

(** The log the leader of a term was elected with. *)
Definition elected_log h T : list LogEntry :=
  match h_leader h !! T with
  | Some c => match h_votes h !! (c, T) with Some (_, L) => L | None => [] end
  | None => []
  end.

(** [L] contains the leader of [T]'s log through index [i]. *)
Definition contains h T i L : Prop := upto (lead_log h T) i `prefix_of` L.
Definition lacks h T' T i : Prop := is_Some (h_leader h !! T') /\ ~ contains h T i (elected_log h T').

Record log_ok h L : Prop := {
  l_matching i : 0 < i <= #L -> upto L i `prefix_of` lead_log h (term_at L i);
  l_entries j e : L !! j = Some e -> index e = Z.of_nat j + 1 /\ 0 < term e /\ valid_command (command e) = true;
  l_sorted i j : 0 <= i <= j -> j <= #L -> term_at L i <= term_at L j;
}.

(** What [q] acknowledged of an entry of the acknowledged term is in [L], or was
    given up by a leader elected at most at [bound]. *)
Definition retains h q L bound : Prop :=
  forall T l i, (q, T, l) ∈ h_acks h -> T <= bound -> 0 < i <= l -> term_at (lead_log h T) i = T ->
    contains h T i L \/ exists T', T < T' <= bound /\ lacks h T' T i.

(** [P] is committed by an entry of term [T]. *)
Definition commits h T (P : list LogEntry) : Prop :=
  is_Some (h_leader h !! T) /\
  exists l Q, majority members Q /\ (forall k, k ∈ Q -> exists l', l <= l' /\ (k, T, l') ∈ h_acks h) /\
    0 < l <= #(lead_log h T) /\ term_at (lead_log h T) l = T /\ P `prefix_of` upto (lead_log h T) l.
Definition committed h T P : Prop := P = [] \/ exists T0, T0 <= T /\ commits h T0 P.

Record vote_ok h q T c L : Prop := {
  v_member : q ∈ members /\ c ∈ members;
  v_term : 0 < T;
  v_log : log_ok h L;
  v_terms i : 0 < i <= #L -> term_at L i < T;
  v_candidate : exists Lc, h_votes h !! (c, T) = Some (c, Lc) /\ up_to_date #Lc (term_at Lc #Lc) L;
  v_retains : h_leader h !! T = None -> retains h q L (T - 1);
}.

Record leader_ok h T c : Prop := {
  e_log : exists Lc tl, h_votes h !! (c, T) = Some (c, Lc) /\ lead_log h T = Lc ++ tl /\
            (forall e, e ∈ tl -> term e = T) /\ log_ok h (lead_log h T);
  e_majority : exists Q, majority members Q /\ forall q, q ∈ Q ->
            exists L, h_votes h !! (q, T) = Some (c, L) /\ retains h q L (T - 1);
}.

Record history_ok h : Prop := {
  h_vote q T c L : h_votes h !! (q, T) = Some (c, L) -> vote_ok h q T c L;
  h_leads T c : h_leader h !! T = Some c -> leader_ok h T c;
  h_log T L : h_logs h !! T = Some L -> is_Some (h_leader h !! T);
  h_ack q T l : (q, T, l) ∈ h_acks h -> is_Some (h_leader h !! T) /\ l <= #(lead_log h T);
}.

Record node_ok h q (p : pnode) : Prop := {
  n_term : 0 <= p_term p;
  n_log : log_ok h (p_log p);
  n_terms i : 0 < i <= #(p_log p) -> term_at (p_log p) i <= p_term p;
  n_votes T c L : h_votes h !! (q, T) = Some (c, L) -> T <= p_term p /\ (T = p_term p -> p_voted p = c);
  n_voted : p_voted p <> -1 -> exists L, h_votes h !! (q, p_term p) = Some (p_voted p, L);
  n_acks T l : (q, T, l) ∈ h_acks h -> T <= p_term p;
  n_retains : retains h q (p_log p) (p_term p);
  n_leader : p_role p = LEADER ->
    h_leader h !! p_term p = Some q /\ lead_log h (p_term p) = p_log p /\ (q, p_term p, #(p_log p)) ∈ h_acks h;
  n_candidate : p_role p = CANDIDATE ->
    h_leader h !! p_term p <> Some q /\ p_votes p ⊆ members /\
    (forall v, v ∈ p_votes p -> exists L, h_votes h !! (v, p_term p) = Some (q, L)) /\
    exists Lc, h_votes h !! (q, p_term p) = Some (q, Lc) /\ (p_log p = Lc \/ is_Some (h_leader h !! p_term p));
  n_match k v : p_role p = LEADER -> p_match p !! k = Some v ->
    exists l, v <= l /\ (k, p_term p, l) ∈ h_acks h;
  n_commit : 0 <= p_commit p <= #(p_log p) /\ committed h (p_term p) (upto (p_log p) (p_commit p));
  n_applied : 0 <= p_applied p <= p_commit p;
  n_recv : log_ok h (p_recv p);
}.

Definition message_ok h (net : list (Z * Effect)) (src : Z) (dst : option Z) (m : Message) : Prop :=
  match m with
  | MRequestVote r =>
      rv_prevote r = true \/
      exists L, h_votes h !! (src, rv_term r) = Some (src, L) /\
        rv_last_log_index r = #L /\ rv_last_log_term r = term_at L #L
  | MRequestVoteResponse r =>
      rvr_vote_granted r = false \/ rvr_prevote r = true \/
      exists c L, dst = Some c /\ h_votes h !! (src, rvr_term r) = Some (c, L)
  | MAppendEntries r =>
      ae_prev_log_term r < 0 \/
      (h_leader h !! ae_term r = Some src /\
       ae_from src (ae_term r) (lead_log h (ae_term r)) #(lead_log h (ae_term r)) r /\
       committed h (ae_term r) (upto (lead_log h (ae_term r)) (ae_leader_commit r)))
  | MAppendEntriesResponse r =>
      aer_success r = false \/ (src, aer_term r, aer_last_log_index r) ∈ h_acks h
  | MInstallSnapshot r =>
      is_Some dst /\ h_leader h !! is_term r = Some src /\
      0 < is_last_included_index r <= #(lead_log h (is_term r)) /\
      is_last_included_term r = term_at (lead_log h (is_term r)) (is_last_included_index r) /\
      committed h (is_term r) (upto (lead_log h (is_term r)) (is_last_included_index r)) /\
      chunk_of (upto (lead_log h (is_term r)) (is_last_included_index r)) r
  | MInstallSnapshotResponse r =>
      isr_success r = false \/ isr_complete r = false \/
      exists c peer s, (c, Sent peer (MInstallSnapshot s)) ∈ net /\ h_leader h !! isr_term r = Some c /\
        is_term s = isr_term r /\ is_rpc_id s = isr_rpc_id r /\
        (src, isr_term r, is_last_included_index s) ∈ h_acks h
  end.
Definition effect_ok h net (src : Z) (e : Effect) : Prop :=
  match e with
  | Sent dst m => message_ok h net src (Some dst) m
  | Broadcasted m => message_ok h net src None m
  | _ => True
  end.

(** [q] led the term of [e] and committed [e] after the entries [P]; while it leads
    that term, it remembers. *)
Record acknowledged h q (p : pnode) P (e : LogEntry) : Prop := {
  k_leader : h_leader h !! term e = Some q;
  k_past : term e <= p_term p;
  k_committed : committed h (term e) (P ++ [e]);
  k_known : p_role p = LEADER -> p_term p = term e -> #P + 1 <= p_commit p;
}.

Record safe (w : world) : Prop := {
  s_history : history_ok (w_history w);
  s_node q : q ∈ members -> node_ok (w_history w) q (w_node w q);
  s_net src e : (src, e) ∈ w_net w -> src ∈ members /\ effect_ok (w_history w) (w_net w) src e;
  s_sequence q peer r : (q, Sent peer (MInstallSnapshot r)) ∈ w_net w ->
    p_role (w_node w q) = LEADER -> is_term r = p_term (w_node w q) -> is_rpc_id r <= p_seq (w_node w q);
  s_unique q peer1 r1 peer2 r2 :
    (q, Sent peer1 (MInstallSnapshot r1)) ∈ w_net w -> (q, Sent peer2 (MInstallSnapshot r2)) ∈ w_net w ->
    is_term r1 = is_term r2 -> is_rpc_id r1 = is_rpc_id r2 ->
    is_last_included_index r1 = is_last_included_index r2;
  s_replies q cb reply : (q, ProposeReply cb true reply) ∈ w_net w ->
    exists P e, acknowledged (w_history w) q (w_node w q) P e /\ command e = command_of cb /\ replies P [e] = [reply];
}.

(** * Consequences *)

Lemma elected_log_eq h T c Lc :
  h_leader h !! T = Some c -> h_votes h !! (c, T) = Some (c, Lc) -> elected_log h T = Lc.
Proof. intros E V. unfold elected_log. by rewrite E, V. Qed.

Lemma matching_leader h L i :
  log_ok h L -> 0 < i <= #L -> upto L i = upto (lead_log h (term_at L i)) i.
Proof.
  intros HL Hi. pose proof (l_matching _ _ HL i Hi) as HP.
  rewrite (prefix_is_upto _ _ HP) at 1. by rewrite length_upto by lia.
Qed.

(** Log matching: the same term at the same index means the same prefix. *)
Lemma matching h L M i :
  log_ok h L -> log_ok h M -> 0 <= i <= #L -> i <= #M -> term_at L i = term_at M i -> upto L i = upto M i.
Proof.
  intros HL HM Hi Hm E. destruct (decide (i = 0)) as [->|Hn]; [done|].
  rewrite (matching_leader h L i), (matching_leader h M i) by (done || lia). by rewrite E.
Qed.

Lemma log_ok_prefix h L M : log_ok h M -> L `prefix_of` M -> log_ok h L.
Proof.
  intros HM HP. pose proof (prefix_length_Z _ _ HP) as Hl. split.
  - intros i Hi. rewrite <- (term_at_prefix L M i), <- (prefix_upto L M i) by (done || lia).
    apply (l_matching _ _ HM). lia.
  - intros j e E. apply (l_entries _ _ HM). eapply prefix_lookup_Some; eauto.
  - intros i j Hi Hj. rewrite <- !(term_at_prefix L M) by (done || lia). apply (l_sorted _ _ HM); lia.
Qed.

(** Positive terms occur only inside. *)
Lemma term_at_pos h L i : log_ok h L -> 0 < i <= #L -> 0 < term_at L i.
Proof.
  intros HL Hi. destruct (term_at_lookup L i Hi) as (e & E & ->). apply (l_entries _ _ HL _ _ E).
Qed.

Lemma leader_log_split h T c :
  history_ok h -> h_leader h !! T = Some c ->
  exists tl, lead_log h T = elected_log h T ++ tl /\ (forall e, e ∈ tl -> term e = T) /\
    log_ok h (lead_log h T) /\ (forall i, 0 < i <= #(elected_log h T) -> term_at (elected_log h T) i < T).
Proof.
  intros Hh E. destruct (h_leads _ Hh _ _ E) as [(Lc & tl & V & EL & Htl & HL) _]. exists tl.
  rewrite (elected_log_eq _ _ _ _ E V). split; [done|]. split; [done|]. split; [done|].
  intros i Hi. exact (v_terms _ _ _ _ _ (h_vote _ Hh _ _ _ _ V) i Hi).
Qed.

Lemma elected_prefix h T : history_ok h -> elected_log h T `prefix_of` lead_log h T.
Proof.
  intros Hh. destruct (h_leader h !! T) as [c|] eqn:E.
  - destruct (leader_log_split h T c Hh E) as (tl & -> & _). by apply prefix_app_r.
  - unfold elected_log. rewrite E. apply prefix_nil.
Qed.

Lemma contains_term h T i L :
  contains h T i L -> 0 < i <= #(lead_log h T) -> i <= #L /\ term_at L i = term_at (lead_log h T) i.
Proof.
  intros HC Hi. pose proof (prefix_length_Z _ _ HC) as Hl. rewrite length_upto in Hl by lia.
  split; [done|]. rewrite (term_at_prefix _ _ i HC) by (rewrite length_upto; lia). apply term_at_upto; lia.
Qed.

(** A log at least as up to date as one that contains an entry of term [T]
    contains it too, if the leaders in between do. *)
Lemma up_to_date_contains h T i Lc Lq T' :
  history_ok h -> log_ok h Lc -> log_ok h Lq -> up_to_date #Lc (term_at Lc #Lc) Lq ->
  0 < i <= #(lead_log h T) -> term_at (lead_log h T) i = T -> contains h T i Lq ->
  (forall j, 0 < j <= #Lc -> term_at Lc j < T') ->
  (forall T1, T < T1 < T' -> is_Some (h_leader h !! T1) -> contains h T i (elected_log h T1)) ->
  contains h T i Lc.
Proof.
  intros Hh Hc Hq Hu Hi Ht HC Hlt IH. destruct (contains_term _ _ _ _ HC Hi) as [Hl Hti].
  assert (T <= term_at Lq #Lq) as Hge by (rewrite <- Ht, <- Hti; apply (l_sorted _ _ Hq); lia).
  pose proof (term_at_pos h Lq i Hq ltac:(lia)) as Hpos.
  assert (0 < #Lc) as Hne.
  { destruct (decide (#Lc = 0)) as [E|]; [|lia]. rewrite E, term_at_0 in Hu. destruct Hu; lia. }
  pose proof (matching_leader h Lc #Lc Hc ltac:(lia)) as Ec. rewrite upto_all in Ec by lia.
  pose proof (matching_leader h Lq #Lq Hq ltac:(lia)) as Eq. rewrite upto_all in Eq by lia.
  destruct Hu as [Hu|[Eu Hlen]].
  - set (Tc := term_at Lc #Lc) in *.
    assert (is_Some (h_leader h !! Tc)) as [c El].
    { destruct (h_logs h !! Tc) as [LL|] eqn:EL; [by eapply h_log|].
      unfold lead_log in Ec. rewrite EL in Ec. cbn in Ec. unfold upto in Ec. rewrite take_nil in Ec.
      rewrite Ec in Hne. cbn in Hne. lia. }
    destruct (leader_log_split h Tc c Hh El) as (tl & ELL & Htl & HLL & Hlow).
    assert (elected_log h Tc `prefix_of` Lc) as HP.
    { assert (Lc `prefix_of` lead_log h Tc) as HPc by (rewrite Ec; apply upto_prefix).
      apply (prefix_ordered _ _ (lead_log h Tc)); [by apply elected_prefix|done|].
      destruct (Z.le_gt_cases #(elected_log h Tc) #Lc) as [|Hgt]; [done|exfalso].
      pose proof (Hlow #Lc ltac:(lia)) as Hx.
      assert (Lc `prefix_of` elected_log h Tc) as HP2.
      { apply (prefix_ordered _ _ (lead_log h Tc)); [done|by apply elected_prefix|lia]. }
      rewrite (term_at_prefix _ _ #Lc HP2) in Hx by lia. unfold Tc in Hx. lia. }
    unfold contains. etrans; [|exact HP]. apply IH; [|done]. split; [lia|]. apply Hlt. lia.
  - unfold contains. etrans; [exact HC|]. rewrite Ec, Eq, Eu. by apply upto_mono.
Qed.

(** Leader completeness. *)
Lemma leader_completeness h T l Q T' c :
  history_ok h -> is_Some (h_leader h !! T) -> majority members Q ->
  (forall k, k ∈ Q -> exists l', l <= l' /\ (k, T, l') ∈ h_acks h) ->
  0 < l <= #(lead_log h T) -> term_at (lead_log h T) l = T ->
  T < T' -> h_leader h !! T' = Some c -> contains h T l (elected_log h T').
Proof.
  intros Hh HT HQ Hack Hl Ht. revert c. induction (Z.lt_wf T T') as [T' _ IH]. intros c HTT El.
  destruct (h_leads _ Hh _ _ El) as [_ (Q' & HQ' & Hv)].
  destruct (majority_meet _ _ _ HQ HQ') as (q & Hq & Hq').
  destruct (Hv q Hq') as (Lq & V & R). destruct (Hack q Hq) as (l' & Hll & A).
  pose proof (h_vote _ Hh _ _ _ _ V) as Vq. destruct (v_candidate _ _ _ _ _ Vq) as (Lc & Vc & Hu).
  pose proof (h_vote _ Hh _ _ _ _ Vc) as Vc'.
  assert (forall T1, T < T1 < T' -> is_Some (h_leader h !! T1) -> contains h T l (elected_log h T1)) as IH'.
  { intros T1 HT1 [c1 E1]. apply (IH T1 ltac:(lia) c1); [lia|done]. }
  rewrite (elected_log_eq _ _ _ _ El Vc).
  destruct (R T l' l A ltac:(lia) ltac:(lia) Ht) as [HC|(T1 & HT1 & [E1 Hn])].
  - eapply (up_to_date_contains h T l Lc Lq T'); try done; [apply Vc'|apply Vq|apply Vc'].
  - destruct Hn. apply IH'; [lia|done].
Qed.

(** Every leader from the committing term on has what was committed. *)
Lemma committed_agree h T0 P T c :
  history_ok h -> commits h T0 P -> T0 <= T -> h_leader h !! T = Some c -> P `prefix_of` lead_log h T.
Proof.
  intros Hh (HT & l & Q & HQ & Hack & Hl & Ht & HP) HTT El.
  destruct (decide (T0 = T)) as [->|Hne]; [etrans; [exact HP|apply upto_prefix]|].
  etrans; [exact HP|]. etrans; [|by apply (elected_prefix h T)].
  by eapply leader_completeness; eauto; lia.
Qed.

Lemma committed_in_leader h T P c :
  history_ok h -> committed h T P -> h_leader h !! T = Some c -> P `prefix_of` lead_log h T.
Proof.
  intros Hh [-> | (T0 & HT0 & HC)] El; [apply prefix_nil|]. by eapply committed_agree.
Qed.

Lemma committed_prefix h T P P' : committed h T P -> P' `prefix_of` P -> committed h T P'.
Proof.
  intros [->|(T0 & HT0 & HT & l & Q & HQ & Ha & Hl & Ht & HP)] HPP; [left; by apply prefix_nil_inv|right].
  exists T0. split; [done|]. split; [done|]. exists l, Q. repeat (split; [done|]). by etrans.
Qed.

(** Two committed prefixes never diverge. *)
Lemma committed_comparable h T1 P1 T2 P2 :
  history_ok h -> committed h T1 P1 -> committed h T2 P2 -> P1 `prefix_of` P2 \/ P2 `prefix_of` P1.
Proof.
  intros Hh [-> | (U1 & _ & C1)] [-> | (U2 & _ & C2)]; auto using prefix_nil.
  assert (exists U, U1 <= U /\ U2 <= U /\ is_Some (h_leader h !! U)) as (U & Hu1 & Hu2 & [c E]).
  { destruct (Z.le_ge_cases U1 U2); [exists U2|exists U1]; (split; [lia|]; split; [lia|]); [apply C2|apply C1]. }
  eapply prefix_weak_total; eapply committed_agree; eauto.
Qed.
End Safety.
