(* ===== verification/ProtocolInvariant.v ===== *)
(** The invariant of [ProtocolSafety] is inductive: it holds initially and every
    action of every node preserves it. *)
From stdpp Require Import base numbers strings gmap functions list.
From S2P Require Import Prelude Effects Messages KVReplay RaftState RaftProtocol ProtocolSafety.

Section Invariant.
Context {asks : Requests} (members : gset Z) (no_member : -1 ∉ members).
Implicit Types (h : history) (L : list LogEntry) (T l i : Z).

(** * How the history grows *)

(** What an action of node [q] in term [t] may add. *)
Record grows (q t : Z) h h' : Prop := {
  x_leader T c : h_leader h !! T = Some c -> h_leader h' !! T = Some c;
  x_leader_new T c : h_leader h' !! T = Some c -> h_leader h !! T = Some c \/ (c = q /\ T = t);
  x_logs T : exists more, lead_log h' T = lead_log h T ++ more /\
    (is_Some (h_leader h !! T) -> forall e, e ∈ more -> term e = T);
  x_logs_other T c : h_leader h !! T = Some c -> c <> q -> lead_log h' T = lead_log h T;
  x_logs_ok T : is_Some (h_leader h !! T) -> log_ok h (lead_log h T) -> log_ok h' (lead_log h' T);
  x_votes k v : h_votes h !! k = Some v -> h_votes h' !! k = Some v;
  x_votes_new v T x : h_votes h' !! (v, T) = Some x -> h_votes h !! (v, T) = Some x \/ v = q;
  x_acks a : a ∈ h_acks h -> a ∈ h_acks h';
  x_acks_new v T l : (v, T, l) ∈ h_acks h' -> (v, T, l) ∈ h_acks h \/ (v = q /\ T = t);
}.

Section Grow.
Context (q t : Z) h h' (Hg : grows q t h h') (Hh : history_ok members h).

Lemma lead_prefix T : lead_log h T `prefix_of` lead_log h' T.
Proof. destruct (x_logs _ _ _ _ Hg T) as (more & -> & _). by apply prefix_app_r. Qed.

Lemma upto_lead_grow T i : i <= #(lead_log h T) -> upto (lead_log h' T) i = upto (lead_log h T) i.
Proof. apply prefix_upto, lead_prefix. Qed.

Lemma term_at_lead_grow T i : 0 <= i <= #(lead_log h T) -> term_at (lead_log h' T) i = term_at (lead_log h T) i.
Proof. apply term_at_prefix, lead_prefix. Qed.

Lemma contains_grow T i L : i <= #(lead_log h T) -> contains h' T i L <-> contains h T i L.
Proof. intros Hi. unfold contains. by rewrite upto_lead_grow. Qed.

Lemma elected_grow T : is_Some (h_leader h !! T) -> elected_log h' T = elected_log h T.
Proof.
  intros [c E]. destruct (h_leads _ _ Hh _ _ E) as [(Lc & _ & V & _) _].
  rewrite (elected_log_eq h T c Lc), (elected_log_eq h' T c Lc); try done; by apply Hg.
Qed.

Lemma lacks_grow T' T i : i <= #(lead_log h T) -> lacks h T' T i -> lacks h' T' T i.
Proof.
  intros Hi [[c E] Hn]. split; [exists c; by apply Hg|].
  rewrite contains_grow by done. rewrite elected_grow by done. done.
Qed.

Lemma log_ok_grow L : log_ok h L -> log_ok h' L.
Proof.
  intros [M E So]. split; [|done..]. intros i Hi. etrans; [by apply M|]. apply lead_prefix.
Qed.

Lemma retains_grow v L b : v <> q \/ b < t -> retains h v L b -> retains h' v L b.
Proof.
  intros Hv R T l i A Hb Hi Ht.
  assert ((v, T, l) ∈ h_acks h) as A0.
  { destruct (x_acks_new _ _ _ _ Hg _ _ _ A) as [|[-> ->]]; [done|]. destruct Hv; [done|lia]. }
  destruct (h_ack _ _ Hh _ _ _ A0) as [_ Hl]. rewrite term_at_lead_grow in Ht by lia.
  destruct (R T l i A0 Hb Hi Ht) as [HC|(T' & HT' & HL)].
  - left. by apply contains_grow; [lia|].
  - right. exists T'. split; [done|]. apply lacks_grow; [lia|done].
Qed.

Lemma commits_grow T P : commits members h T P -> commits members h' T P.
Proof.
  intros ([c E] & l & Q & HQ & Ha & Hl & Ht & HP). split; [exists c; by apply Hg|].
  exists l, Q. split; [done|]. split.
  { intros k Hk. destruct (Ha k Hk) as (l' & ? & ?). exists l'. split; [done|]. by apply Hg. }
  pose proof (prefix_length_Z _ _ (lead_prefix T)). split; [lia|].
  rewrite term_at_lead_grow, upto_lead_grow by lia. done.
Qed.

Lemma committed_grow T P : committed members h T P -> committed members h' T P.
Proof. intros [->|(T0 & ? & ?)]; [by left|right]. exists T0. split; [done|]. by apply commits_grow. Qed.

Lemma committed_later T T' P : committed members h T P -> T <= T' -> committed members h T' P.
Proof. intros [->|(T0 & ? & ?)] HT; [by left|right]. exists T0. split; [lia|done]. Qed.

Lemma ae_from_grow src T c r :
  ae_from src T (lead_log h T) #(lead_log h T) r -> c = #(lead_log h' T) ->
  ae_from src T (lead_log h' T) c r.
Proof.
  intros (A & B & C & D & E & F & G) ->. pose proof (prefix_length_Z _ _ (lead_prefix T)).
  unfold ae_from, ae_end in *. repeat split; try done; try lia.
  - rewrite term_at_lead_grow by lia. done.
  - by rewrite !upto_lead_grow by lia.
Qed.

Lemma effect_ok_grow net net' src e :
  (forall x, x ∈ net -> x ∈ net') -> effect_ok members h net src e -> effect_ok members h' net' src e.
Proof.
  intros Hn. assert (forall dst m, message_ok members h net src dst m -> message_ok members h' net' src dst m) as HM.
  { intros dst [r|r|r|r|r|r]; cbn.
    - intros [?|(L & V & ?)]; [by left|right]. exists L. split; [by apply Hg|done].
    - intros [?|[?|(c & L & -> & V)]]; [by left|by right; left|right; right]. exists c, L. split; [done|by apply Hg].
    - intros [?|(E & F & C)]; [by left|right]. split; [by apply Hg|].
      assert (ae_leader_commit r <= #(lead_log h (ae_term r))) as Hc by apply F.
      split; [by apply ae_from_grow|]. rewrite upto_lead_grow by done. by apply committed_grow.
    - intros [?|A]; [by left|right]. by apply Hg.
    - intros (Hd & E & Hi & Ht & C & Hck). split; [done|]. pose proof (prefix_length_Z _ _ (lead_prefix (is_term r))).
      split; [by apply Hg|]. split; [lia|]. rewrite term_at_lead_grow, upto_lead_grow by lia.
      split; [done|]. split; [by apply committed_grow|done].
    - intros [?|[?|(c & peer & s & I & E & ? & ? & A)]]; [by left|by right; left|right; right].
      exists c, peer, s. split; [by apply Hn|]. split; [by apply Hg|]. split; [done|]. split; [done|by apply Hg]. }
  destruct e; cbn; auto.
Qed.

Lemma acknowledged_grow v p P e : acknowledged members h v p P e -> acknowledged members h' v p P e.
Proof. intros [Kl Kp Kc Kk]. split; [by apply Hg|done|by apply committed_grow|done]. Qed.

(** The other nodes do not notice. *)
Lemma node_ok_grow v p : v <> q -> node_ok members h v p -> node_ok members h' v p.
Proof.
  intros Hv N. split; try apply N.
  - by apply log_ok_grow, N.
  - intros T c L V. apply (n_votes _ _ _ _ N T c L). by destruct (x_votes_new _ _ _ _ Hg _ _ _ V).
  - intros Hvo. destruct (n_voted _ _ _ _ N Hvo) as [L V]. exists L. by apply Hg.
  - intros T l A. apply (n_acks _ _ _ _ N T l). by destruct (x_acks_new _ _ _ _ Hg _ _ _ A) as [|[? _]].
  - apply retains_grow; [by left|apply N].
  - intros HL. destruct (n_leader _ _ _ _ N HL) as (E & EL & A). split; [by apply Hg|].
    split; [by rewrite (x_logs_other _ _ _ _ Hg _ _ E Hv)|by apply Hg].
  - intros HC. destruct (n_candidate _ _ _ _ N HC) as (E & Hm & Hvs & Lc & V & HLc).
    split. { intros E'. destruct (x_leader_new _ _ _ _ Hg _ _ E') as [|[? _]]; done. }
    split; [done|]. split.
    { intros u Hu. destruct (Hvs u Hu) as [L ?]. exists L. by apply Hg. }
    exists Lc. split; [by apply Hg|]. destruct HLc as [|[c ?]]; [by left|right]. exists c. by apply Hg.
  - intros k v' HL Hk. destruct (n_match _ _ _ _ N k v' HL Hk) as (l & ? & ?). exists l. split; [done|by apply Hg].
  - destruct (n_commit _ _ _ _ N). split; [done|by apply committed_grow].
  - by apply log_ok_grow, N.
Qed.

Lemma vote_ok_grow v T c L : v <> q \/ T <= t -> vote_ok members h v T c L -> vote_ok members h' v T c L.
Proof.
  intros Hv V. split; try apply V.
  - by apply log_ok_grow, V.
  - destruct (v_candidate _ _ _ _ _ _ V) as (Lc & E & ?). exists Lc. split; [by apply Hg|done].
  - intros E. apply retains_grow; [destruct Hv; [by left|right; lia]|].
    apply V. destruct (h_leader h !! T) as [c'|] eqn:E'; [|done].
    by rewrite (x_leader _ _ _ _ Hg _ _ E') in E.
Qed.

Lemma leader_ok_grow T c :
  (forall T' c' L, h_votes h !! (q, T') = Some (c', L) -> T' <= t) ->
  h_leader h !! T = Some c -> leader_ok members h T c -> leader_ok members h' T c.
Proof.
  intros Hq El [(Lc & tl & V & EL & Htl & HL) (Q & HQ & Hv)].
  destruct (x_logs _ _ _ _ Hg T) as (more & EL' & Hmore). split.
  - exists Lc, (tl ++ more). split; [by apply Hg|]. split; [by rewrite EL', EL, app_assoc|]. split.
    + intros e [He|He]%elem_of_app; [by apply Htl|]. apply Hmore; [by exists c|done].
    + apply Hg; [by exists c|done].
  - exists Q. split; [done|]. intros v Hvq. destruct (Hv v Hvq) as (L & V' & R). exists L.
    split; [by apply Hg|]. apply retains_grow; [|done].
    destruct (decide (v = q)) as [->|]; [|by left]. right. apply Hq in V'. lia.
Qed.

(** The history stays well-formed if what is new is. *)
Lemma history_ok_grow :
  (forall T c L, h_votes h !! (q, T) = Some (c, L) -> T <= t) ->
  (forall T c L, h_votes h' !! (q, T) = Some (c, L) -> h_votes h !! (q, T) = None -> vote_ok members h' q T c L) ->
  (h_leader h !! t = None -> h_leader h' !! t = Some q -> leader_ok members h' t q) ->
  (forall T L, h_logs h' !! T = Some L -> is_Some (h_leader h' !! T)) ->
  (forall l, (q, t, l) ∈ h_acks h' -> is_Some (h_leader h' !! t) /\ l <= #(lead_log h' t)) ->
  history_ok members h'.
Proof.
  intros Hq Hvote Hlead Hlog Hack. split.
  - intros v T c L V. destruct (h_votes h !! (v, T)) as [[c0 L0]|] eqn:V0.
    + pose proof (x_votes _ _ _ _ Hg _ _ V0) as V1. simplify_eq.
      apply vote_ok_grow; [|by apply Hh]. destruct (decide (v = q)) as [->|]; [right; eauto|by left].
    + destruct (x_votes_new _ _ _ _ Hg _ _ _ V) as [|Hv]; [congruence|]. subst v. by apply Hvote.
  - intros T c E. destruct (h_leader h !! T) as [c0|] eqn:E0.
    + pose proof (x_leader _ _ _ _ Hg _ _ E0). simplify_eq. apply leader_ok_grow; [done..|by apply Hh].
    + destruct (x_leader_new _ _ _ _ Hg _ _ E) as [|[-> ->]]; [congruence|]. by apply Hlead.
  - done.
  - intros v T l A. destruct (x_acks_new _ _ _ _ Hg _ _ _ A) as [A0|[-> ->]]; [|by apply Hack].
    destruct (h_ack _ _ Hh _ _ _ A0) as [[c E] Hl]. split; [exists c; by apply Hg|].
    pose proof (prefix_length_Z _ _ (lead_prefix T)). lia.
Qed.
End Grow.

Lemma grows_refl q t h : grows q t h h.
Proof. split; auto. intros T. exists []. split; [by rewrite app_nil_r|]. intros _ e He. by apply not_elem_of_nil in He. Qed.

Lemma log_ok_lead h h' L : (forall T, lead_log h' T = lead_log h T) -> log_ok h L -> log_ok h' L.
Proof. intros E [M En So]. split; [|done..]. intros i Hi. rewrite E. by apply M. Qed.

(** An action that adds only votes or acknowledgements. *)
Lemma grows_votes q t h k x :
  h_votes h !! k = None -> k.1 = q -> grows q t h (h <| h_votes ::= <[k := x]> |>).
Proof.
  intros E Ek. split; cbn; auto.
  - intros T. exists []. split; [by rewrite app_nil_r|]. intros _ e He. by apply not_elem_of_nil in He.
  - intros T _. by apply log_ok_lead.
  - intros k' v V. rewrite lookup_insert_ne; [done|]. congruence.
  - intros v T y V. destruct (decide (k = (v, T))) as [->|]; [by right|left].
    by rewrite lookup_insert_ne in V.
Qed.

Lemma grows_acks q t h l : grows q t h (h <| h_acks ::= fun a => {[(q, t, l)]} ∪ a |>).
Proof.
  split; cbn; auto.
  - intros T. exists []. split; [by rewrite app_nil_r|]. intros _ e He. by apply not_elem_of_nil in He.
  - intros T _. by apply log_ok_lead.
  - intros a ?. by apply elem_of_union_r.
  - intros v T l' [E%elem_of_singleton|]%elem_of_union; [right; by simplify_eq|by left].
Qed.

Lemma history_ok_acks h q t l :
  history_ok members h -> is_Some (h_leader h !! t) -> l <= #(lead_log h t) ->
  (forall T c L, h_votes h !! (q, T) = Some (c, L) -> T <= t) ->
  history_ok members (h <| h_acks ::= fun a => {[(q, t, l)]} ∪ a |>).
Proof.
  intros Hh HT Hl Hq. apply (history_ok_grow q t h); try done; [apply grows_acks|..].
  - intros T c L V E. change (h_votes h !! (q, T) = Some (c, L)) in V. congruence.
  - intros E E'. change (h_leader h !! t = Some q) in E'. congruence.
  - intros T L E. exact (h_log _ _ Hh T L E).
  - intros l' [E%elem_of_singleton|A]%elem_of_union; [by simplify_eq|].
    apply (h_ack _ _ Hh _ _ _ A).
Qed.

(** * The actions of one node *)

Section Node.
Context h q (p : pnode) (Hq : q ∈ members) (Hh : history_ok members h) (N : node_ok members h q p).

Lemma own_votes T c L : h_votes h !! (q, T) = Some (c, L) -> T <= p_term p.
Proof. intros V. by destruct (n_votes _ _ _ _ N _ _ _ V). Qed.

(** Acknowledging what the log has keeps it retained. *)
Lemma retains_ack L l :
  retains h q L (p_term p) -> l <= #(lead_log h (p_term p)) ->
  (forall i, 0 < i <= l -> term_at (lead_log h (p_term p)) i = p_term p -> contains h (p_term p) i L) ->
  retains (h <| h_acks ::= fun a => {[(q, p_term p, l)]} ∪ a |>) q L (p_term p).
Proof.
  intros R Hl Hc T l' i A HT Hi Ht. change (term_at (lead_log h T) i = T) in Ht.
  apply elem_of_union in A as [E%elem_of_singleton|A]; [simplify_eq; left; by apply Hc|].
  destruct (R T l' i A HT Hi Ht) as [|(T' & ? & HL)]; [by left|right]. exists T'. split; [done|].
  destruct (h_ack _ _ Hh _ _ _ A) as [_ Hl'].
  apply (lacks_grow q (p_term p) h); [apply grows_acks|done|lia|done].
Qed.

Lemma retains_later L b b' :
  retains h q L b -> b <= b' -> (forall T l, (q, T, l) ∈ h_acks h -> T <= b) -> retains h q L b'.
Proof.
  intros R Hb Ha T l i A _ Hi Ht. destruct (R T l i A (Ha _ _ A) Hi Ht) as [|(T' & ? & ?)]; [by left|right].
  exists T'. split; [lia|done].
Qed.

(** A node that follows another leader may change its log. *)
Lemma node_ok_log L :
  h_leader h !! p_term p <> Some q -> is_Some (h_leader h !! p_term p) ->
  log_ok h L -> (forall i, 0 < i <= #L -> term_at L i <= p_term p) -> retains h q L (p_term p) ->
  forall c, p_applied p <= c <= #L -> 0 <= c -> committed members h (p_term p) (upto L c) ->
  node_ok members h q (p <| p_log := L |> <| p_commit := c |>).
Proof.
  intros Hne Hs HL Ht HR c Hc Hc0 HC. destruct (n_applied _ _ _ _ N). split; cbn; try apply N; try done.
  - intros E. by destruct (n_leader _ _ _ _ N E).
  - intros E. destruct (n_candidate _ _ _ _ N E) as (? & ? & ? & Lc & ? & _).
    split; [done|]. split; [done|]. split; [done|]. exists Lc. split; [done|by right].
  - split; [lia|done].
  - lia.
Qed.

(** What a follower has committed is in the log of the leader of its term. *)
Lemma committed_prefix_leader c i :
  h_leader h !! p_term p = Some c -> i <= p_commit p -> upto (p_log p) i `prefix_of` lead_log h (p_term p).
Proof.
  intros El Hi. destruct (n_commit _ _ _ _ N) as [_ HC].
  etrans; [apply (upto_mono _ i (p_commit p)); done|]. by eapply committed_in_leader.
Qed.

(** The term at an index decides whether the log agrees with the leader's. *)
Lemma agrees_upto c i :
  h_leader h !! p_term p = Some c -> 0 <= i <= #(p_log p) -> i <= #(lead_log h (p_term p)) ->
  i <= p_commit p \/ term_at (p_log p) i = term_at (lead_log h (p_term p)) i ->
  upto (p_log p) i = upto (lead_log h (p_term p)) i.
Proof.
  intros El Hi Hl [Hc|Ht].
  - pose proof (committed_prefix_leader c i El Hc) as HP.
    rewrite (prefix_is_upto _ _ HP) at 1. by rewrite length_upto by lia.
  - apply (matching h); try done; [apply N|].
    by destruct (leader_log_split members h _ c Hh El) as (_ & _ & _ & ? & _).
Qed.

(** * Elections *)

Lemma retains_same_acks h' L b :
  (forall t, grows q t h h') -> retains h q L b -> retains h' q L b.
Proof. intros Hg. apply (retains_grow q (b + 1) h); [done|done|right; lia]. Qed.

(** A vote for a candidate whose log is up to date. *)
Lemma vote_history c Lc :
  c ∈ members -> h_votes h !! (c, p_term p) = Some (c, Lc) -> up_to_date #Lc (term_at Lc #Lc) (p_log p) ->
  h_votes h !! (q, p_term p) = None ->
  history_ok members (h <| h_votes ::= <[(q, p_term p) := (c, p_log p)]> |>).
Proof.
  intros Hc Vc Hu E. set (h' := h <| h_votes ::= _ |>).
  assert (forall t, grows q t h h') as Hg by (intros t; by apply grows_votes).
  pose proof (h_vote _ _ Hh _ _ _ _ Vc) as Vc'. pose proof (n_log _ _ _ _ N) as HL.
  apply (history_ok_grow q (p_term p) h); try done; [apply own_votes|..].
  - intros T c' L V E'. cbn in V. destruct (decide ((q, p_term p) = (q, T))) as [E2|]; [|by rewrite lookup_insert_ne in V; congruence].
    injection E2 as <-. rewrite lookup_insert_eq in V. simplify_eq. split.
    + done.
    + apply Vc'.
    + by apply (log_ok_grow q (p_term p) h h' (Hg _)).
    + intros i Hi. assert (term_at (p_log p) i <= term_at (p_log p) #(p_log p)) by (apply (l_sorted _ _ HL); lia).
      pose proof (term_at_pos h (p_log p) i HL Hi).
      assert (term_at Lc #Lc < p_term p); [|destruct Hu; lia].
      destruct (decide (#Lc = 0)) as [->|]; [rewrite term_at_0; apply Vc'|]. apply Vc'. lia.
    + exists Lc. split; [by apply (Hg 0)|done].
    + intros El. apply retains_same_acks; [done|]. intros T l i A HT Hi Ht.
      destruct (n_retains _ _ _ _ N T l i A ltac:(lia) Hi Ht) as [|(T' & HT' & HL')]; [by left|right].
      exists T'. split; [|done]. destruct (decide (T' = p_term p)) as [->|]; [|lia].
      destruct HL' as [[x Ex] _]. change (h_leader h !! p_term p = None) in El. congruence.
  - intros El El'. change (h_leader h !! p_term p = Some q) in El'. congruence.
  - intros T L EL. exact (h_log _ _ Hh T L EL).
  - intros l A. exact (h_ack _ _ Hh _ _ _ A).
Qed.

Lemma campaign_history :
  history_ok members (h <| h_votes ::= <[(q, p_term p + 1) := (q, p_log p)]> |>).
Proof.
  assert (h_votes h !! (q, p_term p + 1) = None) as E.
  { destruct (h_votes h !! (q, p_term p + 1)) as [[c L]|] eqn:V; [|done]. apply own_votes in V. lia. }
  set (h' := h <| h_votes ::= _ |>).
  assert (forall t, grows q t h h') as Hg by (intros t; by apply grows_votes).
  pose proof (n_term _ _ _ _ N). apply (history_ok_grow q (p_term p + 1) h); try done.
  - intros T c L V%own_votes. lia.
  - intros T c L V E'. cbn in V. destruct (decide (T = p_term p + 1)) as [->|]; [|by rewrite lookup_insert_ne in V; congruence].
    rewrite lookup_insert_eq in V. injection V as <- <-. split.
    + done.
    + lia.
    + apply (log_ok_grow q (p_term p) h h' (Hg _)), N.
    + intros i Hi. pose proof (n_terms _ _ _ _ N i Hi). lia.
    + exists (p_log p). split; [apply lookup_insert_eq|right; split; [done|lia]].
    + intros _. apply retains_same_acks; [done|]. rewrite Z.add_simpl_r. apply N.
  - intros El El'. change (h_leader h !! (p_term p + 1) = Some q) in El'. congruence.
  - intros T L EL. exact (h_log _ _ Hh T L EL).
  - intros l A. exact (h_ack _ _ Hh _ _ _ A).
Qed.

(** A majority of votes excludes another leader of the term. *)
Lemma no_leader_yet :
  p_role p = CANDIDATE -> majority members (p_votes p) -> h_leader h !! p_term p = None.
Proof.
  intros Hr HQ. destruct (n_candidate _ _ _ _ N Hr) as (Hne & _ & Hv & _).
  destruct (h_leader h !! p_term p) as [c|] eqn:El; [|done].
  destruct (h_leads _ _ Hh _ _ El) as [_ (Q & HQ' & Hv')].
  destruct (majority_meet _ _ _ HQ HQ') as (v & H1 & H2).
  destruct (Hv v H1) as [L1 V1], (Hv' v H2) as (L2 & V2 & _). congruence.
Qed.

Lemma won_grows :
  h_leader h !! p_term p = None -> grows q (p_term p) h (recorded q p Won h).
Proof.
  intros El.
  assert (h_logs h !! p_term p = None) as En.
  { destruct (h_logs h !! p_term p) eqn:E; [|done]. apply (h_log _ _ Hh) in E as [? ?]. congruence. }
  assert (forall T, T <> p_term p -> lead_log (recorded q p Won h) T = lead_log h T) as Eo.
  { intros T HT. unfold lead_log. cbn. by rewrite lookup_insert_ne by done. }
  split; cbn; try done.
  - intros T c E. rewrite lookup_insert_ne; [done|congruence].
  - intros T c E. destruct (decide (p_term p = T)) as [<-|]; [|rewrite lookup_insert_ne in E by done; by left].
    rewrite lookup_insert_eq in E. right. by simplify_eq.
  - intros T. destruct (decide (T = p_term p)) as [->|HT].
    + exists (lead_log (recorded q p Won h) (p_term p)). unfold lead_log at 2. rewrite En. split; [done|].
      intros [c E]. congruence.
    + exists []. rewrite app_nil_r. split; [by apply Eo|]. intros _ e He. by apply not_elem_of_nil in He.
  - intros T c E _. apply (Eo T). congruence.
  - intros T [c E] HL. assert (T <> p_term p) by congruence. change (log_ok (recorded q p Won h) (lead_log (recorded q p Won h) T)).
    rewrite Eo by done. destruct HL as [HM HE HS]. split; [|done..]. intros i Hi.
    etrans; [by apply HM|]. destruct (decide (term_at (lead_log h T) i = p_term p)) as [->|]; [|by rewrite Eo].
    unfold lead_log at 1. rewrite En. apply prefix_nil.
  - by left.
  - intros a ?. by apply elem_of_union_r.
  - intros v T l [E%elem_of_singleton|]%elem_of_union; [right; by simplify_eq|by left].
Qed.

Lemma won_history :
  p_role p = CANDIDATE -> majority members (p_votes p) -> history_ok members (recorded q p Won h).
Proof.
  intros Hr HQ. pose proof (no_leader_yet Hr HQ) as El. pose proof (won_grows El) as Hg.
  assert (lead_log (recorded q p Won h) (p_term p) = p_log p) as EL.
  { unfold lead_log. cbn. by rewrite lookup_insert_eq. }
  destruct (n_candidate _ _ _ _ N Hr) as (_ & _ & Hv & Lc & Vc & HLc).
  assert (p_log p = Lc) as <- by (destruct HLc as [|[? ?]]; [done|congruence]).
  eapply (history_ok_grow q (p_term p) h); try done.
  - apply own_votes.
  - intros T c L V E. change (h_votes h !! (q, T) = Some (c, L)) in V. congruence.
  - intros _ _. split.
    + exists (p_log p), []. rewrite EL, app_nil_r. split; [done|]. split; [done|].
      split; [intros e He; by apply not_elem_of_nil in He|]. eapply log_ok_grow; [done|apply N].
    + exists (p_votes p). split; [done|]. intros v Hvv. destruct (Hv v Hvv) as [L V]. exists L.
      split; [done|]. eapply retains_grow; [done|done|right; lia|]. eapply h_vote; eauto.
  - intros T L E. cbn in E |- *. destruct (decide (p_term p = T)) as [<-|]; [rewrite lookup_insert_eq; eauto|].
    rewrite lookup_insert_ne in E by done. rewrite lookup_insert_ne by done. exact (h_log _ _ Hh T L E).
  - intros l A. cbn in A. rewrite EL. split; [cbn; rewrite lookup_insert_eq; eauto|].
    apply elem_of_union in A as [E%elem_of_singleton|A]; [by simplify_eq|].
    destruct (h_ack _ _ Hh _ _ _ A) as [[? ?] _]. congruence.
Qed.
End Node.
End Invariant.
