(* ===== verification/ProtocolSteps.v ===== *)
(** Every action of [RaftProtocol] preserves the invariant; the safety theorems
    of the protocol. *)
From stdpp Require Import base numbers strings gmap functions list.
From S2P Require Import Prelude Effects Messages KVReplay RaftState RaftProtocol ProtocolSafety ProtocolInvariant.

Section Steps.
Context {asks : Requests} (members : gset Z) (no_member : -1 ∉ members).
Implicit Types (L : list LogEntry) (T l i : Z).

#[export] Instance contains_dec h T i L : Decision (contains h T i L).
Proof. unfold contains. apply _. Defined.

Lemma contains_mono h T i L M : contains h T i L -> L `prefix_of` M -> contains h T i M.
Proof. unfold contains. intros. by etrans. Qed.

Section Node.
Context (h : history) (q : Z) (p : pnode).
Context (Hq : q ∈ members) (Hh : history_ok members h) (N : node_ok members h q p).

(** * The leader appends *)

Lemma term_at_next L es t i :
  next_entries #L t es -> #L < i <= #L + #es -> term_at (L ++ es) i = t.
Proof.
  intros Hn Hi. rewrite term_at_app_r by lia.
  destruct (term_at_lookup es (i - #L) ltac:(lia)) as (e & E & ->). apply (Hn _ _ E).
Qed.

Section Append.
Context (es : list LogEntry) (Hr : p_role p = LEADER) (Hn : next_entries #(p_log p) (p_term p) es).
Let h' := recorded q p (Appended es) h.

Lemma append_lead T : lead_log h' T = if decide (T = p_term p) then p_log p ++ es else lead_log h T.
Proof.
  unfold lead_log, h'. cbn. case_decide as E; [subst; by rewrite lookup_insert_eq|].
  by rewrite lookup_insert_ne by done.
Qed.

Lemma leader_term_pos : 0 < p_term p.
Proof.
  destruct (n_leader _ _ _ _ N Hr) as (El & _). destruct (h_leads _ _ Hh _ _ El) as [(Lc & _ & V & _) _].
  exact (v_term _ _ _ _ _ _ (h_vote _ _ Hh _ _ _ _ V)).
Qed.

Lemma append_lead_grows T : lead_log h T `prefix_of` lead_log h' T.
Proof.
  rewrite append_lead. case_decide; [|done]. subst. destruct (n_leader _ _ _ _ N Hr) as (_ & -> & _).
  by apply prefix_app_r.
Qed.

Lemma append_log_ok : log_ok h' (p_log p ++ es).
Proof.
  pose proof (n_log _ _ _ _ N) as HL. pose proof leader_term_pos. split.
  - intros i Hi. rewrite length_app in Hi. destruct (Z.le_gt_cases i #(p_log p)).
    + rewrite upto_app by done. rewrite (term_at_prefix (p_log p)) by (by apply prefix_app_r || lia).
      etrans; [apply (l_matching _ _ HL); lia|apply append_lead_grows].
    + rewrite term_at_next with (t := p_term p) by (done || lia). rewrite append_lead, decide_True by done.
      apply upto_prefix.
  - intros j e [E|[Hj E]]%lookup_app_Some; [by apply (l_entries _ _ HL)|]. apply Hn in E as (-> & -> & ->). split_and!; (done || lia).
  - intros i j Hi Hj. rewrite length_app in Hj. destruct (Z.le_gt_cases j #(p_log p)).
    + rewrite !(term_at_prefix (p_log p) (p_log p ++ es)) by (by apply prefix_app_r || lia). by apply (l_sorted _ _ HL).
    + rewrite (term_at_next _ _ _ j Hn) by lia. destruct (Z.le_gt_cases i #(p_log p)).
      * rewrite (term_at_prefix (p_log p)) by (by apply prefix_app_r || lia).
        destruct (decide (i = 0)) as [->|]; [rewrite term_at_0; lia|]. apply N. lia.
      * rewrite (term_at_next _ _ _ i Hn) by lia. done.
Qed.

Lemma append_grows : grows q (p_term p) h h'.
Proof.
  destruct (n_leader _ _ _ _ N Hr) as (El & ELL & _). split; try done; try (by left).
  - intros T. rewrite append_lead. case_decide as E.
    + subst T. exists es. rewrite ELL. split; [done|]. intros _ e [j Ej]%list_elem_of_lookup. apply (Hn _ _ Ej).
    + exists []. rewrite app_nil_r. split; [done|]. intros _ e He. by apply not_elem_of_nil in He.
  - intros T c E Hc. rewrite append_lead, decide_False; [done|congruence].
  - intros T _ [HM HE HS]. rewrite append_lead. case_decide as E; [apply append_log_ok|]. split; [|done..].
    intros i Hi. etrans; [by apply HM|]. apply append_lead_grows.
  - intros a ?. by apply elem_of_union_r.
  - intros v T l [E%elem_of_singleton|]%elem_of_union; [right; by simplify_eq|by left].
Qed.

Lemma append_history : history_ok members h'.
Proof.
  destruct (n_leader _ _ _ _ N Hr) as (El & ELL & _). pose proof append_grows as Hg.
  apply (history_ok_grow members q (p_term p) h h' Hg Hh).
  - exact (own_votes members h q p N).
  - intros T c L V E. change (h_votes h !! (q, T) = Some (c, L)) in V. congruence.
  - intros E. congruence.
  - intros T L E. change (is_Some (h_leader h !! T)). cbn in E.
    destruct (decide (p_term p = T)) as [<-|]; [eauto|]. rewrite lookup_insert_ne in E by done. exact (h_log _ _ Hh T L E).
  - intros l A. split; [exists q; by apply Hg|]. rewrite append_lead, decide_True by done.
    rewrite length_app. apply elem_of_union in A as [E%elem_of_singleton|A]; [simplify_eq; lia|].
    destruct (h_ack _ _ Hh _ _ _ A) as [_ Hl]. rewrite ELL in Hl. lia.
Qed.

Lemma append_node : node_ok members h' q (p <| p_log ::= fun L => L ++ es |>).
Proof.
  destruct (n_leader _ _ _ _ N Hr) as (El & ELL & Hself). pose proof append_grows as Hg.
  assert (retains h' q (p_log p ++ es) (p_term p)) as HR.
  { intros T l i A HT Hi Ht. destruct (decide (T = p_term p)) as [->|Hne].
    - left. unfold contains. rewrite append_lead, decide_True by done. apply upto_prefix.
    - assert ((q, T, l) ∈ h_acks h) as A0 by (destruct (x_acks_new _ _ _ _ Hg _ _ _ A) as [|[_ ?]]; done).
      destruct (h_ack _ _ Hh _ _ _ A0) as [_ Hl]. rewrite append_lead, decide_False in Ht by done.
      destruct (n_retains _ _ _ _ N T l i A0 HT Hi Ht) as [HC|(T' & ? & ?)].
      + left. apply (contains_grow q (p_term p) h h' Hg); [lia|]. eapply contains_mono; [done|by apply prefix_app_r].
      + right. exists T'. split; [done|]. apply (lacks_grow members q (p_term p) h h' Hg Hh); [lia|done]. }
  split; cbn [p_log p_term p_voted p_role p_votes p_commit p_applied p_match p_seq p_recv update]; try apply N; try done.
  - apply append_log_ok.
  - intros i Hi. rewrite length_app in Hi. destruct (Z.le_gt_cases i #(p_log p)).
    + rewrite (term_at_prefix (p_log p)) by (by apply prefix_app_r || lia). apply N. lia.
    + rewrite (term_at_next _ _ _ i Hn) by lia. done.
  - intros T l A. destruct (x_acks_new _ _ _ _ Hg _ _ _ A) as [A0|[_ ->]]; [exact (n_acks _ _ _ _ N _ _ A0)|done].
  - intros _. split; [done|]. rewrite append_lead, decide_True by done. split; [done|].
    rewrite length_app. apply elem_of_union_l, elem_of_singleton. f_equal. lia.
  - congruence.
  - intros k v _ Hk. destruct (n_match _ _ _ _ N k v Hr Hk) as (l & ? & ?). exists l. split; [done|by apply Hg].
  - destruct (n_commit _ _ _ _ N) as [Hc HC]. rewrite length_app, upto_app by lia. split; [lia|].
    by apply (committed_grow members q (p_term p) h h' Hg).
  - apply (log_ok_grow q (p_term p) h h' Hg), N.
Qed.
End Append.

(** * Roles and votes *)

Lemma adopt_node t :
  p_term p < t ->
  node_ok members h q (p <| p_term := t |> <| p_voted := -1 |> <| p_role := FOLLOWER |> <| p_votes := ∅ |>).
Proof.
  intros Ht. pose proof (n_term _ _ _ _ N). split; cbn; try apply N; try done; try lia.
  - intros i Hi. pose proof (n_terms _ _ _ _ N i Hi). lia.
  - intros T c L V. destruct (n_votes _ _ _ _ N _ _ _ V). lia.
  - intros T l A. pose proof (n_acks _ _ _ _ N _ _ A). lia.
  - apply (retains_later h q _ (p_term p)); [apply N|lia|apply N].
  - destruct (n_commit _ _ _ _ N). split; [done|]. eapply committed_later; [done|lia].
Qed.

Lemma campaign_node :
  node_ok members (h <| h_votes ::= <[(q, p_term p + 1) := (q, p_log p)]> |>) q
    (p <| p_term ::= Z.succ |> <| p_voted := q |> <| p_role := CANDIDATE |> <| p_votes := {[q]} |>).
Proof.
  set (h' := h <| h_votes ::= _ |>).
  assert (h_votes h !! (q, p_term p + 1) = None) as E.
  { destruct (h_votes h !! (q, p_term p + 1)) as [[c L]|] eqn:V; [|done]. apply (own_votes members h q p N) in V. lia. }
  assert (forall t, grows q t h h') as Hg by (intros t; by apply grows_votes).
  pose proof (n_term _ _ _ _ N). split; cbn; unfold Z.succ; try apply N; try done; try lia.
  - by apply (log_ok_grow q 0 h h' (Hg 0)), N.
  - intros i Hi. pose proof (n_terms _ _ _ _ N i Hi). lia.
  - intros T c L V. destruct (decide (T = p_term p + 1)) as [->|].
    + rewrite lookup_insert_eq in V. by simplify_eq.
    + rewrite lookup_insert_ne in V by congruence. apply (own_votes members h q p N) in V. lia.
  - intros _. exists (p_log p). apply lookup_insert_eq.
  - intros T l A. pose proof (n_acks _ _ _ _ N _ _ A). lia.
  - apply (retains_same_acks members h q Hh); [done|].
    apply (retains_later h q _ (p_term p)); [apply N|lia|apply N].
  - intros _. split.
    { intros El. destruct (h_leads _ _ Hh _ _ El) as [(Lc & _ & V & _) _]. congruence. }
    split; [set_solver|]. split.
    { intros v ->%elem_of_singleton. exists (p_log p). apply lookup_insert_eq. }
    exists (p_log p). split; [apply lookup_insert_eq|by left].
  - destruct (n_commit _ _ _ _ N). split; [done|]. apply (committed_grow members q 0 h h' (Hg 0)).
    eapply committed_later; [done|lia].
  - by apply (log_ok_grow q 0 h h' (Hg 0)), N.
Qed.

Lemma vote_node c :
  c ∈ members -> c <> q -> p_voted p = -1 \/ p_voted p = c ->
  node_ok members (recorded q p (Voted c) h) q (p <| p_voted := c |>).
Proof.
  intros Hc Hcq Hv. unfold recorded. destruct (h_votes h !! (q, p_term p)) as [[c0 L0]|] eqn:E.
  - assert (c0 = c) as ->.
    { destruct (n_votes _ _ _ _ N _ _ _ E) as [_ Ev]. specialize (Ev eq_refl).
      destruct (v_member _ _ _ _ _ _ (h_vote _ _ Hh _ _ _ _ E)) as [_ Hm]. destruct Hv; congruence. }
    split; cbn; try apply N; try done.
    + intros T c1 L1 V. destruct (n_votes _ _ _ _ N _ _ _ V) as [? _]. split; [done|]. intros ->. congruence.
    + intros _. by exists L0.
  - set (h' := h <| h_votes ::= _ |>).
    assert (forall t, grows q t h h') as Hg by (intros t; by apply grows_votes).
    split; cbn; try apply N; try done.
    + by apply (log_ok_grow q 0 h h' (Hg 0)), N.
    + intros T c1 L1 V. destruct (decide (T = p_term p)) as [->|].
      * rewrite lookup_insert_eq in V. by simplify_eq.
      * rewrite lookup_insert_ne in V by congruence. destruct (n_votes _ _ _ _ N _ _ _ V). done.
    + intros _. exists (p_log p). apply lookup_insert_eq.
    + apply (retains_same_acks members h q Hh); [done|apply N].
    + intros Hr. destruct (n_candidate _ _ _ _ N Hr) as (_ & _ & _ & Lc & V & _). congruence.
    + by apply (log_ok_grow q 0 h h' (Hg 0)), N.
Qed.

Lemma won_node :
  p_role p = CANDIDATE -> majority members (p_votes p) ->
  node_ok members (recorded q p Won h) q (p <| p_role := LEADER |> <| p_votes := ∅ |> <| p_match := ∅ |> <| p_asks := [] |> <| p_answers := [] |>).
Proof.
  intros Hr HQ. pose proof (no_leader_yet members h q p Hh N Hr HQ) as El.
  pose proof (won_grows members h q p Hq Hh N El) as Hg.
  destruct (n_candidate _ _ _ _ N Hr) as (_ & _ & _ & Lc & Vc & HLc).
  assert (p_log p = Lc) as <- by (destruct HLc as [|[? ?]]; [done|congruence]).
  pose proof (h_vote _ _ Hh _ _ _ _ Vc) as V.
  assert (lead_log (recorded q p Won h) (p_term p) = p_log p) as EL.
  { unfold lead_log. cbn. by rewrite lookup_insert_eq. }
  split; cbn [p_log p_term p_voted p_role p_votes p_commit p_applied p_match p_seq p_recv update]; try apply N; try done.
  - eapply log_ok_grow; [done|apply N].
  - intros T l A. destruct (x_acks_new _ _ _ _ Hg _ _ _ A) as [A0|[_ ->]]; [exact (n_acks _ _ _ _ N _ _ A0)|done].
  - intros T l i A HT Hi Ht. destruct (decide (T = p_term p)) as [->|Hne].
    + left. unfold contains. rewrite EL. apply upto_prefix.
    + assert ((q, T, l) ∈ h_acks h) as A0 by (destruct (x_acks_new _ _ _ _ Hg _ _ _ A) as [|[_ ?]]; done).
      destruct (h_ack _ _ Hh _ _ _ A0) as [_ Hl]. rewrite (term_at_lead_grow _ _ _ _ Hg) in Ht by lia.
      destruct (n_retains _ _ _ _ N T l i A0 HT Hi Ht) as [HC|(T' & ? & ?)].
      * left. apply (contains_grow _ _ _ _ Hg); [lia|done].
      * right. exists T'. split; [done|]. eapply lacks_grow; eauto. lia.
  - intros _. cbn. rewrite lookup_insert_eq. split; [done|]. split; [done|].
    apply elem_of_union_l, elem_of_singleton. done.
  - destruct (n_commit _ _ _ _ N). split; [done|]. by eapply committed_grow.
  - eapply log_ok_grow; [done|apply N].
Qed.

(** * The follower *)

Section Follow.
Context (c : Z) (r : AppendEntries).
Context (El : h_leader h !! p_term p = Some c) (Hcq : c <> q).
Context (F : ae_from c (p_term p) (lead_log h (p_term p)) #(lead_log h (p_term p)) r).
Context (HC : committed members h (p_term p) (upto (lead_log h (p_term p)) (ae_leader_commit r))).
Let LL := lead_log h (p_term p).

Lemma lead_ok : log_ok h LL.
Proof. by destruct (leader_log_split members h _ c Hh El) as (_ & _ & _ & ? & _). Qed.

(** The entries of the request are the leader's. *)
Lemma ae_entry_lead e :
  e ∈ ae_entries r -> ae_prev_log_index r < index e <= ae_end r /\ term_at LL (index e) = term e.
Proof.
  intros [j Ej]%list_elem_of_lookup. destruct F as (_ & _ & H0 & _ & EU & Hend & _). unfold ae_end in *.
  pose proof (lookup_lt_Some _ _ _ Ej) as Hj.
  assert (LL !! (Z.to_nat (ae_prev_log_index r) + j)%nat = Some e) as E.
  { apply (prefix_lookup_Some (upto LL (ae_prev_log_index r + #(ae_entries r)))); [|apply upto_prefix].
    unfold LL. rewrite EU, lookup_app_r; [|unfold upto; rewrite length_take; lia].
    replace (_ - _)%nat with j; [done|]. unfold upto. rewrite length_take. lia. }
  destruct (l_entries _ _ lead_ok _ _ E) as [Hi Hp]. split; [lia|].
  apply term_at_Some; [|lia]. rewrite <- E. f_equal. lia.
Qed.

Lemma ae_end_term_lead : ae_end_term r = term_at LL (ae_end r).
Proof.
  destruct F as (_ & _ & H0 & Hp & EU & Hend & _). unfold ae_end_term, ae_end in *.
  destruct (last (ae_entries r)) as [e|] eqn:E.
  - assert (e ∈ ae_entries r) as He by (rewrite last_lookup in E; by eapply list_elem_of_lookup_2).
    destruct (ae_entry_lead e He) as [Hi <-]. f_equal. apply last_Some in E as [es Es].
    assert (index e = ae_prev_log_index r + #(ae_entries r)); [|done].
    assert (LL !! (Z.to_nat (ae_prev_log_index r + #(ae_entries r)) - 1)%nat = Some e) as E'.
    { apply (prefix_lookup_Some (upto LL (ae_prev_log_index r + #(ae_entries r)))); [|apply upto_prefix].
      unfold LL. rewrite EU, Es, length_app in *. cbn in *.
      rewrite lookup_app_r by (unfold upto; rewrite length_take; lia).
      rewrite lookup_app_r by (unfold upto; rewrite length_take; lia).
      replace (_ - _ - _)%nat with 0%nat; [done|]. unfold upto. rewrite length_take. lia. }
    apply (l_entries _ _ lead_ok) in E' as [-> _].
    assert (0 < length (ae_entries r))%nat by (rewrite Es, length_app; cbn; lia). lia.
  - apply last_None in E. rewrite E. cbn. by rewrite Z.add_0_r.
Qed.

Lemma follower_role : h_leader h !! p_term p <> Some q /\ is_Some (h_leader h !! p_term p).
Proof. split; [congruence|eauto]. Qed.

(** Removing a suffix that conflicts with the leader gives up only what the
    leader was elected without. *)
Lemma truncate_node e :
  e ∈ ae_entries r -> p_commit p < index e <= #(p_log p) -> term_at (p_log p) (index e) <> term e ->
  node_ok members h q (p <| p_log ::= fun L => upto L (index e - 1) |>).
Proof.
  intros He Hi Hne. destruct (ae_entry_lead e He) as [Hie Ht]. pose proof (n_log _ _ _ _ N) as HL.
  destruct (n_commit _ _ _ _ N) as [Hc HCo]. destruct follower_role.
  assert (retains h q (upto (p_log p) (index e - 1)) (p_term p)) as HR.
  { intros T l i A HT Hil HTi. destruct (h_ack _ _ Hh _ _ _ A) as [_ Hl].
    destruct (n_retains _ _ _ _ N T l i A HT Hil HTi) as [HCi|]; [|by right].
    assert (#(upto (lead_log h T) i) = i) as Hlen by (apply length_upto; lia).
    destruct (Z.lt_ge_cases i (index e)) as [Hlt|Hge]; [left; apply prefix_of_upto; [done|lia]|].
    assert (forall M, contains h T i M -> term_at M (index e) <> term_at LL (index e)) as Hconf.
    { intros M HM. rewrite (term_at_prefix _ _ _ HM) by lia.
      rewrite <- (term_at_prefix _ _ (index e) HCi) by lia. congruence. }
    right. exists (p_term p). assert (T <> p_term p) as HTp.
    { intros ->. apply (Hconf LL); [apply upto_prefix|done]. }
    split; [lia|]. split; [eauto|]. intros HCe. apply (Hconf LL); [|done].
    eapply contains_mono; [done|by apply (elected_prefix members)]. }
  pose proof (node_ok_log members h q p N (upto (p_log p) (index e - 1))) as K.
  destruct (n_applied _ _ _ _ N).
  assert (#(upto (p_log p) (index e - 1)) = index e - 1) as Hlen by (apply length_upto; lia).
  apply (K ltac:(done) ltac:(done)) with (c := p_commit p); try done; try lia.
  - apply (log_ok_prefix h _ (p_log p)); [done|apply upto_prefix].
  - intros i Hii. rewrite term_at_upto by lia. apply N. lia.
  - rewrite upto_upto by lia. done.
Qed.

(** The log after the missing entries were appended is the leader's prefix. *)
Lemma follow_log :
  ae_prev_log_index r <= #(p_log p) < ae_end r ->
  (#(p_log p) = ae_prev_log_index r /\ term_at (p_log p) #(p_log p) = ae_prev_log_term r) \/
  (exists e, e ∈ ae_entries r /\ index e = #(p_log p) /\ term_at (p_log p) #(p_log p) = term e) ->
  p_log p ++ drop (Z.to_nat (#(p_log p) - ae_prev_log_index r)) (ae_entries r) = upto LL (ae_end r) /\
  p_log p = upto LL #(p_log p).
Proof.
  intros Hl Hm. destruct F as (_ & _ & H0 & Hp & EU & Hend & _).
  assert (p_log p = upto LL #(p_log p)) as E.
  { rewrite <- (upto_all (p_log p) #(p_log p)) at 1 by lia.
    apply (agrees_upto members h q p Hh N c); [done|lia|lia|]. right.
    destruct Hm as [[E1 E2]|(e & He & E1 & E2)].
    - rewrite E2, Hp. by rewrite E1.
    - destruct (ae_entry_lead e He) as [_ Ht]. by rewrite E2, <- Ht, E1. }
  split; [|done]. rewrite E at 1. unfold LL. rewrite EU.
  rewrite <- (upto_upto (lead_log h (p_term p)) #(p_log p) (ae_end r)) by lia. rewrite EU.
  unfold upto at 1. rewrite take_app.
  assert (length (upto (lead_log h (p_term p)) (ae_prev_log_index r)) = Z.to_nat (ae_prev_log_index r)) as Hlen.
  { unfold upto. rewrite length_take. unfold ae_end in *. lia. }
  rewrite Hlen, take_ge by lia. rewrite <- app_assoc.
  replace (Z.to_nat (#(p_log p) - ae_prev_log_index r)) with (Z.to_nat #(p_log p) - Z.to_nat (ae_prev_log_index r))%nat by lia.
  by rewrite take_drop.
Qed.

Lemma retains_extend L M : retains h q L (p_term p) -> L `prefix_of` M -> retains h q M (p_term p).
Proof.
  intros R HP T l i A HT Hi Ht. destruct (R T l i A HT Hi Ht) as [HCo|]; [left|by right].
  by eapply contains_mono.
Qed.

Lemma lead_terms i : 0 < i <= #LL -> term_at LL i <= p_term p.
Proof.
  intros Hi. destruct (leader_log_split members h _ c Hh El) as (tl & E & Htl & _ & Hlow).
  fold LL in E. destruct (Z.le_gt_cases i #(elected_log h (p_term p))) as [Hle|Hgt].
  - rewrite E, (term_at_prefix (elected_log h (p_term p))) by (by apply prefix_app_r || lia).
    pose proof (Hlow i ltac:(lia)). lia.
  - rewrite E in Hi |- *. rewrite length_app in Hi. rewrite term_at_app_r by lia.
    destruct (term_at_lookup tl (i - #(elected_log h (p_term p))) ltac:(lia)) as (e & Ee & ->).
    rewrite Htl; [done|]. by eapply list_elem_of_lookup_2.
Qed.

Lemma follow_node :
  ae_prev_log_index r <= #(p_log p) < ae_end r ->
  (#(p_log p) = ae_prev_log_index r /\ term_at (p_log p) #(p_log p) = ae_prev_log_term r) \/
  (exists e, e ∈ ae_entries r /\ index e = #(p_log p) /\ term_at (p_log p) #(p_log p) = term e) ->
  node_ok members h q
    (p <| p_log ::= fun L => L ++ drop (Z.to_nat (#L - ae_prev_log_index r)) (ae_entries r) |>).
Proof.
  intros Hl Hm. destruct (follow_log Hl Hm) as [E Ep]. destruct F as (_ & _ & _ & _ & _ & Hend & _).
  destruct (n_commit _ _ _ _ N) as [Hc HCo]. destruct follower_role. destruct (n_applied _ _ _ _ N).
  pose proof (node_ok_log members h q p N (upto LL (ae_end r))) as K.
  assert (#(upto LL (ae_end r)) = ae_end r) as Hlen by (apply length_upto; unfold LL; lia).
  assert (p_log p `prefix_of` upto LL (ae_end r)) as HP by (rewrite Ep; apply upto_mono; lia).
  enough (node_ok members h q (p <| p_log := upto LL (ae_end r) |> <| p_commit := p_commit p |>)) as K'.
  { cbn in K' |- *. by rewrite E. }
  apply (K ltac:(done) ltac:(done)); try done; try lia.
  - apply (log_ok_prefix h _ LL); [apply lead_ok|apply upto_prefix].
  - intros i Hi. rewrite term_at_upto by (unfold LL; lia). apply lead_terms. unfold LL in *. lia.
  - by eapply retains_extend; [apply N|].
  - rewrite (prefix_upto (p_log p)) by (done || lia). done.
Qed.

(** What a successful answer promises. *)
Lemma ack_agrees :
  ae_end r <= p_commit p \/ term_at (p_log p) (ae_end r) = ae_end_term r -> 0 <= ae_prev_log_term r ->
  0 <= ae_end r <= #(p_log p) /\ upto (p_log p) (ae_end r) = upto LL (ae_end r).
Proof.
  intros Hm Hpt. destruct F as (_ & _ & H0 & Hp & EU & Hend & _). destruct (n_commit _ _ _ _ N) as [Hc _].
  assert (0 <= ae_end r) by (unfold ae_end; lia).
  assert (ae_end r <= #(p_log p)) as Hle.
  { destruct Hm as [|Hm]; [lia|]. rewrite ae_end_term_lead in Hm.
    assert (0 <= term_at (p_log p) (ae_end r)) as Hx%term_at_inside; [|lia]. rewrite Hm.
    destruct (decide (ae_end r = 0)) as [->|]; [done|].
    pose proof (term_at_pos h LL (ae_end r) lead_ok). unfold LL in *. lia. }
  split; [done|]. apply (agrees_upto members h q p Hh N c); try done.
  destruct Hm as [|Hm]; [by left|right]. by rewrite Hm, ae_end_term_lead.
Qed.

Lemma follow_commit_node i :
  term_at (p_log p) (ae_end r) = ae_end_term r -> 0 <= ae_prev_log_term r ->
  p_commit p <= i -> i <= ae_leader_commit r -> i <= ae_end r ->
  node_ok members h q (p <| p_commit := i |>).
Proof.
  intros Ht Hpt Hci Hi Hie. destruct (ack_agrees ltac:(by right) Hpt) as [Hle E].
  destruct (n_commit _ _ _ _ N) as [Hc _]. destruct (n_applied _ _ _ _ N).
  split; cbn; try apply N; try done; [|lia]. split; [lia|].
  assert (upto (p_log p) i = upto LL i) as ->.
  { rewrite <- (upto_upto (p_log p) i (ae_end r)), E, upto_upto by lia. done. }
  eapply committed_prefix; [done|]. by apply upto_mono.
Qed.
End Follow.

Lemma install_node c r :
  h_leader h !! p_term p = Some c -> c <> q -> is_term r = p_term p ->
  0 < is_last_included_index r <= #(lead_log h (p_term p)) ->
  is_last_included_term r = term_at (lead_log h (p_term p)) (is_last_included_index r) ->
  committed members h (p_term p) (upto (lead_log h (p_term p)) (is_last_included_index r)) ->
  node_ok members h q
    (p <| p_log := if term_at (p_log p) (is_last_included_index r) =? is_last_included_term r then p_log p
                   else upto (lead_log h (p_term p)) (is_last_included_index r) |>
       <| p_commit ::= Z.max (is_last_included_index r) |>).
Proof.
  intros El Hcq _ Hi Ht HC. set (i := is_last_included_index r) in *. set (LL := lead_log h (p_term p)) in *.
  assert (log_ok h LL) as HLL by (by apply (lead_ok c)).
  destruct (n_commit _ _ _ _ N) as [Hc HCo]. destruct (n_applied _ _ _ _ N).
  pose proof (node_ok_log members h q p N) as K.
  destruct (follower_role c El Hcq). pose proof (term_at_pos h LL i HLL Hi) as Hpos.
  destruct (Z.eqb_spec (term_at (p_log p) i) (is_last_included_term r)) as [E|E].
  - assert (0 <= i <= #(p_log p)) as Hil by (apply term_at_inside; lia).
    apply (K (p_log p)) with (c := Z.max i (p_commit p)); try done; try apply N; [lia|lia|].
    destruct (Z.max_spec i (p_commit p)) as [[_ ->]|[_ ->]]; [done|].
    rewrite (agrees_upto members h q p Hh N c); try done; [fold LL; lia|]. right. fold LL. congruence.
  - assert (p_commit p < i) as Hlt.
    { destruct (Z.lt_ge_cases (p_commit p) i) as [|Hge]; [done|]. destruct E. rewrite Ht.
      rewrite <- (term_at_upto (p_log p) i i), <- (term_at_upto LL i i) by lia. f_equal.
      apply (agrees_upto members h q p Hh N c); try done; [lia|fold LL; lia|by left]. }
    assert (#(upto LL i) = i) as Hlen by (apply length_upto; lia).
    apply (K (upto LL i)) with (c := Z.max i (p_commit p)); try done; try lia.
    + apply (log_ok_prefix h _ LL); [done|apply upto_prefix].
    + intros j Hj. rewrite term_at_upto by lia. apply (lead_terms c El). fold LL. lia.
    + intros T l j A HT Hj HTj. destruct (h_ack _ _ Hh _ _ _ A) as [_ Hl].
      destruct (n_retains _ _ _ _ N T l j A HT Hj HTj) as [HCi|]; [|by right].
      assert (#(upto (lead_log h T) j) = j) as Hlenj by (apply length_upto; lia).
      assert (contains h T j LL -> contains h T j (upto LL i)) as Hkeep.
      { intros HM. apply prefix_of_upto; [done|]. rewrite Hlenj.
        destruct (Z.le_gt_cases j i) as [|Hgt]; [done|]. destruct E. rewrite Ht.
        rewrite (term_at_prefix _ _ i HCi), (term_at_prefix _ _ i HM) by lia. done. }
      destruct (decide (T = p_term p)) as [->|HTp]; [left; apply Hkeep, upto_prefix|].
      destruct (decide (contains h T j (elected_log h (p_term p)))) as [HCe|HCe].
      * left. apply Hkeep. eapply contains_mono; [done|by apply (elected_prefix members)].
      * right. exists (p_term p). split; [lia|]. by split.
    + rewrite Z.max_l, upto_upto by lia. done.
Qed.

(** * Acknowledgements and commitment *)

Lemma ack_node l :
  l <= #(lead_log h (p_term p)) -> upto (p_log p) l = upto (lead_log h (p_term p)) l ->
  node_ok members (recorded q p (Acked l) h) q p.
Proof.
  intros Hl E. pose proof (grows_acks q (p_term p) h l) as Hg.
  assert (forall T l', (q, T, l') ∈ h_acks (recorded q p (Acked l) h) -> T <= p_term p) as Ha.
  { intros T l' A. destruct (x_acks_new _ _ _ _ Hg _ _ _ A) as [A0|[_ ->]]; [exact (n_acks _ _ _ _ N _ _ A0)|done]. }
  split; try apply N; try done.
  - apply (log_ok_grow _ _ _ _ Hg), N.
  - apply (retains_ack members h q p Hh); [apply N|done|]. intros i Hi _. unfold contains.
    rewrite <- (upto_upto _ i l), <- E, upto_upto by lia. apply upto_prefix.
  - intros Hr. destruct (n_leader _ _ _ _ N Hr) as (? & ? & ?). split; [done|]. split; [done|]. by apply Hg.
  - intros k v Hr Hk. destruct (n_match _ _ _ _ N k v Hr Hk) as (l' & ? & ?). exists l'. split; [done|]. by apply Hg.
  - destruct (n_commit _ _ _ _ N). split; [done|]. by apply (committed_grow members _ _ _ _ Hg).
  - apply (log_ok_grow _ _ _ _ Hg), N.
Qed.

Lemma lead_commit_node c Q :
  p_role p = LEADER -> majority members Q -> (forall k, k ∈ Q -> exists v, p_match p !! k = Some v /\ c <= v) ->
  0 < c -> term_at (p_log p) c = p_term p -> p_commit p <= c ->
  node_ok members h q (p <| p_commit := c |>).
Proof.
  intros Hr HQ Hm Hc Ht Hle. destruct (n_leader _ _ _ _ N Hr) as (El & ELL & _).
  destruct (n_applied _ _ _ _ N). pose proof (n_term _ _ _ _ N).
  assert (0 <= c <= #(p_log p)) as Hcl by (apply term_at_inside; lia).
  split; cbn; try apply N; try done; [|lia]. split; [done|]. right. exists (p_term p). split; [done|].
  split; [by exists q|]. exists c, Q. rewrite ELL. split; [done|]. split.
  { intros k Hk. destruct (Hm k Hk) as (v & Ev & Hv). destruct (n_match _ _ _ _ N k v Hr Ev) as (l & ? & ?).
    exists l. split; [lia|done]. }
  split; [lia|]. by split.
Qed.

Lemma match_node k m l :
  p_role p = LEADER -> (k, p_term p, l) ∈ h_acks h -> m <= l ->
  node_ok members h q (p <| p_match ::= <[k := m]> |>).
Proof.
  intros Hr A Hm. split; cbn; try apply N. intros k' v _ Hk'.
  destruct (decide (k = k')) as [<-|]; [|rewrite lookup_insert_ne in Hk' by done; by eapply N].
  rewrite lookup_insert_eq in Hk'. simplify_eq. by exists l.
Qed.
End Node.
End Steps.
