(* ===== verification/ProtocolTheorems.v ===== *)
(** The protocol is safe: election safety, log matching, leader completeness and
    state machine safety hold in every reachable cluster. *)
From stdpp Require Import base numbers strings gmap functions list.
From S2P Require Import Prelude Effects Messages KVReplay RaftState RaftProtocol ProtocolSafety ProtocolInvariant ProtocolSteps.

Section Theorems.
Context {asks : Requests} (members : gset Z) (no_member : -1 ∉ members).

Lemma sent_by_spec q net e : e ∈ sent_by q net <-> (q, e) ∈ net.
Proof.
  unfold sent_by. rewrite list_elem_of_fmap. split.
  - intros ([q' e'] & -> & [E H]%list_elem_of_filter). cbn in E. by subst.
  - intros H. exists (q, e). split; [done|]. by apply list_elem_of_filter.
Qed.

Section Step.
Context (w : world) (Sw : safe members w) (q : Z) (Hq : q ∈ members) (o : outlook).
Abbreviation h := (w_history w).
Abbreviation net := (w_net w).
Abbreviation p := (w_node w q).

Lemma box_ok from m :
  deliverable net q (Some (from, m)) ->
  from ∈ members /\ (message_ok members h net from (Some q) m \/ message_ok members h net from None m).
Proof.
  intros [H|H]; destruct (s_net _ _ Sw _ _ H) as [? E]; auto.
Qed.

Lemma box_vote_request from r :
  deliverable net q (Some (from, MRequestVote r)) -> rv_prevote r = false ->
  exists L, h_votes h !! (from, rv_term r) = Some (from, L) /\
    rv_last_log_index r = #L /\ rv_last_log_term r = term_at L #L.
Proof. intros D E. destruct (box_ok _ _ D) as [_ [[?|?]|[?|?]]]; congruence. Qed.

Lemma box_vote from r :
  deliverable net q (Some (from, MRequestVoteResponse r)) -> rvr_vote_granted r = true -> rvr_prevote r = false ->
  exists L, h_votes h !! (from, rvr_term r) = Some (q, L).
Proof.
  intros D E1 E2. destruct (box_ok _ _ D) as [_ [M|M]]; destruct M as [|[|(c & L & Ec & V)]]; try congruence.
  exists L. congruence.
Qed.

Lemma box_append from r :
  deliverable net q (Some (from, MAppendEntries r)) -> 0 <= ae_prev_log_term r ->
  h_leader h !! ae_term r = Some from /\
  ae_from from (ae_term r) (lead_log h (ae_term r)) #(lead_log h (ae_term r)) r /\
  committed members h (ae_term r) (upto (lead_log h (ae_term r)) (ae_leader_commit r)).
Proof. intros D E. destruct (box_ok _ _ D) as [_ [[?|?]|[?|?]]]; done || lia. Qed.

Lemma box_snapshot from r :
  deliverable net q (Some (from, MInstallSnapshot r)) ->
  h_leader h !! is_term r = Some from /\
  0 < is_last_included_index r <= #(lead_log h (is_term r)) /\
  is_last_included_term r = term_at (lead_log h (is_term r)) (is_last_included_index r) /\
  committed members h (is_term r) (upto (lead_log h (is_term r)) (is_last_included_index r)) /\
  chunk_of (upto (lead_log h (is_term r)) (is_last_included_index r)) r.
Proof. intros D. by destruct (box_ok _ _ D) as [_ [[_ ?]|[_ ?]]]. Qed.

(** The snapshot a complete answer is about. *)
Lemma box_snapshot_ack from r peer s :
  deliverable net q (Some (from, MInstallSnapshotResponse r)) ->
  isr_success r = true -> isr_complete r = true ->
  h_leader h !! isr_term r = Some q ->
  (q, Sent peer (MInstallSnapshot s)) ∈ net -> is_term s = isr_term r -> is_rpc_id s = isr_rpc_id r ->
  (from, isr_term r, is_last_included_index s) ∈ h_acks h.
Proof.
  intros D E1 E2 El Hs Et Er.
  assert (exists c peer s, (c, Sent peer (MInstallSnapshot s)) ∈ net /\ h_leader h !! isr_term r = Some c /\
        is_term s = isr_term r /\ is_rpc_id s = isr_rpc_id r /\
        (from, isr_term r, is_last_included_index s) ∈ h_acks h) as (c & peer' & s' & Hs' & Ec & Et' & Er' & A).
  { destruct (box_ok _ _ D) as [_ [M|M]]; destruct M as [|[|M]]; try congruence; done. }
  assert (c = q) as -> by congruence.
  by rewrite (s_unique _ _ Sw q peer s peer' s') by congruence.
Qed.

(** What an action must establish. *)
Record step_ok (ev : event) (out : list Effect) (p' : pnode) : Prop := {
  k_grows : exists t, grows q t h (recorded q p ev h);
  k_history : history_ok members (recorded q p ev h);
  k_node : node_ok members (recorded q p ev h) q p';
  k_out e : e ∈ out -> forall net', (forall x, x ∈ net -> x ∈ net') ->
    effect_ok members (recorded q p ev h) net' q e;
}.

Lemma step_ok_tau p' : node_ok members h q p' -> step_ok Tau [] p'.
Proof.
  intros N. split; [exists 0; apply grows_refl|apply Sw|done|]. intros e He. by apply not_elem_of_nil in He.
Qed.

Lemma step_ok_emit e p' :
  node_ok members h q p' ->
  (forall net', (forall x, x ∈ net -> x ∈ net') -> effect_ok members h net' q e) -> step_ok Tau [e] p'.
Proof.
  intros N He. split; [exists 0; apply grows_refl|apply Sw|done|]. intros e' ->%list_elem_of_singleton. done.
Qed.

Lemma ack_step_ok l m :
  is_Some (h_leader h !! p_term p) ->
  l <= #(lead_log h (p_term p)) -> upto (p_log p) l = upto (lead_log h (p_term p)) l ->
  (forall net', (forall x, x ∈ net -> x ∈ net') -> effect_ok members (recorded q p (Acked l) h) net' q m) ->
  step_ok (Acked l) [m] p.
Proof.
  intros El Hl E Hm. pose proof (s_node _ _ Sw q Hq) as N. split.
  - exists (p_term p). apply grows_acks.
  - apply history_ok_acks; [apply Sw|done|done|exact (own_votes members h q p N)].
  - apply ack_node; [apply Sw|done..].
  - intros e ->%list_elem_of_singleton. done.
Qed.

Lemma campaign_step_ok :
  step_ok Campaigned
    [Broadcasted (MRequestVote (mkRequestVote (p_term p + 1) q #(p_log p) (term_at (p_log p) #(p_log p)) false))]
    (p <| p_term ::= Z.succ |> <| p_voted := q |> <| p_role := CANDIDATE |> <| p_votes := {[q]} |>).
Proof.
  pose proof (s_node _ _ Sw q Hq) as N. pose proof (s_history _ _ Sw) as Hh.
  assert (h_votes h !! (q, p_term p + 1) = None) as E.
  { destruct (h_votes h !! (q, p_term p + 1)) as [[c L]|] eqn:V; [|done]. apply (own_votes members h q p N) in V. lia. }
  split; [exists 0; by apply grows_votes|by apply campaign_history|by apply campaign_node|].
  intros e ->%list_elem_of_singleton net' _. right. exists (p_log p). split; [|done]. cbn. apply lookup_insert_eq.
Qed.

Lemma vote_step_ok c r :
  deliverable net q (Some (c, MRequestVote r)) -> rv_prevote r = false -> rv_term r = p_term p -> c <> q ->
  c ∈ members -> p_voted p = -1 \/ p_voted p = c ->
  up_to_date (rv_last_log_index r) (rv_last_log_term r) (p_log p) ->
  step_ok (Voted c) [Sent c (MRequestVoteResponse (mkRequestVoteResponse (p_term p) true false))]
    (p <| p_voted := c |>).
Proof.
  intros D Hp Ht Hcq Hcm Hv Hu. pose proof (s_node _ _ Sw q Hq) as N. pose proof (s_history _ _ Sw) as Hh.
  destruct (box_vote_request _ _ D Hp) as (Lc & Vc & E1 & E2). rewrite Ht in Vc. rewrite E1, E2 in Hu.
  assert (node_ok members (recorded q p (Voted c) h) q (p <| p_voted := c |>)) as N' by (by apply vote_node).
  split; [| |done|].
  - exists 0. unfold recorded. destruct (h_votes h !! (q, p_term p)) eqn:E; [apply grows_refl|by apply grows_votes].
  - unfold recorded. destruct (h_votes h !! (q, p_term p)) eqn:E; [done|]. by eapply vote_history.
  - intros e ->%list_elem_of_singleton net' _. right. right.
    destruct (n_voted _ _ _ _ N') as [L V]; [cbn; congruence|]. exists c, L. split; [done|exact V].
Qed.

Lemma count_node_ok v r :
  deliverable net q (Some (v, MRequestVoteResponse r)) -> rvr_vote_granted r = true -> rvr_prevote r = false ->
  rvr_term r = p_term p -> p_role p = CANDIDATE -> v ∈ members ->
  node_ok members h q (p <| p_votes ::= fun vs => {[v]} ∪ vs |>).
Proof.
  intros D Hg Hp Ht Hr Hm. pose proof (s_node _ _ Sw q Hq) as N.
  destruct (box_vote _ _ D Hg Hp) as [L V]. rewrite Ht in V.
  split; cbn; try apply N; try congruence. intros _. destruct (n_candidate _ _ _ _ N Hr) as (? & ? & Hvs & ?).
  split; [done|]. split; [set_solver|]. split; [|done]. intros u [->%elem_of_singleton|Hu]%elem_of_union; eauto.
Qed.

Lemma send_append_ok peer r net' :
  p_role p = LEADER -> ae_from q (p_term p) (p_log p) (p_commit p) r ->
  effect_ok members h net' q (Sent peer (MAppendEntries r)).
Proof.
  intros Hr F. pose proof (s_node _ _ Sw q Hq) as N. right.
  destruct (n_leader _ _ _ _ N Hr) as (El & ELL & _). destruct (n_commit _ _ _ _ N) as [Hc HC].
  assert (ae_term r = p_term p) as -> by apply F. rewrite ELL. split; [done|].
  destruct F as (? & ? & ? & ? & ? & ? & ?). split; [repeat split; try done; lia|].
  eapply committed_prefix; [done|]. by apply upto_mono.
Qed.

Lemma send_snapshot_ok peer r net' :
  p_role p = LEADER -> is_term r = p_term p -> 0 < is_last_included_index r <= p_commit p ->
  is_last_included_term r = term_at (p_log p) (is_last_included_index r) ->
  chunk_of (upto (p_log p) (is_last_included_index r)) r ->
  effect_ok members h net' q (Sent peer (MInstallSnapshot r)).
Proof.
  intros Hr Ht Hi Hti Hck. pose proof (s_node _ _ Sw q Hq) as N.
  destruct (n_leader _ _ _ _ N Hr) as (El & ELL & _). destruct (n_commit _ _ _ _ N) as [Hc HC].
  cbn. rewrite Ht, ELL. split; [eauto|]. split; [done|]. split; [lia|]. split; [done|].
  split; [|done]. eapply committed_prefix; [done|]. apply upto_mono. lia.
Qed.

Lemma ack_snapshot_step_ok c r :
  deliverable net q (Some (c, MInstallSnapshot r)) -> is_term r = p_term p ->
  is_last_included_index r <= p_commit p ->
  step_ok (Acked (is_last_included_index r))
    [Sent c (MInstallSnapshotResponse (mkInstallSnapshotResponse (p_term p) true true (is_rpc_id r)))] p.
Proof.
  intros D Ht Hi. pose proof (s_node _ _ Sw q Hq) as N. pose proof (s_history _ _ Sw) as Hh.
  destruct (box_snapshot _ _ D) as (El & Hi' & Hti & HC & _). rewrite Ht in El, Hi', Hti, HC.
  destruct (n_commit _ _ _ _ N) as [Hc _]. apply ack_step_ok; [eauto|lia| |].
  { apply (agrees_upto members h q p Hh N c); [done|lia|lia|by left]. }
  intros net' Hn. right. right. destruct D as [D|D].
  - exists c, q, r. split; [by apply Hn|]. cbn. split; [done|]. split; [done|]. split; [done|]. set_solver.
  - by destruct (s_net _ _ Sw _ _ D) as [_ [[? ?] _]].
Qed.

Lemma restart_node_ok :
  node_ok members h q (p <| p_role := FOLLOWER |> <| p_votes := ∅ |> <| p_match := ∅ |> <| p_seq := 0 |>
    <| p_commit := p_applied p |> <| p_asks := [] |> <| p_answers := [] |>).
Proof.
  pose proof (s_node _ _ Sw q Hq) as N. destruct (n_commit _ _ _ _ N) as [Hc HC]. destruct (n_applied _ _ _ _ N).
  split; cbn; try apply N; try done. split; [lia|]. eapply committed_prefix; [done|]. by apply upto_mono.
Qed.

Lemma pstep_ok box ev out p' :
  deliverable net q box -> pstep members q box (mkOutside (lead_log h) o) (sent_by q net) p ev out p' -> step_ok ev out p'.
Proof.
  intros D Sp. pose proof (s_node _ _ Sw q Hq) as N. pose proof (s_history _ _ Sw) as Hh.
  destruct Sp as [rl Hrl|t Ht| |c r -> Hp Ht Hcq Hcm Hv Hu|v r -> Hg Hp Ht Hr Hm|Hr HQ|es Hr Hn|v Hr Hv _
    |peer r Hr F|peer r Hr Ht Hid Hi Hti Hck Hs|v r m -> Hr Ht Hsu Hvm Hm|v r peer s m -> Hr Ht Hsu Hco Hvm Hs Hst Hsr Hm
    |c Q Hr HQ Hm Hc Ht Hle|cb Hr Ht Ha|v r n Hr Ht Hn|a Hr Ha HQ Hi|cb i Hl|c r e -> Ht Hcq Hpt He Hi Hne|c r -> Ht Hcq Hpt Hl Hm|c r -> Ht Hcq Hpt Hm|c r i ->
    |c r i -> Ht Hcq Hpt Hm Hci Hi Hie|c r -> Ht Hcq|c r -> Ht Hcq|c r -> Ht Hcq Hi|a Ha| |cb reply i e Hr Ht Hi He Hc Hrp|e He].
  - apply step_ok_tau. split; cbn; try apply N; intros E; destruct Hrl; congruence.
  - by apply step_ok_tau, adopt_node.
  - apply campaign_step_ok.
  - by eapply vote_step_ok.
  - by eapply step_ok_tau, count_node_ok.
  - split; [|by apply won_history|by apply won_node|intros e He; by apply not_elem_of_nil in He].
    exists (p_term p). eapply won_grows; try done. by eapply no_leader_yet.
  - split; [exists (p_term p); by eapply append_grows|by apply append_history|by apply append_node|].
    intros e He. by apply not_elem_of_nil in He.
  - apply step_ok_tau. destruct (n_leader _ _ _ _ N Hr) as (_ & _ & A). by eapply match_node.
  - apply step_ok_emit; [done|]. intros net' _. by apply send_append_ok.
  - apply step_ok_emit; [split; cbn; apply N|]. intros net' _. by apply send_snapshot_ok.
  - apply step_ok_tau. apply (match_node members h q p N v m (aer_last_log_index r)); [done| |done]. rewrite <- Ht.
    destruct (box_ok _ _ D) as [_ [[M|M]|[M|M]]]; congruence || done.
  - apply step_ok_tau. apply (match_node members h q p N v m (is_last_included_index s)); [done| |done]. rewrite <- Ht.
    apply sent_by_spec in Hs. eapply box_snapshot_ack; try done; [|congruence]. rewrite Ht. by apply N.
  - apply step_ok_tau. by eapply lead_commit_node.
  - apply step_ok_tau. split; cbn; apply N.
  - apply step_ok_tau. split; cbn; apply N.
  - by apply step_ok_emit.
  - by apply step_ok_emit.
  - apply step_ok_tau. destruct (box_append _ _ D Hpt) as (El & F & HC). rewrite Ht in *. by eapply truncate_node.
  - apply step_ok_tau. destruct (box_append _ _ D Hpt) as (El & F & HC). rewrite Ht in *. by eapply follow_node.
  - destruct (box_append _ _ D Hpt) as (El & F & HC). rewrite Ht in *.
    destruct (ack_agrees members h q p Hh N c r El F Hm Hpt) as [Hle E].
    apply ack_step_ok; [eauto|apply F|done|]. intros net' _. right. cbn. set_solver.
  - apply step_ok_emit; [done|]. intros net' _. by left.
  - apply step_ok_tau. destruct (box_append _ _ D Hpt) as (El & F & HC). rewrite Ht in *.
    by eapply follow_commit_node.
  - apply step_ok_tau. destruct (box_snapshot _ _ D) as (El & _). rewrite Ht in *. split; cbn; try apply N.
    destruct (leader_log_split members h _ c Hh El) as (_ & _ & _ & HL & _). apply (log_ok_prefix _ _ _ HL), upto_prefix.
  - apply step_ok_tau. destruct (box_snapshot _ _ D) as (El & Hi & Hti & HC & _). rewrite Ht in *. by eapply install_node.
  - by apply ack_snapshot_step_ok.
  - apply step_ok_tau. pose proof (n_applied _ _ _ _ N). split; cbn; try apply N; lia.
  - apply step_ok_tau, restart_node_ok.
  - by apply step_ok_emit.
  - apply step_ok_emit; [done|]. intros net' Hn. destruct He as [He|[He _]].
    + destruct e as [| ? [] | [] | | |]; cbn in *; tauto.
    + apply sent_by_spec in He. destruct (s_net _ _ Sw _ _ He) as [_ M].
      apply (effect_ok_grow members q 0 h h (grows_refl q 0 h) net); done.
Qed.

(** A node that leads after an action led the same term before, or just won. *)
Lemma pstep_leader box ev out p' :
  pstep members q box (mkOutside (lead_log h) o) (sent_by q net) p ev out p' -> p_role p' = LEADER ->
  p_term p' = p_term p /\
  ((p_role p = LEADER /\ p_seq p <= p_seq p') \/ (p_role p = CANDIDATE /\ majority members (p_votes p))).
Proof.
  intros Sp Hr. destruct Sp; cbn in *; try (split; [done|]; left; split; [done|lia]); try done.
  - naive_solver.
  - split; [done|by right].
Qed.

(** Snapshots are sent by leaders, under fresh identifiers. *)
Lemma pstep_snapshot box ev out p' peer r :
  pstep members q box (mkOutside (lead_log h) o) (sent_by q net) p ev out p' -> Sent peer (MInstallSnapshot r) ∈ out ->
  (q, Sent peer (MInstallSnapshot r)) ∈ net \/
  (p_role p = LEADER /\ is_term r = p_term p /\ p_seq p < is_rpc_id r /\ p_seq p' = is_rpc_id r /\
   out = [Sent peer (MInstallSnapshot r)]).
Proof.
  intros Sp He. destruct Sp; try (by apply not_elem_of_nil in He); apply list_elem_of_singleton in He; try done.
  - simplify_eq. by right.
  - subst e. left. match goal with E : harmless _ \/ _ |- _ => destruct E as [E|[E _]] end; [done|]. by apply sent_by_spec.
Qed.

(** Terms only grow. *)
Lemma pstep_term box ev out p' :
  pstep members q box (mkOutside (lead_log h) o) (sent_by q net) p ev out p' -> p_term p <= p_term p'.
Proof. intros Sp. destruct Sp; cbn; lia. Qed.

(** A client is told that its command is done only once it is committed. *)
Lemma pstep_reply box ev out p' cb reply :
  pstep members q box (mkOutside (lead_log h) o) (sent_by q net) p ev out p' -> ProposeReply cb true reply ∈ out ->
  (q, ProposeReply cb true reply) ∈ net \/
  exists P e, acknowledged members h q p P e /\ command e = command_of cb /\ replies P [e] = [reply].
Proof.
  intros Sp He. destruct Sp; try (by apply not_elem_of_nil in He); apply list_elem_of_singleton in He; try done.
  - simplify_eq. right. exists (upto (p_log p) (i - 1)), e. split; [|done].
    pose proof (s_node _ _ Sw q Hq) as N. destruct (n_commit _ _ _ _ N) as [Hc HC].
    match goal with E : term e = _ |- _ => rename E into Et end. split; rewrite ?Et.
    + by apply N.
    + done.
    + eapply committed_prefix; [exact HC|]. unfold upto at 1. rewrite <- take_S_r by done.
      replace (S (Z.to_nat (i - 1))) with (Z.to_nat i) by lia. apply (upto_mono _ i). lia.
    + intros _ _. rewrite length_upto by lia. lia.
  - subst e. left. match goal with E : harmless _ \/ _ |- _ => destruct E as [E|[E _]] end; [done|]. by apply sent_by_spec.
Qed.

(** A leader does not forget what it committed. *)
Lemma pstep_commit box ev out p' :
  pstep members q box (mkOutside (lead_log h) o) (sent_by q net) p ev out p' -> p_role p' = LEADER ->
  p_commit p <= p_commit p'.
Proof. intros Sp Hr. destruct Sp; cbn in *; done || lia. Qed.

Lemma pstep_acknowledged box ev out p' P e :
  deliverable net q box -> pstep members q box (mkOutside (lead_log h) o) (sent_by q net) p ev out p' ->
  acknowledged members h q p P e -> acknowledged members (recorded q p ev h) q p' P e.
Proof.
  intros D Sp [Kl Kp Kc Kk]. destruct (k_grows _ _ _ (pstep_ok _ _ _ _ D Sp)) as [t Hg].
  pose proof (pstep_term _ _ _ _ Sp). split; [by apply Hg|lia|by eapply committed_grow|]. intros Hr Et.
  pose proof (pstep_commit _ _ _ _ Sp Hr). destruct (pstep_leader _ _ _ _ Sp Hr) as [E [[Hl _]|[Hc _]]].
  - specialize (Kk Hl ltac:(congruence)). lia.
  - destruct (n_candidate _ _ _ _ (s_node _ _ Sw q Hq) Hc) as [Hn _]. rewrite <- E, Et in Hn. done.
Qed.
End Step.

Lemma elem_of_out (q : Z) (out : list Effect) (src : Z) e : (src, e) ∈ ((q,.) <$> out) <-> src = q /\ e ∈ out.
Proof. rewrite list_elem_of_fmap. naive_solver. Qed.

Lemma in_more (net more : list (Z * Effect)) x : x ∈ net -> x ∈ net ++ more.
Proof. intros. apply elem_of_app. by left. Qed.

Lemma wstep_safe w w' : safe members w -> wstep members w w' -> safe members w'.
Proof.
  intros Sw [q box net ev out p' Hq D _ Sp]. pose proof (pstep_ok w Sw q Hq _ _ _ _ _ D Sp) as [[t Hg] Kh Kn Ko].
  pose proof (s_history _ _ Sw) as Hh.
  assert (forall peer r, (q, Sent peer (MInstallSnapshot r)) ∈ w_net w -> h_leader (w_history w) !! is_term r = Some q) as Hlead.
  { intros peer r Hin. by destruct (s_net _ _ Sw _ _ Hin) as [_ (_ & ? & _)]. }
  assert (forall peer r, (q, Sent peer (MInstallSnapshot r)) ∈ w_net w -> p_role p' = LEADER -> is_term r = p_term p' ->
    is_rpc_id r <= p_seq p') as Hseq.
  { intros peer r Hin Hr Ht. destruct (pstep_leader _ _ _ _ _ _ _ Sp Hr) as [Et [[Hl Hle]|[Hc HQ]]].
    - pose proof (s_sequence _ _ Sw _ _ _ Hin Hl ltac:(congruence)). lia.
    - apply Hlead in Hin. rewrite Ht, Et in Hin.
      by rewrite (no_leader_yet members _ q _ Hh (s_node _ _ Sw q Hq) Hc HQ) in Hin. }
  assert (forall peer r, Sent peer (MInstallSnapshot r) ∈ out -> (q, Sent peer (MInstallSnapshot r)) ∈ w_net w \/
    (p_role (w_node w q) = LEADER /\ is_term r = p_term (w_node w q) /\ p_seq (w_node w q) < is_rpc_id r /\
     p_seq p' = is_rpc_id r /\ out = [Sent peer (MInstallSnapshot r)])) as Hout.
  { intros peer r He. eapply pstep_snapshot; eauto. }
  split; cbn.
  - done.
  - intros v Hv. destruct (decide (v = q)) as [->|Hne]; [by rewrite fn_lookup_insert|].
    rewrite fn_lookup_insert_ne by done. by eapply node_ok_grow, Sw.
  - intros src e [Hin|[-> He]%elem_of_out]%elem_of_app.
    + destruct (s_net _ _ Sw _ _ Hin) as [? M]. split; [done|]. eapply effect_ok_grow; [done..| |done]. apply in_more.
    + split; [done|]. apply Ko; [done|apply in_more].
  - intros v peer r [Hin|[-> He]%elem_of_out]%elem_of_app.
    + destruct (decide (v = q)) as [->|Hne]; [rewrite fn_lookup_insert; by apply Hseq with (peer := peer)|].
      rewrite fn_lookup_insert_ne by done. by eapply s_sequence.
    + rewrite fn_lookup_insert. destruct (Hout _ _ He) as [Hin|(_ & _ & _ & E & _)]; [by apply Hseq with (peer := peer)|lia].
  - intros v peer1 r1 peer2 r2 H1 H2 Et Er.
    assert (forall peer r, (v, Sent peer (MInstallSnapshot r)) ∈ w_net w ++ ((q,.) <$> out) ->
      (v, Sent peer (MInstallSnapshot r)) ∈ w_net w \/
      (v = q /\ p_role (w_node w q) = LEADER /\ is_term r = p_term (w_node w q) /\ p_seq (w_node w q) < is_rpc_id r /\
       out = [Sent peer (MInstallSnapshot r)])) as Hcase.
    { intros peer r [Hin|[-> He]%elem_of_out]%elem_of_app; [by left|]. destruct (Hout _ _ He) as [|(? & ? & ? & ? & ?)]; [by left|by right]. }
    destruct (Hcase _ _ H1) as [I1|(-> & Hr1 & T1 & S1 & E1)], (Hcase _ _ H2) as [I2|(? & Hr2 & T2 & S2 & E2)].
    + by eapply s_unique.
    + subst v. pose proof (s_sequence _ _ Sw _ _ _ I1 Hr2 ltac:(congruence)). lia.
    + pose proof (s_sequence _ _ Sw _ _ _ I2 Hr1 ltac:(congruence)). lia.
    + congruence.
  - intros v cb reply Hx.
    assert ((exists P e, acknowledged members (w_history w) v (w_node w v) P e /\ command e = command_of cb /\ replies P [e] = [reply]))
      as (P & e & HK & Ec).
    { apply elem_of_app in Hx as [Hin|[-> He]%elem_of_out]; [by eapply s_replies|].
      destruct (pstep_reply w Sw q Hq _ _ _ _ _ _ _ Sp He) as [Hin|]; [by eapply s_replies|done]. }
    exists P, e. split; [|done]. destruct (decide (v = q)) as [->|Hne].
    + rewrite fn_lookup_insert. by eapply pstep_acknowledged.
    + rewrite fn_lookup_insert_ne by done. by eapply acknowledged_grow.
Qed.

Lemma log_ok_nil h : log_ok h [].
Proof. split; cbn; intros *; [lia|done|]. intros ? ?. replace i with 0 by lia. replace j with 0 by lia. done. Qed.

Lemma initial_safe : safe members w_initial.
Proof.
  split; cbn.
  - split; cbn; intros *; rewrite ?lookup_empty; done || set_solver.
  - intros q Hq. split; cbn; try done; try set_solver.
    + apply log_ok_nil.
    + intros i Hi. lia.
    + split; [done|by left].
    + apply log_ok_nil.
  - intros src e He. by apply not_elem_of_nil in He.
  - intros q peer r He. by apply not_elem_of_nil in He.
  - intros q p1 r1 p2 r2 He. by apply not_elem_of_nil in He.
  - intros q cb reply He. by apply not_elem_of_nil in He.
Qed.

Lemma wsteps_safe w w' : safe members w -> rtc (wstep members) w w' -> safe members w'.
Proof. intros Sw R. induction R; eauto using wstep_safe. Qed.

(** * Safety *)

(** At most one leader per term. *)
Lemma election_safety w a b :
  safe members w -> a ∈ members -> b ∈ members ->
  p_role (w_node w a) = LEADER -> p_role (w_node w b) = LEADER ->
  p_term (w_node w a) = p_term (w_node w b) -> a = b.
Proof.
  intros Sw Ha Hb La Lb E. destruct (n_leader _ _ _ _ (s_node _ _ Sw a Ha) La) as (Ea & _).
  destruct (n_leader _ _ _ _ (s_node _ _ Sw b Hb) Lb) as (Eb & _). congruence.
Qed.

(** The same term at the same index means the same log up to there. *)
Lemma log_matching w a b i :
  safe members w -> a ∈ members -> b ∈ members ->
  0 <= i <= #(p_log (w_node w a)) -> i <= #(p_log (w_node w b)) ->
  term_at (p_log (w_node w a)) i = term_at (p_log (w_node w b)) i ->
  upto (p_log (w_node w a)) i = upto (p_log (w_node w b)) i.
Proof.
  intros Sw Ha Hb Hi Hj E. apply (matching (w_history w)); try done; apply Sw; done.
Qed.

(** What a node committed, every leader of the same or a later term has. *)
Lemma leaders_are_complete w a b :
  safe members w -> a ∈ members -> b ∈ members -> p_role (w_node w b) = LEADER ->
  p_term (w_node w a) <= p_term (w_node w b) ->
  upto (p_log (w_node w a)) (p_commit (w_node w a)) `prefix_of` p_log (w_node w b).
Proof.
  intros Sw Ha Hb Lb Ht. destruct (n_leader _ _ _ _ (s_node _ _ Sw b Hb) Lb) as (Eb & <- & _).
  destruct (n_commit _ _ _ _ (s_node _ _ Sw a Ha)) as [_ HC].
  apply (committed_in_leader members _ _ _ b); [apply Sw| |done]. by eapply committed_later.
Qed.

(** Once committed, committed for ever. *)
Lemma committed_wsteps w w' T P :
  safe members w -> rtc (wstep members) w w' -> committed members (w_history w) T P ->
  committed members (w_history w') T P.
Proof.
  intros Sw R. induction R as [|w w1 w2 St R IH]; [done|]. intros HC. apply IH; [by eapply wstep_safe|].
  destruct St as [q box net ev out p' Hq D _ Sp]. destruct (k_grows _ _ _ _ _ (pstep_ok w Sw q Hq _ _ _ _ _ D Sp)) as [t Hg].
  by eapply committed_grow.
Qed.

(** The log of the leader of a term only grows, and so does every node's term. *)
Lemma wsteps_grow w w' :
  safe members w -> rtc (wstep members) w w' ->
  (forall T, lead_log (w_history w) T `prefix_of` lead_log (w_history w') T) /\
  (forall v, p_term (w_node w v) <= p_term (w_node w' v)).
Proof.
  intros Sw R. induction R as [|w w1 w2 St R IH]; [done|]. destruct IH as [IHl IHt]; [by eapply wstep_safe|].
  destruct St as [q box net ev out p' Hq D _ Sp]. destruct (k_grows _ _ _ _ _ (pstep_ok w Sw q Hq _ _ _ _ _ D Sp)) as [t Hg].
  pose proof (pstep_term w q _ _ _ _ _ Sp) as Ht. split.
  - intros T. etrans; [|apply IHl]. by eapply lead_prefix.
  - intros v. etrans; [|apply IHt]. cbn. destruct (decide (v = q)) as [->|Hne]; [by rewrite fn_lookup_insert|by rewrite fn_lookup_insert_ne].
Qed.

(** Two nodes never commit different entries at the same index, at whatever
    times. *)
Lemma state_machine_safety w w' a b i :
  safe members w -> rtc (wstep members) w w' -> a ∈ members -> b ∈ members ->
  i <= p_commit (w_node w a) -> i <= p_commit (w_node w' b) ->
  upto (p_log (w_node w a)) i = upto (p_log (w_node w' b)) i.
Proof.
  intros Sw R Ha Hb Hia Hib. pose proof (wsteps_safe _ _ Sw R) as Sw'.
  destruct (n_commit _ _ _ _ (s_node _ _ Sw a Ha)) as [La Ca].
  destruct (n_commit _ _ _ _ (s_node _ _ Sw' b Hb)) as [Lb Cb].
  apply (committed_wsteps _ _ _ _ Sw R) in Ca.
  pose proof (committed_comparable members _ _ _ _ _ (s_history _ _ Sw') Ca Cb) as HP.
  rewrite <- (upto_upto (p_log (w_node w a)) i (p_commit (w_node w a))) by lia.
  rewrite <- (upto_upto (p_log (w_node w' b)) i (p_commit (w_node w' b))) by lia.
  destruct HP as [HP|HP]; rewrite (prefix_upto _ _ i HP); try done; rewrite length_upto; lia.
Qed.
End Theorems.
