(* ===== verification/ProtocolReads.v ===== *)
(** Reads of the protocol are linearizable: a leader answers a read with an index
    that covers every write acknowledged before the read was asked for.

    The leader answers once a majority has answered requests in its term, with
    answers that had not been sent when the read was asked for.  Had a later leader
    acknowledged a write by then, one of that majority would already have been in the
    later term. *)
From stdpp Require Import base numbers strings gmap functions list.
From S2P Require Import Prelude Effects Messages KVReplay RaftState RaftProtocol ProtocolSafety ProtocolInvariant ProtocolSteps ProtocolTheorems.

Section Reads.
Context {asks : Requests} (members : gset Z) (no_member : -1 ∉ members).
Abbreviation wsteps := (rtc (wstep members)).

(** The write of callback [cb] is committed within the first [i] entries. *)
Definition covers (h : history) (cb : nat) (i : Z) : Prop :=
  exists P e reply, committed members h (term e) (P ++ [e]) /\ command e = command_of cb /\ replies P [e] = [reply] /\ #P + 1 <= i.

(** * One moment *)

(** The last entry of a committed prefix, in the log of a later leader. *)
Lemma commits_before h T P e U c L i :
  history_ok members h -> commits members h T (P ++ [e]) -> T < U -> h_leader h !! U = Some c -> lead_log h U = L ->
  0 <= i <= #L -> term_at L i = U -> #P + 1 <= i.
Proof.
  intros Hh HC HTU El <- Hi Ht. pose proof HC as (_ & l & Q & HQ & Ha & Hl & Htl & HP).
  destruct (leader_log_split members h U c Hh El) as (_ & _ & _ & HL & _).
  assert (commits members h T (upto (lead_log h T) l)) as HCl by (split; [apply HC|]; exists l, Q; done).
  pose proof (committed_agree members h T _ U c Hh HCl ltac:(lia) El) as HPl.
  apply prefix_length_Z in HP. rewrite length_app, length_upto in HP by lia. cbn in HP.
  destruct (Z.le_gt_cases i l) as [Hle|]; [exfalso|lia].
  pose proof (prefix_length_Z _ _ HPl) as Hll. rewrite length_upto in Hll by lia.
  pose proof (term_at_prefix _ _ l HPl ltac:(rewrite length_upto; lia)) as Hx. rewrite term_at_upto in Hx by lia.
  assert (term_at (lead_log h U) i <= term_at (lead_log h U) l); [|lia].
  destruct (decide (i = 0)) as [->|]; [|apply (l_sorted _ _ HL); lia]. rewrite term_at_0, Hx, Htl.
  pose proof (term_at_pos h (lead_log h U) l HL ltac:(lia)). lia.
Qed.

(** The entries of a leader's log have terms up to its own. *)
Lemma commits_last h T P e :
  history_ok members h -> commits members h T (P ++ [e]) -> term e <= T.
Proof.
  intros Hh ([c El] & l & Q & _ & _ & Hl & _ & HP).
  destruct (leader_log_split members h T c Hh El) as (tl & E & Htl & HL & Hlow).
  assert (e ∈ lead_log h T) as He.
  { apply (list_elem_of_lookup_2 _ (length P)). eapply prefix_lookup_Some; [|etrans; [exact HP|apply upto_prefix]].
    rewrite lookup_app_r, Nat.sub_diag by lia. done. }
  rewrite E in He. apply elem_of_app in He as [[j Hj]%list_elem_of_lookup_1|He]; [|by rewrite (Htl e He)].
  pose proof (lookup_lt_Some _ _ _ Hj). specialize (Hlow (Z.of_nat j + 1) ltac:(lia)).
  rewrite (term_at_Some _ _ e) in Hlow; [lia| |lia]. by replace (Z.to_nat (Z.of_nat j + 1 - 1)) with j by lia.
Qed.

Lemma acknowledged_covered w q v Q P e :
  safe members w -> q ∈ members -> v ∈ members -> p_role (w_node w q) = LEADER ->
  term_at (p_log (w_node w q)) (p_commit (w_node w q)) = p_term (w_node w q) ->
  majority members Q -> (forall k, k ∈ Q -> p_term (w_node w k) <= p_term (w_node w q)) ->
  acknowledged members (w_history w) v (w_node w v) P e -> #P + 1 <= p_commit (w_node w q).
Proof.
  intros Sw Hq Hv Hr Ht HQ Hlow [Kl Kp Kc Kk]. pose proof (s_history _ _ Sw) as Hh. pose proof (s_node _ _ Sw q Hq) as N.
  destruct (n_leader _ _ _ _ N Hr) as (El & EL & _). destruct (n_commit _ _ _ _ N) as [Hc _].
  destruct Kc as [E|(T & HT & HC)]; [by destruct P|]. pose proof (commits_last _ _ _ _ Hh HC) as Hle.
  assert (T = term e) as -> by lia. destruct (Z.lt_trichotomy (term e) (p_term (w_node w q))) as [Hlt|[E|Hgt]].
  - by eapply (commits_before _ (term e)).
  - rewrite E in Kl. assert (v = q) as -> by congruence. apply Kk; [done|congruence].
  - destruct HC as (_ & l & Q' & HQ' & Ha & _). destruct (majority_meet _ _ _ HQ HQ') as (k & Hk & Hk').
    destruct (Ha k Hk') as (l' & _ & A). pose proof (n_acks _ _ _ _ (s_node _ _ Sw k (proj1 HQ k Hk)) _ _ A).
    specialize (Hlow k Hk). lia.
Qed.

(** * Over time *)

Lemma wstep_net w w' x : wstep members w w' -> x ∈ w_net w -> x ∈ w_net w'.
Proof. intros [] Hx. cbn. apply elem_of_app. by left. Qed.

Lemma answers_of_out v q out : answers_of v ((q,.) <$> out) = if decide (v = q) then answers out else [].
Proof.
  unfold answers_of, sent_by. induction out as [|e out IH]; [by destruct (decide (v = q))|]. rewrite fmap_cons.
  destruct (decide (v = q)) as [->|Hne].
  - rewrite filter_cons_True, fmap_cons by done. unfold answers in *. cbn [snd].
    destruct (is_answer e) eqn:E; [rewrite !filter_cons_True by done; by f_equal|by rewrite !filter_cons_False by (by rewrite E)].
  - by rewrite filter_cons_False by (cbn; congruence).
Qed.

(** A node answers requests, in its term. *)
Lemma pstep_answer q box lead sent p ev out p' e :
  pstep members q box lead sent p ev out p' -> e ∈ answers out ->
  exists c m r, box = Some (c, MAppendEntries m) /\ e = Sent c (MAppendEntriesResponse r) /\
    aer_rpc_id r = ae_rpc_id m /\ aer_term r = p_term p.
Proof.
  intros Sp [He Ha]%elem_of_answers. destruct Sp; try (by apply not_elem_of_nil in He);
    apply list_elem_of_singleton in He; subst e; try done.
  - eexists _, _, _. done.
  - eexists _, _, _. done.
  - match goal with E : harmless _ \/ _ |- _ => destruct E as [E|[_ E]]; [|congruence] end.
    match goal with x : Effect |- _ => destruct x as [?|? []| | | |]; done end.
Qed.

(** An answer sent after [w0] is from a node that was not past its term then. *)
Lemma answers_later w0 w v n c r :
  safe members w0 -> wsteps w0 w -> answers_of v (w_net w) !! n = Some (Sent c (MAppendEntriesResponse r)) ->
  (length (answers_of v (w_net w0)) <= n)%nat -> p_term (w_node w0 v) <= aer_term r.
Proof.
  intros S0 R. revert w R. refine (rtc_ind_r _ _ _ _).
  { intros Hn%lookup_lt_Some Hle. lia. }
  intros w w1 R St IH. destruct (wsteps_grow members no_member _ _ S0 R) as [_ Ht].
  destruct St as [q box o ev out p' Hq D _ Sp]. cbn [w_net]. rewrite answers_of_app, answers_of_out.
  intros [Hin|[_ Hin]]%lookup_app_Some Hle; [by apply IH|]. destruct (decide (v = q)) as [->|]; [|done].
  apply list_elem_of_lookup_2 in Hin. destruct (pstep_answer _ _ _ _ _ _ _ _ _ Sp Hin) as (c' & m & r' & _ & [= -> ->] & _ & ->). apply Ht.
Qed.

(** [a] was asked of [q] at some moment [w0] of its leadership. *)
Record asked_at (w0 : world) (q : Z) (a : inquiry) : Prop := {
  at_safe : safe members w0;
  at_leads : p_role (w_node w0 q) = LEADER;
  at_index : p_commit (w_node w0 q) = ask_index a;
  at_term : term_at (p_log (w_node w0 q)) (ask_index a) = p_term (w_node w0 q);
  at_told : all_told (told_before (ask_callback a)) (w_net w0);
  at_net v : v <> q -> answers_of v (ask_net a) = answers_of v (w_net w0);
}.

Record reads_ok (w : world) : Prop := {
  o_direct v m : (v, Broadcasted m) ∈ w_net w -> exists r, m = MRequestVote r;
  o_answers q v n : p_role (w_node w q) = LEADER -> (v, n) ∈ p_answers (w_node w q) -> v <> q ->
    exists r, answers_of v (w_net w) !! n = Some (Sent q (MAppendEntriesResponse r)) /\ aer_term r = p_term (w_node w q);
  o_asks q a : q ∈ members -> p_role (w_node w q) = LEADER -> a ∈ p_asks (w_node w q) ->
    exists w0, asked_at w0 q a /\ wsteps w0 w /\ p_term (w_node w0 q) = p_term (w_node w q);
  o_reads q cb i error : (q, ReadReply cb true i error) ∈ w_net w -> lenient = false ->
    i <= p_applied (w_node w q) /\ forall cb', cb' ∈ told_before cb -> covers (w_history w) cb' i;
}.

(** A confirmed read covers what was acknowledged before it was asked for. *)
Lemma confirmed_covers w q a cb :
  safe members w -> reads_ok w -> q ∈ members -> p_role (w_node w q) = LEADER -> a ∈ p_asks (w_node w q) ->
  confirmed members q (p_answers (w_node w q)) a -> cb ∈ told_before (ask_callback a) -> covers (w_history w) cb (ask_index a).
Proof.
  intros Sw Ow Hq Hr Ha (Q & HQ & Hans) Hcb. destruct (o_asks _ Ow q a Hq Hr Ha) as (w0 & [S0 Hl Ei Et Ht Hn] & R & ET).
  destruct (Ht cb Hcb) as (v & reply & Hin). destruct (s_replies _ _ S0 _ _ _ Hin) as (P & e & HK & Ec & Er).
  exists P, e, reply. split; [by eapply committed_wsteps; [|exact S0|exact R|apply HK]|]. split; [done|]. split; [done|].
  rewrite <- Ei in Et |- *. apply (acknowledged_covered w0 q v Q P e); try done; [by apply (s_net _ _ S0 _ _ Hin)|].
  intros k Hk. destruct (Hans k Hk) as [->|(n & Hr' & Hnew)]; [done|]. destruct (decide (k = q)) as [->|Hne]; [done|].
  destruct (o_answers _ Ow q k n Hr Hr' Hne) as (r & Hnet & ET'). rewrite (Hn k Hne) in Hnew.
  pose proof (answers_later w0 w k n q r S0 R Hnet Hnew). lia.
Qed.

Lemma covers_grow q t h h' cb i : grows q t h h' -> history_ok members h -> covers h cb i -> covers h' cb i.
Proof. intros Hg Hh (P & e & reply & HC & Ec). exists P, e, reply. split; [by eapply committed_grow|done]. Qed.

(** What a leader's action adds to its reads. *)
Lemma pstep_answers q box lead sent p ev out p' v n :
  pstep members q box lead sent p ev out p' -> p_role p' = LEADER -> (v, n) ∈ p_answers p' ->
  p_role p = LEADER /\ ((v, n) ∈ p_answers p \/
    exists r, answers_of v (seen lead) !! n = Some (Sent q (MAppendEntriesResponse r)) /\ aer_term r = p_term p).
Proof.
  intros Sp Hr Hin. destruct Sp; cbn in *; try (split; [done|by left]); try done.
  - by destruct H as [->| ->].
  - by apply not_elem_of_nil in Hin.
  - split; [done|]. apply elem_of_cons in Hin as [[= -> ->]|Hin]; [right; by eexists|by left].
Qed.

Lemma pstep_asks q box lead sent p ev out p' a :
  pstep members q box lead sent p ev out p' -> p_role p' = LEADER -> a ∈ p_asks p' ->
  p_role p = LEADER /\ (a ∈ p_asks p \/
    (a = mkInquiry (ask_callback a) (p_commit p) (seen lead) /\ term_at (p_log p) (p_commit p) = p_term p /\
     all_told (told_before (ask_callback a)) (seen lead))).
Proof.
  intros Sp Hr Hin. destruct Sp; cbn in *; try (split; [done|by left]); try done.
  - by destruct H as [->| ->].
  - by apply not_elem_of_nil in Hin.
  - split; [done|]. apply elem_of_cons in Hin as [->|Hin]; [by right|by left].
Qed.

Lemma pstep_read q box lead sent p ev out p' cb i error :
  pstep members q box lead sent p ev out p' -> ReadReply cb true i error ∈ out -> lenient = false ->
  ReadReply cb true i error ∈ sent \/
  (p_role p = LEADER /\ exists a, a ∈ p_asks p /\ confirmed members q (p_answers p) a /\ i <= p_applied p /\
     cb = ask_callback a /\ i = ask_index a).
Proof.
  intros Sp He Hl. destruct Sp; try (by apply not_elem_of_nil in He); apply list_elem_of_singleton in He; try done.
  - simplify_eq. right. split; [done|]. by exists a.
  - congruence.
  - subst e. left. match goal with E : harmless _ \/ _ |- _ => by destruct E as [|[? _]] end.
Qed.

Lemma pstep_applied q box lead sent p ev out p' :
  pstep members q box lead sent p ev out p' -> p_applied p <= p_applied p'.
Proof. intros Sp. destruct Sp; cbn; lia. Qed.

(** Only requests for votes go to all. *)
Lemma pstep_direct q box lead sent p ev out p' m :
  pstep members q box lead sent p ev out p' -> Broadcasted m ∈ out -> Broadcasted m ∈ sent \/ exists r, m = MRequestVote r.
Proof.
  intros Sp He. destruct Sp; try (by apply not_elem_of_nil in He); apply list_elem_of_singleton in He; try done.
  - injection He as ->. right. by eexists.
  - subst e. match goal with E : harmless _ \/ _ |- _ => destruct E as [E|[? _]]; [|by left] end. right. destruct m; try done. by eexists.
Qed.

Lemma wstep_reads w w' : safe members w -> reads_ok w -> wstep members w w' -> reads_ok w'.
Proof.
  intros Sw Ow St. pose proof St as St'. destruct St as [q box o ev out p' Hq D Hs Sp].
  pose proof (pstep_ok members no_member w Sw q Hq _ _ _ _ _ D Sp) as [[t Hg] _ _ _].
  set (w1 := mkWorld _ _ _) in *. assert (forall x, x ∈ w_net w -> x ∈ w_net w1) as Hnet by (intros x; by apply wstep_net).
  split.
  - intros v m [Hin|[-> He]%elem_of_out]%elem_of_app; [by apply (o_direct _ Ow v m)|].
    destruct (pstep_direct _ _ _ _ _ _ _ _ _ Sp He) as [Hin|?]; [|done]. by apply (o_direct _ Ow q m), sent_by_spec.
  - assert (forall v n e, answers_of v (w_net w) !! n = Some e -> answers_of v (w_net w1) !! n = Some e) as Hmore.
    { intros v n e Hn. cbn [w1 w_net]. rewrite answers_of_app. by apply lookup_app_l_Some. }
    intros u v n. cbn [w1 w_node]. destruct (decide (u = q)) as [->|Hne]; [rewrite fn_lookup_insert|rewrite fn_lookup_insert_ne by done].
    + intros Hr Hin Hv. destruct (pstep_leader members w q _ _ _ _ _ Sp Hr) as [-> _].
      destruct (pstep_answers _ _ _ _ _ _ _ _ _ _ Sp Hr Hin) as [Hr0 [Hold|(r & Hn & E)]].
      * destruct (o_answers _ Ow q v n Hr0 Hold Hv) as (r & ? & ?). exists r. split; [by apply Hmore|done].
      * exists r. split; [|done]. apply Hmore. by rewrite <- (proj2 Hs v Hv).
    + intros Hr Hin Hv. destruct (o_answers _ Ow u v n Hr Hin Hv) as (r & ? & ?). exists r. split; [by apply Hmore|done].
  - intros u a Hu. cbn [w1 w_node]. destruct (decide (u = q)) as [->|Hne]; [rewrite fn_lookup_insert|rewrite fn_lookup_insert_ne by done].
    + intros Hr Hin. destruct (pstep_leader members w q _ _ _ _ _ Sp Hr) as [-> _].
      destruct (pstep_asks _ _ _ _ _ _ _ _ _ Sp Hr Hin) as [Hr0 [Hold|(E & Et & Ht)]].
      * destruct (o_asks _ Ow q a Hu Hr0 Hold) as (w0 & A & R & E). exists w0. split; [done|]. split; [by eapply rtc_r|done].
      * exists w. split; [|split; [by apply rtc_once|done]]. rewrite E. split; cbn; try done.
        -- intros cb Hcb. destruct (Ht cb Hcb) as (x & reply & Hx). exists x, reply. by apply Hs.
        -- apply Hs.
    + intros Hr Hin. destruct (o_asks _ Ow u a Hu Hr Hin) as (w0 & A & R & E). exists w0. split; [done|]. split; [by eapply rtc_r|done].
  - intros u cb i error Hx Hl.
    assert (i <= p_applied (w_node w u) /\ forall cb', cb' ∈ told_before cb -> covers (w_history w) cb' i) as [Ha Hc].
    { apply elem_of_app in Hx as [Hin|[-> He]%elem_of_out]; [by apply (o_reads _ Ow u cb i error)|].
      destruct (pstep_read _ _ _ _ _ _ _ _ _ _ _ Sp He Hl) as [Hin|(Hr & a & Ha & HC & Hi & -> & ->)].
      - by apply (o_reads _ Ow q cb i error); [apply sent_by_spec|].
      - split; [done|]. intros cb'. by apply (confirmed_covers w q). }
    split.
    + cbn. destruct (decide (u = q)) as [->|Hne]; [rewrite fn_lookup_insert|by rewrite fn_lookup_insert_ne].
      pose proof (pstep_applied _ _ _ _ _ _ _ _ Sp). lia.
    + intros cb' Hcb'. eapply covers_grow; [exact Hg|apply Sw|by apply Hc].
Qed.

Lemma initial_reads : reads_ok w_initial.
Proof.
  split; cbn; try done.
  - intros v r Hin. by apply not_elem_of_nil in Hin.
  - intros q cb i error Hin. by apply not_elem_of_nil in Hin.
Qed.

Lemma wsteps_reads w w' : safe members w -> reads_ok w -> wsteps w w' -> reads_ok w'.
Proof. intros Sw Ow R. induction R; eauto using wstep_reads, wstep_safe. Qed.
End Reads.
