(* ===== verification/NodeView.v ===== *)
(** How a [RaftNode] object represents a protocol node.

    [view s c]: the object [s] represents the protocol state [c] (a protocol node
    and what it has sent).  [crashed s c]: after an exception left [s], its two
    databases still represent [c].  A run of the code is matched with a sequence
    of protocol actions, [local]; [calm] is the common case of code that does not
    touch the protocol state at all. *)
From stdpp Require Import base numbers strings gmap list.
From S2P Require Import Prelude Effects Storage Messages RaftLog LogSpec LogProofs LogRecovery.
From S2P Require Import KVStore KVStateMachine KVTheorems KVReplay Metrics Peers RaftState RaftNode RaftProtocol ProtocolSafety.

(** * Logs *)

(** The stored log [a] is the list [L] with its first entries compacted. *)
Record log_view (a : alog) (L : list LogEntry) : Prop := {
  lv_length : a_last_index a = #L;
  lv_entries : a_entries a = drop (Z.to_nat (a_snap_index a)) L;
  lv_snapshot : 0 < a_snap_index a -> term_at L (a_snap_index a) = a_snap_term a;
  lv_data : 0 < a_snap_index a -> snapshot_of (upto L (a_snap_index a)) (a_snap_data a);
}.

(** The stored hard state; a log that never saved one is in term 0. *)
Definition hard_view (a : alog) (t v : Z) : Prop :=
  a_hard a = Some (t, v) \/ (a_hard a = None /\ t = 0 /\ v = -1).

(** A staged snapshot counts as installed: recovery will finish it. *)
Definition settled (a : alog) : alog :=
  match a_intent a with Some (i, t, d) => a_install i t d a | None => a end.

Lemma log_view_entry a L i : log_view a L -> a_snap_index a < i -> 0 <= a_snap_index a ->
  a_entry a i = L !! Z.to_nat (i - 1).
Proof.
  intros V Hi H0. unfold a_entry. destruct (Z.leb_spec i (a_snap_index a)); [lia|].
  rewrite (lv_entries _ _ V), lookup_drop. f_equal. lia.
Qed.

(** The terms the code can still see. *)
Lemma log_view_term a L i :
  log_view a L -> 0 <= a_snap_index a -> i = 0 \/ a_snap_index a <= i -> a_term a i = term_at L i.
Proof.
  intros V H0 Hi. unfold a_term, term_at. destruct (Z.eqb_spec i 0); [done|].
  destruct Hi as [|Hi]; [done|]. destruct (Z.ltb_spec i 0); [lia|].
  destruct (Z.eqb_spec i (a_snap_index a)) as [->|].
  - rewrite <- (lv_snapshot _ _ V) by lia. unfold term_at.
    destruct (Z.eqb_spec (a_snap_index a) 0), (Z.ltb_spec (a_snap_index a) 0); done || lia.
  - rewrite (log_view_entry a L i) by (done || lia). done.
Qed.

Lemma log_view_hidden a i : 0 < i < a_snap_index a -> a_term a i = -1.
Proof.
  intros Hi. unfold a_term, a_entry. destruct (Z.eqb_spec i 0), (Z.eqb_spec i (a_snap_index a)), (Z.leb_spec i (a_snap_index a));
    done || lia.
Qed.

(** A visible non-negative term is the log's. *)
Lemma log_view_known a L i t :
  log_view a L -> 0 <= a_snap_index a -> 0 <= i -> a_term a i = t -> 0 <= t -> term_at L i = t /\ 0 <= i <= #L.
Proof.
  intros V H0 Hi E Ht. destruct (decide (i = 0 \/ a_snap_index a <= i)) as [Hv|Hv].
  - rewrite (log_view_term a L i) in E by done. split; [done|]. apply term_at_inside. lia.
  - rewrite log_view_hidden in E by lia. lia.
Qed.

Lemma log_view_last_term a L : alog_wf a -> log_view a L -> a_last_term a = term_at L #L.
Proof.
  intros W V. pose proof (wf_snap_index _ W). rewrite <- (lv_length _ _ V).
  destruct (decide (a_last_index a = 0)) as [E|E].
  - rewrite E. cbn. unfold a_last_index in E. assert (a_entries a = []) as En by (apply nil_length_inv; lia).
    unfold a_last_term. rewrite En. cbn. apply (wf_no_snap _ W). lia.
  - destruct (a_last_term_at a W E) as [<- _]. apply log_view_term; [done|lia|]. right. apply a_last_index_ge.
Qed.

(** * Operations on views *)

Lemma log_view_append a L es : log_view a L -> log_view (a_append es a) (L ++ es).
Proof.
  intros V. pose proof (lv_length _ _ V) as Hl. unfold a_last_index in Hl. rewrite (lv_entries _ _ V), length_drop in Hl. split.
  - rewrite a_last_index_append, (lv_length _ _ V), length_app. lia.
  - cbn. rewrite (lv_entries _ _ V), drop_app_le by lia. done.
  - cbn. intros Hs. rewrite <- (lv_snapshot _ _ V Hs). apply term_at_prefix; [by apply prefix_app_r|]. lia.
  - cbn. intros Hs. rewrite upto_app by lia. by apply V.
Qed.

Lemma log_view_truncate a L start :
  log_view a L -> 0 <= a_snap_index a -> a_snap_index a < start <= a_last_index a ->
  log_view (a_truncate start a) (upto L (start - 1)).
Proof.
  intros V H0 Hs. pose proof (lv_length _ _ V) as Hl. split.
  - rewrite a_last_index_truncate by done. rewrite length_upto; lia.
  - cbn. rewrite (lv_entries _ _ V). unfold upto. rewrite take_drop_commute. f_equal. f_equal. lia.
  - cbn. intros Hp. rewrite <- (lv_snapshot _ _ V Hp). apply term_at_upto; lia.
  - cbn. intros Hp. rewrite upto_upto by lia. by apply V.
Qed.

Lemma log_view_keep a L i t d :
  log_view a L -> 0 <= a_snap_index a -> a_snap_index a < i <= #L -> term_at L i = t -> snapshot_of (upto L i) d ->
  log_view (a_snapshot true i t d a) L.
Proof.
  intros V H0 Hi Ht Hd. pose proof (lv_length _ _ V) as Hl. split.
  - rewrite a_last_index_snapshot; [done|lia|]. intros _. split; [lia|]. by rewrite (log_view_term a L) by (done || lia).
  - cbn. rewrite (lv_entries _ _ V), drop_drop. f_equal. lia.
  - done.
  - done.
Qed.

Lemma log_view_replace a i t d L :
  #L = i -> 0 < i -> term_at L i = t -> snapshot_of L d -> log_view (a_snapshot false i t d a) L.
Proof.
  intros Hl Hi Ht Hd. split; cbn; try done.
  - unfold a_last_index. cbn. lia.
  - by rewrite drop_ge by lia.
  - by rewrite upto_all by lia.
Qed.

(** * Nodes *)

Definition conf : Type := pnode * list Effect.

Section NodeView.
Context `{RocksDBSpec} `{LogEntryCodecSpec} `{!Env} {asks : Requests}.
Context (members : gset Z) (me : Z) (box : option (Z * Message)) (lead : outside).

(** One action of this node, while it handles [box]. *)
Definition lstep (c c' : conf) : Prop :=
  exists ev out p', pstep members me box lead c.2 c.1 ev out p' /\ c' = (p', c.2 ++ out).
Definition local : conf -> conf -> Prop := rtc lstep.

Definition log_repr (s : RaftNode) (p : pnode) (a : alog) : Prop :=
  Repr (_log s) a /\ a_intent a = None /\ log_view a (p_log p) /\ hard_view a (p_term p) (p_voted p) /\
  a_snap_index a <= _last_applied s.

(** A request in flight was sent; a snapshot being sent is a committed prefix of
    the log, and its chunks carry its index. *)
Definition flight_ok (c : conf) (peer : Z) (f : Inflight) : Prop :=
  (fl_snapshot f = true ->
     0 < fl_snapshot_index f <= p_commit c.1 /\ 0 < fl_snapshot_term f /\
     term_at (p_log c.1) (fl_snapshot_index f) = fl_snapshot_term f /\
     snapshot_of (upto (p_log c.1) (fl_snapshot_index f)) (fl_snapshot_data f) /\
     0 <= fl_snapshot_offset f) /\
  (fl_id f <> 0 -> exists m, fl_payload f = Some m /\ (Sent peer m ∈ c.2 /\ is_answer (Sent peer m) = false) /\
     (fl_snapshot f = true -> exists r, m = MInstallSnapshot r /\ is_rpc_id r = fl_id f /\
        is_term r = p_term c.1 /\ is_last_included_index r = fl_snapshot_index f)) /\
  0 <= fl_snapshot_chunk f.

(** The state machine object agrees with its database, unless a batch failed on
    the worker thread: then nothing uses it until the completion fails the node. *)
Definition sm_settled (s : RaftNode) : Prop :=
  forall w e, _apply_work s = Some w -> aw_results w <> Some (Err e).

(** The batch with the executor: the entries after the last applied one. *)
Definition work_ok (s : RaftNode) (c : conf) (w : ApplyWork) : Prop :=
  _apply_inflight s = true /\ aw_first w = _last_applied s + 1 /\
  exists es, es <> [] /\ aw_commands w = command <$> es /\ _last_applied s + #es <= _commit_index s /\
    upto (p_log c.1) (_last_applied s + #es) = upto (p_log c.1) (_last_applied s) ++ es /\
    match aw_results w with
    | None => p_applied c.1 = _last_applied s
    | Some (Ok rs) => p_applied c.1 = _last_applied s + #es /\ rs = replies (upto (p_log c.1) (_last_applied s)) es
    | Some (Err _) => True
    end.

(** The chunks received so far begin the snapshot of a prefix of a leader's log. *)
Definition receive_ok (p : pnode) (sr : SnapshotReceive) : Prop :=
  0 < sr_index sr -> #(p_recv p) = sr_index sr /\ term_at (p_recv p) (sr_index sr) = sr_term sr /\
    exists d, snapshot_of (p_recv p) d /\ sr_data sr `prefix_of` d.

(** ** Messages *)

(** The requests and answers of log replication. *)
Definition tracked (e : Effect) : bool :=
  match e with Sent _ (MAppendEntries _) | Sent _ (MAppendEntriesResponse _) => true | _ => false end.

(** What the object sent in this call, with what the network has of it from before,
    the protocol node sent, and the answers are the same. *)
Record spoken (net : list (Z * Effect)) (trace sent : list Effect) : Prop := {
  sp_trace e : e ∈ trace -> e ∈ sent;
  sp_seen e : (me, e) ∈ net -> e ∈ sent;
  sp_answers : answers sent = answers_of me net ++ answers trace;
}.

(** A request to [peer] that this process has sent or may send again. *)
Definition numbered_request (o : outlook) (trace : list Effect) (flights : gmap Z Inflight) (peer : Z) (r : AppendEntries) : Prop :=
  (me, Sent peer (MAppendEntries r)) ∈ drop (since o) (known o) \/ Sent peer (MAppendEntries r) ∈ trace \/
  exists f, flights !! peer = Some f /\ fl_payload f = Some (MAppendEntries r).

(** The sequence has passed the identifiers of all requests of this process. *)
Definition numbered (o : outlook) (trace : list Effect) (flights : gmap Z Inflight) (seq : Z) : Prop :=
  forall peer r, numbered_request o trace flights peer r -> ae_rpc_id r <= seq.

(** ** Reads *)

(** [a] is the read [req] asks for. *)
Definition ask_for (p : pnode) (req : ReadIndexRequest) (a : inquiry) : Prop :=
  a ∈ p_asks p /\ ask_callback a = rq_callback req /\ ask_index a = rq_read_index req.

(** The requests this process had sent when [a] was asked have identifiers up to [b]. *)
Definition asked_by (start : nat) (b : Z) (a : inquiry) : Prop :=
  forall peer r, (me, Sent peer (MAppendEntries r)) ∈ drop start (ask_net a) -> ae_rpc_id r <= b.

(** The answer of [v] was sent after [a] was asked. *)
Definition heard (p : pnode) (a : inquiry) (v : Z) : Prop :=
  v = me \/ exists n, (v, n) ∈ p_answers p /\ (length (answers_of v (ask_net a)) <= n)%nat.

Definition ready (p : pnode) (req : ReadIndexRequest) : Prop :=
  exists a, ask_for p req a /\ confirmed members me (p_answers p) a.

(** The probes of a round are requests sent after its reads were asked, and its
    acknowledgements are answers sent after that. *)
Definition round_ok (start : nat) (seq : Z) (p : pnode) (round : HeartbeatRound) : Prop :=
  hr_acks round ⊆ members /\
  exists b, b <= seq /\ (forall peer id, hr_probe_rpc_ids round !! peer = Some id -> b < id) /\
    forall req, req ∈ hr_requests round ->
      exists a, ask_for p req a /\ asked_by start b a /\ forall v, v ∈ hr_acks round -> heard p a v.

Record queue_ok (start : nat) (rs : ReadState) (seq : Z) (p : pnode) : Prop := {
  qo_unsent req : req ∈ _unsent_reads rs -> exists a, ask_for p req a /\ asked_by start seq a;
  qo_rounds round : round ∈ _heartbeat_rounds rs -> round_ok start seq p round;
  qo_pending req : req ∈ _pending_reads rs -> ready p req;
}.

(** ** The object *)

Record view (o : outlook) (s : RaftNode) (c : conf) : Prop := {
  vw_member : me ∈ members;
  vw_id : _node_id s = me;
  vw_peers : peer_ids (_all_peers s) ≡ₚ elements members;
  vw_next : map_Forall (fun k v => k ∈ members /\ 1 <= v) (_next_index s);
  vw_matches : map_Forall (fun k v => k ∈ members /\ 0 <= v) (_match_index s);
  vw_flight_peers : map_Forall (fun k _ => k ∈ members) (_inflight s);
  vw_term : p_term c.1 = _current_term s;
  vw_term_range : 0 <= _current_term s <= INT32_MAX;
  vw_voted : p_voted c.1 = _voted_for s;
  vw_role : p_role c.1 = _state s;
  vw_positive : _state s = CANDIDATE \/ _state s = LEADER -> 0 < _current_term s;
  vw_votes : _state s = CANDIDATE -> p_votes c.1 = _votes s /\ _votes s ⊆ members;
  vw_commit : p_commit c.1 = _commit_index s;
  vw_last : 0 <= _last_applied s <= _commit_index s;
  vw_sm : exists sm, store_db sm = store_db (_sm s) /\ synced sm /\ p_applied c.1 = store_last_applied sm /\
    p_applied c.1 <= _commit_index s /\ same_data (kv sm) (replay (upto (p_log c.1) (p_applied c.1))) /\
    (sm_settled s -> sm = _sm s);
  vw_work w : _apply_work s = Some w -> work_ok s c w;
  vw_match k v : _state s = LEADER -> _match_index s !! k = Some v -> 0 < v -> p_match c.1 !! k = Some v;
  vw_seq : p_seq c.1 <= _rpc_sequence s;
  vw_log : exists a, log_repr s c.1 a;
  vw_terms i : 0 < i <= #(p_log c.1) -> 0 < term_at (p_log c.1) i <= _current_term s;
  vw_entries j e : p_log c.1 !! j = Some e -> index e = Z.of_nat j + 1 /\ valid_command (command e) = true;
  vw_flights : _state s = LEADER -> map_Forall (flight_ok c) (_inflight s);
  vw_reads : _state s <> LEADER -> _unsent_reads (_reads s) = [] /\ _heartbeat_rounds (_reads s) = [];
  vw_pending i pd : _pending s !! i = Some pd -> _state s = LEADER /\ 0 < i /\
    forall cb, pd_callback pd = Some cb ->
      exists e, p_log c.1 !! Z.to_nat (i - 1) = Some e /\ command e = command_of cb /\ term e = p_term c.1;
  vw_vote : _voted_for s = -1 \/ _voted_for s ∈ members;
  vw_bound : _commit_index s <= #(p_log c.1);
  vw_applied : _last_applied s <= p_applied c.1;
  vw_idle : _apply_inflight s = false -> _last_applied s = p_applied c.1;
  vw_chunk : 0 < _snapshot_chunk_bytes s;
  vw_receive : receive_ok c.1 (_snapshot_receive s);
  vw_trace : spoken (known o) (_trace s) c.2;
  vw_requests : numbered o (_trace s) (_inflight s) (_rpc_sequence s);
  vw_asks a : a ∈ p_asks c.1 -> ask_net a `prefix_of` known o;
  vw_queue : _state s = LEADER -> lenient = false -> queue_ok (since o) (_reads s) (_rpc_sequence s) c.1;
  vw_unread : _state s <> LEADER -> _pending_reads (_reads s) = [];
  vw_serve : _can_serve_read (_reads s) = true -> _state s = LEADER /\ term_at (p_log c.1) (p_commit c.1) = p_term c.1;
  vw_lease : _lease_reads s = true -> lenient = true;
}.

(** The databases of a stopped process. *)
Record durably (log_db kv_db : DB) (p : pnode) : Prop := {
  du_log : exists a, recoverable (contents log_db) a /\ log_view (settled a) (p_log p) /\
    hard_view a (p_term p) (p_voted p) /\ a_last_term a <= p_term p /\
    match a_intent a with
    | Some (i, t, d) => t <= p_term p /\ p_applied p <= i <= p_commit p
    | None => a_snap_index a <= p_applied p
    end;
  du_kv : exists s, store_db s = kv_db /\ synced s /\ p_applied p = store_last_applied s /\
    same_data (kv s) (replay (upto (p_log p) (p_applied p)));
  du_terms i : 0 < i <= #(p_log p) -> 0 < term_at (p_log p) i <= p_term p;
  du_term : 0 <= p_term p <= INT32_MAX;
  du_entries j e : p_log p !! j = Some e -> index e = Z.of_nat j + 1 /\ valid_command (command e) = true;
  du_vote : p_voted p = -1 \/ p_voted p ∈ members;
  du_bound : p_applied p <= #(p_log p);
}.

Definition crashed (o : outlook) (s : RaftNode) (c : conf) : Prop :=
  durably (_db (_log s)) (store_db (_sm s)) c.1 /\ spoken (known o) (_trace s) c.2.

(** The last term of a log is one of its terms. *)
Lemma last_term_bound a L t :
  alog_wf a -> log_view a L -> (forall i, 0 < i <= #L -> 0 < term_at L i <= t) -> 0 <= t -> a_last_term a <= t.
Proof.
  intros W LV Ht H0'. rewrite (log_view_last_term a L W LV). destruct (decide (#L = 0)) as [->|]; [by rewrite term_at_0|]. apply Ht. lia.
Qed.

Lemma view_crashed o s c : view o s c -> crashed o s c.
Proof.
  intros V. destruct (vw_log _ _ _ V) as (a & R & Ei & Hl & Hh & Hs). split; [|apply V]. pose proof (vw_term _ _ _ V) as Et.
  pose proof (vw_term_range _ _ _ V). pose proof (vw_applied _ _ _ V). split.
  - exists a. split; [apply stored_recoverable, R|]. unfold settled. rewrite Ei. split; [done|]. split; [done|]. split; [|lia].
    rewrite Et. apply (last_term_bound a (p_log c.1)); [apply R|done|apply V|lia].
  - destruct (vw_sm _ _ _ V) as (sm & ? & ? & ? & _ & ? & _). by exists sm.
  - rewrite Et. apply V.
  - by rewrite Et.
  - apply V.
  - rewrite (vw_voted _ _ _ V). apply V.
  - destruct (vw_sm _ _ _ V) as (sm & _ & _ & _ & ? & _). pose proof (vw_bound _ _ _ V). lia.
Qed.

(** * Runs *)

Abbreviation viewed := (view (look lead)).
Abbreviation downed := (crashed (look lead)).

(** From any object that represents a protocol node and satisfies [P], a run
    of [m] performs protocol actions; if it returns, the object represents the
    node they reach and [Q] holds; if it throws, its databases do. *)
Definition tri {A} (P : RaftNode -> conf -> Prop) (m : M RaftNode A) (Q : A -> RaftNode -> conf -> Prop) : Prop :=
  forall s c, viewed s c -> P s c ->
    match m s with
    | (Ok a, s') => exists c', local c c' /\ viewed s' c' /\ Q a s' c'
    | (Err _, s') => exists c', local c c' /\ downed s' c'
    end.

Lemma tri_ret {A} (a : A) (P : RaftNode -> conf -> Prop) (Q : A -> RaftNode -> conf -> Prop) :
  (forall s c, P s c -> Q a s c) -> tri P (mret a) Q.
Proof. intros HQ s c V HP. cbn. exists c. split; [apply rtc_refl|]. split; [done|by apply HQ]. Qed.

Lemma tri_throw {A} e P (Q : A -> RaftNode -> conf -> Prop) : tri P (throw e) Q.
Proof. intros s c V HP. cbn. exists c. split; [apply rtc_refl|]. by apply view_crashed. Qed.

Lemma tri_lift {A} (r : result A) P (Q : A -> RaftNode -> conf -> Prop) :
  (forall a s c, r = Ok a -> P s c -> Q a s c) -> tri P (lift_result r) Q.
Proof.
  intros HQ. destruct r as [a|e]; [apply tri_ret; auto|apply tri_throw].
Qed.

Lemma tri_bind {A B} P (m : M RaftNode A) (f : A -> M RaftNode B) R Q :
  tri P m R -> (forall a, tri (R a) (f a) Q) -> tri P (m ≫= f) Q.
Proof.
  intros Hm Hf s c V HP. specialize (Hm s c V HP). rewrite M_bind_unfold.
  destruct (m s) as [[a|e] s1]; [|done]. destruct Hm as (c1 & L1 & V1 & HR).
  specialize (Hf a s1 c1 V1 HR). destruct (f a s1) as [[b|e] s2].
  - destruct Hf as (c2 & L2 & V2 & HQ). exists c2. split; [by etrans|done].
  - destruct Hf as (c2 & L2 & C2). exists c2. split; [by etrans|done].
Qed.

Lemma tri_conseq {A} (P P' : RaftNode -> conf -> Prop) (m : M RaftNode A) (Q Q' : A -> RaftNode -> conf -> Prop) :
  tri P' m Q' -> (forall s c, viewed s c -> P s c -> P' s c) ->
  (forall a s c, viewed s c -> Q' a s c -> Q a s c) -> tri P m Q.
Proof.
  intros Hm HP HQ s c V Hs. specialize (Hm s c V (HP _ _ V Hs)). destruct (m s) as [[a|e] s1]; [|done].
  destruct Hm as (c1 & L1 & V1 & Q1). exists c1. auto.
Qed.

Lemma tri_get {A} P (f : RaftNode -> M RaftNode A) Q :
  (forall s0, tri (fun s c => s = s0 /\ P s c) (f s0) Q) -> tri P (get ≫= f) Q.
Proof. intros Hf s c V HP. rewrite M_bind_unfold. cbn. by apply Hf. Qed.

Lemma tri_gets {A B} P (g : RaftNode -> B) (f : B -> M RaftNode A) Q :
  (forall s0, tri (fun s c => s = s0 /\ P s c) (f (g s0)) Q) -> tri P (gets g ≫= f) Q.
Proof. intros Hf s c V HP. rewrite M_bind_unfold. cbn. by apply Hf. Qed.

Lemma tri_if {A} (b : bool) P (m1 m2 : M RaftNode A) Q :
  (b = true -> tri P m1 Q) -> (b = false -> tri P m2 Q) -> tri P (if b then m1 else m2) Q.
Proof. destruct b; auto. Qed.

Lemma tri_when (b : bool) P (m : M RaftNode unit) Q :
  (b = true -> tri P m Q) -> (b = false -> forall s c, viewed s c -> P s c -> Q tt s c) -> tri P (when b m) Q.
Proof.
  intros Ht Hf. destruct b; [auto|]. intros s c V HP. cbn. exists c. split; [apply rtc_refl|]. auto.
Qed.

(** An assignment that matches protocol actions. *)
Lemma tri_modify f P Q :
  (forall s c, viewed s c -> P s c -> exists c', local c c' /\ viewed (f s) c' /\ Q tt (f s) c') ->
  tri P (modify f) Q.
Proof. intros Hf s c V HP. cbn. auto. Qed.

Lemma tri_on_exception {A} P (m : M RaftNode A) h Q :
  tri P m Q ->
  (forall s c, downed s c -> match h s with (_, s') => exists c', local c c' /\ downed s' c' end) ->
  tri P (on_exception m h) Q.
Proof.
  intros Hm Hh s c V HP. specialize (Hm s c V HP). unfold on_exception.
  destruct (m s) as [[a|e] s1]; [done|]. destruct Hm as (c1 & L1 & C1). specialize (Hh s1 c1 C1).
  destruct (h s1) as [[u|e'] s2]; destruct Hh as (c2 & L2 & C2); exists c2; (split; [by etrans|done]).
Qed.

Lemma tri_for_each {A} (l : list A) body (I : RaftNode -> conf -> Prop) :
  (forall x, x ∈ l -> tri I (body x) (fun _ => I)) -> tri I (for_each l body) (fun _ => I).
Proof.
  induction l as [|x l IH]; intros Hb; [by apply tri_ret|]. cbn [for_each].
  apply tri_bind with (fun _ => I); [apply Hb; set_solver|]. intros []. apply IH. intros y Hy. apply Hb. set_solver.
Qed.

(** * Code that leaves the protocol state alone *)

(** The members the protocol state is read from. *)
Definition core (s : RaftNode) :=
  (_node_id s, _all_peers s, _sm s, _apply_work s, _apply_inflight s, _log s, _current_term s, _voted_for s, _state s,
   _votes s, _running s, (_commit_index s, _last_applied s, _match_index s, _next_index s)).

(** Only the sequence of RPC identifiers and the record of reads may advance. *)
Definition same (p p' : pnode) : Prop :=
  p' = p <| p_seq := p_seq p' |> <| p_asks := p_asks p' |> <| p_answers := p_answers p' |>.

Definition calm_at (s : RaftNode) (c : conf) (s' : RaftNode) : Prop :=
  core s' = core s /\ exists c', local c c' /\ same c.1 c'.1 /\ viewed s' c'.
Definition calm (s s' : RaftNode) : Prop := forall c, viewed s c -> calm_at s c s'.

#[export] Instance calm_preorder : PreOrder calm.
Proof.
  split.
  - intros s c V. split; [done|]. exists c. split; [apply rtc_refl|]. split; [|done]. by destruct c as [[]].
  - intros s1 s2 s3 C1 C2 c V. destruct (C1 c V) as [E1 (c1 & L1 & S1 & V1)].
    destruct (C2 _ V1) as [E2 (c2 & L2 & S2 & V2)]. split; [congruence|]. exists c2.
    split; [by etrans|]. split; [|done]. unfold same in *. rewrite S2, S1. done.
Qed.

Lemma tri_calm {A} (m : M RaftNode A) P Q :
  evolves calm m ->
  (forall a s s' c c', viewed s c -> P s c -> core s' = core s -> same c.1 c'.1 -> Q a s' c') -> tri P m Q.
Proof.
  intros Hm HQ s c V HP. specialize (Hm s c V).
  destruct (m s) as [[a|e] s']; destruct Hm as [E (c' & L & Sm & V')]; exists c'; (split; [done|]).
  - split; [done|]. by apply (HQ a s s' c c').
  - by apply view_crashed.
Qed.
End NodeView.
