(* ===== verification/NodeCalm.v ===== *)
(** The parts of [RaftNode] that do not change the protocol state: statistics,
    timers, client callbacks, ReadIndex bookkeeping, and a leader's sending. *)
From stdpp Require Import base numbers strings gmap list.
From S2P Require Import Prelude Effects Storage Messages RaftLog LogSpec LogProofs LogRecovery.
From S2P Require Import KVStore KVStateMachine KVTheorems KVReplay Metrics Peers RaftState RaftNode RaftProtocol ProtocolSafety NodeView.

Create HintDb calm.

Section NodeCalm.
Context `{RocksDBSpec} `{LogEntryCodecSpec} `{!Env} {asks : Requests}.
Context (members : gset Z) (me : Z) (box : option (Z * Message)) (lead : outside).
Abbreviation calm := (calm members me box lead).
Abbreviation view := (view members me (look lead)).
Abbreviation local := (local members me box lead).
Abbreviation crashed := (crashed members me (look lead)).

Lemma same_refl p : same p p.
Proof. by destruct p. Qed.

Lemma calm_modify f :
  (forall s, core (f s) = core s) -> (forall s c, view s c -> view (f s) c) -> evolves calm (modify f).
Proof.
  intros Hc Hv s c V. split; [apply Hc|]. exists c. split; [apply rtc_refl|].
  split; [apply same_refl|by apply Hv].
Qed.

Lemma calm_pure {A} (m : M RaftNode A) : (forall s, (m s).2 = s) -> evolves calm m.
Proof. intros Hm s. rewrite Hm. reflexivity. Qed.

(** Assignments to members the view does not read. *)
Ltac view_same := apply calm_modify; [done|]; intros ? ? []; split; cbn; assumption.

(** Flights only look at the log's prefix and at what was sent. *)
Lemma flight_ok_later c c' peer f :
  p_commit c.1 <= p_commit c'.1 -> p_log c.1 `prefix_of` p_log c'.1 -> p_term c'.1 = p_term c.1 ->
  (forall e, e ∈ c.2 -> e ∈ c'.2) -> flight_ok c peer f -> flight_ok c' peer f.
Proof.
  intros Hc Hl Ht Hs (F1 & F2 & F3). split; [|split; [|done]].
  - intros E. destruct (F1 E) as (Hi & Hp & Hti & Hd & Ho). assert (0 <= fl_snapshot_index f <= #(p_log c.1)) by (apply term_at_inside; lia).
    split; [lia|]. split; [done|]. rewrite <- Hti, (prefix_upto (p_log c.1)) by (done || lia). split; [by apply term_at_prefix|done].
  - intros E. destruct (F2 E) as (m & Em & Hin & Hr). exists m. split; [done|].
    split; [split; [apply Hs|]; apply Hin|]. by rewrite Ht.
Qed.

(** The batch with the executor only depends on what is committed. *)
Lemma work_ok_agree (s s' : RaftNode) c c' w :
  work_ok s c w -> _apply_inflight s' = _apply_inflight s -> _last_applied s' = _last_applied s ->
  _commit_index s <= _commit_index s' -> p_applied c'.1 = p_applied c.1 ->
  (forall n, n <= _commit_index s -> upto (p_log c'.1) n = upto (p_log c.1) n) -> work_ok s' c' w.
Proof.
  intros (Hi & Hf & es & Hne & Ec & Hc & EU & Hr) E1 E2 Hle E3 Hu. unfold work_ok. rewrite E1, E2, E3.
  split; [done|]. split; [done|]. exists es. rewrite !Hu by lia. split_and!; (done || lia).
Qed.

(** Reads depend on what is recorded and sent, which only grows. *)
Lemma ask_for_later p p' req a : (forall x, x ∈ p_asks p -> x ∈ p_asks p') -> ask_for p req a -> ask_for p' req a.
Proof. intros Ha [? ?]. split; [by apply Ha|done]. Qed.

Lemma heard_later p p' a v : (forall x, x ∈ p_answers p -> x ∈ p_answers p') -> heard me p a v -> heard me p' a v.
Proof. intros Ha [|(r & Hr & Hn)]; [by left|right]. exists r. split; [by apply Ha|done]. Qed.

Lemma ready_later p p' req :
  (forall x, x ∈ p_asks p -> x ∈ p_asks p') -> (forall x, x ∈ p_answers p -> x ∈ p_answers p') ->
  ready members me p req -> ready members me p' req.
Proof.
  intros H1' H2' (a & HA & Q & HQ & Hv). exists a. split; [by eapply ask_for_later|]. exists Q. split; [done|].
  intros v Hin. by apply (heard_later p p'), Hv.
Qed.

Lemma round_ok_later n seq seq' p p' round :
  seq <= seq' -> (forall x, x ∈ p_asks p -> x ∈ p_asks p') -> (forall x, x ∈ p_answers p -> x ∈ p_answers p') ->
  round_ok members me n seq p round -> round_ok members me n seq' p' round.
Proof.
  intros Hs H1' H2' (Hm & b & Hb & Hp & Hr). split; [done|]. exists b. split; [lia|]. split; [done|].
  intros req Hq. destruct (Hr req Hq) as (a & HA & Hby & Hh). exists a. split; [by eapply ask_for_later|].
  split; [done|]. intros v Hv. by eapply heard_later, Hh.
Qed.

Lemma queue_ok_later n rs seq seq' p p' :
  seq <= seq' -> (forall x, x ∈ p_asks p -> x ∈ p_asks p') -> (forall x, x ∈ p_answers p -> x ∈ p_answers p') ->
  queue_ok members me n rs seq p -> queue_ok members me n rs seq' p'.
Proof.
  intros Hs H1' H2' [Qu Qr Qp]. split.
  - intros req Hq. destruct (Qu req Hq) as (a & HA & Hby). exists a. split; [by eapply ask_for_later|].
    intros peer r Hin. specialize (Hby peer r Hin). lia.
  - intros round Hr. eapply round_ok_later; eauto.
  - intros req Hq. eapply ready_later; eauto.
Qed.

Lemma spoken_emit net trace sent e : spoken me net trace sent -> spoken me net (trace ++ [e]) (sent ++ [e]).
Proof.
  intros [T S E]. split.
  - intros x [Hx|Hx]%elem_of_app; apply elem_of_app; [left; auto|by right].
  - intros x Hx. apply elem_of_app. left. auto.
  - by rewrite !answers_app, E, app_assoc.
Qed.

(** What the object may send: anything but a request under an identifier it has not
    drawn. *)
Definition sendable (seq : Z) (e : Effect) : Prop := forall peer r, e = Sent peer (MAppendEntries r) -> ae_rpc_id r <= seq.

Lemma untracked_sendable seq e : tracked e = false -> sendable seq e.
Proof. intros He peer r ->. done. Qed.

Lemma untracked_answer e : tracked e = false -> is_answer e = false.
Proof. by destruct e as [|? []| | | |]. Qed.

Lemma numbered_emit o trace flights seq e :
  numbered me o trace flights seq -> sendable seq e -> numbered me o (trace ++ [e]) flights seq.
Proof.
  intros Hn He peer r [Hin|[[Hin|E%list_elem_of_singleton]%elem_of_app|Hf]].
  - apply (Hn peer). by left.
  - apply (Hn peer). right. by left.
  - by apply (He peer).
  - apply (Hn peer). right. by right.
Qed.

Lemma numbered_flight o trace flights seq peer f :
  numbered me o trace flights seq -> (forall r, fl_payload f = Some (MAppendEntries r) -> ae_rpc_id r <= seq) ->
  numbered me o trace (<[peer := f]> flights) seq.
Proof.
  intros Hn Hf k r [Hin|[Hin|(g & [[<- <-]|[_ Hk]]%lookup_insert_Some & E)]]; [| |by apply Hf|]; apply (Hn k); [by left|right; by left|].
  right. right. by exists g.
Qed.

Lemma view_emit s c e : view s c -> sendable (_rpc_sequence s) e -> view (s <| _trace ::= fun t => t ++ [e] |>) (c.1, c.2 ++ [e]).
Proof.
  intros [] Hs. assert (forall x, x ∈ c.2 -> x ∈ c.2 ++ [e]) as Hmore by (intros x Hx; apply elem_of_app; by left).
  split; cbn; try assumption.
  - intros Hr k f Hk. eapply flight_ok_later; [..|by apply (vw_flights Hr)]; cbn; done.
  - by apply spoken_emit.
  - by apply numbered_emit.
Qed.

Lemma calm_emit e : harmless e -> tracked e = false -> evolves calm (emit e).
Proof.
  intros He Ht s c V. split; [done|]. exists (c.1, c.2 ++ [e]).
  split; [|split; [apply same_refl|by apply view_emit; [|apply untracked_sendable]]]. apply rtc_once. exists Tau, [e], c.1.
  split; [|done]. apply P_emit. by left.
Qed.

Lemma calm_ask {A} (answers : nat -> A) : evolves calm (ask answers).
Proof.
  apply evolves_bind; [apply _|apply evolves_gets; apply _|intros n].
  apply evolves_bind; [apply _|view_same|intros _; apply evolves_ret; apply _].
Qed.
Lemma calm_Now : evolves calm Now.
Proof. apply calm_ask. Qed.
Lemma calm_on_stats f : evolves calm (on_stats f).
Proof. view_same. Qed.
Lemma calm_storage_failed : evolves calm storage_failed.
Proof. view_same. Qed.

(** Forgetting reads, and bookkeeping. *)
Definition fewer_reads (r r' : ReadState) : Prop :=
  (forall x, x ∈ _unsent_reads r' -> x ∈ _unsent_reads r) /\
  (forall x, x ∈ _heartbeat_rounds r' -> x ∈ _heartbeat_rounds r) /\
  (forall x, x ∈ _pending_reads r' -> x ∈ _pending_reads r) /\
  (_can_serve_read r' = true -> _can_serve_read r = true).

Lemma no_elements {A} (l l' : list A) : (forall x, x ∈ l' -> x ∈ l) -> l = [] -> l' = [].
Proof. intros Hl ->. destruct l' as [|x l']; [done|]. by destruct (not_elem_of_nil x (Hl x ltac:(left))). Qed.

Lemma queue_ok_fewer n r r' seq p : fewer_reads r r' -> queue_ok members me n r seq p -> queue_ok members me n r' seq p.
Proof. intros (F1 & F2 & F3 & _) [Qu Qr Qp]. split; auto. Qed.

Lemma view_fewer s c r : view s c -> fewer_reads (_reads s) r -> view (s <| _reads := r |>) c.
Proof.
  intros [] F. pose proof F as (F1 & F2 & F3 & F4). split; cbn; try assumption.
  - intros Hr. destruct (vw_reads Hr). split; by eapply no_elements.
  - intros Hr Hl. by eapply queue_ok_fewer, vw_queue.
  - intros Hr. by eapply no_elements, vw_unread.
  - auto.
Qed.

Lemma calm_on_reads f : (forall r, fewer_reads r (f r)) -> evolves calm (on_reads f).
Proof. intros Hf. apply calm_modify; [done|]. intros s c V. by apply (view_fewer s c (f (_reads s))). Qed.
End NodeCalm.

Lemma ask_run `{RocksDB} {A} (answers : nat -> A) s :
  ask answers s = (Ok (answers (_answers s)), s <| _answers ::= S |>).
Proof. done. Qed.
Lemma Send_run `{RocksDB} `{!Env} peer m s :
  Send peer m s =
    (Ok (env_send (_answers s)),
     if env_send (_answers s) then s <| _answers ::= S |> <| _trace ::= fun t => t ++ [Sent peer m] |>
     else s <| _answers ::= S |>).
Proof. unfold Send. rewrite M_bind_unfold, ask_run. by destruct (env_send (_answers s)). Qed.

(** Runs the sequence of statements in the goal. *)
Ltac run :=
  repeat first
    [ rewrite M_bind_unfold | rewrite ask_run | rewrite Send_run
    | progress cbn [get mret M_ret when negb fst snd] ].

(** Proves that a computation is calm from the lemmas for its parts. *)
Ltac calm_step :=
  first
  [ solve [eauto 2 with calm]
  | apply evolves_ret; apply _ | apply evolves_throw; apply _ | apply evolves_get; apply _
  | apply evolves_gets; apply _ | apply evolves_lift_result; apply _
  | apply evolves_bind; [apply _| |intros ?]
  | apply evolves_when; [apply _|]
  | apply evolves_for_each; [apply _|intros ? ?]
  | progress cbn beta zeta
  | case_match ].
Ltac calm_auto := repeat calm_step.

Create HintDb leader.

#[export] Hint Resolve calm_ask calm_Now calm_on_stats calm_storage_failed : calm.
#[export] Hint Extern 2 (evolves _ (emit _)) => apply calm_emit; done : calm.
Lemma elem_of_tail {A} (x : A) l : x ∈ tail l -> x ∈ l.
Proof. destruct l; [done|]. by right. Qed.

Ltac fewer := intros ?; split_and!; cbn -[tail]; try done; try (intros ?; apply elem_of_tail);
  try (intros ? Hnil; by apply not_elem_of_nil in Hnil).
#[export] Hint Extern 2 (evolves _ (on_reads _)) => apply calm_on_reads; fewer : calm.

Ltac view_same := apply calm_modify; [done|]; intros ? ? []; split; cbn; assumption.
#[export] Hint Extern 3 (evolves _ (modify _)) => view_same : calm.

Section Calm.
Context `{RocksDBSpec} `{LogEntryCodecSpec} `{!Env} {asks : Requests}.
Context (members : gset Z) (me : Z) (box : option (Z * Message)) (lead : outside).
Abbreviation calm := (calm members me box lead).
Abbreviation view := (view members me (look lead)).
Abbreviation local := (local members me box lead).
Abbreviation crashed := (crashed members me (look lead)).

(** * Timers and clients *)

Lemma calm_ResetElectionTimer : evolves calm ResetElectionTimer.
Proof. unfold ResetElectionTimer. calm_auto. Qed.
Lemma calm_NotePeerContact peer : evolves calm (NotePeerContact peer).
Proof. unfold NotePeerContact. calm_auto. Qed.
Lemma calm_reply_pending reply p : evolves calm (reply_pending false reply p).
Proof. unfold reply_pending. calm_auto. Qed.
#[local] Hint Resolve calm_reply_pending : calm.

(** Forgetting pending proposals. *)
Lemma calm_forget (size : RaftNode -> Z) (f : gmap Z Pending -> gmap Z Pending) :
  (forall m, f m ⊆ m) -> evolves calm (modify (fun s => s <| _pending_bytes := size s |> <| _pending ::= f |>)).
Proof.
  intros Hf. apply calm_modify; [done|]. intros s c []. split; cbn; try assumption.
  intros i pd Hp. apply (vw_pending i pd). by eapply lookup_weaken.
Qed.

Lemma calm_FailPending reply : evolves calm (FailPending reply).
Proof.
  unfold FailPending. apply evolves_bind; [apply _|apply evolves_get; apply _|intros s0].
  apply evolves_bind; [apply _|exact (calm_forget (fun _ => 0) (fun _ => ∅) map_empty_subseteq)|intros []]. calm_auto.
Qed.
Lemma calm_drop_pending i n :
  evolves calm (modify (fun s => s <| _pending_bytes := uN 64 (_pending_bytes s - n) |> <| _pending ::= delete i |>)).
Proof. apply calm_forget. intros m. apply delete_subseteq. Qed.
#[local] Hint Resolve calm_drop_pending : calm.
Lemma calm_ExpireUncommittedProposals : evolves calm ExpireUncommittedProposals.
Proof. unfold ExpireUncommittedProposals. calm_auto. Qed.

(** * ReadIndex *)

Lemma calm_set_completing b : evolves calm (set_completing b).
Proof. unfold set_completing. calm_auto. Qed.
#[local] Hint Resolve calm_set_completing : calm.
Lemma calm_fail_read error req : evolves calm (fail_read error req).
Proof. unfold fail_read. calm_auto. Qed.
#[local] Hint Resolve calm_fail_read : calm.
Lemma calm_expire_read error req : evolves calm (expire_read error req).
Proof. unfold expire_read. calm_auto. Qed.
#[local] Hint Resolve calm_expire_read : calm.
Lemma calm_tail_rounds : evolves calm (on_reads (fun r => r <| _heartbeat_rounds ::= tail |>)).
Proof. apply calm_on_reads. fewer. Qed.
#[local] Hint Resolve calm_tail_rounds : calm.
Lemma calm_expire_rounds now rounds : evolves calm (expire_rounds now rounds).
Proof. induction rounds as [|round rounds IH]; cbn [expire_rounds]; calm_auto. Qed.
Lemma calm_expire_queue now reason queue drop_front :
  evolves calm (on_reads drop_front) -> evolves calm (expire_queue now reason queue drop_front).
Proof. intros Hd. induction queue as [|req queue IH]; cbn [expire_queue]; calm_auto. Qed.
Lemma calm_tail_unsent : evolves calm (on_reads (fun r => r <| _unsent_reads ::= tail |>)).
Proof. apply calm_on_reads. fewer. Qed.
#[local] Hint Resolve calm_expire_rounds calm_expire_queue calm_tail_unsent : calm.
Lemma calm_CheckReadIndexTimeout : evolves calm CheckReadIndexTimeout.
Proof. unfold CheckReadIndexTimeout. calm_auto. Qed.
Lemma calm_ClearReadIndexQueues reason : evolves calm (ClearReadIndexQueues reason).
Proof. unfold ClearReadIndexQueues. calm_auto. Qed.


(** * A leader *)

Definition calm_leader (s s' : RaftNode) : Prop := _state s = LEADER -> calm s s'.

#[export] Instance calm_leader_preorder : PreOrder calm_leader.
Proof.
  split; [by intros s _|]. intros s1 s2 s3 C1 C2 E c V. destruct (C1 E c V) as [Ec (c1 & L1 & S1 & V1)].
  assert (_state s2 = LEADER) as E2 by (injection Ec; congruence).
  destruct (C2 E2 c1 V1) as [Ec2 (c2 & L2 & S2 & V2)]. split; [congruence|]. exists c2.
  split; [by etrans|]. split; [|done]. unfold same in *. rewrite S2, S1. done.
Qed.

Lemma leader_calm {A} (m : M RaftNode A) : evolves calm m -> evolves calm_leader m.
Proof. intros Hm s _. apply Hm. Qed.

(** Identifiers are drawn in increasing order. *)
Lemma view_sequence s c n : view s c -> _rpc_sequence s <= n -> view (s <| _rpc_sequence := n |>) c.
Proof.
  intros [] Hn. split; cbn; try assumption; try lia.
  - intros peer r Hin. specialize (vw_requests peer r Hin). lia.
  - intros Hr Hl. by eapply (queue_ok_later _ _ _ _ _ _ c.1), vw_queue.
Qed.

Lemma view_answers s c : view s c -> view (s <| _answers ::= S |>) c.
Proof. intros []. split; cbn; assumption. Qed.

(** * Sending *)

Lemma calm_snapshot_chunk peer s :
  _state s = LEADER -> (forall f, _inflight s !! peer = Some f -> fl_snapshot f = true) ->
  calm s (SendSnapshotChunk peer s).2.
Proof.
  intros Hr Hsn. unfold SendSnapshotChunk. rewrite M_bind_unfold. cbn [get].
  unfold at_key. destruct (_inflight s !! peer) as [f|] eqn:Ef; [|done]. specialize (Hsn f eq_refl).
  rewrite M_bind_unfold. cbn [mret M_ret]. destruct (Z.ltb_spec #(fl_snapshot_data f) (fl_snapshot_offset f)) as [|Hsz]; [done|].
  unfold next_rpc_id. rewrite !M_bind_unfold. cbn [gets]. destruct (_ =? UINT64_MAX); [done|].
  rewrite !M_bind_unfold. cbn [modify mret M_ret].
  match goal with |- context [MInstallSnapshot ?x] => set (r := x) end.
  unfold Now, set_flight, modify. run. intros c V. destruct (vw_flights _ _ _ _ _ V Hr _ _ Ef) as (F & _).
  destruct (F Hsn) as (Hi & Hp & Ht & Hd & Ho). pose proof (vw_chunk _ _ _ _ _ V) as Hcb.
  assert (chunk_of (upto (p_log c.1) (fl_snapshot_index f)) r) as Hck.
  { exists (fl_snapshot_data f). split; [done|]. cbn. rewrite length_take, length_drop. split; [done|]. split; [lia|]. split; [f_equal; lia|].
    intros E%Z.eqb_eq. lia. }
  destruct (env_send _); run; (split; [done|]).
  - exists (c.1 <| p_seq := is_rpc_id r |>, c.2 ++ [Sent peer (MInstallSnapshot r)]).
    split; [|split; [done|]].
    + apply rtc_once. eexists Tau, _, _. split; [|done].
      apply P_send_snapshot; cbn; destruct V; try done; try congruence; lia.
    + assert (forall x, x ∈ c.2 -> x ∈ c.2 ++ [Sent peer (MInstallSnapshot r)]) as Hmore by set_solver.
      apply (view_sequence _ _ (_rpc_sequence s + 1)) in V; [|lia]. destruct V; cbn in *. split; cbn; try assumption; try lia.
      * intros k g [[<- <-]|[Hne Hk]]%lookup_insert_Some; [by eapply vw_flight_peers|by eapply vw_flight_peers].
      * intros _ k g [[<- <-]|[Hne Hk]]%lookup_insert_Some.
        -- split; cbn; [intros _; split_and!; done || lia|]. split; [|lia]. intros _. eexists. split; [done|].
           split; [split; [set_solver|done]|]. intros _.
           exists r. by rewrite vw_term.
        -- by eapply flight_ok_later; [..|by apply (vw_flights Hr)].
      * by apply spoken_emit.
      * apply numbered_emit; [by apply numbered_flight|done].
      * intros _ Hl. by eapply (queue_ok_later _ _ _ _ _ _ c.1), vw_queue.
  - exists c. split; [apply rtc_refl|]. split; [apply same_refl|].
    apply (view_sequence _ _ (_rpc_sequence s + 1)) in V; [|lia]. destruct V; cbn in *. split; cbn; try assumption; try lia.
    + intros k g [[<- <-]|[Hne Hk]]%lookup_insert_Some; [by eapply vw_flight_peers|].
      apply lookup_insert_Some in Hk as [[<- _]|[_ Hk]]; by eapply vw_flight_peers.
    + intros _ k g [[<- <-]|[Hne Hk]]%lookup_insert_Some; [split; [intros _; cbn; split_and!; done || lia|]; split; [done|cbn; lia]|].
      rewrite lookup_insert_ne in Hk by done. by apply vw_flights.
    + by apply numbered_flight; [apply numbered_flight|].
Qed.

(** Reading the log changes nothing. *)
Lemma on_log_pure {A} (m : M RaftLog A) s r : m (_log s) = (r, _log s) -> on_log m s = (r, s).
Proof. intros E. unfold on_log, lens. rewrite E. by destruct s. Qed.

Lemma read_term s c i :
  view s c -> 0 <= i ->
  exists a, log_repr s c.1 a /\
    (on_log (GetTerm i) s = (Ok (a_term a i), s) \/ exists e, on_log (GetTerm i) s = (Err e, s)).
Proof.
  intros V Hi. destruct (vw_log _ _ _ _ _ V) as (a & HR). exists a. split; [done|].
  destruct (GetTerm_spec (_log s) a i) as [E|(e & E & _)]; [apply HR|done|left|right; exists e]; by apply on_log_pure.
Qed.

Lemma read_entry s c i :
  view s c ->
  exists a, log_repr s c.1 a /\
    (on_log (RaftLog.Get i) s = (Ok (a_entry a i), s) \/ exists e, on_log (RaftLog.Get i) s = (Err e, s)).
Proof.
  intros V. destruct (vw_log _ _ _ _ _ V) as (a & HR). exists a. split; [done|].
  destruct HR as ([C [W D _]] & _).
  destruct (Get_spec (_log s) a i) as [E|(e & E & _)]; [done..|left|right; exists e]; by apply on_log_pure.
Qed.

Lemma snap_nonneg s p a : log_repr s p a -> 0 <= a_snap_index a.
Proof. intros ([_ [W _ _]] & _). apply W. Qed.

(** The entries gathered for a request are consecutive entries of the log. *)
Lemma gather_entries_spec fuel i es n last s c :
  view s c -> 0 < i -> i = 1 \/ _snapshot_index (_log s) < i ->
  match gather_entries fuel i es n last s with
  | (Ok (es', _), s') => s' = s /\ exists new, es' = es ++ new /\
      (new = [] \/ i - 1 + #new <= #(p_log c.1)) /\
      upto (p_log c.1) (i - 1 + #new) = upto (p_log c.1) (i - 1) ++ new
  | (Err _, s') => s' = s
  end.
Proof.
  intros V. assert (forall es', exists new, es' = es' ++ new /\ (new = [] \/ i - 1 + #new <= #(p_log c.1)) /\
    upto (p_log c.1) (i - 1 + #new) = upto (p_log c.1) (i - 1) ++ new) as Hstop.
  { intros es'. exists []. cbn. by rewrite !app_nil_r, Z.add_0_r; auto. }
  revert i es n last Hstop. induction fuel as [|fuel IH]; intros i es n last Hstop Hi Hs; [by split; [|apply Hstop]|].
  cbn [gather_entries]. run. destruct (Z.ltb_spec (_last_index (_log s)) i) as [|Hle]; [by split; [|apply Hstop]|].
  destruct (read_entry s c i V) as (a & HR & [E|[e E]]); rewrite M_bind_unfold, E; [|done].
  pose proof (snap_nonneg _ _ _ HR) as H0'. destruct HR as ([C [W _ _]] & _ & LV & _).
  destruct (a_entry a i) as [e|] eqn:Ee; [|done].
  assert (a_snap_index a < i) as Hsi by (apply a_entry_inv in Ee; lia).
  rewrite (log_view_entry _ _ _ LV) in Ee by done. pose proof (lookup_lt_Some _ _ _ Ee) as Hlt.
  assert (upto (p_log c.1) i = upto (p_log c.1) (i - 1) ++ [e]) as Eup.
  { unfold upto. replace (Z.to_nat i) with (S (Z.to_nat (i - 1))) by lia. by apply take_S_r. }
  destruct (_ <? _); [done|]. destruct (_ || _); [by split; [|apply Hstop]|].
  destruct (Z.eqb_spec i INT64_MAX).
  - split; [done|]. exists [e]. split; [done|]. change (Z.of_nat (length [e])) with 1. replace (i - 1 + 1) with i by lia. split; [right; lia|done].
  - specialize (IH (i + 1) (es ++ [e]) (n + (ByteSizeLong e + 16)) i).
    assert (_snapshot_index (_log s) < i) by (rewrite (c_snap_index _ _ C); done).
    destruct (gather_entries fuel (i + 1) _ _ _ s) as [[[es' last']|x] s'].
    + destruct IH as (-> & new & -> & Hn & EU); [|lia|lia|].
      { intros es''. exists []. cbn. by rewrite !app_nil_r, Z.add_0_r; auto. }
      split; [done|]. exists (e :: new). split; [by rewrite <- app_assoc|]. cbn [length].
      replace (i - 1 + Z.of_nat (S (length new))) with (i + 1 - 1 + #new) by lia. split.
      * right. destruct Hn as [->|]; cbn; lia.
      * rewrite EU. replace (i + 1 - 1) with i by lia. by rewrite Eup, <- app_assoc.
    + apply IH; [|lia|lia]. intros es''. exists []. cbn. by rewrite !app_nil_r, Z.add_0_r; auto.
Qed.

(** Replacing a flight. *)
Definition flight_numbered (seq : Z) (f : Inflight) : Prop :=
  forall r, fl_payload f = Some (MAppendEntries r) -> ae_rpc_id r <= seq.

Lemma flying_numbered s c peer f : view s c -> _inflight s !! peer = Some f -> flight_numbered (_rpc_sequence s) f.
Proof. intros V Ef r Er. apply (vw_requests _ _ _ _ _ V peer). right. right. by exists f. Qed.

Lemma view_flight s c peer f :
  view s c -> peer ∈ members -> (_state s = LEADER -> flight_ok c peer f) -> flight_numbered (_rpc_sequence s) f ->
  view (s <| _inflight ::= <[peer := f]> |>) c.
Proof.
  intros [] Hp Hf Hn. split; cbn; try assumption.
  - intros k g [[<- <-]|[Hne Hk]]%lookup_insert_Some; [done|by eapply vw_flight_peers].
  - intros Hr k g [[<- <-]|[Hne Hk]]%lookup_insert_Some; [by apply Hf|by apply vw_flights].
  - by apply numbered_flight.
Qed.

Lemma calm_resend peer f s :
  _state s = LEADER -> _inflight s !! peer = Some f -> fl_id f <> 0 ->
  calm s ((match fl_payload f with
           | None => mret tt
           | Some payload =>
               sent ← Send peer payload;
               when sent (set_flight peer (f <| fl_elapsed_ms := 0 |>);;
                          on_stats (fun st => st <| _replication_retry_attempts ::= Z.succ |>))
           end) s).2.
Proof.
  intros Hr Ef Hid c V. destruct (vw_flights _ _ _ _ _ V Hr _ _ Ef) as (F1 & F2 & F3).
  destruct (F2 Hid) as (m & Em & Hin & Hsn). rewrite Em. pose proof (vw_flight_peers _ _ _ _ _ V _ _ Ef) as Hp.
  run. destruct (env_send _); [|split; [done|]; exists c; split; [apply rtc_refl|split; [apply same_refl|]];
    destruct V; split; cbn; assumption].
  unfold set_flight, on_stats, modify. run. split; [done|]. exists (c.1, c.2 ++ [Sent peer m]).
  split; [|split; [apply same_refl|]].
  - apply rtc_once. exists Tau, [Sent peer m], c.1. split; [|done]. apply P_emit. by right.
  - pose proof (flying_numbered _ _ _ _ V Ef) as Hn.
    apply (view_emit _ _ _ _ _ (Sent peer m)) in V; [|intros p' r [= _ Er]; apply Hn; by rewrite Em, Er].
    apply (view_flight _ _ peer (f <| fl_elapsed_ms := 0 |>)) in V.
    + destruct V. split; cbn; assumption.
    + done.
    + intros _. eapply (flight_ok_later c); cbn; [done|done|done|set_solver|by split].
    + exact Hn.
Qed.

(** The rounds after a probe was bound to the first that waits for one. *)
Lemma bind_rounds peer rpc_id (s : RaftNode) :
  exists rounds, BindReadIndexProbe peer rpc_id s = (Ok tt, s <| _reads ::= fun r => r <| _heartbeat_rounds := rounds |> |>) /\
    (rounds = [] <-> _heartbeat_rounds (_reads s) = []) /\
    forall x, x ∈ rounds -> x ∈ _heartbeat_rounds (_reads s) \/
      exists round, round ∈ _heartbeat_rounds (_reads s) /\ x = round <| hr_probe_rpc_ids ::= <[peer := rpc_id]> |>.
Proof.
  unfold BindReadIndexProbe, on_reads, modify. eexists. split; [reflexivity|]. cbn.
  induction (_heartbeat_rounds (_reads s)) as [|round rounds IH]; [split; [done|by left]|].
  destruct (_ || _); [|split; [done|]; intros x [->|Hx]%elem_of_cons; [right; exists round; set_solver|left; set_solver]].
  split; [done|]. intros x [->|Hx]%elem_of_cons; [left; set_solver|]. destruct (proj2 IH x Hx) as [|(y & ? & ?)]; [left; set_solver|right].
  exists y. set_solver.
Qed.

(** A probe is a request sent after the reads of its round were asked. *)
Lemma view_bind peer rpc_id s c :
  view s c -> _state s = LEADER -> rpc_id <= _rpc_sequence s -> (lenient = false -> queue_ok members me (since (look lead)) (_reads s) (rpc_id - 1) c.1) ->
  view (BindReadIndexProbe peer rpc_id s).2 c.
Proof.
  intros V Hr Hs Hq. destruct (bind_rounds peer rpc_id s) as (rounds & -> & _ & Hx). cbn [snd].
  destruct V. split; cbn; try assumption; [done|]. intros _ Hl. destruct (Hq Hl) as [Qu Qr Qp]. split; cbn; [| |done].
  { intros req Hin. destruct (Qu req Hin) as (a & HA & Hby). exists a. split; [done|]. intros p' x Hn. specialize (Hby p' x Hn). lia. }
  intros x [Hin|(round & Hin & ->)]%Hx; [eapply (round_ok_later _ _ _ _ _ c.1); [..|by apply Qr]; done || lia|].
  destruct (Qr round Hin) as (Hm & b & Hb & Hp & Hreq). split; [done|]. exists b. split; [lia|]. split; [|exact Hreq].
  cbn. intros k id [[<- <-]|[Hne Hk]]%lookup_insert_Some; [lia|by eapply Hp].
Qed.

Lemma append_request_calm peer r rpc_id (g : Z -> Inflight) s c :
  view s c -> _state s = LEADER -> peer ∈ members -> rpc_id = _rpc_sequence s ->
  (lenient = false -> queue_ok members me (since (look lead)) (_reads s) (rpc_id - 1) c.1) -> ae_rpc_id r = rpc_id ->
  harmless_message (MAppendEntries r) \/ ae_from me (p_term c.1) (p_log c.1) (p_commit c.1) r ->
  (forall t, fl_snapshot (g t) = false /\ fl_payload (g t) = Some (MAppendEntries r) /\ 0 <= fl_snapshot_chunk (g t)) ->
  let s' := ((sent ← Send peer (MAppendEntries r);
              if (sent : bool) then
                first_send ← Now;
                set_flight peer (g first_send);;
                BindReadIndexProbe peer rpc_id
              else mret tt) s).2 in
  calm_at members me box lead s c s'.
Proof.
  intros V Hr Hp Hs Hq Ei Hm Hg. cbn zeta. unfold Now, set_flight. run. destruct (env_send _) eqn:Es; run; cycle 1.
  { split; [done|]. exists c. split; [apply rtc_refl|]. split; [apply same_refl|by apply view_answers]. }
  set (c1 := (c.1, c.2 ++ [Sent peer (MAppendEntries r)]) : conf).
  match goal with |- context [modify _ ?x] => set (s1 := x) end.
  assert (view s1 c1) as V1.
  { apply (view_emit _ _ _ _ _ (Sent peer (MAppendEntries r))) in V.
    - unfold s1, c1. destruct V. split; cbn; assumption.
    - intros p' x [= <- <-]. lia. }
  cbn [modify]. match goal with |- context [g ?x] => set (t := x) end.
  set (s2 := s1 <| _inflight ::= <[peer := g t]> |>). assert (view s2 c1) as V2.
  { apply view_flight; [done|done|intros _; destruct (Hg t) as (G1 & G2 & G3)|].
    - split; [congruence|]. split; [|done]. intros _. eexists. split; [exact G2|]. split; [|congruence].
      split; [unfold c1; cbn; set_solver|done].
    - intros x Ex. destruct (Hg t) as (_ & G2 & _). rewrite G2 in Ex. injection Ex as <-. cbn. lia. }
  split.
  { destruct (bind_rounds peer rpc_id s2) as (rounds & -> & _). done. }
  exists c1. split; [|split; [apply same_refl|apply (view_bind peer rpc_id); try done]].
  - apply rtc_once. exists Tau, [Sent peer (MAppendEntries r)], c.1. split; [|done]. destruct Hm as [Hm|Hm].
    + apply P_emit. by left.
    + apply P_send_append; [|done]. rewrite (vw_role _ _ _ _ _ V). done.
  - cbn. lia.
Qed.

(** The request a leader builds from its log. *)
Lemma append_request_from s c a next es rpc_id :
  view s c -> log_repr s c.1 a -> 1 <= next ->
  (es = [] \/ next - 1 + #es <= #(p_log c.1)) ->
  upto (p_log c.1) (next - 1 + #es) = upto (p_log c.1) (next - 1) ++ es ->
  let r := mkAppendEntries (_current_term s) (_node_id s) (next - 1) (a_term a (next - 1)) es (_commit_index s) rpc_id in
  harmless_message (MAppendEntries r) \/ ae_from me (p_term c.1) (p_log c.1) (p_commit c.1) r.
Proof.
  intros V HR Hn Hes EU r. destruct (Z.lt_ge_cases (a_term a (next - 1)) 0) as [|Hge]; [by left|right].
  destruct (log_view_known a (p_log c.1) (next - 1) (a_term a (next - 1))) as [Ht Hi];
    [apply HR|by eapply snap_nonneg|lia|done|done|].
  destruct V. unfold ae_from, ae_end, r. cbn. repeat split; try done; try lia.
  destruct Hes as [->|]; [cbn; lia|done].
Qed.

Lemma leader_SendAppendEntries peer : evolves calm_leader (SendAppendEntries peer).
Proof.
  intros s Hr c V. unfold SendAppendEntries. run. unfold at_key.
  destruct (_inflight s !! peer) as [f|] eqn:Ef; run; [|by apply (reflexivity (R := calm))].
  pose proof (vw_flight_peers _ _ _ _ _ V _ _ Ef) as Hp. pose proof (proj2 (proj2 (vw_flights _ _ _ _ _ V Hr _ _ Ef))) as F3.
  destruct (Z.eqb_spec (fl_id f) 0) as [Hid|Hid]; run; cycle 1.
  { destruct (_ <=? _); [|by apply (reflexivity (R := calm))]. by apply calm_resend. }
  destruct (_next_index s !! peer) as [next|] eqn:En; run; [|by apply (reflexivity (R := calm))].
  destruct (vw_next _ _ _ _ _ V _ _ En) as [_ Hn].
  destruct (vw_log _ _ _ _ _ V) as (a & HR). pose proof (snap_nonneg _ _ _ HR) as H0'.
  pose proof HR as ([C [W _ _]] & _ & LV & _ & Hsa).
  destruct (_ && _) eqn:Esn.
  - apply andb_true_iff in Esn as [Hs1%Z.ltb_lt Hs2%Z.leb_le]. unfold set_flight, modify. run.
    match goal with |- context [SendSnapshotChunk peer ?x] => set (s1 := x) end.
    assert (calm s s1) as HC.
    { intros c' V'. split; [done|]. exists c'. split; [apply rtc_refl|]. split; [apply same_refl|].
      apply view_flight; [done|done| |exact (flying_numbered _ _ _ _ V' Ef)].
      intros _. split; cbn; [intros _|split; [done|by apply (vw_flights _ _ _ _ _ V' Hr _ _ Ef)]].
      destruct (vw_log _ _ _ _ _ V') as (a' & ([C' [W' _ _]] & _ & LV' & _ & Hsa')).
      rewrite (c_snap_index _ _ C'), (c_snap_term _ _ C') in *. pose proof (vw_last _ _ _ _ _ V'). rewrite (vw_commit _ _ _ _ _ V').
      split; [lia|]. split; [apply W'; lia|]. split; [apply LV'; lia|].
      split; [rewrite (c_snap_data _ _ C'); apply LV'; lia|done]. }
    assert (calm s (SendSnapshotChunk peer s1).2) as HC'; [|by apply HC'].
    etrans; [exact HC|]. apply calm_snapshot_chunk; [done|]. unfold s1. cbn. intros g. rewrite lookup_insert_eq. by intros [= <-].
  - destruct (read_term s c (next - 1) V ltac:(lia)) as (a' & HR' & [E|[e E]]); run; rewrite E; [|by apply (reflexivity (R := calm))].
    unfold next_rpc_id. run. cbn [gets]. destruct (_ =? UINT64_MAX); [by apply (reflexivity (R := calm))|]. run. cbn [modify].
    set (s1 := s <| _rpc_sequence := _rpc_sequence s + 1 |>).
    assert (view s1 c) as V1 by (apply view_sequence; [done|lia]).
    assert (next = 1 \/ _snapshot_index (_log s1) < next) as Hsn.
    { right. cbn. rewrite (c_snap_index _ _ C) in Esn |- *. apply andb_false_iff in Esn as [Hx%Z.ltb_ge|Hx%Z.leb_gt]; lia. }
    pose proof (gather_entries_spec (S kMaxBatchEntries) next [] 128 (next - 1) s1 c V1 ltac:(lia) Hsn) as G.
    destruct (gather_entries _ next _ _ _ s1) as [[[es last']|e'] s1'] eqn:EG.
    all: run; rewrite EG.
    + destruct G as (-> & new & -> & Hnew & EU). cbn [app]. rewrite M_bind_unfold. unfold Now at 1. rewrite ask_run.
      assert (view (s1 <| _answers ::= S |>) c) as V2 by (by apply view_answers).
      match goal with |- calm_at _ _ _ _ _ _ ?x => change (calm_at members me box lead (s1 <| _answers ::= S |>) c x) end.
      eapply append_request_calm; [done|done|done|done| |done| |intros t; split; [done|]; split; [done|]; exact F3].
      * cbn. rewrite Z.add_simpl_r. by apply (vw_queue _ _ _ _ _ V).
      * by apply (append_request_from s c a' next new).
    + subst s1'. split; [done|]. exists c. split; [apply rtc_refl|]. split; [apply same_refl|done].
Qed.

End Calm.

#[export] Hint Resolve leader_SendAppendEntries : leader.

(** Proves that a leader's computation is calm from the lemmas for its parts. *)
Ltac leader_step :=
  first
  [ solve [eauto 2 with leader]
  | apply evolves_ret; apply _ | apply evolves_throw; apply _ | apply evolves_get; apply _
  | apply evolves_gets; apply _ | apply evolves_lift_result; apply _
  | apply evolves_bind; [apply _| |intros ?]
  | apply evolves_when; [apply _|]
  | apply evolves_for_each; [apply _|intros ? ?]
  | progress cbn beta zeta
  | apply leader_calm; solve [eauto 2 with calm]
  | case_match ].
Ltac leader_auto := repeat leader_step.

#[export] Hint Resolve calm_ResetElectionTimer calm_NotePeerContact calm_FailPending calm_ExpireUncommittedProposals
  calm_drop_pending calm_fail_read calm_set_completing calm_CheckReadIndexTimeout calm_ClearReadIndexQueues : calm.

(** The reads of an object whose protocol node changed elsewhere. *)
Ltac keep_queue :=
  match goal with
  | Q : _ -> _ -> queue_ok _ _ _ _ _ ?p |- _ -> _ -> queue_ok _ _ _ _ _ _ =>
      intros ? ?; eapply (queue_ok_later _ _ _ _ _ _ p); [..|by apply Q]; cbn; done || lia || set_solver
  end.
