(* ===== verification/NodeReads.v ===== *)
(** ReadIndex as actions of the protocol: a request is asked for when it is queued, an
    answer to a probe counts for the requests of its round, and a request is answered
    only once a majority counted for it. *)
From stdpp Require Import base numbers strings gmap list.
From S2P Require Import Prelude Effects Storage Messages RaftLog LogSpec LogProofs LogRecovery.
From S2P Require Import KVStore KVStateMachine KVTheorems KVReplay Metrics Peers RaftState RaftNode RaftProtocol ProtocolSafety NodeView NodeCalm.

Section NodeReads.
Context `{RocksDBSpec} `{LogEntryCodecSpec} `{!Env} {asks : Requests}.
Context (members : gset Z) (me : Z) (box : option (Z * Message)) (lead : outside).
Abbreviation calm := (calm members me box lead).
Abbreviation calm_at := (calm_at members me box lead).
Abbreviation view := (view members me (look lead)).
Abbreviation local := (local members me box lead).

(** * Quorums *)

Lemma peers_size s c : view s c -> length (_all_peers s) = size members.
Proof.
  intros V. pose proof (Permutation_length (vw_peers _ _ _ _ _ V)) as E. unfold peer_ids in E. by rewrite length_fmap in E.
Qed.

Lemma quorum_majority s c Q : view s c -> Q ⊆ members -> QuorumSize s <= Z.of_nat (size Q) -> majority members Q.
Proof. intros V HQ Hq. unfold QuorumSize in Hq. rewrite (peers_size s c V) in Hq. split; [done|lia]. Qed.

Lemma quorum_of_one s c : view s c -> QuorumSize s = 1 -> majority members {[me]}.
Proof.
  intros V Hq. eapply quorum_majority; [exact V| |rewrite size_singleton; lia]. pose proof (vw_member _ _ _ _ _ V). set_solver.
Qed.

(** * Answering *)

(** Code that talks to clients about reads that [K] allows it to answer. *)
Definition answering (K : pnode -> Prop) (s s' : RaftNode) : Prop :=
  forall c, view s c -> K c.1 -> core s' = core s /\ exists c', local c c' /\ c'.1 = c.1 /\ view s' c'.

#[export] Instance answering_preorder K : PreOrder (answering K).
Proof.
  split.
  - intros s c V _. split; [done|]. exists c. split; [apply rtc_refl|done].
  - intros s1 s2 s3 A1 A2 c V HK. destruct (A1 c V HK) as [E1 (c1 & L1 & P1 & V1)].
    destruct (A2 c1 V1 ltac:(by rewrite P1)) as [E2 (c2 & L2 & P2 & V2)]. split; [congruence|]. exists c2.
    split; [by etrans|]. split; [congruence|done].
Qed.

Lemma answering_calm K s c s' : answering K s s' -> view s c -> K c.1 -> calm_at s c s'.
Proof.
  intros HA V HK. destruct (HA c V HK) as [E (c' & L & P & V')]. split; [done|]. exists c'. split; [done|].
  rewrite P. split; [apply same_refl|done].
Qed.

Lemma answering_modify K f :
  (forall s, core (f s) = core s) -> (forall s c, view s c -> K c.1 -> view (f s) c) -> evolves (answering K) (modify f).
Proof. intros Hc Hv s c V HK. split; [apply Hc|]. exists c. split; [apply rtc_refl|]. split; [done|by apply Hv]. Qed.

Lemma answering_on_reads K f : (forall r, fewer_reads r (f r)) -> evolves (answering K) (on_reads f).
Proof. intros Hf. apply answering_modify; [done|]. intros s c V _. by apply (view_fewer _ _ _ s c (f (_reads s))). Qed.

(** A leader may answer [reqs]. *)
Definition answerable (reqs : list ReadIndexRequest) (p : pnode) : Prop :=
  p_role p = LEADER /\ (lenient = false -> forall req, req ∈ reqs -> ready members me p req).

Lemma answering_complete reqs req s :
  req ∈ reqs -> lenient = true \/ rq_read_index req <= _last_applied s -> answering (answerable reqs) s (complete_read req s).2.
Proof.
  intros Hin Hi. unfold complete_read. rewrite M_bind_unfold. unfold emit, on_reads, modify. intros c V [Hr Hq].
  split; [done|]. exists (c.1, c.2 ++ [ReadReply (rq_callback req) true (rq_read_index req) []]). split; [|split; [done|]].
  - apply rtc_once. eexists Tau, [_], c.1. split; [|done]. destruct lenient eqn:El; [by apply P_lenient_read|].
    destruct (Hq eq_refl req Hin) as (a & (Ha & <- & Ei) & HC). rewrite <- Ei. apply P_read; [done..|].
    pose proof (vw_applied _ _ _ _ _ V). destruct Hi; [done|lia].
  - apply (view_emit _ _ _ _ _ (ReadReply (rq_callback req) true (rq_read_index req) [])) in V; [|by apply untracked_sendable].
    apply (view_fewer _ _ _ _ _ ((_reads s) <| _read_index_succeeded ::= Z.succ |>)) in V; [exact V|]. by split_and!.
Qed.

Lemma answering_push reqs req :
  req ∈ reqs -> evolves (answering (answerable reqs)) (on_reads (fun r => r <| _pending_reads ::= fun q => q ++ [req] |>)).
Proof.
  intros Hin. apply answering_modify; [done|]. intros s c V [Hr Hq]. rewrite (vw_role _ _ _ _ _ V) in Hr.
  destruct V. split; cbn; try assumption; [|done]. intros _ Hl. destruct (vw_queue Hr Hl) as [Qu Qr Qp]. split; cbn; [done|done|].
  intros x [Hx| ->%list_elem_of_singleton]%elem_of_app; [by apply Qp|by apply Hq].
Qed.

Lemma answering_ProcessConfirmedRound reqs : evolves (answering (answerable reqs)) (ProcessConfirmedRound reqs).
Proof.
  unfold ProcessConfirmedRound, set_completing. apply evolves_bind; [apply _|apply evolves_gets; apply _|intros nested].
  apply evolves_bind; [apply _|apply answering_on_reads; fewer|intros _].
  apply evolves_bind; [apply _| |intros _; apply answering_on_reads; fewer].
  apply evolves_for_each; [apply _|]. intros req Hin s. rewrite M_bind_unfold. cbn [gets].
  destruct (Z.leb_spec (rq_read_index req) (_last_applied s)); [apply answering_complete; auto|by apply answering_push].
Qed.

Lemma answering_pending_loop queue reqs :
  (forall req, req ∈ queue -> req ∈ reqs) -> evolves (answering (answerable reqs)) (pending_loop queue).
Proof.
  intros Hq. induction queue as [|req queue IH]; cbn [pending_loop]; [apply evolves_ret; apply _|].
  intros s. rewrite M_bind_unfold. cbn [gets]. destruct (Z.leb_spec (rq_read_index req) (_last_applied s)) as [Hle|]; [|done].
  rewrite M_bind_unfold. unfold on_reads at 1. cbn [modify]. rewrite M_bind_unfold.
  match goal with |- context [complete_read req ?x] => set (s1 := x) end.
  assert (answering (answerable reqs) s s1) as H1'.
  { pose proof (answering_on_reads (answerable reqs) (fun r => r <| _pending_reads ::= tail |>)) as HA.
    apply HA. fewer. }
  pose proof (answering_complete reqs req s1 ltac:(set_solver) (or_intror Hle)) as H2'.
  destruct (complete_read req s1) as [[u|e] s2]; cbn in *; (etrans; [exact H1'|]); [|done].
  etrans; [exact H2'|]. apply IH. set_solver.
Qed.

Lemma calm_pending s : calm s (pending_loop (_pending_reads (_reads s)) s).2.
Proof.
  intros c V. destruct (decide (_state s = LEADER)) as [Hr|Hr]; [|by rewrite (vw_unread _ _ _ _ _ V Hr); apply (reflexivity (R := calm))].
  eapply answering_calm; [by apply (answering_pending_loop (_pending_reads (_reads s)) (_pending_reads (_reads s)))|done|].
  split; [by rewrite (vw_role _ _ _ _ _ V)|]. intros Hl. by apply (vw_queue _ _ _ _ _ V Hr Hl).
Qed.

(** * Rounds *)

Lemma drop_confirmed_elem x rounds : x ∈ drop_confirmed rounds -> x ∈ rounds.
Proof.
  induction rounds as [|round rounds IH]; cbn; [done|]. destruct (hr_confirmed round); [|done]. intros Hx. right. auto.
Qed.

Lemma calm_drop_confirmed : evolves calm (on_reads (fun r => r <| _heartbeat_rounds ::= drop_confirmed |>)).
Proof. apply calm_on_reads. intros r. split_and!; cbn; try done. intros x; apply drop_confirmed_elem. Qed.

(** The reads of a new round. *)
Definition opened (round : HeartbeatRound) (id : Z) (r : ReadState) : ReadState :=
  r <| _next_round_id := id |> <| _unsent_reads := [] |> <| _heartbeat_rounds := [round] |> <| _heartbeat_in_flight := true |>.

Lemma view_opened s c id now :
  view s c -> _state s = LEADER ->
  view (s <| _reads ::= opened (MkHeartbeatRound id {[_node_id s]} (_unsent_reads (_reads s)) ∅ now false) id |>) c.
Proof.
  intros [] Hr. split; cbn; try assumption; [done|]. intros _ Hl. destruct (vw_queue Hr Hl) as [Qu Qr Qp]. split; cbn; [|..|done].
  { intros req Hin. by apply not_elem_of_nil in Hin. }
  intros round ->%list_elem_of_singleton. split; cbn; [rewrite vw_id; set_solver|]. exists (_rpc_sequence s). split; [done|].
  split; [intros peer k E; by rewrite lookup_empty in E|]. intros req Hin. destruct (Qu req Hin) as (a & HA & Hby).
  exists a. split; [done|]. split; [done|]. intros v ->%elem_of_singleton. by left.
Qed.

Lemma view_emptied s c round :
  view s c -> _state s = LEADER -> hr_acks round = {[_node_id s]} -> hr_requests round = [] -> hr_probe_rpc_ids round = ∅ ->
  view (s <| _reads ::= fun r => r <| _heartbeat_rounds := [round] |> |>) c.
Proof.
  intros [] Hr Ea Eq Ep. split; cbn; try assumption; [done|]. intros _ Hl. destruct (vw_queue Hr Hl) as [Qu Qr Qp]. split; cbn; [done|..|done].
  intros x ->%list_elem_of_singleton. split; [rewrite Ea, vw_id; set_solver|]. exists (_rpc_sequence s). rewrite Eq, Ep. split; [done|].
  split; [intros peer k E; by rewrite lookup_empty in E|]. intros req Hin. by apply not_elem_of_nil in Hin.
Qed.

(** The requests of a cluster of one. *)
Lemma unsent_answerable s c :
  view s c -> _state s = LEADER -> QuorumSize s = 1 -> answerable (_unsent_reads (_reads s)) c.1.
Proof.
  intros V Hr Hq. split; [by rewrite (vw_role _ _ _ _ _ V)|]. intros Hl req Hin.
  destruct (qo_unsent _ _ _ _ _ _ (vw_queue _ _ _ _ _ V Hr Hl) req Hin) as (a & HA & _). exists a. split; [done|].
  exists {[me]}. split; [by eapply quorum_of_one|]. intros v ->%elem_of_singleton. by left.
Qed.

Lemma calm_TryStartReadRound : evolves calm TryStartReadRound.
Proof.
  intros s c V. unfold TryStartReadRound. rewrite M_bind_unfold. cbn [get].
  destruct (_ || _) eqn:Hg; [by apply (reflexivity (R := calm))|]. apply orb_false_iff in Hg as [Hu%bool_decide_eq_false_1 _].
  destruct (decide (_state s = LEADER)) as [Hr|Hr]; [|by destruct (vw_reads _ _ _ _ _ V Hr)].
  cbn zeta. set (id := uN 64 _). unfold Now. rewrite M_bind_unfold, ask_run. set (now := env_clock _).
  set (s1 := s <| _answers ::= S |>). assert (view s1 c) as V1 by (by apply view_answers).
  rewrite M_bind_unfold. unfold on_reads at 1. cbn [modify].
  pose proof (view_opened s1 c id now V1 Hr) as V2. cbn [s1] in V2. set (s2 := s1 <| _reads ::= _ |>) in V2.
  match goal with |- calm_at s c (when _ _ ?x).2 => change x with s2 end.
  destruct (Z.eqb_spec (QuorumSize s) 1) as [Hq|]; cbn [when].
  2: { split; [done|]. exists c. split; [apply rtc_refl|]. split; [apply same_refl|exact V2]. }
  rewrite M_bind_unfold. unfold on_reads at 1. cbn [modify].
  pose proof (view_emptied s2 c (MkHeartbeatRound id {[_node_id s]} [] ∅ now true) V2 Hr eq_refl eq_refl eq_refl) as V3.
  match type of V3 with view ?x _ => set (s3 := x) in V3 end.
  match goal with |- context [(ProcessConfirmedRound ?l;; ?k) ?x] => change x with s3;
    assert (evolves (answering (answerable l)) (ProcessConfirmedRound l;; k)) as HA end.
  { apply evolves_bind; [apply _|apply answering_ProcessConfirmedRound|intros _]. apply answering_on_reads. fewer. }
  destruct (HA s3 c V3 (unsent_answerable s c V Hr Hq)) as [Ec (c' & L & P & V')].
  split; [rewrite Ec; done|]. exists c'. split; [done|]. rewrite P. split; [apply same_refl|done].
Qed.

Lemma leader_MaybeSendReadProbes : evolves (calm_leader members me box lead) MaybeSendReadProbes.
Proof. unfold MaybeSendReadProbes. leader_auto. Qed.

(** Without reads there is nothing to probe for. *)
Lemma calm_MaybeSendReadProbes : evolves calm MaybeSendReadProbes.
Proof.
  intros s. destruct (decide (_state s = LEADER)) as [Hr|Hr]; [by apply leader_MaybeSendReadProbes|].
  intros c V. destruct (vw_reads _ _ _ _ _ V Hr) as [_ Er]. unfold MaybeSendReadProbes. rewrite M_bind_unfold. cbn [get].
  rewrite Er. by apply (reflexivity (R := calm)).
Qed.
#[local] Hint Resolve calm_drop_confirmed calm_TryStartReadRound calm_MaybeSendReadProbes : calm.

Lemma calm_FinishReadIndexRounds : evolves calm FinishReadIndexRounds.
Proof. unfold FinishReadIndexRounds. calm_auto. Qed.
#[local] Hint Resolve calm_FinishReadIndexRounds : calm.

Lemma calm_ProcessPendingReads : evolves calm ProcessPendingReads.
Proof.
  unfold ProcessPendingReads. apply evolves_bind; [apply _|calm_auto|intros nested]. apply evolves_bind; [apply _|calm_auto|intros _].
  intros s. rewrite M_bind_unfold. cbn [gets]. pose proof (calm_pending s) as HP.
  rewrite M_bind_unfold. destruct (pending_loop _ s) as [[u|e] s1]; [|done]. etrans; [exact HP|]. cbn [snd].
  match goal with |- calm s1 (?m s1).2 => enough (evolves calm m) as E by apply E end. calm_auto.
Qed.
#[local] Hint Resolve calm_ProcessPendingReads : calm.

Lemma leader_BroadcastAppendEntries : evolves (calm_leader members me box lead) BroadcastAppendEntries.
Proof. unfold BroadcastAppendEntries. leader_auto. Qed.

(** * Acknowledgements *)

(** What an acknowledgement of [from] does to the rounds. *)
Lemma ack_rounds_spec from rpc_id now quorum rounds :
  let '(rounds', confirmed) := ack_rounds from rpc_id now quorum rounds in
  (forall x, x ∈ rounds' -> x ∈ rounds \/ exists round, round ∈ rounds /\ hr_probe_rpc_ids round !! from = Some rpc_id /\
     hr_acks x = {[from]} ∪ hr_acks round /\ hr_probe_rpc_ids x = hr_probe_rpc_ids round /\
     forall req, req ∈ hr_requests x -> req ∈ hr_requests round) /\
  (forall reqs, confirmed = Some reqs -> exists round, round ∈ rounds /\ hr_probe_rpc_ids round !! from = Some rpc_id /\
     reqs = hr_requests round /\ quorum <= Z.of_nat (size ({[from]} ∪ hr_acks round))).
Proof.
  induction rounds as [|round rounds IH]; cbn [ack_rounds]; [by split; [left|]|].
  destruct (_ || _) eqn:Hg.
  { destruct (ack_rounds _ _ _ _ rounds) as [rounds' confirmed]. destruct IH as [I1 I2]. split.
    - intros x [->|Hx]%elem_of_cons; [left; set_solver|]. destruct (I1 x Hx) as [|(y & ? & ?)]; [left; set_solver|right]. exists y. set_solver.
    - intros reqs E. destruct (I2 reqs E) as (y & ? & ?). exists y. set_solver. }
  apply orb_false_iff in Hg as [_ Hp%negb_false_iff%bool_decide_eq_true_1].
  destruct (_ <=? _); [by split; [left|]|]. destruct (Z.leb_spec quorum (Z.of_nat (size ({[from]} ∪ hr_acks round)))).
  - split.
    + intros x [->|Hx]%elem_of_cons; [right|left; set_solver]. exists round. cbn. split_and!; try done; [set_solver|].
      intros req Hin. by apply not_elem_of_nil in Hin.
    + intros reqs [= <-]. exists round. split; [set_solver|done].
  - split; [|done]. intros x [->|Hx]%elem_of_cons; [right|left; set_solver]. exists round. cbn. split_and!; try done. set_solver.
Qed.

Section Ack.
Context (from : Z) (r : AppendEntriesResponse) (Hfrom : from ∈ members).

(** The answer was sent after a request of this process that carries its identifier. *)
Definition timely : Prop :=
  lenient = false -> exists i j m,
    (since (look lead) <= i < j)%nat /\ seen lead !! i = Some (me, Sent from (MAppendEntries m)) /\ ae_rpc_id m = aer_rpc_id r /\
    seen lead !! j = Some (from, Sent me (MAppendEntriesResponse r)).

(** It counts for the reads asked for before that identifier was drawn. *)
Definition counts (p : pnode) : Prop :=
  lenient = false -> forall a b, a ∈ p_asks p -> asked_by me (since (look lead)) b a -> b < aer_rpc_id r -> heard me p a from.

(** The place of the answer among those of its sender. *)
Definition place (j : nat) : nat := length (answers_of from (take j (seen lead))).

Lemma timely_counts s c i j m :
  view s c -> (since (look lead) <= i < j)%nat -> seen lead !! i = Some (me, Sent from (MAppendEntries m)) -> ae_rpc_id m = aer_rpc_id r ->
  (from, place j) ∈ p_answers c.1 -> counts c.1.
Proof.
  intros V Hij Hi Em Hin _ a b Ha Hby Hb. right. exists (place j). split; [done|].
  pose proof (vw_asks _ _ _ _ _ V a Ha) as Hp. destruct (Nat.le_gt_cases (length (ask_net a)) i) as [Hle|Hgt].
  - apply prefix_length, answers_of_prefix. destruct Hp as [k Ek]. unfold seen. rewrite Ek, take_app_ge by lia. by apply prefix_app_r.
  - assert ((me, Sent from (MAppendEntries m)) ∈ drop (since (look lead)) (ask_net a)) as Hx; [|specialize (Hby _ _ Hx); lia].
    apply (list_elem_of_lookup_2 _ (i - since (look lead))). rewrite lookup_drop.
    replace (since (look lead) + (i - since (look lead)))%nat with i by lia.
    destruct (lookup_lt_is_Some_2 (ask_net a) i Hgt) as [x Ex]. pose proof (prefix_lookup_Some _ _ _ _ Ex Hp). unfold seen in Hi. congruence.
Qed.

(** Hearing the answer. *)
Lemma hear s c :
  view s c -> _state s = LEADER -> timely -> aer_term r = p_term c.1 ->
  exists c1, local c c1 /\ same c.1 c1.1 /\ view s c1 /\ counts c1.1.
Proof.
  intros V Hr Ht Et. destruct lenient eqn:El.
  { exists c. split; [apply rtc_refl|]. split; [apply same_refl|]. split; [done|]. intros ?. congruence. }
  destruct (Ht El) as (i & j & m & Hij & Hi & Em & Hj).
  assert (view s (c.1 <| p_answers ::= cons (from, place j) |>, c.2)) as V1.
  { destruct V. split; cbn; try assumption. keep_queue. }
  exists (c.1 <| p_answers ::= cons (from, place j) |>, c.2). split; [|split; [by destruct c as [[]]|]].
  - apply rtc_once. eexists Tau, [], _. rewrite app_nil_r. split; [|done].
    apply (P_answer _ _ _ _ _ _ from r); [by rewrite (vw_role _ _ _ _ _ V)|done|]. by apply answers_of_at.
  - split; [done|]. eapply (timely_counts s _ i j m); try done. left.
Qed.

(** The rounds after the acknowledgement, and the requests it confirmed. *)
Lemma acked_rounds s c now rounds confirmed :
  view s c -> _state s = LEADER -> counts c.1 ->
  ack_rounds from (aer_rpc_id r) now (QuorumSize s) (_heartbeat_rounds (_reads s)) = (rounds, confirmed) ->
  view (s <| _reads ::= fun r => r <| _heartbeat_rounds := rounds |> |>) c /\
  forall reqs, confirmed = Some reqs -> answerable reqs c.1.
Proof.
  intros V Hr Ht E. pose proof (ack_rounds_spec from (aer_rpc_id r) now (QuorumSize s) (_heartbeat_rounds (_reads s))) as Hs.
  rewrite E in Hs. destruct Hs as [S1 S2].
  assert (lenient = false -> forall round, round ∈ _heartbeat_rounds (_reads s) -> hr_probe_rpc_ids round !! from = Some (aer_rpc_id r) ->
    {[from]} ∪ hr_acks round ⊆ members /\ exists b, b <= _rpc_sequence s /\
    (forall peer id, hr_probe_rpc_ids round !! peer = Some id -> b < id) /\
    forall req, req ∈ hr_requests round -> exists a, ask_for c.1 req a /\ asked_by me (since (look lead)) b a /\
      forall v, v ∈ {[from]} ∪ hr_acks round -> heard me c.1 a v) as Hround.
  { intros Hl round Hro Ep. destruct (qo_rounds _ _ _ _ _ _ (vw_queue _ _ _ _ _ V Hr Hl) _ Hro) as (Hm & b & Hb & Hp & Hq).
    split; [set_solver|]. exists b. split; [done|]. split; [done|]. intros req Hreq. destruct (Hq req Hreq) as (a & HA & Hby & Hh).
    exists a. split; [done|]. split; [done|]. intros v [->%elem_of_singleton|Hv]%elem_of_union; [|by apply Hh].
    apply (Ht Hl a b); [apply HA|done|by eapply Hp]. }
  split.
  - destruct V. split; cbn; try assumption; [done|]. intros _ Hl. destruct (vw_queue Hr Hl) as [Qu Qr Qp]. split; cbn; [done| |done].
    intros x [Hx|(round & Hro & Ep & Ea & Epr & Hreq)]%S1; [by apply Qr|].
    destruct (Hround Hl round Hro Ep) as (Hm & b & Hb & Hp & Hq). split; [by rewrite Ea|]. exists b. rewrite Ea, Epr.
    split; [done|]. split; [done|]. intros req Hin'. by apply Hq, Hreq.
  - intros reqs Ec. destruct (S2 reqs Ec) as (round & Hro & Ep & -> & Hq'). split; [by rewrite (vw_role _ _ _ _ _ V)|].
    intros Hl req Hreq. destruct (Hround Hl round Hro Ep) as (Hm & b & Hb & Hp & Hq). destruct (Hq req Hreq) as (a & HA & _ & Hh).
    exists a. split; [done|]. exists ({[from]} ∪ hr_acks round). split; [by eapply quorum_majority|done].
Qed.

Lemma calm_AckReadIndexProbe s c :
  view s c -> _state s = LEADER -> timely -> aer_term r = p_term c.1 ->
  calm_at s c (AckReadIndexProbe from (aer_rpc_id r) s).2.
Proof.
  intros V Hr Ht Et. destruct (hear s c V Hr Ht Et) as (c1 & L1 & S1 & V1 & Hc1).
  apply (view_answers _ _ _ _ _) in V1.
  unfold AckReadIndexProbe, Now. rewrite M_bind_unfold, ask_run, M_bind_unfold. cbn [get].
  destruct (ack_rounds _ _ _ _ _) as [rounds confirmed] eqn:E. rewrite M_bind_unfold. unfold on_reads at 1. cbn [modify].
  destruct (acked_rounds _ c1 _ rounds confirmed V1 Hr Hc1 E) as [V2 Hc].
  match type of V2 with view ?x _ => set (s2 := x) in V2 end.
  assert (calm_at s2 c1 ((match confirmed with Some requests => ProcessConfirmedRound requests | None => mret tt end) s2).2) as HC.
  { destruct confirmed as [reqs|]; [|by apply (reflexivity (R := calm))].
    eapply answering_calm; [apply answering_ProcessConfirmedRound|done|by apply Hc]. }
  destruct HC as [Ec (c2 & L2 & Sm & V')]. split; [exact Ec|]. exists c2. split; [by etrans|]. split; [|done].
  unfold same in *. by rewrite Sm, S1.
Qed.
End Ack.

(** * Requests *)

Lemma calm_ReadLeaseValid : evolves calm ReadLeaseValid.
Proof. unfold ReadLeaseValid. calm_auto. Qed.
Lemma calm_reject_read callback error : evolves calm (reject_read callback error).
Proof. unfold reject_read. calm_auto. Qed.
#[local] Hint Resolve calm_ReadLeaseValid calm_reject_read : calm.

(** A lease is only used where leases are enabled. *)
Lemma lease_lenient s c : view s c -> (ReadLeaseValid s).1 = Ok true -> lenient = true.
Proof.
  intros V. unfold ReadLeaseValid. rewrite M_bind_unfold. cbn [get]. destruct (_lease_reads s) eqn:E; [|done]. intros _.
  by apply (vw_lease _ _ _ _ _ V).
Qed.

(** Queueing a request asks for the read. *)
Lemma calm_ask_read callback now s c :
  view s c -> _state s = LEADER -> _can_serve_read (_reads s) = true -> all_told (told_before callback) (seen lead) ->
  calm_at s c (s <| _reads ::= fun r => r <| _unsent_reads ::= fun q => q ++ [MkReadIndexRequest (_commit_index s) callback now] |> |>).
Proof.
  intros V Hr Hs Ht. split; [done|]. set (a := mkInquiry callback (p_commit c.1) (seen lead)).
  exists (c.1 <| p_asks ::= cons a |>, c.2). split; [|split; [by destruct c as [[]]|]].
  { apply rtc_once. eexists Tau, [], _. rewrite app_nil_r. split; [|done].
    apply P_ask; [by rewrite (vw_role _ _ _ _ _ V)|by apply (vw_serve _ _ _ _ _ V)|done]. }
  destruct V. split; cbn; try assumption; [done|..].
  - intros x [->|Hx]%elem_of_cons; [done|by apply vw_asks].
  - intros _ Hl. eapply (queue_ok_later _ _ _ _ _ _ c.1 (c.1 <| p_asks ::= cons a |>)) in vw_queue as [Qu Qr Qp];
      [|done|cbn; by right|done..]. split; cbn; [|done|done].
    intros req [Hin| ->%list_elem_of_singleton]%elem_of_app; [by apply Qu|]. exists a. split; [split; [left|by split]|].
    cbn. intros peer m Hm. apply (vw_requests peer). by left.
Qed.

Lemma ReadLeaseValid_run s :
  exists b, ReadLeaseValid s = (Ok b, s) \/ ReadLeaseValid s = (Ok b, s <| _answers ::= S |>).
Proof.
  unfold ReadLeaseValid. rewrite M_bind_unfold. cbn [get]. destruct (_ || _); [exists false; by left|].
  rewrite M_bind_unfold. unfold Now. rewrite ask_run. destruct (_ <? _); [exists false; by right|].
  destruct (_ <=? 1); eexists; by right.
Qed.

Lemma calm_at_trans s c s1 s2 : calm_at s c s1 -> calm s1 s2 -> calm_at s c s2.
Proof.
  intros [E1 (c1 & L1 & S1 & V1)] HC. destruct (HC c1 V1) as [E2 (c2 & L2 & S2 & V2)]. split; [congruence|].
  exists c2. split; [by etrans|]. split; [|done]. unfold same in *. by rewrite S2, S1.
Qed.

Lemma calm_at_bind {A B} (m : M RaftNode A) (f : A -> M RaftNode B) s c :
  calm_at s c (m s).2 -> (forall a, evolves calm (f a)) -> calm_at s c ((m ≫= f) s).2.
Proof.
  intros Hm Hf. rewrite M_bind_unfold. destruct (m s) as [[a|e] s1]; [|done]. eapply calm_at_trans; [exact Hm|apply Hf].
Qed.

(** A read under a lease, where they are enabled. *)
Lemma calm_lease_read (wait : bool) req s c :
  view s c -> _state s = LEADER -> lenient = true ->
  calm_at s c ((if wait then
                  on_reads (fun r => r <| _pending_reads ::= fun q => q ++ [req] |>);; mret true
                else set_completing true;; complete_read req;; set_completing false;; ProcessPendingReads;; mret true) s).2.
Proof.
  intros V Hr Hl. assert (answerable [req] c.1) as HK by (split; [by rewrite (vw_role _ _ _ _ _ V)|congruence]).
  destruct wait.
  - apply calm_at_bind; [|intros ?; calm_auto]. eapply answering_calm; [apply (answering_push [req]); set_solver|done|done].
  - rewrite M_bind_unfold. unfold set_completing at 1, on_reads. cbn [modify].
    match goal with |- calm_at s c (?m ?x).2 => assert (calm_at x c (m x).2) as [Ec HX]; [|by split] end.
    apply calm_at_bind; [|intros ?; calm_auto]. eapply answering_calm; [apply (answering_complete [req]); [set_solver|by left]| |done].
    match goal with |- view ?x c => apply (view_fewer _ _ _ s c (_reads x)); [done|by split_and!] end.
Qed.

Lemma calm_RequestReadIndex callback :
  all_told (told_before callback) (seen lead) -> evolves calm (RequestReadIndex callback).
Proof.
  intros Ht. unfold RequestReadIndex. apply evolves_bind; [apply _|calm_auto|intros _].
  intros s. rewrite M_bind_unfold. cbn [get]. destruct (IsLeader s) eqn:El; cbn [negb].
  2: { match goal with |- calm s (?m s).2 => enough (evolves calm m) as E by apply E end. calm_auto. }
  apply andb_true_iff in El as [_ Hr%bool_decide_eq_true_1]. destruct (_can_serve_read (_reads s)) eqn:Es; cbn [negb].
  2: { match goal with |- calm s (?m s).2 => enough (evolves calm m) as E by apply E end. calm_auto. }
  destruct (_ <=? _).
  { match goal with |- calm s (?m s).2 => enough (evolves calm m) as E by apply E end. calm_auto. }
  intros c V. rewrite M_bind_unfold. pose proof (lease_lenient s c V) as Hle. destruct (ReadLeaseValid_run s) as (b & E).
  assert (exists s1, ReadLeaseValid s = (Ok b, s1) /\ view s1 c /\ core s1 = core s /\ _reads s1 = _reads s) as (s1 & E1 & V1 & Ec & Er).
  { destruct E as [E|E]; rewrite E; eexists; (split; [done|]); [done|]. split; [by apply view_answers|done]. }
  rewrite E1 in Hle |- *. cbn [fst] in Hle.
  assert (_state s1 = LEADER /\ _commit_index s1 = _commit_index s) as [Hr1 Eco] by (injection Ec; by repeat split; congruence).
  destruct b.
  - specialize (Hle eq_refl).
    rewrite M_bind_unfold. unfold on_reads at 1. cbn [modify]. rewrite M_bind_unfold. unfold Now. rewrite ask_run.
    match goal with |- context [MkReadIndexRequest ?i ?cb ?t] => set (req := MkReadIndexRequest i cb t) end.
    match goal with |- calm_at s c (?m ?x).2 => assert (calm_at x c (m x).2) as [Ec2 HX]; [|split; [by rewrite Ec2|done]] end.
    apply calm_lease_read; [|done|done]. apply view_answers.
    match goal with |- view ?x c => apply (view_fewer _ _ _ s1 c (_reads x)); [done|by split_and!] end.
  - rewrite M_bind_unfold. unfold Now. rewrite ask_run. rewrite M_bind_unfold. unfold on_reads at 1. cbn [modify].
    set (s2 := s1 <| _answers ::= S |>). set (now := env_clock _).
    pose proof (calm_ask_read callback now s2 c (view_answers _ _ _ _ _ V1) Hr1 ltac:(cbn; congruence) Ht) as HA.
    cbn [s2] in HA. rewrite <- Eco.
    match goal with |- calm_at s c (?m ?x).2 => assert (calm_at s2 c (m x).2) as [Ec2 HX]; [|split; [rewrite Ec2; done|done]] end.
    eapply calm_at_trans; [exact HA|].
    match goal with |- calm ?y (?m ?x).2 => change y with x; enough (evolves calm m) as E' by apply E' end. calm_auto.
Qed.
End NodeReads.

#[export] Hint Resolve leader_BroadcastAppendEntries : leader.
#[export] Hint Resolve calm_FinishReadIndexRounds calm_ProcessPendingReads : calm.
