(* ===== verification/NodeApply.v ===== *)
(** Applying committed entries, compaction and commitment, as runs of the
    protocol: [steadily m] says that [m] performs protocol actions that keep the
    term, the vote, the role and the log, and only advance the commit index. *)
From stdpp Require Import base numbers strings gmap list.
From S2P Require Import Prelude Effects Storage Messages RaftLog LogSpec LogProofs LogRecovery.
From S2P Require Import Text Resp Command KVStore KVStateMachine KVProofs KVTheorems KVReplay Metrics Peers RaftState RaftNode RaftProtocol ProtocolSafety NodeView NodeCalm NodeReads.

(** * Writing the log *)

Section NodeApply.
Context `{RocksDBSpec} `{LogEntryCodecSpec} `{!Env} {asks : Requests}.
Context (members : gset Z) (me : Z) (box : option (Z * Message)) (lead : outside).
Abbreviation calm := (calm members me box lead).
Abbreviation view := (view members me (look lead)).
Abbreviation local := (local members me box lead).
Abbreviation crashed := (crashed members me (look lead)).
Abbreviation tri := (tri members me box lead).

Lemma local_sent c c' e : local c c' -> e ∈ c.2 -> e ∈ c'.2.
Proof.
  induction 1 as [|c1 c2 c3 (ev & out & p' & _ & ->) _ IH]; [done|]. intros He. apply IH. cbn. set_solver.
Qed.

Lemma crashed_db s s' c :
  crashed s c -> _db (_log s') = _db (_log s) -> store_db (_sm s') = store_db (_sm s) ->
  spoken me (seen lead) (_trace s') c.2 -> crashed s' c.
Proof. intros [D _] El Es Ht. split; [by rewrite El, Es|done]. Qed.

Lemma view_relog s c a l :
  view s c -> log_repr s c.1 a -> Repr l a -> view (s <| _log := l |>) c.
Proof. intros [] HR Hl. split; cbn; try assumption. exists a. split; [exact Hl|apply HR]. Qed.

Lemma with_cache db a : stored (contents db) a -> exists l, _db l = db /\ Repr l a.
Proof.
  intros Hs. exists (mkRaftLog db (a_last_index a) (a_last_term a) (a_snap_index a) (a_snap_term a) (a_snap_data a)).
  by split.
Qed.

(** A write of the log that [g] then completes is one step: it happened or not. *)
Lemma write_outcome m g s c a a' c' :
  view s c -> log_repr s c.1 a -> implements m (_log s) a a' -> local c c' ->
  (forall l, Repr l a' -> view (g (s <| _log := l |>)) c') ->
  (forall s, _log (g s) = _log s /\ _sm (g s) = _sm s /\ answers (_trace (g s)) = answers (_trace s)) ->
  match on_log m s with
  | (Ok _, s') => exists l, Repr l a' /\ s' = s <| _log := l |>
  | (Err _, s') => exists c'', local c c'' /\ crashed s' c''
  end.
Proof.
  intros V HR Hm L Hv Hg. unfold implements in Hm. unfold on_log, lens. destruct (m (_log s)) as [[u|e] l].
  { exists l. split; [apply Hm|done]. }
  destruct Hm as (_ & _ & [Hs|Hs]); destruct (with_cache _ _ Hs) as (l' & Ed & Hr).
  - exists c. split; [apply rtc_refl|]. eapply (crashed_db (s <| _log := l' |>)); [|cbn; congruence|done|apply V].
    eapply view_crashed, view_relog; done.
  - exists c'. split; [done|]. specialize (Hv l' Hr). destruct (Hg (s <| _log := l' |>)) as (E1 & E2 & Ht).
    eapply (crashed_db (g (s <| _log := l' |>))); [by eapply view_crashed|by rewrite E1; cbn|by rewrite E2|].
    destruct (vw_trace _ _ _ _ _ Hv) as [_ Sn Ex]. cbn. split; [|done|].
    + intros x Hx. eapply local_sent; [done|]. by apply (vw_trace _ _ _ _ _ V).
    + rewrite Ex. f_equal. exact Ht.
Qed.

Lemma tri_write m P Q :
  (forall s c, view s c -> P s c ->
     exists a a' c', log_repr s c.1 a /\ implements m (_log s) a a' /\ local c c' /\
       forall l, Repr l a' -> view (s <| _log := l |>) c' /\ Q tt (s <| _log := l |>) c') ->
  tri P (on_log m) Q.
Proof.
  intros Hm s c V HP. destruct (Hm s c V HP) as (a & a' & c' & HR & Hi & L & Hv).
  pose proof (write_outcome m id s c a a' c' V HR Hi L) as HW.
  destruct (on_log m s) as [[[]|e] s'].
  - destruct HW as (l & Hr & ->); [intros l Hl; by apply Hv|done|]. exists c'. split; [done|by apply Hv].
  - apply HW; [intros l Hl; by apply Hv|done].
Qed.

(** * Steady code *)

Definition steady (c c' : conf) : Prop :=
  c'.1 = c.1 <| p_commit := p_commit c'.1 |> <| p_applied := p_applied c'.1 |> <| p_seq := p_seq c'.1 |>
    <| p_asks := p_asks c'.1 |> <| p_answers := p_answers c'.1 |> /\
  p_commit c.1 <= p_commit c'.1.

#[export] Instance steady_preorder : PreOrder steady.
Proof.
  split; [intros [[] ?]; by split|]. intros c1 c2 c3 [E1 ?] [E2 ?]. split; [|lia]. rewrite E2, E1. done.
Qed.

(** From any representation satisfying [P]. *)
Definition steadily {A} (P : RaftNode -> conf -> Prop) (m : M RaftNode A) : Prop :=
  forall c0, tri (fun s c => steady c0 c /\ P s c) m (fun _ _ c => steady c0 c).

Lemma same_steady c c' : same c.1 c'.1 -> steady c c'.
Proof. unfold same. intros Hs. split; rewrite Hs; [by destruct c as [[]]|]. done. Qed.

Lemma tri_steady {A} P0 P (m : M RaftNode A) Q :
  steadily P m -> (forall s c, view s c -> P0 s c -> P s c) ->
  (forall a s c s' c', view s c -> P0 s c -> view s' c' -> steady c c' -> Q a s' c') -> tri P0 m Q.
Proof.
  intros Hm HP HQ s c V H0'. specialize (Hm c s c V (conj (reflexivity c) (HP s c V H0'))).
  destruct (m s) as [[a|e] s']; [|done]. destruct Hm as (c' & L & V' & S'). exists c'. split; [done|]. split; [done|].
  by apply (HQ a s c).
Qed.

(** * Reading and compacting *)

Lemma tri_pure {A} (m : M RaftNode A) P : (forall s, (m s).2 = s) -> tri P m (fun _ => P).
Proof.
  intros Hm s c V HP. specialize (Hm s). destruct (m s) as [[x|e] s']; cbn in Hm; subst s'; exists c;
    (split; [apply rtc_refl|]); [done|by eapply view_crashed].
Qed.

Lemma on_log_reads {A} (m : M RaftLog A) : (forall l, (m l).2 = l) -> forall s, (on_log m s).2 = s.
Proof. intros Hm s. specialize (Hm (_log s)). unfold on_log, lens. destruct (m (_log s)) as [r l]. cbn in *. subst. by destruct s. Qed.

Lemma calm_GetTerm i : evolves calm (on_log (GetTerm i)).
Proof. apply calm_pure, on_log_reads, GetTerm_pure. Qed.

(** The term read at an index is the one of some representation of the log. *)
Definition read_at (i t : Z) (s : RaftNode) (c : conf) : Prop :=
  exists a, log_repr s c.1 a /\ t = a_term a i.

Lemma tri_GetTerm i P :
  (forall s c, view s c -> P s c -> 0 <= i) -> tri P (on_log (GetTerm i)) (fun t s c => P s c /\ read_at i t s c).
Proof.
  intros Hi s c V HP. destruct (read_term members me lead s c i V (Hi s c V HP)) as (a & HR & [E|[e E]]); rewrite E; exists c;
    (split; [apply rtc_refl|]); [|by eapply view_crashed]. split; [done|]. split; [done|]. by exists a.
Qed.

(** A positive term shows the entry is there. *)
Lemma read_at_known i t s c :
  read_at i t s c -> 0 <= i -> 0 <= t -> term_at (p_log c.1) i = t /\ i <= #(p_log c.1).
Proof.
  intros (a & HR & ->) Hi Ht. destruct (log_view_known a (p_log c.1) i (a_term a i)); try done; [apply HR|by eapply snap_nonneg|].
  split; [done|lia].
Qed.

(** * Entries to apply *)

(** No batch is with the executor. *)
Definition idle (s : RaftNode) : Prop := _apply_inflight s = false.

Lemma idle_settled s c : view s c -> idle s -> sm_settled s.
Proof. intros V Hi w e Hw. destruct (vw_work _ _ _ _ _ V w Hw) as [Ht _]. unfold idle in Hi. congruence. Qed.

Lemma view_well_formed s c : view s c -> well_formed (p_log c.1).
Proof. intros V. apply Forall_lookup. intros j e Hj. by apply (vw_entries _ _ _ _ _ V j). Qed.

Lemma well_formed_upto L i : well_formed L -> well_formed (upto L i).
Proof. apply Forall_take. Qed.

Lemma tri_export P :
  (forall s c, P s c -> idle s) ->
  tri P (on_sm ExportSnapshot) (fun d s c => P s c /\ snapshot_of (upto (p_log c.1) (_last_applied s)) d).
Proof.
  intros HP s c V Ps. pose proof (HP s c Ps) as Hi. destruct (vw_sm _ _ _ _ _ V) as (sm & _ & _ & _ & _ & HD & E).
  rewrite (E (idle_settled s c V Hi)) in HD. rewrite <- (vw_idle _ _ _ _ _ V Hi) in HD. pose proof (export_replays _ _ HD) as HE.
  unfold on_sm, lens. destruct (ExportSnapshot (_sm s)) as [[d|e] sm']; [destruct HE as [-> Hd]|subst sm'];
    (replace (s <| _sm := _sm s |>) with s by (by destruct s)); exists c; (split; [apply rtc_refl|]); [done|by eapply view_crashed].
Qed.

Lemma steadily_MaybeSnapshot : steadily (fun _ _ => True) MaybeSnapshot.
Proof.
  intros c0. unfold MaybeSnapshot. apply tri_get. intros s0. cbn zeta.
  assert (tri (fun s c => s = s0 /\ steady c0 c /\ True) (mret tt) (fun _ _ c => steady c0 c)) as Hret
    by (apply tri_ret; by intros s c (_ & ? & _)).
  apply tri_if; intros Hg; [done|]. apply tri_if; intros Hs; [done|apply Z.leb_gt in Hs]. apply tri_if; intros _; [done|].
  apply orb_false_iff in Hg as [[_ Hidle]%orb_false_iff _].
  set (i := _last_applied s0) in *.
  eapply tri_bind.
  { apply tri_GetTerm. intros s c V [-> _]. pose proof (vw_last _ _ _ _ _ V). lia. }
  intros t. apply tri_if; intros Ht; [apply tri_ret; by intros s c [(_ & ? & _) _]|apply Z.leb_gt in Ht].
  eapply tri_bind; [apply tri_export; by intros s c [(-> & _) _]|]. intros d. cbn beta.
  apply tri_bind with (fun _ s c => steady c0 c /\ read_at i t s c /\ _last_applied s = i /\ _snapshot_index (_log s) < i /\
    snapshot_of (upto (p_log c.1) i) d).
  { apply tri_modify. intros s c V [[(-> & S0 & _) HR] Hd]. exists c. split; [apply rtc_refl|].
    split; [destruct V; split; cbn; assumption|]. split; [done|].
    split; [destruct HR as (a & HR & E); by exists a|]. split; [done|]. split; [exact Hs|exact Hd]. }
  intros _. apply tri_if; intros Hd; [|apply Z.ltb_ge in Hd].
  { apply tri_calm; [auto with calm|]. intros _ s s' c c' V (S0 & _) _ Sm. etrans; [done|by apply same_steady]. }
  apply tri_write. intros s c V (S0 & HT & Ea & Hsi & Hsn).
  pose proof (read_at_known _ _ _ _ HT ltac:(pose proof (vw_last _ _ _ _ _ V); lia) ltac:(lia)) as [El Hl].
  destruct HT as (a & HR & Et). pose proof HR as (R & Ei & LV & HV & _). pose proof (c_snap_index _ _ (proj1 R)) as Esi.
  pose proof (snap_nonneg _ _ _ HR). pose proof (lv_length _ _ LV).
  exists a, (a_snapshot true i t d a), c. split; [done|]. split; [apply CompactApplied_implements; (done || lia)|].
  split; [apply rtc_refl|]. intros l Hr. split; [|done]. destruct V. split; cbn; try assumption.
  exists (a_snapshot true i t d a). split; [done|]. split; [done|]. split; [apply log_view_keep; (done || lia)|].
  split; [exact HV|cbn; lia].
Qed.

(** * Applying *)

(** The commands gathered are those of consecutive committed entries. *)
Lemma gather_commands_spec fuel i commands n s c :
  view s c -> 0 < i ->
  match gather_commands fuel i commands n s with
  | (Ok (commands', _), s') => s' = s /\ exists es, commands' = commands ++ (command <$> es) /\
      (es = [] \/ i - 1 + #es <= p_commit c.1) /\
      (commands = [] -> fuel <> O -> i <= p_commit c.1 -> es <> []) /\
      upto (p_log c.1) (i - 1 + #es) = upto (p_log c.1) (i - 1) ++ es
  | (Err _, s') => s' = s
  end.
Proof.
  intros V. rewrite (vw_commit _ _ _ _ _ V).
  assert (forall i commands (P : Prop), P -> exists es, commands = commands ++ (command <$> es) /\
    (es = [] \/ i - 1 + #es <= _commit_index s) /\ P /\
    upto (p_log c.1) (i - 1 + #es) = upto (p_log c.1) (i - 1) ++ es) as Hstop.
  { intros j cs P HP. exists []. cbn. by rewrite !app_nil_r, Z.add_0_r; auto. }
  assert (forall i cs fuel, (cs = [] -> fuel = O \/ _commit_index s < i) -> exists es, cs = cs ++ (command <$> es) /\
    (es = [] \/ i - 1 + #es <= _commit_index s) /\ (cs = [] -> fuel <> O -> i <= _commit_index s -> es <> []) /\
    upto (p_log c.1) (i - 1 + #es) = upto (p_log c.1) (i - 1) ++ es) as Hstop'.
  { intros j cs k Hk. exists []. cbn. rewrite !app_nil_r, Z.add_0_r. split; [done|]. split; [by left|]. split; [|done].
    intros Ecs Hf Hj. destruct (Hk Ecs); [done|lia]. }
  clear Hstop. revert i commands n. induction fuel as [|fuel IH]; intros i commands n Hi; [split; [done|]; apply Hstop'; by left|].
  cbn [gather_commands]. run. destruct (Z.ltb_spec (_commit_index s) i) as [|Hle]; [split; [done|]; apply Hstop'; by right|].
  destruct (read_entry members me lead s c i V) as (a & HR & [E|[e E]]); rewrite M_bind_unfold, E; [|done].
  pose proof (snap_nonneg _ _ _ HR). destruct HR as (_ & _ & LV & _).
  destruct (a_entry a i) as [e|] eqn:Ee; [|done].
  assert (a_snap_index a < i) as Hsi by (apply a_entry_inv in Ee; lia).
  rewrite (log_view_entry _ _ _ LV) in Ee by done.
  assert (upto (p_log c.1) i = upto (p_log c.1) (i - 1) ++ [e]) as Eup.
  { unfold upto. replace (Z.to_nat i) with (S (Z.to_nat (i - 1))) by lia. by apply take_S_r. }
  destruct (_ <? _); [done|]. case_bool_decide as Ecs; cbn [negb andb].
  all: try (destruct (_ || _); [split; [done|]; by apply Hstop'|]).
  all: destruct (Z.eqb_spec i (_commit_index s)).
  all: try (split; [done|]; exists [e]; split; [done|]; change (Z.of_nat (length [e])) with 1;
            replace (i - 1 + 1) with i by lia; split; [right; lia|]; by split).
  all: specialize (IH (i + 1) (commands ++ [command e]) (n + #(command e)) ltac:(lia));
    destruct (gather_commands fuel (i + 1) _ _ s) as [[[cs n']|x] s']; [|done];
    destruct IH as (-> & es & -> & Hn & _ & EU); split; [done|]; exists (e :: es);
    split; [by rewrite <- app_assoc|]; cbn [length];
    replace (i - 1 + Z.of_nat (S (length es))) with (i + 1 - 1 + #es) by lia;
    split; [right; destruct Hn as [->|]; cbn; lia|]; split; [done|];
    rewrite EU; replace (i + 1 - 1) with i by lia; by rewrite Eup, <- app_assoc.
Qed.

Lemma local_apply c n : p_applied c.1 <= n <= p_commit c.1 -> local c (c.1 <| p_applied := n |>, c.2).
Proof.
  intros Hn. apply rtc_once. exists Tau, [], (c.1 <| p_applied := n |>). rewrite app_nil_r. split; [by apply P_apply|done].
Qed.

Lemma steady_applied c n : steady c (c.1 <| p_applied := n |>, c.2).
Proof. split; [by destruct c as [[]]|done]. Qed.

(** The entries [es] are the next to apply, and committed. *)
Definition batch_ready (first : Z) (es : list LogEntry) (s : RaftNode) (c : conf) : Prop :=
  es <> [] /\ first = _last_applied s + 1 /\ _last_applied s + #es <= p_commit c.1 /\
  upto (p_log c.1) (_last_applied s + #es) = upto (p_log c.1) (_last_applied s) ++ es.

Lemma batch_outcome first es s c :
  view s c -> sm_settled s -> p_applied c.1 = _last_applied s -> batch_ready first es s c ->
  match sm_ApplyBatch first (command <$> es) (_sm s) with
  | (Ok rs, sm) => synced sm /\ store_last_applied sm = _last_applied s + #es /\
      same_data (kv sm) (replay (upto (p_log c.1) (_last_applied s + #es))) /\
      rs = replies (upto (p_log c.1) (_last_applied s)) es
  | (Err _, sm) => exists n, _last_applied s <= n <= p_commit c.1 /\ stored_applied sm n /\
      same_data (kv sm) (replay (upto (p_log c.1) n))
  end.
Proof.
  intros V St Ep (Hne & -> & Hc & EU). destruct (vw_sm _ _ _ _ _ V) as (sm0 & _ & Hs & Ea & _ & HD & E). rewrite (E St) in Hs, Ea, HD.
  rewrite Ep in Ea, HD. pose proof (view_well_formed s c V) as W. pose proof (well_formed_upto _ (_last_applied s) W) as WP.
  assert (well_formed es) as We by (apply (well_formed_upto _ (_last_applied s + #es)) in W; rewrite EU in W; by apply Forall_app in W as [_ ?]).
  pose proof (apply_replays (_last_applied s + 1) _ es (_sm s) Hs HD WP We Hne) as HA. rewrite <- Ea, <- EU in HA.
  destruct (sm_ApplyBatch _ _ (_sm s)) as [[rs|e] sm]; [by destruct HA as (? & ? & _ & ? & ?)|].
  pose proof (vw_last _ _ _ _ _ V). pose proof (vw_commit _ _ _ _ _ V).
  destruct HA as [[? ?]|(? & _ & ?)]; eexists; (split; [|split; [eassumption|done]]); lia.
Qed.

(** A failed batch leaves a recoverable state. *)
Lemma applied_crashed s c sm n :
  view s c -> stored_applied sm n -> same_data (kv sm) (replay (upto (p_log c.1) n)) -> _last_applied s <= n <= p_commit c.1 ->
  crashed (s <| _sm := sm |>) (c.1 <| p_applied := n |>, c.2).
Proof.
  intros V Hs HD Hn. destruct (view_crashed _ _ _ s c V) as [[_ _ D3 D4 D5 D6 _] Ht]. pose proof (vw_bound _ _ _ _ _ V).
  destruct (vw_log _ _ _ _ _ V) as (a & R & Ei & LV & HV & Hsa). pose proof (vw_commit _ _ _ _ _ V). pose proof (vw_term _ _ _ _ _ V) as Et.
  split; [|exact Ht]. split; cbn; try done; [| |lia].
  - exists a. split; [apply stored_recoverable, R|]. unfold settled. rewrite Ei. split; [done|]. split; [done|]. split; [|lia].
    apply (last_term_bound a (p_log c.1)); [apply R|done|done|lia].
  - by exists (mkRocksDBStore (store_db sm) n).
Qed.

#[local] Hint Resolve calm_GetTerm : calm.

(** The object right after a batch was applied without the executor. *)
Lemma view_finished s c sm n :
  view s c -> idle s -> synced sm -> store_last_applied sm = n -> same_data (kv sm) (replay (upto (p_log c.1) n)) ->
  _last_applied s <= n <= p_commit c.1 ->
  view (s <| _sm := sm |> <| _last_applied := n |>) (c.1 <| p_applied := n |>, c.2).
Proof.
  intros V Hi Hs En HD Hn. pose proof (vw_commit _ _ _ _ _ V). pose proof (vw_last _ _ _ _ _ V).
  assert (_apply_work s = None) as Hw.
  { destruct (_apply_work s) as [w|] eqn:Ew; [|done]. destruct (vw_work _ _ _ _ _ V w Ew) as [Ht _]. unfold idle in Hi. congruence. }
  destruct V. split; cbn; try assumption; try done; try lia.
  - exists sm. split_and!; try done; lia.
  - intros w. by rewrite Hw.
  - destruct vw_log as (a & ? & ? & ? & ? & ?). exists a. repeat (split; [assumption|]). cbn. lia.
  - keep_queue.
Qed.

(** [r] is the reply to the entry at index [i] of the log. *)
Definition reply_at (L : list LogEntry) (i : Z) (r : bytes) : Prop :=
  exists e, L !! Z.to_nat (i - 1) = Some e /\ replies (upto L (i - 1)) [e] = [r].

Lemma batch_replies L a es k r :
  well_formed L -> 0 <= a -> a + #es <= #L -> upto L (a + #es) = upto L a ++ es -> replies (upto L a) es !! k = Some r ->
  reply_at L (a + 1 + Z.of_nat k) r.
Proof.
  intros W Ha Hl EU Hr. assert (well_formed es) as We.
  { apply (well_formed_upto _ (a + #es)) in W. rewrite EU in W. by apply Forall_app in W as [_ ?]. }
  assert (k < length es)%nat as Hk.
  { apply lookup_lt_Some in Hr. unfold replies in Hr. by rewrite kv_run_length, commands_of_length in Hr. }
  destruct (lookup_lt_is_Some_2 es k Hk) as [e He]. pose proof (take_drop_middle es k e He) as Es.
  pose proof (length_upto L a ltac:(lia)) as Hla.
  assert (upto L (a + Z.of_nat k) = upto L a ++ take k es) as EUk.
  { rewrite <- (upto_upto L (a + Z.of_nat k) (a + #es)), EU by lia. unfold upto at 1. rewrite take_app.
    f_equal; [rewrite take_ge; [done|lia]|]. f_equal. lia. }
  exists e. replace (a + 1 + Z.of_nat k - 1) with (a + Z.of_nat k) by lia. split.
  - apply (prefix_lookup_Some (upto L (a + #es))); [|apply upto_prefix]. rewrite EU, lookup_app_r by lia. rewrite <- He. f_equal. lia.
  - assert (length (replies (upto L a ++ take k es) [e]) = 1%nat) as Hone.
    { unfold replies. rewrite kv_run_length, commands_of_length; [done|]. rewrite <- Es in We. apply Forall_app in We as [_ We].
      apply Forall_cons in We as [? _]. by constructor. }
    rewrite EUk. rewrite <- Es in Hr, We. pose proof (replies_lookup (upto L a) (take k es) e (drop (S k) es) We) as HL.
    rewrite length_take_le in HL by lia. rewrite HL in Hr. destruct (replies (upto L a ++ take k es) [e]) as [|x [|]]; try done.
    cbn in Hr. congruence.
Qed.

(** The command of callback [cb] is committed, and [r] is its reply. *)
Definition acked (x : nat * bytes) (p : pnode) : Prop :=
  exists i e, p_role p = LEADER /\ term e = p_term p /\ 0 < i <= p_commit p /\ p_log p !! Z.to_nat (i - 1) = Some e /\ command e = command_of x.1 /\
    replies (upto (p_log p) (i - 1)) [e] = [x.2].

(** What is known while the callbacks of applied proposals are answered. *)
Definition finishing (n : Z) (b : bool) (w : option ApplyWork) (c0 : conf) (s : RaftNode) (c : conf) : Prop :=
  (steady c0 c /\ _apply_inflight s = b /\ _apply_work s = w) /\ n <= p_commit c.1 /\ _last_applied s = p_applied c.1.

Lemma calm_finishing {A} (m : M RaftNode A) n b w c0 (cbs : list (nat * bytes)) :
  evolves calm m ->
  tri (fun s c => finishing n b w c0 s c /\ Forall (fun x => acked x c.1) cbs) m
    (fun _ s c => finishing n b w c0 s c /\ Forall (fun x => acked x c.1) cbs).
Proof.
  intros Hm. apply tri_calm; [done|]. intros _ s s' c c' V (((S0 & Hi & Hw) & Hn & Ha) & Hcb) Ec Sm. injection Ec as _ _ _ Ew Ei _ _ _ _ _ _ _ El _ _.
  split; [split|].
  - split; [etrans; [done|by apply same_steady]|]. split; congruence.
  - rewrite Sm. cbn. split; [done|congruence].
  - eapply Forall_impl; [exact Hcb|]. intros x Hx. unfold acked. by rewrite Sm.
Qed.

Lemma tri_take_pending first results n b w c0 cbs :
  first + #results - 1 <= n -> (forall k r, results !! k = Some r -> reply_at (p_log c0.1) (first + Z.of_nat k) r) ->
  tri (fun s c => finishing n b w c0 s c /\ Forall (fun x => acked x c.1) cbs) (take_pending first results)
    (fun taken s c => finishing n b w c0 s c /\ Forall (fun x => acked x c.1) (cbs ++ taken)).
Proof.
  revert first cbs. induction results as [|result results IH]; intros first cbs Hn Hres; cbn [take_pending].
  { apply tri_ret. intros s c HI. by rewrite app_nil_r. }
  rewrite length_cons in Hn. apply tri_get. intros s0.
  apply tri_bind with (fun taken s c => finishing n b w c0 s c /\ Forall (fun x => acked x c.1) (cbs ++ taken)).
  - destruct (_pending s0 !! first) as [pd|] eqn:Ep; [|apply tri_ret; intros s c [_ HI]; by rewrite app_nil_r].
    set (taken := match pd_callback pd with Some cb => [(cb, result)] | None => [] end).
    apply tri_bind with (fun _ s c => finishing n b w c0 s c /\ Forall (fun x => acked x c.1) (cbs ++ taken)); [|intros []; by apply tri_ret].
    eapply tri_conseq; [apply (calm_finishing _ n b w c0 (cbs ++ taken)), calm_drop_pending| |done].
    intros s c V (-> & HF & Hcb). split; [done|]. apply Forall_app. split; [done|]. unfold taken.
    destruct (pd_callback pd) as [cb|] eqn:Ec; [|constructor]. repeat constructor.
    destruct (vw_pending _ _ _ _ _ V first pd Ep) as (Hld & Hf & He). destruct (He cb Ec) as (e & El & Ee & Et).
    destruct HF as (((S0 & _) & _) & Hc & _). exists first, e. split; [by rewrite (vw_role _ _ _ _ _ V)|]. split; [done|]. split; [lia|]. split; [done|]. split; [done|]. cbn [snd].
    destruct (Hres 0%nat result eq_refl) as (e' & El' & Hr). rewrite Z.add_0_r in El', Hr. rewrite S0 in El |- *. cbn in El |- *. congruence.
  - intros taken. cbn beta. apply tri_bind with (fun rest s c => finishing n b w c0 s c /\ Forall (fun x => acked x c.1) ((cbs ++ taken) ++ rest)).
    + apply IH; [lia|]. intros k r Hk. replace (first + 1 + Z.of_nat k) with (first + Z.of_nat (S k)) by lia. by apply Hres.
    + intros rest. apply tri_ret. intros s c. by rewrite app_assoc.
Qed.

Lemma tri_replies n b w c0 (cbs : list (nat * bytes)) :
  tri (fun s c => finishing n b w c0 s c /\ Forall (fun x => acked x c.1) cbs)
    (for_each cbs (fun cb => emit (ProposeReply cb.1 true cb.2))) (fun _ s c => finishing n b w c0 s c).
Proof.
  eapply tri_conseq; [apply (tri_for_each _ _ _ _ cbs _ (fun s c => finishing n b w c0 s c /\ Forall (fun x => acked x c.1) cbs))|done|by intros _ s c _ [? _]].
  intros x Hx s c V [HF Hcb]. exists (c.1, c.2 ++ [ProposeReply x.1 true x.2]). split; [|split; [by apply view_emit; [|apply untracked_sendable]|done]].
  rewrite Forall_forall in Hcb. destruct (Hcb x Hx) as (i & e & Hr & Et & Hi & El & Ee & Er).
  apply rtc_once. exists Tau, [ProposeReply x.1 true x.2], c.1. split; [by apply (P_reply _ _ _ _ _ _ _ _ i e)|done].
Qed.

(** [FinishApply] once the applied index is recorded. *)
Definition finish_rest (first count : Z) (results : list bytes) (work_us bytes dispatch_us : Z) : M RaftNode unit :=
  on_stats (fun st => st <| _apply_batches ::= Z.succ |> <| _kv_apply ::= batch_Observe work_us count bytes |>
                        <| _apply_dispatch ::= latency_Observe dispatch_us |>);;
  s ← get;
  when (bool_decide (_state s = LEADER) && negb (_can_serve_read (_reads s)) && (0 <? _commit_index s))
    (term ← on_log (GetTerm (_commit_index s));
     when (term =? _current_term s) (on_reads (fun r => r <| _can_serve_read := true |>)));;
  ProcessPendingReads;;
  callbacks ← take_pending first results;
  for_each callbacks (fun cb => emit (ProposeReply cb.1 true cb.2)).

Lemma FinishApply_run first count results work_us nbytes dispatch_us s :
  FinishApply first count results work_us nbytes dispatch_us s =
    if negb (first =? _last_applied s + 1) || negb (#results =? count)
    then (Err (runtime_error "out-of-order state machine completion"), s)
    else finish_rest first count results work_us nbytes dispatch_us (s <| _last_applied ::= Z.add count |>).
Proof. unfold FinishApply. rewrite M_bind_unfold. cbn [get]. by destruct (_ || _). Qed.

(** A leader serves reads once it has committed an entry of its term. *)
Lemma tri_serve s1 (I : RaftNode -> conf -> Prop) :
  (forall s c r, I s c -> I (s <| _reads := r |>) c) ->
  tri (fun s c => s = s1 /\ I s c)
    (when (bool_decide (_state s1 = LEADER) && negb (_can_serve_read (_reads s1)) && (0 <? _commit_index s1))
       (term ← on_log (GetTerm (_commit_index s1));
        when (term =? _current_term s1) (on_reads (fun r => r <| _can_serve_read := true |>)))) (fun _ => I).
Proof.
  intros HI. apply tri_when; intros Hg; [|by intros s c _ [_ ?]]. apply andb_true_iff in Hg as [Hg Hc%Z.ltb_lt].
  eapply tri_bind; [apply tri_GetTerm; lia|]. intros t. apply tri_when; intros Ht; [|by intros s c _ [[_ ?] _]].
  apply Z.eqb_eq in Ht. apply tri_modify. intros s c V [[-> HIs] HR]. exists c. split; [apply rtc_refl|]. split; [|by apply HI].
  pose proof (vw_term_range _ _ _ _ _ V). destruct (read_at_known _ _ _ _ HR ltac:(lia) ltac:(lia)) as [E _].
  apply andb_true_iff in Hg as [Hld%bool_decide_eq_true_1 _].
  destruct V. split; cbn; try assumption; [|intros _; split; congruence]. intros Hr Hl. by destruct (vw_queue Hr Hl).
Qed.

Lemma tri_finish_rest first count results work_us nbytes dispatch_us n b w c0 :
  first + #results - 1 <= n -> (forall k r, results !! k = Some r -> reply_at (p_log c0.1) (first + Z.of_nat k) r) ->
  tri (finishing n b w c0) (finish_rest first count results work_us nbytes dispatch_us) (fun _ => finishing n b w c0).
Proof.
  intros Hn Hres. unfold finish_rest.
  set (I := fun s c => finishing n b w c0 s c /\ Forall (fun x : nat * bytes => acked x c.1) []).
  assert (forall A (m : M RaftNode A), evolves calm m -> tri I m (fun _ => I)) as Hcalm by (intros A m Hm; by apply calm_finishing).
  apply tri_bind with (fun _ => I); [eapply tri_conseq; [apply Hcalm; calm_auto|by intros s c _ HF; split; [|constructor]|done]|].
  intros []. apply tri_get. intros s1.
  apply tri_bind with (fun _ => I); [by apply tri_serve|]. intros [].
  eapply tri_bind; [apply Hcalm; calm_auto|]. intros [].
  eapply tri_bind; [apply (tri_take_pending first results n b w c0 []); done|]. intros cbs. apply tri_replies.
Qed.

Lemma crashed_storage_failed s c :
  crashed s c -> match storage_failed s with (_, s') => exists c', local c c' /\ crashed s' c' end.
Proof. intros C. exists c. split; [apply rtc_refl|exact C]. Qed.

Lemma tri_apply_batch first es nbytes started c0 :
  tri (fun s c => (steady c0 c /\ idle s) /\ batch_ready first es s c)
    (on_exception
       (results ← on_sm (sm_ApplyBatch first (command <$> es));
        finished ← Now;
        FinishApply first #(command <$> es) results (ElapsedMicros started finished) nbytes 0)
       storage_failed)
    (fun _ s c => steady c0 c /\ idle s).
Proof.
  apply tri_on_exception; [|apply crashed_storage_failed]. intros s c V ((S0 & Hi) & Hb).
  pose proof (batch_outcome first es s c V (idle_settled s c V Hi) (symmetry (vw_idle _ _ _ _ _ V Hi)) Hb) as HB.
  pose proof (vw_last _ _ _ _ _ V) as Hla. pose proof (vw_commit _ _ _ _ _ V) as Eco. pose proof (vw_bound _ _ _ _ _ V) as Hbd.
  pose proof (vw_idle _ _ _ _ _ V Hi) as Hid. rewrite M_bind_unfold. unfold on_sm, lens. destruct (sm_ApplyBatch first _ (_sm s)) as [[rs|e] sm].
  - destruct HB as (Hs & En & HD & Er). destruct Hb as (Hne & Ef & Hc & EU).
    rewrite M_bind_unfold. unfold Now. rewrite ask_run, FinishApply_run. set (n := _last_applied s + #es) in *.
    assert (#rs = #(command <$> es)) as Hrl.
    { rewrite Er, length_fmap. unfold replies. rewrite kv_run_length, commands_of_length; [done|].
      pose proof (well_formed_upto _ n (view_well_formed s c V)) as W. rewrite EU in W. by apply Forall_app in W as [_ ?]. }
    rewrite Hrl, (Z.eqb_refl #(command <$> es)). cbn -[finish_rest Z.of_nat]. destruct (Z.eqb_spec first (_last_applied s + 1)); [|done]. cbn [negb orb].
    set (c1 := (c.1 <| p_applied := n |>, c.2) : conf). match goal with |- context [finish_rest _ _ _ ?us _ _ ?x] => set (s1 := x); set (us' := us) end.
    assert (view s1 c1) as V1.
    { pose proof (view_finished s c sm n V Hi Hs En HD ltac:(lia)) as V1. unfold s1. rewrite length_fmap.
      change (view (s <| _sm := sm |> <| _last_applied := #es + _last_applied s |> <| _answers ::= S |>) c1).
      replace (#es + _last_applied s) with n by lia. destruct V1. split; cbn; assumption. }
    pose proof (tri_finish_rest first #(command <$> es) rs us' nbytes 0 n false (_apply_work s) c1 ltac:(rewrite Hrl, length_fmap; lia)) as HT.
    ospecialize* (HT _ s1 c1 V1).
    { intros k r Hk. rewrite Ef. apply (batch_replies (p_log c.1) (_last_applied s) es); [by eapply view_well_formed|lia|lia|exact EU|by rewrite <- Er]. }
    { split; [split; [done|]; split; [exact Hi|done]|]. split; [done|]. cbn. rewrite length_fmap. lia. }
    destruct (finish_rest _ _ _ _ _ _ s1) as [[u|e'] s2]; destruct HT as (c2 & L2 & HT); exists c2;
      (split; [etrans; [apply (local_apply c n); lia|exact L2]|]); [|done].
    destruct HT as [V2 ((S2 & Hb2 & _) & _)]. split; [done|]. split; [|exact Hb2]. etrans; [exact S0|]. etrans; [apply (steady_applied c n)|exact S2].
  - destruct HB as (n & Hn & Hst & HD). exists (c.1 <| p_applied := n |>, c.2). split; [apply local_apply; lia|by apply applied_crashed].
Qed.

Lemma tri_pick {A X} (E : X -> Prop) (P : RaftNode -> conf -> Prop) (B : X -> RaftNode -> conf -> Prop) (m : M RaftNode A) Q :
  (forall x, E x -> tri (fun s c => P s c /\ B x s c) m Q) -> tri (fun s c => P s c /\ exists x, E x /\ B x s c) m Q.
Proof. intros Hm s c V (HP & x & HE & HB). by apply (Hm x HE). Qed.

Lemma tri_gather first c0 n s0 :
  tri (fun s c => s = s0 /\ _last_applied s0 + 1 = first /\ _last_applied s0 < _commit_index s0 /\ steady c0 c /\ idle s)
    (gather_commands (S n) first [] 0)
    (fun g s c => (steady c0 c /\ idle s) /\ exists es, g.1 = command <$> es /\ batch_ready first es s c).
Proof.
  intros s c V (-> & <- & Hc & S0 & Hi). pose proof (vw_last _ _ _ _ _ V).
  pose proof (gather_commands_spec (S n) (_last_applied s0 + 1) [] 0 s0 c V ltac:(lia)) as G.
  destruct (gather_commands _ _ _ _ s0) as [[[cs k]|e] s']; [destruct G as (-> & es & -> & He & Hne & EU)|subst s'];
    exists c; (split; [apply rtc_refl|]); [|by eapply view_crashed].
  split; [done|]. split; [done|]. exists es. split; [done|].
  rewrite (vw_commit _ _ _ _ _ V) in *. specialize (Hne eq_refl ltac:(done) ltac:(lia)). rewrite Z.add_simpl_r in He, EU.
  split; [done|]. split; [done|]. rewrite (vw_commit _ _ _ _ _ V). split; [by destruct He|done].
Qed.

Lemma calm_batch {A} (m : M RaftNode A) first es c0 :
  evolves calm m ->
  tri (fun s c => (steady c0 c /\ idle s) /\ batch_ready first es s c) m
    (fun _ s c => (steady c0 c /\ idle s) /\ batch_ready first es s c).
Proof.
  intros Hm. apply tri_calm; [done|]. intros _ s s' c c' V ((S0 & Hi) & Hb) Ec Sm. injection Ec as _ _ _ _ Ei _ _ _ _ _ _ _ El _ _.
  unfold idle, batch_ready in *. rewrite Ei, El, Sm. cbn. split; [|done]. split; [|done]. etrans; [done|by apply same_steady].
Qed.

Lemma tri_submit first es nbytes c0 :
  tri (fun s c => (steady c0 c /\ idle s) /\ batch_ready first es s c)
    (modify (fun s => s <| _apply_inflight := true |>);;
     accepted ← ask env_submit;
     if (accepted : bool) then modify (fun s => s <| _apply_work := Some (MkApplyWork first (command <$> es) nbytes None) |>)
     else throw (runtime_error "state machine executor unavailable"))
    (fun _ _ c => steady c0 c).
Proof.
  set (known := fun (s : RaftNode) (c : conf) =>
    steady c0 c /\ batch_ready first es s c /\ _apply_inflight s = true /\ sm_settled s /\ p_applied c.1 = _last_applied s).
  apply tri_bind with (fun _ => known).
  { apply tri_modify. intros s c V [[S0 Hi] Hb]. pose proof (idle_settled s c V Hi). pose proof (vw_idle _ _ _ _ _ V Hi). exists c.
    split; [apply rtc_refl|]. split; [|done]. destruct V. split; cbn; try assumption; [|done]. intros w Hw. destruct (vw_work w Hw) as [_ Hx]. by split. }
  intros _. apply tri_bind with (fun _ => known).
  { apply tri_calm; [auto with calm|]. intros _ s s' c c' V (S0 & Hb & Hi & Hst & Ep) Ec Sm. injection Ec as _ _ _ Ew Ei _ _ _ _ _ _ _ El _ _.
    unfold known, batch_ready, sm_settled in *. rewrite Ew, Ei, El, Sm. cbn. split; [|done]. etrans; [done|by apply same_steady]. }
  intros [|]; [|apply tri_throw].
  apply tri_modify. intros s c V (S0 & (Hne & Ef & Hc & EU) & Hi & Hst & Ep). exists c. split; [apply rtc_refl|]. split; [|done].
  pose proof (vw_commit _ _ _ _ _ V). destruct V. split; cbn; try assumption.
  - destruct vw_sm as (sm & ? & ? & ? & ? & ? & E). exists sm. repeat (split; [assumption|]). auto.
  - intros w [= <-]. split; [done|]. split; [done|]. exists es. split; [done|]. split; [done|]. cbn. split; [lia|done].
Qed.

Lemma tri_apply_loop fuel c0 :
  tri (fun s c => steady c0 c /\ idle s) (apply_loop fuel) (fun _ _ c => steady c0 c).
Proof.
  induction fuel as [|fuel IH]; cbn [apply_loop]; apply tri_get; intros s0;
    (apply tri_if; intros Hc; [eapply tri_conseq; [apply (steadily_MaybeSnapshot c0)|naive_solver|done]|]).
  { apply tri_ret. naive_solver. }
  apply orb_false_iff in Hc as [_ Hc%Z.leb_gt].
  eapply tri_bind; [eapply tri_conseq; [apply (tri_gather (_last_applied s0 + 1) c0)|naive_solver|by intros]|].
  intros [commands nbytes]. cbn [fst]. apply tri_pick. intros es ->. apply tri_if; intros _; [apply tri_submit|].
  eapply tri_bind; [apply calm_batch; auto with calm|]. intros started.
  eapply tri_bind; [apply tri_apply_batch|]. intros []. apply IH.
Qed.

Lemma steadily_ApplyCommitted : steadily (fun _ _ => True) ApplyCommitted.
Proof.
  intros c0. unfold ApplyCommitted. apply tri_get. intros s0. apply tri_if; intros Hi; [apply tri_ret; naive_solver|].
  eapply tri_conseq; [apply (tri_apply_loop _ c0)|naive_solver|done].
Qed.

(** * The executor *)

(** The object after the worker ran the batch. *)
Lemma view_ran s c w r sm sm' n :
  view s c -> _apply_work s = Some w -> aw_results w = None -> _last_applied s <= n <= p_commit c.1 ->
  store_db sm' = store_db sm -> synced sm' -> store_last_applied sm' = n ->
  same_data (kv sm') (replay (upto (p_log c.1) n)) ->
  match r with
  | Ok rs => sm' = sm /\ n = _last_applied s + #(aw_commands w) /\
      forall es, aw_commands w = command <$> es -> upto (p_log c.1) n = upto (p_log c.1) (_last_applied s) ++ es ->
        rs = replies (upto (p_log c.1) (_last_applied s)) es
  | Err _ => True
  end ->
  view (s <| _sm := sm |> <| _apply_work := Some (MkApplyWork (aw_first w) (aw_commands w) (aw_bytes w) (Some r)) |>)
    (c.1 <| p_applied := n |>, c.2).
Proof.
  intros V Ew Er Hn Edb Hs En HD Hr. pose proof (vw_commit _ _ _ _ _ V) as Eco. destruct (vw_work _ _ _ _ _ V w Ew) as (Hi & Hf & es & Hne & Ec & Hc & EU & _).
  destruct V. split; cbn; try assumption; try done; try lia.
  - exists sm'. split; [done|]. split; [done|]. split; [done|]. split; [lia|]. split; [done|]. intros Hst.
    destruct r as [rs|e]; [by destruct Hr|]. by destruct (Hst _ e eq_refl).
  - intros w' [= <-]. split; [done|]. split; [done|]. exists es. split; [done|]. split; [done|]. split; [done|]. split; [done|]. cbn.
    destruct r as [rs|e]; [|done]. destruct Hr as (_ & -> & Hrs). rewrite Ec, length_fmap in *. split; [done|]. by apply Hrs.
  - rewrite Hi. done.
  - keep_queue.
Qed.

Lemma tri_RunApplyWork : tri (fun _ _ => True) RunApplyWork (fun _ _ _ => True).
Proof.
  intros s c V _. unfold RunApplyWork. run.
  assert (exists c', local c c' /\ view s c' /\ True) as Hret by (exists c; split; [apply rtc_refl|done]).
  destruct (_apply_work s) as [w|] eqn:Ew; [|done]. destruct (vw_work _ _ _ _ _ V _ Ew) as (Hi & Hf & es & Hne & Ec & Hc & EU & Hp).
  destruct w as [first commands nbytes [r|]]; [done|]. cbn in Hf, Ec, Hp. subst first commands.
  pose proof (vw_commit _ _ _ _ _ V) as Eco. pose proof (vw_last _ _ _ _ _ V) as Hla.
  assert (sm_settled s) as Hst by (intros w e; rewrite Ew; by intros [= <-]).
  pose proof (batch_outcome (_last_applied s + 1) es s c V Hst Hp) as HB. ospecialize* HB; [split_and!; try done; lia|].
  destruct (sm_ApplyBatch _ _ (_sm s)) as [[rs|e] sm]; cbn.
  - destruct HB as (Hs & En & HD & Er). exists (c.1 <| p_applied := _last_applied s + #es |>, c.2).
    split; [apply local_apply; lia|]. split; [|done].
    apply (view_ran s c _ (Ok rs) sm sm (_last_applied s + #es) V Ew); try done; [lia|]. cbn. rewrite length_fmap.
    split; [done|]. split; [done|]. intros es' _ EU'. rewrite EU in EU'. by apply app_inv_head in EU' as <-.
  - destruct HB as (n & Hn & Hs & HD). exists (c.1 <| p_applied := n |>, c.2). split; [apply local_apply; lia|]. split; [|done].
    by apply (view_ran s c _ (Err e) sm (mkRocksDBStore (store_db sm) n) n V Ew).
Qed.

Lemma tri_CompleteApply work_us dispatch_us :
  tri (fun _ _ => True) (CompleteApply work_us dispatch_us) (fun _ _ _ => True).
Proof.
  intros s c V _. unfold CompleteApply. rewrite M_bind_unfold. cbn [get].
  assert (exists c', local c c' /\ view s c' /\ True) as Hret by (exists c; split; [apply rtc_refl|done]).
  destruct (_apply_work s) as [w|] eqn:Ew; [|done]. destruct (vw_work _ _ _ _ _ V _ Ew) as (Hi & Hf & es & Hne & Ec & Hc & EU & Hp).
  destruct w as [first commands nbytes [[rs|e]|]]; [| |done]; cbn in Hf, Ec, Hp; rewrite M_bind_unfold; cbn [modify].
  2: { exists c. split; [apply rtc_refl|]. exact (view_crashed _ _ _ _ _ V). }
  subst first commands. destruct Hp as [Hp Er]. pose proof (vw_commit _ _ _ _ _ V) as Eco. pose proof (vw_last _ _ _ _ _ V) as Hla.
  pose proof (vw_bound _ _ _ _ _ V) as Hbd. pose proof (view_well_formed s c V) as W.
  assert (#rs = #(command <$> es)) as Hrl.
  { rewrite Er, length_fmap. unfold replies. rewrite kv_run_length, commands_of_length; [done|].
    apply (well_formed_upto _ (_last_applied s + #es)) in W. rewrite EU in W. by apply Forall_app in W as [_ ?]. }
  rewrite M_bind_unfold, FinishApply_run, Hrl, (Z.eqb_refl #(command <$> es)). cbn -[finish_rest Z.of_nat].
  rewrite Z.eqb_refl. cbn [negb orb]. match goal with |- context [finish_rest _ _ _ _ _ _ ?x] => set (s1 := x) end.
  assert (view s1 c) as V1.
  { unfold s1. rewrite length_fmap. destruct V. split; cbn; try assumption; try done; try lia.
    - destruct vw_sm as (sm & ? & ? & ? & ? & ? & E). exists sm. repeat (split; [assumption|]). intros _. apply E.
      intros w e. rewrite Ew. by intros [= <-].
    - destruct vw_log as (a & ? & ? & ? & ? & ?). exists a. repeat (split; [assumption|]). cbn. lia. }
  pose proof (tri_finish_rest (_last_applied s + 1) #(command <$> es) rs work_us nbytes dispatch_us (_last_applied s + #es) true None c
    ltac:(rewrite Hrl, length_fmap; lia)) as HT.
  ospecialize* (HT _ s1 c V1).
  { intros k r Hk. apply (batch_replies (p_log c.1) (_last_applied s) es); [done|lia|lia|exact EU|by rewrite <- Er]. }
  { split; [split; [done|]; split; [exact Hi|done]|]. split; [lia|]. cbn. rewrite length_fmap. lia. }
  destruct (finish_rest _ _ _ _ _ _ s1) as [[u|e'] s2]; destruct HT as (c2 & L2 & HT); [|by exists c2].
  destruct HT as [V2 ((S2 & Hb2 & Hw2) & _ & Ha2)]. rewrite M_bind_unfold. cbn [modify].
  pose proof (steadily_ApplyCommitted c2 (s2 <| _apply_inflight := false |>) c2) as HA. ospecialize* HA; [|done|].
  { destruct V2. split; cbn; try assumption; [|done]. intros w. by rewrite Hw2. }
  destruct (ApplyCommitted _) as [[u'|e] s3]; destruct HA as (c3 & L3 & HA); exists c3; (split; [by etrans|]); [|done]. by destruct HA.
Qed.
End NodeApply.
