(* ===== verification/NodeCommit.v ===== *)
(** A leader's commitment and proposals as actions of the protocol. *)
From stdpp Require Import base numbers strings sorting gmap list.
From S2P Require Import Prelude Effects Storage Messages RaftLog LogSpec LogProofs LogRecovery.
From S2P Require Import Resp KVStore KVStateMachine KVTheorems KVReplay Metrics Peers RaftState RaftNode RaftProtocol ProtocolSafety NodeView NodeCalm NodeReads NodeApply.

(** * The quorum a sorted list of match indices shows *)

#[local] Instance desc_trans : Transitive desc.
Proof. intros x y z. unfold desc. lia. Qed.
#[local] Instance desc_total : Total desc.
Proof. intros x y. unfold desc. lia. Qed.

Lemma filter_all {A} (P : A -> Prop) `{!forall x, Decision (P x)} l : Forall P l -> filter P l = l.
Proof. induction 1 as [|x l Hx _ IH]; [done|]. by rewrite filter_cons_True, IH. Qed.

(** At least [j + 1] elements are as large as the one at position [j]. *)
Lemma sort_desc_quorum (l : list Z) (j : nat) (x : Z) :
  sort_desc l !! j = Some x -> (S j <= length (filter (fun y => (x <= y)%Z) l))%nat.
Proof.
  intros Hj. unfold sort_desc in Hj.
  rewrite <- (filter_Permutation _ _ _ (merge_sort_Permutation desc l)).
  pose proof (StronglySorted_merge_sort desc l) as Hs. revert Hj Hs. generalize (merge_sort desc l). clear l.
  intros l Hj Hs. pose proof (lookup_lt_Some _ _ _ Hj) as Hlt.
  assert (Forall (fun y => x <= y) (take (S j) l)) as Hall.
  { rewrite (take_S_r _ _ _ Hj). apply Forall_app. split; [|repeat constructor; lia].
    rewrite <- (take_drop_middle _ _ _ Hj) in Hs. apply Forall_forall. intros y Hy.
    apply (StronglySorted_app_1_elem_of desc _ _ _ _ Hs Hy). by left. }
  rewrite <- (take_drop (S j) l), filter_app, length_app, (filter_all _ _ Hall), length_take. lia.
Qed.

Section NodeCommit.
Context `{RocksDBSpec} `{LogEntryCodecSpec} `{!Env} {asks : Requests}.
Context (members : gset Z) (me : Z) (box : option (Z * Message)) (lead : outside).
Abbreviation calm := (calm members me box lead).
Abbreviation view := (view members me (look lead)).
Abbreviation local := (local members me box lead).
Abbreviation crashed := (crashed members me (look lead)).
Abbreviation tri := (tri members me box lead).
Abbreviation steadily := (steadily members me box lead).

Lemma match_indices_spec peers s :
  match match_indices peers s with
  | (Ok ms, s') => s' = s /\ Forall2 (fun id m => _match_index s !! id = Some m) (peer_ids peers) ms
  | (Err _, s') => s' = s
  end.
Proof.
  induction peers as [|peer peers IH]; [by split; [|constructor]|]. cbn [match_indices]. run. unfold at_key.
  destruct (_match_index s !! peer_id peer) as [m|] eqn:E; run; [|done].
  destruct (match_indices peers s) as [[ms|e] s']; [|done]. destruct IH as [-> F]. split; [done|]. by constructor.
Qed.

(** The members whose match index has reached [n]. *)
Definition reached (s : RaftNode) (n : Z) : gset Z :=
  list_to_set (filter (fun id => n <= default 0 (_match_index s !! id)) (elements members)).

Lemma reached_size s c n ms :
  view s c -> Forall2 (fun id m => _match_index s !! id = Some m) (peer_ids (_all_peers s)) ms ->
  size (reached s n) = length (filter (fun m => n <= m) ms).
Proof.
  intros V F. unfold reached. rewrite size_list_to_set by apply NoDup_filter, NoDup_elements.
  rewrite <- (filter_Permutation _ _ _ (vw_peers _ _ _ _ _ V)). clear V.
  induction F as [|id m ids ms Hm F IH]; [done|]. rewrite !filter_cons, Hm. cbn. case_decide; cbn; by rewrite ?IH.
Qed.

(** The candidate index has been reached by a majority. *)
Lemma candidate_majority s c ms n :
  view s c -> Forall2 (fun id m => _match_index s !! id = Some m) (peer_ids (_all_peers s)) ms ->
  sort_desc ms !! Z.to_nat (QuorumSize s - 1) = Some n -> majority members (reached s n).
Proof.
  intros V F Hj. split; [unfold reached; intros x [_ Hx]%elem_of_list_to_set%list_elem_of_filter; by apply elem_of_elements|]. apply sort_desc_quorum in Hj.
  rewrite <- (reached_size s c n ms V F) in Hj. unfold QuorumSize in Hj. rewrite (peers_size members me lead s c V) in Hj.
  revert Hj. Z.to_euclidean_division_equations. lia.
Qed.

Lemma reached_match s c n k :
  view s c -> _state s = LEADER -> 0 < n -> k ∈ reached s n -> exists v, p_match c.1 !! k = Some v /\ n <= v.
Proof.
  intros V Hr Hn [Hk _]%elem_of_list_to_set%list_elem_of_filter.
  destruct (_match_index s !! k) as [v|] eqn:E; cbn in Hk; [|lia]. exists v. split; [|done].
  apply (vw_match _ _ _ _ _ V k v Hr E). lia.
Qed.

Lemma view_commit s c n :
  view s c -> p_commit c.1 <= n <= #(p_log c.1) -> (_state s = LEADER -> term_at (p_log c.1) n = p_term c.1) ->
  view (s <| _commit_index := n |>) (c.1 <| p_commit := n |>, c.2).
Proof.
  intros [] Hn Ht. rewrite vw_commit in Hn. split; cbn; try assumption; try lia.
  - destruct vw_sm as (sm & ? & ? & ? & ? & ?). exists sm. repeat (split; [done|]). split; [lia|done].
  - intros w Hw. by apply (work_ok_agree s _ c); [apply vw_work|..|cbn; lia| |].
  - intros Hr k f Hk. eapply flight_ok_later; [..|by apply (vw_flights Hr)]; cbn; try done. lia.
  - keep_queue.
  - intros Hs. destruct (vw_serve Hs). auto.
Qed.

Lemma steadily_AdvanceCommitIndex : steadily (fun s _ => _state s = LEADER) AdvanceCommitIndex.
Proof.
  intros c0. unfold AdvanceCommitIndex. apply tri_get. intros s0.
  apply tri_bind with (fun ms s c => s = s0 /\ steady c0 c /\ _state s = LEADER /\
    Forall2 (fun id m => _match_index s !! id = Some m) (peer_ids (_all_peers s)) ms).
  { intros s c V (-> & S0 & Hr). pose proof (match_indices_spec (_all_peers s0) s0) as G.
    destruct (match_indices _ s0) as [[ms|e] s']; [destruct G as [-> F]|subst s']; exists c;
      (split; [apply rtc_refl|]); [done|by eapply view_crashed]. }
  intros ms. cbn beta zeta. set (n := default 0 _). apply tri_bind with (fun _ _ c => steady c0 c);
    [|intros _; eapply tri_conseq; [apply (steadily_ApplyCommitted _ _ _ _ c0)|by auto|done]].
  apply tri_when; intros Hn; [|naive_solver]. apply Z.ltb_lt in Hn.
  eapply tri_bind.
  { apply tri_GetTerm. intros s c V (-> & _). pose proof (vw_last _ _ _ _ _ V). lia. }
  intros t. apply tri_when; intros Ht; [|naive_solver]. apply Z.eqb_eq in Ht.
  apply tri_modify. intros s c V ((-> & S0 & Hr & F) & HT).
  pose proof (vw_last _ _ _ _ _ V). pose proof (vw_term_range _ _ _ _ _ V). pose proof (vw_commit _ _ _ _ _ V).
  destruct (read_at_known _ _ _ _ HT ltac:(lia) ltac:(lia)) as [Et Hl].
  exists (c.1 <| p_commit := n |>, c.2). split; [|split; [apply view_commit; [done|lia|]|]].
  - apply rtc_once. exists Tau, [], (c.1 <| p_commit := n |>). rewrite app_nil_r. split; [|done].
    apply (P_lead_commit _ _ _ _ _ _ n (reached s0 n)).
    + by rewrite (vw_role _ _ _ _ _ V).
    + apply (candidate_majority s0 c ms n V F). unfold n in *. destruct (sort_desc ms !! _); [done|]. cbn in *. lia.
    + intros k Hk. eapply reached_match; [done|done|lia|done].
    + lia.
    + rewrite (vw_term _ _ _ _ _ V). congruence.
    + lia.
  - intros _. rewrite (vw_term _ _ _ _ _ V). congruence.
  - etrans; [done|]. split; [by destruct c as [[]]|cbn; lia].
Qed.

(** * Knowledge about the protocol node *)

Lemma tri_keep {A} (m : M RaftNode A) (P : pnode -> Prop) :
  evolves calm m -> (forall p p', same p p' -> P p -> P p') ->
  tri (fun _ c => P c.1) m (fun _ _ c => P c.1).
Proof. intros Hm HP. apply tri_calm; [done|]. intros _ s s' c c' V Hp _ Sm. by eapply HP. Qed.

Lemma tri_keep_leader {A} (m : M RaftNode A) (P : pnode -> Prop) :
  evolves (calm_leader members me box lead) m -> (forall p p', same p p' -> P p -> P p') ->
  tri (fun _ c => p_role c.1 = LEADER /\ P c.1) m (fun _ _ c => p_role c.1 = LEADER /\ P c.1).
Proof.
  intros Hm HP s c V [Hr Hp]. specialize (Hm s). rewrite (vw_role _ _ _ _ _ V) in Hr.
  destruct (m s) as [[a|e] s']; destruct (Hm Hr c V) as [E (c' & L & Sm & V')]; exists c'; (split; [done|]).
  - split; [done|]. split; [|by eapply HP]. rewrite Sm. cbn. by rewrite (vw_role _ _ _ _ _ V).
  - by eapply view_crashed.
Qed.

(** Code that runs after an exception and does not touch the databases. *)
Definition outlives (s s' : RaftNode) : Prop := forall c, crashed s c -> exists c', local c c' /\ crashed s' c'.
#[export] Instance outlives_preorder : PreOrder outlives.
Proof.
  split; [intros s c C; exists c; split; [apply rtc_refl|done]|]. intros s1 s2 s3 O1 O2 c C.
  destruct (O1 c C) as (c1 & L1 & C1). destruct (O2 c1 C1) as (c2 & L2 & C2). exists c2. split; [by etrans|done].
Qed.

Lemma outlives_modify f :
  (forall s, _log (f s) = _log s /\ _sm (f s) = _sm s /\ _trace (f s) = _trace s) -> evolves outlives (modify f).
Proof.
  intros Hf s c [D T]. exists c. destruct (Hf s) as (E1 & E2 & E3). split; [apply rtc_refl|]. cbn.
  split; [by rewrite E1, E2|by rewrite E3].
Qed.

Lemma outlives_emit e : harmless e -> evolves outlives (emit e).
Proof.
  intros He s c [D T]. exists (c.1, c.2 ++ [e]). split.
  - apply rtc_once. exists Tau, [e], c.1. split; [|done]. apply P_emit. by left.
  - split; [exact D|]. by apply spoken_emit.
Qed.

Lemma outlives_FailPending reply : evolves outlives (storage_failed;; FailPending reply).
Proof.
  apply evolves_bind; [apply _|by apply outlives_modify|intros _]. unfold FailPending.
  apply evolves_bind; [apply _|apply evolves_get; apply _|intros s0].
  apply evolves_bind; [apply _|by apply outlives_modify|intros _]. apply evolves_for_each; [apply _|intros x _].
  unfold reply_pending. case_match; [by apply outlives_emit|apply evolves_ret; apply _].
Qed.

Lemma tri_on_exception_outlives {A} P (m : M RaftNode A) h Q :
  tri P m Q -> evolves outlives h -> tri P (on_exception m h) Q.
Proof. intros Hm Hh. apply tri_on_exception; [done|]. intros s c C. specialize (Hh s c C). by destruct (h s). Qed.

(** * Appending *)

(** Consecutive entries after index [i] with terms in [1..t]. *)
Definition fresh_entries (i t : Z) (es : list LogEntry) : Prop :=
  forall j e, es !! j = Some e -> index e = i + Z.of_nat j + 1 /\ 0 < term e <= t /\ valid_command (command e) = true.

Lemma view_append s c a l es :
  view s c -> log_repr s c.1 a -> Repr l (a_append es a) -> fresh_entries #(p_log c.1) (_current_term s) es ->
  view (s <| _log := l |>) (c.1 <| p_log ::= fun L => L ++ es |>, c.2).
Proof.
  intros V (_ & Ei & LV & HV & Hs) Hr Hf. pose proof (vw_bound _ _ _ _ _ V).
  assert (forall n, n <= _commit_index s -> upto (p_log c.1 ++ es) n = upto (p_log c.1) n) as Hu by (intros n Hn; apply upto_app; lia).
  destruct V. split; cbn; try assumption.
  - destruct vw_sm as (sm & ? & ? & ? & ? & ? & ?). exists sm. by rewrite Hu by done.
  - intros w Hw. by apply (work_ok_agree s _ c); [apply vw_work|..].
  - exists (a_append es a). split; [done|]. split; [done|]. split; [by apply log_view_append|]. split; [exact HV|exact Hs].
  - intros i Hi. destruct (Z.le_gt_cases i #(p_log c.1)) as [Hle|Hgt].
    + rewrite (term_at_prefix (p_log c.1) (p_log c.1 ++ es) i); [apply vw_terms; lia|by apply prefix_app_r|lia].
    + rewrite term_at_app_r by lia. rewrite length_app in Hi.
      destruct (lookup_lt_is_Some_2 es (Z.to_nat (i - #(p_log c.1) - 1))) as [e He]; [lia|].
      unfold term_at. destruct (Z.eqb_spec (i - #(p_log c.1)) 0); [lia|]. destruct (Z.ltb_spec (i - #(p_log c.1)) 0); [lia|].
      rewrite He. by apply (Hf _ _ He).
  - intros j e [Hj|[Hlt Hj]]%lookup_app_Some; [by apply vw_entries|]. destruct (Hf _ _ Hj) as (-> & _ & ?). split; [lia|done].
  - intros Hl k f Hk. eapply flight_ok_later; [..|by apply (vw_flights Hl)]; cbn; try done. by apply prefix_app_r.
  - intros i pd Hp. destruct (vw_pending i pd Hp) as (Hl & Hi & He). split; [done|]. split; [done|]. intros cb Hcb.
    destruct (He cb Hcb) as (e & E & Ec). exists e. split; [by apply lookup_app_l_Some|done].
  - rewrite length_app. lia.
  - keep_queue.
  - intros Hcs. destruct (vw_serve Hcs). rewrite (term_at_prefix (p_log c.1)); [done|by apply prefix_app_r|lia].
Qed.

(** The callers propose client commands, and name them. *)
Definition asked (ps : list Proposal) : Prop :=
  forall p, p ∈ ps -> valid_command (pr_command p) = true /\ forall cb, pr_callback p = Some cb -> pr_command p = command_of cb.

(** The log holds the commands of the proposals from index [first] on, in term [t]. *)
Definition holds (first t : Z) (ps : list Proposal) (L : list LogEntry) : Prop :=
  0 < first /\ forall j p, ps !! j = Some p ->
    exists e, L !! Z.to_nat (first + Z.of_nat j - 1) = Some e /\ command e = pr_command p /\ term e = t.

Lemma holds_entries L t ps :
  holds (#L + 1) t ps (L ++ proposal_entries (#L + 1) t ps).
Proof.
  split; [lia|]. intros j p Hj. exists (mkLogEntry (#L + 1 + Z.of_nat j) t (pr_command p)). split; [|done].
  rewrite lookup_app_r by lia. unfold proposal_entries. rewrite list_lookup_imap.
  replace (Z.to_nat (#L + 1 + Z.of_nat j - 1) - length L)%nat with j by lia. by rewrite Hj.
Qed.

Lemma holds_tail first t p ps L : holds first t (p :: ps) L -> holds (first + 1) t ps L.
Proof.
  intros [Hf Hh]. split; [lia|]. intros j x Hj. destruct (Hh (S j) x Hj) as (e & E & Ec). exists e. split; [|done].
  by replace (first + 1 + Z.of_nat j - 1) with (first + Z.of_nat (S j) - 1) by lia.
Qed.

Lemma proposal_entries_fresh i t ps :
  0 < t -> asked ps -> fresh_entries i t (proposal_entries (i + 1) t ps) /\ next_entries i t (proposal_entries (i + 1) t ps) /\
  #(proposal_entries (i + 1) t ps) = #ps.
Proof.
  intros Ht Ha. unfold proposal_entries. split; [|split; [|by rewrite length_imap]].
  - intros j e. rewrite list_lookup_imap. destruct (ps !! j) as [p|] eqn:Ep; [|done]. intros [= <-]. cbn.
    split; [lia|]. split; [lia|]. by apply (Ha p), (list_elem_of_lookup_2 _ j).
  - intros j e. rewrite list_lookup_imap. destruct (ps !! j) as [p|] eqn:Ep; [|done]. intros [= <-]. cbn.
    split; [lia|]. split; [lia|]. by apply (Ha p), (list_elem_of_lookup_2 _ j).
Qed.

Lemma proposal_entries_extends i t t0 ps :
  0 < t <= INT32_MAX -> t0 <= t -> extends i t0 (proposal_entries (i + 1) t ps).
Proof.
  intros Ht. revert i t0. induction ps as [|x ps IH]; intros i t0 Ht0; [done|]. unfold proposal_entries. cbn.
  split; [lia|]. split; [lia|]. split; [done|].
  specialize (IH (i + 1) t ltac:(lia)). unfold proposal_entries in IH.
  erewrite imap_ext; [exact IH|]. intros j y _. cbn. f_equal. lia.
Qed.

Lemma admit_bytes_small ps n total :
  admit_bytes ps n = Some total -> Forall (fun p => #(pr_command p) <= kMaxCommandBytes) ps.
Proof.
  revert n. induction ps as [|x ps IH]; intros n; cbn; [constructor|]. destruct (_ || _) eqn:E; [done|].
  apply orb_false_iff in E as [E%Z.ltb_ge _]. intros E'. constructor; [done|by eapply IH].
Qed.

Lemma tri_append_leader first ps s0 c0 :
  first = _last_index (_log s0) + 1 -> _last_index (_log s0) + #ps <= INT64_MAX ->
  Forall (fun p => #(pr_command p) <= kMaxCommandBytes) ps -> asked ps ->
  tri (fun s c => _log s = _log s0 /\ _current_term s = _current_term s0 /\ _state s = LEADER /\ c = c0)
    (on_log (AppendBatch (proposal_entries first (_current_term s0) ps)))
    (fun _ s c => p_role c.1 = LEADER /\ first + #ps - 1 = #(p_log c.1) /\ holds first (p_term c.1) ps (p_log c.1)).
Proof.
  intros -> Hmax Hsz Hask. apply tri_write. intros s c V (El & Et & Hr & ->). rewrite <- El, <- Et in *. clear s0 El Et.
  destruct (vw_log _ _ _ _ _ V) as (a & HR). pose proof HR as ((C & [W _ _]) & Ei & LV & HV & Hs).
  pose proof (vw_positive _ _ _ _ _ V (or_intror Hr)) as Hp. pose proof (vw_term_range _ _ _ _ _ V) as Hrange.
  pose proof (lv_length _ _ LV) as Hlen. pose proof (c_last_index _ _ C) as Eli.
  rewrite Eli in *. set (i := a_last_index a) in *. set (t := _current_term s) in *.
  destruct (proposal_entries_fresh i t ps Hp Hask) as (Hf & Hn & El). set (es := proposal_entries (i + 1) t ps) in *.
  exists a, (a_append es a), (c0.1 <| p_log ::= fun L => L ++ es |>, c0.2). split; [done|]. split; [|split].
  - apply AppendBatch_implements; [apply HR| |lia|].
    + apply proposal_entries_extends; [lia|]. rewrite (log_view_last_term a (p_log c0.1)) by done. 
      destruct (decide (#(p_log c0.1) = 0)) as [E0|E0]; [rewrite E0; cbn; lia|]. apply (vw_terms _ _ _ _ _ V). lia.
    + apply Forall_lookup_2. intros j e. unfold es, proposal_entries. rewrite list_lookup_imap.
      destruct (ps !! j) as [p|] eqn:Ej; [|done]. intros [= <-]. cbn.
      pose proof (Forall_lookup_1 _ _ _ _ Hsz Ej) as Hx. cbn in Hx. unfold kMaxCommandBytes in Hx. lia.
  - apply rtc_once. eexists _, [], _. rewrite app_nil_r. split; [|done]. apply P_append.
    + by rewrite (vw_role _ _ _ _ _ V).
    + rewrite (vw_term _ _ _ _ _ V), <- Hlen. exact Hn.
  - intros l Hl. split; [|split].
    + apply (view_append s c0 a); [done..|]. rewrite <- Hlen. exact Hf.
    + cbn. by rewrite (vw_role _ _ _ _ _ V).
    + cbn. rewrite length_app. split; [lia|]. rewrite (vw_term _ _ _ _ _ V). unfold es. rewrite Hlen. apply holds_entries.
Qed.

(** * Proposals *)

Context (me_member : me ∈ members).

(** The leader counts its own log. *)
Lemma match_self s c n :
  view s c -> p_role c.1 = LEADER -> 0 <= n <= #(p_log c.1) ->
  exists c', local c c' /\ view (s <| _match_index ::= <[_node_id s := n]> |>) c' /\ p_role c'.1 = LEADER.
Proof.
  intros V Hr Hn. exists (c.1 <| p_match ::= <[me := n]> |>, c.2). split; [|split; [|done]].
  - apply rtc_once. eexists Tau, [], _. rewrite app_nil_r. split; [|done]. apply P_match_self; [done|lia|done].
  - destruct V. split; cbn; try assumption; try keep_queue; rewrite vw_id.
    + intros k v [[<- <-]|[_ Hk]]%lookup_insert_Some; [split; [done|lia]|by eapply vw_matches].
    + intros k v Hl [[<- <-]|[Hne Hk]]%lookup_insert_Some Hv; [by rewrite lookup_insert_eq|].
      rewrite lookup_insert_ne by done. by apply vw_match.
Qed.

(** Recording the callbacks of appended proposals. *)
Lemma tri_add_pending first ps (P : pnode -> Prop) :
  asked ps -> (forall p p', same p p' -> P p -> P p') ->
  tri (fun _ c => p_role c.1 = LEADER /\ holds first (p_term c.1) ps (p_log c.1) /\ P c.1) (add_pending first ps) (fun _ _ c => P c.1).
Proof.
  revert first. induction ps as [|x ps IH]; intros first Ha HP; cbn [add_pending].
  { apply tri_ret. by intros s c (_ & _ & ?). }
  set (Q := fun p => p_role p = LEADER /\ holds first (p_term p) (x :: ps) (p_log p) /\ P p).
  apply tri_bind with (fun _ _ c => Q c.1).
  { apply (tri_keep _ Q); [auto with calm|]. intros p p' Sm (? & ? & ?). split; [by rewrite Sm|]. split; [by rewrite Sm|].
    by apply (HP p p' Sm). }
  intros now. apply tri_bind with (fun _ _ c => Q c.1).
  - apply tri_modify. intros s c V (Hr & Hh & Hp). exists c. split; [apply rtc_refl|]. split; [|done].
    rewrite (vw_role _ _ _ _ _ V) in Hr. destruct V. split; cbn; try assumption. intros i pd Hi.
    assert (_pending s !! i = Some pd \/ (i = first /\ pd_callback pd = pr_callback x)) as [Hold|[-> Ec]].
    { destruct (_pending s !! first) eqn:E; [by left|]. apply lookup_insert_Some in Hi as [[<- <-]|[_ Hi]]; [by right|by left]. }
    + by apply vw_pending.
    + split; [done|]. split; [apply Hh|]. intros cb Ecb. rewrite Ec in Ecb. destruct (proj2 Hh 0%nat x eq_refl) as (e & E & Ee & Et).
      exists e. split; [by replace (first - 1) with (first + Z.of_nat 0 - 1) by lia|]. split; [|done]. rewrite Ee. destruct (Ha x ltac:(left)) as [_ Hx]. by apply Hx.
  - intros []. eapply tri_conseq; [apply (IH (first + 1)); [|done]| |done].
    + intros p Hp. apply Ha. by right.
    + intros s c V (Hr & Hh & Hp). split; [done|]. split; [by eapply holds_tail|done].
Qed.

Lemma tri_match_self n nbytes :
  tri (fun _ c => p_role c.1 = LEADER /\ n = #(p_log c.1))
    (modify (fun s => s <| _pending_bytes := uN 64 (_pending_bytes s + nbytes) |> <| _match_index ::= <[_node_id s := n]> |>))
    (fun _ _ c => p_role c.1 = LEADER /\ True).
Proof.
  apply tri_modify. intros s c V [Hr ->]. destruct (match_self s c #(p_log c.1) V Hr ltac:(lia)) as (c' & L & V' & Hr').
  exists c'. split; [done|]. split; [|done]. destruct V'. split; cbn in *; assumption.
Qed.

Lemma tri_ProposeBatch ps : asked ps -> tri (fun _ _ => True) (ProposeBatch ps) (fun _ _ _ => True).
Proof.
  intros Ha s c V _. set (c0 := c). set (s0 := s) in *.
  enough (tri (fun s c => s = s0 /\ c = c0) (ProposeBatch ps) (fun _ _ _ => True)) as Ht by (apply Ht; done).
  clear V. unfold ProposeBatch. apply tri_get. intros s1.
  apply tri_if; intros Hl; [by apply tri_ret|]. apply negb_false_iff, andb_true_iff in Hl as [_ Hl%bool_decide_eq_true_1].
  apply tri_if; intros _; [by apply tri_ret|]. apply tri_if; intros _; [by apply tri_ret|].
  destruct (admit_bytes ps 0) as [nbytes|] eqn:Eb; [|by apply tri_ret]. apply admit_bytes_small in Eb.
  apply tri_if; intros _; [by apply tri_ret|]. apply tri_if; intros Hmax; [apply tri_throw|apply Z.ltb_ge in Hmax].
  set (first := _last_index (_log s1) + 1). set (es := proposal_entries first (_current_term s1) ps).
  set (kept := fun (s : RaftNode) (c : conf) => _log s = _log s1 /\ _current_term s = _current_term s1 /\ _state s = LEADER).
  set (done_ := fun (_ : RaftNode) (c : conf) => p_role c.1 = LEADER /\ first + #ps - 1 = #(p_log c.1) /\ holds first (p_term c.1) ps (p_log c.1)).
  assert (forall A (m : M RaftNode A), evolves calm m -> tri done_ m (fun _ => done_)) as Hdone.
  { intros A m Hm. apply (tri_keep m (fun p => p_role p = LEADER /\ first + #ps - 1 = #(p_log p) /\ holds first (p_term p) ps (p_log p))); [done|by intros p p' ->]. }
  apply tri_bind with (fun _ => kept).
  { apply tri_calm; [auto with calm|]. intros _ s2 s3 c2 c3 V2 (-> & _) Ec _. injection Ec. repeat split; congruence. }
  intros started. apply tri_bind with (fun _ => done_).
  { apply tri_on_exception_outlives; [|apply outlives_FailPending].
    apply tri_bind with (fun _ => done_).
    - intros s2 c2 V2 (E1 & E2 & E3). apply (tri_append_leader first ps s1 c2); try done. lia.
    - intros _. eapply tri_bind; [apply Hdone; auto with calm|]. intros t. apply Hdone. auto with calm. }
  intros _. eapply tri_bind; [apply Hdone; auto with calm|]. intros [].
  apply tri_bind with (fun _ _ c => p_role c.1 = LEADER /\ first + #ps - 1 = #(p_log c.1)).
  { eapply tri_conseq; [apply (tri_add_pending first ps (fun p => p_role p = LEADER /\ first + #ps - 1 = #(p_log p))); [done|by intros p p' ->]| |done].
    by intros s2 c2 _ (? & ? & ?). }
  intros [].
  eapply tri_bind; [apply tri_match_self|]. intros [].
  eapply tri_bind; [apply (tri_keep_leader _ (fun _ => True)); [apply leader_BroadcastAppendEntries|done]|]. intros [].
  apply tri_bind with (fun _ _ _ => True); [|intros _; by apply tri_ret].
  apply (tri_steady _ _ _ _ _ _ _ _ steadily_AdvanceCommitIndex); [|done].
  intros s2 c2 V2 [Hr _]. by rewrite <- (vw_role _ _ _ _ _ V2).
Qed.
End NodeCommit.
