(* ===== verification/NodeElection.v ===== *)
(** Role changes and elections as actions of the protocol. *)
From stdpp Require Import base numbers strings gmap list.
From S2P Require Import Prelude Effects Storage Messages RaftLog LogSpec LogProofs LogRecovery.
From S2P Require Import Text KVStore KVStateMachine KVTheorems KVReplay Metrics Peers RaftState RaftNode RaftProtocol ProtocolSafety.
From S2P Require Import NodeView NodeCalm NodeReads NodeApply NodeCommit.

(** * Callbacks *)

(** What clients and the event log are told. *)
Definition quiet (e : Effect) : Prop := harmless e /\ tracked e = false.

(** Code that only tells clients and the event log. *)
Definition talks `{RocksDB} (m : M RaftNode unit) : Prop :=
  forall s, exists es, m s = (Ok tt, s <| _trace ::= fun t => t ++ es |>) /\ Forall quiet es.

Section Talks.
Context `{RocksDB} `{!Env}.

Lemma talks_ret : talks (mret tt).
Proof. intros s. exists []. split; [|constructor]. cbn. rewrite app_nil_r. by destruct s. Qed.
Lemma talks_emit e : quiet e -> talks (emit e).
Proof. intros He s. exists [e]. split; [done|]. by constructor. Qed.
Lemma talks_for_each {A} (l : list A) body : (forall x, talks (body x)) -> talks (for_each l body).
Proof.
  intros Hb. induction l as [|x l IH]; [apply talks_ret|]. intros s. cbn [for_each]. rewrite M_bind_unfold.
  destruct (Hb x s) as (es & -> & He). edestruct IH as (es' & E & He'). rewrite E. exists (es ++ es').
  split; [by cbn; rewrite app_assoc|]. by apply Forall_app.
Qed.
Lemma talks_reply reply p : talks (reply_pending false reply p).
Proof. unfold reply_pending. case_match; [by apply talks_emit|apply talks_ret]. Qed.
Lemma talks_fail_read error req : talks (fail_read error req).
Proof. by apply talks_emit. Qed.

(** The effect of giving up leadership on everything but the role. *)
Definition aside (s : RaftNode) := (_rpc_sequence s, _snapshot_receive s, _snapshot_chunk_bytes s, _lease_reads s).
Definition hushed (s s' : RaftNode) : Prop :=
  core s' = core s /\ _inflight s' = _inflight s /\ aside s' = aside s /\ _pending s' ⊆ _pending s /\
  exists es, _trace s' = _trace s ++ es /\ Forall quiet es.

#[export] Instance hushed_preorder : PreOrder hushed.
Proof.
  split.
  - intros s. repeat (split; [done|]). exists []. by rewrite app_nil_r.
  - intros s1 s2 s3 (E1 & E2 & E3 & Ep & es & Et & He) (F1 & F2 & F3 & Fp & es' & Ft & He'). repeat (split; [congruence|]).
    split; [by etrans|]. exists (es ++ es'). rewrite Ft, Et, app_assoc. split; [done|]. by apply Forall_app.
Qed.

Lemma hushed_talks m : talks m -> evolves hushed m.
Proof. intros Hm s. destruct (Hm s) as (es & -> & He). repeat (split; [done|]). by exists es. Qed.

Lemma hushed_modify f :
  (forall s, core (f s) = core s /\ _inflight (f s) = _inflight s /\ aside (f s) = aside s /\
    _pending (f s) ⊆ _pending s /\ _trace (f s) = _trace s) ->
  evolves hushed (modify f).
Proof. intros Hf s. destruct (Hf s) as (? & ? & ? & ? & ?). repeat (split; [done|]). exists []. by rewrite app_nil_r. Qed.

Lemma hushed_FailPending reply : evolves hushed (FailPending reply).
Proof.
  unfold FailPending. apply evolves_bind; [apply _|apply evolves_get; apply _|intros s0].
  apply evolves_bind; [apply _|apply hushed_modify; repeat (split; [done|]); split; [apply map_empty_subseteq|done]|intros _]. apply hushed_talks, talks_for_each.
  intros x. apply talks_reply.
Qed.
Lemma FailPending_ok reply s : (FailPending reply s).1 = Ok tt.
Proof.
  unfold FailPending. rewrite !M_bind_unfold. cbn [get modify]. rewrite M_bind_unfold. cbn [modify].
  match goal with |- (for_each ?l ?b ?x).1 = _ => destruct (talks_for_each l b ltac:(intros; apply talks_reply) x) as (es & -> & _) end.
  done.
Qed.

Lemma FailPending_empty reply s : _pending (FailPending reply s).2 = ∅.
Proof.
  unfold FailPending. rewrite !M_bind_unfold. cbn [get modify]. rewrite M_bind_unfold. cbn [modify].
  match goal with |- _pending (for_each ?l ?b ?x).2 = _ => destruct (talks_for_each l b ltac:(intros; apply talks_reply) x) as (es & -> & _) end.
  done.
Qed.

Lemma ClearReadIndexQueues_spec reason s :
  exists s', ClearReadIndexQueues reason s = (Ok tt, s') /\ hushed s s' /\
    (_unsent_reads (_reads s') = [] /\ _heartbeat_rounds (_reads s') = []) /\ _pending_reads (_reads s') = [].
Proof.
  unfold ClearReadIndexQueues, set_completing, on_reads. rewrite M_bind_unfold. cbn [gets]. rewrite M_bind_unfold. cbn [modify].
  rewrite M_bind_unfold. cbn [gets]. rewrite M_bind_unfold.
  match goal with |- context [for_each ?l ?b ?x] =>
    destruct (talks_for_each l b ltac:(intros; apply talks_for_each; intros; apply talks_fail_read) x) as (e1 & -> & H1) end.
  rewrite M_bind_unfold. cbn [modify]. rewrite M_bind_unfold. cbn [gets]. rewrite M_bind_unfold.
  match goal with |- context [for_each ?l ?b ?x] =>
    destruct (talks_for_each l b ltac:(intros; apply talks_fail_read) x) as (e2 & -> & H2) end.
  rewrite M_bind_unfold. cbn [modify]. rewrite M_bind_unfold. cbn [gets]. rewrite M_bind_unfold.
  match goal with |- context [for_each ?l ?b ?x] =>
    destruct (talks_for_each l b ltac:(intros; apply talks_fail_read) x) as (e3 & -> & H3) end.
  rewrite M_bind_unfold. cbn [modify]. eexists. split; [done|]. split; [|done]. repeat (split; [done|]). cbn.
  exists (e1 ++ e2 ++ e3). rewrite !app_assoc. split; [done|]. by rewrite !Forall_app.
Qed.
End Talks.

(** Every listed key set to [v]. *)
Definition reset_map {V} (ids : list Z) (v : V) (m : gmap Z V) : gmap Z V := foldl (fun m id => <[id := v]> m) m ids.

Lemma reset_map_lookup {V} ids (v : V) m k :
  reset_map ids v m !! k = if bool_decide (k ∈ ids) then Some v else m !! k.
Proof.
  revert m. induction ids as [|id ids IH]; intros m; [done|].
  change (reset_map (id :: ids) v m) with (reset_map ids v (<[id := v]> m)). rewrite IH. repeat case_bool_decide; try done.
  - set_solver.
  - assert (k = id) as -> by set_solver. by rewrite lookup_insert_eq.
  - rewrite lookup_insert_ne by set_solver. done.
Qed.

Section NodeElection.
Context `{RocksDBSpec} `{LogEntryCodecSpec} `{!Env} {asks : Requests}.
Context (members : gset Z) (me : Z) (box : option (Z * Message)) (lead : outside).
Context (me_member : me ∈ members) (ids_ok : forall k, k ∈ members -> 0 <= k <= INT32_MAX).
Abbreviation calm := (calm members me box lead).
Abbreviation view := (view members me (look lead)).
Abbreviation local := (local members me box lead).
Abbreviation crashed := (crashed members me (look lead)).
Abbreviation tri := (tri members me box lead).
Abbreviation steadily := (steadily members me box lead).

(** * Rules *)

(** What was sent stays sent. *)
Lemma tri_sent {A} e P (m : M RaftNode A) Q :
  tri P m Q -> tri (fun s c => P s c /\ e ∈ c.2) m (fun a s c => Q a s c /\ e ∈ c.2).
Proof.
  intros Hm s c V [HP He]. specialize (Hm s c V HP). destruct (m s) as [[a|x] s']; [|done].
  destruct Hm as (c' & L & V' & HQ). exists c'. split; [done|]. split; [done|]. split; [done|]. by eapply local_sent.
Qed.

Lemma tri_emit e (P : pnode -> Prop) :
  tracked e = false -> tri (fun _ c => P c.1 /\ (harmless e \/ e ∈ c.2)) (emit e) (fun _ _ c => P c.1).
Proof.
  intros Ht s c V [HP He]. exists (c.1, c.2 ++ [e]). split; [|split; [by apply view_emit; [|apply untracked_sendable]|done]].
  apply rtc_once. exists Tau, [e], c.1. split; [|done]. apply P_emit. destruct He; [by left|right]. by split; [|apply untracked_answer].
Qed.

Lemma tri_Send peer m (P : pnode -> Prop) :
  tracked (Sent peer m) = false -> tri (fun _ c => P c.1 /\ (harmless_message m \/ Sent peer m ∈ c.2)) (Send peer m) (fun _ _ c => P c.1).
Proof.
  intros Ht s c V [HP Hm]. rewrite Send_run. pose proof (view_answers _ _ _ _ _ V) as V'.
  destruct (env_send _); [|exists c; split; [apply rtc_refl|done]].
  exists (c.1, c.2 ++ [Sent peer m]).
  split; [|split; [by apply (view_emit _ _ _ (s <| _answers ::= S |>)); [|apply untracked_sendable]|done]].
  apply rtc_once. exists Tau, [Sent peer m], c.1. split; [|done]. apply P_emit. destruct Hm; [by left|right]. by split; [|apply untracked_answer].
Qed.

(** A run from a state reached by some actions. *)
Lemma tri_from {A} P (m : M RaftNode A) Q s c c1 :
  tri P m Q -> local c c1 -> view s c1 -> P s c1 ->
  match m s with
  | (Ok a, s') => exists c', local c c' /\ view s' c' /\ Q a s' c'
  | (Err _, s') => exists c', local c c' /\ crashed s' c'
  end.
Proof.
  intros Hm L V HP. specialize (Hm s c1 V HP). destruct (m s) as [[a|e] s'].
  - destruct Hm as (c' & L' & V' & HQ). exists c'. split; [by etrans|done].
  - destruct Hm as (c' & L' & C'). exists c'. split; [by etrans|done].
Qed.

(** * Stepping down *)

Lemma numbered_idle o trace flights seq :
  numbered me o trace flights seq -> numbered me o trace ((fun _ => no_flight) <$> flights) seq.
Proof.
  intros Hn k r [Hin|[Hin|(f & Hf & E)]]; [apply (Hn k); by left|apply (Hn k); right; by left|].
  apply lookup_fmap_Some in Hf as (g & <- & _). done.
Qed.

(** The view of an object whose read queues and proposals are about to be cleared. *)
Definition view_unread (s : RaftNode) (c : conf) : Prop := view (s <| _reads := no_reads |> <| _pending := ∅ |>) c.

Lemma view_view_unread s c : view s c -> view_unread s c.
Proof.
  intros V. apply (view_fewer _ _ _ s c no_reads) in V.
  - destruct V. split; cbn in *; assumption || done.
  - split_and!; try done; intros x Hx; by apply not_elem_of_nil in Hx.
Qed.

Lemma local_quiet c es : Forall quiet es -> local c (c.1, c.2 ++ es).
Proof.
  destruct c as [p l]. cbn. intros He. revert l. induction He as [|e es He _ IH]; intros l.
  - rewrite app_nil_r. apply rtc_refl.
  - eapply rtc_l; [|cbn; specialize (IH (l ++ [e])); rewrite <- app_assoc in IH; exact IH].
    exists Tau, [e], p. split; [|done]. apply P_emit. left. apply He.
Qed.

Lemma spoken_more net trace sent es : spoken me net trace sent -> spoken me net (trace ++ es) (sent ++ es).
Proof.
  intros [T S E]. split.
  - intros x [Hx|Hx]%elem_of_app; apply elem_of_app; [left; auto|by right].
  - intros x Hx. apply elem_of_app. left. auto.
  - by rewrite !answers_app, E, app_assoc.
Qed.

Lemma numbered_quiet o trace flights seq es : numbered me o trace flights seq -> Forall quiet es -> numbered me o (trace ++ es) flights seq.
Proof.
  intros Hn He. revert trace Hn. induction He as [|e es [_ He] _ IH]; intros trace Hn; [by rewrite app_nil_r|].
  rewrite cons_middle, app_assoc. apply IH, numbered_emit; [done|by apply untracked_sendable].
Qed.

(** The queues of an object that waits for no read. *)
Definition unread (s : RaftNode) : Prop :=
  (_unsent_reads (_reads s) = [] /\ _heartbeat_rounds (_reads s) = []) /\ _pending_reads (_reads s) = [].

Lemma hushed_view s s' c :
  view_unread s c -> _state s <> LEADER -> hushed s s' -> _pending s' = ∅ -> unread s' ->
  _can_serve_read (_reads s') = false -> exists c', local c c' /\ c'.1 = c.1 /\ view s' c'.
Proof.
  intros V Hl (Ec & Ef & Eq & _ & es & Et & He) Ep [Hr Hrp] Hcs. exists (c.1, c.2 ++ es). split; [by apply local_quiet|]. split; [done|].
  injection Ec as E1 E2 E3 E4 E5 E6 E7 E8 E9 E10 _ E12 E13 E14 E15. injection Eq as Eq Er Ek Ele.
  destruct V; cbn in *; split; unfold log_repr, sm_settled, work_ok in *; cbn in *; rewrite ?Er, ?Ek, ?Ele;
    rewrite ?E1, ?E2, ?E3, ?E4, ?E5, ?E6, ?E7, ?E8, ?E9, ?E10, ?E12, ?E13, ?E14, ?E15, ?Ef, ?Eq; try assumption; try done.
  - rewrite Ep. intros i pd Hp. by rewrite lookup_empty in Hp.
  - rewrite Et. by apply spoken_more.
  - rewrite Et. by apply numbered_quiet.
  - congruence.
Qed.

Lemma cleared reply reason (k : M RaftNode unit) s c :
  view_unread s c -> _state s <> LEADER ->
  exists s' c', (FailPending reply;; ClearReadIndexQueues reason;; on_reads (fun r => r <| _can_serve_read := false |>);; k) s = k s' /\
    local c c' /\ c'.1 = c.1 /\ view s' c'.
Proof.
  intros V Hl. pose proof (hushed_FailPending reply s) as H1'. pose proof (FailPending_ok reply s) as Eo.
  pose proof (FailPending_empty reply s) as Ep.
  rewrite M_bind_unfold. destruct (FailPending reply s) as [r s1]. cbn in H1', Eo, Ep. subst r.
  destruct (ClearReadIndexQueues_spec reason s1) as (s2 & E2 & H2' & Hr). rewrite M_bind_unfold, E2.
  assert (_pending s2 = ∅) as Ep2. { apply (anti_symm (⊆)); [rewrite <- Ep; apply H2'|apply map_empty_subseteq]. }
  rewrite M_bind_unfold. unfold on_reads. cbn [modify]. set (s3 := s2 <| _reads ::= _ |>).
  destruct (hushed_view s s3 c V) as (c' & L & Ec & V'); [done|etrans; [exact H1'|exact H2']|done|exact Hr|done|]. by exists s3, c'.
Qed.

(** The protocol node after stepping down to term [t]. *)
Definition stepped (t : Z) (p p' : pnode) : Prop :=
  p_role p' = FOLLOWER /\ p_term p' = Z.max (p_term p) t /\ p_log p' = p_log p /\
  p_commit p' = p_commit p /\ p_applied p' = p_applied p /\ p_recv p' = p_recv p /\
  p_voted p' = (if p_term p <? t then -1 else p_voted p).

(** The assignments of [BecomeFollower] after the hard state. *)
Definition follower (s : RaftNode) : RaftNode :=
  s <| _state := FOLLOWER |> <| _leader_id := -1 |> <| _votes := ∅ |> <| _peer_active := ∅ |>
    <| _lease_confirmed := ∅ |> <| _inflight ::= fmap (fun _ => no_flight) |> <| _snapshot_receive := no_receive |>.

Lemma view_follower s c :
  view s c -> view_unread (follower s) (c.1 <| p_role := FOLLOWER |> <| p_votes := ∅ |>, c.2).
Proof.
  intros V. destruct (view_view_unread s c V). split; cbn in *; try assumption; try done.
  - apply map_Forall_fmap. exact vw_flight_peers.
  - by intros [|].
  - by apply numbered_idle.
Qed.

(** The log after the hard state was saved. *)
Lemma hard_saved s (c : conf) a l t v :
  log_repr s c.1 a -> Repr l (a_save_hard (t, v) a) ->
  forall s' (p' : pnode), _log s' = l -> _last_applied s' = _last_applied s -> p_log p' = p_log c.1 ->
  p_term p' = t -> p_voted p' = v -> log_repr s' p' (a_save_hard (t, v) a).
Proof.
  intros (_ & Ei & LV & HV & Hs) Hl s' p' E1 E2 E3 E4 E5. unfold log_repr. rewrite E1, E2, E3, E4, E5.
  split; [done|]. split; [done|]. split; [by destruct LV; split|]. split; [by left|exact Hs].
Qed.

(** Saving the hard state and the assignments [g] that follow it are one step. *)
Lemma hard_write t v g s c c1 :
  view s c -> hard_ok (t, v) -> local c c1 ->
  (forall a l, log_repr s c.1 a -> Repr l (a_save_hard (t, v) a) ->
     view (g (s <| _log := l |> <| _trace ::= fun tr => tr ++ [Persisted t v] |>)) c1) ->
  (forall s, _log (g s) = _log s /\ _sm (g s) = _sm s /\ _trace (g s) = _trace s) ->
  match SaveHardState t v s with
  | (Ok _, s') => view (g s') c1
  | (Err _, s') => exists c', local c c' /\ crashed s' c'
  end.
Proof.
  intros V Hh L Hv Hg. destruct (vw_log _ _ _ _ _ V) as (a & HR). unfold SaveHardState. rewrite M_bind_unfold.
  pose proof (write_outcome members me box lead _ (fun s => g (s <| _trace ::= fun tr => tr ++ [Persisted t v] |>)) s c a _ c1 V HR
    (SaveHardState_implements (_log s) a t v (proj1 HR) Hh) L (fun l Hl => Hv a l HR Hl)) as HW. ospecialize* HW.
  { intros s2. destruct (Hg (s2 <| _trace ::= fun tr => tr ++ [Persisted t v] |>)) as (E1 & E2 & E3). rewrite E1, E2, E3.
    split; [done|]. split; [done|]. cbn [_trace]. change (answers (_trace s2 ++ [Persisted t v]) = answers (_trace s2)).
    by rewrite answers_app, app_nil_r. }
  destruct (on_log (RaftLog.SaveHardState t v) s) as [[u|e] s1]; [|done].
  destruct HW as (l & Hl & ->). exact (Hv a l HR Hl).
Qed.

(** Messages the protocol sends and the code may not. *)
Lemma spoken_unsaid net trace sent e : tracked e = false -> spoken me net trace sent -> spoken me net trace (sent ++ [e]).
Proof.
  intros He [T S E]. split.
  - intros x Hx. apply elem_of_app. left. auto.
  - intros x Hx. apply elem_of_app. left. auto.
  - rewrite answers_app, E, (answers_none [e]), app_nil_r; [done|]. intros x ->%list_elem_of_singleton. by apply untracked_answer.
Qed.

Lemma local_emit c c1 e : local c c1 -> harmless e -> local c (c1.1, c1.2 ++ [e]).
Proof.
  intros L He. etrans; [exact L|]. apply rtc_once. exists Tau, [e], c1.1. split; [|done]. apply P_emit. by left.
Qed.

(** Adopting a newer term. *)
Lemma adopt_term t s c :
  view s c -> _current_term s < t <= INT32_MAX ->
  match (SaveHardState t (-1);; modify (fun s => s <| _current_term := t |> <| _voted_for := -1 |>)) s with
  | (Ok _, s') => exists c', local c c' /\ view_unread (follower s') c' /\ stepped t c.1 c'.1
  | (Err _, s') => exists c', local c c' /\ crashed s' c'
  end.
Proof.
  intros V Ht. pose proof (vw_term _ _ _ _ _ V) as Et. pose proof (vw_term_range _ _ _ _ _ V) as Hrange.
  set (c1 := (c.1 <| p_term := t |> <| p_voted := -1 |> <| p_role := FOLLOWER |> <| p_votes := ∅ |>, c.2) : conf).
  assert (local c (c1.1, c1.2 ++ [Persisted t (-1)])) as L.
  { apply local_emit; [|done]. apply rtc_once. eexists Tau, [], _. rewrite app_nil_r.
    split; [apply (P_adopt _ _ _ _ _ _ t); lia|done]. }
  set (g := fun s : RaftNode => follower (s <| _current_term := t |> <| _voted_for := -1 |>) <| _reads := no_reads |> <| _pending := ∅ |>).
  pose proof (hard_write t (-1) g s c _ V ltac:(unfold hard_ok; cbn; unfold INT32_MAX in *; lia) L) as HW.
  rewrite M_bind_unfold. ospecialize* HW; [|done|].
  { intros a l HR Hl. destruct V. split; cbn; try assumption; try done; try lia.
    - apply map_Forall_fmap. exact vw_flight_peers.
    - exists (a_save_hard (t, -1) a). by apply (hard_saved s c a l t (-1)).
    - intros i Hi. destruct (vw_terms i Hi). lia.
    - by apply spoken_emit.
    - apply numbered_emit; [|done]. by apply numbered_idle. }
  destruct (SaveHardState t (-1) s) as [[u|e] s1]; [|done]. eexists. split; [exact L|]. split; [exact HW|].
  unfold stepped. cbn. destruct (Z.ltb_spec (p_term c.1) t); [|lia]. repeat split; lia.
Qed.

(** What [BecomeFollower] does once the hard state is right. *)
Lemma follower_rest t c0 changed s1 c1 :
  local c0 c1 -> view_unread (follower s1) c1 -> stepped t c0.1 c1.1 ->
  match (modify follower;; ResetElectionTimer;; FailPending (lit "-ERR leadership lost; outcome unknown" ++ crlf);;
         ClearReadIndexQueues (lit "leadership lost");; on_reads (fun r => r <| _can_serve_read := false |>);;
         s ← get; when changed (emit (Logged FOLLOWER (_current_term s)))) s1 with
  | (Ok a, s') => exists c', local c0 c' /\ view s' c' /\ stepped t c0.1 c'.1
  | (Err _, s') => exists c', local c0 c' /\ crashed s' c'
  end.
Proof.
  intros L1 V1 St1. rewrite M_bind_unfold. cbn [modify]. rewrite M_bind_unfold.
  unfold ResetElectionTimer, Now. run. cbn [modify].
  match goal with |- context [(FailPending ?a;; ClearReadIndexQueues ?b;; on_reads _;; ?k) ?s2] =>
    destruct (cleared a b k s2 c1) as (s3 & c3 & -> & L3 & E3 & V3) end.
  { destruct V1. split; cbn in *; assumption. }
  { done. }
  apply (tri_from (fun _ c => stepped t c0.1 c.1)) with c3; [|by etrans|done|by rewrite E3].
  apply (tri_keep _ _ _ _ _ (stepped t c0.1)); [calm_auto|by intros p p' ->].
Qed.

Lemma tri_BecomeFollower t c0 :
  0 <= t <= INT32_MAX ->
  tri (fun _ c => c = c0) (BecomeFollower t) (fun _ _ c => stepped t c0.1 c.1).
Proof.
  intros Ht s c V ->. unfold BecomeFollower. rewrite M_bind_unfold. cbn [get]. rewrite M_bind_unfold.
  pose proof (vw_term _ _ _ _ _ V) as Et. destruct (Z.ltb_spec (_current_term s) t) as [Hlt|Hge]; unfold when at 1; cbn [orb].
  - rewrite orb_true_r. pose proof (adopt_term t s c0 V ltac:(lia)) as HA.
    match type of HA with match ?x with _ => _ end => destruct x as [[u|e] s1] end; [|done].
    destruct HA as (c1 & L1 & V1 & S1). by apply (follower_rest t c0 true s1 c1).
  - rewrite orb_false_r. cbn [mret M_ret].
    apply (follower_rest t c0 _ s (c0.1 <| p_role := FOLLOWER |> <| p_votes := ∅ |>, c0.2)).
    + apply rtc_once. eexists Tau, [], _. rewrite app_nil_r. split; [|done]. apply P_step_down. by left.
    + by apply view_follower.
    + unfold stepped. cbn. destruct (Z.ltb_spec (p_term c0.1) t); [lia|]. repeat split; lia.
Qed.

Lemma tri_BecomeFollower_role t P :
  (forall s c, view s c -> P s c -> 0 <= t <= INT32_MAX) -> tri P (BecomeFollower t) (fun _ _ c => p_role c.1 = FOLLOWER).
Proof.
  intros Ht s c V HP. pose proof (tri_BecomeFollower t c (Ht s c V HP) s c V eq_refl) as HB.
  destruct (BecomeFollower t s) as [[u|e] s']; [|done]. destruct HB as (c' & L & V' & S'). exists c'. split; [done|].
  split; [done|apply S'].
Qed.

Lemma tri_BecomeFollower_any t P :
  (forall s c, view s c -> P s c -> 0 <= t <= INT32_MAX) -> tri P (BecomeFollower t) (fun _ _ _ => True).
Proof. intros Ht. by eapply tri_conseq; [apply tri_BecomeFollower_role|..]. Qed.

Lemma tri_CheckQuorum : tri (fun _ _ => True) CheckQuorum (fun _ _ _ => True).
Proof.
  unfold CheckQuorum. apply tri_get. intros s0. apply tri_bind with (fun _ _ _ => True).
  { apply tri_calm; [auto with calm|done]. }
  intros _. apply tri_if; intros _; [by apply tri_ret|]. apply tri_bind with (fun _ _ _ => True).
  { apply tri_calm; [auto with calm|done]. }
  intros now. apply tri_get. intros s1. apply tri_if; intros _; [by apply tri_ret|]. apply tri_if; intros _; [by apply tri_ret|].
  apply tri_BecomeFollower_any. intros s c V [-> _]. apply V.
Qed.

(** * Winning an election *)

(** The loop that resets the bookkeeping of every peer. *)
Definition reset_peer (next : RaftLog -> Z) (peer : PeerInfo) (s : RaftNode) : RaftNode :=
  s <| _next_index ::= <[peer_id peer := next (_log s)]> |>
    <| _match_index ::= <[peer_id peer := 0]> |> <| _inflight ::= <[peer_id peer := no_flight]> |>.

Lemma reset_loop next peers s :
  for_each peers (fun peer => modify (reset_peer next peer)) s =
    (Ok tt, s <| _next_index := reset_map (peer_ids peers) (next (_log s)) (_next_index s) |>
              <| _match_index := reset_map (peer_ids peers) 0 (_match_index s) |>
              <| _inflight := reset_map (peer_ids peers) no_flight (_inflight s) |>).
Proof.
  revert s. induction peers as [|peer peers IH]; intros s; [by destruct s|]. cbn [for_each]. rewrite M_bind_unfold.
  cbn [modify]. rewrite IH. done.
Qed.

Lemma no_flight_ok c k : flight_ok c k no_flight.
Proof. by split. Qed.

(** A new leader: everything reset, nothing sent yet. *)
Lemma view_leader s c s' :
  view s c -> _state s = CANDIDATE ->
  s' = s <| _state := LEADER |> <| _leader_id := _node_id s |> <| _peer_active := ∅ |> <| _lease_confirmed := ∅ |> ->
  view (s' <| _next_index := reset_map (peer_ids (_all_peers s)) (_last_index (_log s) + 1) (_next_index s) |>
           <| _match_index := reset_map (peer_ids (_all_peers s)) 0 (_match_index s) |>
           <| _inflight := reset_map (peer_ids (_all_peers s)) no_flight (_inflight s) |>)
    (c.1 <| p_role := LEADER |> <| p_votes := ∅ |> <| p_match := ∅ |> <| p_asks := [] |> <| p_answers := [] |>, c.2).
Proof.
  intros V Hr ->. assert (forall k, k ∈ peer_ids (_all_peers s) <-> k ∈ members) as Hids.
  { intros k. rewrite (vw_peers _ _ _ _ _ V). apply elem_of_elements. }
  assert (0 <= _last_index (_log s)) as Hlast.
  { destruct (vw_log _ _ _ _ _ V) as (a & (C & [W _ _]) & _). rewrite (c_last_index _ _ C). pose proof (a_last_index_ge a).
    pose proof (wf_snap_index _ W). lia. }
  destruct V. split; cbn; try assumption; try done.
  - intros k v. rewrite reset_map_lookup. case_bool_decide as Hk; [intros [= <-]; split; [by apply Hids|lia]|apply vw_next].
  - intros k v. rewrite reset_map_lookup. case_bool_decide as Hk; [intros [= <-]; split; [by apply Hids|lia]|apply vw_matches].
  - intros k v. rewrite reset_map_lookup. case_bool_decide as Hk; [intros [= <-]; by apply Hids|apply vw_flight_peers].
  - auto.
  - intros k v _. rewrite reset_map_lookup. case_bool_decide as Hk; [intros [= <-]; lia|].
    intros Hm. destruct (vw_matches k v Hm) as [Hx _]. by apply Hids in Hx.
  - intros _ k f. rewrite reset_map_lookup. case_bool_decide as Hk; [intros [= <-]; apply no_flight_ok|].
    intros Hm. pose proof (vw_flight_peers k f Hm) as Hx. by apply Hids in Hx.
  - intros i pd Hp. destruct (vw_pending i pd Hp). congruence.
  - intros k r [Hin|[Hin|(f & Hf & E)]]; [apply (vw_requests k); by left|apply (vw_requests k); right; by left|].
    rewrite reset_map_lookup in Hf. case_bool_decide as Hk; [by injection Hf as <-|]. apply (vw_requests k). right. right. by exists f.
  - intros a Ha. by apply not_elem_of_nil in Ha.
  - intros _ _. destruct (vw_reads ltac:(congruence)) as [Eu Er]. pose proof (vw_unread ltac:(congruence)) as Ep.
    split; [rewrite Eu|rewrite Er|rewrite Ep]; intros x Hx; by apply not_elem_of_nil in Hx.
  - intros Hs. by destruct (vw_serve Hs); congruence.
Qed.

Lemma last_index_length s c : view s c -> _last_index (_log s) = #(p_log c.1).
Proof. intros V. destruct (vw_log _ _ _ _ _ V) as (a & (C & _) & _ & LV & _). by rewrite (c_last_index _ _ C), (lv_length _ _ LV). Qed.

Lemma tri_BecomeLeader :
  tri (fun _ c => p_role c.1 = CANDIDATE /\ majority members (p_votes c.1)) BecomeLeader (fun _ _ _ => True).
Proof.
  intros s c V [Hr Hm]. pose proof Hr as Hr'. rewrite (vw_role _ _ _ _ _ V) in Hr'.
  unfold BecomeLeader. rewrite M_bind_unfold. cbn [modify]. rewrite M_bind_unfold. cbn [get]. rewrite M_bind_unfold. unfold emit at 1. cbn [modify].
  rewrite M_bind_unfold.
  match goal with |- context [for_each (_all_peers ?s1) _ ?s2] =>
    pose proof (reset_loop (fun l => _last_index l + 1) (_all_peers s1) s2) as EL;
    change (for_each (_all_peers s1) _ s2) with (for_each (_all_peers s1) (fun peer => modify (reset_peer (fun l => _last_index l + 1) peer)) s2) end.
  rewrite EL. clear EL.
  pose proof (view_leader s c _ V Hr' eq_refl) as V1. apply (view_emit _ _ _ _ _ (Logged LEADER (_current_term s))) in V1; [|by apply untracked_sendable].
  set (c1 := (_, _)) in V1.
  assert (local c c1) as L1.
  { eapply rtc_l; [eexists Won, [], _; split; [by apply P_win|done]|]. rewrite app_nil_r.
    apply rtc_once. eexists Tau, [_], _. split; [|done]. apply P_emit. by left. }
  match goal with |- match ?m ?s2 with _ => _ end => assert (view s2 c1) as V2 by exact V1 end.
  eapply (tri_from (fun _ c => p_role c.1 = LEADER)); [|exact L1|exact V2|done]. clear - H0 H2 me_member ids_ok.
  apply tri_bind with (fun _ _ c => p_role c.1 = LEADER).
  { apply tri_modify. intros s c V Hr. rewrite (last_index_length s c V).
    destruct (match_self members me box lead me_member s c #(p_log c.1) V Hr ltac:(lia)) as (c' & L & V' & Hr').
    exists c'. split; [done|]. split; [|done]. destruct V'. split; cbn in *; assumption. }
  intros _. apply tri_bind with (fun _ _ _ => True); [apply tri_calm; [auto with calm|done]|intros _].
  apply tri_bind with (fun _ _ _ => True); [apply tri_ProposeBatch; [done|]; by intros p ->%list_elem_of_singleton|intros _].
  apply tri_calm; [calm_auto|done].
Qed.

(** * Campaigning *)

Lemma last_term_at s c : view s c -> _last_term (_log s) = term_at (p_log c.1) #(p_log c.1).
Proof.
  intros V. destruct (vw_log _ _ _ _ _ V) as (a & (C & [W _ _]) & _ & LV & _).
  by rewrite (c_last_term _ _ C), (log_view_last_term a (p_log c.1)).
Qed.

(** The broadcast of a candidate in the protocol state [p]. *)
Definition ballot (p : pnode) : Effect :=
  Broadcasted (MRequestVote (mkRequestVote (p_term p) me #(p_log p) (term_at (p_log p) #(p_log p)) false)).

Lemma candidacy s c :
  view s c -> _state s <> LEADER -> _current_term s <> INT32_MAX ->
  match (SaveHardState (_current_term s + 1) (_node_id s);;
         modify (fun s => s <| _current_term ::= Z.succ |> <| _voted_for := _node_id s |> <| _state := CANDIDATE |>
           <| _leader_id := -1 |> <| _votes := {[_node_id s]} |>)) s with
  | (Ok _, s') => exists c', local c c' /\ view s' c' /\
      (p_role c'.1 = CANDIDATE /\ p_votes c'.1 = {[me]}) /\ ballot c'.1 ∈ c'.2
  | (Err _, s') => exists c', local c c' /\ crashed s' c'
  end.
Proof.
  intros V Hr Ht. pose proof (vw_term _ _ _ _ _ V) as Et. pose proof (vw_term_range _ _ _ _ _ V) as Hrange.
  pose proof (vw_id _ _ _ _ _ V) as Eid. rewrite Eid. pose proof (ids_ok _ me_member) as Hme.
  set (p1 := c.1 <| p_term ::= Z.succ |> <| p_voted := me |> <| p_role := CANDIDATE |> <| p_votes := {[me]} |>).
  set (c1 := (p1, c.2 ++ [ballot p1]) : conf).
  set (t := _current_term s + 1). assert (local c (c1.1, c1.2 ++ [Persisted t me])) as L.
  { apply local_emit; [|done]. apply rtc_once. eexists Campaigned, _, _. split; [apply P_campaign|done]. }
  set (g := fun s : RaftNode => s <| _current_term ::= Z.succ |> <| _voted_for := _node_id s |> <| _state := CANDIDATE |>
    <| _leader_id := -1 |> <| _votes := {[_node_id s]} |>).
  pose proof (hard_write t me g s c _ V ltac:(unfold hard_ok; cbn; unfold INT32_MAX in *; lia) L) as HW.
  rewrite M_bind_unfold. ospecialize* HW; [|done|].
  { intros a l HR Hl. destruct V. split; cbn; try assumption; try done; try lia.
    - intros _. rewrite Eid. split; [done|]. set_solver.
    - exists (a_save_hard (t, me) a). apply (hard_saved s c a l t me); try done. cbn. lia.
    - intros i Hi. destruct (vw_terms i Hi). lia.
    - intros _. by apply vw_reads.
    - intros i pd Hp. by destruct (vw_pending i pd Hp).
    - right. by rewrite Eid.
    - by apply spoken_emit, spoken_unsaid.
    - by apply numbered_emit.
    - auto.
    - intros Hs. by destruct (vw_serve Hs). }
  destruct (SaveHardState t me s) as [[u|e] s1]; [|done]. eexists. split; [exact L|]. split; [exact HW|].
  split; [done|]. cbn. set_solver.
Qed.

Definition balloted (c : conf) : Prop := (p_role c.1 = CANDIDATE /\ p_votes c.1 = {[me]}) /\ ballot c.1 ∈ c.2.

Lemma tri_balloted {A} (m : M RaftNode A) : evolves calm m -> tri (fun _ => balloted) m (fun _ _ => balloted).
Proof.
  intros Hm s c V [HP Hb]. specialize (Hm s c V).
  destruct (m s) as [[a|e] s']; destruct Hm as [_ (c' & L & Sm & V')]; exists c'; (split; [done|]); [|by eapply view_crashed].
  split; [done|]. pose proof (local_sent _ _ _ _ _ _ _ L Hb) as Hb'. unfold balloted, ballot in *. rewrite Sm in *. done.
Qed.

Lemma vote_request_ballot s c : view s c -> Broadcasted (vote_request (_current_term s) false s) = ballot c.1.
Proof.
  intros V. unfold vote_request, ballot.
  by rewrite (last_index_length s c V), (last_term_at s c V), (vw_term _ _ _ _ _ V), (vw_id _ _ _ _ _ V).
Qed.

Lemma tri_BecomeCandidate : tri (fun s _ => _state s <> LEADER) BecomeCandidate (fun _ _ _ => True).
Proof.
  intros s c V Hr. unfold BecomeCandidate. rewrite M_bind_unfold. cbn [get].
  destruct (Z.eqb_spec (_current_term s) INT32_MAX) as [E|E].
  { exists c. split; [apply rtc_refl|]. by eapply view_crashed. }
  pose proof (candidacy s c V Hr E) as HC. rewrite !M_bind_unfold in *.
  destruct (SaveHardState _ _ s) as [[u|e] s1]; [|done]. rewrite M_bind_unfold. cbn [modify] in *.
  destruct HC as (c1 & L1 & V1 & HP).
  refine (tri_from (fun _ => balloted) _ _ _ c c1 _ L1 V1 HP). clear - H0 H2 me_member ids_ok.
  eapply tri_bind; [apply tri_balloted; auto with calm|]. intros []. apply tri_get. intros s1.
  apply tri_bind with (fun _ s c => balloted c /\ core s = core s1).
  { intros s c V (-> & Hb). exists (c.1, c.2 ++ [Logged CANDIDATE (_current_term s1)]).
    split; [by apply local_emit; [apply rtc_refl|]|]. split; [by apply view_emit; [|apply untracked_sendable]|]. split; [|done].
    split; [apply Hb|]. cbn. apply elem_of_app. left. apply Hb. }
  intros _. apply tri_if; intros Hq.
  - eapply tri_conseq; [apply tri_BecomeLeader| |done]. intros s c V [[[Hr Hv] _] Ec]. split; [done|]. rewrite Hv.
    apply (quorum_of_one _ _ lead s c V). apply Z.eqb_eq in Hq. unfold QuorumSize in *. injection Ec. congruence.
  - unfold Broadcast. intros s c V [[HP Hb] Ec].
    replace (vote_request (_current_term s1) false s1) with (vote_request (_current_term s) false s)
      by (unfold vote_request; injection Ec; congruence).
    rewrite (vote_request_ballot s c V). exact (tri_emit (ballot c.1) (fun _ => True) eq_refl s c V (conj I (or_intror Hb))).
Qed.

Lemma tri_BecomePreCandidate : tri (fun s _ => _state s <> LEADER) BecomePreCandidate (fun _ _ _ => True).
Proof.
  unfold BecomePreCandidate. apply tri_get. intros s0. apply tri_if; intros _.
  { eapply tri_conseq; [apply tri_BecomeCandidate| |done]. by intros s c V [-> Hr]. }
  apply tri_if; intros _; [apply tri_throw|]. apply tri_bind with (fun _ _ _ => True).
  - apply tri_modify. intros s c V [-> Hr]. exists (c.1 <| p_role := PRE_CANDIDATE |> <| p_votes := ∅ |>, c.2).
    split; [|split; [|done]].
    + apply rtc_once. eexists Tau, [], _. rewrite app_nil_r. split; [|done]. apply P_step_down. by right.
    + destruct V. split; cbn; try assumption; try done; [by intros [|]|auto|..|auto|].
      * intros i pd Hp. by destruct (vw_pending i pd Hp).
      * intros Hs. by destruct (vw_serve Hs).
  - intros _. apply tri_calm; [|done]. unfold Broadcast. calm_auto.
Qed.
End NodeElection.
