(* ===== verification/NodeVotes.v ===== *)
(** The vote handlers as actions of the protocol. *)
From stdpp Require Import base numbers strings gmap list.
From S2P Require Import Prelude Effects Storage Messages RaftLog LogSpec LogProofs LogRecovery.
From S2P Require Import KVStore KVStateMachine KVTheorems KVReplay Metrics Peers RaftState RaftNode RaftProtocol ProtocolSafety.
From S2P Require Import NodeView NodeCalm NodeReads NodeApply NodeCommit NodeElection.

Section NodeVotes.
Context `{RocksDBSpec} `{LogEntryCodecSpec} `{!Env} {asks : Requests}.
Context (members : gset Z) (me : Z) (box : option (Z * Message)) (lead : outside).
Context (me_member : me ∈ members) (ids_ok : forall k, k ∈ members -> 0 <= k <= INT32_MAX).
Abbreviation calm := (calm members me box lead).
Abbreviation view := (view members me (look lead)).
Abbreviation local := (local members me box lead).
Abbreviation crashed := (crashed members me (look lead)).
Abbreviation tri := (tri members me box lead).

Lemma remote_peer s c from : view s c -> IsRemotePeer from s = true -> from ∈ members /\ from <> me.
Proof.
  intros V [Hn Hk]%andb_true_iff. apply negb_true_iff, Z.eqb_neq in Hn. apply bool_decide_eq_true_1 in Hk as [v Hv].
  rewrite (vw_id _ _ _ _ _ V) in Hn. split; [by apply (vw_next _ _ _ _ _ V _ _ Hv)|done].
Qed.

(** A conclusion of a guard that was false. *)
Lemma tri_guard {A} (b : bool) P (m : M RaftNode A) Q m0 :
  (b = true -> tri P m0 Q) -> (b = false -> tri P m Q) -> tri P (if b then m0 else m) Q.
Proof. destruct b; auto. Qed.

(** A fact of the state at the start that does not mention it later. *)
Lemma tri_learn {A} (K : Prop) P (m : M RaftNode A) Q :
  (forall s c, view s c -> P s c -> K) -> (K -> tri P m Q) -> tri P m Q.
Proof. intros HK Hm s c V HP. by apply Hm; [eapply HK|..]. Qed.

Lemma tri_True_calm {A} (m : M RaftNode A) P : evolves calm m -> tri P m (fun _ _ _ => True).
Proof. intros Hm. by apply tri_calm. Qed.

Lemma tri_reply_vote from prevote granted P :
  (forall s c, view s c -> P s c -> (granted = false \/ prevote = true) \/
     Sent from (MRequestVoteResponse (mkRequestVoteResponse (p_term c.1) granted prevote)) ∈ c.2) ->
  tri P (reply_vote from prevote granted) (fun _ _ _ => True).
Proof.
  intros HP. unfold reply_vote. apply tri_get. intros s0. apply tri_bind with (fun _ _ _ => True); [|by intros; apply tri_ret].
  intros s c V [-> Hs]. pose proof (HP _ _ V Hs) as Hm. rewrite (vw_term _ _ _ _ _ V) in Hm.
  refine (tri_Send members me box lead from (MRequestVoteResponse _) (fun _ => True) eq_refl s0 c V (conj I _)). exact Hm.
Qed.

(** * Granting a vote *)

Lemma up_to_date_check s c i t :
  view s c -> IsLogUpToDate i t s = true -> up_to_date i t (p_log c.1).
Proof.
  intros V. unfold IsLogUpToDate, up_to_date. rewrite (last_index_length members me lead s c V), (last_term_at members me lead s c V).
  destruct (Z.eqb_spec t (term_at (p_log c.1) #(p_log c.1))); cbn; [intros ?%Z.leb_le; right|intros ?%Z.ltb_lt; left]; lia.
Qed.

Lemma grant_vote from r s c :
  box = Some (from, MRequestVote r) -> rv_prevote r = false -> from ∈ members -> from <> me ->
  view s c -> rv_term r = _current_term s -> _voted_for s = -1 \/ _voted_for s = from ->
  IsLogUpToDate (rv_last_log_index r) (rv_last_log_term r) s = true ->
  match (SaveHardState (_current_term s) from;; modify (fun s => s <| _voted_for := from |>);; ResetElectionTimer) s with
  | (Ok _, s') => exists c', local c c' /\ view s' c' /\
      Sent from (MRequestVoteResponse (mkRequestVoteResponse (p_term c'.1) true false)) ∈ c'.2
  | (Err _, s') => exists c', local c c' /\ crashed s' c'
  end.
Proof.
  intros Hbox Hpv Hin Hne V Et Hv Hu. pose proof (vw_term _ _ _ _ _ V) as Et'. pose proof (ids_ok _ Hin) as Hid.
  set (reply := Sent from (MRequestVoteResponse (mkRequestVoteResponse (p_term c.1) true false))).
  set (c1 := (c.1 <| p_voted := from |>, c.2 ++ [reply]) : conf). set (t := _current_term s).
  assert (local c (c1.1, c1.2 ++ [Persisted t from])) as L.
  { apply local_emit; [|done]. apply rtc_once. eexists (Voted from), _, _.
    split; [apply (P_vote _ _ _ _ _ _ from r); try done; [lia|by rewrite (vw_voted _ _ _ _ _ V)|by apply (up_to_date_check s)]|done]. }
  pose proof (hard_write members me box lead t from (fun s => s <| _voted_for := from |>) s c _ V
    ltac:(pose proof (vw_term_range _ _ _ _ _ V); unfold hard_ok; cbn; unfold t, INT32_MAX in *; lia) L) as HW.
  ospecialize* HW; [|done|].
  { intros a l HR Hl. destruct V. split; cbn; try assumption; try done.
    - exists (a_save_hard (t, from) a). apply (hard_saved s c a l t from); done.
    - intros Hl' k f Hk. eapply flight_ok_later; [..|by apply (vw_flights Hl')]; cbn; try done. set_solver.
    - by right.
    - by apply spoken_emit, spoken_unsaid.
    - by apply numbered_emit.
    - keep_queue. }
  rewrite M_bind_unfold. destruct (SaveHardState t from s) as [[u|e] s1]; [|done]. rewrite M_bind_unfold. cbn [modify].
  assert (forall A (m : M RaftNode A), evolves calm m ->
    tri (fun _ c => p_term c.1 = p_term c1.1 /\ reply ∈ c.2) m (fun _ _ c => p_term c.1 = p_term c1.1 /\ reply ∈ c.2)) as HK.
  { intros A m Hm. eapply tri_sent, (tri_keep _ _ _ _ _ (fun p => p_term p = p_term c1.1)); [done|]. by intros p p' ->. }
  pose proof (tri_from members me box lead _ _ _ _ c _ (HK _ _ (calm_ResetElectionTimer members me box lead)) L HW) as HT.
  cbn beta in HT. ospecialize* HT; [split; [done|cbn; set_solver]|].
  destruct (ResetElectionTimer _) as [[u'|e] s2]; [|done]. destruct HT as (c2 & L2 & V2 & E2 & Hr2).
  exists c2. split; [done|]. split; [done|]. by rewrite E2.
Qed.

Lemma tri_HandleRequestVote from r :
  box = Some (from, MRequestVote r) -> rv_term r <= INT32_MAX ->
  tri (fun _ _ => True) (HandleRequestVote from r) (fun _ _ _ => True).
Proof.
  intros Hbox Ht. unfold HandleRequestVote. apply tri_get. intros s0. cbn zeta. apply tri_guard; intros Hg; [by apply tri_ret|].
  assert (IsRemotePeer from s0 = true /\ 0 < rv_term r) as [Hrem Hpos].
  { destruct (IsRemotePeer from s0), (Z.leb_spec (rv_term r) 0); cbn in Hg; rewrite ?orb_true_r in Hg; done. }
  apply (tri_learn (from ∈ members /\ from <> me)); [intros s c V [-> _]; by apply (remote_peer s0 c)|intros [Hin Hne]].
  destruct (rv_prevote r) eqn:Hpv; cbn [andb].
  { apply tri_guard; intros _; [apply tri_reply_vote; auto|]. apply tri_bind with (fun _ _ _ => True).
    { apply tri_True_calm. calm_auto. }
    intros [|]; apply tri_reply_vote; auto. }
  apply tri_bind with (fun _ _ _ => True); [apply tri_True_calm; calm_auto|intros heard].
  apply tri_guard; intros _; [apply tri_reply_vote; auto|].
  apply tri_bind with (fun _ _ _ => True).
  { apply tri_when; intros _; [|auto]. apply tri_BecomeFollower_any; [done..|lia]. }
  intros _. apply tri_get. intros s1.
  set (grant := (rv_term r =? _current_term s1) && ((_voted_for s1 =? -1) || (_voted_for s1 =? from))
        && IsLogUpToDate (rv_last_log_index r) (rv_last_log_term r) s1).
  apply tri_bind with (fun _ _ c => grant = false \/
    Sent from (MRequestVoteResponse (mkRequestVoteResponse (p_term c.1) true false)) ∈ c.2).
  - apply tri_when; intros Hgr; [|auto]. intros s c V [-> _].
    apply andb_true_iff in Hgr as [[E1%Z.eqb_eq E2]%andb_true_iff E3].
    assert (_voted_for s1 = -1 \/ _voted_for s1 = from) as Ev by (apply orb_true_iff in E2 as [?%Z.eqb_eq|?%Z.eqb_eq]; auto).
    pose proof (grant_vote from r s1 c Hbox Hpv Hin Hne V E1 Ev E3) as HG.
    match type of HG with match ?x with _ => _ end => destruct x as [[u|e] s2] end; [|done].
    destruct HG as (c2 & L2 & V2 & Hs2). exists c2. auto.
  - intros _. apply tri_reply_vote. intros s c V [->|Hs]; [auto|]. destruct grant; auto.
Qed.

Lemma tri_HandleRequestVoteResponse from r :
  box = Some (from, MRequestVoteResponse r) -> rvr_term r <= INT32_MAX ->
  tri (fun _ _ => True) (HandleRequestVoteResponse from r) (fun _ _ _ => True).
Proof.
  intros Hbox Ht. unfold HandleRequestVoteResponse. apply tri_get. intros s0. apply tri_guard; intros Hg; [by apply tri_ret|].
  apply orb_false_iff in Hg as [_ Hrem%negb_false_iff]. apply tri_guard; intros Hlt.
  { apply tri_BecomeFollower_any; [done..|]. intros s c V [-> _]. apply Z.ltb_lt in Hlt. pose proof (vw_term_range _ _ _ _ _ V). lia. }
  apply tri_guard; intros Hpre.
  - apply bool_decide_eq_true_1 in Hpre. apply tri_when; intros _; [|auto].
    apply tri_bind with (fun _ s _ => _state s <> LEADER).
    { apply tri_modify. intros s c V [-> _]. exists c. split; [apply rtc_refl|]. split; [|cbn; by rewrite Hpre].
      destruct V. split; cbn; try assumption. by rewrite Hpre. }
    intros _. apply tri_get. intros s1. apply tri_when; intros _; [|auto].
    eapply tri_conseq; [by apply tri_BecomeCandidate| |done]. by intros s c V [-> Hr].
  - apply tri_guard; intros Hc; [by apply tri_ret|]. apply orb_false_iff in Hc as [[Hr Hpv]%orb_false_iff Et].
    apply negb_false_iff, bool_decide_eq_true_1 in Hr. apply negb_false_iff, Z.eqb_eq in Et.
    apply tri_when; intros Hgr; [|auto]. apply tri_bind with (fun _ _ c => p_role c.1 = CANDIDATE).
    + apply tri_modify. intros s c V [-> _]. destruct (remote_peer s0 c from V Hrem) as [Hin Hne].
      destruct (vw_votes _ _ _ _ _ V Hr) as [Ev Hsub].
      exists (c.1 <| p_votes ::= fun vs => {[from]} ∪ vs |>, c.2). split; [|split; [|cbn; by rewrite (vw_role _ _ _ _ _ V)]].
      * apply rtc_once. eexists Tau, [], _. rewrite app_nil_r. split; [|done].
        apply (P_count _ _ _ _ _ _ from r); try done; [by rewrite (vw_term _ _ _ _ _ V)|by rewrite (vw_role _ _ _ _ _ V)].
      * destruct V. split; cbn; try assumption; try keep_queue. intros _. rewrite Ev. split; [done|]. set_solver.
    + intros _. apply tri_get. intros s1. apply tri_when; intros Hq; [|auto].
      eapply tri_conseq; [by apply tri_BecomeLeader| |done]. intros s c V [-> Hr1]. split; [done|].
      rewrite (vw_role _ _ _ _ _ V) in Hr1. destruct (vw_votes _ _ _ _ _ V Hr1) as [-> Hsub]. split; [done|].
      apply Z.leb_le in Hq. unfold QuorumSize in Hq. rewrite (peers_size members me lead s1 c V) in Hq. lia.
Qed.
End NodeVotes.
