(* ===== verification/NodeFollower.v ===== *)
(** The AppendEntries handler as actions of the protocol. *)
From stdpp Require Import base numbers strings gmap list.
From S2P Require Import Prelude Effects Storage Messages RaftLog LogSpec LogProofs LogRecovery.
From S2P Require Import Resp KVStore KVStateMachine KVTheorems KVReplay Metrics Peers RaftState RaftNode RaftProtocol ProtocolSafety.
From S2P Require Import NodeView NodeCalm NodeReads NodeApply NodeCommit NodeElection NodeVotes.

(** * Valid requests *)

Lemma valid_entries_extends prev pt t es :
  valid_entries prev pt t es = true -> t <= INT32_MAX ->
  extends prev pt es /\ Forall (fun e => 0 < term e <= t /\ #(command e) <= kMaxCommandBytes) es.
Proof.
  intros Hv Ht. revert prev pt Hv. induction es as [|x es IH]; intros prev pt; cbn [valid_entries extends]; [by split|].
  rewrite !andb_true_iff, !Z.ltb_lt, !Z.leb_le, Z.eqb_eq. intros (((((E1 & E2) & E3) & E4) & E5) & E6).
  destruct (IH _ _ E6) as [X F]. split; [|by constructor]. split; [done|]. split; [lia|]. done.
Qed.

Lemma extends_entry i t es j e : extends i t es -> es !! j = Some e -> index e = i + Z.of_nat j + 1 /\ 0 < term e.
Proof.
  revert i t j. induction es as [|x es IH]; intros i t [|j]; cbn; try done.
  - intros (E & Ht & _) [= <-]. lia.
  - intros (_ & _ & _ & X) Hj. destruct (IH _ _ _ X Hj). lia.
Qed.

(** A suffix of entries continues the log that ends where it starts. *)
Lemma extends_drop i t es n :
  extends i t es -> (n <= length es)%nat ->
  extends (i + Z.of_nat n) (last_term_from t (take n es)) (drop n es).
Proof.
  intros X Hn. rewrite <- (take_drop n es), extends_app in X. destruct X as [_ X].
  by rewrite length_take, Nat.min_l in X by lia.
Qed.

Section NodeFollower.
Context `{RocksDBSpec} `{LogEntryCodecSpec} `{!Env} {asks : Requests}.
Context (members : gset Z) (me : Z) (box : option (Z * Message)) (lead : outside).
Context (me_member : me ∈ members) (ids_ok : forall k, k ∈ members -> 0 <= k <= INT32_MAX).
Abbreviation calm := (calm members me box lead).
Abbreviation view := (view members me (look lead)).
Abbreviation local := (local members me box lead).
Abbreviation crashed := (crashed members me (look lead)).
Abbreviation tri := (tri members me box lead).

(** What a term read from the log means. *)
Lemma read_at_cases i t s c :
  view s c -> read_at i t s c -> 0 < i ->
  (t = -1 /\ (i < _snapshot_index (_log s) \/ #(p_log c.1) < i)) \/
  (0 < t /\ t = term_at (p_log c.1) i /\ _snapshot_index (_log s) <= i <= #(p_log c.1)).
Proof.
  intros V (a & HR & ->) Hi. pose proof (snap_nonneg _ _ _ HR). pose proof HR as ((C & _) & _ & LV & _).
  rewrite (c_snap_index _ _ C). destruct (Z.lt_ge_cases i (a_snap_index a)) as [Hlt|Hge].
  - left. rewrite log_view_hidden by lia. auto.
  - rewrite (log_view_term a (p_log c.1)) by (done || lia).
    destruct (Z.le_gt_cases i #(p_log c.1)) as [Hle|Hgt].
    + right. pose proof (vw_terms _ _ _ _ _ V i ltac:(lia)). split; [lia|]. split; [done|lia].
    + left. split; [|auto]. apply term_at_outside; auto.
Qed.

(** * Reconciling *)

Context (from : Z) (r : AppendEntries).
Hypothesis box_is : box = Some (from, MAppendEntries r).
Hypothesis not_me : from <> me.
Hypothesis prev_term : 0 <= ae_prev_log_term r.
Hypothesis prev_index : 0 <= ae_prev_log_index r.
Hypothesis entries_ok : valid_entries (ae_prev_log_index r) (ae_prev_log_term r) (ae_term r) (ae_entries r) = true.
Hypothesis entries_valid : well_formed (ae_entries r).
Hypothesis end_ok : ae_end r <= INT64_MAX.
Hypothesis term_ok : ae_term r <= INT32_MAX.
Abbreviation prev := (ae_prev_log_index r).
Abbreviation es := (ae_entries r).

(** The node follows the sender, the previous entry matches, and so do the
    first [k] entries as far as the log can still be read. *)
Record agrees (k : nat) (s : RaftNode) (c : conf) : Prop := {
  ag_term : p_term c.1 = ae_term r;
  ag_role : p_role c.1 = FOLLOWER;
  ag_prev : prev <= #(p_log c.1) /\ term_at (p_log c.1) prev = ae_prev_log_term r;
  ag_entries j e : (j < k)%nat -> es !! j = Some e ->
    _snapshot_index (_log s) <= index e <= #(p_log c.1) -> term_at (p_log c.1) (index e) = term e;
}.

Lemma entry_index j e : es !! j = Some e -> index e = prev + Z.of_nat j + 1 /\ 0 < term e <= ae_term r.
Proof.
  intros Hj. destruct (valid_entries_extends _ _ _ _ entries_ok term_ok) as [X F].
  destruct (extends_entry _ _ _ _ _ X Hj). split; [done|]. by apply (Forall_lookup_1 _ _ _ _ F Hj).
Qed.

Lemma snapshot_committed s c : view s c -> _snapshot_index (_log s) <= p_commit c.1.
Proof.
  intros V. destruct (vw_log _ _ _ _ _ V) as (a & (C & _) & _ & _ & _ & Hs). rewrite (c_snap_index _ _ C), (vw_commit _ _ _ _ _ V).
  pose proof (vw_last _ _ _ _ _ V). lia.
Qed.

Lemma tri_truncate k e :
  es !! k = Some e ->
  tri (fun s c => agrees k s c /\ p_commit c.1 < index e <= #(p_log c.1) /\ term_at (p_log c.1) (index e) <> term e)
    (on_log (TruncateSuffix (index e)))
    (fun _ s c => agrees (S k) s c /\ #(p_log c.1) = index e - 1).
Proof.
  intros Hk. apply tri_write. intros s c V (AG & Hi & Hne). destruct (entry_index k e Hk) as [Ei _].
  destruct (vw_log _ _ _ _ _ V) as (a & HR). pose proof HR as (R & En & LV & HV & Hs). pose proof (snap_nonneg _ _ _ HR).
  pose proof (c_snap_index _ _ (proj1 R)) as Esi. pose proof (lv_length _ _ LV) as Hlen.
  pose proof (vw_last _ _ _ _ _ V). pose proof (vw_commit _ _ _ _ _ V).
  set (L := p_log c.1) in *. set (L' := upto L (index e - 1)).
  assert (#L' = index e - 1) as Hlen' by (unfold L'; rewrite length_upto; lia).
  exists a, (a_truncate (index e) a), (c.1 <| p_log ::= fun L => upto L (index e - 1) |>, c.2).
  split; [done|]. split; [apply TruncateSuffix_implements; [done|lia]|]. split; [|intros l Hl; split; [|split; [split|]]].
  - apply rtc_once. eexists Tau, [], _. rewrite app_nil_r. split; [|done].
    apply (P_truncate _ _ _ _ _ _ from r e); [done|by rewrite (ag_term _ _ _ AG)|done|done| |done|done].
    by eapply list_elem_of_lookup_2.
  - pose proof (ag_role _ _ _ AG) as Hr. rewrite (vw_role _ _ _ _ _ V) in Hr.
    assert (forall n, n <= _commit_index s -> upto (upto L (index e - 1)) n = upto L n) as Hu by (intros n Hn; apply upto_upto; lia).
    destruct V. split; cbn; try assumption.
    + destruct vw_sm as (sm & ? & ? & ? & ? & ? & ?). exists sm. by rewrite Hu by done.
    + intros w Hw. by apply (work_ok_agree s _ c); [apply vw_work|..].
    + exists (a_truncate (index e) a). split; [done|]. split; [done|]. split; [apply log_view_truncate; (done || lia)|].
      split; [exact HV|cbn; lia].
    + intros i. change (upto (p_log c.1) (index e - 1)) with L'. rewrite Hlen'. intros Hi'. unfold L'.
      rewrite term_at_upto by lia. apply vw_terms. fold L. lia.
    + intros j x Hj. unfold L', upto in Hj. apply lookup_take_Some in Hj as [Hj _]. by apply vw_entries.
    + by rewrite Hr.
    + intros i pd Hp. destruct (vw_pending i pd Hp). congruence.
    + change (upto (p_log c.1) (index e - 1)) with L'. rewrite Hlen'. lia.
    + by rewrite Hr.
    + intros Hx. destruct (vw_serve Hx). congruence.
  - apply AG.
  - apply AG.
  - cbn. change (upto (p_log c.1) (index e - 1)) with L'. rewrite Hlen'. split; [lia|]. unfold L'. rewrite term_at_upto by lia. apply AG.
  - cbn. change (upto (p_log c.1) (index e - 1)) with L'. rewrite Hlen'. intros j x Hj Hx. destruct (entry_index j x Hx) as [Ej _].
    rewrite (c_snap_index _ _ (proj1 Hl)). cbn. intros Hr. unfold L'. rewrite term_at_upto by lia.
    apply (ag_entries _ _ _ AG j); [lia|done|]. fold L. lia.
  - done.
Qed.

Lemma agrees_more k s c t e :
  view s c -> agrees k s c -> es !! k = Some e -> read_at (index e) t s c -> t = -1 \/ t = term e -> agrees (S k) s c.
Proof.
  intros V [A1 A2 A3 A4] Hk HT Ht. split; [done..|]. intros j x Hj Hx Hr. destruct (decide (j = k)) as [->|Hne].
  - rewrite Hk in Hx. injection Hx as <-. destruct (entry_index k e Hk) as [Ei Hp].
    destruct (read_at_cases _ _ s c V HT) as [[-> ?]|(? & <- & ?)]; [lia|lia|]. destruct Ht; lia.
  - apply (A4 j); [lia|done|done].
Qed.

(** The entries the log does not hold yet. *)
Definition missing (k : nat) (c : conf) : list LogEntry := drop (Nat.max k (Z.to_nat (#(p_log c.1) - prev))) es.

Lemma missing_step k e L0 c :
  es !! k = Some e -> Z.min L0 (prev + Z.of_nat (S k)) <= #(p_log c.1) <= L0 ->
  (if L0 <? index e then e :: missing (S k) c else missing (S k) c) = missing k c.
Proof.
  intros Hk Hl. destruct (entry_index k e Hk) as [Ei _]. unfold missing.
  destruct (Z.ltb_spec L0 (index e)) as [Hlt|Hge].
  - rewrite !Nat.max_l by lia. by rewrite (drop_S _ _ _ Hk).
  - by rewrite !Nat.max_r by lia.
Qed.

Lemma tri_reconcile rest k n :
  drop k es = rest ->
  tri (fun s c => agrees k s c /\ #(p_log c.1) = n) (reconcile rest)
    (fun app s c => (agrees (length es) s c /\ app = missing k c) /\ Z.min n (prev + Z.of_nat k) <= #(p_log c.1) <= n).
Proof.
  revert k n. induction rest as [|e rest IH]; intros k n Hd; cbn [reconcile].
  - apply tri_ret. intros s c [[A1 A2 A3 A4] <-]. pose proof (f_equal length Hd) as Hlen. rewrite length_drop in Hlen. cbn in Hlen.
    split; [split; [split; [done..|]|]|lia].
    + intros j e Hj. apply A4. lia.
    + unfold missing. rewrite drop_ge by lia. done.
  - assert (es !! k = Some e) as Hk by (rewrite <- (Nat.add_0_r k), <- lookup_drop, Hd; done).
    assert (drop (S k) es = rest) as Hd' by (rewrite (drop_S _ _ _ Hk) in Hd; congruence).
    destruct (entry_index k e Hk) as [Ei Hp].
    eapply tri_bind; [apply tri_GetTerm; lia|]. intros t. apply tri_get. intros s0. cbn beta.
    apply tri_bind with (fun _ s c => agrees (S k) s c /\ Z.min n (prev + Z.of_nat k) <= #(p_log c.1) <= n).
    + apply tri_when; intros Ht.
      * apply andb_true_iff in Ht as [H1'%negb_true_iff%Z.eqb_neq H2'%negb_true_iff%Z.eqb_neq].
        apply tri_guard; intros Hc; [apply tri_throw|apply Z.leb_gt in Hc].
        assert (forall s c, view s c -> s = s0 /\ (agrees k s c /\ #(p_log c.1) = n) /\ read_at (index e) t s c ->
          agrees k s c /\ p_commit c.1 < index e <= #(p_log c.1) /\ term_at (p_log c.1) (index e) <> term e) as Hpre.
        { intros s c V (-> & (AG & <-) & HT). rewrite (vw_commit _ _ _ _ _ V).
          destruct (read_at_cases _ _ _ _ V HT) as [[-> _]|(? & -> & ?)]; [lia|done|]. split; [done|]. split; [lia|done]. }
        apply (tri_learn _ _ _ _ (index e <= n)); [|intros Hin].
        { intros s c V HP. destruct (Hpre s c V HP) as (_ & Hx & _). destruct HP as (_ & (_ & <-) & _). lia. }
        eapply tri_conseq; [apply (tri_truncate k e Hk)|exact Hpre|].
        cbn. intros _ s c V [AG Hl]. split; [done|lia].
      * intros s c V (-> & (AG & <-) & HT). split; [|lia]. eapply agrees_more; [done..|].
        apply andb_false_iff in Ht as [Ht%negb_false_iff%Z.eqb_eq|Ht%negb_false_iff%Z.eqb_eq]; auto.
    + intros _. apply tri_get. intros s1 s c V (-> & AG & Hb). set (n1 := #(p_log c.1)) in *.
      pose proof (last_index_length members me lead s1 c V) as El. fold n1 in El.
      eapply (tri_bind _ _ _ _ (fun s c => agrees (S k) s c /\ #(p_log c.1) = n1)); [apply (IH (S k) n1 Hd')| |exact V|done].
      intros app. apply tri_ret. intros s' c' [[AG' ->] Hl]. rewrite El, (missing_step k e n1 c' Hk Hl). split; [done|lia].
Qed.

(** * Appending the missing entries *)

(** The request is stored, as far as it is not committed already. *)
Definition stored_request (c : conf) : Prop :=
  (p_term c.1 = ae_term r /\ p_role c.1 = FOLLOWER) /\
  (ae_end r <= p_commit c.1 \/ term_at (p_log c.1) (ae_end r) = ae_end_term r).

Lemma snapshot_within s c : view s c -> 0 <= _snapshot_index (_log s) <= #(p_log c.1).
Proof.
  intros V. destruct (vw_log _ _ _ _ _ V) as (a & HR). pose proof (snap_nonneg _ _ _ HR). destruct HR as ((C & _) & _ & LV & _).
  rewrite (c_snap_index _ _ C), <- (lv_length _ _ LV). pose proof (a_last_index_ge a). lia.
Qed.

(** Where the log ends inside the request. *)
Lemma tail_entry s c :
  view s c -> agrees (length es) s c -> #(p_log c.1) <= ae_end r ->
  (#(p_log c.1) = prev /\ term_at (p_log c.1) #(p_log c.1) = ae_prev_log_term r) \/
  (exists j e, es !! j = Some e /\ #(p_log c.1) = prev + Z.of_nat (S j) /\ index e = #(p_log c.1) /\
     term_at (p_log c.1) #(p_log c.1) = term e).
Proof.
  intros V AG Hle. destruct (ag_prev _ _ _ AG) as [Hp Et]. unfold ae_end in Hle.
  destruct (decide (#(p_log c.1) = prev)) as [E|E]; [left; split; [done|by rewrite E]|right].
  destruct (lookup_lt_is_Some_2 es (Z.to_nat (#(p_log c.1) - prev - 1))) as [e He]; [lia|].
  destruct (entry_index _ _ He) as [Ei _]. exists (Z.to_nat (#(p_log c.1) - prev - 1)), e. split; [done|]. split; [lia|].
  split; [lia|]. pose proof (snapshot_within s c V). assert (index e = #(p_log c.1)) as <- by lia.
  apply (ag_entries _ _ _ AG _ _ (lookup_lt_Some _ _ _ He) He). lia.
Qed.

Lemma agrees_stored s c : view s c -> agrees (length es) s c -> missing 0 c = [] -> stored_request c.
Proof.
  intros V AG Hm. split; [by split; [apply AG|apply AG]|]. unfold missing in Hm.
  pose proof (f_equal length Hm) as Hlen. rewrite length_drop in Hlen. cbn in Hlen. destruct (ag_prev _ _ _ AG) as [Hp Et].
  unfold ae_end, ae_end_term. destruct (last es) as [e|] eqn:El.
  - rewrite last_lookup in El. destruct (entry_index _ _ El) as [Ei _]. pose proof (lookup_lt_Some _ _ _ El).
    assert (index e = prev + #es) as <- by lia.
    destruct (Z.lt_ge_cases (index e) (_snapshot_index (_log s))) as [Hlt|Hge].
    + left. pose proof (snapshot_committed s c V). lia.
    + right. apply (ag_entries _ _ _ AG (Nat.pred (length es))); [lia|done|lia].
  - apply last_None in El. right. rewrite El. cbn. by rewrite Z.add_0_r.
Qed.

Lemma last_term_drop n t : (n < length es)%nat -> last_term_from t (drop n es) = ae_end_term r.
Proof.
  intros Hn. unfold last_term_from, ae_end_term. rewrite <- (take_drop n es) at 2. rewrite last_app.
  destruct (last (drop n es)) eqn:E; [done|]. apply last_None in E. apply (f_equal length) in E. rewrite length_drop in E. cbn in E. lia.
Qed.

Lemma term_at_last L x M : term_at (L ++ x :: M) #(L ++ x :: M) = last_term_from 0 (x :: M).
Proof.
  rewrite term_at_app_r by (rewrite length_app; cbn; lia).
  replace (#(L ++ x :: M) - #L) with (#(x :: M)) by (rewrite length_app; lia).
  unfold term_at, last_term_from. destruct (Z.eqb_spec #(x :: M) 0); [cbn in *; lia|]. destruct (Z.ltb_spec #(x :: M) 0); [lia|].
  rewrite last_lookup. replace (Z.to_nat (#(x :: M) - 1)) with (Nat.pred (length (x :: M))) by lia.
  by destruct (lookup_lt_is_Some_2 (x :: M) (Nat.pred (length (x :: M)))) as [e ->]; [cbn; lia|].
Qed.

Lemma tri_append_missing app :
  tri (fun s c => agrees (length es) s c /\ app = missing 0 c /\ app <> []) (on_log (AppendBatch app))
    (fun _ _ c => stored_request c).
Proof.
  apply tri_write. intros s c V (AG & -> & Hne). destruct (vw_log _ _ _ _ _ V) as (a & HR).
  pose proof HR as ((C & [W _ _]) & Ei & LV & HV & Hs). pose proof (lv_length _ _ LV) as Hlen.
  destruct (ag_prev _ _ _ AG) as [Hp Et]. set (L := p_log c.1) in *. unfold missing in *. fold L in Hne |- *. cbn [Nat.max] in *.
  set (n := Z.to_nat (#L - prev)) in *. assert (n < length es)%nat as Hn.
  { destruct (Nat.lt_ge_cases n (length es)); [done|]. by rewrite drop_ge in Hne by lia. }
  destruct (valid_entries_extends _ _ _ _ entries_ok term_ok) as [X F].
  pose proof (extends_drop _ _ _ n X ltac:(lia)) as Xd. replace (prev + Z.of_nat n) with (#L) in Xd by lia.
  assert (#(drop n es) = ae_end r - #L) as Hld by (rewrite length_drop; unfold ae_end; lia).
  assert (fresh_entries #L (_current_term s) (drop n es)) as Hf.
  { intros j e Hj. destruct (extends_entry _ _ _ _ _ Xd Hj) as [-> _]. split; [done|].
    rewrite lookup_drop in Hj. rewrite <- (vw_term _ _ _ _ _ V), (ag_term _ _ _ AG). split; [by apply (entry_index _ _ Hj)|].
    exact (Forall_lookup_1 _ _ _ _ entries_valid Hj). }
  pose proof (tail_entry s c V AG ltac:(fold L; unfold ae_end; lia)) as Htail. fold L in Htail.
  assert (a_last_term a = last_term_from (ae_prev_log_term r) (take n es)) as Elt.
  { rewrite (log_view_last_term a L W LV). destruct Htail as [[E ->]|(j & e & Hj & E & _ & ->)].
    - replace n with 0%nat by lia. done.
    - replace n with (S j) by lia. by rewrite (take_S_r _ _ _ Hj), last_term_from_app. }
  exists a, (a_append (drop n es) a), (c.1 <| p_log ::= fun L => L ++ drop n es |>, c.2). split; [done|]. split; [|split].
  - apply AppendBatch_implements; [apply HR|by rewrite Hlen, Elt|rewrite Hlen; lia|].
    apply Forall_drop. eapply Forall_impl; [exact F|]. cbn. unfold kMaxCommandBytes. lia.
  - apply rtc_once. eexists Tau, [], _. rewrite app_nil_r. split; [|done].
    apply (P_follow _ _ _ _ _ _ from r); [done|by rewrite (ag_term _ _ _ AG)|done|done|unfold ae_end; fold L; lia|].
    fold L. destruct Htail as [[E E']|(j & e & Hj & E & Ee & E')]; [by left|right]. exists e.
    split; [by eapply list_elem_of_lookup_2|done].
  - intros l Hl. split; [by apply (view_append _ _ _ s c a)|]. split; [by split; [apply AG|apply AG]|]. right. cbn. fold L.
    assert (ae_end r = #(L ++ drop n es)) as -> by (rewrite length_app; lia).
    rewrite <- (last_term_drop n 0 Hn). destruct (drop n es) as [|x M]; [done|]. apply term_at_last.
Qed.

(** * The whole request *)

Lemma stored_stable c c' : steady c c' -> stored_request c -> stored_request c'.
Proof.
  intros [E Hc] [Hp Hs]. unfold stored_request. rewrite E. cbn. split; [done|]. destruct Hs; [left; lia|by right].
Qed.

Lemma tri_stored {A} (m : M RaftNode A) : evolves calm m -> tri (fun _ => stored_request) m (fun _ _ => stored_request).
Proof. intros Hm. apply (tri_keep _ _ _ _ _ (fun p => stored_request (p, []))); [done|]. by intros p p' ->. Qed.

(** The commit index follows the leader's, up to the end of the request. *)
Lemma tri_follow_commit :
  tri (fun _ => stored_request)
    (modify (fun s => s <| _commit_index ::= fun c => Z.max c (Z.min (ae_leader_commit r) (ae_end r)) |>))
    (fun _ _ => stored_request).
Proof.
  apply tri_modify. intros s c V ST. set (n := Z.max (_commit_index s) (Z.min (ae_leader_commit r) (ae_end r))).
  pose proof (vw_commit _ _ _ _ _ V) as Ec. destruct (decide (n = _commit_index s)) as [E|E].
  { assert (s <| _commit_index ::= fun c => Z.max c (Z.min (ae_leader_commit r) (ae_end r)) |> = s) as ->
      by (unfold n in E; destruct s; cbn in *; by rewrite E).
    exists c. split; [apply rtc_refl|done]. }
  destruct ST as [[Et Hr] Hs]. assert (term_at (p_log c.1) (ae_end r) = ae_end_term r) as Hm by (destruct Hs; [lia|done]).
  assert (0 <= ae_end_term r) as Hte.
  { unfold ae_end_term. destruct (last es) as [e|] eqn:El; [|done]. rewrite last_lookup in El. pose proof (entry_index _ _ El). lia. }
  pose proof (term_at_inside (p_log c.1) (ae_end r) ltac:(lia)) as Hin. pose proof (vw_bound _ _ _ _ _ V).
  exists (c.1 <| p_commit := n |>, c.2). split; [|split; [apply view_commit; [done|lia|]|split; [done|by right]]].
  2:{ intros Hx. rewrite <- (vw_role _ _ _ _ _ V), Hr in Hx. done. }
  apply rtc_once. eexists Tau, [], _. rewrite app_nil_r. split; [|done].
  apply (P_follow_commit _ _ _ _ _ _ from r n); [done|by rewrite Et|done|done|done|lia|lia|lia].
Qed.

Lemma pure_ConflictIndex i s : (ConflictIndex i s).2 = s.
Proof.
  enough (evolves eq (ConflictIndex i)) as E by (symmetry; apply E).
  assert (forall j, evolves eq (on_log (GetTerm j))) as HG by (intros j s'; symmetry; apply on_log_reads, GetTerm_pure).
  assert (forall fuel t low high, evolves eq (conflict_search fuel t low high)) as HS.
  { intros fuel. induction fuel as [|fuel IH]; intros t low high; cbn [conflict_search]; [by apply evolves_ret; apply _|].
    destruct (_ <=? _); [by apply evolves_ret; apply _|]. apply evolves_bind; [apply _|apply HG|intros x]. by destruct (x =? t). }
  unfold ConflictIndex. apply evolves_bind; [apply _|apply HG|intros t]. apply evolves_bind; [apply _|apply evolves_get; apply _|intros s0].
  destruct (t <=? 0); [apply evolves_ret; apply _|]. apply evolves_bind; [apply _|apply HS|intros x]. by destruct (_ && _); apply evolves_ret; apply _.
Qed.

(** What the answer promises. *)
Definition answered (ans : bool * Z) (c : conf) : Prop :=
  p_term c.1 = ae_term r /\ (ans.1 = true -> ans.2 = ae_end r /\ stored_request c).

Lemma tri_append_current :
  tri (fun _ c => p_term c.1 = ae_term r /\ p_role c.1 = FOLLOWER) (append_current r) (fun ans _ c => answered ans c).
Proof.
  unfold append_current. apply tri_get. intros s0. eapply tri_bind; [apply tri_GetTerm; lia|]. intros have.
  apply tri_guard; intros Hh.
  - apply Z.eqb_eq in Hh. apply tri_bind with (fun app s c => agrees (length es) s c /\ app = missing 0 c).
    { intros s c V ((-> & Ht & Hr) & HT). destruct (read_at_known _ _ _ _ HT ltac:(lia) ltac:(lia)) as [E1 E2].
      eapply tri_conseq; [apply (tri_reconcile es 0 #(p_log c.1)); done| | |exact V|].
      - intros s' c' _ HP. exact HP.
      - cbn. by intros app s' c' _ [? _].
      - split; [|done]. split; [done|done| |lia]. split; [done|congruence]. }
    intros app. apply tri_bind with (fun _ _ => stored_request).
    { apply tri_when; intros Ha.
      - apply negb_true_iff, bool_decide_eq_false_1 in Ha.
        apply tri_bind with (fun _ s c => agrees (length es) s c /\ app = missing 0 c /\ app <> []).
        { apply tri_calm; [auto with calm|]. intros _ s s' c c' V [[A1 A2 A3 A4] Hm] Ec Sm.
          assert (_log s' = _log s) as El by (injection Ec; congruence). unfold missing in *. rewrite <- El in A4.
          split; [split; rewrite Sm; cbn; assumption|]. split; [rewrite Sm; exact Hm|done]. }
        intros t. apply tri_on_exception; [|apply crashed_storage_failed].
        eapply tri_bind; [apply tri_append_missing|]. intros []. eapply tri_bind; [apply tri_stored; auto with calm|].
        intros t'. apply tri_stored. auto with calm.
      - apply negb_false_iff, bool_decide_eq_true_1 in Ha. subst app. intros s c V [AG Hm]. by apply (agrees_stored s). }
    intros _. cbn beta. eapply tri_bind; [apply tri_follow_commit|]. intros [].
    apply tri_bind with (fun _ _ => stored_request).
    { apply (tri_steady _ _ _ _ _ _ _ _ (steadily_ApplyCommitted _ _ _ _)); [done|].
      intros _ s c s' c' _ ST _ St. by eapply stored_stable. }
    intros _. apply tri_ret. intros s c ST. split; [apply ST|done].
  - apply tri_guard; intros _; [|apply tri_ret; intros s c ((_ & Ht & _) & _); by split].
    eapply tri_bind; [apply tri_pure, on_log_reads, GetTerm_pure|]. intros have'. eapply tri_bind.
    { apply tri_pure. intros s. destruct (0 <? have'); [apply pure_ConflictIndex|done]. }
    intros n. apply tri_ret. intros s c ((_ & Ht & _) & _). by split.
Qed.
End NodeFollower.

Section HandleAppend.
Context `{RocksDBSpec} `{LogEntryCodecSpec} `{!Env} {asks : Requests}.
Context (members : gset Z) (me : Z) (box : option (Z * Message)) (lead : outside).
Context (me_member : me ∈ members) (ids_ok : forall k, k ∈ members -> 0 <= k <= INT32_MAX).
Abbreviation view := (view members me (look lead)).
Abbreviation local := (local members me box lead).
Abbreviation crashed := (crashed members me (look lead)).
Abbreviation tri := (tri members me box lead).

(** A message whose sending is an action. *)
Lemma tri_Send_step peer m P :
  (forall r, m <> MAppendEntries r) ->
  (forall s c, view s c -> P s c -> exists ev, pstep members me box lead c.2 c.1 ev [Sent peer m] c.1) ->
  tri P (Send peer m) (fun _ _ _ => True).
Proof.
  intros Hm HP s c V Hs. rewrite Send_run. assert (view (s <| _answers ::= S |>) c) as V' by (destruct V; split; cbn; assumption).
  destruct (env_send _); [|exists c; split; [apply rtc_refl|done]]. destruct (HP s c V Hs) as (ev & St).
  exists (c.1, c.2 ++ [Sent peer m]). split; [by apply rtc_once; exists ev, [Sent peer m], c.1|].
  split; [|done]. apply (view_emit _ _ _ (s <| _answers ::= S |>)); [done|]. intros p r [= _ E]. by destruct (Hm r).
Qed.

Lemma tri_HandleAppendEntries from r :
  box = Some (from, MAppendEntries r) -> ae_term r <= INT32_MAX -> (0 <= ae_prev_log_term r -> well_formed (ae_entries r)) ->
  tri (fun _ _ => True) (HandleAppendEntries from r) (fun _ _ _ => True).
Proof.
  intros Hbox Ht Hwf. unfold HandleAppendEntries. apply tri_get. intros s0.
  apply tri_guard; intros Hg; [by apply tri_ret|].
  assert (IsRemotePeer from s0 = true /\ 0 < ae_term r /\ 0 <= ae_prev_log_index r /\ 0 <= ae_prev_log_term r /\ ae_end r <= INT64_MAX)
    as (Hrem & Hpos & Hpi & Hpt & Hend).
  { unfold ae_end. destruct (IsRemotePeer from s0), (Z.leb_spec (ae_term r) 0), (Z.ltb_spec (ae_prev_log_index r) 0),
      (Z.ltb_spec (ae_prev_log_term r) 0), (Z.ltb_spec (INT64_MAX - #(ae_entries r)) (ae_prev_log_index r));
      cbn in Hg; rewrite ?orb_true_r in Hg; try done. repeat split; lia. }
  apply tri_guard; intros _; [by apply tri_ret|]. apply tri_guard; intros Hv; [by apply tri_ret|]. apply negb_false_iff in Hv.
  apply (tri_learn _ _ _ _ (from ∈ members /\ from <> me)); [intros s c V [-> _]; by apply (remote_peer members me lead s0 c)|intros [Hin Hne]].
  apply tri_bind with (fun _ _ c => p_term c.1 = ae_term r -> p_role c.1 = FOLLOWER).
  { apply tri_when; intros Hc.
    - eapply tri_conseq; [apply tri_BecomeFollower_role; [done..|lia]|by intros|]. auto.
    - intros s c V [-> _]. rewrite (vw_term _ _ _ _ _ V), (vw_role _ _ _ _ _ V). intros E.
      apply orb_false_iff in Hc as [_ Hc]. rewrite E, Z.eqb_refl in Hc. cbn in Hc. by apply negb_false_iff, bool_decide_eq_true_1 in Hc. }
  intros _. apply tri_get. intros s1.
  apply tri_bind with (fun ans _ c => p_term c.1 = _current_term s1 /\ (ans.1 = true -> ans.2 = ae_end r /\ stored_request r c)).
  - apply tri_guard; intros Et; [apply Z.eqb_eq in Et|].
    2:{ intros s c V [-> _]. exists c. split; [apply rtc_refl|]. split; [done|]. split; [exact (vw_term _ _ _ _ _ V)|done]. }
    apply tri_bind with (fun _ _ c => p_term c.1 = ae_term r /\ p_role c.1 = FOLLOWER).
    { apply tri_modify. intros s c V (-> & Hr). exists c. split; [apply rtc_refl|]. rewrite (vw_term _ _ _ _ _ V) in *.
      split; [destruct V; split; cbn; assumption|]. auto. }
    intros _. eapply tri_bind.
    { apply (tri_keep _ _ _ _ _ (fun p => p_term p = ae_term r /\ p_role p = FOLLOWER)); [auto with calm|by intros p p' ->]. }
    intros []. eapply tri_conseq; [apply (tri_append_current _ _ _ _ from r); by auto|done|].
    intros ans s c _ [Ep Hs]. by rewrite Ep.
  - intros ans. cbn beta. apply tri_bind with (fun _ _ _ => True); [|intros; by apply tri_ret]. apply tri_Send_step; [done|].
    intros s c V [<- Ha]. destruct ans as [[] n]; cbn in *; [|exists Tau; by apply P_refuse_append].
    destruct (Ha eq_refl) as (-> & [Ep _] & Hs). exists (Acked (ae_end r)).
    by apply (P_ack_append _ _ _ _ _ _ from r).
Qed.
End HandleAppend.
