(* ===== verification/NodeLeader.v ===== *)
(** A leader's handlers of responses as actions of the protocol. *)
From stdpp Require Import base numbers strings gmap list.
From S2P Require Import Prelude Effects Storage Messages RaftLog LogSpec LogProofs LogRecovery.
From S2P Require Import Resp KVStore KVStateMachine KVTheorems KVReplay Metrics Peers RaftState RaftNode RaftProtocol ProtocolSafety.
From S2P Require Import NodeView NodeCalm NodeReads NodeApply NodeCommit NodeElection NodeVotes.

Section NodeLeader.
Context `{RocksDBSpec} `{LogEntryCodecSpec} `{!Env} {asks : Requests}.
Context (members : gset Z) (me : Z) (box : option (Z * Message)) (lead : outside).
Context (me_member : me ∈ members) (ids_ok : forall k, k ∈ members -> 0 <= k <= INT32_MAX).
Abbreviation calm := (calm members me box lead).
Abbreviation calm_leader := (calm_leader members me box lead).
Abbreviation view := (view members me (look lead)).
Abbreviation local := (local members me box lead).
Abbreviation crashed := (crashed members me (look lead)).
Abbreviation tri := (tri members me box lead).

(** The node leads. *)
Definition leading (_ : RaftNode) (c : conf) : Prop := p_role c.1 = LEADER.

Lemma leading_state s c : view s c -> leading s c <-> _state s = LEADER.
Proof. intros V. unfold leading. by rewrite (vw_role _ _ _ _ _ V). Qed.

Lemma tri_leading {A} (m : M RaftNode A) : evolves calm_leader m -> tri leading m (fun _ => leading).
Proof.
  intros Hm. eapply tri_conseq; [apply (tri_keep_leader _ _ _ _ m (fun _ => True) Hm); done|by intros|]. by intros _ s c _ [? _].
Qed.
Lemma tri_leading_calm {A} (m : M RaftNode A) : evolves calm m -> tri leading m (fun _ => leading).
Proof. intros Hm. by apply tri_leading, leader_calm. Qed.

Lemma tri_leading_Advance : tri leading AdvanceCommitIndex (fun _ => leading).
Proof.
  apply (tri_steady _ _ _ _ _ _ _ _ (steadily_AdvanceCommitIndex _ _ _ _)).
  - intros s c V HL. by apply (leading_state s c V).
  - intros _ s c s' c' _ HL _ [E _]. unfold leading. by rewrite E.
Qed.

(** Recording a match index that some action justifies. *)
Lemma tri_match peer n P :
  peer ∈ members ->
  (forall s c, view s c -> P s c -> leading s c /\
     forall m, 0 < m <= n -> pstep members me box lead c.2 c.1 Tau [] (c.1 <| p_match ::= <[peer := m]> |>)) ->
  tri P (modify (fun s => let m := Z.max (default 0 (_match_index s !! peer)) n in
           s <| _match_index ::= <[peer := m]> |> <| _next_index ::= <[peer := m + 1]> |>))
    (fun _ => leading).
Proof.
  intros Hp HP. apply tri_modify. intros s c V Hs. cbn zeta. destruct (HP s c V Hs) as [HL St].
  pose proof (proj1 (leading_state s c V) HL) as Hr. set (old := default 0 (_match_index s !! peer)).
  assert (0 <= old) as Hold.
  { unfold old. destruct (_match_index s !! peer) as [v|] eqn:E; [|done]. by apply (vw_matches _ _ _ _ _ V _ _ E). }
  set (m := Z.max old n). destruct (Z.lt_ge_cases old n) as [Hlt|Hge].
  - exists (c.1 <| p_match ::= <[peer := n]> |>, c.2). split; [|split; [|exact HL]].
    + apply rtc_once. eexists Tau, [], _. rewrite app_nil_r. split; [apply (St n); lia|done].
    + replace m with n by lia. destruct V. split; cbn; try assumption.
      * intros k v [[<- <-]|[_ Hk]]%lookup_insert_Some; [split; [done|lia]|by eapply vw_next].
      * intros k v [[<- <-]|[_ Hk]]%lookup_insert_Some; [split; [done|lia]|by eapply vw_matches].
      * intros k v _ [[<- <-]|[Hne Hk]]%lookup_insert_Some Hv; [by rewrite lookup_insert_eq|].
        rewrite lookup_insert_ne by done. by apply vw_match.
      * keep_queue.
  - exists c. split; [apply rtc_refl|]. split; [|exact HL]. replace m with old by lia. destruct V. split; cbn; try assumption.
    + intros k v [[<- <-]|[_ Hk]]%lookup_insert_Some; [split; [done|lia]|by eapply vw_next].
    + intros k v [[<- <-]|[_ Hk]]%lookup_insert_Some; [split; [done|lia]|by eapply vw_matches].
    + intros k v _ [[<- <-]|[Hne Hk]]%lookup_insert_Some Hv; [|by apply vw_match]. unfold old in Hv |- *.
      destruct (_match_index s !! peer) eqn:E; cbn in *; [by apply vw_match|lia].
Qed.

(** Sending more, when there is more to send. *)
Lemma tri_send_rest from :
  tri leading (s ← get; when (default 0 (_next_index s !! from) <=? _last_index (_log s)) (SendAppendEntries from)) (fun _ _ _ => True).
Proof.
  apply tri_get. intros s0. apply tri_when; intros _; [|done].
  eapply tri_conseq; [apply tri_leading, leader_SendAppendEntries|by intros s c _ [_ ?]|done].
Qed.

(** * AppendEntries responses *)

Lemma tri_append_acked from r n :
  box = Some (from, MAppendEntriesResponse r) -> from ∈ members -> aer_success r = true -> n <= aer_last_log_index r ->
  tri (fun s c => leading s c /\ p_term c.1 = aer_term r)
    (modify (fun s => let m := Z.max (default 0 (_match_index s !! from)) n in
       s <| _match_index ::= <[from := m]> |> <| _next_index ::= <[from := m + 1]> |>);;
     before ← gets _commit_index;
     AdvanceCommitIndex;;
     FinishReadIndexRounds;;
     s ← get;
     when (before <? _commit_index s) BroadcastAppendEntries;;
     s ← get;
     when (default 0 (_next_index s !! from) <=? _last_index (_log s)) (SendAppendEntries from))
    (fun _ _ _ => True).
Proof.
  intros Hbox Hin Hs Hn. eapply tri_bind; [apply (tri_match from n); [done|]|].
  { intros s c V [HL Et]. split; [done|]. intros m Hm. apply (P_match_append _ _ _ _ _ _ from r m); try done. lia. }
  intros []. apply tri_gets. intros s1. eapply tri_bind.
  { eapply tri_conseq; [apply tri_leading_Advance|by intros s c _ [_ ?]|]. by intros u s c _ HQ; exact HQ. }
  intros []. eapply tri_bind; [apply tri_leading_calm; auto with calm|]. intros []. apply tri_get. intros s2.
  apply tri_bind with (fun _ => leading); [|intros _; apply tri_send_rest].
  apply tri_when; intros _; [|by intros s c _ [_ ?]].
  eapply tri_conseq; [apply tri_leading, leader_BroadcastAppendEntries|by intros s c _ [_ ?]|done].
Qed.

Lemma tri_append_refused from n :
  from ∈ members ->
  tri leading
    (modify (fun s => s <| _next_index ::= <[from :=
       Z.max (default 0 (_match_index s !! from) + 1) (Z.min (default 0 (_next_index s !! from) - 1) n)]> |>);;
     FinishReadIndexRounds;;
     SendAppendEntries from)
    (fun _ _ _ => True).
Proof.
  intros Hin. apply tri_bind with (fun _ => leading).
  { apply tri_modify. intros s c V HL. exists c. split; [apply rtc_refl|]. split; [|done].
    assert (0 <= default 0 (_match_index s !! from)) as H0'.
    { destruct (_match_index s !! from) as [v|] eqn:E; [|done]. by apply (vw_matches _ _ _ _ _ V _ _ E). }
    destruct V. split; cbn; try assumption.
    intros k v [[<- <-]|[_ Hk]]%lookup_insert_Some; [split; [done|lia]|by eapply vw_next]. }
  intros _. eapply tri_bind; [apply tri_leading_calm; auto with calm|]. intros [].
  eapply tri_conseq; [apply tri_leading, leader_SendAppendEntries|done|done].
Qed.

Lemma tri_HandleAppendEntriesResponse from r :
  box = Some (from, MAppendEntriesResponse r) -> aer_term r <= INT32_MAX ->
  timely me lead from r ->
  tri (fun _ _ => True) (HandleAppendEntriesResponse from r) (fun _ _ _ => True).
Proof.
  intros Hbox Ht Ho. unfold HandleAppendEntriesResponse. apply tri_get. intros s0. apply tri_guard; intros Hg; [by apply tri_ret|].
  apply orb_false_iff in Hg as [_ Hrem%negb_false_iff].
  apply (tri_learn _ _ _ _ (from ∈ members /\ 0 <= _current_term s0)).
  { intros s c V [-> _]. split; [by apply (remote_peer members me lead s0 c from)|apply V]. }
  intros [Hin Hc0]. apply tri_guard; intros Hlt.
  { apply Z.ltb_lt in Hlt. apply tri_BecomeFollower_any; [done..|lia]. }
  apply tri_guard; intros Hl; [by apply tri_ret|]. apply orb_false_iff in Hl as [Hl%negb_false_iff Et%negb_false_iff%Z.eqb_eq].
  apply andb_true_iff in Hl as [_ Hl%bool_decide_eq_true_1].
  set (K := fun (s : RaftNode) (c : conf) => leading s c /\ p_term c.1 = aer_term r).
  assert (forall A (m : M RaftNode A), evolves calm_leader m -> tri K m (fun _ => K)) as HK.
  { intros A m Hm. apply (tri_keep_leader _ _ _ _ m (fun p => p_term p = aer_term r)); [done|]. by intros p p' ->. }
  assert (forall A (m : M RaftNode A), evolves calm m -> tri K m (fun _ => K)) as HC by (intros A m Hm; by apply HK, leader_calm).
  apply tri_bind with (fun _ => K).
  { eapply tri_conseq; [apply HC, calm_NotePeerContact| |done]. intros s c V [-> _].
    split; [by apply (leading_state s0 c V)|]. by rewrite (vw_term _ _ _ _ _ V). }
  intros _. eapply tri_bind; [apply HC; auto with calm|]. intros [].
  apply tri_get. intros s1. apply tri_bind with (fun _ => K).
  { eapply tri_conseq; [apply (tri_pure _ _ _ _ _ K)|by intros s c _ [_ ?]|done]. intros s. unfold at_key. by case_match. }
  intros flight. apply tri_bind with (fun _ => K).
  { apply tri_when; intros Hf; [|done]. apply andb_true_iff in Hf as [_ <-%Z.eqb_eq].
    intros s c V [HL Ep]. pose proof (calm_AckReadIndexProbe members me box lead from r Hin s c V) as HA.
    ospecialize* HA; [by apply (leading_state s c V)|done|done|].
    destruct (AckReadIndexProbe _ _ s) as [[u|e] s']; destruct HA as [_ (c' & L & Sm & V')]; exists c'; (split; [done|]);
      [|by eapply view_crashed]. split; [done|]. unfold K, leading. by rewrite Sm. }
  intros []. assert (tri K FinishReadIndexRounds (fun _ _ _ => True)) as Hfin by (apply tri_True_calm; auto with calm).
  apply tri_guard; intros Hx; [done|]. apply tri_guard; intros Hy; [done|].
  eapply tri_bind; [apply HC; calm_auto|]. intros []. eapply tri_bind; [apply HC; calm_auto|]. intros []. cbn zeta.
  apply tri_bind with (fun _ => K).
  { apply tri_modify. intros s c V HKs. exists c. split; [apply rtc_refl|]. split; [|done].
    apply view_flight; [done|done| |done]. intros _. apply no_flight_ok. }
  intros _. apply tri_guard; intros Hs.
  - rewrite Hs in Hy. cbn in Hy. apply negb_false_iff, Z.eqb_eq in Hy. by apply (tri_append_acked from r); [..|lia].
  - eapply tri_conseq; [by apply tri_append_refused|by intros s c _ [? _]|done].
Qed.

(** * Snapshot responses *)

Lemma tri_chunk peer s0 f offset :
  peer ∈ members -> _inflight s0 !! peer = Some f -> fl_snapshot f = true ->
  (0 <= fl_snapshot_offset f -> 0 <= fl_snapshot_chunk f -> 0 <= offset) ->
  tri (fun s c => s = s0 /\ leading s c) (set_flight peer (f <| fl_snapshot_offset := offset |>);; SendSnapshotChunk peer)
    (fun _ _ _ => True).
Proof.
  intros Hp Hf Hs Ho. apply tri_bind with (fun _ s c => leading s c /\ forall g, _inflight s !! peer = Some g -> fl_snapshot g = true).
  - apply tri_modify. intros s c V [-> HL]. exists c. split; [apply rtc_refl|]. split.
    + apply view_flight; [done|done| |exact (flying_numbered _ _ _ _ _ _ _ V Hf)]. intros Hr. destruct (vw_flights _ _ _ _ _ V Hr _ _ Hf) as (F1 & F2 & F3).
      split; [|done]. intros E. destruct (F1 E) as (? & ? & ? & ? & ?). cbn. split_and!; try done; lia.
    + split; [done|]. cbn. intros g. rewrite lookup_insert_eq. by intros [= <-].
  - intros _ s c V [HL Hg]. pose proof (calm_snapshot_chunk members me box lead peer s (proj1 (leading_state s c V) HL) Hg c V) as HC.
    destruct (SendSnapshotChunk peer s) as [[u|e] s']; destruct HC as [_ (c' & L & _ & V')]; exists c'; (split; [done|]);
      [done|by eapply view_crashed].
Qed.

Lemma tri_HandleInstallSnapshotResponse from r :
  box = Some (from, MInstallSnapshotResponse r) -> isr_term r <= INT32_MAX ->
  tri (fun _ _ => True) (HandleInstallSnapshotResponse from r) (fun _ _ _ => True).
Proof.
  intros Hbox Ht. unfold HandleInstallSnapshotResponse. apply tri_get. intros s0. apply tri_guard; intros Hg; [by apply tri_ret|].
  apply orb_false_iff in Hg as [_ Hrem%negb_false_iff].
  apply (tri_learn _ _ _ _ (from ∈ members /\ 0 <= _current_term s0)).
  { intros s c V [-> _]. split; [by apply (remote_peer members me lead s0 c from)|apply V]. }
  intros [Hin Hc0]. apply tri_guard; intros Hlt.
  { apply Z.ltb_lt in Hlt. apply tri_BecomeFollower_any; [done..|lia]. }
  apply tri_guard; intros Hl; [by apply tri_ret|]. apply orb_false_iff in Hl as [Hl%negb_false_iff Et%negb_false_iff%Z.eqb_eq].
  apply andb_true_iff in Hl as [_ Hl%bool_decide_eq_true_1].
  set (K := fun (s : RaftNode) (c : conf) => leading s c /\ p_term c.1 = isr_term r).
  apply tri_bind with (fun _ => K).
  { eapply tri_conseq; [apply (tri_keep_leader _ _ _ _ _ (fun p => p_term p = isr_term r)); [apply leader_calm; auto with calm|by intros p p' ->]| |done].
    intros s c V [-> _]. split; [by apply (leading_state s0 c V)|]. by rewrite (vw_term _ _ _ _ _ V). }
  intros _. apply tri_get. intros s1. unfold at_key.
  destruct (_inflight s1 !! from) as [f|] eqn:Ef; [|apply tri_bind with (fun _ _ _ => False); [apply tri_throw|by intros ? ? ?]].
  apply tri_bind with (fun f' s c => f' = f /\ s = s1 /\ K s c); [by apply tri_ret|].
  intros f'. apply (tri_learn _ _ _ _ (f' = f)); [by intros s c _ (? & _)|intros ->].
  apply tri_guard; intros Hx; [by apply tri_ret|].
  apply orb_false_iff in Hx as [[Hsn%negb_false_iff Hid%Z.eqb_neq]%orb_false_iff Hrid%negb_false_iff%Z.eqb_eq].
  assert (forall offset, (0 <= fl_snapshot_offset f -> 0 <= fl_snapshot_chunk f -> 0 <= offset) -> tri (fun s c => f = f /\ s = s1 /\ K s c)
    (set_flight from (f <| fl_snapshot_offset := offset |>);; SendSnapshotChunk from) (fun _ _ _ => True)) as Hchunk.
  { intros offset Ho. eapply tri_conseq; [by apply (tri_chunk from s1 f offset)| |done]. by intros s c _ (_ & ? & ? & _). }
  apply tri_guard; intros Hs; [by apply Hchunk|apply negb_false_iff in Hs].
  apply tri_guard; intros Hc; [apply Hchunk; intros; destruct (_ <=? _); lia|apply negb_false_iff in Hc].
  cbn zeta. apply tri_bind with (fun _ s c => K s c /\ exists peer q, Sent peer (MInstallSnapshot q) ∈ c.2 /\ is_term q = p_term c.1 /\
    is_rpc_id q = isr_rpc_id r /\ is_last_included_index q = fl_snapshot_index f).
  { apply tri_modify. intros s c V (_ & -> & HKs). exists c. split; [apply rtc_refl|]. split.
    - apply view_flight; [done|done| |done]. intros _. apply no_flight_ok.
    - split; [done|]. destruct (vw_flights _ _ _ _ _ V (proj1 (leading_state s1 c V) (proj1 HKs)) _ _ Ef) as (_ & F2 & _).
      destruct (F2 Hid) as (m & _ & [Hin' _] & Hq). destruct (Hq Hsn) as (q & -> & E1 & E2 & E3). exists from, q.
      split; [done|]. split; [done|]. split; [congruence|done]. }
  intros _. eapply tri_bind; [apply (tri_match from (fl_snapshot_index f)); [done|]|intros []; apply tri_send_rest].
  intros s c V ((HL & Ep) & peer & q & Hq & E1 & E2 & E3). split; [done|]. intros m Hm.
  apply (P_match_snapshot _ _ _ _ _ _ from r peer q m); try done. lia.
Qed.
End NodeLeader.
