(* ===== verification/NodeInstall.v ===== *)
(** The InstallSnapshot handler as actions of the protocol. *)
From stdpp Require Import base numbers strings gmap list.
From S2P Require Import Prelude Effects Storage Messages RaftLog LogSpec LogProofs LogRecovery.
From S2P Require Import Resp KVStore KVStateMachine KVTheorems KVReplay Metrics Peers RaftState RaftNode RaftProtocol ProtocolSafety.
From S2P Require Import NodeView NodeCalm NodeReads NodeApply NodeCommit NodeElection NodeVotes NodeFollower.

Lemma ReplaceAll_backwards `{RocksDB} {X} i entries (cb : M X unit) s x :
  i < store_last_applied s ->
  ReplaceAll i entries cb (s, x) = (Err (runtime_error "KV snapshot would move backwards"), (s, x)).
Proof. intros Hi. unfold ReplaceAll. rewrite M_bind_unfold. cbn. by destruct (Z.ltb_spec i (store_last_applied s)); [|lia]. Qed.

(** The store right after a snapshot was written. *)
Lemma snapshot_stored `{RocksDBSpec} s i entries :
  0 <= i <= INT64_MAX -> kv s = snapshot_result i entries -> stored_applied s i.
Proof. intros Hi E. split; cbn; [done|]. left. unfold kv in *. cbn. rewrite E. apply lookup_insert_eq. Qed.

(** * Installation in the log *)

(** A snapshot at [i] of a leader whose log is [LL]. *)
Record leader_prefix (t : Z) (LL : list LogEntry) (i it : Z) : Prop := {
  lp_index : 0 < i <= #LL;
  lp_term : term_at LL i = it;
  lp_terms j : 0 < j <= #LL -> 0 < term_at LL j <= t;
  lp_entries j e : LL !! j = Some e -> index e = Z.of_nat j + 1 /\ valid_command (command e) = true;
}.

(** What the rest of the cluster guarantees a node in the leader's term: its
    committed entries are the leader's, and so is whatever matches the snapshot. *)
Record in_step (LL : list LogEntry) (i it : Z) (p : pnode) : Prop := {
  is_follower : p_role p <> LEADER;
  is_committed n : n <= i -> n <= p_commit p -> upto (p_log p) n = upto LL n;
  is_matching : term_at (p_log p) i = it -> upto (p_log p) i = upto LL i;
  is_receiving : #(p_recv p) = i -> term_at (p_recv p) i = it -> p_recv p = upto LL i;
}.

Definition installed (L LL : list LogEntry) (i it : Z) : list LogEntry := if term_at L i =? it then L else upto LL i.

Section Installed.
Context (t : Z) (p : pnode) (LL : list LogEntry) (i it : Z) (P : leader_prefix t LL i it) (SI : in_step LL i it p).

Lemma installed_terms :
  (forall j, 0 < j <= #(p_log p) -> 0 < term_at (p_log p) j <= t) ->
  forall j, 0 < j <= #(installed (p_log p) LL i it) -> 0 < term_at (installed (p_log p) LL i it) j <= t.
Proof.
  intros HL j. unfold installed. destruct (_ =? it); [apply HL|]. destruct P as [? _ Hp _]. rewrite length_upto by lia.
  intros Hj. rewrite term_at_upto by lia. apply Hp. lia.
Qed.

Lemma installed_entries :
  (forall j e, p_log p !! j = Some e -> index e = Z.of_nat j + 1 /\ valid_command (command e) = true) ->
  forall j e, installed (p_log p) LL i it !! j = Some e -> index e = Z.of_nat j + 1 /\ valid_command (command e) = true.
Proof.
  intros HL j e. unfold installed. destruct (_ =? it); [apply HL|]. unfold upto. intros [Hj _]%lookup_take_Some. by eapply lp_entries.
Qed.

Lemma installed_length : 0 < it -> i <= #(installed (p_log p) LL i it).
Proof.
  intros Hit. destruct P as [Hi _ _ _]. unfold installed. destruct (Z.eqb_spec (term_at (p_log p) i) it) as [E|E].
  - pose proof (term_at_inside (p_log p) i). lia.
  - rewrite length_upto; lia.
Qed.

Lemma installed_upto : upto (installed (p_log p) LL i it) i = upto LL i.
Proof.
  unfold installed. destruct (Z.eqb_spec (term_at (p_log p) i) it) as [E|E]; [by apply (is_matching _ _ _ _ SI)|]. by apply upto_upto.
Qed.

Lemma installed_committed n : n <= i -> n <= p_commit p -> upto (installed (p_log p) LL i it) n = upto (p_log p) n.
Proof.
  intros Hn Hc. unfold installed. destruct (_ =? it); [done|]. rewrite upto_upto by done. symmetry. by apply (is_committed _ _ _ _ SI).
Qed.

Lemma installed_bound : 0 < it -> p_commit p <= #(p_log p) -> Z.max i (p_commit p) <= #(installed (p_log p) LL i it).
Proof.
  intros Hit Hc. pose proof (installed_length Hit). destruct (Z.max_spec i (p_commit p)) as [[Hlt ->]|[_ ->]]; [|done].
  unfold installed in *. destruct (Z.eqb_spec (term_at (p_log p) i) it) as [E|E]; [done|]. exfalso. apply E.
  destruct P as [Hi Ht _ _]. rewrite <- Ht, <- (term_at_upto (p_log p) i i), <- (term_at_upto LL i i) by lia.
  f_equal. apply (is_committed _ _ _ _ SI); lia.
Qed.

Lemma log_view_install a d :
  alog_wf a -> log_view a (p_log p) -> a_snap_index a < i -> 0 < it -> snapshot_of (upto LL i) d ->
  log_view (a_install i it d a) (installed (p_log p) LL i it).
Proof.
  intros W V Hi Hit Hd. pose proof installed_upto as EU. destruct P as [Hr Ht _ _]. pose proof (wf_snap_index _ W) as H0'.
  unfold a_install, installed in *. destruct (Z.eqb_spec i (a_snap_index a)); [lia|].
  rewrite (log_view_term a (p_log p) i V H0') by lia. rewrite (lv_length _ _ V).
  destruct (Z.eqb_spec (term_at (p_log p) i) it) as [E|E]; cbn.
  - pose proof (term_at_inside (p_log p) i ltac:(lia)). destruct (Z.leb_spec i #(p_log p)); [|lia]. cbn.
    apply log_view_keep; try (done || lia). by rewrite EU.
  - rewrite andb_false_r. apply log_view_replace; [rewrite length_upto; lia|lia|rewrite term_at_upto; lia|done].
Qed.
End Installed.

Lemma a_install_staged a i it d : a_snap_index a < i -> a_install i it d (a_stage (i, it, d) a) = a_install i it d a.
Proof. intros Hi. unfold a_install. cbn. by destruct (Z.eqb_spec i (a_snap_index a)); [lia|]. Qed.

Section NodeInstall.
Context `{RocksDBSpec} `{LogEntryCodecSpec} `{!Env} {asks : Requests}.
Context (members : gset Z) (me : Z) (box : option (Z * Message)) (lead : outside).
Context (me_member : me ∈ members) (ids_ok : forall k, k ∈ members -> 0 <= k <= INT32_MAX).
Abbreviation calm := (calm members me box lead).
Abbreviation view := (view members me (look lead)).
Abbreviation local := (local members me box lead).
Abbreviation crashed := (crashed members me (look lead)).
Abbreviation tri := (tri members me box lead).

Context (from : Z) (r : Messages.InstallSnapshot).
Abbreviation i := (is_last_included_index r).
Abbreviation it := (is_last_included_term r).
Hypothesis box_is : box = Some (from, MInstallSnapshot r).
Hypothesis not_me : from <> me.
Hypothesis index_ok : 0 < i <= INT64_MAX.
Hypothesis term_ok : 0 < it <= INT32_MAX.
Hypothesis valid : leader_prefix (is_term r) (lead (is_term r)) i it.
Abbreviation in_step := (in_step (lead (is_term r)) i it).
Abbreviation snapshot := (snapshot_of (upto (lead (is_term r)) i)).

(** The protocol node with the snapshot installed, its state machine at [n]. *)
Definition p_installed (p : pnode) (n : Z) : pnode :=
  p <| p_log := installed (p_log p) (lead (is_term r)) i it |> <| p_commit ::= Z.max i |> <| p_applied := n |>.

Lemma local_installed c n :
  p_term c.1 = is_term r -> p_applied c.1 <= n <= i -> local c (p_installed c.1 n, c.2).
Proof.
  intros Et Hn. eapply rtc_l.
  - eexists Tau, [], _. split; [apply (P_install _ _ _ _ _ _ from r); done|]. rewrite app_nil_r. rewrite Et. reflexivity.
  - apply rtc_once. eexists Tau, [], _. rewrite app_nil_r. split; [apply (P_apply _ _ _ _ _ _ n); cbn; lia|done].
Qed.

(** A crash that left the log as it was. *)
Lemma stored_crashed s c a lg :
  view s c -> log_repr s c.1 a -> stored (contents (_db lg)) a -> crashed (s <| _log := lg |>) c.
Proof.
  intros V (_ & Ei & LV & HV & Hs) Hst. pose proof (view_crashed _ _ _ s c V) as [D T]. split; [|exact T].
  pose proof (vw_applied _ _ _ _ _ V). pose proof (vw_term _ _ _ _ _ V) as Et. pose proof (vw_term_range _ _ _ _ _ V).
  destruct D as [_ Dk Dt Dr De Dv Db]. split; [|done..]. exists a. split; [by apply stored_recoverable|].
  unfold settled. rewrite Ei. split; [done|]. split; [done|]. split; [|lia].
  apply (last_term_bound a (p_log c.1)); [apply Hst|done|done|lia].
Qed.

(** The durable state once the snapshot counts as installed. *)
Lemma installed_durably s c a ldb kdb n sm :
  view s c -> in_step c.1 -> p_term c.1 = is_term r -> 0 <= n <= i ->
  recoverable (contents ldb) a -> log_view (settled a) (installed (p_log c.1) (lead (is_term r)) i it) ->
  hard_view a (p_term c.1) (p_voted c.1) -> a_last_term a <= p_term c.1 ->
  match a_intent a with Some (i', t, d) => t <= p_term c.1 /\ i' = i | None => a_snap_index a <= n end ->
  store_db sm = kdb -> synced sm -> store_last_applied sm = n ->
  same_data (kv sm) (replay (upto (installed (p_log c.1) (lead (is_term r)) i it) n)) ->
  durably members ldb kdb (p_installed c.1 n).
Proof.
  intros V SI Et Hn Rec LV HV Hlt HI E1 Hs En HD. split; cbn.
  - exists a. split; [done|]. split; [done|]. split; [done|]. split; [done|]. destruct (a_intent a) as [[[i' t'] d']|]; [|done].
    destruct HI as [? ->]. lia.
  - by exists sm.
  - rewrite Et. apply (installed_terms (is_term r)); [done|]. rewrite <- Et, (vw_term _ _ _ _ _ V). apply V.
  - rewrite (vw_term _ _ _ _ _ V). apply V.
  - by apply (installed_entries (is_term r)); [|apply V].
  - rewrite (vw_voted _ _ _ _ _ V). apply V.
  - pose proof (installed_length (is_term r) c.1 _ _ _ valid ltac:(lia)). lia.
Qed.

(** A crash after the intent was written: recovery will finish. *)
Lemma staged_crashed s c a d n s' sm :
  view s c -> in_step c.1 -> log_repr s c.1 a -> p_term c.1 = is_term r -> a_snap_index a < i -> it <= is_term r -> snapshot d ->
  0 <= n <= i -> p_applied c.1 <= n -> store_db sm = store_db (_sm s') -> synced sm -> store_last_applied sm = n ->
  same_data (kv sm) (replay (upto (installed (p_log c.1) (lead (is_term r)) i it) n)) ->
  stored (contents (_db (_log s'))) (a_stage (i, it, d) a) -> _trace s' = _trace s ->
  exists c', local c c' /\ crashed s' c'.
Proof.
  intros V SI (_ & Ei & LV & HV & Hsa) Et Hsi Hit Hd Hn Hap E1 Hs En HD Hst Htr. exists (p_installed c.1 n, c.2).
  split; [apply local_installed; (done || lia)|]. split; [|rewrite Htr; apply V].
  eapply (installed_durably s c (a_stage (i, it, d) a)); try done; [by apply stored_recoverable|..].
  - unfold settled. cbn. apply (log_view_install (is_term r)); try done; [by apply Hst|by destruct LV; split|lia].
  - pose proof (vw_term _ _ _ _ _ V) as Et'. pose proof (vw_term_range _ _ _ _ _ V). rewrite Et'.
    apply (last_term_bound (a_stage (i, it, d) a) (p_log c.1)); [apply Hst|by destruct LV; split|apply V|lia].
  - cbn. split; [lia|done].
Qed.

(** A crash after the log was rewritten as well. *)
Lemma installed_crashed s c a d s' sm :
  view s c -> in_step c.1 -> log_repr s c.1 a -> p_term c.1 = is_term r -> a_snap_index a < i -> snapshot d ->
  store_db sm = store_db (_sm s') -> synced sm -> store_last_applied sm = i ->
  same_data (kv sm) (replay (upto (lead (is_term r)) i)) ->
  stored (contents (_db (_log s'))) (a_install i it d (a_stage (i, it, d) a)) -> _trace s' = _trace s ->
  crashed s' (p_installed c.1 i, c.2).
Proof.
  intros V SI ((_ & [W _ _]) & Ei & LV & HV & Hsa) Et Hsi Hd E1 Hs En HD Hst Htr.
  rewrite a_install_staged in Hst by done. split; [|rewrite Htr; apply V].
  assert (log_view (a_install i it d a) (installed (p_log c.1) (lead (is_term r)) i it)) as LV'
    by (by apply (log_view_install (is_term r)); try done; lia).
  assert (a_intent (a_install i it d a) = None /\ a_snap_index (a_install i it d a) = i /\ a_hard (a_install i it d a) = a_hard a) as (En' & Es & Eh)
    by (unfold a_install; by destruct (Z.eqb_spec i (a_snap_index a)); [lia|]).
  eapply (installed_durably s c (a_install i it d a)); try done; [lia|by apply stored_recoverable|..].
  - unfold settled. by rewrite En'.
  - unfold hard_view. by rewrite Eh.
  - pose proof (vw_term _ _ _ _ _ V) as Et'. pose proof (vw_term_range _ _ _ _ _ V).
    eapply (last_term_bound (a_install i it d a)); [apply Hst|exact LV'| |lia]. rewrite Et.
    apply (installed_terms (is_term r)); [done|]. rewrite <- Et, Et'. apply V.
  - rewrite En'. lia.
  - by rewrite (installed_upto _ _ _ _ SI).
Qed.

(** The object after the installation. *)
Lemma view_installed s c a d sm lg :
  view s c -> in_step c.1 -> log_repr s c.1 a -> idle s -> p_term c.1 = is_term r -> a_snap_index a < i -> snapshot d ->
  synced sm -> store_last_applied sm = i -> same_data (kv sm) (replay (upto (lead (is_term r)) i)) ->
  Repr lg (a_install i it d (a_stage (i, it, d) a)) ->
  view (s <| _sm := sm |> <| _log := lg |> <| _last_applied := i |> <| _commit_index ::= fun c => Z.max c i |>)
    (p_installed c.1 i, c.2).
Proof.
  intros V SI HR Hidle Et Hsi Hd Hs En HD HL. pose proof (vw_term _ _ _ _ _ V) as Ect.
  destruct (installed_crashed s c a d (s <| _sm := sm |> <| _log := lg |>) sm) as [D _]; [done..|apply HL|done|].
  destruct HR as ((_ & [W _ _]) & _ & LV & HV & Hsa).
  assert (a_install i it d (a_stage (i, it, d) a) = a_snapshot ((i <=? a_last_index a) && (a_term a i =? it)) i it d a) as Ea.
  { unfold a_install. cbn. destruct (Z.eqb_spec i (a_snap_index a)); [lia|]. done. }
  assert (exists a', log_repr (s <| _sm := sm |> <| _log := lg |> <| _last_applied := i |> <| _commit_index ::= fun c => Z.max c i |>)
            (p_installed c.1 i) a') as Hlog.
  { exists (a_install i it d (a_stage (i, it, d) a)). split; [exact HL|]. rewrite Ea. split; [done|]. split; [|split; [exact HV|cbn; lia]].
    replace (a_snapshot _ i it d a) with (a_install i it d a) by (by rewrite <- a_install_staged).
    apply (log_view_install (is_term r)); (done || lia). }
  assert (_apply_work s = None) as Hw.
  { destruct (_apply_work s) as [w|] eqn:Ew; [|done]. destruct (vw_work _ _ _ _ _ V w Ew) as [Hx _]. unfold idle in Hidle. congruence. }
  pose proof (is_follower _ _ _ _ SI) as Hr. rewrite (vw_role _ _ _ _ _ V) in Hr. pose proof (du_terms _ _ _ _ D) as Ht.
  pose proof (du_entries _ _ _ _ D) as He. cbn in Ht, He. pose proof (vw_commit _ _ _ _ _ V) as Eco.
  pose proof (installed_bound (is_term r) c.1 _ _ _ valid SI ltac:(lia) ltac:(rewrite Eco; apply V)) as Hb.
  destruct V; split; try exact Hlog; cbn; try assumption; try (by intros; lia); try (by intros; destruct Hr).
  - exists sm. split_and!; try done; [lia|]. by rewrite (installed_upto _ _ _ _ SI).
  - intros w. by rewrite Hw.
  - by rewrite Ect in Ht.
  - intros j pd Hp. by destruct (vw_pending j pd Hp).
  - intros Hx. destruct (vw_serve Hx). congruence.
Qed.

(** The whole installation. *)
Lemma install_outcome d s c :
  view s c -> in_step c.1 -> idle s -> p_term c.1 = is_term r -> _last_applied s < i -> it <= is_term r ->
  #d <= kMaxSnapshotBytes -> snapshot d ->
  match (on_stores (sm_InstallSnapshot i d (StageSnapshotInstall i it d));;
         on_log (RaftLog.InstallSnapshot i it d);;
         modify (fun s => s <| _last_applied := i |> <| _commit_index ::= fun c => Z.max c i |>)) s with
  | (Ok _, s') => exists c', local c c' /\ view s' c' /\ (p_term c'.1 = is_term r /\ i <= p_commit c'.1)
  | (Err _, s') => exists c', local c c' /\ crashed s' c'
  end.
Proof.
  intros V SI Hidle Et Hla Hit Hd Hsn. destruct (vw_log _ _ _ _ _ V) as (a & HR).
  pose proof HR as (R & Ei & LV & HV & Hsa).
  destruct (vw_sm _ _ _ _ _ V) as (sm & _ & Hs & Ea & Hac & HD & E). rewrite (E (idle_settled _ _ _ s c V Hidle)) in Hs, Ea, HD. clear E.
  rewrite <- (vw_commit _ _ _ _ _ V) in Hac.
  assert (crashed s c) as Cr by (by eapply view_crashed). pose proof (proj1 Hs) as Hl0.
  destruct (snapshot_decodes _ d Hsn ltac:(unfold kMaxSnapshotBytes, UINT32_MAX in *; lia)) as (entries & Ed & _ & HDi).
  rewrite M_bind_unfold. unfold on_stores, lens, sm_InstallSnapshot. rewrite M_bind_unfold, Ed. cbn [lift_result].
  destruct (Z.lt_ge_cases i (store_last_applied (_sm s))) as [Hb|Hb].
  { rewrite ReplaceAll_backwards by done. exists c. split; [apply rtc_refl|done]. }
  assert (same_data (kv (_sm s)) (replay (upto (installed (p_log c.1) (lead (is_term r)) i it) (store_last_applied (_sm s))))) as HD'
    by (rewrite (installed_committed _ _ _ _ SI) by lia; by rewrite <- Ea).
  pose proof (ReplaceAll_spec i entries (StageSnapshotInstall i it d) (_sm s) (_log s)) as HRA.
  pose proof (StageSnapshotInstall_implements (_log s) a i it d R) as I1. unfold implements in I1.
  ospecialize* I1; [split; [cbn; lia|done]|done|].
  destruct (ReplaceAll _ _ _ _) as [[u|e] [sm1 lg1]].
  - destruct HRA as (_ & _ & Ekv & El & Ecb & _). rewrite Ecb in I1. destruct I1 as [R1 _].
    assert (synced sm1) as Hs1 by (rewrite <- El in Ekv; pose proof (snapshot_stored sm1 (store_last_applied sm1) entries ltac:(lia) Ekv) as Hx; by destruct sm1).
    assert (same_data (kv sm1) (replay (upto (lead (is_term r)) i))) as HD1 by (rewrite Ekv; apply HDi).
    rewrite M_bind_unfold. unfold on_log, lens.
    pose proof (InstallSnapshot_implements lg1 (a_stage (i, it, d) a) i it d R1) as I2. unfold implements in I2.
    ospecialize* I2; [cbn; lia|lia|done|cbn; lia|done|].
    lazymatch goal with |- context [RaftLog.InstallSnapshot i it d ?l] => change l with lg1 end.
    destruct (RaftLog.InstallSnapshot i it d lg1) as [[[]|e] lg2].
    + destruct I2 as [R2 _]. cbn. exists (p_installed c.1 i, c.2). split; [apply local_installed; (done || lia)|].
      split; [apply (view_installed s c a d sm1 lg2); try done; lia|]. cbn. split; [done|lia].
    + destruct I2 as (_ & _ & [Hst|Hst]).
      * eapply (staged_crashed s c a d i _ sm1); try (done || lia). by rewrite (installed_upto _ _ _ _ SI).
      * exists (p_installed c.1 i, c.2). split; [apply local_installed; (done || lia)|].
        apply (installed_crashed s c a d _ sm1); (done || lia).
  - destruct HRA as (El & [(-> & -> & _)|[(-> & e' & Ecb)|(Ecb & _ & Hkv)]]).
    + exists c. split; [apply rtc_refl|done].
    + rewrite Ecb in I1. destruct I1 as (_ & _ & [Hst|Hst]).
      * exists c. split; [apply rtc_refl|]. by apply (stored_crashed s c a).
      * eapply (staged_crashed s c a d (store_last_applied (_sm s)) _ (_sm s)); (done || lia).
    + rewrite Ecb in I1. destruct I1 as [R1 _].
      assert (exists n, p_applied c.1 <= n <= i /\ stored_applied sm1 n /\
        same_data (kv sm1) (replay (upto (installed (p_log c.1) (lead (is_term r)) i it) n))) as (n & Hn & Hsm & HD1).
      { destruct Hkv as [Hkv|Hkv]; [exists (store_last_applied (_sm s))|exists i]; (split; [lia|]); rewrite Hkv.
        - split; [|done]. destruct Hs as [Hs1 Hs2]. split; [done|]. unfold kv in *. cbn. by rewrite Hkv.
        - split; [apply (snapshot_stored _ _ entries); [lia|done]|]. rewrite (installed_upto _ _ _ _ SI). apply HDi. }
      eapply (staged_crashed s c a d n _ (mkRocksDBStore (store_db sm1) n)); try (done || lia). apply R1.
Qed.

Lemma M_bind_seq3 {S A} (m1 m2 m3 : M S unit) (k : M S A) s : (m1;; m2;; m3;; k) s = ((m1;; m2;; m3);; k) s.
Proof.
  rewrite !M_bind_unfold. destruct (m1 s) as [[u1|e] s1]; [|done]. rewrite !M_bind_unfold.
  destruct (m2 s1) as [[u2|e] s2]; [|done]. by rewrite !M_bind_unfold.
Qed.

Lemma tri_seq3 {A} P (m1 m2 m3 : M RaftNode unit) (k : M RaftNode A) Q :
  tri P ((m1;; m2;; m3);; k) Q -> tri P (m1;; m2;; m3;; k) Q.
Proof. intros Ht s c V HP. rewrite M_bind_seq3. by apply Ht. Qed.

(** The run so far started at [c0]. *)
Context (c0 : conf).
Hypothesis steps : forall c, local c0 c -> p_term c.1 = is_term r -> in_step c.1.
Hypothesis chunk : chunk_of (upto (lead (is_term r)) i) r.

Definition receiving (s : RaftNode) (c : conf) : Prop :=
  (p_term c.1 = is_term r /\ local c0 c) /\ idle s /\ _last_applied s < i.

Lemma calm_receiving {A} (m : M RaftNode A) : evolves calm m -> tri receiving m (fun _ => receiving).
Proof.
  intros Hm s c V ((Et & L0) & Hi & Hl). specialize (Hm s c V).
  destruct (m s) as [[x|e] s']; destruct Hm as [Ec (c' & L & Sm & V')]; exists c'; (split; [done|]); [|by eapply view_crashed].
  injection Ec as _ _ _ _ Hinf _ _ _ _ _ _ _ Hla _ _. split; [done|]. unfold receiving, idle in *. rewrite Hinf, Hla. split; [|done].
  split; [by rewrite Sm|by etrans].
Qed.

Definition chunk_answer (ans : bool * bool) (s : RaftNode) (c : conf) : Prop :=
  p_term c.1 = is_term r /\ (ans.2 = true -> ans.1 = true /\ i <= p_commit c.1).

Lemma calm_answer {A} (m : M RaftNode A) ans : evolves calm m -> tri (chunk_answer ans) m (fun _ => chunk_answer ans).
Proof. intros Hm. apply tri_calm; [done|]. intros _ s s' c c' V [Et Hc] _ Sm. unfold chunk_answer. by rewrite Sm. Qed.

Lemma answer_no b s c : receiving s c -> chunk_answer (b, false) s c.
Proof. by intros ((? & _) & _). Qed.

Lemma calm_no_receive : evolves calm (modify (fun s => s <| _snapshot_receive := no_receive |>)).
Proof. apply calm_modify; [done|]. intros s c []. by split; cbn; try assumption. Qed.
#[local] Hint Resolve calm_no_receive : calm.

Lemma tri_refuse b P :
  (forall s c, P s c -> receiving s c) ->
  tri P (modify (fun s => s <| _snapshot_receive := no_receive |>);; mret (b, false)) chunk_answer.
Proof.
  intros HP. apply tri_bind with (fun _ => receiving); [|intros []; apply tri_ret; by apply answer_no].
  eapply tri_conseq; [apply calm_receiving; auto with calm|auto|done].
Qed.

(** The first chunk starts a reception. *)
Lemma tri_receive :
  tri receiving (modify (fun s => s <| _snapshot_receive := MkSnapshotReceive i it [] |>)) (fun _ => receiving).
Proof.
  apply tri_modify. intros s c V ((Et & L0) & Hi & Hl). exists (c.1 <| p_recv := upto (lead (p_term c.1)) i |>, c.2).
  assert (local c (c.1 <| p_recv := upto (lead (p_term c.1)) i |>, c.2)) as L.
  { apply rtc_once. eexists Tau, [], _. rewrite app_nil_r. split; [by apply (P_receive _ _ _ _ _ _ from r)|done]. }
  split; [done|]. split; [|split; [split; [done|by etrans]|done]]. destruct valid as [Hr Ht _ _].
  destruct V. split; cbn; try assumption; try keep_queue. intros _. cbn. rewrite Et, length_upto, term_at_upto by lia.
  split; [done|]. split; [done|]. destruct chunk as (d & Hd & _). exists d. split; [done|apply prefix_nil].
Qed.

(** A chunk at the right offset continues it. *)
Lemma chunk_continues s c d :
  view s c -> in_step c.1 -> sr_index (_snapshot_receive s) = i -> sr_term (_snapshot_receive s) = it ->
  is_offset r = #(sr_data (_snapshot_receive s)) -> snapshot d -> 
  #(p_recv c.1) = i /\ term_at (p_recv c.1) i = it /\ snapshot_of (p_recv c.1) d /\
  sr_data (_snapshot_receive s) ++ is_data r `prefix_of` d /\
  (is_done r = true -> sr_data (_snapshot_receive s) ++ is_data r = d).
Proof.
  intros V SI E1 E2 E3 Hd. pose proof (vw_receive _ _ _ _ _ V) as HV. unfold receive_ok in HV. rewrite E1, E2 in HV.
  destruct (HV ltac:(lia)) as (Hl & Ht & d' & Hd' & Hp). pose proof (is_receiving _ _ _ _ SI Hl Ht) as Er.
  rewrite Er in Hd'. pose proof (snapshot_of_unique _ _ _ Hd' Hd) as ->. rewrite Er in Hl, Ht |- *.
  split; [done|]. split; [done|]. split; [done|]. clear HV Er. destruct chunk as (d' & Hd2 & _ & Hle & Edata & Hdone).
  pose proof (snapshot_of_unique _ _ _ Hd2 Hd) as ->. set (p := sr_data (_snapshot_receive s)) in *. destruct Hp as [rest ->].
  rewrite E3, Nat2Z.id, drop_app_length in Edata.
  assert (p ++ is_data r `prefix_of` p ++ rest) as HP by (apply prefix_app; rewrite Edata; apply prefix_take).
  split; [done|]. intros Hdn. specialize (Hdone Hdn). apply prefix_length_eq; [done|]. rewrite !length_app in *. lia.
Qed.

Lemma tri_receive_chunk :
  it <= is_term r ->
  tri (fun _ c => p_term c.1 = is_term r /\ local c0 c) (receive_chunk r) chunk_answer.
Proof.
  intros Hit. unfold receive_chunk. apply tri_get. intros s0. apply tri_guard; intros Hl.
  { apply Z.leb_le in Hl. apply tri_bind with (fun _ => chunk_answer (true, true)); [|intros []; by apply tri_ret].
    eapply tri_conseq; [apply (calm_answer _ (true, true)); auto with calm| |done]. intros s c V (-> & Et & _). split; [done|]. intros _.
    split; [done|]. rewrite (vw_commit _ _ _ _ _ V). pose proof (vw_last _ _ _ _ _ V). lia. }
  apply Z.leb_gt in Hl. apply tri_guard; intros Hi; [apply tri_ret; by intros s c (-> & Et & _)|].
  apply tri_guard; intros _; [apply tri_refuse; by intros s c (-> & Et)|].
  apply tri_bind with (fun _ => receiving).
  { eapply tri_conseq with (P' := receiving) (Q' := fun _ => receiving); [|by intros s c V (-> & Et)|done].
    apply tri_when; [intros _; apply tri_receive|done]. }
  intros []. apply tri_gets. intros s1. apply tri_guard; intros Hg; [|apply tri_refuse; by intros s c [_ ?]].
  apply andb_true_iff in Hg as [[E1%Z.eqb_eq E2%Z.eqb_eq]%andb_true_iff E3%Z.eqb_eq].
  destruct chunk as (d & Hd & _). set (data := sr_data (_snapshot_receive s1) ++ is_data r).
  apply (tri_learn _ _ _ _ (is_done r = true -> data = d)).
  { intros s c V (-> & (Et & L0) & _). by apply (chunk_continues s1 c d V (steps c L0 Et)). }
  intros Hdone. apply tri_bind with (fun _ => receiving).
  { apply tri_modify. intros s c V (-> & HRc). exists c. split; [apply rtc_refl|]. split; [|done].
    destruct HRc as ((Et & L0) & _). destruct (chunk_continues s1 c d V (steps c L0 Et)) as (X1 & X2 & X3 & X4 & _); try done.
    destruct V. split; cbn; try assumption. intros _. cbn. rewrite E1, E2. split; [done|]. split; [done|]. by exists d. }
  intros []. apply tri_guard; intros Hsz; [by apply tri_refuse|]. apply Z.ltb_ge in Hsz.
  apply tri_guard; intros Hdn; [apply tri_ret; intros s c ?; by apply answer_no|]. apply negb_false_iff in Hdn.
  apply tri_seq3, tri_bind with (fun _ => chunk_answer (true, true)).
  - intros s c V ((Et & L0) & Hidle & Hla). pose proof (install_outcome data s c V (steps c L0 Et) Hidle Et Hla Hit Hsz ltac:(by rewrite Hdone)) as HI.
    match type of HI with match ?x with _ => _ end => destruct x as [[u|e] s'] end; [|done].
    destruct HI as (c' & L & V' & Ht & Hc). by exists c'.
  - intros []. apply tri_bind with (fun _ => chunk_answer (true, true)); [apply calm_answer; auto with calm|]. intros []. by apply tri_ret.
Qed.
End NodeInstall.

Section HandleInstall.
Context `{RocksDBSpec} `{LogEntryCodecSpec} `{!Env} {asks : Requests}.
Context (members : gset Z) (me : Z) (box : option (Z * Message)) (lead : outside).
Context (me_member : me ∈ members) (ids_ok : forall k, k ∈ members -> 0 <= k <= INT32_MAX).
Abbreviation tri := (tri members me box lead).
Abbreviation local := (local members me box lead).

(** The actions of a run start where it started. *)
Lemma tri_track {A} c0 P (m : M RaftNode A) Q :
  tri P m Q -> tri (fun s c => P s c /\ local c0 c) m (fun a s c => Q a s c /\ local c0 c).
Proof.
  intros Hm s c V [HP L0]. specialize (Hm s c V HP). destruct (m s) as [[a|e] s']; [|done].
  destruct Hm as (c' & L & V' & HQ). exists c'. split; [done|]. split; [done|]. split; [done|by etrans].
Qed.

(** What the rest of the cluster guarantees of a snapshot: it is a piece of the
    snapshot of a prefix of the log of the leader that sent it, and as long as this
    node is in that leader's term, it is in step with it. *)
Lemma tri_HandleInstallSnapshot from r c0 :
  box = Some (from, MInstallSnapshot r) -> is_term r <= INT32_MAX -> is_last_included_index r <= INT64_MAX ->
  leader_prefix (is_term r) (lead (is_term r)) (is_last_included_index r) (is_last_included_term r) ->
  chunk_of (upto (lead (is_term r)) (is_last_included_index r)) r ->
  (forall c, from <> me -> local c0 c -> p_term c.1 = is_term r ->
     in_step (lead (is_term r)) (is_last_included_index r) (is_last_included_term r) c.1) ->
  tri (fun _ c => c = c0) (HandleInstallSnapshot from r) (fun _ _ _ => True).
Proof.
  intros Hbox Ht Hix Hv Hck Hst. unfold HandleInstallSnapshot. apply tri_get. intros s0.
  apply tri_guard; intros Hg; [by apply tri_ret|].
  assert (IsRemotePeer from s0 = true /\ 0 < is_term r /\ 0 < is_last_included_index r /\ 0 < is_last_included_term r <= is_term r)
    as (Hrem & Hpos & Hpi & Hpt).
  { destruct (IsRemotePeer from s0), (Z.leb_spec (is_term r) 0), (Z.leb_spec (is_last_included_index r) 0),
      (Z.leb_spec (is_last_included_term r) 0), (Z.ltb_spec (is_term r) (is_last_included_term r));
      cbn in Hg; rewrite ?orb_true_r in Hg; try done. }
  apply (tri_learn _ _ _ _ (from ∈ members /\ from <> me)); [intros s c V [-> _]; by apply (remote_peer members me lead s0 c)|intros [Hin Hne]].
  apply tri_bind with (fun _ _ c => True /\ local c0 c).
  { eapply tri_conseq with (P' := fun s c => s = s0 /\ local c0 c) (Q' := fun _ _ c => True /\ local c0 c); [|by intros s c _ [-> ->]; split; [|apply rtc_refl]|done].
    apply tri_when; intros Hc; [apply tri_track, tri_BecomeFollower_any; [done..|intros; lia]|by intros s c _ [_ ?]]. }
  intros _. apply tri_get. intros s1.
  apply tri_bind with (fun ans _ c => ans.2 = false \/ (_current_term s1 = is_term r /\ chunk_answer r ans s1 c)).
  - apply tri_guard; intros Et; [apply Z.eqb_eq in Et|apply tri_ret; by left].
    apply tri_bind with (fun _ _ c => p_term c.1 = is_term r /\ local c0 c).
    { apply tri_modify. intros s c V (-> & _ & L0). exists c. split; [apply rtc_refl|].
      split; [destruct V; split; cbn; assumption|]. rewrite (vw_term _ _ _ _ _ V). done. }
    intros _. eapply tri_bind.
    { apply tri_track, (tri_keep _ _ _ _ _ (fun p => p_term p = is_term r)); [auto with calm|by intros p p' ->]. }
    intros []. eapply tri_conseq; [apply (tri_receive_chunk _ _ _ _ from r) with (c0 := c0); try (done || lia); auto|done|].
    intros ans s c _ Ha. right. by rewrite <- Et.
  - intros ans. cbn beta. apply tri_bind with (fun _ _ _ => True); [|intros; by apply tri_ret]. apply tri_Send_step; [done|].
    intros s c V Ha. destruct ans as [b []]; cbn [fst snd] in *; [|exists Tau; apply P_emit; left; by right].
    destruct Ha as [|(Et & Ep & Hc)]; [done|]. destruct (Hc eq_refl) as [Eb Hi]. cbn in Eb. subst b.
    exists (Acked (is_last_included_index r)). rewrite Et, <- Ep. by apply (P_ack_snapshot _ _ _ _ _ _ from r).
Qed.
End HandleInstall.
