(* ===== verification/NodeLife.v ===== *)
(** The timer, the life cycle and recovery as actions of the protocol. *)
From stdpp Require Import base numbers strings gmap list.
From S2P Require Import Prelude Effects Storage Messages RaftLog LogSpec LogProofs LogRecovery.
From S2P Require Import Resp KVStore KVStateMachine KVTheorems KVReplay Metrics Peers RaftState RaftNode RaftProtocol ProtocolSafety.
From S2P Require Import NodeView NodeCalm NodeReads NodeApply NodeCommit NodeElection NodeVotes NodeLeader NodeInstall.

Section NodeLife.
Context `{RocksDBSpec} `{LogEntryCodecSpec} `{!Env} {asks : Requests}.
Context (members : gset Z) (me : Z) (box : option (Z * Message)) (lead : outside).
Context (me_member : me ∈ members) (ids_ok : forall k, k ∈ members -> 0 <= k <= INT32_MAX).
Abbreviation calm := (calm members me box lead).
Abbreviation view := (view members me (look lead)).
Abbreviation local := (local members me box lead).
Abbreviation crashed := (crashed members me (look lead)).
Abbreviation tri := (tri members me box lead).

(** The clocks of the requests in flight. *)
Definition age (f : Inflight) : Inflight :=
  if fl_id f =? 0 then f else f <| fl_elapsed_ms ::= Z.add kTickIntervalMs |>.

Lemma age_ok c peer f : flight_ok c peer f -> flight_ok c peer (age f).
Proof. unfold age. by destruct (fl_id f =? 0). Qed.

Lemma numbered_age o trace flights seq : numbered me o trace flights seq -> numbered me o trace (age <$> flights) seq.
Proof.
  intros Hn k r [Hin|[Hin|(f & Hf & E)]]; apply (Hn k); [by left|right; by left|right; right].
  apply lookup_fmap_Some in Hf as (g & <- & Hg). exists g. split; [done|]. unfold age in E. by destruct (fl_id g =? 0).
Qed.

Lemma tri_age :
  tri leading (modify (fun s => s <| _inflight ::= fmap age |> <| _heartbeat_timer_ms ::= fun t => t - kTickIntervalMs |>))
    (fun _ => leading).
Proof.
  apply tri_modify. intros s c V HL. exists c. split; [apply rtc_refl|]. split; [|done].
  destruct V. split; cbn; try assumption.
  - apply map_Forall_fmap. exact vw_flight_peers.
  - intros Hr. apply map_Forall_fmap. intros k f Hk. apply age_ok. by apply (vw_flights Hr).
  - by apply numbered_age.
Qed.

Lemma tri_leading_part :
  tri leading
    (modify (fun s => s <| _inflight ::= fmap age |> <| _heartbeat_timer_ms ::= fun t => t - kTickIntervalMs |>);;
     s ← get;
     (if _heartbeat_timer_ms s <=? 0 then
        BroadcastAppendEntries;;
        modify (fun s => s <| _heartbeat_timer_ms := kHeartbeatIntervalMs |>)
      else
        for_each (_all_peers s) (fun peer =>
          if peer_id peer =? _node_id s then mret tt
          else
            s ← get;
            flight ← at_key (_inflight s) (peer_id peer);
            when (fl_id flight =? 0) (SendAppendEntries (peer_id peer))));;
     CheckReadIndexTimeout;;
     CheckQuorum;;
     s ← get;
     when (IsLeader s) (ExpireUncommittedProposals;; FinishReadIndexRounds)) (fun _ _ _ => True).
Proof.
  eapply tri_bind; [apply tri_age|]. intros []. apply tri_get. intros s1.
  apply tri_bind with (fun _ => leading).
  { apply tri_guard; intros _.
    - eapply tri_bind; [eapply tri_conseq; [apply tri_leading, leader_BroadcastAppendEntries|by intros s c _ [_ ?]|by intros]|].
      intros []. apply tri_leading_calm. auto with calm.
    - eapply tri_conseq; [apply (tri_for_each _ _ _ _ _ _ leading)|by intros s c _ [_ ?]|by intros].
      intros peer _. apply tri_guard; intros _; [by apply tri_ret|]. apply tri_get. intros s2.
      apply tri_bind with (fun _ => leading).
      { eapply tri_conseq; [apply tri_pure|by intros s c _ [_ ?]|by intros]. intros s. unfold at_key. by destruct (_inflight s2 !! _). }
      intros f. apply tri_when; [|done]. intros _. apply tri_leading, leader_SendAppendEntries. }
  intros []. eapply tri_bind; [apply tri_leading_calm, calm_CheckReadIndexTimeout|]. intros [].
  eapply tri_bind; [eapply tri_conseq; [by apply tri_CheckQuorum|done|by intros]|]. intros []. apply tri_get. intros s2. apply tri_True_calm. calm_auto.
Qed.

Lemma tri_Tick : tri (fun _ _ => True) Tick (fun _ _ _ => True).
Proof.
  unfold Tick. apply tri_get. intros s0. apply tri_guard; intros _; [by apply tri_ret|].
  apply tri_bind with (fun _ _ _ => True).
  - apply tri_when; [|done]. intros Hs. apply negb_true_iff, bool_decide_eq_false_1 in Hs.
    apply tri_bind with (fun _ s _ => _state s <> LEADER).
    + apply tri_calm; [auto with calm|]. intros _ s s' c c' V [-> _] Ec _. injection Ec. congruence.
    + intros now. apply tri_when; [|done]. intros _. by apply tri_BecomePreCandidate.
  - intros []. apply tri_get. intros s1. apply tri_when; [|done]. intros Hs. apply bool_decide_eq_true_1 in Hs.
    eapply tri_conseq; [apply tri_leading_part| |done]. intros s c V [-> _]. by apply (leading_state members me lead s1 c).
Qed.

Lemma tri_ApplyCommitted P : tri P ApplyCommitted (fun _ _ _ => True).
Proof. by apply (tri_steady _ _ _ _ _ _ _ _ (steadily_ApplyCommitted _ _ _ _)). Qed.

Lemma tri_Start : tri (fun _ _ => True) Start (fun _ _ _ => True).
Proof.
  unfold Start. apply tri_bind with (fun _ _ _ => True).
  { apply tri_modify. intros s c V _. exists c. split; [apply rtc_refl|]. split; [|done]. destruct V. split; cbn; assumption. }
  intros []. apply tri_get. intros s0. apply tri_bind with (fun _ _ _ => True); [|intros []; apply tri_ApplyCommitted].
  apply tri_BecomeFollower_any; [done..|]. intros s c V [-> _]. apply V.
Qed.

Lemma tri_Stop : tri (fun _ _ => True) Stop (fun _ _ _ => True).
Proof.
  intros s c V _. unfold Stop. rewrite M_bind_unfold. cbn [modify].
  set (c1 := (c.1 <| p_role := FOLLOWER |> <| p_votes := ∅ |>, c.2) : conf).
  assert (local c c1) as L1.
  { apply rtc_once. eexists Tau, [], _. rewrite app_nil_r. split; [apply P_step_down; by left|done]. }
  lazymatch goal with |- context [on_reads ?g] => change (on_reads g) with (on_reads g;; mret tt) end.
  match goal with |- context [(FailPending ?a;; ClearReadIndexQueues ?b;; _;; ?k) ?s2] =>
    destruct (cleared members me box lead a b k s2 c1) as (s3 & c3 & -> & L3 & E3 & V3) end.
  { destruct V. split; cbn; try assumption; try done. by intros [|]. }
  { done. }
  exists c3. split; [by etrans|done].
Qed.

Lemma calm_SetSnapshotThreshold n : evolves calm (SetSnapshotThreshold n).
Proof. unfold SetSnapshotThreshold. calm_auto. Qed.
Lemma calm_SetSnapshotChunkBytes n : 0 <= n -> evolves calm (SetSnapshotChunkBytes n).
Proof.
  intros Hn. unfold SetSnapshotChunkBytes. destruct (Z.eqb_spec n 0); cbn [orb]; [calm_auto|]. destruct (_ <? n); [calm_auto|].
  apply calm_modify; [done|]. intros s c []. split; cbn; try assumption. lia.
Qed.
Lemma calm_SetLeaseReads b : (b = true -> lenient = true) -> evolves calm (SetLeaseReads b).
Proof. intros Hb. unfold SetLeaseReads. apply calm_modify; [done|]. intros s c []. by split; cbn; try assumption. Qed.
End NodeLife.

(** * Recovery *)

Section Recovery.
Context `{RocksDBSpec} `{LogEntryCodecSpec} `{!Env} {asks : Requests}.
Context (members : gset Z) (me : Z) (box : option (Z * Message)) (lead : outside) (me_member : me ∈ members).
Context (just_started : (length (seen lead) <= since (look lead))%nat).
Abbreviation view := (view members me (look lead)).
Abbreviation local := (local members me box lead).
Abbreviation crashed := (crashed members me (look lead)).

(** The constructor, once both stores are recovered. *)
Definition construct_rest : M RaftNode unit :=
  modify (fun s => s <| _last_applied := store_last_applied (_sm s) |> <| _commit_index := store_last_applied (_sm s) |>);;
  s ← get;
  if (_last_applied s <? _snapshot_index (_log s)) || (_last_index (_log s) <? _last_applied s)
     || (_current_term s <? _last_term (_log s)) then throw (runtime_error "inconsistent KV/log recovery state")
  else
    for_each (_all_peers s) (fun peer => modify (reset_peer (fun _ => 1) peer));;
    s ← get;
    if negb (_voted_for s =? -1) && negb (bool_decide (is_Some (_next_index s !! _voted_for s)))
    then throw (runtime_error "persisted vote is outside the static membership")
    else mret tt.

(** An object under construction: everything but the stores, the term and the
    vote is as initialized. *)
Definition under_construction (peers : list PeerInfo) (s : RaftNode) : Prop :=
  exists db lg executor, s = (initial_node me peers db lg executor) <| _sm := _sm s |> <| _log := _log s |>
    <| _current_term := _current_term s |> <| _voted_for := _voted_for s |>.

Record raw (peers : list PeerInfo) (p : pnode) (s : RaftNode) : Prop := {
  raw_log : exists a, Repr (_log s) a /\ a_intent a = None /\ log_view a (p_log p) /\ hard_view a (p_term p) (p_voted p) /\
    a_snap_index a <= p_applied p;
  raw_sm : synced (_sm s) /\ p_applied p = store_last_applied (_sm s) /\
    same_data (kv (_sm s)) (replay (upto (p_log p) (p_applied p)));
  raw_bound : p_applied p <= #(p_log p);
  raw_term : p_term p = _current_term s /\ p_voted p = _voted_for s;
  raw_rest : under_construction peers s;
}.

(** What a recovered log satisfies. *)
Definition log_sound (p : pnode) : Prop :=
  (forall i, 0 < i <= #(p_log p) -> 0 < term_at (p_log p) i <= p_term p) /\ 0 <= p_term p <= INT32_MAX /\
  (forall j e, p_log p !! j = Some e -> index e = Z.of_nat j + 1 /\ valid_command (command e) = true) /\
  (p_voted p = -1 \/ p_voted p ∈ members).

(** Nothing in what was recovered makes the constructor give up. *)
Lemma construct_rest_view peers p sent s :
  peer_ids peers ≡ₚ elements members -> log_sound p -> spoken me (seen lead) [] sent -> raw peers p s ->
  exists s' c', construct_rest s = (Ok tt, s') /\ local (p, sent) c' /\ view s' c' /\ p_role c'.1 = FOLLOWER.
Proof.
  intros Hp (Dt & Dr & De & Dv) Hsp [(a & R & Ei & LV & HV & Hsa) (Hs & Ea & HD) Hbd [Et Ev] (db0 & lg0 & ex & Es)].
  pose proof (proj1 Hs) as Hr0. pose proof (c_snap_index _ _ (proj1 R)) as Esi. pose proof (c_last_index _ _ (proj1 R)) as Eli.
  pose proof (c_last_term _ _ (proj1 R)) as Elt. pose proof (last_term_bound a (p_log p) (p_term p) (st_wf _ _ (proj2 R)) LV Dt ltac:(lia)) as Hlt.
  pose proof (lv_length _ _ LV) as Hlen.
  assert (forall k, k ∈ peer_ids (_all_peers s) <-> k ∈ members) as Hids.
  { intros k. rewrite Es. cbn. rewrite Hp. apply elem_of_elements. }
  assert (_next_index s = ∅ /\ _match_index s = ∅ /\ _inflight s = ∅) as (En & Em & Ef) by (by rewrite Es).
  unfold construct_rest. rewrite M_bind_unfold. cbn [modify]. rewrite M_bind_unfold. cbn [get].
  match goal with |- context [if ?b then _ else _] => assert (b = false) as -> end.
  { cbn. rewrite Esi, Eli, Elt, <- Et, <- Ea, Hlen. destruct (Z.ltb_spec (p_applied p) (a_snap_index a)), (Z.ltb_spec #(p_log p) (p_applied p)),
      (Z.ltb_spec (p_term p) (a_last_term a)); done || lia. }
  rewrite M_bind_unfold, reset_loop. rewrite M_bind_unfold. cbn [get].
  match goal with |- context [if ?b then throw _ else _] => assert (b = false) as -> end.
  { cbn -[reset_map peer_ids]. rewrite <- Ev, reset_map_lookup, En. destruct Dv as [->|Hv]; [done|].
    rewrite (bool_decide_eq_true_2 (_ ∈ _)) by (by apply Hids). by rewrite bool_decide_eq_true_2, andb_false_r by eauto. }
  cbn [mret M_ret].
  eexists _, (p <| p_role := FOLLOWER |> <| p_votes := ∅ |> <| p_match := ∅ |> <| p_seq := 0 |> <| p_commit := p_applied p |>
    <| p_asks := [] |> <| p_answers := [] |>, sent).
  split; [done|]. split.
  { apply rtc_once. eexists Tau, [], _. rewrite app_nil_r. split; [apply P_restart|done]. }
  split; [|done].
  split; cbn -[reset_map peer_ids]; try assumption; try done; try (by rewrite Es); try lia.
  - intros k v. rewrite En, reset_map_lookup. case_bool_decide as Hk; [|done]. intros [= <-]. split; [by apply Hids|lia].
  - intros k v. rewrite Em, reset_map_lookup. case_bool_decide as Hk; [|done]. intros [= <-]. split; [by apply Hids|lia].
  - intros k v. rewrite Ef, reset_map_lookup. case_bool_decide as Hk; [|done]. intros [= <-]. by apply Hids.
  - rewrite Es. by intros [|].
  - exists (_sm s). split_and!; (done || lia).
  - exists a. split; [done|]. split; [done|]. split; [done|]. split; [done|]. cbn. lia.
  - by rewrite <- Et.
  - by rewrite <- Ev.
  - intros k r [Hin|[Hin|(f & Hf & E)]].
    + rewrite drop_ge in Hin by done. by apply not_elem_of_nil in Hin.
    + rewrite Es in Hin. by apply not_elem_of_nil in Hin.
    + rewrite Ef, reset_map_lookup in Hf. case_bool_decide; [by injection Hf as <-|done].
  - by intros x Hx%not_elem_of_nil.
Qed.

(** The storage part of the constructor. *)
Definition construct_stores : M RaftNode unit :=
  s ← get;
  if _current_term s <? _last_term (_log s) then throw (runtime_error "inconsistent Raft term recovery state")
  else
    pending ← on_log LoadPendingSnapshot;
    match pending with
    | None => mret tt
    | Some (pending_index, pending_term, pending_data) =>
        if _current_term s <? pending_term then throw (runtime_error "pending snapshot term exceeds durable hard state")
        else
          on_stores (sm_InstallSnapshot pending_index pending_data (mret tt));;
          on_log (RaftLog.InstallSnapshot pending_index pending_term pending_data)
    end.

(** The state in which the stores are found. *)
Record found (peers : list PeerInfo) (p : pnode) (a : alog) (s : RaftNode) : Prop := {
  fo_log : Repr (_log s) a /\ log_view (settled a) (p_log p) /\ hard_view a (p_term p) (p_voted p) /\ a_last_term a <= p_term p;
  fo_intent : match a_intent a with
              | Some (i, t, d) => t <= p_term p /\ p_applied p <= i <= p_commit p
              | None => a_snap_index a <= p_applied p
              end;
  fo_sm : synced (_sm s) /\ p_applied p = store_last_applied (_sm s) /\
    same_data (kv (_sm s)) (replay (upto (p_log p) (p_applied p)));
  fo_bound : p_applied p <= #(p_log p);
  fo_term : p_term p = _current_term s /\ p_voted p = _voted_for s;
  fo_rest : under_construction peers s;
}.

(** The storage is going to report a fault. *)
Definition faulty (s : RaftNode) : Prop := ~ (faultless (_db (_log s)) /\ faultless (store_db (_sm s))).

Lemma local_applied p sent n : p_applied p <= n <= p_commit p -> local (p, sent) (p <| p_applied := n |>, sent).
Proof.
  intros Hn. apply rtc_once. eexists Tau, [], _. rewrite app_nil_r. split; [apply (P_apply _ _ _ _ _ _ n); cbn; lia|done].
Qed.

(** The pending snapshot is the one of the log's prefix. *)
Lemma pending_snapshot p a i t d :
  alog_wf a -> log_view (settled a) (p_log p) -> a_intent a = Some (i, t, d) ->
  (a_snap_index a < i <= INT64_MAX /\ 0 < t /\ #d <= kMaxSnapshotBytes) /\ i <= #(p_log p) /\ snapshot_of (upto (p_log p) i) d /\
  settled a = a_install i t d a /\ a_intent (settled a) = None /\ a_snap_index (settled a) = i /\ a_hard (settled a) = a_hard a.
Proof.
  intros W LV Ei. destruct (wf_intent _ W _ Ei) as (Hi & Ht & Hd). cbn in Hi, Ht, Hd. unfold settled in *. rewrite Ei in *.
  pose proof (wf_snap_index _ W). pose proof (a_last_index_ge (a_install i t d a)) as Hge. rewrite (lv_length _ _ LV) in Hge.
  pose proof (lv_data _ _ LV) as HD. unfold a_install in *. destruct (Z.eqb_spec i (a_snap_index a)); [lia|]. cbn in *.
  split; [lia|]. split; [lia|]. split; [apply HD; lia|]. done.
Qed.

Lemma no_trace peers s : under_construction peers s -> _trace s = [].
Proof. intros (db & lg & ex & ->). done. Qed.

(** A crash while the pending snapshot is installed. *)
Lemma pending_crashed peers p sent a s s' sm n :
  log_sound p -> spoken me (seen lead) [] sent -> found peers p a s -> stored (contents (_db (_log s'))) a ->
  store_db sm = store_db (_sm s') -> synced sm -> store_last_applied sm = n ->
  same_data (kv sm) (replay (upto (p_log p) n)) ->
  n = p_applied p \/ (exists t d, a_intent a = Some (n, t, d)) -> _trace s' = [] ->
  exists c', local (p, sent) c' /\ crashed s' c'.
Proof.
  intros (Dt & Dr & De & Dv) Hv [(R & LV & HV & Hlt) FI (Hs & Ea & _) Hbd _ _] Hst Edb Hsm En HD Hn Etr. pose proof (proj1 Hsm).
  assert (local (p, sent) (p <| p_applied := n |>, sent) \/ n = p_applied p) as HL.
  { destruct Hn as [->|(t & d & Ei)]; [by right|left]. rewrite Ei in FI. apply local_applied. lia. }
  exists (p <| p_applied := n |>, sent). split; [destruct HL as [?| ->]; [done|]; destruct p; apply rtc_refl|].
  split; [|by rewrite Etr]. split; try done; cbn.
  - exists a. split; [by apply stored_recoverable|]. split; [done|]. split; [done|]. split; [done|].
    destruct Hn as [->|(t & d & Ei)]; [done|]. rewrite Ei in *. lia.
  - by exists sm.
  - destruct Hn as [->|(t & d & Ei)]; [done|]. by destruct (pending_snapshot p a n t d (st_wf _ _ (proj2 R)) LV Ei) as (_ & ? & _).
Qed.

Lemma found_crashed peers p sent a s s' :
  log_sound p -> spoken me (seen lead) [] sent -> found peers p a s -> _log s' = _log s -> _sm s' = _sm s -> _trace s' = _trace s ->
  exists c', local (p, sent) c' /\ crashed s' c'.
Proof.
  intros So Hv F E1 E2 E3. destruct (fo_sm _ _ _ _ F) as (Hs & Ea & HD).
  apply (pending_crashed peers p sent a s s' (_sm s) (p_applied p)); try done; [rewrite E1; apply F|by rewrite E2|by left|].
  rewrite E3. by eapply no_trace, F.
Qed.

Lemma install_pending peers p sent a s i t d :
  log_sound p -> spoken me (seen lead) [] sent -> found peers p a s -> a_intent a = Some (i, t, d) ->
  match (on_stores (sm_InstallSnapshot i d (mret tt));; on_log (RaftLog.InstallSnapshot i t d)) s with
  | (Ok _, s') => p_applied p <= i <= p_commit p /\ raw peers (p <| p_applied := i |>) s'
  | (Err _, s') => (exists c', local (p, sent) c' /\ crashed s' c') /\ faulty s
  end.
Proof.
  intros So Hv F Ei. pose proof F as [(R & LV & HV & Hlt) FI (Hs & Ea & HD) Hbd Ft Fr].
  destruct (pending_snapshot p a i t d (st_wf _ _ (proj2 R)) LV Ei) as ((Hi & Ht & Hd) & Hil & Hsn & Est & Ein & Esn & Eh).
  rewrite Ei in FI. destruct FI as [Htp Hip]. pose proof (proj1 Hs) as Hr0. pose proof (no_trace _ _ Fr) as Etr.
  assert (i = p_applied p \/ (exists t d, a_intent a = Some (i, t, d))) as Hpi by eauto.
  destruct (snapshot_decodes _ d Hsn ltac:(unfold kMaxSnapshotBytes, UINT32_MAX in *; lia)) as (entries & Ed & Hk & HDi).
  rewrite M_bind_unfold. unfold on_stores, lens, sm_InstallSnapshot. rewrite M_bind_unfold, Ed. cbn [lift_result].
  pose proof (ReplaceAll_spec i entries (mret tt) (_sm s) (_log s)) as HRA.
  destruct (ReplaceAll i entries (mret tt) (_sm s, _log s)) as [[u|e] [sm1 lg1]].
  - destruct HRA as (_ & _ & Ekv & El & [= <-] & Hfk).
    assert (synced sm1) as Hs1.
    { rewrite <- El in Ekv. pose proof (snapshot_stored sm1 (store_last_applied sm1) entries ltac:(lia) Ekv) as Hx. by destruct sm1. }
    assert (same_data (kv sm1) (replay (upto (p_log p) i))) as HD1 by (rewrite Ekv; apply HDi).
    unfold on_log, lens. pose proof (InstallSnapshot_implements (_log s) a i t d R) as I2. unfold implements in I2.
    ospecialize* I2; [lia|pose proof (wf_snap_index _ (st_wf _ _ (proj2 R))); lia|destruct So as (_ & ? & _); lia|lia|done|].
    lazymatch goal with |- context [RaftLog.InstallSnapshot i t d ?l] => change l with (_log s) end.
    destruct (RaftLog.InstallSnapshot i t d (_log s)) as [[[]|e] lg2].
    + destruct I2 as [R2 _]. rewrite <- Est in R2. split; [lia|]. split; cbn; try done.
      * exists (settled a). split; [exact R2|]. split; [done|]. split; [done|]. split; [|lia]. unfold hard_view. by rewrite Eh.
      * destruct Fr as (db & lg & ex & Es). exists db, lg, ex. rewrite Es. cbn. by rewrite Es.
    + destruct I2 as (Hf & _ & [Hst|Hst]); (split; [|by intros [? _]]).
      * by eapply (pending_crashed peers p sent a s _ sm1 i).
      * rewrite <- Est in Hst. exists (p <| p_applied := i |>, sent). split; [apply local_applied; lia|].
        split; [|cbn; by rewrite Etr].
        destruct So as (Dt & Dr & De & Dv). split; try done; [|by exists sm1].
        exists (settled a). split; [by apply stored_recoverable|]. unfold settled at 1. rewrite Ein. split; [done|]. cbn.
        split; [unfold hard_view; by rewrite Eh|]. split; [|lia]. apply (last_term_bound _ (p_log p)); [apply Hst|done|done|lia].
  - destruct HRA as (El & [(-> & -> & Hwhy)|[(_ & e' & [=])|([= <-] & Hf & Hkv)]]).
    + split; [by eapply found_crashed|]. intros [_ ?]. destruct Hwhy as [?|[?|?]]; [lia|done..].
    + split; [|by intros [_ ?]].
      assert (exists n, (n = p_applied p \/ (exists t d, a_intent a = Some (n, t, d))) /\ stored_applied sm1 n /\
        same_data (kv sm1) (replay (upto (p_log p) n))) as (n & Hn & Hsm & HD1).
      { destruct Hkv as [Hkv|Hkv]; [exists (p_applied p)|exists i]; rewrite Hkv.
        - split; [by left|]. split; [|done]. destruct Hs as [Hs1 Hs2]. rewrite Ea. split; [done|]. unfold kv in *. cbn. by rewrite Hkv.
        - split; [done|]. split; [apply (snapshot_stored _ _ entries); [lia|done]|apply HDi]. }
      eapply (pending_crashed peers p sent a s _ (mkRocksDBStore (store_db sm1) n) n); try done. apply R.
Qed.

Lemma construct_stores_raw peers p sent a s :
  log_sound p -> spoken me (seen lead) [] sent -> found peers p a s ->
  match construct_stores s with
  | (Ok _, s') => exists p', local (p, sent) (p', sent) /\ log_sound p' /\ spoken me (seen lead) [] sent /\ raw peers p' s'
  | (Err _, s') => (exists c', local (p, sent) c' /\ crashed s' c') /\ faulty s
  end.
Proof.
  intros So Hv F. unfold construct_stores. rewrite M_bind_unfold. cbn [get].
  pose proof F as [(R & LV & HV & Hlt) FI Fsm Fb [Et Ev] Fr]. rewrite (c_last_term _ _ (proj1 R)), <- Et.
  destruct (Z.ltb_spec (p_term p) (a_last_term a)); [lia|].
  rewrite M_bind_unfold. unfold on_log at 1, lens.
  destruct (LoadPendingSnapshot_spec _ _ R) as [E|(e & E & Hf)]; rewrite E.
  2: { split; [by eapply found_crashed|]. by intros [? _]. }
  replace (s <| _log := _log s |>) with s by (by destruct s).
  destruct (a_intent a) as [[[i t] d]|] eqn:Ei.
  - destruct FI as [Ht FI]. destruct (Z.ltb_spec (p_term p) t); [lia|].
    pose proof (install_pending peers p sent a s i t d So Hv F Ei) as HI.
    destruct ((on_stores _;; _) s) as [[u|e] s']; [|done]. destruct HI as [Hi Rw].
    exists (p <| p_applied := i |>). split; [by apply local_applied|]. split; [done|]. split; [exact Hv|done].
  - exists p. split; [apply rtc_refl|]. split; [done|]. split; [done|]. unfold settled in LV. rewrite Ei in LV.
    split; try done. by exists a.
Qed.

Lemma Construct_run kv_status log_status s :
  Construct kv_status log_status s =
    (on_sm (store_Open kv_status);;
     s ← get;
     _ ← lift_result (ValidatePeers (_node_id s) (_all_peers s));
     on_log (Open log_status);;
     hard ← on_log LoadHardState;
     modify (fun s => s <| _current_term := hard.1.2 |> <| _voted_for := hard.2 |>);;
     construct_stores;; construct_rest) s.
Proof.
  unfold Construct. rewrite !M_bind_unfold. destruct (on_sm _ s) as [[u|e] s1]; [|done].
  rewrite !M_bind_unfold. cbn [get]. rewrite !M_bind_unfold. destruct (lift_result _ s1) as [[v|e] s2]; [|done].
  rewrite !M_bind_unfold. destruct (on_log (Open log_status) s2) as [[w|e] s3]; [|done].
  rewrite !M_bind_unfold. destruct (on_log LoadHardState s3) as [[h|e] s4]; [|done].
  rewrite !M_bind_unfold. cbn [modify]. rewrite !M_bind_unfold. unfold construct_stores. rewrite !M_bind_unfold. cbn [get].
  destruct (_ <? _); [done|]. rewrite !M_bind_unfold. by destruct (on_log LoadPendingSnapshot _) as [[pd|e] s5].
Qed.

(** The hard state a recoverable log yields. *)
Lemma hard_found a p lg :
  Repr lg a -> log_sound p -> log_view (settled a) (p_log p) -> hard_view a (p_term p) (p_voted p) ->
  (forall i t d, a_intent a = Some (i, t, d) -> t <= p_term p) ->
  (exists b, LoadHardState lg = (Ok (b, p_term p, p_voted p), lg)) \/
  (exists e, LoadHardState lg = (Err e, lg)) /\ ~ faultless (_db lg).
Proof.
  intros R (Dt & _) LV HV FI. pose proof (LoadHardState_spec lg a R) as HL. destruct HV as [E|(E & Et & Ev)]; rewrite E in HL.
  - destruct HL as [->|(e & -> & ?)]; eauto.
  - assert (a_intent a = None) as Ei.
    { destruct (a_intent a) as [[[i t] d]|] eqn:Ei; [|done]. pose proof (wf_intent _ (st_wf _ _ (proj2 R)) _ Ei) as (_ & Ht & _).
      specialize (FI i t d eq_refl). cbn in Ht. lia. }
    unfold settled in LV. rewrite Ei in LV.
    assert (a_last_index a = 0) as El.
    { rewrite (lv_length _ _ LV). destruct (decide (#(p_log p) = 0)); [done|]. specialize (Dt 1). lia. }
    rewrite Et, Ev. destruct (HL El) as [->|(e & -> & ?)]; eauto.
Qed.

(** What can keep a process from starting. *)
Definition cannot_open peers (log_db kv_db : DB) kv_status log_status : Prop :=
  ~ (kv_status = OK /\ log_status = OK /\ is_ok (ValidatePeers me peers) = true /\ faultless log_db /\ faultless kv_db).

(** Recovery from whatever a crash left performs actions of the protocol, and
    only the storage or the configuration can make it fail. *)
Lemma Construct_recovers peers log_db kv_db executor kv_status log_status p sent :
  peer_ids peers ≡ₚ elements members -> durably members log_db kv_db p -> spoken me (seen lead) [] sent ->
  match Construct kv_status log_status (initial_node me peers log_db kv_db executor) with
  | (Ok _, s') => exists c', local (p, sent) c' /\ view s' c' /\ p_role c'.1 = FOLLOWER
  | (Err _, s') => (exists c', local (p, sent) c' /\ crashed s' c') /\ cannot_open peers log_db kv_db kv_status log_status
  end.
Proof.
  intros Hp D Hv. rewrite Construct_run. pose proof D as [(a & Rec & LV & HV & Hlt & FI) (sm & Esm & Hs & Ea & HD) Dt Dr De Dv Db].
  assert (log_sound p) as So by done.
  assert (forall s' : RaftNode, recoverable (contents (_db (_log s'))) a -> store_db (_sm s') = kv_db -> _trace s' = [] ->
    exists c', local (p, sent) c' /\ crashed s' c') as Cr.
  { intros s' E1 E2 E3. exists (p, sent). split; [apply rtc_refl|]. split; [|by rewrite E3].
    rewrite E2. split; try done; [by exists a|by exists sm]. }
  rewrite M_bind_unfold. unfold on_sm, lens.
  lazymatch goal with |- context [store_Open kv_status ?x] => change x with (blank_store kv_db) end.
  assert (store_Open kv_status (blank_store kv_db) = (Ok tt, sm) \/
    (exists e, store_Open kv_status (blank_store kv_db) = (Err e, blank_store kv_db)) /\ ~ (kv_status = OK /\ faultless kv_db))
    as [->|[(e & ->) Hf]]; [|rewrite M_bind_unfold; cbn [get]|split; [by apply Cr|]; intros (? & _ & _ & _ & ?); by apply Hf].
  { destruct (decide (kv_status = OK)) as [->|Hk].
    - destruct (store_Open_synced sm Hs) as [E|[(e & E) ?]]; rewrite Esm in *; [by left|right]. split; [by exists e|by intros [_ ?]].
    - right. split; [|by intros [? _]]. unfold store_Open. rewrite M_bind_unfold. destruct kv_status; [done|..]; cbn; eauto. }
  rewrite M_bind_unfold. cbn [_node_id _all_peers].
  lazymatch goal with |- context [ValidatePeers ?x ?y] => change x with me; change y with peers end.
  destruct (ValidatePeers me peers) as [v|e] eqn:Evp; cbn [lift_result]; [|split; [by apply Cr|]; by intros (_ & _ & E & _); rewrite Evp in E].
  rewrite M_bind_unfold. unfold on_log at 1, lens.
  lazymatch goal with |- context [Open log_status ?x] => change x with (blank log_db) end.
  assert (match Open log_status (blank log_db) with
          | (Ok _, lg) => Repr lg a /\ (faultless log_db -> faultless (_db lg))
          | (Err _, lg) => recoverable (contents (_db lg)) a /\ ~ (log_status = OK /\ faultless log_db) end) as HO.
  { destruct (decide (log_status = OK)) as [->|Hk].
    - pose proof (Open_spec log_db a Rec) as HO. destruct (Open OK _) as [[u|e] lg]; [done|]. destruct HO as [? ?]. split; [done|by intros [_ ?]].
    - unfold Open. rewrite M_bind_unfold. destruct log_status; [done|..]; cbn; (split; [done|by intros [? _]]). }
  destruct (Open log_status (blank log_db)) as [[u|e] lg]; [|destruct HO as [? Hf]; split; [by apply Cr|]; intros (_ & ? & _ & ? & _); by apply Hf].
  destruct HO as [HO Hfl]. rewrite M_bind_unfold. unfold on_log at 1, lens.
  lazymatch goal with |- context [LoadHardState ?x] => change x with lg end.
  assert (forall i t d, a_intent a = Some (i, t, d) -> t <= p_term p) as FI' by (intros i t d E; rewrite E in FI; by destruct FI).
  destruct (hard_found a p lg HO So LV HV FI') as [(b & ->)|[(e & ->) Hf]].
  2: { split; [apply Cr; [apply stored_recoverable, HO|done..]|]. intros (_ & _ & _ & ? & _). by apply Hf, Hfl. }
  rewrite M_bind_unfold. cbn [modify fst snd].
  match goal with |- context [(construct_stores;; construct_rest) ?x] => set (s := x) end.
  assert (found peers p a s) as F.
  { split; try done. by exists log_db, kv_db, executor. }
  pose proof (construct_stores_raw peers p sent a s So Hv F) as HS. rewrite M_bind_unfold.
  destruct (construct_stores s) as [[u'|e] s1].
  - destruct HS as (p' & L & So' & Hv' & Rw). destruct (construct_rest_view peers p' sent s1 Hp So' Hv' Rw) as (s2 & c' & -> & L' & HR).
    exists c'. split; [by etrans|done].
  - destruct HS as [? Hf]. split; [done|]. intros (_ & _ & _ & H1' & H2'). apply Hf. split; [by apply Hfl|]. cbn. by rewrite Esm.
Qed.
End Recovery.
