(* ===== verification/Cluster.v ===== *)
(** A cluster of nodes running the code of [RaftNode].

    Every member is a process that runs a [RaftNode] object or is down; a process
    that throws stops (src/src/server/main.cpp, [main]), and what it leaves are its
    two databases.  The members call their object's handlers in any order, with
    any clock, random timeouts and connection failures; the network loses,
    duplicates, delays and reorders messages. *)
From stdpp Require Import base numbers strings gmap functions list.
From S2P Require Import Prelude Effects Storage Messages RaftLog LogSpec LogProofs LogRecovery LogTheorems.
From S2P Require Import KVStore KVStateMachine KVTheorems KVReplay Metrics Peers RaftState RaftNode RaftProtocol ProtocolSafety.
From S2P Require Import NodeView NodeCalm NodeReads NodeApply NodeCommit NodeElection NodeVotes NodeFollower NodeLeader NodeInstall NodeLife.
From S2P Require Import ProtocolInvariant ProtocolSteps ProtocolTheorems.

Section Cluster.
Context `{RocksDB} `{LogEntryCodec} {asks : Requests}.

(** [OnRaftMessage], for a payload that parsed. *)
Definition OnRaftMessage `{!Env} (from : Z) (m : Message) : M RaftNode unit :=
  match m with
  | MRequestVote request => HandleRequestVote from request
  | MRequestVoteResponse response => HandleRequestVoteResponse from response
  | MAppendEntries request => HandleAppendEntries from request
  | MAppendEntriesResponse response => HandleAppendEntriesResponse from response
  | MInstallSnapshot request => HandleInstallSnapshot from request
  | MInstallSnapshotResponse response => HandleInstallSnapshotResponse from response
  end.

(** What the event loop calls on the object. *)
Inductive call :=
  | Deliver (from : Z) (m : Message)
  | DoTick
  | DoPropose (proposals : list Proposal)
  | DoRead (callback : nat)
  | DoApplyWork
  | DoCompleteApply (work_us dispatch_us : Z)
  | DoStart
  | DoStop
  | DoSetSnapshotThreshold (entries : Z)
  | DoSetSnapshotChunkBytes (bytes : Z)
  | DoSetLeaseReads (enabled : bool).

Definition run_call `{!Env} (c : call) : M RaftNode unit :=
  match c with
  | Deliver from m => OnRaftMessage from m
  | DoTick => Tick
  | DoPropose proposals => _ ← ProposeBatch proposals; mret tt
  | DoRead callback => _ ← RequestReadIndex callback; mret tt
  | DoApplyWork => RunApplyWork
  | DoCompleteApply work_us dispatch_us => CompleteApply work_us dispatch_us
  | DoStart => Start
  | DoStop => Stop
  | DoSetSnapshotThreshold entries => SetSnapshotThreshold entries
  | DoSetSnapshotChunkBytes bytes => SetSnapshotChunkBytes bytes
  | DoSetLeaseReads enabled => SetLeaseReads enabled
  end.

(** The ranges of the schema's integer fields. *)
Definition message_fits (m : Message) : bool :=
  match m with
  | MRequestVote r => rv_term r <=? INT32_MAX
  | MRequestVoteResponse r => rvr_term r <=? INT32_MAX
  | MAppendEntries r => ae_term r <=? INT32_MAX
  | MAppendEntriesResponse r => aer_term r <=? INT32_MAX
  | MInstallSnapshot r => (is_term r <=? INT32_MAX) && (is_last_included_index r <=? INT64_MAX)
  | MInstallSnapshotResponse r => isr_term r <=? INT32_MAX
  end.

Inductive process :=
  | Running (s : RaftNode)
  | Down (log_db kv_db : DB).

(** The members, all that was ever sent, and two things the calls do not see: which
    message was being handled when another was sent, and how much had been sent when
    a member's process was started. *)
Record cluster := mkCluster {
  cl_node : gmap Z process;
  cl_net : list (Z * Effect); (* everything ever sent, with its sender *)
  cl_cause : nat -> option nat; (* for the place of an effect in [cl_net], the place of its cause *)
  cl_born : Z -> nat; (* the length of [cl_net] when the process was started *)
}.

(** A process after a call: an exception stops it. *)
Definition outcome (r : result unit * RaftNode) : process :=
  match r with
  | (Ok _, s) => Running s
  | (Err _, s) => Down (_db (_log s)) (store_db (_sm s))
  end.

(** The cluster after member [q] ran a call, from an empty trace; [pos] is the place
    of the message the call delivered, if it delivered one. *)
Definition after (q : Z) (pos : option nat) (r : result unit * RaftNode) (cl : cluster) : cluster :=
  mkCluster (<[q := outcome r]> (cl_node cl)) (cl_net cl ++ ((q,.) <$> _trace r.2))
    (fun n => if decide (n < length (cl_net cl))%nat then cl_cause cl n else pos) (cl_born cl).

(** Member [q] leaves its databases. *)
Definition stopped (q : Z) (s : RaftNode) (cl : cluster) : cluster :=
  mkCluster (<[q := Down (_db (_log s)) (store_db (_sm s))]> (cl_node cl)) (cl_net cl) (cl_cause cl) (cl_born cl).

(** A new process of member [q] starts. *)
Definition reborn (q : Z) (cl : cluster) : cluster :=
  mkCluster (cl_node cl) (cl_net cl) (cl_cause cl) (<[q := length (cl_net cl)]> (cl_born cl)).

(** The message at place [n] was sent to answer one of the process [q] runs now. *)
Definition in_session (cl : cluster) (q : Z) (n : nat) : Prop :=
  exists i, cl_cause cl n = Some i /\ (cl_born cl q <= i)%nat.

Definition sent_at (cl : cluster) (n : nat) (from q : Z) (m : Message) : Prop :=
  cl_net cl !! n = Some (from, Sent q m) \/ cl_net cl !! n = Some (from, Broadcasted m).

(** A message is delivered only if it was sent; a callback is proposed with its
    command, which is one the server builds; a [size_t] is not negative.  A read is
    asked for after the writes it comes after were acknowledged.  Unless there are
    [leases], no node serves reads from one.  Unless messages may be [crossing], the
    answer to a request for log replication only reaches the process that sent the
    request: a node answers on the connection the request came in on
    (src/src/raft/peer_manager.cc, [RegisterPeerConnection] and [Send]), and connections
    end with the process. *)
Definition may_call (cl : cluster) (q : Z) (c : call) (pos : option nat) : Prop :=
  match c with
  | Deliver from m =>
      exists n, pos = Some n /\ message_fits m = true /\ sent_at cl n from q m /\
        match m with MAppendEntriesResponse _ => crossing = true \/ in_session cl q n | _ => True end
  | DoPropose proposals => pos = None /\ asked proposals
  | DoRead callback => pos = None /\ all_told (told_before callback) (cl_net cl)
  | DoSetSnapshotChunkBytes bytes => pos = None /\ 0 <= bytes
  | DoSetLeaseReads enabled => pos = None /\ (enabled = true -> leases = true)
  | _ => pos = None
  end.

End Cluster.

Section Steps.
Context `{RocksDBSpec} `{LogEntryCodec} {asks : Requests}.
Context (members : gset Z).

Inductive cstep (cl : cluster) : cluster -> Prop :=
  | C_call (env : Env) q s c pos :
      q ∈ members -> cl_node cl !! q = Some (Running s) -> may_call cl q c pos ->
      cstep cl (after q pos (run_call c (s <| _trace := [] |>)) cl)
  | C_crash q s :
      q ∈ members -> cl_node cl !! q = Some (Running s) ->
      cstep cl (stopped q s cl)
  | C_restart q log_db kv_db log_db' kv_db' peers executor kv_status log_status :
      q ∈ members -> cl_node cl !! q = Some (Down log_db kv_db) ->
      contents log_db' = contents log_db -> contents kv_db' = contents kv_db -> peer_ids peers ≡ₚ elements members ->
      cstep cl (after q None (Construct kv_status log_status (initial_node q peers log_db' kv_db' executor)) (reborn q cl)).

(** Every member starts from empty databases. *)
Definition initial (cl : cluster) : Prop :=
  cl_net cl = [] /\
  forall q, q ∈ members -> exists log_db kv_db,
    cl_node cl !! q = Some (Down log_db kv_db) /\ contents log_db = ∅ /\ contents kv_db = ∅.

Definition reachable (cl : cluster) : Prop := exists cl0, initial cl0 /\ rtc cstep cl0 cl.

End Steps.
