(* ===== verification/ClusterRun.v ===== *)
(** Executing a cluster: a schedule of steps as a program, for concrete runs. *)
From stdpp Require Import base numbers strings gmap functions list.
From S2P Require Import Prelude Effects Storage Messages RaftLog Text Resp KVStore KVStateMachine KVTheorems KVReplay Metrics Peers RaftState RaftNode RaftProtocol NodeCommit Cluster.

Section Run.
Context `{RocksDBSpec} `{LogEntryCodec} {asks : Requests}.
Context (members : gset Z) (peers : list PeerInfo).

Inductive action :=
  | Call (env : Env) (q : Z) (c : call)
  | Take (env : Env) (q : Z) (n : nat) (* deliver the [n]-th effect of the network to [q] *)
  | Crash (q : Z)
  | Restart (q : Z).

(** Is a message one that may be delivered now? *)
Definition arrives (cl : cluster) (q : Z) (n : nat) (m : Message) : bool :=
  message_fits m &&
  match m with
  | MAppendEntriesResponse _ => crossing || match cl_cause cl n with Some i => (cl_born cl q <=? i)%nat | None => false end
  | _ => true
  end.

Definition addressed (cl : cluster) (q : Z) (n : nat) : option call :=
  match cl_net cl !! n with
  | Some (from, Sent dst m) => if bool_decide (dst = q) && arrives cl q n m then Some (Deliver from m) else None
  | Some (from, Broadcasted m) => if arrives cl q n m then Some (Deliver from m) else None
  | _ => None
  end.

(** Has the write with this callback been acknowledged? *)
Definition told_in (net : list (Z * Effect)) (cb : nat) : bool :=
  existsb (fun x => match x with (_, ProposeReply cb' true _) => bool_decide (cb' = cb) | _ => false end) net.

(** The calls the environment may make on its own. *)
Definition free_call (net : list (Z * Effect)) (c : call) : bool :=
  match c with
  | Deliver _ _ => false
  | DoPropose proposals =>
      forallb (fun p => valid_command (pr_command p) &&
        match pr_callback p with Some cb => bool_decide (pr_command p = command_of cb) | None => true end) proposals
  | DoRead callback => forallb (told_in net) (told_before callback)
  | DoSetSnapshotChunkBytes bytes => 0 <=? bytes
  | DoSetLeaseReads enabled => negb enabled || leases
  | _ => true
  end.

Lemma told_in_spec net cb : told_in net cb = true -> exists q reply, (q, ProposeReply cb true reply) ∈ net.
Proof.
  intros (x & Hx & E)%existsb_exists. apply list_elem_of_In in Hx. destruct x as [q e]. destruct e; try done. destruct ok; [|done].
  apply bool_decide_eq_true_1 in E as ->. by eexists q, _.
Qed.

Lemma free_may cl q c : free_call (cl_net cl) c = true -> may_call cl q c None.
Proof.
  destruct c as [| |ps|cb| | | | | |n|b]; try done; cbn; [|..|by intros Hn%Z.leb_le|by intros [Hb|?]%orb_prop; [destruct b|]].
  2:{ intros Hf. split; [done|]. intros cb' Hin. apply told_in_spec. rewrite forallb_forall in Hf. by apply Hf, list_elem_of_In. }
  intros Hf. split; [done|]. intros p Hp. apply Is_true_true_2, forallb_True in Hf.
  rewrite Forall_forall in Hf. destruct (proj1 (andb_True _ _) (Hf p Hp)) as [Hv Hc]. split; [by apply Is_true_true|].
  intros cb Ecb. rewrite Ecb in Hc. by apply bool_decide_unpack in Hc.
Qed.

Definition call_on (env : Env) (q : Z) (c : call) (pos : option nat) (cl : cluster) : option cluster :=
  match cl_node cl !! q with
  | Some (Running s) => Some (after q pos (run_call c (s <| _trace := [] |>)) cl)
  | _ => None
  end.

Definition perform (a : action) (cl : cluster) : option cluster :=
  match a with
  | Call env q c => if bool_decide (q ∈ members) && free_call (cl_net cl) c then call_on env q c None cl else None
  | Take env q n =>
      if bool_decide (q ∈ members) then
        match addressed cl q n with Some c => call_on env q c (Some n) cl | None => None end
      else None
  | Crash q =>
      match cl_node cl !! q with
      | Some (Running s) =>
          if bool_decide (q ∈ members)
          then Some (stopped q s cl) else None
      | _ => None
      end
  | Restart q =>
      match cl_node cl !! q with
      | Some (Down log_db kv_db) =>
          if bool_decide (q ∈ members)
          then Some (after q None (Construct OK OK (initial_node q peers log_db kv_db false)) (reborn q cl)) else None
      | _ => None
      end
  end.

Fixpoint perform_all (acts : list action) (cl : cluster) : option cluster :=
  match acts with
  | [] => Some cl
  | a :: acts => perform a cl ≫= perform_all acts
  end.

Lemma arrives_may cl q n from m : sent_at cl n from q m -> arrives cl q n m = true -> may_call cl q (Deliver from m) (Some n).
Proof.
  intros Hn [Hf Ha]%andb_prop. exists n. split; [done|]. split; [done|]. split; [done|]. destruct m as [| | |r| |]; try done.
  apply orb_prop in Ha as [?|Ha]; [by left|right]. destruct (cl_cause cl n) as [i|] eqn:Ei; [|done]. exists i. split; [done|by apply Nat.leb_le].
Qed.

Lemma addressed_may cl q n c : addressed cl q n = Some c -> may_call cl q c (Some n).
Proof.
  unfold addressed. destruct (cl_net cl !! n) as [[from e]|] eqn:En; [|done]. destruct e; try done.
  - case_bool_decide; cbn; [|done]. destruct (arrives _ _ _ _) eqn:Ef; [|done]. intros [= <-]. subst. by apply arrives_may; [left|].
  - destruct (arrives _ _ _ _) eqn:Ef; [|done]. intros [= <-]. by apply arrives_may; [right|].
Qed.

Lemma perform_sound a cl cl' :
  peer_ids peers ≡ₚ elements members -> perform a cl = Some cl' -> cstep members cl cl'.
Proof.
  intros Hp. unfold perform, call_on. destruct a as [env q c|env q n|q|q].
  - case_bool_decide; cbn; [|done]. destruct (free_call _ c) eqn:Ed; cbn; [|done].
    destruct (cl_node cl !! q) as [[s|]|] eqn:E; [|done..]. intros [= <-]. apply C_call; [done..|]. by apply free_may.
  - case_bool_decide; [|done]. destruct (addressed cl q n) as [c|] eqn:Ea; [|done].
    destruct (cl_node cl !! q) as [[s|]|] eqn:E; [|done..]. intros [= <-]. apply C_call; [done..|]. by apply addressed_may.
  - destruct (cl_node cl !! q) as [[s|]|] eqn:E; [|done..]. case_bool_decide; [|done]. intros [= <-]. by apply C_crash.
  - destruct (cl_node cl !! q) as [[s|ldb kdb]|] eqn:E; [done| |done]. case_bool_decide; [|done]. intros [= <-].
    by eapply (C_restart _ _ q ldb kdb).
Qed.

Lemma perform_all_sound acts cl cl' :
  peer_ids peers ≡ₚ elements members -> perform_all acts cl = Some cl' -> rtc (cstep members) cl cl'.
Proof.
  intros Hp. revert cl. induction acts as [|a acts IH]; intros cl; cbn; [by intros [= ->]; apply rtc_refl|].
  destruct (perform a cl) as [cl1|] eqn:E; cbn; [|done]. intros E'. eapply rtc_l; [by apply (perform_sound a)|by apply IH].
Qed.
End Run.

(** * A cluster of three *)

Module Three.
Export MemDB PlainCodec.

Definition members : gset Z := {[0; 1; 2]}.
Definition peers : list PeerInfo :=
  [MkPeerInfo 0 (lit "a") 9080; MkPeerInfo 1 (lit "b") 9081; MkPeerInfo 2 (lit "c") 9082].

(** The clock stands at [t] milliseconds; connections work. *)
Definition at_ms (t : Z) : Env :=
  {| env_clock := fun _ => ms t; env_timeout := fun _ => 150; env_send := fun _ => true; env_submit := fun _ => true |}.

Definition set_a : bytes := SerializeCommand [lit "SET"; lit "a"; lit "1"].

(** Every client writes this; the read with callback 8 comes after the write with
    callback 7 was acknowledged. *)
#[export] Instance asks : Requests :=
  {| command_of := fun _ => set_a; told_before := fun cb => if bool_decide (cb = 8%nat) then [7%nat] else []; leases := false; crossing := false |}.

Definition start : cluster :=
  let db := fresh ∅ in mkCluster (<[0 := Down db db]> (<[1 := Down db db]> {[2 := Down db db]})) [] (fun _ => None) (fun _ => 0%nat).

Definition boot : list action :=
  [Restart 0; Restart 1; Restart 2; Call (at_ms 0) 0 DoStart; Call (at_ms 0) 1 DoStart; Call (at_ms 0) 2 DoStart].

(** Member 0 times out first and wins the pre-vote and the vote of member 1. *)
Definition elected : list action :=
  let e := at_ms 200 in [Call e 0 DoTick; Take e 1 1; Take e 0 2; Take e 1 5; Take e 0 9].

(** It replicates a write of a client to member 1 and answers the client. *)
Definition replicated : list action :=
  let e := at_ms 200 in
  [Take e 1 11; Take e 0 13; Call e 0 (DoPropose [MkProposal set_a (Some 7%nat)]);
   Take e 1 14; Take e 0 15; Take e 1 16; Take e 0 17].

(** A client asks member 0 for a read, after the write: the next probe confirms it. *)
Definition read2 : list action :=
  let e := at_ms 210 in [Call e 0 (DoRead 8); Take e 1 19; Take e 0 20; Take e 1 21; Take e 0 22].

(** Member 1 times out and member 2 elects it, while member 0 still leads the
    old term. *)
Definition deposed : list action :=
  let e := at_ms 1000 in [Call e 1 DoTick; Take e 2 21; Take e 1 22; Take e 2 25; Take e 1 29].

(** Member 0 crashes; members 1 and 2 go on; member 0 comes back. *)
Definition recovered : list action :=
  let e := at_ms 1000 in
  [Crash 0; Take e 2 32; Take e 1 33; Take e 2 34; Take e 1 35; Take e 2 36; Restart 0].

Definition run (acts : list action) (cl : cluster) : cluster := default cl (perform_all members peers acts cl).
Definition completes (acts : list action) (cl : cluster) : bool :=
  match perform_all members peers acts cl with Some _ => true | None => false end.
Definition node (cl : cluster) (q : Z) : RaftNode :=
  match cl_node cl !! q with Some (Running s) => s | _ => initial_node q peers (fresh ∅) (fresh ∅) false end.
Definition up (cl : cluster) (q : Z) : bool := match cl_node cl !! q with Some (Running _) => true | _ => false end.

Definition cluster1 : cluster := run (boot ++ elected) start.
Definition cluster2 : cluster := run replicated cluster1.
Definition cluster3 : cluster := run deposed cluster2.
Definition cluster4 : cluster := run recovered cluster3.

Lemma ids_in_range k : k ∈ members -> 0 <= k <= INT32_MAX.
Proof. unfold members, INT32_MAX. set_solver by lia. Qed.

Lemma run_steps acts cl : completes acts cl = true -> rtc (cstep members) cl (run acts cl).
Proof.
  unfold completes, run. destruct (perform_all members peers acts cl) as [cl'|] eqn:E; [|done]. intros _.
  eapply perform_all_sound; [|exact E]. apply (bool_decide_unpack _). by vm_compute.
Qed.

Lemma start_initial : initial members start.
Proof.
  split; [done|]. intros q Hq. exists (fresh ∅), (fresh ∅). split; [|done].
  assert (q = 0 \/ q = 1 \/ q = 2) as Hc by (unfold members in Hq; set_solver).
  by destruct Hc as [E|[E|E]]; subst q.
Qed.

Lemma cluster1_reachable : reachable members cluster1.
Proof. exists start. split; [apply start_initial|]. apply run_steps. by vm_compute. Qed.
Lemma cluster12 : rtc (cstep members) cluster1 cluster2.
Proof. apply run_steps. by vm_compute. Qed.
Lemma cluster23 : rtc (cstep members) cluster2 cluster3.
Proof. apply run_steps. by vm_compute. Qed.
Lemma cluster34 : rtc (cstep members) cluster3 cluster4.
Proof. apply run_steps. by vm_compute. Qed.

Lemma steps_reachable cl cl' : reachable members cl -> rtc (cstep members) cl cl' -> reachable members cl'.
Proof. intros (cl0 & Hi & St) St'. exists cl0. split; [done|by etrans]. Qed.

Lemma cluster2_reachable : reachable members cluster2.
Proof. apply (steps_reachable cluster1); [apply cluster1_reachable|apply cluster12]. Qed.
Lemma cluster3_reachable : reachable members cluster3.
Proof. apply (steps_reachable cluster2); [apply cluster2_reachable|apply cluster23]. Qed.
Lemma cluster4_reachable : reachable members cluster4.
Proof. apply (steps_reachable cluster3); [apply cluster3_reachable|apply cluster34]. Qed.

Lemma node_up cl q : up cl q = true -> cl_node cl !! q = Some (Running (node cl q)).
Proof. unfold up, node. by destruct (cl_node cl !! q) as [[]|]. Qed.
End Three.
