(* ===== verification/ClusterSafety.v ===== *)
(** The code of [RaftNode] implements the protocol: every step of a cluster of
    processes is a sequence of protocol actions. *)
From stdpp Require Import base numbers strings gmap functions list.
From S2P Require Import Prelude Effects Storage Messages RaftLog LogSpec LogProofs LogRecovery LogTheorems.
From S2P Require Import KVStore KVStateMachine KVTheorems KVReplay Metrics Peers RaftState RaftNode RaftProtocol ProtocolSafety.
From S2P Require Import ProtocolInvariant ProtocolSteps ProtocolTheorems ProtocolReads.
From S2P Require Import NodeView NodeCalm NodeReads NodeApply NodeCommit NodeElection NodeVotes NodeFollower NodeLeader NodeInstall NodeLife.
From S2P Require Import Cluster.

(** * Runs of one node in the world *)

Section Lift.
Context {asks : Requests} (members : gset Z) (ids_ok : forall k, k ∈ members -> 0 <= k <= INT32_MAX).

Lemma no_member : -1 ∉ members.
Proof. intros Hm. apply ids_ok in Hm. lia. Qed.

Lemma sent_by_app q net out : sent_by q (net ++ ((q,.) <$> out)) = sent_by q net ++ out.
Proof.
  unfold sent_by. rewrite filter_app, fmap_app. f_equal. induction out as [|e out IH]; [done|].
  rewrite fmap_cons, filter_cons_True by done. cbn. by f_equal.
Qed.

Lemma sent_by_other q v net out : v <> q -> sent_by v (net ++ ((q,.) <$> out)) = sent_by v net.
Proof.
  intros Hv. unfold sent_by. rewrite filter_app, fmap_app. rewrite <- (app_nil_r (snd <$> _)) at 2. f_equal.
  induction out as [|e out IH]; [done|]. by rewrite fmap_cons, filter_cons_False by (cbn; congruence).
Qed.

(** What the rest of the world sees of a run of [q]. *)
Definition elsewhere (q : Z) (w w' : world) : Prop :=
  (forall v, v <> q -> w_node w' v = w_node w v /\ sent_by v (w_net w') = sent_by v (w_net w)) /\
  (forall x, x ∈ w_net w -> x ∈ w_net w').

(** [lead] is right about every term [q] does not lead. *)
Definition leads (q : Z) (lead : outside) (h : history) : Prop :=
  forall t, lead t = lead_log h t \/ h_leader h !! t = Some q.

Lemma leads_recorded q lead w ev out p' box :
  safe members w -> q ∈ members -> pstep members q box lead (sent_by q (w_net w)) (w_node w q) ev out p' ->
  leads q lead (w_history w) -> leads q lead (recorded q (w_node w q) ev (w_history w)).
Proof.
  intros Sw Hq Sp HL t. destruct ev; cbn; try apply HL.
  - destruct (h_votes _ !! _); apply HL.
  - destruct (decide (t = p_term (w_node w q))) as [->|Hne]; [right; by rewrite lookup_insert_eq|].
    unfold lead_log. cbn. rewrite !lookup_insert_ne by done. apply HL.
  - destruct (decide (t = p_term (w_node w q))) as [->|Hne].
    + right. inversion Sp; subst. by destruct (n_leader _ _ _ _ (s_node _ _ Sw q Hq)).
    + unfold lead_log. cbn. rewrite lookup_insert_ne by done. apply HL.
Qed.

(** What [q] knows of the rest of the world while it runs. *)
Record aware (q : Z) (lead : outside) (w : world) : Prop := {
  aw_leads : leads q lead (w_history w);
  aw_sees : sees q (seen lead) (w_net w);
}.

(** The log a snapshot comes from is the one the world knows. *)
Lemma pstep_leads q box lead w ev out p' :
  safe members w -> q ∈ members -> deliverable (w_net w) q box -> leads q lead (w_history w) ->
  pstep members q box lead (sent_by q (w_net w)) (w_node w q) ev out p' ->
  pstep members q box (mkOutside (lead_log (w_history w)) (look lead)) (sent_by q (w_net w)) (w_node w q) ev out p'.
Proof.
  intros Sw Hq D HL Sp. destruct lead as [ll net]. unfold seen in *. cbn [lead_of look] in *. destruct Sp; unfold seen in *; cbn [lead_of look] in *; try (by econstructor).
  - subst box. destruct (box_snapshot members w Sw q c r D) as [El _].
    destruct (HL (p_term (w_node w q))) as [El'|E]; [|congruence]. cbn in El'. rewrite El'. 
    refine (P_receive members q _ (mkOutside (lead_log (w_history w)) net) _ _ c r _ _ _); done.
  - subst box. destruct (box_snapshot members w Sw q c r D) as [El _].
    destruct (HL (p_term (w_node w q))) as [El'|E]; [|congruence]. cbn in El'. rewrite El'. 
    refine (P_install members q _ (mkOutside (lead_log (w_history w)) net) _ _ c r _ _ _); done.
Qed.

Lemma sees_more q net w out : sees q net (w_net w) -> sees q net (w_net w ++ ((q,.) <$> out)).
Proof.
  intros [A B]. split; [intros x Hx; apply elem_of_app; left; by apply A|].
  intros v Hv. unfold answers_of. rewrite sent_by_other by done. by apply B.
Qed.

Lemma lift_step q box lead w c' :
  safe members w -> q ∈ members -> deliverable (w_net w) q box -> aware q lead w ->
  lstep members q box lead (w_node w q, sent_by q (w_net w)) c' ->
  exists w', wstep members w w' /\ (w_node w' q, sent_by q (w_net w')) = c' /\ elsewhere q w w' /\ aware q lead w'.
Proof.
  intros Sw Hq D [HL HS] (ev & out & p' & Sp & ->). cbn in Sp.
  exists (mkWorld (<[q := p']> (w_node w)) (recorded q (w_node w q) ev (w_history w)) (w_net w ++ ((q,.) <$> out))).
  split; [apply (W_step _ _ q box (look lead)); [done..|]; by apply (pstep_leads _ _ lead)|]. cbn [w_node w_net w_history].
  rewrite fn_lookup_insert, sent_by_app. split; [done|]. split; [|split; [by eapply leads_recorded|by apply sees_more]].
  split; cbn [w_node w_net w_history]; [|intros x Hx; apply elem_of_app; by left].
  intros v Hv. rewrite fn_lookup_insert_ne, sent_by_other by done. done.
Qed.

Lemma elsewhere_trans q w1 w2 w3 : elsewhere q w1 w2 -> elsewhere q w2 w3 -> elsewhere q w1 w3.
Proof.
  intros [A1 B1] [A2 B2]. split; [|auto]. intros v Hv. destruct (A1 v Hv), (A2 v Hv). split; congruence.
Qed.

(** A run of one node is a run of the world. *)
Lemma lift_local q box lead c c' w :
  local members q box lead c c' -> c = (w_node w q, sent_by q (w_net w)) ->
  safe members w -> q ∈ members -> deliverable (w_net w) q box -> aware q lead w ->
  exists w', rtc (wstep members) w w' /\ (w_node w' q, sent_by q (w_net w')) = c' /\ elsewhere q w w' /\ aware q lead w'.
Proof.
  intros L. revert w. induction L as [c|c c1 c' St _ IH]; intros w Ec Sw Hq D HL; subst c.
  - exists w. split; [apply rtc_refl|]. split; [done|]. split; [by split|done].
  - destruct (lift_step q box lead w c1 Sw Hq D HL St) as (w1 & W1 & E1 & O1 & HL1).
    destruct (IH w1) as (w2 & W2 & E2 & O2 & HL2); [done|by eapply wstep_safe; [apply no_member|..]|done| |done|].
    + destruct box as [[from m]|]; [|done]. destruct D; [left|right]; by apply O1.
    + exists w2. split; [by eapply rtc_l|]. split; [done|]. split; [by eapply elsewhere_trans|done].
Qed.

(** What a node says in reply to log replication while it handles [box] are answers
    to [box]. *)
Lemma local_answers q box lead c c' :
  local members q box lead c c' -> exists l, answers c'.2 = answers c.2 ++ l /\
    forall e, e ∈ l -> exists v m r, box = Some (v, MAppendEntries m) /\ e = Sent v (MAppendEntriesResponse r) /\ aer_rpc_id r = ae_rpc_id m.
Proof.
  induction 1 as [c|c c1 c' (ev & out & p' & Sp & ->) _ (l & E & Hl)].
  - exists []. split; [by rewrite app_nil_r|by intros e He%not_elem_of_nil].
  - exists (answers out ++ l). split; [rewrite E; cbn; by rewrite answers_app, app_assoc|].
    intros e [He|He]%elem_of_app; [|by apply Hl]. destruct (pstep_answer _ _ _ _ _ _ _ _ _ _ Sp He) as (v & m & r & ? & ? & ? & _). by exists v, m, r.
Qed.

(** Only members send. *)
Lemma wsteps_members w w' :
  rtc (wstep members) w w' -> (forall q e, (q, e) ∈ w_net w -> q ∈ members) -> forall q e, (q, e) ∈ w_net w' -> q ∈ members.
Proof.
  induction 1 as [|w w1 w' [q0 box net ev out p' Hq _ _ _] _ IH]; [done|]. intros Hw. apply IH. cbn.
  intros q e [Hin|[-> _]%elem_of_out]%elem_of_app; [by eapply Hw|done].
Qed.
End Lift.

(** * Calls *)

Section Calls.
Context `{RocksDBSpec} `{LogEntryCodecSpec} {asks : Requests}.
Context (members : gset Z) (ids_ok : forall k, k ∈ members -> 0 <= k <= INT32_MAX).

Definition box_of (c : call) : option (Z * Message) :=
  match c with Deliver from m => Some (from, m) | _ => None end.

(** What a leader's log guarantees of the snapshots it sends. *)
Lemma snapshot_prefix w q from r :
  safe members w -> deliverable (w_net w) q (Some (from, MInstallSnapshot r)) ->
  leader_prefix (is_term r) (lead_log (w_history w) (is_term r)) (is_last_included_index r) (is_last_included_term r).
Proof.
  intros Sw D. destruct (box_snapshot members w Sw q from r D) as (El & Hi & Ht & _).
  destruct (leader_log_split members _ _ from (s_history _ _ Sw) El) as (_ & _ & _ & HL & _). split; [done|done|..].
  - intros j Hj. split; [by apply (term_at_pos _ _ _ HL)|].
    by apply (lead_terms members (w_history w) (mkPnode (is_term r) (-1) FOLLOWER ∅ [] 0 0 ∅ 0 [] [] []) (s_history _ _ Sw) from El).
  - intros j e Hj. by destruct (l_entries _ _ HL j e Hj) as (? & _ & ?).
Qed.

(** The entries of an append request are a piece of the leader's log. *)
Lemma append_well_formed w q from r :
  safe members w -> deliverable (w_net w) q (Some (from, MAppendEntries r)) -> 0 <= ae_prev_log_term r -> well_formed (ae_entries r).
Proof.
  intros Sw D Hp. destruct (box_append members w Sw q from r D Hp) as (El & (_ & _ & _ & _ & EU & _) & _).
  destruct (leader_log_split members _ _ from (s_history _ _ Sw) El) as (_ & _ & _ & HL & _).
  assert (well_formed (lead_log (w_history w) (ae_term r))) as W.
  { apply Forall_lookup. intros j e Hj. by destruct (l_entries _ _ HL j e Hj) as (_ & _ & ?). }
  apply (Forall_take _ (Z.to_nat (ae_end r))) in W. unfold upto in EU. rewrite EU in W. by apply Forall_app in W as [_ W].
Qed.

(** In the leader's term, a node agrees with the leader on what both committed. *)
Lemma node_in_step w q from r lead :
  safe members w -> q ∈ members -> from <> q -> deliverable (w_net w) q (Some (from, MInstallSnapshot r)) ->
  leads q lead (w_history w) -> p_term (w_node w q) = is_term r ->
  in_step (lead (is_term r)) (is_last_included_index r) (is_last_included_term r) (w_node w q).
Proof.
  intros Sw Hq Hne D HL Et. destruct (box_snapshot members w Sw q from r D) as (El & Hi & Eit & _).
  pose proof (s_node _ _ Sw q Hq) as N. destruct (HL (is_term r)) as [->|E]; [|congruence].
  destruct (leader_log_split members _ _ from (s_history _ _ Sw) El) as (_ & _ & _ & HLL & _).
  pose proof (term_at_pos _ _ _ HLL Hi) as Hpos. split.
  - intros Hl. destruct (n_leader _ _ _ _ N Hl) as [El' _]. congruence.
  - intros n Hn Hc. destruct (Z.le_gt_cases n 0); [by rewrite !upto_nonpos|]. pose proof (n_commit _ _ _ _ N) as [? _].
    rewrite <- Et. apply (agrees_upto members _ q _ (s_history _ _ Sw) N from); rewrite ?Et; (done || lia || by left).
  - intros Hm. apply (matching (w_history w)); [apply N|done|apply term_at_inside; lia|lia|congruence].
  - intros Hlen Hm. rewrite <- (upto_all (p_recv (w_node w q)) (is_last_included_index r)) by lia.
    apply (matching (w_history w)); [apply N|done|lia|lia|congruence].
Qed.

(** What the proof needs of a call: [may_call], in terms of the protocol. *)
Definition allowed (net : list (Z * Effect)) (lead : outside) (q : Z) (c : call) : Prop :=
  match c with
  | Deliver from m => message_fits m = true /\ deliverable net q (Some (from, m)) /\
      match m with MAppendEntriesResponse r => timely q lead from r | _ => True end
  | DoPropose proposals => asked proposals
  | DoRead callback => all_told (told_before callback) (seen lead)
  | DoSetSnapshotChunkBytes bytes => 0 <= bytes
  | DoSetLeaseReads enabled => enabled = true -> lenient = true
  | _ => True
  end.

Lemma run_call_tri `{!Env} w q c o :
  let lead := mkOutside (lead_log (w_history w)) o in
  safe members w -> q ∈ members -> sees q (known o) (w_net w) -> allowed (w_net w) lead q c ->
  tri members q (box_of c) lead (fun s c => c = (w_node w q, sent_by q (w_net w))) (run_call c) (fun _ _ _ => True).
Proof.
  intros lead Sw Hq HS Hc. destruct c as [from m| |ps|cb| |wu du| | |n|n|b]; cbn [run_call box_of].
  - destruct Hc as (Hf & D' & Ho).
    destruct m as [r|r|r|r|r|r]; cbn [OnRaftMessage message_fits] in *; try (apply Z.leb_le in Hf).
    + eapply tri_conseq; [by apply tri_HandleRequestVote|done..].
    + eapply tri_conseq; [by apply tri_HandleRequestVoteResponse|done..].
    + eapply tri_conseq; [apply tri_HandleAppendEntries; [done..|]; by eapply append_well_formed|done..].
    + eapply tri_conseq; [by apply tri_HandleAppendEntriesResponse|done..].
    + apply andb_true_iff in Hf as [Hf1%Z.leb_le Hf2%Z.leb_le].
      eapply tri_conseq; [apply (tri_HandleInstallSnapshot _ _ _ _ from r (w_node w q, sent_by q (w_net w))); [done..| | |]| |done].
      * by eapply snapshot_prefix.
      * by apply (box_snapshot members w Sw q from r D').
      * intros c Hne L Et. assert (aware q lead w) as HA by (split; [by left|done]).
        destruct (lift_local members ids_ok q _ _ _ c w L eq_refl Sw Hq D' HA) as (w' & W & <- & [_ O] & [HL' _]).
        apply (node_in_step w' q from r); [by eapply wsteps_safe; [by apply no_member|..]|done|done| |done|done].
        destruct D'; [left|right]; by apply O.
      * by intros s c _ ->.
    + eapply tri_conseq; [by apply tri_HandleInstallSnapshotResponse|done..].
  - eapply tri_conseq; [by apply tri_Tick|done..].
  - eapply tri_bind; [eapply tri_conseq; [by apply tri_ProposeBatch|done..]|]. intros n. by apply tri_ret.
  - eapply tri_bind; [by apply tri_True_calm, calm_RequestReadIndex|]. intros n. by apply tri_ret.
  - eapply tri_conseq; [by apply tri_RunApplyWork|done..].
  - eapply tri_conseq; [by apply tri_CompleteApply|done..].
  - eapply tri_conseq; [by apply tri_Start|done..].
  - eapply tri_conseq; [by apply tri_Stop|done..].
  - apply tri_True_calm, calm_SetSnapshotThreshold.
  - apply tri_True_calm. by apply calm_SetSnapshotChunkBytes.
  - by apply tri_True_calm, calm_SetLeaseReads.
Qed.
End Calls.

(** * The refinement *)

Section Refinement.
Context `{RocksDBSpec} `{LogEntryCodecSpec} {asks : Requests}.
Context (members : gset Z) (ids_ok : forall k, k ∈ members -> 0 <= k <= INT32_MAX).

(** A process represents its protocol node. *)
Definition represents (o : outlook) (w : world) (q : Z) (pr : process) : Prop :=
  match pr with
  | Running s => view members q o (s <| _trace := [] |>) (w_node w q, sent_by q (w_net w))
  | Down log_db kv_db =>
      durably members log_db kv_db (w_node w q) /\ spoken q (known o) [] (sent_by q (w_net w))
  end.

(** What the process of member [q] knows of the network. *)
Definition prospect (cl : cluster) (q : Z) : outlook := mkOutlook (cl_net cl) (cl_born cl q).

Record refines (cl : cluster) (w : world) : Prop := {
  rf_safe : safe members w;
  rf_reads : reads_ok members w;
  rf_node q : q ∈ members -> exists pr, cl_node cl !! q = Some pr /\ represents (prospect cl q) w q pr;
  rf_net x : x ∈ cl_net cl -> x ∈ w_net w;
  rf_members q e : (q, e) ∈ w_net w -> q ∈ members;
  rf_cause n v q r : cl_net cl !! n = Some (v, Sent q (MAppendEntriesResponse r)) ->
    exists i m, cl_cause cl n = Some i /\ (i < n)%nat /\ cl_net cl !! i = Some (q, Sent v (MAppendEntries m)) /\ ae_rpc_id m = aer_rpc_id r;
}.

(** The databases are all that matters of a stopped process. *)
Lemma durably_contents log_db kv_db log_db' kv_db' p :
  contents log_db' = contents log_db -> contents kv_db' = contents kv_db ->
  durably members log_db kv_db p -> durably members log_db' kv_db' p.
Proof.
  intros E1 E2 [(a & Hl) (s & Es & Hs & Ea & HD) Dt Dr De Dv Db]. split; try done.
  - exists a. by rewrite E1.
  - exists (mkRocksDBStore kv_db' (store_last_applied s)). split; [done|].
    unfold synced, kv in *. cbn in *. rewrite E2, <- Es. done.
Qed.

(** The network grows by what the process sent. *)
Lemma answers_of_own q net out : answers_of q (net ++ ((q,.) <$> out)) = answers_of q net ++ answers out.
Proof. unfold answers_of. by rewrite sent_by_app, answers_app. Qed.

Lemma spoken_grow q net trace sent :
  spoken q net trace sent -> spoken q (net ++ ((q,.) <$> trace)) [] sent.
Proof.
  intros [T S E]. split.
  - by intros e He%not_elem_of_nil.
  - intros e [He|[_ He]%elem_of_out]%elem_of_app; auto.
  - by rewrite E, answers_of_own, app_nil_r.
Qed.

Lemma spoken_other q v net out sent : v <> q -> spoken v net [] sent -> spoken v (net ++ ((q,.) <$> out)) [] sent.
Proof.
  intros Hv [T S E]. split; [done|..].
  - intros e [He|[? _]%elem_of_out]%elem_of_app; [auto|congruence].
  - unfold answers_of in *. by rewrite sent_by_other.
Qed.

Lemma numbered_grow q net start trace flights seq x out :
  (x = q -> out = trace) -> numbered q (mkOutlook net start) trace flights seq ->
  numbered q (mkOutlook (net ++ ((x,.) <$> out)) start) [] flights seq.
Proof.
  intros Hx Hn peer r [Hin|[Hin|Hf]]; [|by apply not_elem_of_nil in Hin|apply (Hn peer); right; by right].
  cbn in Hin. rewrite drop_app in Hin. apply (Hn peer). apply elem_of_app in Hin as [Hin|Hin]; [by left|].
  right. left. apply (subseteq_drop (_ - _)), elem_of_out in Hin as [Eq Hin]. by rewrite <- (Hx (eq_sym Eq)).
Qed.

Lemma view_grow q net start s c x out :
  (x = q -> out = _trace s) -> (x <> q -> _trace s = []) -> view members q (mkOutlook net start) s c ->
  view members q (mkOutlook (net ++ ((x,.) <$> out)) start) (s <| _trace := [] |>) c.
Proof.
  intros Hx Hne [] . split; cbn; try assumption.
  - destruct (decide (x = q)) as [->|Hq]; [rewrite (Hx eq_refl); by apply spoken_grow|]. apply spoken_other; [congruence|]. by rewrite <- Hne.
  - by apply (numbered_grow _ _ _ (_trace s)).
  - intros a Ha. etrans; [by apply vw_asks|by apply prefix_app_r].
Qed.

(** What a member sees of the world is what the cluster has sent. *)
Lemma refines_spoken cl w v : refines cl w -> v ∈ members -> spoken v (cl_net cl) [] (sent_by v (w_net w)).
Proof.
  intros R Hv. destruct (rf_node _ _ R v Hv) as (pr & _ & Hr). destruct pr; [exact (vw_trace _ _ _ _ _ Hr)|apply Hr].
Qed.

Lemma sent_by_none v net : (forall e, (v, e) ∉ net) -> sent_by v net = [].
Proof.
  intros Hn. destruct (sent_by v net) as [|e l] eqn:E; [done|]. destruct (Hn e). apply sent_by_spec. rewrite E. left.
Qed.

Lemma refines_sees cl w q : refines cl w -> sees q (cl_net cl) (w_net w).
Proof.
  intros R. split; [apply R|]. intros v _. destruct (decide (v ∈ members)) as [Hv|Hv].
  - pose proof (sp_answers _ _ _ _ (refines_spoken cl w v R Hv)) as E. by rewrite app_nil_r in E.
  - unfold answers_of. rewrite !sent_by_none; [done|..]; intros e Hin; [|apply (rf_net _ _ R) in Hin]; by apply (rf_members _ _ R) in Hin.
Qed.

(** A call a process may make is one it can rely on. *)
Lemma refines_allowed cl w q c pos :
  refines cl w -> may_call cl q c pos -> allowed (w_net w) (mkOutside (lead_log (w_history w)) (prospect cl q)) q c.
Proof.
  intros R Hc. destruct c as [from m| |ps|cb| |wu du| | |n|n|b]; cbn in Hc |- *; try done; try (by destruct Hc).
  - destruct Hc as (n & _ & Hf & Hn & Hs). split; [done|]. split.
    { destruct Hn as [Hn|Hn]; [left|right]; by eapply (rf_net _ _ R), list_elem_of_lookup_2. }
    destruct m as [| | |r| |]; try done. intros [_ Hl]%orb_false_elim. destruct Hs as [?|(i & Ei & Hb)]; [congruence|].
    destruct Hn as [Hn|Hn].
    + destruct (rf_cause _ _ R _ _ _ _ Hn) as (i' & m & Ei' & Hi & Hm & E). assert (i' = i) as -> by congruence.
      exists i, n, m. by split.
    + destruct (o_direct _ _ (rf_reads _ _ R) from (MAppendEntriesResponse r)); [|done]. by eapply (rf_net _ _ R), list_elem_of_lookup_2.
  - intros Hb. unfold lenient. by rewrite (proj2 Hc Hb).
Qed.

(** The answers a process sends while it handles [box] are answers to [box]. *)
Definition caused (cl : cluster) (q : Z) (pos : option nat) (trace : list Effect) : Prop :=
  forall v r, Sent v (MAppendEntriesResponse r) ∈ trace ->
    exists n m, pos = Some n /\ cl_net cl !! n = Some (v, Sent q (MAppendEntries m)) /\ ae_rpc_id m = aer_rpc_id r.

Lemma local_caused cl w q box lead c' trace pos :
  refines cl w -> q ∈ members -> local members q box lead (w_node w q, sent_by q (w_net w)) c' -> spoken q (cl_net cl) trace c'.2 ->
  (forall v m, box = Some (v, m) -> exists n, pos = Some n /\ sent_at cl n v q m) -> caused cl q pos trace.
Proof.
  intros R Hq L Hs Hb v r Hin. destruct (local_answers _ _ _ _ _ _ L) as (l & E & Hl).
  pose proof (sp_answers _ _ _ _ (refines_spoken cl w q R Hq)) as E0. cbn [snd] in E. rewrite E0, (sp_answers _ _ _ _ Hs), app_nil_r in E.
  apply (inj (app _)) in E. destruct (Hl (Sent v (MAppendEntriesResponse r))) as (v' & m & r' & Eb & [= <- <-] & Er).
  { rewrite <- E. by apply elem_of_answers. }
  destruct (Hb _ _ Eb) as (n & Ep & [Hn|Hn]); [by exists n, m|].
  destruct (o_direct _ _ (rf_reads _ _ R) v (MAppendEntries m)); [|done]. by eapply (rf_net _ _ R), list_elem_of_lookup_2.
Qed.

(** The causes after a call. *)
Lemma after_cause cl w q pos res n v q' r :
  refines cl w -> caused cl q pos (_trace res.2) -> cl_net (after q pos res cl) !! n = Some (v, Sent q' (MAppendEntriesResponse r)) ->
  exists i m, cl_cause (after q pos res cl) n = Some i /\ (i < n)%nat /\
    cl_net (after q pos res cl) !! i = Some (q', Sent v (MAppendEntries m)) /\ ae_rpc_id m = aer_rpc_id r.
Proof.
  intros R Hc. cbn [after cl_net cl_cause]. intros Hn. destruct (decide (n < length (cl_net cl))%nat) as [Hlt|Hge].
  - rewrite lookup_app_l in Hn by done. destruct (rf_cause _ _ R _ _ _ _ Hn) as (i & m & Ei & Hi & Hm & Er).
    exists i, m. rewrite lookup_app_l by lia. done.
  - rewrite lookup_app_r in Hn by lia. apply list_elem_of_lookup_2, elem_of_out in Hn as [-> Hn].
    destruct (Hc _ _ Hn) as (i & m & Ep & Hm & Er). exists i, m. pose proof (lookup_lt_Some _ _ _ Hm).
    rewrite lookup_app_l by lia. split; [done|]. split; [lia|done].
Qed.

(** A process that ran as the protocol allows. *)
Lemma refines_after cl w w' q pos r c' :
  refines cl w -> q ∈ members -> rtc (wstep members) w w' -> (w_node w' q, sent_by q (w_net w')) = c' -> elsewhere q w w' ->
  caused cl q pos (_trace r.2) ->
  match r with (Ok _, s') => view members q (prospect cl q) s' c' | (Err _, s') => crashed members q (prospect cl q) s' c' end ->
  refines (after q pos r cl) w'.
Proof.
  intros R Hq W Ec [On Ot] Hca Hr. pose proof R as [Sw Ow Rn Rt Rm _].
  assert (spoken q (cl_net cl) (_trace r.2) c'.2) as Hs by (destruct r as [[u|e] s']; [exact (vw_trace _ _ _ _ _ Hr)|apply Hr]).
  split.
  - by eapply wsteps_safe; [by apply no_member|..].
  - by eapply wsteps_reads; [by apply no_member|..].
  - intros v Hv. cbn [after cl_node]. destruct (decide (v = q)) as [->|Hne].
    + rewrite lookup_insert_eq. exists (outcome r). split; [done|]. apply spoken_grow in Hs. destruct r as [[u|e] s']; cbn.
      * rewrite Ec. by apply view_grow.
      * destruct Hr as [D _]. rewrite <- Ec in D, Hs. by split.
    + rewrite lookup_insert_ne by done. destruct (Rn v Hv) as (pr & E & Rv). exists pr. split; [done|].
      destruct (On v Hne) as [E1 E2]. unfold represents in *. rewrite E1, E2. destruct pr as [s|ldb kdb].
      * exact (view_grow v (cl_net cl) (cl_born cl v) (s <| _trace := [] |>) _ q (_trace r.2) (fun E => False_ind _ (Hne (eq_sym E))) (fun _ => eq_refl) Rv).
      * destruct Rv as [D Hsv]. split; [done|by apply spoken_other].
  - cbn. intros [src e] [Hx|Hx]%elem_of_app; [by apply Ot, Rt|]. apply elem_of_out in Hx as [-> He].
    apply sent_by_spec. assert (c'.2 = sent_by q (w_net w')) as <- by (by rewrite <- Ec). by apply (sp_trace _ _ _ _ Hs).
  - by eapply wsteps_members.
  - intros n v q' x. by apply (after_cause cl w).
Qed.

(** A run of a process of [q] from a protocol node it represents. *)
Lemma refines_run cl w q box pos (r : result unit * RaftNode) :
  let lead := mkOutside (lead_log (w_history w)) (prospect cl q) in
  refines cl w -> q ∈ members -> (forall v m, box = Some (v, m) -> exists n, pos = Some n /\ sent_at cl n v q m) ->
  (exists c', local members q box lead (w_node w q, sent_by q (w_net w)) c' /\
    match r with (Ok _, s') => view members q (prospect cl q) s' c' | (Err _, s') => crashed members q (prospect cl q) s' c' end) ->
  exists w', rtc (wstep members) w w' /\ refines (after q pos r cl) w'.
Proof.
  intros lead R Hq Hb (c' & L & Hr). pose proof (refines_sees cl w q R) as HS.
  destruct (lift_local members ids_ok q _ _ _ _ w L eq_refl (rf_safe _ _ R) Hq) as (w' & W & Ec & O & _).
  { destruct box as [[v m]|]; [|done]. destruct (Hb v m eq_refl) as (n & _ & [Hn|Hn]); [left|right]; by eapply (rf_net _ _ R), list_elem_of_lookup_2. }
  { split; [intros t; by left|done]. }
  exists w'. split; [done|]. eapply refines_after; [done..| |done].
  eapply local_caused; [done|done|done| |done]. destruct r as [[u|e] s']; [exact (vw_trace _ _ _ _ _ Hr)|apply Hr].
Qed.

(** The birth of a process does not matter to a stopped one. *)
Lemma refines_reborn cl w q ldb kdb : refines cl w -> cl_node cl !! q = Some (Down ldb kdb) -> refines (reborn q cl) w.
Proof.
  intros [Sw Ow Rn Rt Rm Rc] E. split; try done. intros v Hv. destruct (Rn v Hv) as (pr & Ev & Rv). exists pr. split; [done|].
  destruct (decide (v = q)) as [->|Hne].
  - rewrite E in Ev. injection Ev as <-. exact Rv.
  - assert (prospect (reborn q cl) v = prospect cl v) as ->; [|done]. unfold prospect. cbn. by rewrite fn_lookup_insert_ne.
Qed.

Lemma refines_stopped cl w q s : refines cl w -> q ∈ members -> cl_node cl !! q = Some (Running s) -> refines (stopped q s cl) w.
Proof.
  intros [Sw Ow Rn Rt Rm Rc] Hq Es. split; try done. intros v Hv. cbn [stopped cl_node]. destruct (decide (v = q)) as [->|Hne].
  - rewrite lookup_insert_eq. eexists. split; [done|]. destruct (Rn q Hq) as (pr & Es' & V). rewrite Es in Es'. injection Es' as <-.
    apply (view_crashed _ _ _ _ _ V).
  - rewrite lookup_insert_ne by done. by apply Rn.
Qed.

Lemma refines_step cl w cl' : refines cl w -> cstep members cl cl' -> exists w', rtc (wstep members) w w' /\ refines cl' w'.
Proof.
  intros R St. destruct St as [env q s c pos Hq Es Hc|q s Hq Es|q ldb kdb ldb' kdb' peers ex ks ls Hq Es E1 E2 Hp].
  - apply (refines_run cl w q (box_of c)); [done..| |].
    { intros v m Eb. destruct c; try done. injection Eb as -> ->. destruct Hc as (n & ? & _ & ? & _). by exists n. }
    destruct (rf_node _ _ R q Hq) as (pr & Es' & V). rewrite Es in Es'. injection Es' as <-.
    pose proof (run_call_tri members ids_ok w q c (prospect cl q) (rf_safe _ _ R) Hq (refines_sees _ _ _ R) (refines_allowed _ _ _ _ _ R Hc) _ _ V eq_refl) as HT.
    destruct (run_call c _) as [[u|e] s']; destruct HT as (c' & L & HT); exists c'; (split; [exact L|]); [by destruct HT|done].
  - exists w. split; [apply rtc_refl|]. by apply refines_stopped.
  - destruct (rf_node _ _ R q Hq) as (pr & Es' & D). rewrite Es in Es'. injection Es' as <-. destruct D as [D Hv].
    apply (refines_run (reborn q cl) w q None); [by eapply refines_reborn|done..|].
    apply (durably_contents _ _ ldb' kdb') in D; [|done..].
    pose proof (Construct_recovers members q None (mkOutside (lead_log (w_history w)) (prospect (reborn q cl) q)) Hq) as HC.
    specialize (HC ltac:(unfold seen; cbn; by rewrite fn_lookup_insert) peers ldb' kdb' ex ks ls _ (sent_by q (w_net w)) Hp D Hv).
    destruct (Construct _ _ _) as [[u|e] s']; [destruct HC as (c' & L & HC & _)|destruct HC as [(c' & L & HC) _]]; by exists c'.
Qed.

Lemma refines_steps cl w cl' : refines cl w -> rtc (cstep members) cl cl' -> exists w', rtc (wstep members) w w' /\ refines cl' w'.
Proof.
  intros R St. revert w R. induction St as [cl|cl cl1 cl' St _ IH]; intros w R; [by exists w|].
  destruct (refines_step _ _ _ R St) as (w1 & W1 & R1). destruct (IH w1 R1) as (w2 & W2 & R2).
  exists w2. split; [by etrans|done].
Qed.

Lemma initial_durably log_db kv_db : contents log_db = ∅ -> contents kv_db = ∅ -> durably members log_db kv_db p_initial.
Proof.
  intros El Ek. split; cbn; try done.
  - exists empty_alog. split; [rewrite El; apply stored_recoverable, stored_empty|]. split; [by split|]. split; [by right|done].
  - exists (mkRocksDBStore kv_db 0). split; [done|]. split; [split; [done|by right]|]. split; [done|]. unfold kv. cbn. by rewrite Ek.
  - lia.
  - by left.
Qed.

Lemma spoken_nothing q : spoken q [] [] [].
Proof. by split; [intros e Hx%not_elem_of_nil..|]. Qed.

Lemma initial_refines cl : initial members cl -> refines cl w_initial.
Proof.
  intros [En Hi]. split.
  - apply initial_safe.
  - apply initial_reads.
  - intros q Hq. destruct (Hi q Hq) as (ldb & kdb & E & El & Ek). exists (Down ldb kdb). split; [done|].
    split; [by apply initial_durably|]. cbn. rewrite En. apply spoken_nothing.
  - rewrite En. intros x Hx. by apply not_elem_of_nil in Hx.
  - intros q e Hx. by apply not_elem_of_nil in Hx.
  - rewrite En. done.
Qed.

Lemma reachable_refines cl : reachable members cl -> exists w, refines cl w.
Proof.
  intros (cl0 & Hi & St). destruct (refines_steps _ _ _ (initial_refines _ Hi) St) as (w & _ & R). by exists w.
Qed.
End Refinement.
