(* ===== verification/ClusterTheorems.v ===== *)
(** Raft's safety properties, of the code: they hold in every cluster of
    processes running [RaftNode], whatever the storage faults, crashes, restarts,
    timers and message losses, duplications and reorderings. *)
From stdpp Require Import base numbers strings gmap functions list.
From S2P Require Import Prelude Effects Storage Messages RaftLog LogSpec LogProofs LogRecovery LogTheorems.
From S2P Require Import Text KVStore KVStateMachine KVTheorems KVReplay Metrics Peers RaftState RaftNode RaftProtocol ProtocolSafety ProtocolInvariant ProtocolTheorems ProtocolReads.
From S2P Require Import NodeView NodeElection NodeLife Cluster ClusterSafety ClusterRun.

Section ClusterTheorems.
Context `{RocksDBSpec} `{LogEntryCodecSpec} {asks : Requests}.

(** Member [q] runs the object [s]. *)
Definition runs (cl : cluster) (q : Z) (s : RaftNode) : Prop := cl_node cl !! q = Some (Running s).

(** [Get] finds the entry [e] at index [i] of the log of [s]. *)
Definition has_entry (s : RaftNode) (i : Z) (e : LogEntry) : Prop := Get i (_log s) = (Ok (Some e), _log s).

Section Facts.
Context (members : gset Z) (ids_ok : forall k, k ∈ members -> 0 <= k <= INT32_MAX).

Lemma runs_view cl w q s :
  refines members cl w -> q ∈ members -> runs cl q s -> view members q (prospect cl q) (s <| _trace := [] |>) (w_node w q, sent_by q (w_net w)).
Proof. intros R Hq Hs. destruct (rf_node _ _ _ R q Hq) as (pr & E & V). unfold runs in Hs. rewrite Hs in E. by injection E as <-. Qed.

Lemma view_length o q s c : view members q o s c -> _last_index (_log s) = #(p_log c.1).
Proof. apply (last_index_length members q (mkOutside (fun _ => []) o)). Qed.

(** An entry the code reads is the protocol log's. *)
Lemma has_entry_log o q s c i e :
  view members q o s c -> has_entry s i e -> 0 < i <= #(p_log c.1) /\ p_log c.1 !! Z.to_nat (i - 1) = Some e.
Proof.
  intros V He. destruct (vw_log _ _ _ _ _ V) as (a & (C & [W D _]) & _ & LV & _).
  pose proof (wf_snap_index _ W) as Hs0. pose proof (Get_spec (_log s) a i C W D) as Y. unfold has_entry in He.
  destruct Y as [Y|(x & Y & _)]; [|congruence]. rewrite He in Y. injection Y as Y. symmetry in Y.
  assert (a_snap_index a < i) as Hi.
  { unfold a_entry in Y. by destruct (Z.leb_spec i (a_snap_index a)). }
  rewrite (log_view_entry a (p_log c.1) i LV Hi Hs0) in Y. split; [|done].
  apply lookup_lt_Some in Y. lia.
Qed.

Lemma has_entry_term o q s c i e : view members q o s c -> has_entry s i e -> term_at (p_log c.1) i = term e.
Proof. intros V He. destruct (has_entry_log o q s c i e V He) as [Hi E]. apply term_at_Some; [done|lia]. Qed.

(** Entries at the same index below a common prefix are equal. *)
Lemma has_entry_agree q v o o' s s' c c' i j e e' :
  view members q o s c -> view members v o' s' c' -> upto (p_log c.1) i = upto (p_log c'.1) i -> j <= i ->
  has_entry s j e -> has_entry s' j e' -> e = e'.
Proof.
  intros V V' EL Hj He He'. destruct (has_entry_log o q s c j e V He) as [Hb E], (has_entry_log o' v s' c' j e' V' He') as [_ E'].
  assert (upto (p_log c.1) i !! Z.to_nat (j - 1) = Some e) as Eu by (unfold upto; rewrite lookup_take_lt; [done|lia]).
  rewrite EL in Eu. unfold upto in Eu. rewrite lookup_take_lt in Eu by lia. congruence.
Qed.

(** An index the protocol log has and the code has not compacted is read. *)
Lemma reads_log o q s c i e :
  view members q o s c -> p_log c.1 !! Z.to_nat (i - 1) = Some e -> 0 < i -> _snapshot_index (_log s) < i ->
  i <= _last_index (_log s) /\ yields (_log s) (Get i) (Some e).
Proof.
  intros V E Hi Hs. destruct (vw_log _ _ _ _ _ V) as (a & (C & [W D _]) & _ & LV & _).
  pose proof (wf_snap_index _ W) as Hs0. rewrite (c_snap_index _ _ C) in Hs. rewrite (c_last_index _ _ C), (lv_length _ _ LV).
  split; [apply lookup_lt_Some in E; lia|]. rewrite <- E, <- (log_view_entry a (p_log c.1) i LV Hs Hs0). by apply Get_spec.
Qed.

Lemma lookup_upto (L : list LogEntry) i : 0 < i -> upto L i !! Z.to_nat (i - 1) = L !! Z.to_nat (i - 1).
Proof. intros Hi. unfold upto. rewrite lookup_take_lt; [done|lia]. Qed.

(** What a prefix of the protocol log says of the stored entries. *)
Definition stores (s : RaftNode) (P : list LogEntry) : Prop :=
  forall j e, P !! j = Some e -> Z.of_nat j + 1 <= _last_index (_log s) /\
    (_snapshot_index (_log s) < Z.of_nat j + 1 -> yields (_log s) (Get (Z.of_nat j + 1)) (Some e)).

Lemma prefix_stored o q s c P : view members q o s c -> P `prefix_of` p_log c.1 -> stores s P.
Proof.
  intros V HP j e Hj. pose proof (prefix_lookup_Some _ _ _ _ Hj HP) as E. pose proof (view_length _ _ _ _ V) as Hlen. cbn in Hlen.
  split; [rewrite Hlen; apply lookup_lt_Some in E; lia|]. intros Hs.
  apply (reads_log o q s c _ e V); [|lia|done]. by replace (Z.to_nat (Z.of_nat j + 1 - 1)) with j by lia.
Qed.

(** A committed prefix is in the log of a node that committed as much, and of the
    leaders of its term and later. *)
Lemma committed_has w v T P :
  safe members w -> v ∈ members -> committed members (w_history w) T P ->
  #P <= p_commit (w_node w v) \/ (p_role (w_node w v) = LEADER /\ T <= p_term (w_node w v)) ->
  P `prefix_of` p_log (w_node w v).
Proof.
  intros Sw Hv HC Hc. pose proof (s_node _ _ Sw v Hv) as N. destruct Hc as [Hc|[Hl Ht]].
  - destruct (n_commit _ _ _ _ N) as [Hr HC']. etrans; [|apply (upto_prefix _ (p_commit (w_node w v)))].
    destruct (committed_comparable members _ _ _ _ _ (s_history _ _ Sw) HC HC') as [?|HP]; [done|].
    rewrite (prefix_length_eq _ _ HP); [done|]. apply Nat2Z.inj_le. rewrite length_upto by lia. lia.
  - destruct (n_leader _ _ _ _ N Hl) as (El & <- & _).
    apply (committed_in_leader members _ _ _ v); [apply Sw| |done]. by eapply committed_later.
Qed.

Lemma prefix_within (P L : list LogEntry) i : P `prefix_of` L -> #P <= i -> P `prefix_of` upto L i.
Proof. intros HP Hi. unfold upto. rewrite <- (take_ge P (Z.to_nat i)) by lia. destruct HP as [k ->]. rewrite take_app. by exists (take (Z.to_nat i - length P) k). Qed.

(** The database holds the result of the first [n] entries of [L]. *)
Definition executed (L : list LogEntry) (db : DB) (n : Z) : Prop :=
  0 <= n <= #L /\ n <= INT64_MAX /\ same_data (contents db) (replay (upto L n)) /\
  (contents db !! AppliedKey = Some (marker n) \/ (contents db = ∅ /\ n = 0)).

Lemma executed_prefix L L' db n : L `prefix_of` L' -> executed L db n -> executed L' db n.
Proof.
  intros HP (Hn & Hm & HD & Hk). pose proof (prefix_length_Z _ _ HP). split; [lia|]. split; [done|]. split; [|done].
  by rewrite (prefix_upto L L' n) by (done || lia).
Qed.

Lemma executed_unique L db db' n n' :
  executed L db n -> executed L db' n' -> contents db !! AppliedKey = contents db' !! AppliedKey -> contents db = contents db'.
Proof.
  intros (Hn & Hm & HD & Hk) (Hn' & Hm' & HD' & Hk') E. destruct Hk as [Hk|[Hk _]], Hk' as [Hk'|[Hk' _]].
  - rewrite Hk, Hk' in E. apply (inj Some), marker_inj in E; [|lia..]. subst n'. apply map_eq. intros k.
    destruct (decide (k = AppliedKey)) as [->|Hne]; [congruence|]. by rewrite HD, HD'.
  - by rewrite Hk, Hk', lookup_empty in E.
  - by rewrite Hk, Hk', lookup_empty in E.
  - congruence.
Qed.

(** A committed log and the committed entries the members store agree. *)
Definition shared (cl : cluster) (L : list LogEntry) : Prop :=
  forall v s i e, v ∈ members -> runs cl v s -> has_entry s i e -> i <= _commit_index s -> i <= #L ->
    L !! Z.to_nat (i - 1) = Some e.

Lemma committed_shared cl w T L : refines members cl w -> committed members (w_history w) T L -> shared cl L.
Proof.
  intros Rf HC v s i e Hv Hs He Hi HL. pose proof (rf_safe _ _ _ Rf) as Sw.
  pose proof (runs_view _ _ _ _ Rf Hv Hs) as V. destruct (has_entry_log _ _ _ _ _ _ V He) as [Hr E]. cbn in Hr, E.
  pose proof (vw_commit _ _ _ _ _ V) as Eco. cbn in Eco.
  apply (committed_prefix members _ _ _ (upto L i)) in HC; [|apply upto_prefix].
  assert (upto L i `prefix_of` p_log (w_node w v)) as HP.
  { apply (committed_has w v T); [done..|]. left. rewrite length_upto by lia. lia. }
  assert (upto (p_log (w_node w v)) i = upto L i) as EL.
  { rewrite (prefix_upto (upto L i)), upto_upto by (rewrite ?length_upto; done || lia). done. }
  rewrite <- (lookup_upto L i), <- EL, lookup_upto by lia. done.
Qed.

(** The key-value database of a process, running or not, holds the result of a
    committed prefix. *)
Definition kv_database (pr : process) : DB :=
  match pr with Running s => store_db (_sm s) | Down _ kv_db => kv_db end.

Lemma database_executed cl w q pr :
  refines members cl w -> q ∈ members -> cl_node cl !! q = Some pr ->
  executed (upto (p_log (w_node w q)) (p_commit (w_node w q))) (kv_database pr) (p_applied (w_node w q)).
Proof.
  intros R Hq E. destruct (rf_node _ _ _ R q Hq) as (pr' & E' & V). rewrite E in E'. injection E' as <-.
  pose proof (s_node _ _ (rf_safe _ _ _ R) q Hq) as N. pose proof (n_applied _ _ _ _ N). destruct (n_commit _ _ _ _ N) as [Hc _].
  assert (exists sm, store_db sm = kv_database pr /\ synced sm /\ p_applied (w_node w q) = store_last_applied sm /\
    same_data (kv sm) (replay (upto (p_log (w_node w q)) (p_applied (w_node w q))))) as (sm & <- & [Hr Hk] & Ea & HD).
  { destruct pr as [s|ldb kdb]; cbn in V; [|apply (proj1 V)].
    destruct (vw_sm _ _ _ _ _ V) as (sm & Es & Hs & Ea & _ & HD & _). by exists sm. }
  split; [rewrite length_upto by lia; lia|]. split; [lia|]. rewrite upto_upto by lia.
  split; [exact HD|]. by rewrite Ea.
Qed.
End Facts.

(** * Claims *)

(** C1. Every cluster that members running the code can reach, through any calls,
    storage faults, crashes and restarts and whatever the network does, represents a
    state of the Raft protocol that the protocol reaches: the code refines the
    protocol.  Running objects represent their protocol node in memory and on disk,
    stopped ones by their databases alone. *)
Theorem cluster_refines_protocol (members : gset Z) cl :
  (forall k, k ∈ members -> 0 <= k <= INT32_MAX) -> reachable members cl ->
  exists w, rtc (wstep members) w_initial w /\ refines members cl w.
Proof. intros Hids (cl0 & Hi & St). by apply (refines_steps members Hids cl0); [apply initial_refines|]. Qed.

(** C2. Election safety: no two members are leaders of the same term. *)
Theorem cluster_election_safety (members : gset Z) cl a b sa sb :
  (forall k, k ∈ members -> 0 <= k <= INT32_MAX) -> reachable members cl -> a ∈ members -> b ∈ members ->
  runs cl a sa -> runs cl b sb -> _state sa = LEADER -> _state sb = LEADER -> _current_term sa = _current_term sb ->
  a = b.
Proof.
  intros Hids R Ha Hb Ra Rb La Lb Et. destruct (reachable_refines members Hids cl R) as (w & Rf).
  pose proof (runs_view _ _ _ _ _ Rf Ha Ra) as Va. pose proof (runs_view _ _ _ _ _ Rf Hb Rb) as Vb.
  apply (election_safety members w a b (rf_safe _ _ _ Rf) Ha Hb).
  - rewrite <- La. apply Va.
  - rewrite <- Lb. apply Vb.
  - pose proof (vw_term _ _ _ _ _ Va). pose proof (vw_term _ _ _ _ _ Vb). cbn in *. congruence.
Qed.

(** C3. Log matching: if two members store entries of the same term at the same
    index, these are the same entry, and so are all entries before it that both
    still store. *)
Theorem cluster_log_matching (members : gset Z) cl a b sa sb i ea eb :
  (forall k, k ∈ members -> 0 <= k <= INT32_MAX) -> reachable members cl -> a ∈ members -> b ∈ members ->
  runs cl a sa -> runs cl b sb -> has_entry sa i ea -> has_entry sb i eb -> term ea = term eb ->
  forall j e e', j <= i -> has_entry sa j e -> has_entry sb j e' -> e = e'.
Proof.
  intros Hids R Ha Hb Ra Rb Ea Eb Et j e e' Hj He He'. destruct (reachable_refines members Hids cl R) as (w & Rf).
  pose proof (runs_view _ _ _ _ _ Rf Ha Ra) as Va. pose proof (runs_view _ _ _ _ _ Rf Hb Rb) as Vb.
  eapply (has_entry_agree members a b _ _ (sa <| _trace := [] |>) (sb <| _trace := [] |>) _ _ i j); try done. cbn.
  destruct (has_entry_log _ _ _ _ _ _ _ Va Ea) as [Hia _], (has_entry_log _ _ _ _ _ _ _ Vb Eb) as [Hib _]. cbn in Hia, Hib.
  apply (log_matching members w a b i (rf_safe _ _ _ Rf)); [done|done|lia|lia|].
  pose proof (has_entry_term _ _ _ _ _ _ _ Va Ea) as Ta. pose proof (has_entry_term _ _ _ _ _ _ _ Vb Eb) as Tb. cbn in Ta, Tb. congruence.
Qed.

(** C4. Leader completeness: an entry that a member knows to be committed is in the
    log of every leader of the same or a later term: within its log, and unless
    compacted it is what [Get] returns, barring a storage error. *)
Theorem cluster_leader_completeness (members : gset Z) cl a b sa sb i e :
  (forall k, k ∈ members -> 0 <= k <= INT32_MAX) -> reachable members cl -> a ∈ members -> b ∈ members ->
  runs cl a sa -> runs cl b sb -> has_entry sa i e -> i <= _commit_index sa ->
  _state sb = LEADER -> _current_term sa <= _current_term sb ->
  i <= _last_index (_log sb) /\ (_snapshot_index (_log sb) < i -> yields (_log sb) (Get i) (Some e)).
Proof.
  intros Hids R Ha Hb Ra Rb He Hc Lb Et. destruct (reachable_refines members Hids cl R) as (w & Rf).
  pose proof (runs_view _ _ _ _ _ Rf Ha Ra) as Va. pose proof (runs_view _ _ _ _ _ Rf Hb Rb) as Vb.
  destruct (has_entry_log _ _ _ _ _ _ _ Va He) as [Hia Ea]. cbn in Hia, Ea.
  assert (upto (p_log (w_node w a)) (p_commit (w_node w a)) `prefix_of` p_log (w_node w b)) as HP.
  { apply (leaders_are_complete members w a b (rf_safe _ _ _ Rf)); [done..|rewrite <- Lb; apply Vb|].
    pose proof (vw_term _ _ _ _ _ Va). pose proof (vw_term _ _ _ _ _ Vb). cbn in *. lia. }
  pose proof (vw_commit _ _ _ _ _ Va) as Ec. cbn in Ec.
  assert (p_log (w_node w b) !! Z.to_nat (i - 1) = Some e) as Eb.
  { eapply prefix_lookup_Some; [|exact HP]. unfold upto. rewrite lookup_take_lt; [done|lia]. }
  pose proof (view_length members _ _ _ _ Vb) as Hlen. cbn in Hlen. split.
  - rewrite Hlen. apply lookup_lt_Some in Eb. lia.
  - intros Hs. by apply (reads_log members _ b _ _ i e Vb Eb); [lia|].
Qed.

(** C5. State machine safety: if a member knows index [i] to be committed and at any
    later time, after any calls, crashes and restarts, a member (the same or another)
    knows it to be committed, both have the same entry there. *)
Theorem cluster_state_machine_safety (members : gset Z) cl cl' a b sa sb i ea eb :
  (forall k, k ∈ members -> 0 <= k <= INT32_MAX) -> reachable members cl -> rtc (cstep members) cl cl' ->
  a ∈ members -> b ∈ members -> runs cl a sa -> runs cl' b sb ->
  i <= _commit_index sa -> i <= _commit_index sb -> has_entry sa i ea -> has_entry sb i eb -> ea = eb.
Proof.
  intros Hids R St Ha Hb Ra Rb Ca Cb Ea Eb. destruct (reachable_refines members Hids cl R) as (w & Rf).
  destruct (refines_steps members Hids _ _ _ Rf St) as (w' & W & Rf').
  pose proof (runs_view _ _ _ _ _ Rf Ha Ra) as Va. pose proof (runs_view _ _ _ _ _ Rf' Hb Rb) as Vb.
  eapply (has_entry_agree members a b _ _ (sa <| _trace := [] |>) (sb <| _trace := [] |>) _ _ i i); try done. cbn.
  pose proof (vw_commit _ _ _ _ _ Va). pose proof (vw_commit _ _ _ _ _ Vb). cbn in *.
  apply (state_machine_safety members (no_member members Hids) w w' a b i (rf_safe _ _ _ Rf) W Ha Hb); lia.
Qed.

(** C6. One vote per term, for ever: a member never grants its vote of a term to two
    candidates, even if it crashes and restarts in between. *)
Theorem cluster_one_vote (members : gset Z) cl v a b ra rb :
  (forall k, k ∈ members -> 0 <= k <= INT32_MAX) -> reachable members cl ->
  (v, Sent a (MRequestVoteResponse ra)) ∈ cl_net cl -> (v, Sent b (MRequestVoteResponse rb)) ∈ cl_net cl ->
  rvr_vote_granted ra = true -> rvr_prevote ra = false -> rvr_vote_granted rb = true -> rvr_prevote rb = false ->
  rvr_term ra = rvr_term rb -> a = b.
Proof.
  intros Hids R Ia Ib Ga Pa Gb Pb Et. destruct (reachable_refines members Hids cl R) as (w & Rf).
  destruct (s_net _ _ (rf_safe _ _ _ Rf) _ _ (rf_net _ _ _ Rf _ Ia)) as [_ [?|[?|(c & L & [= <-] & Va)]]]; [congruence..|].
  destruct (s_net _ _ (rf_safe _ _ _ Rf) _ _ (rf_net _ _ _ Rf _ Ib)) as [_ [?|[?|(c & L' & [= <-] & Vb)]]]; [congruence..|].
  rewrite Et in Va. congruence.
Qed.

(** C7. Acknowledged writes are executed once and durably: when a member told a client
    that its command was done, the command has a place in the log, after entries [P],
    and the reply is the one the state machine gives to it after executing [P] in order;
    from then on, whatever crashes, restarts and elections follow, every member that
    knows the command's index to be committed and every leader of the term of the
    acknowledgement or a later one stores [P] and the command: within its log, and
    unless compacted they are what [Get] returns, barring a storage error. *)
Theorem cluster_acknowledged_writes (members : gset Z) cl q cb reply :
  (forall k, k ∈ members -> 0 <= k <= INT32_MAX) -> reachable members cl -> (q, ProposeReply cb true reply) ∈ cl_net cl ->
  exists P e T, command e = command_of cb /\ replies P [e] = [reply] /\
    (forall s, q ∈ members -> runs cl q s -> T <= _current_term s) /\
    forall cl' v s, rtc (cstep members) cl cl' -> v ∈ members -> runs cl' v s ->
      #P + 1 <= _commit_index s \/ (_state s = LEADER /\ T <= _current_term s) -> stores s (P ++ [e]).
Proof.
  intros Hids R Hin. destruct (reachable_refines members Hids cl R) as (w & Rf).
  destruct (s_replies _ _ (rf_safe _ _ _ Rf) q cb reply (rf_net _ _ _ Rf _ Hin)) as (P & e & [_ HT HC _] & Ec & Er).
  set (T := term e) in *. exists P, e, T. split; [done|]. split; [done|]. split.
  { intros s Hq Hs. pose proof (vw_term _ _ _ _ _ (runs_view _ _ _ _ _ Rf Hq Hs)) as E. cbn in E. lia. }
  intros cl' v s St Hv Hs Hc. destruct (refines_steps members Hids _ _ _ Rf St) as (w' & W & Rf').
  pose proof (runs_view _ _ _ _ _ Rf' Hv Hs) as V. pose proof (vw_commit _ _ _ _ _ V) as Eco.
  pose proof (vw_role _ _ _ _ _ V) as Ero. pose proof (vw_term _ _ _ _ _ V) as Et. cbn in Eco, Ero, Et.
  apply (prefix_stored members _ v _ _ _ V). apply (committed_has members w' v T); [apply Rf'|done| |].
  - by eapply committed_wsteps; [by apply no_member|apply (rf_safe _ _ _ Rf)|..].
  - rewrite Eco, Ero, Et, length_app. cbn. destruct Hc as [?|[? ?]]; [left; lia|by right].
Qed.

(** C8. Reads are linearizable: when a member told a client that its read is confirmed
    at index [i], then its database, on which the read is executed, holds from then on
    the result of executing at least the first [i] entries of the log that all members'
    committed entries belong to, and these entries include every write that had been
    acknowledged, by whatever member, when the read was requested.  This assumes that
    reads are not served from leases, and that the answer to a request for log
    replication reaches only the process that sent the request, not one started after
    a crash (it is sent on the connection the request came in on); answers may still be
    lost, duplicated, delayed and reordered.  That a process does not use an identifier
    twice is proved of the code, not assumed. *)
Theorem cluster_linearizable_reads (members : gset Z) cl q cb i error pr :
  (forall k, k ∈ members -> 0 <= k <= INT32_MAX) -> reachable members cl -> leases = false -> crossing = false ->
  (q, ReadReply cb true i error) ∈ cl_net cl -> cl_node cl !! q = Some pr ->
  exists L n, executed L (kv_database pr) n /\ shared members cl L /\ i <= n /\
    forall cb', cb' ∈ told_before cb ->
      exists P e reply, command e = command_of cb' /\ replies P [e] = [reply] /\ P ++ [e] `prefix_of` upto L i.
Proof.
  intros Hids R Hls Hcr Hin E. assert (lenient = false) as Hl by (unfold lenient; by rewrite Hls, Hcr). destruct (reachable_refines members Hids cl R) as (w & Rf). pose proof (rf_safe _ _ _ Rf) as Sw.
  apply (rf_net _ _ _ Rf) in Hin. pose proof (rf_members _ _ _ Rf _ _ Hin) as Hq.
  destruct (o_reads _ _ (rf_reads _ _ _ Rf) q cb i error Hin Hl) as [Hi HC].
  pose proof (database_executed members cl w q pr Rf Hq E) as HX.
  destruct (n_commit _ _ _ _ (s_node _ _ Sw q Hq)) as [_ Cq].
  eexists _, _. split; [exact HX|]. split; [by eapply committed_shared|]. split; [done|]. intros cb' Hcb.
  destruct (HC cb' Hcb) as (P & e & reply & Ce & Ec & Er & HP). exists P, e, reply. split; [done|]. split; [done|].
  assert (#(P ++ [e]) = #P + 1) as Hlen by (rewrite length_app; cbn; lia). destruct HX as [Hn _].
  apply prefix_within; [|lia]. destruct (committed_comparable members _ _ _ _ _ (s_history _ _ Sw) Ce Cq) as [?|Hp]; [done|].
  rewrite (prefix_length_eq _ _ Hp); [done|]. lia.
Qed.

(** C9. Replicas agree: the key-value databases of two members, running or stopped, at
    whatever two times, hold the results of executing two prefixes of one and the same
    log from the empty store, a log that every member's committed entries belong to.
    In particular, two databases with the same applied marker are equal. *)
Theorem cluster_replicas_agree (members : gset Z) cl cl' a b pa pb :
  (forall k, k ∈ members -> 0 <= k <= INT32_MAX) -> reachable members cl -> rtc (cstep members) cl cl' ->
  a ∈ members -> b ∈ members -> cl_node cl !! a = Some pa -> cl_node cl' !! b = Some pb ->
  (exists L na nb, executed L (kv_database pa) na /\ executed L (kv_database pb) nb /\ shared members cl' L) /\
  (contents (kv_database pa) !! AppliedKey = contents (kv_database pb) !! AppliedKey ->
   contents (kv_database pa) = contents (kv_database pb)).
Proof.
  intros Hids R St Ha Hb Ea Eb. destruct (reachable_refines members Hids cl R) as (w & Rf).
  destruct (refines_steps members Hids _ _ _ Rf St) as (w' & W & Rf'). pose proof (rf_safe _ _ _ Rf') as Sw'.
  pose proof (database_executed members cl w a pa Rf Ha Ea) as Xa. pose proof (database_executed members cl' w' b pb Rf' Hb Eb) as Xb.
  set (na := p_applied (w_node w a)) in *. set (nb := p_applied (w_node w' b)) in *.
  destruct (n_commit _ _ _ _ (s_node _ _ (rf_safe _ _ _ Rf) a Ha)) as [_ Ca], (n_commit _ _ _ _ (s_node _ _ Sw' b Hb)) as [_ Cb].
  apply (committed_wsteps members (no_member members Hids) _ _ _ _ (rf_safe _ _ _ Rf) W) in Ca.
  assert (exists T L, committed members (w_history w') T L /\ executed L (kv_database pa) na /\ executed L (kv_database pb) nb)
    as (T & L & HC & XLa & XLb).
  { destruct (committed_comparable members _ _ _ _ _ (s_history _ _ Sw') Ca Cb) as [HP|HP].
    - eexists (p_term (w_node w' b)), _. split; [exact Cb|]. split; [by eapply executed_prefix|done].
    - eexists (p_term (w_node w a)), _. split; [exact Ca|]. split; [done|by eapply executed_prefix]. }
  split; [|by eapply executed_unique]. exists L, na, nb. split; [done|]. split; [done|]. by eapply committed_shared.
Qed.

(** C10. A stopped member can always be restarted: whatever stopped it, and at whatever
    point of whatever call, on databases that keep what it left and report no fault the
    constructor, given a configuration it accepts, succeeds, and yields a follower. *)
Theorem cluster_restarts (members : gset Z) cl q log_db kv_db log_db' kv_db' peers executor :
  (forall k, k ∈ members -> 0 <= k <= INT32_MAX) -> reachable members cl -> q ∈ members ->
  cl_node cl !! q = Some (Down log_db kv_db) ->
  contents log_db' = contents log_db -> contents kv_db' = contents kv_db -> faultless log_db' -> faultless kv_db' ->
  peer_ids peers ≡ₚ elements members -> is_ok (ValidatePeers q peers) = true ->
  exists s, Construct OK OK (initial_node q peers log_db' kv_db' executor) = (Ok tt, s) /\ _state s = FOLLOWER.
Proof.
  intros Hids R Hq E El Ek Fl Fk Hp Hvp. destruct (reachable_refines members Hids cl R) as (w & Rf).
  destruct (rf_node _ _ _ Rf q Hq) as (pr & E' & D). rewrite E in E'. injection E' as <-. destruct D as [D _].
  apply (durably_contents members _ _ log_db' kv_db') in D; [|done..].
  pose proof (spoken_nothing q) as Hv.
  pose proof (Construct_recovers members q None (mkOutside (lead_log (w_history w)) (mkOutlook [] 0)) Hq (le_n _) peers log_db' kv_db' executor OK OK _ [] Hp D Hv) as HC.
  destruct (Construct _ _ _) as [[[]|x] s].
  - destruct HC as (c & _ & V & Hr). exists s. split; [done|]. rewrite <- Hr. symmetry. apply V.
  - destruct HC as [_ HC]. by destruct HC.
Qed.

(** C11. A leader only appends: as long as a member leads a term, later calls keep
    the entries it stored at every index, unless compacted; and no member's term ever
    decreases, even across crashes and restarts. *)
Theorem cluster_leader_append_only (members : gset Z) cl cl' q s s' :
  (forall k, k ∈ members -> 0 <= k <= INT32_MAX) -> reachable members cl -> rtc (cstep members) cl cl' ->
  q ∈ members -> runs cl q s -> runs cl' q s' ->
  _current_term s <= _current_term s' /\
  (_state s = LEADER -> _state s' = LEADER -> _current_term s = _current_term s' ->
   forall i e, has_entry s i e ->
     i <= _last_index (_log s') /\ (_snapshot_index (_log s') < i -> yields (_log s') (Get i) (Some e))).
Proof.
  intros Hids R St Hq Hs Hs'. destruct (reachable_refines members Hids cl R) as (w & Rf).
  destruct (refines_steps members Hids _ _ _ Rf St) as (w' & W & Rf').
  destruct (wsteps_grow members (no_member members Hids) _ _ (rf_safe _ _ _ Rf) W) as [Gl Gt].
  pose proof (runs_view _ _ _ _ _ Rf Hq Hs) as V. pose proof (runs_view _ _ _ _ _ Rf' Hq Hs') as V'.
  pose proof (vw_term _ _ _ _ _ V) as Et. pose proof (vw_term _ _ _ _ _ V') as Et'. cbn in Et, Et'.
  split; [rewrite <- Et, <- Et'; apply Gt|]. intros Hl Hl' Eq i e He.
  pose proof (vw_role _ _ _ _ _ V) as Er. pose proof (vw_role _ _ _ _ _ V') as Er'. cbn in Er, Er'.
  destruct (n_leader _ _ _ _ (s_node _ _ (rf_safe _ _ _ Rf) q Hq) ltac:(congruence)) as (_ & EL & _).
  destruct (n_leader _ _ _ _ (s_node _ _ (rf_safe _ _ _ Rf') q Hq) ltac:(congruence)) as (_ & EL' & _).
  destruct (has_entry_log _ _ _ _ _ _ _ V He) as [Hi E]. cbn in Hi, E.
  assert (p_log (w_node w q) `prefix_of` p_log (w_node w' q)) as HP.
  { rewrite <- EL, <- EL', Et, Et', <- Eq. apply Gl. }
  pose proof (prefix_stored members _ q _ _ _ V' HP _ _ E) as Hst. by replace (Z.of_nat (Z.to_nat (i - 1)) + 1) with i in Hst by lia.
Qed.
End ClusterTheorems.

(** * Witnesses *)

Module Witness.
Import Three.

Lemma member q : bool_decide (q ∈ members) = true -> q ∈ members.
Proof. apply bool_decide_eq_true_1. Qed.

(** Evaluates to true where [Get] finds [e]. *)
Definition finds (s : RaftNode) (i : Z) (e : LogEntry) : bool :=
  match (Get i (_log s)).1 with Ok (Some e') => bool_decide (e' = e) | _ => false end.

Lemma finds_entry s i e : finds s i e = true -> has_entry s i e.
Proof.
  unfold finds, has_entry. pose proof (Get_pure i (_log s)) as Hp. destruct (Get i (_log s)) as [r l]. cbn in *. subst l.
  destruct r as [[e'|]|x]; [|done..]. by intros ->%bool_decide_eq_true_1.
Qed.

Lemma cluster_refines_protocol_witness :
  reachable members cluster4 /\ exists w, rtc (wstep members) w_initial w /\ refines members cluster4 w.
Proof. split; [apply cluster4_reachable|]. apply (cluster_refines_protocol members cluster4 ids_in_range cluster4_reachable). Defined.

Lemma cluster_election_safety_witness :
  (runs cluster3 1 (node cluster3 1) /\ _state (node cluster3 1) = LEADER) /\ 1 = 1.
Proof.
  assert (runs cluster3 1 (node cluster3 1)) as R by (apply node_up; by vm_compute).
  assert (_state (node cluster3 1) = LEADER) as L by (by vm_compute).
  split; [exact (conj R L)|].
  apply (cluster_election_safety members cluster3 1 1 _ _ ids_in_range cluster3_reachable) with (3 := R) (4 := R) (5 := L) (6 := L);
    [apply member; by vm_compute|apply member; by vm_compute|reflexivity].
Defined.

Definition entry1 : LogEntry := mkLogEntry 1 1 [].
Definition entry2 : LogEntry := mkLogEntry 2 1 set_a.

Lemma cluster_log_matching_witness :
  (has_entry (node cluster3 0) 2 entry2 /\ has_entry (node cluster3 1) 2 entry2) /\
  forall e e', has_entry (node cluster3 0) 1 e -> has_entry (node cluster3 1) 1 e' -> e = e'.
Proof.
  assert (has_entry (node cluster3 0) 2 entry2) as E0 by (apply finds_entry; by vm_compute).
  assert (has_entry (node cluster3 1) 2 entry2) as E1 by (apply finds_entry; by vm_compute).
  split; [exact (conj E0 E1)|]. intros e e'.
  apply (cluster_log_matching members cluster3 0 1 _ _ 2 entry2 entry2 ids_in_range cluster3_reachable) with (5 := E0) (6 := E1);
    [apply member; by vm_compute|apply member; by vm_compute|apply node_up; by vm_compute|apply node_up; by vm_compute|reflexivity|lia].
Defined.

Lemma cluster_leader_completeness_witness :
  (_state (node cluster3 1) = LEADER /\ _commit_index (node cluster3 0) = 2) /\ 2 <= _last_index (_log (node cluster3 1)).
Proof.
  assert (_state (node cluster3 1) = LEADER) as L by (by vm_compute).
  assert (_commit_index (node cluster3 0) = 2) as C by (by vm_compute).
  split; [exact (conj L C)|].
  apply (cluster_leader_completeness members cluster3 0 1 (node cluster3 0) (node cluster3 1) 2 entry2 ids_in_range cluster3_reachable);
    [apply member; by vm_compute|apply member; by vm_compute|apply node_up; by vm_compute|apply node_up; by vm_compute
    |apply finds_entry; by vm_compute|rewrite C; lia|exact L|by vm_compute].
Defined.

Lemma cluster_state_machine_safety_witness :
  has_entry (node cluster2 0) 2 entry2 /\ has_entry (node cluster4 2) 2 entry2 /\ entry2 = entry2.
Proof.
  assert (has_entry (node cluster2 0) 2 entry2) as E0 by (apply finds_entry; by vm_compute).
  assert (has_entry (node cluster4 2) 2 entry2) as E2 by (apply finds_entry; by vm_compute).
  split; [exact E0|]. split; [exact E2|].
  apply (cluster_state_machine_safety members cluster2 cluster4 0 2 (node cluster2 0) (node cluster4 2) 2 entry2 entry2
    ids_in_range cluster2_reachable);
    [etrans; [apply cluster23|apply cluster34]|apply member; by vm_compute|apply member; by vm_compute|apply node_up; by vm_compute
    |apply node_up; by vm_compute|by vm_compute|by vm_compute|exact E0|exact E2].
Defined.

Definition vote (t : Z) : RequestVoteResponse := mkRequestVoteResponse t true false.

Lemma cluster_one_vote_witness : (1, Sent 0 (MRequestVoteResponse (vote 1))) ∈ cl_net cluster4 /\ 0 = 0.
Proof.
  assert ((1, Sent 0 (MRequestVoteResponse (vote 1))) ∈ cl_net cluster4) as I.
  { apply (list_elem_of_lookup_2 _ 9). by vm_compute. }
  split; [exact I|]. exact (cluster_one_vote members cluster4 1 0 0 (vote 1) (vote 1) ids_in_range cluster4_reachable I I
    eq_refl eq_refl eq_refl eq_refl eq_refl).
Defined.

Lemma cluster_acknowledged_writes_witness :
  (exists reply, (0, ProposeReply 7 true reply) ∈ cl_net cluster4) /\
  exists P e, command e = set_a /\ replies P [e] = [lit "+OK" ++ crlf] /\
    (#P + 1 <= _commit_index (node cluster4 2) -> stores (node cluster4 2) (P ++ [e])).
Proof.
  assert ((0, ProposeReply 7 true (lit "+OK" ++ crlf)) ∈ cl_net cluster4) as I.
  { apply (list_elem_of_lookup_2 _ 18). by vm_compute. }
  split; [by eexists|].
  destruct (cluster_acknowledged_writes members cluster4 0 7 _ ids_in_range cluster4_reachable I) as (P & e & T & Ec & Er & _ & Hd).
  exists P, e. split; [exact Ec|]. split; [exact Er|]. intros Hc.
  apply (Hd cluster4 2 (node cluster4 2)); [apply rtc_refl| | |by left].
  - apply member. by vm_compute.
  - apply node_up. by vm_compute.
Defined.

(** A client reads after the write was acknowledged. *)
Definition read_cluster : cluster := run read2 cluster2.

Lemma cluster_linearizable_reads_witness :
  (0, ReadReply 8 true 2 []) ∈ cl_net read_cluster /\
  exists L n, executed L (store_db (_sm (node read_cluster 0))) n /\ 2 <= n /\
    exists P e, command e = set_a /\ P ++ [e] `prefix_of` upto L 2.
Proof.
  assert ((0, ReadReply 8 true 2 []) ∈ cl_net read_cluster) as I.
  { apply (list_elem_of_lookup_2 _ 23). by vm_compute. }
  split; [exact I|].
  destruct (cluster_linearizable_reads members read_cluster 0 8 2 [] (Running (node read_cluster 0)) ids_in_range) as (L & n & HX & _ & Hn & HC);
    [|reflexivity|reflexivity|exact I|apply node_up; by vm_compute|].
  - apply (steps_reachable cluster2); [apply cluster2_reachable|apply run_steps; by vm_compute].
  - exists L, n. split; [exact HX|]. split; [exact Hn|]. destruct (HC 7%nat) as (P & e & reply & Ec & _ & HP); [by left|].
    exists P, e. split; [exact Ec|exact HP].
Defined.

(** The stored applied marker of a member. *)
Definition marker_of (cl : cluster) (q : Z) : option bytes := contents (store_db (_sm (node cl q))) !! AppliedKey.

Lemma cluster_replicas_agree_witness :
  marker_of cluster2 0 = Some (marker 2) /\ marker_of cluster4 1 = marker_of cluster4 2 /\
  contents (store_db (_sm (node cluster4 1))) = contents (store_db (_sm (node cluster4 2))).
Proof.
  assert (marker_of cluster4 1 = marker_of cluster4 2) as E by (by vm_compute).
  split; [by vm_compute|]. split; [exact E|].
  apply (cluster_replicas_agree members cluster4 cluster4 1 2 (Running (node cluster4 1)) (Running (node cluster4 2))
    ids_in_range cluster4_reachable);
    [apply rtc_refl|apply member; by vm_compute|apply member; by vm_compute|apply node_up; by vm_compute
    |apply node_up; by vm_compute|exact E].
Defined.

(** Member 0 crashes. *)
Definition crashed_cluster : cluster := run [Crash 0] cluster3.

Lemma cluster_restarts_witness :
  let s := node cluster3 0 in
  cl_node crashed_cluster !! 0 = Some (Down (_db (_log s)) (store_db (_sm s))) /\
  exists s', Construct OK OK (initial_node 0 peers (_db (_log s)) (store_db (_sm s)) true) = (Ok tt, s') /\ _state s' = FOLLOWER.
Proof.
  intros s. assert (cl_node crashed_cluster !! 0 = Some (Down (_db (_log s)) (store_db (_sm s)))) as E by (vm_compute; reflexivity).
  split; [exact E|].
  apply (cluster_restarts members crashed_cluster 0 (_db (_log s)) (store_db (_sm s)) (_db (_log s)) (store_db (_sm s)) peers true ids_in_range);
    [|apply member; by vm_compute|exact E|reflexivity|reflexivity|split; by vm_compute|split; by vm_compute
    |apply (bool_decide_unpack _); by vm_compute|by vm_compute].
  apply (steps_reachable cluster3); [apply cluster3_reachable|apply run_steps; by vm_compute].
Defined.

Lemma cluster_leader_append_only_witness :
  has_entry (node cluster1 0) 1 entry1 /\ 1 <= _last_index (_log (node cluster2 0)).
Proof.
  assert (has_entry (node cluster1 0) 1 entry1) as E by (apply finds_entry; by vm_compute).
  split; [exact E|].
  destruct (cluster_leader_append_only members cluster1 cluster2 0 (node cluster1 0) (node cluster2 0)
    ids_in_range cluster1_reachable cluster12) as [_ HA];
    [apply member; by vm_compute|apply node_up; by vm_compute|apply node_up; by vm_compute|].
  refine (proj1 (HA _ _ _ 1 entry1 E)); by vm_compute.
Defined.
End Witness.
